(* ===== verification/_CoqProject ===== *)
-Q . S2P
Prelude.v
RustStr.v
CoreTypes.v
Externals.v
Nip34Common.v
HexModel.v
Grasp.v
Nip34Repo.v
Nip34Events.v
GitReceive.v
RepoEvents.v
EventFilters.v
CommandCli.v
RelayCompat.v
RelayEvent.v
RelayStore.v
Membership.v
NostrAuth.v
Database.v
HttpAuth.v
RelayAdapter.v
CommandState.v
Dispatch.v
DispatchFacts.v
Config.v
Repositories.v
PostgresRepos.v
Directory.v
Cache.v
StateService.v
GitHook.v
Outbox.v
Forgejo.v
AuthService.v
ControlService.v
Coordinator.v
CoordinatorFacts.v
GitHttp.v
SyncService.v
Migrations.v
Observability.v
Migrate.v
EventRepo.v
PostgresEvents.v
RepositoryStore.v
RelayProtocol.v
AdmissionService.v
RelaySession.v
Wire.v
RelaySessionFacts.v
RelayServer.v
RelayProbe.v
Tenants.v
Admin.v
WebApp.v
Browser.v
BrowserPages.v
