(* ===== verification/Prelude.v ===== *)
(** * Gittree: a verification library

    Gittree hosts git repositories whose ownership, references and discussion
    are Nostr events.  This library models the code that decides things: the
    core crate, which every service calls, the storage crate, the services, the
    commands, and the web application up to its markup.

    ** The program's parts and how they interact

    - [crates/core] parses events into announcements, states, patches, issues,
      pull requests, statuses and server lists, and validates them; from a set
      of events it computes the maintainers of a repository, its latest state
      and its clone URLs; it decides which ref updates a push may make and
      which events a relay admits; it parses the textual commands of control
      events and compares a relay's capabilities with what gittree needs.
    - [crates/storage] gives the repositories behind the services, in memory, in
      PostgreSQL and behind a cache, an outbox of events to publish, and the
      migrations of the schema, which [crates/migrate] runs.  [crates/config]
      reads configurations, [crates/observability] sets up logs and traces.
    - [services/relay] serves the tenants of a relay: each socket has a session; a
      text becomes a message, which goes through rate limits, authentication,
      membership, policy and the admission hook, then to the event store, and what
      is stored is broadcast to the other sessions.
    - [services/admission] answers the hook, by the rules of the core crate, by what is
      stored, and by the compatibility records that [crates/relay-probe] writes.
    - [services/dispatch] subscribes to relays for control commands, executes each
      one once and keeps accounts, profiles and repositories as command state,
      which [services/state] serves, besides the state and the maintainers of
      repositories.
    - [services/control] creates users, repositories and relay tenants, at the forge
      ([crates/forgejo]), in the outbox and in storage; [services/admin] is its
      command line, and maps repositories to names at the forge.
    - [services/coordinator] publishes the outbox to relays ([crates/relay-adapter]) and
      provisions announced repositories at the forge and on disk.
    - [services/git-http] passes git requests to the forge, pushes of maintainers only;
      [services/git-hook] judges a push by the state that the state service answers and
      announces what was received; [services/webhook] announces what the forge
      reports; [services/sync] brings a repository in line with its announced state.
    - [services/auth] signs users up and keeps their profiles; [crates/app-core] signs
      and [crates/nostr-auth] checks the requests (NIP-98).
    - [services/app] with [crates/app-ui] is the web application, on the server and in the
      browser; [services/ui] writes pages of its own.

    ** Files

    Shared: [Prelude] (this file: results, notations, sorting, the order of
    maps, tactics, hint databases), [RustStr] (the [str] and [String] methods
    the sources use, on UTF-8 byte strings), [Externals] (one class of
    operations per third-party crate, with its documented laws), [HexModel] (an
    instance of the [hex] crate that meets its laws).

    The core crate, in [src/crates/core/src]:
    - [CoreTypes]: [lib.rs], [kinds.rs], [tags.rs];
    - [Nip34Common]: [nip34_common.rs], [repo_mapping.rs], [repo_path.rs];
    - [Grasp]: [grasp.rs];
    - [Nip34Repo]: [nip34.rs];
    - [Nip34Events]: [nip34_issues.rs], [nip34_patches.rs],
      [nip34_proposals.rs], [nip34_status.rs], [nip34_grasp_list.rs],
      [nip34_events.rs];
    - [GitReceive]: [refs.rs], [git_refs.rs], [git_receive.rs];
    - [RepoEvents]: [repo_events.rs];
    - [EventFilters]: [event_refs.rs], [event_filters.rs], [admission.rs];
    - [CommandCli]: [command_cli.rs];
    - [RelayCompat]: [nip11.rs], [relay_compat.rs].

    Authentication, configuration, crates between services:
    - [NostrAuth]: [lib.rs] and [nip98.rs] of [src/crates/app-core/src],
      [src/crates/nostr-auth/src/lib.rs];
    - [HttpAuth]: what the services share of reading a signed request;
    - [Config]: [src/crates/config/src/lib.rs];
    - [Observability]: [src/crates/observability/src/lib.rs];
    - [RelayAdapter]: [src/crates/relay-adapter/src/lib.rs];
    - [RelayProbe]: [lib.rs] and [main.rs] of [src/crates/relay-probe/src];
    - [Forgejo]: [src/crates/forgejo/src/lib.rs].

    Storage, in [src/crates/storage/src]:
    - [Membership]: [relay_membership.rs], [error.rs] and the membership part
      of [repositories.rs];
    - [EventRepo]: [event.rs] and the event part of [repositories.rs];
    - [PostgresEvents]: the events, memberships and invitations of [postgres.rs];
    - [Database]: what a statement of [postgres.rs] is, its failures, and the rules
      for reasoning about sequences of statements;
    - [CommandState]: [command_state.rs] and the [v1_*] methods of [postgres.rs];
    - [Repositories]: [repo.rs], [repo_mapping.rs], [account.rs], [profile.rs],
      [relay_tenant.rs], [relay_compat.rs], [queries.rs] and their parts of
      [repositories.rs];
    - [PostgresRepos]: the same repositories of [postgres.rs], and the laws of
      announcements and states that both implementations meet;
    - [Directory]: the laws of accounts, profiles, tenants and mappings, and the
      implementations that meet them;
    - [Cache]: [cache.rs];
    - [Outbox]: [outbox.rs] and its parts of [repositories.rs] and [postgres.rs],
      with the laws [OutboxLaws] that both implementations meet;
    - [Migrations]: [migrations.rs] and the scripts of [src/migrations];
    - [Migrate]: [lib.rs] and [main.rs] of [src/crates/migrate/src].

    The relay, in [src/services/relay/src]:
    - [RelayEvent]: [event.rs], [tags.rs], [filter.rs], [subscription.rs],
      [policy.rs];
    - [RelayStore]: the [EventStore] trait and [MemoryStore] of [store.rs];
    - [RepositoryStore]: the rest of [store.rs], the store over a repository;
    - [RelayProtocol]: [protocol.rs], [notice.rs], the encoder of [driver.rs],
      [admission_client.rs];
    - [RelaySession]: [session.rs] and [handle_text] of [driver.rs];
    - [Wire]: an event from the adapter of [RelayAdapter] to the relay's session;
    - [RelaySessionFacts]: the theorems on sessions;
    - [RelayServer]: [lib.rs], [cli.rs], [server.rs] and the loop of [driver.rs], the
      sessions of a relay together.

    The other services:
    - [AdmissionService]: [src/services/admission/src/lib.rs];
    - [Dispatch]: [lib.rs], [handlers.rs], [ingest.rs] of
      [src/services/dispatch/src]; [DispatchFacts]: the theorems;
    - [StateService]: [src/services/state/src/lib.rs];
    - [GitHook]: [src/services/git-hook/src/lib.rs],
      [src/services/webhook/src/lib.rs];
    - [GitHttp]: [src/services/git-http/src/lib.rs];
    - [SyncService]: [src/services/sync/src/lib.rs];
    - [AuthService]: [src/services/auth/src/lib.rs];
    - [ControlService]: [lib.rs] and [control_action.rs] of [src/services/control/src];
    - [Tenants]: what the control service creates, as the relay serves it;
    - [Coordinator]: [src/services/coordinator/src/lib.rs]; [CoordinatorFacts]:
      the theorems;
    - [Admin]: [cli.rs] and [main.rs] of [src/services/admin/src], alone and at the
      control service.

    The web application:
    - [WebApp]: [src/crates/app-ui/src/server.rs], [src/services/app/src/lib.rs],
      [src/services/ui/src/lib.rs];
    - [Browser]: the validation of forms, the keys, the session, the token and the
      clients of [src/crates/app-ui/src];
    - [BrowserPages]: the actions of [src/crates/app-ui/src/app.rs], and the pages at the
      auth service.

    ** How the model corresponds to the code

    - A [struct] is a [Record], an [enum] an [Inductive], a function a
      [Definition] of the same name; a method of a type whose name would clash
      is prefixed by the type ([RepoState::validate] is [RepoState_validate]).
      A [for] loop is a [Fixpoint] or a fold over the list, named after it.
    - [Result] is [result E A] with [x ← c; k] for the [?] operator.  A function
      that can panic returns an [option], [None] being the panic; a handler that can
      panic fails with a [fault], [Raised] or [Panicked].
    - Strings are byte strings; a slice checks its character boundaries.
    - [HashMap] and [BTreeMap] are [gmap]; iterating a [BTreeMap] is
      [btree_iter], sorted by key, and iterating a [HashMap] is [hash_iter], of
      which only that it permutes the entries is known ([HashOrder]).
    - Integers are [Z], with the wrapping, truncating and saturating operations
      of their width where the code performs them.
    - A stateful operation returns its result and the new state; code that awaits
      a repository at each step is a [stateful] computation.  A trait is a class,
      its implementations are instances, and what a client relies on is a class of
      laws that the implementations are proved to meet: [RelayMembershipLaws],
      [EventRepositoryLaws], [CommandStoreLaws], [AnnouncementLaws], [StateLaws],
      [OutboxLaws], [AccountLaws], [ProfileLaws], [TenantLaws], [MappingLaws],
      [CompatibilityLaws].
    - What is not part of the repository is a class too, with the documented
      behaviour that the code relies on as its laws, which a sample instance meets:
      crates ([HexLaws], [CryptoLaws], [Bip340Laws], [SignerLaws], [TimeLaws],
      [HttpLaws], [Base64Laws], [JsonFrames], the codecs of serde such as
      [EventCodecLaws]), the forge ([ForgeLaws]), git
      ([GitRefsLaws], [GitProcessLaws]), the browser ([WebWindowLaws]) and what passes
      between two parts over HTTP ([ControlWireLaws], [AuthWireLaws]).
    - A database is its tables and the outcomes of the statements to come: each
      statement succeeds, fails, or fails to report that it succeeded.  Accordingly a
      law of a repository lets a failed write have taken effect.  [EventRepositoryLaws]
      has reads that do not change the repository, so its instance is the in-memory one;
      what PostgreSQL does is the subject of C30.
    - The clock, instants and random bytes are arguments ([Env], [Clock]), as are
      environment variables, the answers of other services and what a relay sends.

    ** What the theorems show

    - Relay sessions: only authorised events reach the store (C1), authentication is
      sound (C2), unauthenticated clients read nothing (C34), retention terminates, and
      what it leaves, with and without an error (C35), rate limits (C40).
    - The relay as a whole: tenants keep their events apart (C21), and a published event
      reaches the subscribers of its tenant (C32); a tenant that the control service
      creates is served, with the key that asked for it as a member (C19), and what happens
      to a host that is taken (C37).
    - Relay stores: the invariant of every reachable state (C17) and the refinement of
      [query] to a reference query (C15); the events in the database, with transactions
      and failing statements, refine a table of records and answer as the in-memory
      repository does (C30).
    - Admission: what strict mode admits when it does not repeat a cached decision (C12), and
      that the records a probe stores, of what a relay's document says and of an event
      written and read back, govern it (C14).
    - Control requests and commands: who is obeyed (C3), what a request for a repository
      asks of the forge and puts in the outbox (C24); a command touches nothing of other users (C6), what
      relays send refines a sequence of commands and their answers (C10), and every
      delivered command ends up executed and logged (C31).
    - State: the maintainer closure terminates, is sound, and is exact unless announcements
      tie for the latest (C26), and the cache agrees
      with the repository behind it (C25).
    - Pushes: only maintainers push (C4), maintainers can (C18), the decision on
      references as a specification (C16), the hook accepts exactly what it allows (C7),
      the webhook forwards authentic requests only (C22), and a run of the sync service
      that fetches from URLs brings the repository in line (C8).
    - Publishing: the outbox drains after an outage (C9), nothing counts as published
      that no relay accepted (C23), an interrupted publication is stuck (C36).
    - Signed requests and accounts: what is accepted (C11), and a request changes nothing
      but what belongs to its signer (C5).
    - The web application: repositories of private profiles are hidden (C13), a
      browser keeps the account of its key (C27), and the form and the service check a
      profile alike (C28).
    - The commands: a mapping is where git requests are then sent (C20), what the administration
      reports of the control service, and that it cannot create a repository (C38); that the
      migration command reports what it did is a lemma of [Migrate].
    - Formats: announcements signed, sent and read by the relay (C29), NIP-34 events
      written and read back (C33), and what a validated event carries (C39).

    Each component also proves the lemmas behind these and others beside them, among
    them the policy and filters of relay events, references, GRASP servers and clone
    URLs, repository addresses, compatibility reports, the interrupted migration that
    needs a repair, the isolation of tenants in a repository, the arguments of the
    administration written and read back, and the absence of panics.

    ** Fuel

    [collect_maintainers_inner] recurses along maintainers with a set of visited
    keys; each call that recurses adds a key with an announcement, so one more
    than the number of events is enough, which [collect_maintainers_spec] proves.
    [resolve_loop] of the state service and [maintainers_loop] of the git service
    take [resolve_fuel] and [maintainers_fuel], one more than the number of keys that
    can be queued, which C26 and C18 prove to be enough.  The retention loop deletes at
    least one event per round, so more fuel than stored events is enough, which C35
    proves; the steps of the relay server hand it on.  [poll_rounds] of the sync service
    waits in intervals up to a timeout and takes [poll_fuel], two more than the intervals
    of the timeout.  [evict_loop] removes an entry per round and takes the number of
    entries.  The loops over connections, rounds of waiting and turns of a socket run over
    lists of what happens to them.  The scanners of [RustStr] that consume a string piece
    by piece take its length as fuel, each piece being nonempty.  All other recursion is
    structural.

    ** What is not modelled

    Codecs that serde derives, which are classes; binding sockets and serving HTTP, that is
    the [serve] functions of the services and the glue around them; metrics; the
    transactions of several clients of the database at once, but for the one reading that
    [torn_read] of [PostgresEvents] shows; the declarations of the hook's command line; the markup, the reactive rendering, the translations and the theme of
    the web application, which belong to its framework; test support.  A poisoned lock,
    which only follows a panic, is not a result of the in-memory repositories; the caches
    model it.  A name that the forge answers is a name it allows ([segment]). *)

From stdpp Require Export base tactics option list sorting gmap strings pretty.

(** ** Notations *)

Declare Scope rust_scope.
Delimit Scope rust_scope with rust.
(** [str == str] *)
Notation "s == t" := (String.eqb s t) (at level 70, no associativity) : rust_scope.
(** An arm of a [match] whose pattern is a partial function. *)
Notation "'when' x ':=' e 'then' a 'else' b" :=
  (match e with Some x => a | None => b end)
  (at level 200, x name, e at level 200, a at level 200, right associativity) : rust_scope.
#[global] Open Scope rust_scope.

(** ** Results: [std::result::Result] *)

Inductive result (E A : Type) : Type :=
| Ok (a : A)
| Err (e : E).
Arguments Ok {E A} a.
Arguments Err {E A} e.

#[export] Instance result_eq_dec `{EqDecision E, EqDecision A} : EqDecision (result E A).
Proof. solve_decision. Defined.

(** [x ← c; k] is Rust's [let x = c?; k]. *)
#[export] Instance result_ret E : MRet (result E) := λ A a, Ok a.
#[export] Instance result_bind E : MBind (result E) := λ A B f m,
  match m with Ok a => f a | Err e => Err e end.
#[export] Instance result_fmap E : FMap (result E) := λ A B f m,
  match m with Ok a => Ok (f a) | Err e => Err e end.

Definition is_ok {E A} (r : result E A) : bool :=
  match r with Ok _ => true | Err _ => false end.

(** [Result::ok]. *)
Definition ok {E A} (r : result E A) : option A :=
  match r with Ok a => Some a | Err _ => None end.

(** [Option::ok_or]. *)
Definition ok_or {E A} (e : E) (o : option A) : result E A :=
  match o with Some a => Ok a | None => Err e end.

(** [Result::map_err]. *)
Definition map_err {E F A} (f : E → F) (r : result E A) : result F A :=
  match r with Ok a => Ok a | Err e => Err (f e) end.

(** A guard: [if b { return Err(e) }]. *)
Definition fail_if {E} (b : bool) (e : E) : result E unit :=
  if b then Err e else Ok tt.

(** [for x in l { if bad(x) { return Err(err(x)) } }]. *)
Fixpoint check_each {E A} (bad : A → bool) (err : A → E) (l : list A) : result E unit :=
  match l with
  | [] => Ok tt
  | x :: l => if bad x then Err (err x) else check_each bad err l
  end.

(** [if let Some(x) = o { if bad(x) { return Err(err(x)) } }]. *)
Definition check_opt {E A} (bad : A → bool) (err : A → E) (o : option A) : result E unit :=
  match o with Some x => fail_if (bad x) (err x) | None => Ok tt end.

(** [for x in l { body(x)? }] threading an accumulator. *)
Fixpoint try_fold {E A S} (body : S → A → result E S) (s : S) (l : list A) : result E S :=
  match l with
  | [] => Ok s
  | x :: l => match body s x with Ok s => try_fold body s l | Err e => Err e end
  end.

(** [iter.map(f).collect::<Result<Vec<_>, _>>()]. *)
Fixpoint try_map {E A B} (f : A → result E B) (l : list A) : result E (list B) :=
  match l with
  | [] => Ok []
  | x :: l =>
      match f x with
      | Err e => Err e
      | Ok y => match try_map f l with Err e => Err e | Ok ys => Ok (y :: ys) end
      end
  end.

(** [Iterator::find_map]. *)
Fixpoint find_map {A B} (f : A → option B) (l : list A) : option B :=
  match l with
  | [] => None
  | x :: l => match f x with Some y => Some y | None => find_map f l end
  end.

Definition is_nil {A} (l : list A) : bool := match l with [] => true | _ => false end.
Definition is_none {A} (o : option A) : bool :=
  match o with None => true | Some _ => false end.
Definition is_some {A} (o : option A) : bool :=
  match o with None => false | Some _ => true end.

(** ** Stateful computations: a state passed along, left behind also on an error *)

Definition stateful (S E A : Type) : Type := S → result E A * S.
#[export] Instance stateful_ret S E : MRet (stateful S E) := λ A a s, (Ok a, s).
#[export] Instance stateful_bind S E : MBind (stateful S E) := λ A B f c s,
  match c s with (Ok a, s) => f a s | (Err e, s) => (Err e, s) end.

Definition lift {S E A} (r : result E A) : stateful S E A := λ s, (r, s).

(** [for x in l { body(x)?; }] *)
Fixpoint for_each {S E A} (body : A → stateful S E unit) (l : list A) : stateful S E unit :=
  match l with
  | [] => mret tt
  | x :: l => _ ← body x; for_each body l
  end.

(** ** Machine integers, kept as [Z] with their width written out *)

Definition u32_max : Z := 2 ^ 32 - 1.
Definition u64_max : Z := 2 ^ 64 - 1.
Definition i32_min : Z := - 2 ^ 31.
Definition i32_max : Z := 2 ^ 31 - 1.
Definition i64_min : Z := - 2 ^ 63.
Definition i64_max : Z := 2 ^ 63 - 1.

Definition in_range (lo hi z : Z) : bool := bool_decide (lo ≤ z)%Z && bool_decide (z ≤ hi)%Z.

(** Two's complement wrap-around of a release build. *)
Definition wrap_i64 (z : Z) : Z := ((z + 2 ^ 63) mod 2 ^ 64 - 2 ^ 63)%Z.
(** [x as u32] *)
Definition as_u32 (z : Z) : Z := (z mod 2 ^ 32)%Z.
(** [x as i64] *)
Definition as_i64 (z : Z) : Z := wrap_i64 z.
Definition saturate_i64 (z : Z) : Z := Z.max i64_min (Z.min i64_max z).
(** [i64::abs] of a release build: [i64::MIN.abs()] wraps to itself. *)
Definition abs_i64 (z : Z) : Z := wrap_i64 (Z.abs z).

(** ** Iteration orders *)

(** A [BTreeMap<String, V>] iterates in ascending order of its keys (the
    order of UTF-8 strings is the lexicographic order of their bytes). *)
Definition key_le {V} (p q : string * V) : Prop := String.le p.1 q.1.
#[export] Instance key_le_dec {V} : RelDecision (@key_le V).
Proof. intros p q. unfold key_le. apply _. Defined.
Definition btree_iter {V} (m : gmap string V) : list (string * V) :=
  merge_sort key_le (map_to_list m).

(** A [HashMap] iterates in an order Rust leaves unspecified: a permutation
    of its entries and nothing more. *)
Class HashOrder := {
  hash_iter : ∀ {V : Type}, gmap string V → list (string * V);
  hash_iter_perm : ∀ {V : Type} (m : gmap string V), hash_iter m ≡ₚ map_to_list m
}.

(** ** Automation *)

Create HintDb gittree discriminated.
#[export] Hint Constants Opaque : gittree.
Create Rewrite HintDb gittree_simpl.

(** Case split on the scrutinee of a [match] or [if] in a hypothesis, keeping
    its equation, and throw away the branches that contradict it. *)
Ltac split_in H :=
  match type of H with
  | context [match ?x with _ => _ end] =>
      let E := fresh "E" in destruct x eqn:E; simplify_eq/=
  end.
Ltac split_all H := repeat (split_in H; simplify_eq/=).

(** Case split on the innermost scrutinee of the goal. *)
Ltac split_goal :=
  match goal with
  | |- context [match ?x with _ => _ end] =>
      lazymatch x with context [match _ with _ => _ end] => fail | _ => idtac end;
      let E := fresh "E" in destruct x eqn:E; simplify_eq/=
  end.

(** Turn boolean tests into the propositions they decide. *)
Ltac reflect_bools :=
  repeat match goal with
  | H : bool_decide _ = true |- _ => apply bool_decide_eq_true_1 in H
  | H : bool_decide _ = false |- _ => apply bool_decide_eq_false_1 in H
  | H : negb _ = true |- _ => apply negb_true_iff in H
  | H : negb _ = false |- _ => apply negb_false_iff in H
  | H : (_ && _) = true |- _ => apply andb_true_iff in H as [? ?]
  | H : (_ || _) = false |- _ => apply orb_false_iff in H as [? ?]
  end.

(** Two equations for the same call determine each other. *)
Ltac same_call :=
  repeat match goal with
  | H1 : ?x = ?a, H2 : ?x = ?b |- _ =>
      first [constr_eq a b; fail 1 | is_var x; fail 1 | idtac];
      rewrite H1 in H2; simplify_eq
  end.

(** ** Lemmas on results *)

Lemma bind_Ok {E A B} (m : result E A) (f : A → result E B) b :
  (m ≫= f) = Ok b ↔ ∃ a, m = Ok a ∧ f a = Ok b.
Proof. destruct m; simpl; naive_solver. Qed.

Lemma stateful_bind_Ok {S E A B} (c : stateful S E A) (k : A → stateful S E B) s b s' :
  (c ≫= k) s = (Ok b, s') ↔ ∃ a s1, c s = (Ok a, s1) ∧ k a s1 = (Ok b, s').
Proof. unfold mbind, stateful_bind. destruct (c s) as [[a|e] s1]; naive_solver. Qed.

Lemma lift_Ok {S E A} (r : result E A) (s s' : S) a : lift r s = (Ok a, s') ↔ r = Ok a ∧ s' = s.
Proof. unfold lift. naive_solver. Qed.

Lemma fmap_Ok {E A B} (f : A → B) (r : result E A) b :
  f <$> r = Ok b ↔ ∃ a, r = Ok a ∧ b = f a.
Proof. destruct r; simpl; naive_solver. Qed.

Lemma bind_Ok_unit {E B} (m : result E unit) (k : result E B) b :
  (m ≫= λ _, k) = Ok b ↔ m = Ok tt ∧ k = Ok b.
Proof. rewrite bind_Ok. split; [by intros ([] & ? & ?)|intros [??]; by exists tt]. Qed.

Lemma map_err_Ok {E F A} (f : E → F) (r : result E A) a : map_err f r = Ok a ↔ r = Ok a.
Proof. destruct r; simpl; split; congruence. Qed.

Lemma fail_if_Ok {E} b (e : E) : fail_if b e = Ok tt ↔ b = false.
Proof. by destruct b. Qed.

Lemma ok_or_Ok {E A} (e : E) (o : option A) a : ok_or e o = Ok a ↔ o = Some a.
Proof. destruct o; naive_solver. Qed.

Lemma check_opt_Ok {E A} (bad : A → bool) (err : A → E) o :
  check_opt bad err o = Ok tt ↔ ∀ x, o = Some x → bad x = false.
Proof. destruct o; simpl; rewrite ?fail_if_Ok; naive_solver. Qed.

Lemma check_each_Ok {E A} (bad : A → bool) (err : A → E) l :
  check_each bad err l = Ok tt ↔ Forall (λ x, bad x = false) l.
Proof.
  induction l as [|x l IH]; simpl; [split; auto|].
  rewrite Forall_cons. destruct (bad x); naive_solver.
Qed.

Lemma check_each_pos {E A} (good : A → bool) (err : A → E) l :
  check_each (λ x, negb (good x)) err l = Ok tt ↔ Forall (λ x, good x = true) l.
Proof. rewrite check_each_Ok. by setoid_rewrite negb_false_iff. Qed.

Lemma check_opt_pos {E A} (good : A → bool) (err : A → E) o :
  check_opt (λ x, negb (good x)) err o = Ok tt ↔ Forall (λ x, good x = true) (option_list o).
Proof.
  destruct o; simpl; [rewrite fail_if_Ok, negb_false_iff, Forall_singleton|]; by split; auto.
Qed.

(** The error of a checking loop is the one of its first offender. *)
Lemma check_each_Err {E A} (bad : A → bool) (err : A → E) l e :
  check_each bad err l = Err e ↔
  ∃ l1 x l2, l = l1 ++ x :: l2 ∧ Forall (λ y, bad y = false) l1 ∧ bad x = true ∧ e = err x.
Proof.
  induction l as [|x l IH]; simpl.
  { split; [done|]. intros ([|? ?] & ? & ? & ? & _); done. }
  destruct (bad x) eqn:Hx.
  - split; [intros [= <-]; by exists [], x, l|].
    intros ([|y l1] & z & l2 & [= -> ->] & Hl & Hz & ->); [done|].
    apply Forall_cons in Hl as [? _]. congruence.
  - rewrite IH. split.
    + intros (l1 & z & l2 & -> & ? & ? & ->). exists (x :: l1), z, l2.
      repeat split; auto.
    + intros ([|y l1] & z & l2 & [= -> ->] & Hl & Hz & ->); [congruence|].
      apply Forall_cons in Hl as [_ ?]. by exists l1, z, l2.
Qed.

Lemma try_fold_app {E A S} (body : S → A → result E S) s l k :
  try_fold body s (l ++ k) = (s' ← try_fold body s l; try_fold body s' k).
Proof.
  revert s. induction l as [|x l IH]; intros s; simpl; [done|].
  destruct (body s x); simpl; [apply IH|done].
Qed.

(** An invariant of the body of a loop is an invariant of the loop. *)
Lemma try_fold_inv {E A S} (P : S → Prop) (body : S → A → result E S) l s s' :
  (∀ s x s', P s → body s x = Ok s' → P s') →
  P s → try_fold body s l = Ok s' → P s'.
Proof.
  intros Hstep. revert s. induction l as [|x l IH]; intros s Hs; simpl; [naive_solver|].
  destruct (body s x) eqn:E1; [|done]. eauto.
Qed.

(** A loop whose body never fails is a left fold. *)
Lemma try_fold_total {E A S} (step : S → A → S) (s : S) (l : list A) :
  try_fold (λ s x, Ok (E:=E) (step s x)) s l = Ok (foldl step s l).
Proof. revert s. induction l as [|x l IH]; intros s; simpl; auto. Qed.

Lemma try_map_Ok {E A B} (f : A → result E B) l k :
  try_map f l = Ok k ↔ Forall2 (λ x y, f x = Ok y) l k.
Proof.
  revert k. induction l as [|x l IH]; intros k; simpl.
  { split; [intros [= <-]; constructor|by inversion 1]. }
  destruct (f x) as [y|e] eqn:Hx.
  - split.
    + destruct (try_map f l) as [ys|] eqn:Hl; [|done]. intros [= <-].
      constructor; [done|]. by apply IH.
    + intros (y0 & ys & Hy & Hys & ->)%Forall2_cons_inv_l. apply IH in Hys as ->. congruence.
  - split; [done|]. intros (y0 & ys & Hy & _)%Forall2_cons_inv_l. congruence.
Qed.

Lemma find_map_Some {A B} (f : A → option B) l y :
  find_map f l = Some y ↔
  ∃ l1 x l2, l = l1 ++ x :: l2 ∧ Forall (λ z, f z = None) l1 ∧ f x = Some y.
Proof.
  induction l as [|x l IH]; simpl.
  { split; [done|]. by intros ([|? ?] & ? & ? & ? & _). }
  destruct (f x) eqn:Hx.
  - split; [intros [= ->]; by exists [], x, l|].
    intros ([|z l1] & w & l2 & [= -> ->] & Hl & Hw); [congruence|].
    apply Forall_cons in Hl as [? _]. congruence.
  - rewrite IH. split.
    + intros (l1 & z & l2 & -> & ? & ?). exists (x :: l1), z, l2. auto.
    + intros ([|z l1] & w & l2 & [= -> ->] & Hl & Hw); [congruence|].
      apply Forall_cons in Hl as [_ ?]. by exists l1, w, l2.
Qed.

Lemma find_map_None {A B} (f : A → option B) l :
  find_map f l = None ↔ Forall (λ z, f z = None) l.
Proof.
  induction l as [|x l IH]; simpl; [split; auto|].
  rewrite Forall_cons. destruct (f x); naive_solver.
Qed.

Lemma find_map_app {A B} (f : A → option B) l1 l2 :
  find_map f (l1 ++ l2) = match find_map f l1 with Some y => Some y | None => find_map f l2 end.
Proof. induction l1 as [|x l1 IH]; simpl; [done|]. by destruct (f x). Qed.

Lemma is_some_true {A} (o : option A) : is_some o = true ↔ is_Some o.
Proof. destruct o; simpl; split; try done; by intros [? [=]]. Qed.

Lemma ok_Some {E A} (r : result E A) a : ok r = Some a ↔ r = Ok a.
Proof. destruct r; simpl; naive_solver. Qed.

Lemma existsb_true {A} (f : A → bool) l : existsb f l = true ↔ ∃ x, x ∈ l ∧ f x = true.
Proof. rewrite existsb_exists. by setoid_rewrite list_elem_of_In. Qed.

Lemma existsb_false {A} (f : A → bool) l : existsb f l = false ↔ ∀ x, x ∈ l → f x = false.
Proof.
  induction l as [|y l IH]; simpl.
  - split; [|done]. intros _ x Hx. by apply not_elem_of_nil in Hx.
  - rewrite orb_false_iff, IH. set_solver.
Qed.

Lemma forallb_true {A} (f : A → bool) l : forallb f l = true ↔ ∀ x, x ∈ l → f x = true.
Proof. rewrite forallb_forall. by setoid_rewrite list_elem_of_In. Qed.

(** ** Lemmas on machine integers *)

Lemma wrap_i64_range z : (i64_min ≤ wrap_i64 z ≤ i64_max)%Z.
Proof. unfold wrap_i64, i64_min, i64_max. pose proof (Z.mod_pos_bound (z + 2^63) (2^64)). lia. Qed.

Lemma wrap_i64_id z : (i64_min ≤ z ≤ i64_max)%Z → wrap_i64 z = z.
Proof. unfold wrap_i64, i64_min, i64_max. intros. rewrite Z.mod_small; lia. Qed.

Lemma in_range_true lo hi z : in_range lo hi z = true ↔ (lo ≤ z ≤ hi)%Z.
Proof. unfold in_range. rewrite andb_true_iff, !bool_decide_eq_true. done. Qed.

(** ** Lemmas on iteration orders *)

#[export] Instance key_le_total {V} : Total (@key_le V).
Proof. intros p q. apply (total String.le). Qed.
#[export] Instance key_le_trans {V} : Transitive (@key_le V).
Proof. intros p q r ??. unfold key_le in *. by etrans. Qed.

Lemma btree_iter_perm {V} (m : gmap string V) : btree_iter m ≡ₚ map_to_list m.
Proof. apply merge_sort_Permutation. Qed.

Lemma elem_of_btree_iter {V} (m : gmap string V) k v : (k, v) ∈ btree_iter m ↔ m !! k = Some v.
Proof. rewrite btree_iter_perm. apply elem_of_map_to_list. Qed.

Lemma btree_iter_sorted {V} (m : gmap string V) : StronglySorted key_le (btree_iter m).
Proof. apply StronglySorted_merge_sort; apply _. Qed.

Lemma elem_of_hash_iter `{HashOrder} {V} (m : gmap string V) k v :
  (k, v) ∈ hash_iter m ↔ m !! k = Some v.
Proof. rewrite hash_iter_perm. apply elem_of_map_to_list. Qed.

#[export] Hint Rewrite @bind_Ok_unit @bind_Ok @fail_if_Ok @ok_or_Ok @check_each_Ok
  @check_opt_Ok @in_range_true : gittree_simpl.

(** Decompose a successful chain of [?]s. *)
Ltac ok_inv H := autorewrite with gittree_simpl in H.
