(* ===== verification/RustStr.v ===== *)
(** * [RustStr]: the part of Rust's [str] the sources use

    A Rust [str] is its UTF-8 byte sequence, modelled by [string] (one
    [ascii] per byte): [len] counts bytes, and the searches ([strip_prefix],
    [contains], [find], [split] on an ASCII separator) are searches on bytes,
    as in the standard library.  The operations that look at characters
    ([trim], [chars], [is_whitespace]) go through [chars], which cuts a byte
    sequence at its UTF-8 lead bytes; a character is the string of its bytes.
    Integers are printed by stdpp's [pretty] (plain decimal, as [Display] on
    Rust integers) and read by [parse_int], which follows
    [core::num::from_str_radix]. *)

From Stdlib Require Export Ascii.
From S2P Require Import Prelude.

(** ** Prefixes, suffixes and searches *)

Definition is_empty (s : string) : bool := bool_decide (s = "").

Fixpoint strip_prefix (p s : string) : option string :=
  match p with
  | "" => Some s
  | String a p =>
      match s with
      | "" => None
      | String b s => if bool_decide (a = b) then strip_prefix p s else None
      end
  end.

Definition starts_with (p s : string) : bool := is_some (strip_prefix p s).

Definition strip_suffix (p s : string) : option string :=
  String.rev <$> strip_prefix (String.rev p) (String.rev s).

Definition ends_with (p s : string) : bool := is_some (strip_suffix p s).

(** [s.find(p)], as the parts of [s] before and after the first match. *)
Fixpoint find_split (p s : string) : option (string * string) :=
  match strip_prefix p s with
  | Some rest => Some ("", rest)
  | None =>
      match s with
      | "" => None
      | String b s =>
          match find_split p s with
          | Some (before, after) => Some (String b before, after)
          | None => None
          end
      end
  end.

Definition contains (p s : string) : bool := is_some (find_split p s).

(** [s.split_once(c)] *)
Fixpoint split_once (c : ascii) (s : string) : option (string * string) :=
  match s with
  | "" => None
  | String b s =>
      if bool_decide (c = b) then Some ("", s)
      else match split_once c s with
           | Some (before, after) => Some (String b before, after)
           | None => None
           end
  end.

Definition contains_char (c : ascii) (s : string) : bool := is_some (split_once c s).

(** [s.split(c)] *)
Fixpoint split (c : ascii) (s : string) : list string :=
  match s with
  | "" => [""]
  | String b s =>
      if bool_decide (c = b) then "" :: split c s
      else match split c s with
           | [] => [String b ""]
           | w :: ws => String b w :: ws
           end
  end.

(** [s.splitn(n, c)]: at most [n] parts, the last one unsplit. *)
Fixpoint splitn (n : nat) (c : ascii) (s : string) : list string :=
  match n with
  | 0 => []
  | 1 => [s]
  | S n =>
      match split_once c s with
      | None => [s]
      | Some (before, after) => before :: splitn n c after
      end
  end.

(** [ws.join(sep)] *)
Fixpoint join (sep : string) (ws : list string) : string :=
  match ws with
  | [] => ""
  | [w] => w
  | w :: ws => w +:+ sep +:+ join sep ws
  end.

(** [s.replace(p, r)] for a nonempty [p]; [fuel] bounds the length of [s]. *)
Fixpoint replace_go (fuel : nat) (p r s : string) : string :=
  match fuel with
  | 0 => s
  | S fuel =>
      match find_split p s with
      | None => s
      | Some (before, after) => before +:+ r +:+ replace_go fuel p r after
      end
  end.
Definition replace (p r s : string) : string := replace_go (S (String.length s)) p r s.

(** [&s[..n]]: [None] is the panic of an index that is out of range or not
    on a character boundary. *)
Definition is_continuation (a : ascii) : bool :=
  let n := nat_of_ascii a in (128 <=? n) && (n <? 192).
Fixpoint slice_to (n : nat) (s : string) : option string :=
  match n, s with
  | 0, String b _ => if is_continuation b then None else Some ""
  | 0, "" => Some ""
  | S n, String b s => String b <$> slice_to n s
  | S _, "" => None
  end.

(** [&s[n..]] *)
Definition slice_from (n : nat) (s : string) : option string :=
  prefix ← slice_to n s; strip_prefix prefix s.

(** ** Characters *)

(** Bytes of the encoding of a character, from its lead byte. *)
Definition utf8_len (a : ascii) : nat :=
  let n := nat_of_ascii a in
  if n <? 128 then 1 else if n <? 224 then 2 else if n <? 240 then 3 else 4.

Fixpoint chars_go (fuel : nat) (s : string) : list string :=
  match fuel with
  | 0 => []
  | S fuel =>
      match s with
      | "" => []
      | String b _ =>
          let n := utf8_len b in
          String.substring 0 n s :: chars_go fuel (String.substring n (String.length s) s)
      end
  end.
Definition chars (s : string) : list string := chars_go (String.length s) s.

(** [char::is_whitespace]: the Unicode property White_Space, by encodings. *)
Definition byte_str (l : list nat) : string := foldr (λ n s, String (ascii_of_nat n) s) "" l.
Definition whitespace_chars : list string :=
  [ byte_str [9]; byte_str [10]; byte_str [11]; byte_str [12]; byte_str [13]; byte_str [32];
    byte_str [194; 133]; byte_str [194; 160]; byte_str [225; 154; 128] ]
  ++ ((λ n, byte_str [226; 128; n]) <$> seq 128 11)
  ++ [ byte_str [226; 128; 168]; byte_str [226; 128; 169]; byte_str [226; 128; 175];
       byte_str [226; 129; 159]; byte_str [227; 128; 128] ].
Definition is_whitespace (c : string) : bool := bool_decide (c ∈ whitespace_chars).

Definition str_concat (cs : list string) : string := foldr String.append "" cs.

Fixpoint drop_while {A} (f : A → bool) (l : list A) : list A :=
  match l with
  | [] => []
  | x :: l' => if f x then drop_while f l' else l
  end.
Definition drop_end_while {A} (f : A → bool) (l : list A) : list A :=
  reverse (drop_while f (reverse l)).

Definition trim_start (s : string) : string := str_concat (drop_while is_whitespace (chars s)).
Definition trim (s : string) : string :=
  str_concat (drop_end_while is_whitespace (drop_while is_whitespace (chars s))).
(** [s.trim().is_empty()] *)
Definition is_blank (s : string) : bool := is_empty (trim s).

(** [s.split_whitespace()]: [word] holds the characters of a word that has begun, last first. *)
Fixpoint split_words (word : list string) (cs : list string) : list string :=
  match cs with
  | [] => if is_nil word then [] else [str_concat (reverse word)]
  | c :: cs =>
      if is_whitespace c then
        if is_nil word then split_words [] cs else str_concat (reverse word) :: split_words [] cs
      else split_words (c :: word) cs
  end.
Definition split_whitespace (s : string) : list string := split_words [] (chars s).

(** [s.lines()]: a line ends in a line feed, before which one carriage return is
    dropped; text after the last line feed is a line of its own. *)
Definition line_feed : ascii := ascii_of_nat 10.
Definition carriage_return : ascii := ascii_of_nat 13.
Fixpoint line_pieces (pieces : list string) : list string :=
  match pieces with
  | [] => []
  | [rest] => if is_empty rest then [] else [rest]
  | piece :: pieces =>
      default piece (strip_suffix (String carriage_return "") piece) :: line_pieces pieces
  end.
Definition lines (s : string) : list string := line_pieces (split line_feed s).

(** [s.trim_end_matches(c)] and [s.trim_start_matches(p)]. *)
Fixpoint str_drop_while (f : ascii → bool) (s : string) : string :=
  match s with
  | "" => ""
  | String b s' => if f b then str_drop_while f s' else s
  end.
Definition trim_end_matches (c : ascii) (s : string) : string :=
  String.rev (str_drop_while (λ b, bool_decide (b = c)) (String.rev s)).
Definition trim_start_matches_char (c : ascii) (s : string) : string :=
  str_drop_while (λ b, bool_decide (b = c)) s.
Fixpoint trim_start_matches_go (fuel : nat) (p s : string) : string :=
  match fuel with
  | 0 => s
  | S fuel =>
      match strip_prefix p s with
      | Some rest => trim_start_matches_go fuel p rest
      | None => s
      end
  end.
Definition trim_start_matches (p s : string) : string :=
  trim_start_matches_go (String.length s) p s.

(** ** ASCII classes *)

Definition in_span (lo hi : nat) (a : ascii) : bool :=
  (lo <=? nat_of_ascii a) && (nat_of_ascii a <=? hi).
Definition is_ascii_digit : ascii → bool := in_span 48 57.
Definition is_ascii_hexdigit (a : ascii) : bool :=
  in_span 48 57 a || in_span 65 70 a || in_span 97 102 a.
Definition is_ascii_alphanumeric (a : ascii) : bool :=
  in_span 48 57 a || in_span 65 90 a || in_span 97 122 a.
Definition ascii_lower (a : ascii) : ascii :=
  if in_span 65 90 a then ascii_of_nat (nat_of_ascii a + 32) else a.

Fixpoint str_all (f : ascii → bool) (s : string) : bool :=
  match s with
  | "" => true
  | String b s => f b && str_all f s
  end.
Fixpoint str_map (f : ascii → ascii) (s : string) : string :=
  match s with
  | "" => ""
  | String b s => String (f b) (str_map f s)
  end.
Definition to_ascii_lowercase : string → string := str_map ascii_lower.
(** [str::to_lowercase]: the tables of Unicode matter for the other characters only. *)
Class UnicodeTables := { unicode_lowercase : string → string }.
Definition is_ascii (a : ascii) : bool := nat_of_ascii a <? 128.
Definition to_lowercase `{UnicodeTables} (s : string) : string :=
  if str_all is_ascii s then to_ascii_lowercase s else unicode_lowercase s.
Definition eq_ignore_ascii_case (s t : string) : bool :=
  bool_decide (to_ascii_lowercase s = to_ascii_lowercase t).
Definition all_hexdigit : string → bool := str_all is_ascii_hexdigit.

(** The longest prefix of bytes in a class, and the rest. *)
Fixpoint str_span (f : ascii → bool) (s : string) : string * string :=
  match s with
  | "" => ("", "")
  | String b s' =>
      if f b then let '(u, v) := str_span f s' in (String b u, v) else ("", s)
  end.

(** ** Integers *)

Definition digit_val (a : ascii) : option N :=
  if is_ascii_digit a then Some (N.of_nat (nat_of_ascii a - 48)) else None.

Fixpoint parse_digits_go (acc : N) (s : string) : option N :=
  match s with
  | "" => Some acc
  | String b s =>
      match digit_val b with
      | Some d => parse_digits_go (10 * acc + d)%N s
      | None => None
      end
  end.
Definition parse_digits (s : string) : option N :=
  if is_empty s then None else parse_digits_go 0 s.

(** [s.parse::<iN>()] and [s.parse::<uN>()]: an optional sign ([-] only for
    the signed types), at least one digit, a value in range. *)
Definition parse_int (lo hi : Z) (s : string) : option Z :=
  let checked (z : Z) := if in_range lo hi z then Some z else None in
  match s with
  | "" => None
  | String b rest =>
      if bool_decide (b = "+"%char) then
        n ← parse_digits rest; checked (Z.of_N n)
      else if bool_decide (b = "-"%char) && bool_decide (lo < 0)%Z then
        n ← parse_digits rest; checked (- Z.of_N n)%Z
      else n ← parse_digits s; checked (Z.of_N n)
  end.
Definition parse_u32 : string → option Z := parse_int 0 u32_max.
Definition parse_u64 : string → option Z := parse_int 0 u64_max.
Definition parse_i32 : string → option Z := parse_int i32_min i32_max.
Definition parse_i64 : string → option Z := parse_int i64_min i64_max.

(** ** Lemmas on concatenation *)

Lemma str_app_cons a s t : String a s +:+ t = String a (s +:+ t).
Proof. reflexivity. Qed.
Lemma str_app_nil_l s : "" +:+ s = s.
Proof. reflexivity. Qed.
Lemma str_app_nil_r s : s +:+ "" = s.
Proof. induction s as [|a s IH]; [done|]. by rewrite str_app_cons, IH. Qed.
Lemma str_app_assoc s t u : (s +:+ t) +:+ u = s +:+ t +:+ u.
Proof. induction s as [|a s IH]; [done|]. by rewrite !str_app_cons, IH. Qed.
Lemma str_length_app s t : String.length (s +:+ t) = String.length s + String.length t.
Proof. induction s as [|a s IH]; [done|]. rewrite str_app_cons. simpl. by rewrite IH. Qed.

Create Rewrite HintDb rust_str.
#[export] Hint Rewrite str_app_cons str_app_nil_l str_app_nil_r str_app_assoc : rust_str.

Lemma rev_app_spec s t : String.rev_app s t = String.rev s +:+ t.
Proof.
  unfold String.rev. revert t. induction s as [|a s IH]; intros t; simpl; [done|].
  rewrite (IH (String a t)), (IH (String a "")), str_app_assoc. reflexivity.
Qed.
Lemma str_rev_cons a s : String.rev (String a s) = String.rev s +:+ String a "".
Proof. unfold String.rev at 1. simpl. apply rev_app_spec. Qed.
Lemma str_rev_app s t : String.rev (s +:+ t) = String.rev t +:+ String.rev s.
Proof.
  induction s as [|a s IH]; [by rewrite str_app_nil_r|].
  rewrite str_app_cons, !str_rev_cons, IH. by rewrite str_app_assoc.
Qed.
Lemma str_rev_involutive s : String.rev (String.rev s) = s.
Proof. induction s as [|a s IH]; [done|]. by rewrite str_rev_cons, str_rev_app, IH. Qed.

(** ** Lemmas on prefixes and searches *)

Lemma strip_prefix_Some p s r : strip_prefix p s = Some r ↔ s = p +:+ r.
Proof.
  revert s. induction p as [|a p IH]; intros s; simpl.
  { rewrite str_app_nil_l. naive_solver. }
  destruct s as [|b s]; [by rewrite str_app_cons|].
  rewrite str_app_cons. case_bool_decide; subst; [rewrite IH|]; naive_solver.
Qed.

Lemma strip_prefix_app p s : strip_prefix p (p +:+ s) = Some s.
Proof. by apply strip_prefix_Some. Qed.

Lemma starts_with_true p s : starts_with p s = true ↔ ∃ r, s = p +:+ r.
Proof.
  unfold starts_with. setoid_rewrite <-strip_prefix_Some.
  destruct (strip_prefix p s); naive_solver.
Qed.

Lemma starts_with_app p s : starts_with p (p +:+ s) = true.
Proof. apply starts_with_true. by exists s. Qed.

Lemma strip_suffix_Some p s r : strip_suffix p s = Some r ↔ s = r +:+ p.
Proof.
  unfold strip_suffix. rewrite fmap_Some. setoid_rewrite strip_prefix_Some. split.
  - intros (x & Hs & ->). apply (f_equal String.rev) in Hs.
    by rewrite str_rev_involutive, str_rev_app, str_rev_involutive in Hs.
  - intros ->. exists (String.rev r). by rewrite str_rev_app, str_rev_involutive.
Qed.

Lemma find_split_Some p s u v : find_split p s = Some (u, v) → s = u +:+ p +:+ v.
Proof.
  revert u. induction s as [|b s IH]; intros u; simpl.
  - destruct (strip_prefix p "") eqn:E; [|done]. intros [= <- <-].
    by apply strip_prefix_Some in E.
  - destruct (strip_prefix p (String b s)) eqn:E.
    + intros [= <- <-]. by apply strip_prefix_Some in E.
    + destruct (find_split p s) as [[u' v']|]; [|done]. intros [= <- <-].
      rewrite str_app_cons. by rewrite <-(IH u').
Qed.

Lemma find_split_app p u v : is_some (find_split p (u +:+ p +:+ v)) = true.
Proof.
  induction u as [|b u IH].
  - rewrite str_app_nil_l. destruct (p +:+ v) eqn:E; simpl; rewrite <-E, strip_prefix_app; done.
  - rewrite str_app_cons. simpl. destruct (strip_prefix p _); [done|].
    destruct (find_split p _) as [[??]|]; done.
Qed.

Lemma contains_true p s : contains p s = true ↔ ∃ u v, s = u +:+ p +:+ v.
Proof.
  unfold contains. split.
  - destruct (find_split p s) as [[u v]|] eqn:E; [|done]. intros _.
    apply find_split_Some in E. eauto.
  - intros (u & v & ->). apply find_split_app.
Qed.

Lemma split_once_Some c s u v :
  split_once c s = Some (u, v) ↔ s = u +:+ String c v ∧ contains_char c u = false.
Proof.
  unfold contains_char. revert u. induction s as [|b s IH]; intros u; simpl.
  { split; [done|]. intros [H _]. destruct u; done. }
  case_bool_decide as Hb.
  - subst. split.
    + intros [= <- <-]. done.
    + intros [Hs Hu]. destruct u as [|a u]; [by inversion Hs|].
      rewrite str_app_cons in Hs. inversion Hs; subst. simpl in Hu.
      by rewrite bool_decide_eq_true_2 in Hu.
  - split.
    + destruct (split_once c s) as [[u' v']|] eqn:E; [|done]. intros [= <- <-].
      destruct (proj1 (IH u') eq_refl) as [-> Hu]. split; [by rewrite str_app_cons|].
      simpl. rewrite bool_decide_eq_false_2 by done. by destruct (split_once c u') as [[??]|].
    + intros [Hs Hu]. destruct u as [|a u]; [by inversion Hs|].
      rewrite str_app_cons in Hs. inversion Hs; subst. simpl in Hu.
      rewrite bool_decide_eq_false_2 in Hu by done.
      assert (split_once c (u +:+ String c v) = Some (u, v)) as ->; [|done].
      apply IH. split; [done|]. by destruct (split_once c u) as [[??]|].
Qed.

Lemma split_once_app c u v :
  contains_char c u = false → split_once c (u +:+ String c v) = Some (u, v).
Proof. intros. by apply split_once_Some. Qed.

Lemma split_once_None c s : split_once c s = None ↔ contains_char c s = false.
Proof. unfold contains_char. destruct (split_once c s); naive_solver. Qed.

Lemma contains_char_app c u v :
  contains_char c (u +:+ v) = contains_char c u || contains_char c v.
Proof.
  unfold contains_char. induction u as [|a u IH]; [done|].
  rewrite str_app_cons. simpl. case_bool_decide; [done|].
  destruct (split_once c (u +:+ v)) as [[??]|], (split_once c u) as [[??]|]; naive_solver.
Qed.

Lemma contains_char_cons c a s :
  contains_char c (String a s) = bool_decide (c = a) || contains_char c s.
Proof.
  unfold contains_char. simpl. case_bool_decide; [done|]. by destruct (split_once c s) as [[??]|].
Qed.

(** A class of bytes that excludes [c] excludes strings that contain [c]. *)
Lemma str_all_not_contains f c s :
  f c = false → str_all f s = true → contains_char c s = false.
Proof.
  intros Hc. induction s as [|a s IH]; simpl; [done|].
  rewrite andb_true_iff. intros [Ha Hs]. rewrite contains_char_cons, (IH Hs), orb_false_r.
  apply bool_decide_eq_false_2. congruence.
Qed.

(** The parts of [split] contain no separator and join back to the string. *)
Lemma split_no_sep c s : contains_char c s = false → split c s = [s].
Proof.
  induction s as [|a s IH]; [done|]. rewrite contains_char_cons. intros [Ha Hs]%orb_false_iff.
  simpl. rewrite Ha, (IH Hs). done.
Qed.

Lemma split_app c u v :
  contains_char c u = false → split c (u +:+ String c v) = u :: split c v.
Proof.
  induction u as [|a u IH]; intros Hu.
  - rewrite str_app_nil_l. simpl. by rewrite bool_decide_eq_true_2.
  - rewrite contains_char_cons in Hu. apply orb_false_iff in Hu as [Ha Hu].
    rewrite str_app_cons. simpl. by rewrite Ha, (IH Hu).
Qed.

(** ** First matches *)

Lemma str_app_split u v p r :
  u +:+ v = p +:+ r →
  (∃ t, u = p +:+ t ∧ r = t +:+ v) ∨ (∃ a t, p = u +:+ String a t ∧ v = String a t +:+ r).
Proof.
  revert p. induction u as [|b u IH]; intros p Heq.
  - rewrite str_app_nil_l in Heq. destruct p as [|a t].
    + left. exists "". by rewrite str_app_nil_l in *.
    + right. exists a, t. by rewrite str_app_nil_l.
  - destruct p as [|a p].
    + left. exists (String b u). by rewrite str_app_nil_l in *.
    + rewrite !str_app_cons in Heq. injection Heq as <- Heq.
      destruct (IH p Heq) as [(t & -> & ->)|(c & t & -> & ->)].
      * left. exists t. by rewrite str_app_cons.
      * right. exists c, t. by rewrite str_app_cons.
Qed.

Lemma contains_prefix p u v : contains p (u +:+ v) = false → contains p u = false.
Proof.
  intros Hc. destruct (contains p u) eqn:E; [|done].
  apply contains_true in E as (x & y & ->).
  assert (contains p ((x +:+ p +:+ y) +:+ v) = true) as Ht; [|congruence].
  apply contains_true. exists x, (y +:+ v). by rewrite !str_app_assoc.
Qed.

Lemma find_split_cons_None p b s :
  strip_prefix p (String b s) = None →
  find_split p (String b s) =
    match find_split p s with Some (u, v) => Some (String b u, v) | None => None end.
Proof. intros Hp. simpl. by rewrite Hp. Qed.

Lemma contains_cons_false p b s :
  contains p (String b s) = false ↔ strip_prefix p (String b s) = None ∧ contains p s = false.
Proof.
  unfold contains. simpl. destruct (strip_prefix p (String b s)); simpl; [naive_solver|].
  destruct (find_split p s) as [[??]|]; naive_solver.
Qed.

(** The part before the first match has no match. *)
Lemma find_split_first p s u v :
  p ≠ "" → find_split p s = Some (u, v) → contains p u = false.
Proof.
  intros Hp. revert u. induction s as [|b s IH]; intros u; simpl.
  - destruct (strip_prefix p "") eqn:E; [|done]. intros [= <- <-]. by destruct p.
  - destruct (strip_prefix p (String b s)) eqn:E; [intros [= <- <-]; by destruct p|].
    destruct (find_split p s) as [[u' v']|] eqn:Ef; [|done]. intros [= <- <-].
    apply contains_cons_false. split; [|by apply (IH u')].
    apply find_split_Some in Ef as ->.
    destruct (strip_prefix p (String b u')) eqn:Ep; [|done].
    apply strip_prefix_Some in Ep. rewrite <-str_app_cons, Ep, str_app_assoc in E.
    by rewrite strip_prefix_app in E.
Qed.

(** A match cannot start before a byte the pattern does not have. *)
Lemma strip_prefix_before_sep p c u v :
  strip_prefix p u = None → contains_char c p = false →
  strip_prefix p (u +:+ String c v) = None.
Proof.
  intros Hu Hc. destruct (strip_prefix p (u +:+ String c v)) eqn:E; [|done].
  apply strip_prefix_Some in E. apply str_app_split in E as [(t & -> & _)|(a & t & -> & Hv)].
  - by rewrite strip_prefix_app in Hu.
  - rewrite str_app_cons in Hv. injection Hv as <- _.
    rewrite contains_char_app, contains_char_cons, bool_decide_eq_true_2 in Hc by done.
    by rewrite orb_true_r in Hc.
Qed.

Lemma find_split_after_sep p c u v :
  p ≠ "" → contains p u = false → contains_char c p = false →
  find_split p (u +:+ String c v) =
    match find_split p v with Some (x, y) => Some (u +:+ String c x, y) | None => None end.
Proof.
  intros Hp Hu Hc. induction u as [|b u IH].
  - rewrite str_app_nil_l, find_split_cons_None; [done|].
    apply (strip_prefix_before_sep p c "" v); [by destruct p|done].
  - apply contains_cons_false in Hu as [Hs Hu]. rewrite str_app_cons.
    rewrite find_split_cons_None.
    + rewrite IH by done. by destruct (find_split p v) as [[??]|].
    + rewrite <-str_app_cons. by apply strip_prefix_before_sep.
Qed.

Lemma find_split_here p v : find_split p (p +:+ v) = Some ("", v).
Proof. destruct (p +:+ v) eqn:E; simpl; rewrite <-E, strip_prefix_app; done. Qed.

(** Trimming at the end leaves a prefix. *)
Lemma str_drop_while_suffix f s : ∃ t, s = t +:+ str_drop_while f s.
Proof.
  induction s as [|b s [t IH]]; simpl; [by exists ""|].
  destruct (f b); [|by exists ""]. exists (String b t). by rewrite str_app_cons, <-IH.
Qed.

Lemma trim_end_matches_prefix c s : ∃ t, s = trim_end_matches c s +:+ t.
Proof.
  unfold trim_end_matches.
  destruct (str_drop_while_suffix (λ b, bool_decide (b = c)) (String.rev s)) as [t Ht].
  exists (String.rev t). rewrite <-str_rev_app, <-Ht. by rewrite str_rev_involutive.
Qed.

Lemma trim_end_matches_id c s a : a ≠ c → trim_end_matches c (s +:+ String a "") = s +:+ String a "".
Proof.
  intros Ha. unfold trim_end_matches. rewrite str_rev_app.
  change (String.rev (String a "")) with (String a ""). rewrite str_app_cons, str_app_nil_l.
  simpl. rewrite bool_decide_eq_false_2 by done. by rewrite str_rev_cons, str_rev_involutive.
Qed.

Lemma str_snoc_inj s t a b : s +:+ String a "" = t +:+ String b "" → s = t ∧ a = b.
Proof.
  intros E. apply (f_equal String.rev) in E. rewrite !str_rev_app in E.
  change (String a (String.rev s) = String b (String.rev t)) in E. injection E as -> E.
  apply (f_equal String.rev) in E. by rewrite !str_rev_involutive in E.
Qed.

Lemma str_snoc_case s : s = "" ∨ ∃ t a, s = t +:+ String a "".
Proof.
  destruct (String.rev s) as [|a r] eqn:E.
  - left. apply (f_equal String.rev) in E. by rewrite str_rev_involutive in E.
  - right. exists (String.rev r), a. by rewrite <-str_rev_cons, <-E, str_rev_involutive.
Qed.

Lemma trim_end_matches_snoc c s : trim_end_matches c (s +:+ String c "") = trim_end_matches c s.
Proof.
  unfold trim_end_matches. rewrite str_rev_app.
  change (String.rev (String c "")) with (String c ""). rewrite str_app_cons, str_app_nil_l. simpl.
  by rewrite bool_decide_eq_true_2.
Qed.

Lemma str_span_all f u v :
  str_all f u = true → match v with "" => True | String b _ => f b = false end →
  str_span f (u +:+ v) = (u, v).
Proof.
  intros Hu Hv. induction u as [|b u IH].
  - rewrite str_app_nil_l. destruct v; simpl; [done|]. by rewrite Hv.
  - simpl in Hu. apply andb_true_iff in Hu as [Hb Hu]. rewrite str_app_cons. simpl.
    by rewrite Hb, (IH Hu).
Qed.

Lemma slice_to_app u v :
  match v with "" => True | String b _ => is_continuation b = false end →
  slice_to (String.length u) (u +:+ v) = Some u.
Proof.
  intros Hv. induction u as [|b u IH].
  - rewrite str_app_nil_l. destruct v; simpl; [done|]. by rewrite Hv.
  - rewrite str_app_cons. simpl. by rewrite IH.
Qed.

Lemma slice_to_prefix s : ∀ n p, slice_to n s = Some p → ∃ r, s = p +:+ r.
Proof.
  induction s as [|b s IH]; intros [|n] p; simpl; try (intros [= <-]; by eexists); try done.
  - destruct (is_continuation b); [done|]. intros [= <-]. by eexists.
  - intros (p' & Hp & ->)%fmap_Some. apply IH in Hp as [r ->]. by exists r.
Qed.

Lemma slice_from_total n s : is_Some (slice_to n s) → is_Some (slice_from n s).
Proof.
  intros [p Hp]. unfold slice_from. rewrite Hp. simpl. apply slice_to_prefix in Hp as [r ->].
  rewrite strip_prefix_app. by eexists.
Qed.

(** ** Lemmas on integers *)

Lemma digit_val_pretty x : (x < 10)%N → digit_val (pretty_N_char x) = Some x.
Proof.
  intros Hx.
  assert (x = 0 ∨ x = 1 ∨ x = 2 ∨ x = 3 ∨ x = 4 ∨ x = 5 ∨ x = 6 ∨ x = 7 ∨ x = 8 ∨ x = 9)%N
    as H by lia.
  by repeat destruct H as [->|H]; [..|subst].
Qed.

Lemma parse_digits_go_pretty x s acc :
  ∃ k, parse_digits_go acc (pretty_N_go x s) = parse_digits_go (10 ^ k * acc + x)%N s.
Proof.
  revert s acc. induction (N.lt_wf_0 x) as [x _ IH]; intros s acc.
  destruct (decide (x = 0)%N) as [->|Hx].
  { exists 0%N. rewrite pretty_N_go_0. f_equal. lia. }
  rewrite pretty_N_go_step by lia.
  destruct (IH (x `div` 10)%N) with (s := String (pretty_N_char (x `mod` 10)) s) (acc := acc)
    as [k Hk]; [apply N.div_lt; lia|].
  exists (N.succ k). rewrite Hk. simpl.
  rewrite digit_val_pretty by (apply N.mod_lt; lia). f_equal.
  rewrite N.pow_succ_r'. pose proof (N.div_mod x 10). lia.
Qed.

Lemma pretty_N_nonempty (x : N) : pretty x ≠ "".
Proof.
  unfold pretty, pretty_N. case_decide as Hx; [done|].
  rewrite pretty_N_go_step by lia. generalize (pretty_N_char (x `mod` 10)). intros a.
  assert (∀ y s, s ≠ "" → pretty_N_go y s ≠ "") as Hgo.
  { intros y. induction (N.lt_wf_0 y) as [y _ IH]; intros s Hs.
    destruct (decide (y = 0)%N) as [->|]; [by rewrite pretty_N_go_0|].
    rewrite pretty_N_go_step by lia. apply IH; [apply N.div_lt; lia|done]. }
  by apply Hgo.
Qed.

Lemma parse_digits_pretty (x : N) : parse_digits (pretty x) = Some x.
Proof.
  unfold parse_digits, is_empty. rewrite bool_decide_eq_false_2 by apply pretty_N_nonempty.
  unfold pretty, pretty_N. case_decide as Hx; [by subst|].
  destruct (parse_digits_go_pretty x "" 0) as [k ->]. simpl. f_equal. lia.
Qed.

(** The first byte of a printed natural is a digit. *)
Lemma pretty_N_head (x : N) a s : pretty x = String a s → is_ascii_digit a = true.
Proof.
  intros Hs. pose proof (parse_digits_pretty x) as Hp. rewrite Hs in Hp.
  unfold parse_digits in Hp. simpl in Hp. unfold digit_val in Hp.
  by destruct (is_ascii_digit a).
Qed.

(** Reading a printed integer gives it back, when it fits the type. *)
Lemma parse_int_pretty lo hi z :
  (lo ≤ z ≤ hi)%Z → parse_int lo hi (pretty z) = Some z.
Proof.
  intros Hz. assert (in_range lo hi z = true) as Hr by by apply in_range_true.
  assert (∀ n, z = Z.of_N n → parse_int lo hi (pretty n) = Some z) as Hpos.
  { intros n ->. unfold parse_int. destruct (pretty n) as [|a s] eqn:E.
    { by destruct (pretty_N_nonempty n). }
    pose proof (pretty_N_head n a s E) as Ha. rewrite <-E, parse_digits_pretty. simpl.
    rewrite Hr. destruct (decide (a = "+"%char)) as [->|]; [done|].
    rewrite bool_decide_eq_false_2 by done.
    destruct (decide (a = "-"%char)) as [->|]; [done|].
    by rewrite (bool_decide_eq_false_2 (a = "-"%char)). }
  destruct z as [|p|p].
  - apply (Hpos 0%N). done.
  - apply (Hpos (N.pos p)). done.
  - assert (pretty (Z.neg p) = String "-" (pretty (N.pos p))) as -> by done.
    unfold parse_int. rewrite bool_decide_eq_false_2 by done.
    rewrite bool_decide_eq_true_2 by done. simpl.
    rewrite bool_decide_eq_true_2 by lia. rewrite parse_digits_pretty. simpl.
    change (- Z.pos p)%Z with (Z.neg p). by rewrite Hr.
Qed.

Lemma parse_int_range lo hi s z : parse_int lo hi s = Some z → (lo ≤ z ≤ hi)%Z.
Proof.
  unfold parse_int. destruct s as [|b rest]; [done|].
  assert (∀ o f, (o ≫= λ n : N, if in_range lo hi (f n) then Some (f n) else None) = Some z →
    (lo ≤ z ≤ hi)%Z) as Hc.
  { intros [n|] f; simpl; [|done]. destruct (in_range lo hi (f n)) eqn:E; [|done].
    intros [= <-]. by apply in_range_true. }
  case_bool_decide; [apply (Hc _ Z.of_N)|].
  destruct (_ && _); [apply (Hc _ (λ n, (- Z.of_N n)%Z))|apply (Hc _ Z.of_N)].
Qed.

Lemma parse_digits_go_all s : ∀ acc n, parse_digits_go acc s = Some n → str_all is_ascii_digit s = true.
Proof.
  induction s as [|a s IH]; intros acc n; simpl; [done|].
  unfold digit_val. destruct (is_ascii_digit a); [|done]. simpl. apply IH.
Qed.

(** The decimal form of a natural number has digits only. *)
Lemma pretty_N_digits (x : N) : str_all is_ascii_digit (pretty x) = true.
Proof.
  pose proof (parse_digits_pretty x) as Hp. unfold parse_digits in Hp.
  destruct (is_empty _); [done|]. by eapply parse_digits_go_all.
Qed.

Lemma pretty_Z_digits (z : Z) : (0 ≤ z)%Z → str_all is_ascii_digit (pretty z) = true.
Proof.
  intros Hz. destruct z as [|p|p]; [done| |lia]. apply (pretty_N_digits (N.pos p)).
Qed.

(** ** Lemmas on characters *)

(** The encoding of one character: as many bytes as its lead byte announces. *)
Definition is_char (c : string) : bool :=
  match c with "" => false | String b _ => String.length c =? utf8_len b end.

Lemma substring_app_l s t : String.substring 0 (String.length s) (s +:+ t) = s.
Proof.
  induction s as [|a s IH]; [by destruct t|]. rewrite str_app_cons. simpl. by rewrite IH.
Qed.

Lemma substring_all s : ∀ n, String.length s ≤ n → String.substring 0 n s = s.
Proof.
  induction s as [|a s IH]; intros [|n] Hn; simpl in *; try done; try lia. by rewrite IH by lia.
Qed.

Lemma substring_app_r s t n :
  String.length t ≤ n → String.substring (String.length s) n (s +:+ t) = t.
Proof.
  intros Hn. induction s as [|a s IH].
  - rewrite str_app_nil_l. by apply substring_all.
  - rewrite str_app_cons. simpl. apply IH.
Qed.

(** A string is decoded into the characters it was put together from. *)
Lemma chars_concat cs : Forall (λ c, is_char c = true) cs → chars (str_concat cs) = cs.
Proof.
  unfold chars. assert (∀ fuel, String.length (str_concat cs) ≤ fuel →
    Forall (λ c, is_char c = true) cs → chars_go fuel (str_concat cs) = cs) as H.
  { induction cs as [|c cs IH]; intros fuel Hf Hcs; simpl in *; [by destruct fuel|].
    apply Forall_cons in Hcs as [Hc Hcs]. destruct c as [|b c]; [done|].
    rewrite str_length_app in Hf. destruct fuel as [|fuel]; [simpl in Hf; lia|].
    rewrite str_app_cons. cbn [chars_go]. rewrite <-str_app_cons.
    apply Nat.eqb_eq in Hc. rewrite <-Hc, substring_app_l.
    rewrite substring_app_r by (rewrite str_length_app; lia).
    rewrite IH; [done| |done]. simpl in Hf. lia. }
  intros. by apply H.
Qed.

Lemma str_concat_app cs ds : str_concat (cs ++ ds) = str_concat cs +:+ str_concat ds.
Proof. induction cs as [|c cs IH]; simpl; [done|]. by rewrite IH, str_app_assoc. Qed.

(** ** Lemmas on words and lines *)

(** Characters of which none is white space. *)
Definition plain_chars (cs : list string) : Prop :=
  Forall (λ c, is_char c = true ∧ is_whitespace c = false) cs.

Lemma plain_is_char cs : plain_chars cs → Forall (λ c, is_char c = true) cs.
Proof. intros Hcs. eapply Forall_impl; [exact Hcs|]. by intros c []. Qed.

Lemma drop_while_head {A} (f : A → bool) x l : f x = false → drop_while f (x :: l) = x :: l.
Proof. simpl. by intros ->. Qed.

Lemma trim_chars cs : Forall (λ c, is_char c = true) cs →
  trim (str_concat cs) = str_concat (drop_end_while is_whitespace (drop_while is_whitespace cs)).
Proof. intros Hcs. unfold trim. by rewrite chars_concat. Qed.

(** Text that begins and ends with a character that is no white space. *)
Lemma trim_bounded c cs d : Forall (λ c, is_char c = true) (c :: cs ++ [d]) →
  is_whitespace c = false → is_whitespace d = false →
  trim (str_concat (c :: cs ++ [d])) = str_concat (c :: cs ++ [d]).
Proof.
  intros Hcs Hc Hd. rewrite trim_chars by done. rewrite drop_while_head by done.
  unfold drop_end_while. change (c :: cs ++ [d]) with ((c :: cs) ++ [d]).
  rewrite reverse_app. change (reverse [d]) with [d]. simpl ([d] ++ _).
  rewrite drop_while_head by done. by rewrite reverse_cons, reverse_involutive.
Qed.

Lemma str_concat_empty cs : Forall (λ c, is_char c = true) cs → str_concat cs = "" → cs = [].
Proof. destruct cs as [|[|a c] cs]; [done|..]; by intros [? _]%Forall_cons. Qed.

Lemma drop_while_none {A} (f : A → bool) l : Forall (λ x, f x = false) l → drop_while f l = l.
Proof. destruct 1; [done|]. by apply drop_while_head. Qed.

Lemma trim_plain cs : plain_chars cs → trim (str_concat cs) = str_concat cs.
Proof.
  intros Hcs. assert (Forall (λ c, is_whitespace c = false) cs) as Hw by (eapply Forall_impl; [done|]; by intros ? []).
  rewrite trim_chars, drop_while_none by (done || by apply plain_is_char). unfold drop_end_while.
  rewrite drop_while_none by by apply Forall_reverse. by rewrite reverse_involutive.
Qed.

Lemma plain_not_blank cs : plain_chars cs → cs ≠ [] → is_blank (str_concat cs) = false.
Proof.
  intros Hcs Hne. unfold is_blank. rewrite trim_plain by done. apply bool_decide_eq_false_2.
  intros E. by apply str_concat_empty in E; [|apply plain_is_char].
Qed.

(** ASCII text, as characters. *)
Fixpoint ascii_chars (s : string) : list string :=
  match s with "" => [] | String a s => String a "" :: ascii_chars s end.

Lemma ascii_chars_concat s : str_concat (ascii_chars s) = s.
Proof. induction s as [|a s IH]; [done|]. cbn [ascii_chars]. unfold str_concat in *. simpl. by rewrite IH. Qed.

Lemma digit_plain a : is_ascii_digit a = true → is_char (String a "") = true ∧ is_whitespace (String a "") = false.
Proof. destruct a as [[] [] [] [] [] [] [] []]; (done || by vm_compute). Qed.

Lemma digits_plain s : str_all is_ascii_digit s = true → plain_chars (ascii_chars s).
Proof.
  induction s as [|a s IH]; simpl; [constructor|]. intros [Ha Hs]%andb_true_iff.
  constructor; [by apply digit_plain|by apply IH].
Qed.

Lemma digits_not_blank s : str_all is_ascii_digit s = true → s ≠ "" → is_blank s = false.
Proof.
  intros Hs Hne. rewrite <-(ascii_chars_concat s). apply plain_not_blank; [by apply digits_plain|].
  by destruct s.
Qed.

(** The words of words set apart by single spaces. *)
Lemma split_words_plain word cs rest : plain_chars cs →
  split_words word (cs ++ rest) = split_words (reverse cs ++ word) rest.
Proof.
  revert word. induction cs as [|c cs IH]; intros word; [done|]. intros [[_ Hw] Hcs]%Forall_cons.
  simpl. rewrite Hw, IH by done. by rewrite reverse_cons, <-app_assoc.
Qed.

Lemma split_words_word cs : plain_chars cs → cs ≠ [] → split_words [] cs = [str_concat cs].
Proof.
  intros Hcs Hne. rewrite <-(app_nil_r cs), split_words_plain, app_nil_r by done. simpl.
  rewrite app_nil_r, reverse_involutive. destruct (reverse cs) eqn:E; [|done].
  apply (f_equal reverse) in E. rewrite reverse_involutive in E. done.
Qed.

Lemma split_words_space cs rest : plain_chars cs → cs ≠ [] →
  split_words [] (cs ++ " " :: rest) = str_concat cs :: split_words [] rest.
Proof.
  intros Hcs Hne. rewrite split_words_plain, app_nil_r by done. simpl.
  rewrite reverse_involutive. destruct (reverse cs) eqn:E; [|done].
  apply (f_equal reverse) in E. rewrite reverse_involutive in E. done.
Qed.

Lemma lines_cons s rest : contains_char line_feed s = false → contains_char carriage_return s = false →
  lines (s +:+ String line_feed rest) = s :: lines rest.
Proof.
  intros Hn Hr. unfold lines. rewrite split_app by done.
  assert (strip_suffix (String carriage_return "") s = None) as Hs.
  { destruct (strip_suffix _ s) as [t|] eqn:E; [|done]. apply strip_suffix_Some in E. subst s.
    rewrite contains_char_app, contains_char_cons, bool_decide_eq_true_2, orb_true_r in Hr by done. done. }
  destruct (split line_feed rest) as [|p ps] eqn:E; [|simpl; by rewrite Hs].
  by destruct rest as [|a rest]; simpl in E; [|destruct (bool_decide _), (split line_feed rest)].
Qed.

(** ** Trimming twice *)

(** What a string is decoded into: characters, the last of which may be cut off. *)
Fixpoint pieces (l : list string) : Prop :=
  match l with
  | [] => True
  | "" :: _ => False
  | String b _ as c :: cs => (String.length c = utf8_len b ∨ cs = [] ∧ String.length c ≤ utf8_len b) ∧ pieces cs
  end.

Lemma str_split_at s : ∀ n, n ≤ String.length s → ∃ p r, s = p +:+ r ∧ String.length p = n.
Proof.
  induction s as [|a s IH]; intros [|n] Hn; simpl in Hn; try lia; [by exists "", ""|by exists "", (String a s)|].
  destruct (IH n) as (p & r & -> & <-); [lia|]. by exists (String a p), r.
Qed.

Lemma substring_past s : ∀ n m, String.length s ≤ n → String.substring n m s = "".
Proof. induction s as [|a s IH]; intros [|n] m Hn; simpl in *; try lia; [by destruct m|done|]. apply IH. lia. Qed.

Lemma chars_pieces s : pieces (chars s).
Proof.
  unfold chars. generalize (String.length s) at 1 as fuel. intros fuel. revert s.
  induction fuel as [|fuel IH]; intros [|b s]; try done. cbn [chars_go].
  assert (0 < utf8_len b) as Hpos by (unfold utf8_len; repeat case_match; lia).
  destruct (decide (utf8_len b ≤ String.length (String b s))) as [Hl|Hl].
  - destruct (str_split_at (String b s) _ Hl) as (p & r & E & Hp). rewrite E, <-Hp, substring_app_l.
    destruct p as [|b' p]; [change (0 = utf8_len b) in Hp; lia|]. rewrite str_app_cons in E. injection E as <- _.
    split; [by left|]. apply IH.
  - rewrite (substring_all (String b s)) by lia. rewrite (substring_past (String b s) (utf8_len b)) by lia.
    assert (chars_go fuel "" = []) as -> by by destruct fuel. split; [right; split; [done|lia]|done].
Qed.

Lemma chars_of_pieces l : pieces l → chars (str_concat l) = l.
Proof.
  unfold chars. assert (∀ fuel, String.length (str_concat l) ≤ fuel → pieces l → chars_go fuel (str_concat l) = l) as H;
    [|intros; by apply H].
  induction l as [|[|b c] l IH]; intros fuel Hf; [by destruct fuel|done|]. intros [Hc Hl]. simpl in Hf.
  rewrite str_length_app in Hf. destruct fuel as [|fuel]; [lia|].
  cbn [str_concat foldr]. rewrite str_app_cons. cbn [chars_go]. rewrite <-str_app_cons.
  destruct Hc as [Hc|[-> Hc]].
  - rewrite <-Hc, substring_app_l, substring_app_r by (rewrite str_length_app; lia).
    unfold str_concat in IH. rewrite IH; [done| |done]. unfold str_concat in Hf. lia.
  - change (foldr String.append "" []) with "". rewrite str_app_nil_r. rewrite (substring_all (String b c)) by done. rewrite (substring_past (String b c) (utf8_len b)) by done. by destruct fuel.
Qed.

Lemma pieces_suffix l k : pieces (l ++ k) → pieces k.
Proof. induction l as [|[|b c] l IH]; [done..|]. intros [_ Hl]. by apply IH. Qed.
Lemma pieces_prefix l k : pieces (l ++ k) → pieces l.
Proof.
  induction l as [|[|b c] l IH]; [done..|]. intros [[Hc|[Hn Hc]] Hl]; (split; [|by apply IH]); [by left|right].
  by apply app_eq_nil in Hn as [-> _].
Qed.

Lemma drop_while_suffix {A} (f : A → bool) l : ∃ k, l = k ++ drop_while f l.
Proof.
  induction l as [|x l [k IH]]; [by exists []|]. simpl. destruct (f x); [|by exists []]. exists (x :: k). simpl. by rewrite <-IH.
Qed.
Lemma drop_while_stable {A} (f : A → bool) l : drop_while f (drop_while f l) = drop_while f l.
Proof. induction l as [|x l IH]; [done|]. simpl. destruct (f x) eqn:E; [done|]. simpl. by rewrite E. Qed.
Lemma drop_end_while_prefix {A} (f : A → bool) l : ∃ k, l = drop_end_while f l ++ k.
Proof.
  destruct (drop_while_suffix f (reverse l)) as [k E]. exists (reverse k). unfold drop_end_while.
  by rewrite <-reverse_app, <-E, reverse_involutive.
Qed.

Lemma trim_trim s : trim (trim s) = trim s.
Proof.
  unfold trim. set (l := drop_while is_whitespace (chars s)). set (k := drop_end_while is_whitespace l).
  destruct (drop_while_suffix is_whitespace (chars s)) as [k1 E1]. fold l in E1.
  destruct (drop_end_while_prefix is_whitespace l) as [k2 E2]. fold k in E2.
  assert (pieces l) as Hl by (eapply pieces_suffix; rewrite <-E1; apply chars_pieces).
  rewrite chars_of_pieces by (eapply pieces_prefix; by rewrite <-E2). f_equal.
  assert (drop_while is_whitespace k = k) as ->.
  { assert (drop_while is_whitespace l = l) as Hs by apply drop_while_stable.
    destruct k as [|x k]; [done|]. rewrite E2 in Hs. simpl in Hs |- *. destruct (is_whitespace x); [|done].
    exfalso. destruct (drop_while_suffix is_whitespace (k ++ k2)) as [k3 E3]. apply (f_equal length) in Hs, E3.
    rewrite !length_app in E3. simpl in Hs. rewrite length_app in Hs. lia. }
  unfold k, drop_end_while. by rewrite reverse_involutive, drop_while_stable.
Qed.
