(* ===== verification/CoreTypes.v ===== *)
(** * [CoreTypes]: errors, event kinds and tags of [crates/core]

    Models [crates/core/src/lib.rs] ([CoreError] and its [Display]),
    [kinds.rs] and [tags.rs].  A Nostr tag is a [Vec<String>], an event's tags
    a list of them. *)

From S2P Require Import Prelude RustStr.

Abbreviation tag := (list string) (only parsing).
Abbreviation tag_list := (list (list string)) (only parsing).

(** ** [lib.rs] *)

Inductive CoreError : Type :=
| MissingField (field : string)
| InvalidField (field value : string)
| InvalidTag (tag value : string).

#[export] Instance CoreError_eq_dec : EqDecision CoreError.
Proof. solve_decision. Defined.

Definition CoreError_display (e : CoreError) : string :=
  match e with
  | MissingField field => "missing required field: " +:+ field
  | InvalidField field value => "invalid field " +:+ field +:+ ": " +:+ value
  | InvalidTag tag value => "invalid tag " +:+ tag +:+ ": " +:+ value
  end.

(** ** [kinds.rs] *)

Definition KIND_GIT_REPO_ANNOUNCEMENT : Z := 30617.
Definition KIND_GIT_REPO_STATE : Z := 30618.
Definition KIND_GIT_PATCH : Z := 1617.
Definition KIND_GIT_PULL_REQUEST : Z := 1618.
Definition KIND_GIT_PULL_REQUEST_UPDATE : Z := 1619.
Definition KIND_GIT_ISSUE : Z := 1621.
Definition KIND_GIT_STATUS_OPEN : Z := 1630.
Definition KIND_GIT_STATUS_APPLIED : Z := 1631.
Definition KIND_GIT_STATUS_CLOSED : Z := 1632.
Definition KIND_GIT_STATUS_DRAFT : Z := 1633.
Definition KIND_USER_GRASP_LIST : Z := 10317.
Definition KIND_GITTREE_CONTROL : Z := 29000.

Definition status_kinds : list Z :=
  [KIND_GIT_STATUS_OPEN; KIND_GIT_STATUS_APPLIED; KIND_GIT_STATUS_CLOSED; KIND_GIT_STATUS_DRAFT].

Definition nip34_required_kinds : list Z :=
  [KIND_GIT_REPO_ANNOUNCEMENT; KIND_GIT_REPO_STATE; KIND_GIT_PATCH; KIND_GIT_PULL_REQUEST;
   KIND_GIT_PULL_REQUEST_UPDATE; KIND_GIT_ISSUE; KIND_GIT_STATUS_OPEN; KIND_GIT_STATUS_APPLIED;
   KIND_GIT_STATUS_CLOSED; KIND_GIT_STATUS_DRAFT].

Definition is_nip34_kind (kind : Z) : bool :=
  existsb (λ entry, bool_decide (entry = kind)) nip34_required_kinds.

(** ** [tags.rs] *)

Definition tag_name (t : tag) : option string := head t.

Definition tag_value (t : tag) : option string := t !! 1.

Definition tag_values (t : tag) : list string :=
  if bool_decide (length t ≤ 1) then [] else drop 1 t.

Definition has_name (name : string) (t : tag) : bool :=
  match head t with Some n => bool_decide (n = name) | None => false end.

Definition collect_tag_values (tags : tag_list) (name : string) : list string :=
  foldl (λ values t, if has_name name t then values ++ drop 1 t else values) [] tags.

Definition push_unique (target : list string) (value : string) : list string :=
  if existsb (λ item, bool_decide (item = value)) target then target else target ++ [value].

Definition extend_unique (target values : list string) : list string :=
  foldl push_unique target values.

Definition collect_tag_values_unique (tags : tag_list) (name : string) : list string :=
  foldl (λ values t, if has_name name t then extend_unique values (tag_values t) else values)
    [] tags.

Definition join_tag_values (kind : string) (values : list string) : tag := kind :: values.

(** ** Slice patterns on tags, and the tags the writers push

    [match_value] is the pattern [[t, value, ..] if t == name], [match_values]
    the pattern [[t, values @ ..] if t == name]. *)

Definition match_value (name : string) (t : tag) : option string :=
  match t with n :: values => if n == name then head values else None | [] => None end.

Definition match_values (name : string) (t : tag) : option (list string) :=
  match t with n :: values => if n == name then Some values else None | [] => None end.

(** [for v in vs { tags.push(vec![name, v]) }] *)
Definition each_tag (name : string) (vs : list string) : tag_list := (λ v, [name; v]) <$> vs.
(** [if let Some(v) = o { tags.push(vec![name, v]) }] *)
Definition option_tag (name : string) (o : option string) : tag_list :=
  match o with Some v => [[name; v]] | None => [] end.
(** [if !vs.is_empty() { tags.push(join_tag_values(name, vs)) }] *)
Definition list_tag (name : string) (vs : list string) : tag_list :=
  match vs with [] => [] | _ => [join_tag_values name vs] end.

(** ** Lemmas *)

Lemma push_unique_in target v : v ∈ target → push_unique target v = target.
Proof.
  intros Hv. unfold push_unique.
  assert (existsb (λ item, bool_decide (item = v)) target = true) as ->; [|done].
  apply existsb_true. exists v. by rewrite bool_decide_eq_true_2.
Qed.

Lemma push_unique_new target v : v ∉ target → push_unique target v = target ++ [v].
Proof.
  intros Hv. unfold push_unique.
  assert (existsb (λ item, bool_decide (item = v)) target = false) as ->; [|done].
  apply existsb_false. intros x Hx. apply bool_decide_eq_false_2. congruence.
Qed.

Lemma elem_of_push_unique x target v : x ∈ push_unique target v ↔ x ∈ target ∨ x = v.
Proof.
  destruct (decide (v ∈ target)).
  - rewrite push_unique_in by done. naive_solver.
  - rewrite push_unique_new by done. set_solver.
Qed.

Lemma NoDup_push_unique target v : NoDup target → NoDup (push_unique target v).
Proof.
  intros Hn. destruct (decide (v ∈ target)).
  - by rewrite push_unique_in.
  - rewrite push_unique_new by done. apply NoDup_app. split; [done|]. split; [set_solver|].
    apply NoDup_singleton.
Qed.

Lemma NoDup_extend_unique target vs : NoDup target → NoDup (extend_unique target vs).
Proof.
  revert target. induction vs as [|v vs IH]; intros target Hn; simpl; [done|].
  apply IH. by apply NoDup_push_unique.
Qed.

Lemma elem_of_extend_unique x target vs : x ∈ extend_unique target vs ↔ x ∈ target ∨ x ∈ vs.
Proof.
  revert target. induction vs as [|v vs IH]; intros target; simpl.
  - set_solver.
  - unfold extend_unique in IH. rewrite IH, elem_of_push_unique. set_solver.
Qed.

(** Values that are new and distinct are appended in order. *)
Lemma extend_unique_fresh target vs :
  NoDup (target ++ vs) → extend_unique target vs = target ++ vs.
Proof.
  revert target. induction vs as [|v vs IH]; intros target Hn; simpl.
  { by rewrite app_nil_r. }
  rewrite push_unique_new.
  - change (target ++ v :: vs) with (target ++ [v] ++ vs) in *. rewrite app_assoc in *.
    by apply IH.
  - apply NoDup_app in Hn as (_ & Hn & _). set_solver.
Qed.

Lemma extend_unique_nil vs : NoDup vs → extend_unique [] vs = vs.
Proof. apply (extend_unique_fresh []). Qed.

(** A loop over tags reads back what the writers pushed, one field at a time:
    [F] is the loop as a function of the remaining tags and of the field. *)
Section ReadBack.
Context {R : Type} (name : string).

Lemma read_each_tag (F : tag_list → list string → R) acc vs rest :
  (∀ v acc rest, F ([name; v] :: rest) acc = F rest (push_unique acc v)) →
  F (each_tag name vs ++ rest) acc = F rest (extend_unique acc vs).
Proof.
  intros HF. revert acc. induction vs as [|v vs IH]; intros acc; simpl; [done|].
  rewrite HF. apply IH.
Qed.

Lemma read_option_tag (F : tag_list → option string → R) o rest :
  (∀ v rest, F ([name; v] :: rest) None = F rest (Some v)) →
  F (option_tag name o ++ rest) None = F rest o.
Proof. intros HF. destruct o; simpl; auto. Qed.

(** Repeated values are read once. *)
Lemma read_list_tag_unique (F : tag_list → list string → R) vs rest :
  (∀ vs rest, F ((name :: vs) :: rest) [] = F rest (extend_unique [] vs)) →
  F (list_tag name vs ++ rest) [] = F rest (extend_unique [] vs).
Proof. intros HF. destruct vs as [|v vs]; [done|]. simpl. unfold join_tag_values. by rewrite HF. Qed.

Lemma read_list_tag (F : tag_list → list string → R) vs rest :
  (∀ vs rest, F ((name :: vs) :: rest) [] = F rest (extend_unique [] vs)) →
  NoDup vs → F (list_tag name vs ++ rest) [] = F rest vs.
Proof. intros HF Hn. by rewrite read_list_tag_unique, extend_unique_nil. Qed.
End ReadBack.

#[export] Hint Resolve NoDup_push_unique NoDup_extend_unique NoDup_nil_2 : gittree.
