(* ===== verification/Externals.v ===== *)
(** * [Externals]: the third-party crates the sources call

    Code that is not part of the repository is a parameter of the model: each
    crate is a class of operations with no definition, and what a theorem
    needs of its documented behaviour is a separate class of laws.  [Vec<u8>]
    values are byte strings ([string], one [ascii] per byte). *)

From S2P Require Import Prelude RustStr.

Abbreviation bytes := string (only parsing).

(** ** The [url] crate *)
Class UrlLib := {
  Url : Type;
  url_parse : string → option Url;
  url_scheme : Url → string;
  url_host_str : Url → option string;
  url_port : Url → option Z;
  url_path : Url → string
}.

(** ** The [bech32] crate: [decode] gives the human-readable part and the data. *)
Class Bech32Lib := {
  bech32_decode : string → option (string * bytes)
}.

(** ** The [hex] crate *)
Class HexLib := {
  hex_encode : bytes → string;
  hex_decode : string → option bytes
}.

(** Decoding inverts encoding; [encode] writes two digits per byte; [decode]
    accepts exactly the strings of an even number of hexadecimal digits, in
    either case, and [encode] gives the lower-case spelling. *)
Class HexLaws `{HexLib} : Prop := {
  hex_decode_encode : ∀ b, hex_decode (hex_encode b) = Some b;
  hex_encode_length : ∀ b, String.length (hex_encode b) = 2 * String.length b;
  hex_encode_digits : ∀ b, all_hexdigit (hex_encode b) = true;
  hex_decode_length : ∀ s b, hex_decode s = Some b → String.length s = 2 * String.length b;
  hex_decode_total : ∀ s, all_hexdigit s = true → Nat.even (String.length s) = true →
    is_Some (hex_decode s);
  hex_decode_case : ∀ s, hex_decode (to_ascii_lowercase s) = hex_decode s;
  hex_encode_decode : ∀ s b, hex_decode s = Some b → hex_encode b = to_ascii_lowercase s
}.

(** ** The [sha2] and [secp256k1] crates *)
Class CryptoLib := {
  Signature : Type;
  XOnlyPublicKey : Type;
  sha256 : bytes → bytes;
  signature_from_str : string → option Signature;
  xonly_from_str : string → option XOnlyPublicKey;
  verify_schnorr : Signature → bytes → XOnlyPublicKey → bool
}.

(** Signing: [SecretKey::from_slice], [Keypair] and [sign_schnorr], whose
    signature is given by its bytes. *)
Class SignerLib := {
  SecretKey : Type;
  secret_from_slice : bytes → option SecretKey;
  sign_schnorr : SecretKey → bytes → bytes
}.

(** A SHA-256 digest has 32 bytes. *)
Class CryptoLaws `{CryptoLib} : Prop := {
  sha256_length : ∀ b, String.length (sha256 b) = 32
}.

(** ** [serde_json::Value]; an object is the list of its members in iteration order. *)
Inductive json : Type :=
| JNull
| JBool (b : bool)
| JPosInt (n : Z)   (* a [u64] *)
| JNegInt (n : Z)   (* a negative [i64] *)
| JFloat
| JString (s : string)
| JArray (l : list json)
| JObject (m : list (string * json)).

Definition as_array (v : json) : option (list json) :=
  match v with JArray l => Some l | _ => None end.
Definition as_object (v : json) : option (list (string * json)) :=
  match v with JObject m => Some m | _ => None end.
Definition as_str (v : json) : option string :=
  match v with JString s => Some s | _ => None end.
Definition as_u64_value (v : json) : option Z :=
  match v with JPosInt n => Some n | _ => None end.
Definition as_i64_value (v : json) : option Z :=
  match v with
  | JPosInt n => if bool_decide (n ≤ i64_max)%Z then Some n else None
  | JNegInt n => Some n
  | _ => None
  end.

(** [json!(n)] for an [i64] or unsigned [n]. *)
Definition json_int (z : Z) : json := if bool_decide (0 ≤ z)%Z then JPosInt z else JNegInt z.

Class JsonLib := {
  json_from_str : string → option json;
  json_to_string : json → string
}.

(** ** Lemmas *)

#[export] Instance hex_encode_inj `{HexLaws} : Inj (=) (=) hex_encode.
Proof. intros a b Hab. apply (f_equal hex_decode) in Hab. rewrite !hex_decode_encode in Hab. naive_solver. Qed.
