(* ===== verification/Nip34Common.v ===== *)
(** * [Nip34Common]: repository addresses, mappings and paths

    Models [crates/core/src/nip34_common.rs] (hex checks and the [a]-tag
    address of a repository), [repo_mapping.rs] and [repo_path.rs]. *)

From S2P Require Import Prelude RustStr CoreTypes Externals.

(** ** [nip34_common.rs] *)

Definition REPO_ANNOUNCEMENT_KIND : string := "30617".
Definition HEX_EVENT_ID_LEN : nat := 64.
Definition HEX_PUBKEY_LEN : nat := 64.

Definition is_hex_hash (value : string) : bool :=
  bool_decide (String.length value = 40 ∨ String.length value = 64) && all_hexdigit value.

Definition is_hex_len (value : string) (len : nat) : bool :=
  bool_decide (String.length value = len) && all_hexdigit value.

Record RepoAddress := mkRepoAddress { ra_pubkey : string; ra_identifier : string }.

Definition RepoAddress_new (pubkey identifier : string) : result CoreError RepoAddress :=
  if is_empty pubkey || negb (is_hex_len pubkey HEX_PUBKEY_LEN) || is_empty identifier then
    Err (InvalidField "a" (REPO_ANNOUNCEMENT_KIND +:+ ":" +:+ pubkey +:+ ":" +:+ identifier))
  else Ok (mkRepoAddress pubkey identifier).

Definition RepoAddress_parse (value : string) : result CoreError RepoAddress :=
  let parts := splitn 4 ":" value in
  let kind := default "" (parts !! 0) in
  let pubkey := default "" (parts !! 1) in
  let identifier := default "" (parts !! 2) in
  let extra := parts !! 3 in
  if negb (bool_decide (kind = REPO_ANNOUNCEMENT_KIND)) || is_empty pubkey
     || is_empty identifier || is_some extra then Err (InvalidField "a" value)
  else RepoAddress_new pubkey identifier.

Definition RepoAddress_display (a : RepoAddress) : string :=
  REPO_ANNOUNCEMENT_KIND +:+ ":" +:+ ra_pubkey a +:+ ":" +:+ ra_identifier a.

Definition validate_repo_address (value : string) : result CoreError unit :=
  (λ _, tt) <$> RepoAddress_parse value.

(** ** [repo_mapping.rs] *)

Record ForgejoRepo := mkForgejoRepo { fr_owner : string; fr_name : string }.

Definition has_whitespace (s : string) : bool := existsb is_whitespace (chars s).

Definition ForgejoRepo_new (owner name : string) : result CoreError ForgejoRepo :=
  if is_blank owner || is_blank name then Err (MissingField "forgejo_repo")
  else if contains_char "/" owner || contains_char "/" name then
    Err (InvalidField "forgejo_repo" (owner +:+ "/" +:+ name))
  else if has_whitespace owner || has_whitespace name then
    Err (InvalidField "forgejo_repo" (owner +:+ "/" +:+ name))
  else Ok (mkForgejoRepo owner name).

Definition ForgejoRepo_parse (value : string) : result CoreError ForgejoRepo :=
  let parts := splitn 3 "/" value in
  let owner := default "" (parts !! 0) in
  let name := default "" (parts !! 1) in
  let extra := parts !! 2 in
  if is_some extra then Err (InvalidField "forgejo_repo" value)
  else ForgejoRepo_new owner name.

Definition full_name (r : ForgejoRepo) : string := fr_owner r +:+ "/" +:+ fr_name r.

Record RepoMapping := mkRepoMapping {
  rm_forgejo : ForgejoRepo;
  rm_pubkey : string;
  rm_identifier : string
}.

Definition RepoMapping_new (forgejo_owner forgejo_repo pubkey identifier : string)
    : result CoreError RepoMapping :=
  if is_blank identifier then Err (MissingField "identifier")
  else if negb (is_hex_len pubkey 64) then Err (InvalidField "pubkey" pubkey)
  else
    forgejo ← ForgejoRepo_new forgejo_owner forgejo_repo;
    Ok (mkRepoMapping forgejo pubkey identifier).

(** ** [repo_path.rs]

    A [Path] is the list of its normal components, the last one first, each
    the bytes of an [OsStr] or [None] where [to_str] fails (not UTF-8). *)

Record RepoPath := mkRepoPath { rp_npub : string; rp_identifier : string; rp_pubkey : string }.

Definition hex_digit (n : nat) : Ascii.ascii :=
  Ascii.ascii_of_nat (if n <? 10 then 48 + n else 87 + n).
Fixpoint bytes_to_hex (b : bytes) : string :=
  match b with
  | "" => ""
  | String c b =>
      let n := Ascii.nat_of_ascii c in
      String (hex_digit (n / 16)) (String (hex_digit (n `mod` 16)) (bytes_to_hex b))
  end.

Section RepoPath.
Context `{Bech32Lib}.

Definition decode_npub_pubkey (npub : string) : result CoreError string :=
  match bech32_decode npub with
  | None => Err (InvalidField "npub" npub)
  | Some (hrp, data) =>
      if negb (bool_decide (hrp = "npub")) then Err (InvalidField "npub" npub)
      else if negb (bool_decide (String.length data = 32)) then Err (InvalidField "npub" npub)
      else Ok (bytes_to_hex data)
  end.

Definition parse_repo_path (components : list (option string)) : result CoreError RepoPath :=
  name ← ok_or (MissingField "repo_path") (mjoin (components !! 0));
  let identifier := default name (strip_suffix ".git" name) in
  _ ← fail_if (is_blank identifier) (MissingField "identifier");
  npub ← ok_or (MissingField "npub") (mjoin (components !! 1));
  pubkey ← decode_npub_pubkey npub;
  Ok (mkRepoPath npub identifier pubkey).
End RepoPath.

(** ** Lemmas *)

Lemma is_hex_len_spec v n :
  is_hex_len v n = true ↔ String.length v = n ∧ all_hexdigit v = true.
Proof. unfold is_hex_len. by rewrite andb_true_iff, bool_decide_eq_true. Qed.

Lemma hex_no_colon v : all_hexdigit v = true → contains_char ":" v = false.
Proof. by apply str_all_not_contains. Qed.

Lemma RepoAddress_new_Ok pk id a :
  RepoAddress_new pk id = Ok a ↔
  is_hex_len pk HEX_PUBKEY_LEN = true ∧ id ≠ "" ∧ a = mkRepoAddress pk id.
Proof.
  unfold RepoAddress_new, is_empty. destruct (is_hex_len pk HEX_PUBKEY_LEN) eqn:Hh; simpl.
  - assert (bool_decide (pk = "") = false) as ->.
    { apply bool_decide_eq_false_2. intros ->. by vm_compute in Hh. }
    simpl. case_bool_decide; naive_solver.
  - rewrite orb_true_r. simpl. naive_solver.
Qed.

Lemma splitn_address pk id :
  contains_char ":" pk = false →
  splitn 4 ":" (REPO_ANNOUNCEMENT_KIND +:+ ":" +:+ pk +:+ ":" +:+ id) =
  REPO_ANNOUNCEMENT_KIND :: pk ::
    match split_once ":" id with None => [id] | Some (u, v) => [u; v] end.
Proof.
  intros Hpk. change (":" +:+ pk +:+ ":" +:+ id) with (String ":" (pk +:+ String ":" id)).
  cbn [splitn]. rewrite split_once_app by done.
  rewrite split_once_app by done. by destruct (split_once ":" id) as [[??]|].
Qed.

(** The components of a parsed address: what [parse] accepts. *)
Lemma RepoAddress_parse_Ok v a :
  RepoAddress_parse v = Ok a ↔
  v = RepoAddress_display a ∧ is_hex_len (ra_pubkey a) HEX_PUBKEY_LEN = true ∧
  ra_identifier a ≠ "" ∧ contains_char ":" (ra_identifier a) = false.
Proof.
  unfold RepoAddress_parse, RepoAddress_display. split.
  - intros Hv. cbn [splitn] in Hv.
    destruct (split_once ":" v) as [[k r]|] eqn:E1.
    2:{ simpl in Hv. change (is_empty "") with true in Hv. rewrite !orb_true_r in Hv. done. }
    apply split_once_Some in E1 as [-> _].
    destruct (split_once ":" r) as [[p i]|] eqn:E2.
    2:{ simpl in Hv. change (is_empty "") with true in Hv. rewrite !orb_true_r in Hv. done. }
    apply split_once_Some in E2 as [-> _].
    destruct (split_once ":" i) as [[i1 i2]|] eqn:E3; simpl in Hv.
    { rewrite !orb_true_r in Hv. done. }
    apply split_once_None in E3.
    destruct (bool_decide (k = REPO_ANNOUNCEMENT_KIND)) eqn:Hk; [|done].
    apply bool_decide_eq_true_1 in Hk as ->. simpl in Hv.
    destruct (is_empty p || is_empty i || false); [done|].
    apply RepoAddress_new_Ok in Hv as (? & ? & ->). done.
  - intros (-> & Hpk & Hid & Hc). pose proof Hpk as [_ Hhex]%is_hex_len_spec.
    rewrite splitn_address by by apply hex_no_colon.
    apply split_once_None in Hc. rewrite Hc. simpl.
    destruct a as [pk id]; simpl in *. unfold is_empty.
    rewrite (bool_decide_eq_false_2 (id = "")) by done.
    rewrite bool_decide_eq_false_2 by (intros ->; by vm_compute in Hpk).
    simpl. by apply RepoAddress_new_Ok.
Qed.

Lemma ForgejoRepo_new_Ok o n r :
  ForgejoRepo_new o n = Ok r ↔
  is_blank o = false ∧ is_blank n = false ∧
  contains_char "/" o = false ∧ contains_char "/" n = false ∧
  has_whitespace o = false ∧ has_whitespace n = false ∧ r = mkForgejoRepo o n.
Proof.
  unfold ForgejoRepo_new. split.
  - destruct (is_blank o || is_blank n) eqn:E1; [done|].
    destruct (contains_char _ o || _) eqn:E2; [done|].
    destruct (has_whitespace o || _) eqn:E3; [done|]. reflect_bools. naive_solver.
  - intros (-> & -> & -> & -> & -> & -> & ->). done.
Qed.

(** ** Properties *)

(** The [Display] form of an address built by [RepoAddress::new] parses
    back to the same address exactly when its identifier has no colon; an
    identifier with a colon is accepted by [new] but never parses back. *)
Lemma repo_address_roundtrip pk id a :
  RepoAddress_new pk id = Ok a →
  RepoAddress_parse (RepoAddress_display a) = Ok a ↔ contains_char ":" id = false.
Proof.
  intros (Hpk & Hid & ->)%RepoAddress_new_Ok. rewrite RepoAddress_parse_Ok. naive_solver.
Qed.

Definition sample_pubkey : string :=
  "a008def15796fba9a0d6fab04e8fd57089285d9fd505da5a83fe8aad57a3564d".

Lemma repo_address_roundtrip_witness :
  RepoAddress_new sample_pubkey "repo" = Ok (mkRepoAddress sample_pubkey "repo") ∧
  RepoAddress_parse (RepoAddress_display (mkRepoAddress sample_pubkey "repo"))
    = Ok (mkRepoAddress sample_pubkey "repo").
Proof.
  split; [vm_compute; reflexivity|].
  apply (repo_address_roundtrip sample_pubkey "repo"); vm_compute; reflexivity.
Defined.

(** A [ForgejoRepo] built by the constructor prints as [owner/name] and
    parses back to itself, and every parsed value is one the constructor
    accepts and prints back as the input. *)
Lemma forgejo_repo_roundtrip r v :
  (ForgejoRepo_new (fr_owner r) (fr_name r) = Ok r ∧ v = full_name r) ↔
  ForgejoRepo_parse v = Ok r.
Proof.
  unfold ForgejoRepo_parse. split.
  - intros [Hnew ->]. pose proof Hnew as (_ & _ & Ho & Hn & _)%ForgejoRepo_new_Ok.
    unfold full_name. change ("/" +:+ fr_name r) with (String "/" (fr_name r)).
    cbn [splitn]. rewrite split_once_app by done. apply split_once_None in Hn as ->. done.
  - cbn [splitn]. destruct (split_once "/" v) as [[o w]|] eqn:E1.
    2:{ simpl. intros (_ & Hb & _)%ForgejoRepo_new_Ok. by vm_compute in Hb. }
    apply split_once_Some in E1 as [-> _].
    destruct (split_once "/" w) as [[n x]|] eqn:E2; simpl; [done|].
    intros Hnew. pose proof Hnew as (_ & _ & _ & _ & _ & _ & ->)%ForgejoRepo_new_Ok.
    done.
Qed.
