(* ===== verification/HexModel.v ===== *)
(** * [HexModel]: a concrete hexadecimal codec

    An instance of [HexLib] that meets [HexLaws], with the same digits as
    [bytes_to_hex] of [crates/core/src/repo_path.rs]; it shows that the laws
    the other files assume of the [hex] crate can hold. *)

From S2P Require Import Prelude RustStr Externals Nip34Common.

Definition hex_val (a : ascii) : option nat :=
  let n := nat_of_ascii a in
  if in_span 48 57 a then Some (n - 48)
  else if in_span 97 102 a then Some (n - 87)
  else if in_span 65 70 a then Some (n - 55)
  else None.

Fixpoint hex_to_bytes (s : string) : option bytes :=
  match s with
  | "" => Some ""
  | String a s =>
      match s with
      | "" => None
      | String b s =>
          x ← hex_val a; y ← hex_val b; t ← hex_to_bytes s;
          Some (String (ascii_of_nat (16 * x + y)) t)
      end
  end.

Definition hex_model : HexLib := {|
  hex_encode := bytes_to_hex;
  hex_decode := hex_to_bytes
|}.

Lemma hex_digit_val n : n < 16 → hex_val (hex_digit n) = Some n ∧ is_ascii_hexdigit (hex_digit n) = true.
Proof. intros Hn. do 16 (destruct n as [|n]; [done|]). lia. Qed.

Lemma nibbles c : nat_of_ascii c / 16 < 16 ∧ nat_of_ascii c `mod` 16 < 16 ∧
  16 * (nat_of_ascii c / 16) + nat_of_ascii c `mod` 16 = nat_of_ascii c.
Proof.
  pose proof (nat_ascii_bounded c). split_and!.
  - apply Nat.Div0.div_lt_upper_bound. lia.
  - apply Nat.mod_upper_bound. lia.
  - symmetry. apply Nat.div_mod. lia.
Qed.

Lemma hex_val_digit a : is_ascii_hexdigit a = true → is_Some (hex_val a).
Proof.
  unfold is_ascii_hexdigit, hex_val. destruct (in_span 48 57 a); [by eexists|].
  destruct (in_span 97 102 a); [by eexists|]. destruct (in_span 65 70 a); [by eexists|done].
Qed.

(** Induction over a string two bytes at a time. *)
Lemma str_pair_ind (P : string → Prop) :
  P "" → (∀ a, P (String a "")) → (∀ a b s, P s → P (String a (String b s))) → ∀ s, P s.
Proof.
  intros H0 H1 H2 s. assert (P s ∧ ∀ a, P (String a s)) as [? _]; [|done].
  induction s as [|b s [IH1 IH2]]; auto.
Qed.

Lemma hex_val_lower a : hex_val (ascii_lower a) = hex_val a.
Proof. by destruct a as [[] [] [] [] [] [] [] []]. Qed.

Lemma hex_val_canonical a x : hex_val a = Some x → x < 16 ∧ hex_digit x = ascii_lower a.
Proof.
  destruct a as [[] [] [] [] [] [] [] []]; vm_compute; intros [= <-];
    (split; [repeat apply le_n_S; apply Nat.le_0_l|reflexivity]).
Qed.

#[export] Instance hex_model_laws : @HexLaws hex_model.
Proof.
  constructor; simpl.
  - intros b. induction b as [|c b IH]; [done|]. cbn [bytes_to_hex hex_to_bytes].
    destruct (nibbles c) as (H1 & H2 & H3).
    destruct (hex_digit_val _ H1) as [-> _], (hex_digit_val _ H2) as [-> _]. simpl.
    rewrite IH. simpl. do 2 f_equal.
    change (ascii_of_nat (16 * (nat_of_ascii c / 16) + nat_of_ascii c `mod` 16) = c).
    rewrite H3. apply ascii_nat_embedding.
  - intros b. induction b as [|c b IH]; [done|]. cbn [bytes_to_hex String.length]. lia.
  - intros b. induction b as [|c b IH]; [done|]. unfold all_hexdigit in *.
    cbn [bytes_to_hex str_all]. destruct (nibbles c) as (H1 & H2 & _).
    destruct (hex_digit_val _ H1) as [_ ->], (hex_digit_val _ H2) as [_ ->]. done.
  - intros s. induction s as [| |a c s IH] using str_pair_ind; intros b; simpl; [by intros [= <-]|done|].
    intros (x & _ & (y & _ & (t & Ht & [= <-])%bind_Some)%bind_Some)%bind_Some.
    apply IH in Ht. simpl. lia.
  - intros s. induction s as [| |a c s IH] using str_pair_ind; simpl; [by eexists|done|].
    unfold all_hexdigit in *. simpl. intros Hall He. apply andb_true_iff in Hall as [Ha [Hc Hs]%andb_true_iff].
    destruct (hex_val_digit a Ha) as [x ->], (hex_val_digit c Hc) as [y ->].
    destruct (IH Hs He) as [t ->]. by eexists.
  - intros s. induction s as [| |a c s IH] using str_pair_ind; [done|done|].
    unfold to_ascii_lowercase in *. cbn [str_map hex_to_bytes]. by rewrite !hex_val_lower, IH.
  - intros s. induction s as [| |a c s IH] using str_pair_ind; intros b; cbn [hex_to_bytes]; [by intros [= <-]|done|].
    intros (x & Hx & (y & Hy & (t & Ht & Hb)%bind_Some)%bind_Some)%bind_Some.
    assert (b = String (ascii_of_nat (16 * x + y)) t) as -> by congruence.
    apply IH in Ht. apply hex_val_canonical in Hx as [Hx Ex], Hy as [Hy Ey].
    unfold to_ascii_lowercase in *. cbn [bytes_to_hex str_map]. rewrite nat_ascii_embedding by lia.
    replace ((16 * x + y) / 16) with x by (rewrite Nat.mul_comm, Nat.div_add_l, Nat.div_small by lia; lia).
    replace ((16 * x + y) `mod` 16) with y.
    { rewrite <-Ex, <-Ey, <-Ht. done. }
    rewrite Nat.add_comm, Nat.mul_comm, Nat.Div0.mod_add. symmetry. by apply Nat.mod_small.
Qed.
