(* ===== verification/Grasp.v ===== *)
(** * [Grasp]: GRASP server URLs

    Models [crates/core/src/grasp.rs].  [url::Url::parse] and
    [bech32::decode] are parameters ([UrlLib], [Bech32Lib]). *)

From S2P Require Import Prelude RustStr CoreTypes Externals.

Section Grasp.
Context `{UrlLib} `{Bech32Lib}.

Definition host_present (u : Url) : bool := is_some (url_host_str u).

(** Lines 4 to 31: parse the input, or the input behind [https://]. *)
Definition parse_with_fallback (input : string) : result CoreError Url :=
  let fallback := ok_or (InvalidField "grasp_url" input) (url_parse ("https://" +:+ input)) in
  parsed ← match url_parse input with Some u => Ok u | None => fallback end;
  if host_present parsed then Ok parsed else fallback.

Definition normalize_grasp_server_url (input : string) : result CoreError string :=
  parsed ← parse_with_fallback input;
  let scheme := url_scheme parsed in
  let host := default "" (url_host_str parsed) in
  let port := match url_port parsed with Some value => ":" +:+ pretty value | None => "" end in
  let path := url_path parsed in
  let normalized :=
    if bool_decide (scheme = "ws" ∨ scheme = "http")
    then "http://" +:+ host +:+ port +:+ path else host +:+ port +:+ path in
  let normalized :=
    match find_split "npub1" normalized with Some (before, _) => before | None => normalized end in
  Ok (trim_end_matches "/" normalized).

Definition validate_npub (npub : string) : result CoreError unit :=
  match bech32_decode npub with
  | None => Err (InvalidField "npub" npub)
  | Some (hrp, _) =>
      if negb (bool_decide (hrp = "npub")) then Err (InvalidField "npub" npub) else Ok tt
  end.

Definition extract_npub (input : string) : result CoreError string :=
  match find_split "npub1" input with
  | Some (_, after) =>
      let npub := "npub1" +:+ (str_span is_ascii_alphanumeric after).1 in
      _ ← validate_npub npub; Ok npub
  | None => Err (InvalidField "npub" input)
  end.

Definition is_grasp_server_in_list (url : string) (grasp_servers : list string) : bool :=
  let trimmed_url := trim_end_matches "/" url in
  existsb (λ server, bool_decide (trim_end_matches "/" server = trimmed_url)) grasp_servers.

(** [None] is the panic of [&after_npub[..after_npub.len() - 4]]. *)
Definition is_grasp_server_clone_url (url : string) : option bool :=
  if negb (starts_with "http://" url) && negb (starts_with "https://" url) then Some false
  else if negb (ends_with ".git" url) && negb (ends_with ".git/" url) then Some false
  else
    match extract_npub url with
    | Err _ => Some false
    | Ok npub =>
        match find_split ("/" +:+ npub +:+ "/") url with
        | None => Some false
        | Some (_, after) =>
            let after_npub := trim_end_matches "/" after in
            if is_empty after_npub || bool_decide (after_npub = ".git") then Some false
            else if String.length after_npub <? 4 then None
            else
              repo_name ← slice_to (String.length after_npub - 4) after_npub;
              Some (negb (is_empty repo_name))
        end
    end.

Definition format_grasp_server_url_as_relay_url (url : string) : result CoreError string :=
  grasp_server_url ← normalize_grasp_server_url url;
  if contains "http://" grasp_server_url
  then Ok (replace "http://" "ws://" grasp_server_url)
  else Ok ("wss://" +:+ grasp_server_url).

Definition format_grasp_server_url_as_clone_url (grasp_server npub identifier : string)
    : result CoreError string :=
  _ ← validate_npub npub;
  grasp_server_url ← normalize_grasp_server_url grasp_server;
  let prefix := if contains "http://" grasp_server_url then "" else "https://" in
  Ok (prefix +:+ grasp_server_url +:+ "/" +:+ npub +:+ "/" +:+ identifier +:+ ".git").

Definition format_grasp_server_url_as_blossom_url (url : string) : result CoreError string :=
  grasp_server_url ← normalize_grasp_server_url url;
  if contains "http://" grasp_server_url then Ok grasp_server_url
  else Ok ("https://" +:+ grasp_server_url).
End Grasp.

(** ** Lemmas *)

Section GraspLemmas.
Context `{UrlLib} `{Bech32Lib}.

Lemma extract_npub_Ok s npub :
  extract_npub s = Ok npub →
  (∃ w, npub = "npub1" +:+ w) ∧ validate_npub npub = Ok tt.
Proof.
  unfold extract_npub. destruct (find_split "npub1" s) as [[u v]|]; [|done].
  intros ([] & Hv & [= <-])%bind_Ok. eauto.
Qed.

(** The normal form of a server URL never contains an npub. *)
Lemma normalize_no_npub x n :
  normalize_grasp_server_url x = Ok n → contains "npub1" n = false.
Proof.
  unfold normalize_grasp_server_url. intros (u & _ & Hn)%bind_Ok. injection Hn as <-.
  set (s := if bool_decide _ then _ else _). clearbody s.
  set (m := match find_split "npub1" s with Some (b, _) => b | None => s end).
  assert (contains "npub1" m = false) as Hm.
  { subst m. destruct (find_split "npub1" s) as [[b a]|] eqn:E.
    - by apply (find_split_first "npub1" s b a).
    - unfold contains. by rewrite E. }
  destruct (trim_end_matches_prefix "/" m) as [t Ht]. rewrite Ht in Hm.
  by apply contains_prefix in Hm.
Qed.

Lemma contains_npub_behind_https n :
  contains "npub1" n = false → contains "npub1" ("https://" +:+ n) = false.
Proof.
  intros Hn. change ("https://" +:+ n) with ("https:/" +:+ String "/" n).
  unfold contains in *. rewrite find_split_after_sep by done.
  by destruct (find_split "npub1" n) as [[??]|].
Qed.

(** The path segment of an npub is found behind any prefix free of npubs. *)
Lemma find_npub_segment b w rest :
  contains "npub1" b = false →
  find_split (String "/" ("npub1" +:+ w)) (b +:+ String "/" ("npub1" +:+ w) +:+ rest)
  = Some (b, rest).
Proof.
  induction b as [|c b IH]; intros Hb.
  { rewrite str_app_nil_l. apply find_split_here. }
  apply contains_cons_false in Hb as [Hc Hb]. rewrite (str_app_cons c b), find_split_cons_None.
  { by rewrite IH. }
  destruct (strip_prefix (String "/" _) _) as [r|] eqn:E; [|done].
  apply strip_prefix_Some in E. rewrite (str_app_cons "/" ("npub1" +:+ w) r) in E. injection E as _ E.
  assert (strip_prefix "npub1" (b +:+ String "/" (("npub1" +:+ w) +:+ rest)) = None) as Hno.
  { apply strip_prefix_before_sep; [|done]. destruct b as [|c' b]; [done|].
    by apply contains_cons_false in Hb as [? _]. }
  rewrite <-(str_app_cons "/"), E, str_app_assoc in Hno. by rewrite strip_prefix_app in Hno.
Qed.

(** What follows a slash in a string keeps the string's slash-free suffixes. *)
Lemma suffix_after_slash a after r g :
  contains_char "/" g = false →
  a +:+ String "/" after = r +:+ g → ∃ t, after = t +:+ g.
Proof.
  intros Hg Heq. change (String "/" after) with (String "/" "" +:+ after) in Heq.
  rewrite <-str_app_assoc in Heq.
  apply str_app_split in Heq as [(t & Ha & Hafter)|(c & t & _ & ->)]; [|eauto].
  destruct t as [|x t]; [by exists ""|]. exfalso.
  apply str_app_split in Ha as [(s & _ & Ht)|(c & s & _ & Ht)].
  - rewrite Hafter, Ht, !contains_char_app in Hg. simpl in Hg.
    by rewrite contains_char_cons, orb_true_r in Hg.
  - rewrite str_app_cons in Ht. injection Ht as _ Ht. destruct s; done.
Qed.

(** The tail of the check, on a tail [t.git]. *)
Lemma clone_url_tail t :
  (let after_npub := trim_end_matches "/" (t +:+ ".git") in
   if is_empty after_npub || bool_decide (after_npub = ".git") then Some false
   else if String.length after_npub <? 4 then None
   else repo_name ← slice_to (String.length after_npub - 4) after_npub;
        Some (negb (is_empty repo_name))) = Some (negb (is_empty t)).
Proof.
  assert (trim_end_matches "/" (t +:+ ".git") = t +:+ ".git") as ->.
  { change ".git" with (".gi" +:+ String "t" ""). rewrite <-str_app_assoc.
    by apply trim_end_matches_id. }
  cbv zeta. destruct (decide (t = "")) as [->|Ht]; [done|].
  assert (is_empty (t +:+ ".git") = false) as ->.
  { apply bool_decide_eq_false_2. by destruct t. }
  assert (is_empty t = false) as -> by by apply bool_decide_eq_false_2.
  rewrite bool_decide_eq_false_2.
  2:{ intros E. apply (f_equal String.length) in E. rewrite str_length_app in E.
      destruct t; [done|]. simpl in E. lia. }
  rewrite str_length_app. cbn [orb].
  assert ((String.length t + String.length ".git" <? 4) = false) as ->
    by (apply Nat.ltb_ge; simpl; lia).
  replace (String.length t + String.length ".git" - 4) with (String.length t) by (simpl; lia).
  rewrite slice_to_app by done. simpl. unfold is_empty. by rewrite bool_decide_eq_false_2.
Qed.
End GraspLemmas.

(** ** Properties *)

Section GraspProperties.
Context `{UrlLib} `{Bech32Lib}.

(** A clone URL that [format_grasp_server_url_as_clone_url] writes for a
    well-formed npub and a nonempty identifier is recognised by
    [is_grasp_server_clone_url], for every server whose normal form has
    [http://] only as its scheme. *)
Lemma clone_url_recognised g n w id url :
  format_grasp_server_url_as_clone_url g ("npub1" +:+ w) id = Ok url →
  normalize_grasp_server_url g = Ok n →
  contains "http://" n = starts_with "http://" n →
  str_all is_ascii_alphanumeric w = true → id ≠ "" →
  is_grasp_server_clone_url url = Some true.
Proof.
  unfold format_grasp_server_url_as_clone_url.
  intros ([] & Hv & (n' & Hn & Hurl)%bind_Ok)%bind_Ok Hn' Hhttp Hw Hid. same_call.
  set (pre := if contains "http://" n then "" else "https://").
  set (npub := "npub1" +:+ w) in *.
  assert (contains "npub1" (pre +:+ n) = false) as Hfree.
  { apply normalize_no_npub in Hn. subst pre.
    destruct (contains "http://" n); [done|]. by apply contains_npub_behind_https. }
  assert (∀ t, starts_with "http://" (pre +:+ n +:+ t) ||
    starts_with "https://" (pre +:+ n +:+ t) = true) as Hst.
  { intros t. subst pre. destruct (contains "http://" n) eqn:E.
    - symmetry in Hhttp. apply starts_with_true in Hhttp as [r ->].
      rewrite str_app_nil_l, str_app_assoc. by rewrite starts_with_app.
    - by rewrite (starts_with_app "https://"), orb_true_r. }
  unfold is_grasp_server_clone_url.
  rewrite <-negb_orb, Hst. clearbody pre. cbn [negb].
  assert (ends_with ".git" (pre +:+ n +:+ "/" +:+ npub +:+ "/" +:+ id +:+ ".git") = true) as ->.
  { unfold ends_with. assert (strip_suffix ".git" (pre +:+ n +:+ "/" +:+ npub +:+ "/" +:+ id +:+ ".git")
      = Some (pre +:+ n +:+ "/" +:+ npub +:+ "/" +:+ id)) as ->; [|done].
    apply strip_suffix_Some. by rewrite !str_app_assoc. }
  cbn [negb andb].
  assert (pre +:+ n +:+ "/" +:+ npub +:+ "/" +:+ id +:+ ".git" =
    (pre +:+ n) +:+ String "/" ("npub1" +:+ (w +:+ "/")) +:+ (id +:+ ".git")) as ->.
  { subst npub. by autorewrite with rust_str. }
  assert (extract_npub ((pre +:+ n) +:+ String "/" ("npub1" +:+ (w +:+ "/")) +:+ id +:+ ".git")
    = Ok npub) as ->.
  { unfold extract_npub. rewrite (str_app_cons "/"), find_split_after_sep by done.
    rewrite str_app_assoc, find_split_here, str_app_assoc.
    rewrite str_span_all by done. simpl. fold npub. by rewrite Hv. }
  assert ("/" +:+ npub +:+ "/" = String "/" ("npub1" +:+ (w +:+ "/"))) as ->.
  { subst npub. by autorewrite with rust_str. }
  rewrite find_npub_segment by done. rewrite clone_url_tail.
  unfold is_empty. by rewrite bool_decide_eq_false_2.
Qed.

(** Recognising a clone URL never panics: whatever the input, the slice
    [&after_npub[..after_npub.len() - 4]] is in range and on a character
    boundary. *)
Lemma clone_url_no_panic url : is_Some (is_grasp_server_clone_url url).
Proof.
  unfold is_grasp_server_clone_url.
  destruct (negb _ && negb _); [eauto|].
  destruct (negb (ends_with ".git" url) && _) eqn:Hend; [eauto|].
  destruct (extract_npub url) as [npub|] eqn:Hx; [|eauto].
  destruct (find_split _ url) as [[u after]|] eqn:Hf; [|eauto].
  apply find_split_Some in Hf.
  assert (url = (u +:+ "/" +:+ npub) +:+ String "/" after) as Hurl.
  { rewrite Hf. autorewrite with rust_str. done. }
  apply andb_false_iff in Hend as [Hend|Hend]; apply negb_false_iff in Hend;
    unfold ends_with in Hend; destruct (strip_suffix _ url) as [r|] eqn:Hr; try done;
    apply strip_suffix_Some in Hr.
  - rewrite Hurl in Hr. apply suffix_after_slash in Hr as [t ->]; [|done].
    rewrite clone_url_tail. eauto.
  - change ".git/" with (".git" +:+ String "/" "") in Hr.
    rewrite <-str_app_assoc, Hurl in Hr.
    destruct (str_snoc_case after) as [->|(a' & c & ->)]; [eauto|].
    rewrite <-(str_app_cons "/"), <-str_app_assoc in Hr. apply str_snoc_inj in Hr as [Hr ->].
    apply suffix_after_slash in Hr as [t ->]; [|done].
    rewrite trim_end_matches_snoc, clone_url_tail. eauto.
Qed.
End GraspProperties.

(** A server known by its host alone, and an npub decoder that accepts the
    prefix [npub1]. *)
Definition sample_url_lib : UrlLib := {|
  Url := string;
  url_parse s := strip_prefix "https://" s;
  url_scheme _ := "https";
  url_host_str u := Some u;
  url_port _ := None;
  url_path _ := "/"
|}.
Definition sample_bech32_lib : Bech32Lib := {|
  bech32_decode s := (λ r, ("npub", r)) <$> strip_prefix "npub1" s
|}.

Lemma clone_url_recognised_witness :
  let _ := sample_url_lib in let _ := sample_bech32_lib in
  is_grasp_server_clone_url "https://grasp.example/npub1abc/repo.git" = Some true.
Proof.
  intros U B.
  apply (@clone_url_recognised U B "grasp.example" "grasp.example" "abc" "repo");
    [vm_compute; reflexivity..|discriminate].
Defined.
