(* ===== verification/Nip34Repo.v ===== *)
(** * [Nip34Repo]: repository announcements and repository state

    Models [crates/core/src/nip34.rs]: [RepoAnnouncement] (kind 30617) and
    [RepoState] (kind 30618), their tag readers and writers, their validation,
    and the detection of GRASP servers.  A reader's loop over the tags is a
    function of the remaining tags and of the loop's local variables. *)

From S2P Require Import Prelude RustStr CoreTypes Externals Grasp.

Definition is_hex40 (value : string) : bool :=
  bool_decide (String.length value = 40) && all_hexdigit value.
Definition is_hex64 (value : string) : bool :=
  bool_decide (String.length value = 64) && all_hexdigit value.

Definition is_state_ref (name : string) : bool :=
  ((name == "HEAD") || starts_with "refs/heads/" name || starts_with "refs/tags" name)
  && negb (ends_with "^{}" name).

Definition is_state_value (value : string) : bool :=
  is_hex40 value || starts_with "ref: refs/" value.

Definition parse_head_ref (value : string) : option string :=
  match strip_prefix "ref: " value with
  | Some rest => Some rest
  | None => if starts_with "refs/" value then Some value else None
  end.

(** ** [RepoAnnouncement] *)

Record RepoAnnouncement := mkRepoAnnouncement {
  an_identifier : string;
  an_name : option string;
  an_description : option string;
  an_root_commit : option string;
  an_clone : list string;
  an_web : list string;
  an_relays : list string;
  an_blossoms : list string;
  an_hashtags : list string;
  an_maintainers : list string
}.

#[export] Instance RepoAnnouncement_eq_dec : EqDecision RepoAnnouncement.
Proof. solve_decision. Defined.

(** The arms [[t, commit] if t == "r"] and
    [[t, commit, marker] if t == "r" && marker == "euc"]. *)
Definition match_root_commit (t : tag) : option string :=
  match t with
  | n :: values =>
      if n == "r" then
        match values with
        | [commit] => Some commit
        | [commit; marker] => if marker == "euc" then Some commit else None
        | _ => None
        end
      else None
  | [] => None
  end.

Fixpoint announcement_loop (tags : tag_list)
    (identifier name description root_commit : option string)
    (clone web relays blossoms hashtags maintainers : list string)
    : result CoreError RepoAnnouncement :=
  match tags with
  | [] =>
      identifier ← ok_or (MissingField "d") identifier;
      Ok (mkRepoAnnouncement identifier name description root_commit clone web relays blossoms
            hashtags maintainers)
  | t :: tags =>
      when id := match_value "d" t then
        announcement_loop tags (Some id) name description root_commit
          clone web relays blossoms hashtags maintainers
      else when value := match_value "name" t then
        announcement_loop tags identifier (Some value) description root_commit
          clone web relays blossoms hashtags maintainers
      else when value := match_value "description" t then
        announcement_loop tags identifier name (Some value) root_commit
          clone web relays blossoms hashtags maintainers
      else when commit := match_root_commit t then
        announcement_loop tags identifier name description (Some commit)
          clone web relays blossoms hashtags maintainers
      else when values := match_values "clone" t then
        announcement_loop tags identifier name description root_commit
          (extend_unique clone values) web relays blossoms hashtags maintainers
      else when values := match_values "web" t then
        announcement_loop tags identifier name description root_commit
          clone (extend_unique web values) relays blossoms hashtags maintainers
      else when values := match_values "relays" t then
        announcement_loop tags identifier name description root_commit
          clone web (extend_unique relays values) blossoms hashtags maintainers
      else when values := match_values "blossoms" t then
        announcement_loop tags identifier name description root_commit
          clone web relays (extend_unique blossoms values) hashtags maintainers
      else when values := match_values "maintainers" t then
        announcement_loop tags identifier name description root_commit
          clone web relays blossoms hashtags (extend_unique maintainers values)
      else when value := match_value "t" t then
        announcement_loop tags identifier name description root_commit
          clone web relays blossoms (push_unique hashtags value) maintainers
      else
        announcement_loop tags identifier name description root_commit
          clone web relays blossoms hashtags maintainers
  end.

Definition RepoAnnouncement_from_tags (tags : tag_list) : result CoreError RepoAnnouncement :=
  announcement_loop tags None None None None [] [] [] [] [] [].

Definition RepoAnnouncement_to_tags (a : RepoAnnouncement) : tag_list :=
  [["d"; an_identifier a]]
  ++ option_tag "name" (an_name a)
  ++ option_tag "description" (an_description a)
  ++ match an_root_commit a with Some commit => [["r"; commit; "euc"]] | None => [] end
  ++ list_tag "clone" (an_clone a)
  ++ list_tag "web" (an_web a)
  ++ list_tag "relays" (an_relays a)
  ++ list_tag "blossoms" (an_blossoms a)
  ++ list_tag "maintainers" (an_maintainers a)
  ++ each_tag "t" (an_hashtags a).

Definition RepoAnnouncement_validate (a : RepoAnnouncement) : result CoreError unit :=
  _ ← fail_if (is_blank (an_identifier a)) (MissingField "d");
  _ ← check_opt (λ c, negb (is_hex40 c)) (InvalidField "r") (an_root_commit a);
  _ ← fail_if (bool_decide (an_clone a = [])) (MissingField "clone");
  _ ← check_each is_blank (InvalidField "clone") (an_clone a);
  _ ← fail_if (bool_decide (an_relays a = [])) (MissingField "relays");
  _ ← check_each is_blank (InvalidField "relays") (an_relays a);
  _ ← check_each (λ m, negb (is_hex64 m)) (InvalidField "maintainers") (an_maintainers a);
  Ok tt.

Definition maintainer_keys (a : RepoAnnouncement) : list string :=
  match an_maintainers a with [] => [] | _ => an_maintainers a end.

Section GraspServers.
Context `{UrlLib} `{Bech32Lib}.

Definition normalize_grasp_host_for_compare (input : string) : result CoreError string :=
  normalized ← normalize_grasp_server_url input;
  Ok (trim_start_matches "http://" normalized).

Definition lists_grasp_host (a : RepoAnnouncement) (host : string) : result CoreError bool :=
  host ← normalize_grasp_host_for_compare host;
  let normalized := omap (λ url, ok (normalize_grasp_host_for_compare url)) (an_relays a) in
  Ok (existsb (λ n, n == host) normalized).

(** The body of the loop over the clone URLs; [servers] is its accumulator. *)
Definition detect_step (relays : list string) (identifier : string)
    (servers : list string) (url : string) : list string :=
  match normalize_grasp_server_url url with
  | Err _ => servers
  | Ok normalized =>
      if bool_decide (normalized ∈ servers) then servers
      else
        let matches_identifier :=
          match extract_npub url with
          | Ok npub => contains ("/" +:+ npub +:+ "/" +:+ identifier +:+ ".git") url
          | Err _ => false
          end in
        if negb matches_identifier then servers
        else if negb (existsb (λ r, r == normalized) relays) then servers
        else servers ++ [normalized]
  end.

Definition detect_grasp_servers (clone_urls relay_urls : list string) (identifier : string)
    : list string :=
  let relays := omap (λ r, ok (normalize_grasp_server_url r)) relay_urls in
  foldl (detect_step relays identifier) [] clone_urls.

Definition grasp_servers (a : RepoAnnouncement) : list string :=
  detect_grasp_servers (an_clone a) (an_relays a) (an_identifier a).
End GraspServers.

(** ** [RepoState] *)

Record RepoState := mkRepoState { st_identifier : string; st_state : gmap string string }.

#[export] Instance RepoState_eq_dec : EqDecision RepoState.
Proof. solve_decision. Defined.

(** The arm [[name, value, ..] if is_state_ref(name) && is_state_value(value)]. *)
Definition match_state (t : tag) : option (string * string) :=
  match t with
  | name :: value :: _ =>
      if is_state_ref name && is_state_value value then Some (name, value) else None
  | _ => None
  end.

Fixpoint state_loop (tags : tag_list) (identifier : option string) (state : gmap string string)
    : result CoreError RepoState :=
  match tags with
  | [] => identifier ← ok_or (MissingField "d") identifier; Ok (mkRepoState identifier state)
  | t :: tags =>
      when id := match_value "d" t then state_loop tags (Some id) state
      else when entry := match_state t then state_loop tags identifier (<[entry.1 := entry.2]> state)
      else state_loop tags identifier state
  end.

Definition RepoState_from_tags (tags : tag_list) : result CoreError RepoState :=
  state_loop tags None ∅.

(** [to_tags] collects the entries and sorts them by key. *)
Definition RepoState_to_tags (s : RepoState) : tag_list :=
  ["d"; st_identifier s] :: ((λ e : string * string, [e.1; e.2]) <$> btree_iter (st_state s)).

Definition head_ref (s : RepoState) : option string :=
  head ← st_state s !! "HEAD"; parse_head_ref head.

Definition head_commit (s : RepoState) : option string :=
  head ← st_state s !! "HEAD";
  match parse_head_ref head with
  | Some target => st_state s !! target
  | None => if is_hex40 head then Some head else None
  end.

Definition ref_map (s : RepoState) : gmap string string :=
  filter (λ e, e.1 ≠ "HEAD") (st_state s).

Definition has_key (state : gmap string string) (k : string) : bool := is_some (state !! k).

(** The loop over the entries of the [HashMap], in its iteration order. *)
Fixpoint check_entries (entries : list (string * string)) : result CoreError unit :=
  match entries with
  | [] => Ok tt
  | (name, value) :: entries =>
      _ ← fail_if (negb (is_state_ref name)) (InvalidTag "state" name);
      _ ← fail_if (negb (is_state_value value)) (InvalidTag "state" value);
      check_entries entries
  end.

Definition RepoState_validate `{HashOrder} (s : RepoState) : result CoreError unit :=
  _ ← fail_if (is_blank (st_identifier s)) (MissingField "d");
  _ ← check_entries (hash_iter (st_state s));
  _ ← fail_if (negb (bool_decide (st_state s = ∅)) && negb (has_key (st_state s) "HEAD"))
        (MissingField "HEAD");
  match st_state s !! "HEAD" with
  | Some head =>
      match parse_head_ref head with
      | Some target =>
          fail_if (negb (has_key (st_state s) target)) (InvalidTag "state" head)
      | None => Ok tt
      end
  | None => Ok tt
  end.

(** ** Invariants of what the readers build *)

(** The list fields of a parsed announcement have no duplicates. *)
Definition announcement_wf (a : RepoAnnouncement) : Prop :=
  NoDup (an_clone a) ∧ NoDup (an_web a) ∧ NoDup (an_relays a) ∧ NoDup (an_blossoms a) ∧
  NoDup (an_hashtags a) ∧ NoDup (an_maintainers a).

(** A parsed state maps references to commits or symbolic references. *)
Definition state_wf (s : RepoState) : Prop :=
  map_Forall (λ name value, is_state_ref name = true ∧ is_state_value value = true) (st_state s).

(** ** Lemmas *)

Lemma announcement_loop_wf tags : ∀ id n d rc cl we re bl ha ma a,
  announcement_loop tags id n d rc cl we re bl ha ma = Ok a →
  NoDup cl → NoDup we → NoDup re → NoDup bl → NoDup ha → NoDup ma → announcement_wf a.
Proof.
  induction tags as [|t tags IH]; intros until a; cbn [announcement_loop].
  - intros (i & _ & [= <-])%bind_Ok **. by repeat split.
  - repeat (split_goal; [intros; eapply IH; eauto with gittree; fail|]).
    intros; eapply IH; eauto with gittree.
Qed.

Lemma from_tags_announcement_wf tags a :
  RepoAnnouncement_from_tags tags = Ok a → announcement_wf a.
Proof. intros Ha. eapply announcement_loop_wf; eauto with gittree. Qed.

(** The announcement with every value of its lists once, where it comes first. *)
Definition without_repeats (a : RepoAnnouncement) : RepoAnnouncement :=
  mkRepoAnnouncement (an_identifier a) (an_name a) (an_description a) (an_root_commit a)
    (extend_unique [] (an_clone a)) (extend_unique [] (an_web a)) (extend_unique [] (an_relays a))
    (extend_unique [] (an_blossoms a)) (extend_unique [] (an_hashtags a)) (extend_unique [] (an_maintainers a)).

Lemma without_repeats_wf a : announcement_wf a → without_repeats a = a.
Proof.
  destruct a. intros (? & ? & ? & ? & ? & ?). unfold without_repeats. simpl in *.
  by rewrite !extend_unique_nil.
Qed.

(** [l'] is [l] without its repetitions. *)
Definition once (l l' : list string) : Prop :=
  NoDup l' ∧ l' `sublist_of` l ∧ ∀ x, x ∈ l' ↔ x ∈ l.

(** The same announcement, with every value of its lists once. *)
Definition announcement_once (a a' : RepoAnnouncement) : Prop :=
  an_identifier a' = an_identifier a ∧ an_name a' = an_name a ∧ an_description a' = an_description a ∧
  an_root_commit a' = an_root_commit a ∧ once (an_clone a) (an_clone a') ∧ once (an_web a) (an_web a') ∧
  once (an_relays a) (an_relays a') ∧ once (an_blossoms a) (an_blossoms a') ∧
  once (an_hashtags a) (an_hashtags a') ∧ once (an_maintainers a) (an_maintainers a').

Lemma extend_unique_once l : once l (extend_unique [] l).
Proof.
  split_and!; [by apply NoDup_extend_unique, NoDup_nil_2| |].
  - induction l as [|x l IH] using rev_ind; [done|]. unfold extend_unique in *. rewrite foldl_app. simpl.
    destruct (decide (x ∈ foldl push_unique [] l)) as [Hx|Hx].
    + rewrite push_unique_in by done. by apply sublist_inserts_r.
    + rewrite push_unique_new by done. by apply sublist_app.
  - intros x. rewrite elem_of_extend_unique. set_solver.
Qed.

Lemma without_repeats_once a : announcement_once a (without_repeats a).
Proof. unfold announcement_once, without_repeats. simpl. split_and!; try done; apply extend_unique_once. Qed.

(** Writing an announcement and reading it back. *)
Lemma announcement_read_once a :
  RepoAnnouncement_from_tags (RepoAnnouncement_to_tags a) = Ok (without_repeats a).
Proof.
  destruct a as [id n d rc cl we re bl ha ma]. unfold without_repeats. simpl.
  unfold RepoAnnouncement_from_tags, RepoAnnouncement_to_tags. simpl.
  rewrite (read_option_tag "name" (λ ts o, announcement_loop ts (Some id) o None None [] [] [] [] [] [])) by done.
  rewrite (read_option_tag "description" (λ ts o, announcement_loop ts (Some id) n o None [] [] [] [] [] [])) by done.
  assert (∀ rest, announcement_loop
    (match rc with Some commit => [["r"; commit; "euc"]] | None => [] end ++ rest)
    (Some id) n d None [] [] [] [] [] [] =
    announcement_loop rest (Some id) n d rc [] [] [] [] [] []) as ->.
  { intros rest. by destruct rc. }
  rewrite (read_list_tag_unique "clone" (λ ts o, announcement_loop ts (Some id) n d rc o [] [] [] [] [])) by done.
  rewrite (read_list_tag_unique "web" (λ ts o, announcement_loop ts (Some id) n d rc _ o [] [] [] [])) by done.
  rewrite (read_list_tag_unique "relays" (λ ts o, announcement_loop ts (Some id) n d rc _ _ o [] [] [])) by done.
  rewrite (read_list_tag_unique "blossoms" (λ ts o, announcement_loop ts (Some id) n d rc _ _ _ o [] [])) by done.
  rewrite (read_list_tag_unique "maintainers" (λ ts o, announcement_loop ts (Some id) n d rc _ _ _ _ [] o)) by done.
  rewrite <-(app_nil_r (each_tag "t" ha)).
  by rewrite (read_each_tag "t" (λ ts o, announcement_loop ts (Some id) n d rc _ _ _ _ o _)) by done.
Qed.

Lemma announcement_read_back a :
  announcement_wf a → RepoAnnouncement_from_tags (RepoAnnouncement_to_tags a) = Ok a.
Proof. intros Ha. by rewrite announcement_read_once, without_repeats_wf. Qed.

Lemma state_loop_wf tags : ∀ id m s,
  state_loop tags id m = Ok s →
  map_Forall (λ name value, is_state_ref name = true ∧ is_state_value value = true) m →
  state_wf s.
Proof.
  induction tags as [|t tags IH]; intros id m s; cbn [state_loop].
  - intros (i & _ & [= <-])%bind_Ok Hm. done.
  - destruct (match_value "d" t); [apply IH|].
    destruct (match_state t) as [[name value]|] eqn:E; [|apply IH]. intros Hs Hm.
    eapply IH; [done|]. apply map_Forall_insert_2; [|done].
    unfold match_state in E. split_all E. by reflect_bools.
Qed.

Lemma from_tags_state_wf tags s : RepoState_from_tags tags = Ok s → state_wf s.
Proof. intros Hs. eapply state_loop_wf; [done|]. apply map_Forall_empty. Qed.

(** No reference is named [d], so the entries of a state are read as entries. *)
Lemma state_loop_entry name value tags id m :
  is_state_ref name = true → is_state_value value = true →
  state_loop ([name; value] :: tags) id m = state_loop tags id (<[name := value]> m).
Proof.
  intros Hn Hv. cbn [state_loop match_value match_state]. destruct (String.eqb_spec name "d") as [->|_].
  - by vm_compute in Hn.
  - by rewrite Hn, Hv.
Qed.

Lemma state_loop_entries l : ∀ id m,
  Forall (λ e : string * string, is_state_ref e.1 = true ∧ is_state_value e.2 = true) l →
  NoDup l.*1 →
  state_loop ((λ e : string * string, [e.1; e.2]) <$> l) (Some id) m
  = Ok (mkRepoState id (list_to_map l ∪ m)).
Proof.
  induction l as [|[k v] l IH]; intros id m Hl Hn.
  - simpl. by rewrite (left_id_L ∅ (∪)).
  - apply Forall_cons in Hl as [[??] Hl]. apply NoDup_cons in Hn as [Hk Hn].
    rewrite fmap_cons, state_loop_entry, IH by done. cbn [list_to_map foldr].
    rewrite <-insert_union_l, insert_union_r; [done|]. by apply not_elem_of_list_to_map.
Qed.

Lemma state_read_back s :
  state_wf s → RepoState_from_tags (RepoState_to_tags s) = Ok s.
Proof.
  destruct s as [id m]. unfold state_wf. simpl. intros Hm.
  unfold RepoState_from_tags, RepoState_to_tags. simpl.
  assert (NoDup (btree_iter m).*1) as Hn.
  { rewrite btree_iter_perm. apply NoDup_fst_map_to_list. }
  rewrite state_loop_entries; [|apply Forall_forall|done].
  - rewrite (right_id_L ∅ (∪)). do 2 f_equal.
    rewrite (list_to_map_proper _ _ Hn (btree_iter_perm m)). apply list_to_map_to_list.
  - intros [k v] Hkv%elem_of_btree_iter. by apply Hm in Hkv.
Qed.

Lemma check_entries_Ok l :
  check_entries l = Ok tt ↔
  ∀ name value, (name, value) ∈ l → is_state_ref name = true ∧ is_state_value value = true.
Proof.
  induction l as [|[n v] l IH]; cbn [check_entries].
  { split; [|done]. intros _ ?? ?%not_elem_of_nil. done. }
  rewrite !bind_Ok_unit, !fail_if_Ok, !negb_false_iff, IH. set_solver.
Qed.

(** What validation accepts, whatever the iteration order of the map. *)
Lemma RepoState_validate_Ok `{HashOrder} s :
  RepoState_validate s = Ok tt ↔
  is_blank (st_identifier s) = false ∧ state_wf s ∧
  (st_state s ≠ ∅ → is_Some (st_state s !! "HEAD")) ∧
  (∀ target, head_ref s = Some target → is_Some (st_state s !! target)).
Proof.
  unfold RepoState_validate. rewrite !bind_Ok_unit, !fail_if_Ok, check_entries_Ok.
  setoid_rewrite elem_of_hash_iter. unfold state_wf, head_ref, has_key, map_Forall.
  f_equiv; f_equiv. rewrite andb_false_iff, !negb_false_iff, bool_decide_eq_true.
  rewrite is_some_true. f_equiv; [destruct (decide (st_state s = ∅)); naive_solver|].
  destruct (st_state s !! "HEAD") as [head|]; simpl; [|naive_solver].
  destruct (parse_head_ref head) as [target|]; [|naive_solver].
  rewrite fail_if_Ok, negb_false_iff, is_some_true. naive_solver.
Qed.

Section DetectLemmas.
Context `{UrlLib} `{Bech32Lib}.

(** A clone URL whose server qualifies. *)
Definition serves (relays : list string) (identifier url server : string) : Prop :=
  normalize_grasp_server_url url = Ok server ∧
  (∃ npub, extract_npub url = Ok npub ∧
     contains ("/" +:+ npub +:+ "/" +:+ identifier +:+ ".git") url = true) ∧
  server ∈ relays.

Lemma detect_step_spec relays identifier servers url :
  NoDup servers →
  NoDup (detect_step relays identifier servers url) ∧
  ∀ s, s ∈ detect_step relays identifier servers url ↔
       s ∈ servers ∨ serves relays identifier url s.
Proof.
  intros Hn. unfold detect_step, serves.
  destruct (normalize_grasp_server_url url) as [n|] eqn:E1; [|naive_solver].
  case_bool_decide as Hin; [naive_solver|].
  destruct (extract_npub url) as [npub|] eqn:E2; simpl; [|naive_solver].
  destruct (contains _ url) eqn:E3; simpl.
  2:{ split; [done|]. intros s. split; [by left|].
      intros [?|(_ & (np & [= <-] & Hc) & _)]; congruence. }
  destruct (existsb _ relays) eqn:E4; simpl.
  - apply existsb_true in E4 as (r & Hr & ->%String.eqb_eq). split.
    + apply NoDup_app. split; [done|]. split; [set_solver|apply NoDup_singleton].
    + intros s. rewrite elem_of_app, list_elem_of_singleton. naive_solver.
  - assert (n ∉ relays) as Hnot.
    { intros Hx. apply (proj1 (existsb_false _ _) E4) in Hx. by rewrite String.eqb_refl in Hx. }
    naive_solver.
Qed.

Lemma detect_fold_spec relays identifier urls : ∀ servers,
  NoDup servers →
  NoDup (foldl (detect_step relays identifier) servers urls) ∧
  ∀ s, s ∈ foldl (detect_step relays identifier) servers urls ↔
       s ∈ servers ∨ ∃ url, url ∈ urls ∧ serves relays identifier url s.
Proof.
  induction urls as [|url urls IH]; intros servers Hn; simpl.
  { split; [done|]. set_solver. }
  destruct (detect_step_spec relays identifier servers url Hn) as [Hn' Hs].
  destruct (IH _ Hn') as [Hn'' Hs'']. split; [done|]. intros s. rewrite Hs'', Hs. set_solver.
Qed.
End DetectLemmas.

(** ** Properties *)

(** A state that passes [RepoState::validate] and is not empty has a head:
    [head_commit] returns the value of [HEAD] when that is a commit, and the
    value of the reference [HEAD] points to when it is symbolic; that
    reference is always present. *)
Lemma validated_state_has_head `{HashOrder} s :
  RepoState_validate s = Ok tt → st_state s ≠ ∅ →
  ∃ head c, st_state s !! "HEAD" = Some head ∧ head_commit s = Some c ∧
    is_state_value c = true ∧
    match head_ref s with
    | None => c = head ∧ is_hex40 c = true
    | Some target => st_state s !! target = Some c
    end.
Proof.
  intros (_ & Hwf & Hhead & Href)%RepoState_validate_Ok Hne.
  destruct (Hhead Hne) as [head Hh]. exists head.
  pose proof (Hwf _ _ Hh) as [_ Hv]. unfold head_commit, head_ref in *. rewrite Hh in *. simpl in *.
  destruct (parse_head_ref head) as [target|] eqn:E.
  - destruct (Href target) as [c Hc]; [done|]. exists c. rewrite Hc. split_and!; try done.
    by apply Hwf in Hc as [_ ?].
  - exists head. pose proof Hv as Hv'. unfold is_state_value in Hv. destruct (is_hex40 head) eqn:Hx; [by split_and!|].
    apply starts_with_true in Hv as [r ->]. by vm_compute in E.
Qed.

Definition sample_hash_order : HashOrder := {|
  hash_iter V m := map_to_list m;
  hash_iter_perm V m := reflexivity _
|}.
Definition sample_commit : string := "9fceb02d0ae598e95dc970b74767f19372d61af8".
Definition sample_state : RepoState :=
  mkRepoState "repo" {[ "HEAD" := "ref: refs/heads/main"; "refs/heads/main" := sample_commit ]}.

Lemma validated_state_has_head_witness :
  let _ := sample_hash_order in
  RepoState_validate sample_state = Ok tt ∧
  ∃ head c, st_state sample_state !! "HEAD" = Some head ∧ head_commit sample_state = Some c ∧
    is_state_value c = true ∧
    match head_ref sample_state with
    | None => c = head ∧ is_hex40 c = true
    | Some target => st_state sample_state !! target = Some c
    end.
Proof.
  intros O. split; [vm_compute; reflexivity|].
  apply (@validated_state_has_head O sample_state); [vm_compute; reflexivity|].
  intros E. apply (f_equal (.!! "HEAD")) in E. vm_compute in E. discriminate.
Defined.

(** [grasp_servers] lists, without duplicates, exactly the servers [s] such
    that some clone URL normalises to [s] and names the repository behind a
    valid npub, and some relay URL normalises to [s] too. *)
Lemma grasp_servers_spec `{UrlLib} `{Bech32Lib} a :
  NoDup (grasp_servers a) ∧
  ∀ s, s ∈ grasp_servers a ↔
    ∃ url relay npub,
      url ∈ an_clone a ∧ relay ∈ an_relays a ∧
      normalize_grasp_server_url url = Ok s ∧ normalize_grasp_server_url relay = Ok s ∧
      extract_npub url = Ok npub ∧
      contains ("/" +:+ npub +:+ "/" +:+ an_identifier a +:+ ".git") url = true.
Proof.
  unfold grasp_servers, detect_grasp_servers.
  destruct (detect_fold_spec (omap (λ r, ok (normalize_grasp_server_url r)) (an_relays a))
    (an_identifier a) (an_clone a) [] (NoDup_nil_2)) as [Hn Hs].
  split; [done|]. intros s. rewrite Hs. unfold serves. setoid_rewrite list_elem_of_omap.
  setoid_rewrite ok_Some. rewrite elem_of_nil. naive_solver.
Qed.
