(* ===== verification/Nip34Events.v ===== *)
(** * [Nip34Events]: issues, patches, pull requests, statuses

    Models [crates/core/src/nip34_issues.rs], [nip34_patches.rs],
    [nip34_proposals.rs], [nip34_status.rs], [nip34_grasp_list.rs] and the
    dispatch of [nip34_events.rs].  As in [Nip34Repo], a reader's loop over the
    tags is a function of the remaining tags and of the loop's locals. *)

From S2P Require Import Prelude RustStr CoreTypes Externals Nip34Common Grasp Nip34Repo.

(** ** [nip34_issues.rs] *)

Record Issue := mkIssue {
  is_repo_address : string;
  is_mentions : list string;
  is_subject : option string;
  is_labels : list string
}.

Fixpoint issue_loop (tags : tag_list) (repo_address : option string) (mentions : list string)
    (subject : option string) (labels : list string) : result CoreError Issue :=
  match tags with
  | [] =>
      repo_address ← ok_or (MissingField "a") repo_address;
      Ok (mkIssue repo_address mentions subject labels)
  | t :: tags =>
      when value := match_value "a" t then issue_loop tags (Some value) mentions subject labels
      else when value := match_value "p" t then
        issue_loop tags repo_address (push_unique mentions value) subject labels
      else when value := match_value "subject" t then
        issue_loop tags repo_address mentions (Some value) labels
      else when value := match_value "t" t then
        issue_loop tags repo_address mentions subject (push_unique labels value)
      else issue_loop tags repo_address mentions subject labels
  end.

Definition Issue_from_tags (tags : tag_list) : result CoreError Issue :=
  issue_loop tags None [] None [].

Definition Issue_to_tags (i : Issue) : tag_list :=
  [["a"; is_repo_address i]]
  ++ each_tag "p" (is_mentions i)
  ++ option_tag "subject" (is_subject i)
  ++ each_tag "t" (is_labels i).

Definition Issue_validate (i : Issue) : result CoreError unit :=
  _ ← validate_repo_address (is_repo_address i);
  _ ← check_each (λ m, negb (is_hex_len m HEX_PUBKEY_LEN)) (InvalidField "p") (is_mentions i);
  _ ← check_opt is_blank (InvalidField "subject") (is_subject i);
  _ ← check_each is_blank (InvalidField "t") (is_labels i);
  Ok tt.

(** ** [nip34_patches.rs] *)

Record CommitterTag := mkCommitterTag {
  ct_name : string;
  ct_email : string;
  ct_timestamp : Z;         (* i64 *)
  ct_timezone_minutes : Z   (* i32 *)
}.

Definition CommitterTag_from_tag (t : tag) : result CoreError CommitterTag :=
  let name := default "" (t !! 1) in
  let email := default "" (t !! 2) in
  let timestamp := (t !! 3) ≫= parse_i64 in
  let timezone_minutes := (t !! 4) ≫= parse_i32 in
  if is_blank name || is_blank email || is_none timestamp || is_none timezone_minutes then
    Err (InvalidField "committer" (join " " t))
  else Ok (mkCommitterTag name email (default 0%Z timestamp) (default 0%Z timezone_minutes)).

Definition CommitterTag_to_tag (c : CommitterTag) : tag :=
  ["committer"; ct_name c; ct_email c; pretty (ct_timestamp c); pretty (ct_timezone_minutes c)].

(** The id and the marker (fourth element) of an [e] tag. *)
Definition parse_e_tag (t : tag) : option (string * option string) :=
  match t with
  | n :: values =>
      if n == "e" then
        match values with event_id :: rest => Some (event_id, rest !! 1) | [] => None end
      else None
  | [] => None
  end.

Record Patch := mkPatch {
  pa_repo_address : string;
  pa_repo_refs : list string;
  pa_mentions : list string;
  pa_root_event : option string;
  pa_reply_event : option string;
  pa_is_root : bool;
  pa_is_root_revision : bool;
  pa_commit : option string;
  pa_parent_commit : option string;
  pa_commit_pgp_sig : option string;
  pa_committer : option CommitterTag
}.

(** The arm [[t, value, ..] if t == "t" && value == v]. *)
Definition match_exact (name v : string) (t : tag) : option unit :=
  match match_value name t with Some value => if value == v then Some tt else None | None => None end.

Fixpoint patch_loop (tags : tag_list) (repo_address : option string)
    (repo_refs mentions : list string) (root_event reply_event : option string)
    (is_root is_root_revision : bool) (commit parent_commit commit_pgp_sig : option string)
    (committer : option CommitterTag) : result CoreError Patch :=
  match tags with
  | [] =>
      repo_address ← ok_or (MissingField "a") repo_address;
      Ok (mkPatch repo_address repo_refs mentions root_event reply_event is_root
            is_root_revision commit parent_commit commit_pgp_sig committer)
  | t :: tags =>
      when value := match_value "a" t then
        patch_loop tags (Some value) repo_refs mentions root_event reply_event is_root
          is_root_revision commit parent_commit commit_pgp_sig committer
      else when value := match_value "r" t then
        patch_loop tags repo_address (push_unique repo_refs value) mentions root_event reply_event
          is_root is_root_revision commit parent_commit commit_pgp_sig committer
      else when value := match_value "p" t then
        patch_loop tags repo_address repo_refs (push_unique mentions value) root_event reply_event
          is_root is_root_revision commit parent_commit commit_pgp_sig committer
      else when _u := match_exact "t" "root" t then
        patch_loop tags repo_address repo_refs mentions root_event reply_event true
          is_root_revision commit parent_commit commit_pgp_sig committer
      else when _u := match_exact "t" "root-revision" t then
        patch_loop tags repo_address repo_refs mentions root_event reply_event is_root
          true commit parent_commit commit_pgp_sig committer
      else when value := match_value "commit" t then
        patch_loop tags repo_address repo_refs mentions root_event reply_event is_root
          is_root_revision (Some value) parent_commit commit_pgp_sig committer
      else when value := match_value "parent-commit" t then
        patch_loop tags repo_address repo_refs mentions root_event reply_event is_root
          is_root_revision commit (Some value) commit_pgp_sig committer
      else when value := match_value "commit-pgp-sig" t then
        patch_loop tags repo_address repo_refs mentions root_event reply_event is_root
          is_root_revision commit parent_commit (Some value) committer
      else when _u := match_values "committer" t then
        c ← CommitterTag_from_tag t;
        patch_loop tags repo_address repo_refs mentions root_event reply_event is_root
          is_root_revision commit parent_commit commit_pgp_sig (Some c)
      else
        match parse_e_tag t with
        | Some (event_id, Some marker) =>
            if marker == "root" then
              patch_loop tags repo_address repo_refs mentions (Some event_id) reply_event is_root
                is_root_revision commit parent_commit commit_pgp_sig committer
            else if marker == "reply" then
              patch_loop tags repo_address repo_refs mentions root_event (Some event_id) is_root
                is_root_revision commit parent_commit commit_pgp_sig committer
            else
              patch_loop tags repo_address repo_refs mentions root_event reply_event is_root
                is_root_revision commit parent_commit commit_pgp_sig committer
        | _ =>
            patch_loop tags repo_address repo_refs mentions root_event reply_event is_root
              is_root_revision commit parent_commit commit_pgp_sig committer
        end
  end.

Definition Patch_from_tags (tags : tag_list) : result CoreError Patch :=
  patch_loop tags None [] [] None None false false None None None None.

(** [if let Some(id) = o { tags.push(vec!["e", id, "", marker]) }] *)
Definition marked_e_tag (marker : string) (o : option string) : tag_list :=
  match o with Some id => [["e"; id; ""; marker]] | None => [] end.

Definition Patch_to_tags (p : Patch) : tag_list :=
  [["a"; pa_repo_address p]]
  ++ each_tag "r" (pa_repo_refs p)
  ++ each_tag "p" (pa_mentions p)
  ++ (if pa_is_root p then [["t"; "root"]] else [])
  ++ (if pa_is_root_revision p then [["t"; "root-revision"]] else [])
  ++ option_tag "commit" (pa_commit p)
  ++ option_tag "parent-commit" (pa_parent_commit p)
  ++ option_tag "commit-pgp-sig" (pa_commit_pgp_sig p)
  ++ marked_e_tag "root" (pa_root_event p)
  ++ marked_e_tag "reply" (pa_reply_event p)
  ++ match pa_committer p with Some c => [CommitterTag_to_tag c] | None => [] end.

Definition Patch_validate (p : Patch) : result CoreError unit :=
  _ ← validate_repo_address (pa_repo_address p);
  _ ← fail_if (pa_is_root_revision p && negb (pa_is_root p))
        (InvalidField "t" "root-revision without root");
  _ ← check_opt (λ e, negb (is_hex_len e HEX_EVENT_ID_LEN)) (InvalidField "e") (pa_root_event p);
  _ ← check_opt (λ e, negb (is_hex_len e HEX_EVENT_ID_LEN)) (InvalidField "e") (pa_reply_event p);
  _ ← check_each (λ r, negb (is_hex_hash r)) (InvalidField "r") (pa_repo_refs p);
  _ ← check_each (λ m, negb (is_hex_len m HEX_PUBKEY_LEN)) (InvalidField "p") (pa_mentions p);
  _ ← check_opt (λ c, negb (is_hex_hash c)) (InvalidField "commit") (pa_commit p);
  _ ← check_opt (λ c, negb (is_hex_hash c)) (InvalidField "parent-commit") (pa_parent_commit p);
  Ok tt.

(** ** [nip34_proposals.rs] *)

Record PullRequest := mkPullRequest {
  pr_repo_address : string;
  pr_repo_refs : list string;
  pr_mentions : list string;
  pr_subject : option string;
  pr_labels : list string;
  pr_tip_commit : string;
  pr_clone : list string;
  pr_branch_name : option string;
  pr_revision_of : option string;
  pr_merge_base : option string
}.

Fixpoint pull_request_loop (tags : tag_list) (repo_address : option string)
    (repo_refs mentions : list string) (subject : option string) (labels : list string)
    (tip_commit : option string) (clone : list string)
    (branch_name revision_of merge_base : option string) : result CoreError PullRequest :=
  match tags with
  | [] =>
      repo_address ← ok_or (MissingField "a") repo_address;
      tip_commit ← ok_or (MissingField "c") tip_commit;
      Ok (mkPullRequest repo_address repo_refs mentions subject labels tip_commit clone
            branch_name revision_of merge_base)
  | t :: tags =>
      when value := match_value "a" t then
        pull_request_loop tags (Some value) repo_refs mentions subject labels tip_commit clone
          branch_name revision_of merge_base
      else when value := match_value "r" t then
        pull_request_loop tags repo_address (push_unique repo_refs value) mentions subject labels
          tip_commit clone branch_name revision_of merge_base
      else when value := match_value "p" t then
        pull_request_loop tags repo_address repo_refs (push_unique mentions value) subject labels
          tip_commit clone branch_name revision_of merge_base
      else when value := match_value "subject" t then
        pull_request_loop tags repo_address repo_refs mentions (Some value) labels tip_commit clone
          branch_name revision_of merge_base
      else when value := match_value "t" t then
        pull_request_loop tags repo_address repo_refs mentions subject (push_unique labels value)
          tip_commit clone branch_name revision_of merge_base
      else when value := match_value "c" t then
        pull_request_loop tags repo_address repo_refs mentions subject labels (Some value) clone
          branch_name revision_of merge_base
      else when values := match_values "clone" t then
        pull_request_loop tags repo_address repo_refs mentions subject labels tip_commit
          (extend_unique clone values) branch_name revision_of merge_base
      else when value := match_value "branch-name" t then
        pull_request_loop tags repo_address repo_refs mentions subject labels tip_commit clone
          (Some value) revision_of merge_base
      else when value := match_value "e" t then
        pull_request_loop tags repo_address repo_refs mentions subject labels tip_commit clone
          branch_name (Some value) merge_base
      else when value := match_value "merge-base" t then
        pull_request_loop tags repo_address repo_refs mentions subject labels tip_commit clone
          branch_name revision_of (Some value)
      else
        pull_request_loop tags repo_address repo_refs mentions subject labels tip_commit clone
          branch_name revision_of merge_base
  end.

Definition PullRequest_from_tags (tags : tag_list) : result CoreError PullRequest :=
  pull_request_loop tags None [] [] None [] None [] None None None.

Definition PullRequest_to_tags (p : PullRequest) : tag_list :=
  [["a"; pr_repo_address p]]
  ++ each_tag "r" (pr_repo_refs p)
  ++ each_tag "p" (pr_mentions p)
  ++ option_tag "subject" (pr_subject p)
  ++ each_tag "t" (pr_labels p)
  ++ [["c"; pr_tip_commit p]]
  ++ list_tag "clone" (pr_clone p)
  ++ option_tag "branch-name" (pr_branch_name p)
  ++ option_tag "e" (pr_revision_of p)
  ++ option_tag "merge-base" (pr_merge_base p).

Definition PullRequest_validate (p : PullRequest) : result CoreError unit :=
  _ ← validate_repo_address (pr_repo_address p);
  _ ← fail_if (is_blank (pr_tip_commit p)) (MissingField "c");
  _ ← fail_if (negb (is_hex_hash (pr_tip_commit p))) (InvalidField "c" (pr_tip_commit p));
  _ ← fail_if (bool_decide (pr_clone p = [])) (MissingField "clone");
  _ ← check_each is_blank (InvalidField "clone") (pr_clone p);
  _ ← check_each (λ r, negb (is_hex_hash r)) (InvalidField "r") (pr_repo_refs p);
  _ ← check_each (λ m, negb (is_hex_len m HEX_PUBKEY_LEN)) (InvalidField "p") (pr_mentions p);
  _ ← check_opt is_blank (InvalidField "subject") (pr_subject p);
  _ ← check_opt is_blank (InvalidField "branch-name") (pr_branch_name p);
  _ ← check_opt (λ e, negb (is_hex_len e HEX_EVENT_ID_LEN)) (InvalidField "e") (pr_revision_of p);
  _ ← check_opt (λ c, negb (is_hex_hash c)) (InvalidField "merge-base") (pr_merge_base p);
  Ok tt.

Record PullRequestUpdate := mkPullRequestUpdate {
  pu_repo_address : string;
  pu_repo_refs : list string;
  pu_mentions : list string;
  pu_root_event_id : string;
  pu_root_author : string;
  pu_tip_commit : string;
  pu_clone : list string;
  pu_merge_base : option string
}.

Fixpoint pull_request_update_loop (tags : tag_list) (repo_address : option string)
    (repo_refs mentions : list string) (root_event_id root_author tip_commit : option string)
    (clone : list string) (merge_base : option string) : result CoreError PullRequestUpdate :=
  match tags with
  | [] =>
      repo_address ← ok_or (MissingField "a") repo_address;
      root_event_id ← ok_or (MissingField "E") root_event_id;
      root_author ← ok_or (MissingField "P") root_author;
      tip_commit ← ok_or (MissingField "c") tip_commit;
      Ok (mkPullRequestUpdate repo_address repo_refs mentions root_event_id root_author
            tip_commit clone merge_base)
  | t :: tags =>
      when value := match_value "a" t then
        pull_request_update_loop tags (Some value) repo_refs mentions root_event_id root_author
          tip_commit clone merge_base
      else when value := match_value "r" t then
        pull_request_update_loop tags repo_address (push_unique repo_refs value) mentions
          root_event_id root_author tip_commit clone merge_base
      else when value := match_value "p" t then
        pull_request_update_loop tags repo_address repo_refs (push_unique mentions value)
          root_event_id root_author tip_commit clone merge_base
      else when value := match_value "E" t then
        pull_request_update_loop tags repo_address repo_refs mentions (Some value) root_author
          tip_commit clone merge_base
      else when value := match_value "P" t then
        pull_request_update_loop tags repo_address repo_refs mentions root_event_id (Some value)
          tip_commit clone merge_base
      else when value := match_value "c" t then
        pull_request_update_loop tags repo_address repo_refs mentions root_event_id root_author
          (Some value) clone merge_base
      else when values := match_values "clone" t then
        pull_request_update_loop tags repo_address repo_refs mentions root_event_id root_author
          tip_commit (extend_unique clone values) merge_base
      else when value := match_value "merge-base" t then
        pull_request_update_loop tags repo_address repo_refs mentions root_event_id root_author
          tip_commit clone (Some value)
      else
        pull_request_update_loop tags repo_address repo_refs mentions root_event_id root_author
          tip_commit clone merge_base
  end.

Definition PullRequestUpdate_from_tags (tags : tag_list) : result CoreError PullRequestUpdate :=
  pull_request_update_loop tags None [] [] None None None [] None.

Definition PullRequestUpdate_to_tags (p : PullRequestUpdate) : tag_list :=
  [["a"; pu_repo_address p]]
  ++ each_tag "r" (pu_repo_refs p)
  ++ each_tag "p" (pu_mentions p)
  ++ [["E"; pu_root_event_id p]; ["P"; pu_root_author p]; ["c"; pu_tip_commit p]]
  ++ list_tag "clone" (pu_clone p)
  ++ option_tag "merge-base" (pu_merge_base p).

Definition PullRequestUpdate_validate (p : PullRequestUpdate) : result CoreError unit :=
  _ ← validate_repo_address (pu_repo_address p);
  _ ← fail_if (negb (is_hex_len (pu_root_event_id p) HEX_EVENT_ID_LEN))
        (InvalidField "E" (pu_root_event_id p));
  _ ← fail_if (negb (is_hex_len (pu_root_author p) HEX_PUBKEY_LEN))
        (InvalidField "P" (pu_root_author p));
  _ ← fail_if (negb (is_hex_hash (pu_tip_commit p))) (InvalidField "c" (pu_tip_commit p));
  _ ← fail_if (bool_decide (pu_clone p = [])) (MissingField "clone");
  _ ← check_each is_blank (InvalidField "clone") (pu_clone p);
  _ ← check_each (λ r, negb (is_hex_hash r)) (InvalidField "r") (pu_repo_refs p);
  _ ← check_each (λ m, negb (is_hex_len m HEX_PUBKEY_LEN)) (InvalidField "p") (pu_mentions p);
  _ ← check_opt (λ c, negb (is_hex_hash c)) (InvalidField "merge-base") (pu_merge_base p);
  Ok tt.

(** ** [nip34_status.rs] *)

Record StatusAppliedRef := mkStatusAppliedRef {
  ar_event_id : string;
  ar_relay : string;
  ar_pubkey : string
}.

Record StatusEvent := mkStatusEvent {
  se_root_event : string;
  se_reply_events : list string;
  se_mentions : list string;
  se_repo_address : option string;
  se_repo_refs : list string;
  se_applied_refs : list StatusAppliedRef;
  se_merge_commit : option string;
  se_applied_as_commits : list string
}.

Definition parse_q_tag (t : tag) : result CoreError StatusAppliedRef :=
  match t with
  | _ :: event_id :: relay :: pubkey :: _ => Ok (mkStatusAppliedRef event_id relay pubkey)
  | _ => Err (InvalidField "q" (join " " t))
  end.

Fixpoint status_loop (tags : tag_list) (root_event : option string)
    (reply_events mentions : list string) (repo_address : option string)
    (repo_refs : list string) (applied_refs : list StatusAppliedRef)
    (merge_commit : option string) (applied_as_commits : list string)
    : result CoreError StatusEvent :=
  match tags with
  | [] =>
      root_event ← ok_or (MissingField "e") root_event;
      Ok (mkStatusEvent root_event reply_events mentions repo_address repo_refs applied_refs
            merge_commit applied_as_commits)
  | t :: tags =>
      when e := parse_e_tag t then
        match e with
        | (event_id, Some marker) =>
            if marker == "root" then
              match root_event with
              | Some existing =>
                  if negb (existing == event_id) then Err (InvalidTag "e" event_id)
                  else status_loop tags root_event reply_events mentions repo_address repo_refs
                         applied_refs merge_commit applied_as_commits
              | None =>
                  status_loop tags (Some event_id) reply_events mentions repo_address repo_refs
                    applied_refs merge_commit applied_as_commits
              end
            else if marker == "reply" then
              status_loop tags root_event (push_unique reply_events event_id) mentions repo_address
                repo_refs applied_refs merge_commit applied_as_commits
            else
              status_loop tags root_event reply_events mentions repo_address repo_refs
                applied_refs merge_commit applied_as_commits
        | (_, None) =>
            status_loop tags root_event reply_events mentions repo_address repo_refs
              applied_refs merge_commit applied_as_commits
        end
      else when value := match_value "a" t then
        status_loop tags root_event reply_events mentions (Some value) repo_refs
          applied_refs merge_commit applied_as_commits
      else when value := match_value "p" t then
        status_loop tags root_event reply_events (push_unique mentions value) repo_address
          repo_refs applied_refs merge_commit applied_as_commits
      else when value := match_value "r" t then
        status_loop tags root_event reply_events mentions repo_address
          (push_unique repo_refs value) applied_refs merge_commit applied_as_commits
      else when values := match_values "applied-as-commits" t then
        status_loop tags root_event reply_events mentions repo_address repo_refs
          applied_refs merge_commit (extend_unique applied_as_commits values)
      else when value := match_value "merge-commit" t then
        status_loop tags root_event reply_events mentions repo_address repo_refs
          applied_refs (Some value) applied_as_commits
      else when _u := match_values "q" t then
        q ← parse_q_tag t;
        status_loop tags root_event reply_events mentions repo_address repo_refs
          (applied_refs ++ [q]) merge_commit applied_as_commits
      else
        status_loop tags root_event reply_events mentions repo_address repo_refs
          applied_refs merge_commit applied_as_commits
  end.

Definition StatusEvent_from_tags (tags : tag_list) : result CoreError StatusEvent :=
  status_loop tags None [] [] None [] [] None [].

Definition StatusEvent_to_tags (s : StatusEvent) : tag_list :=
  [["e"; se_root_event s; ""; "root"]]
  ++ ((λ reply, ["e"; reply; ""; "reply"]) <$> se_reply_events s)
  ++ each_tag "p" (se_mentions s)
  ++ option_tag "a" (se_repo_address s)
  ++ each_tag "r" (se_repo_refs s)
  ++ ((λ a, ["q"; ar_event_id a; ar_relay a; ar_pubkey a]) <$> se_applied_refs s)
  ++ option_tag "merge-commit" (se_merge_commit s)
  ++ list_tag "applied-as-commits" (se_applied_as_commits s).

Fixpoint check_applied_refs (l : list StatusAppliedRef) : result CoreError unit :=
  match l with
  | [] => Ok tt
  | a :: l =>
      _ ← fail_if (negb (is_hex_len (ar_event_id a) HEX_EVENT_ID_LEN))
            (InvalidField "q" (ar_event_id a));
      _ ← fail_if (negb (is_hex_len (ar_pubkey a) HEX_PUBKEY_LEN))
            (InvalidField "q" (ar_pubkey a));
      _ ← fail_if (is_blank (ar_relay a)) (InvalidField "q" (ar_relay a));
      check_applied_refs l
  end.

Definition StatusEvent_validate (s : StatusEvent) : result CoreError unit :=
  _ ← fail_if (negb (is_hex_len (se_root_event s) HEX_EVENT_ID_LEN))
        (InvalidField "e" (se_root_event s));
  _ ← check_each (λ e, negb (is_hex_len e HEX_EVENT_ID_LEN)) (InvalidField "e") (se_reply_events s);
  _ ← check_each (λ m, negb (is_hex_len m HEX_PUBKEY_LEN)) (InvalidField "p") (se_mentions s);
  _ ← match se_repo_address s with Some a => validate_repo_address a | None => Ok tt end;
  _ ← check_each (λ r, negb (is_hex_hash r)) (InvalidField "r") (se_repo_refs s);
  _ ← check_applied_refs (se_applied_refs s);
  _ ← check_opt (λ c, negb (is_hex_hash c)) (InvalidField "merge-commit") (se_merge_commit s);
  _ ← check_each (λ c, negb (is_hex_hash c)) (InvalidField "applied-as-commits")
        (se_applied_as_commits s);
  Ok tt.

(** ** [nip34_grasp_list.rs] *)

Record UserGraspList := mkUserGraspList { ug_urls : list string }.

Fixpoint grasp_list_loop (tags : tag_list) (urls : list string) : UserGraspList :=
  match tags with
  | [] => mkUserGraspList urls
  | t :: tags =>
      when value := match_value "g" t then grasp_list_loop tags (push_unique urls value)
      else grasp_list_loop tags urls
  end.

Definition UserGraspList_from_tags_lossy (tags : tag_list) : UserGraspList :=
  grasp_list_loop tags [].

Definition UserGraspList_from_tags (tags : tag_list) : result CoreError UserGraspList :=
  Ok (UserGraspList_from_tags_lossy tags).

Definition UserGraspList_to_tags (u : UserGraspList) : tag_list := each_tag "g" (ug_urls u).

Definition bad_grasp_url `{UrlLib} (url : string) : bool :=
  match url_parse url with
  | None => true
  | Some parsed => negb (url_scheme parsed == "ws") && negb (url_scheme parsed == "wss")
  end.

Definition UserGraspList_validate `{UrlLib} (u : UserGraspList) : result CoreError unit :=
  check_each bad_grasp_url (InvalidField "g") (ug_urls u).

(** ** [nip34_events.rs] *)

Inductive Nip34Event :=
| ERepoAnnouncement (e : RepoAnnouncement)
| ERepoState (e : RepoState)
| EPatch (e : Patch)
| EPullRequest (e : PullRequest)
| EPullRequestUpdate (e : PullRequestUpdate)
| EIssue (e : Issue)
| EStatus (kind : Z) (e : StatusEvent)
| EUserGraspList (e : UserGraspList).

Definition is_status_kind (kind : Z) : bool :=
  bool_decide (kind = KIND_GIT_STATUS_OPEN) || bool_decide (kind = KIND_GIT_STATUS_APPLIED)
  || bool_decide (kind = KIND_GIT_STATUS_CLOSED) || bool_decide (kind = KIND_GIT_STATUS_DRAFT).

Definition Nip34Event_parse (kind : Z) (tags : tag_list) : result CoreError Nip34Event :=
  if bool_decide (kind = KIND_GIT_REPO_ANNOUNCEMENT) then
    ERepoAnnouncement <$> RepoAnnouncement_from_tags tags
  else if bool_decide (kind = KIND_GIT_REPO_STATE) then ERepoState <$> RepoState_from_tags tags
  else if bool_decide (kind = KIND_GIT_PATCH) then EPatch <$> Patch_from_tags tags
  else if bool_decide (kind = KIND_GIT_PULL_REQUEST) then
    EPullRequest <$> PullRequest_from_tags tags
  else if bool_decide (kind = KIND_GIT_PULL_REQUEST_UPDATE) then
    EPullRequestUpdate <$> PullRequestUpdate_from_tags tags
  else if bool_decide (kind = KIND_GIT_ISSUE) then EIssue <$> Issue_from_tags tags
  else if is_status_kind kind then EStatus kind <$> StatusEvent_from_tags tags
  else if bool_decide (kind = KIND_USER_GRASP_LIST) then
    Ok (EUserGraspList (UserGraspList_from_tags_lossy tags))
  else Err (InvalidField "kind" (pretty kind)).

Definition Nip34Event_kind (e : Nip34Event) : Z :=
  match e with
  | ERepoAnnouncement _ => KIND_GIT_REPO_ANNOUNCEMENT
  | ERepoState _ => KIND_GIT_REPO_STATE
  | EPatch _ => KIND_GIT_PATCH
  | EPullRequest _ => KIND_GIT_PULL_REQUEST
  | EPullRequestUpdate _ => KIND_GIT_PULL_REQUEST_UPDATE
  | EIssue _ => KIND_GIT_ISSUE
  | EStatus kind _ => kind
  | EUserGraspList _ => KIND_USER_GRASP_LIST
  end.

Definition Nip34Event_to_tags (e : Nip34Event) : tag_list :=
  match e with
  | ERepoAnnouncement e => RepoAnnouncement_to_tags e
  | ERepoState e => RepoState_to_tags e
  | EPatch e => Patch_to_tags e
  | EPullRequest e => PullRequest_to_tags e
  | EPullRequestUpdate e => PullRequestUpdate_to_tags e
  | EIssue e => Issue_to_tags e
  | EStatus _ e => StatusEvent_to_tags e
  | EUserGraspList e => UserGraspList_to_tags e
  end.

Section Validate.
Context `{UrlLib} `{HashOrder}.

Definition Nip34Event_validate (e : Nip34Event) : result CoreError unit :=
  match e with
  | ERepoAnnouncement e => RepoAnnouncement_validate e
  | ERepoState e => RepoState_validate e
  | EPatch e => Patch_validate e
  | EPullRequest e => PullRequest_validate e
  | EPullRequestUpdate e => PullRequestUpdate_validate e
  | EIssue e => Issue_validate e
  | EStatus _ e => StatusEvent_validate e
  | EUserGraspList e => UserGraspList_validate e
  end.

Definition parse_validated (kind : Z) (tags : tag_list) : result CoreError Nip34Event :=
  event ← Nip34Event_parse kind tags;
  _ ← Nip34Event_validate event;
  Ok event.
End Validate.

(** ** Invariants of what the readers build *)

Definition issue_wf (i : Issue) : Prop := NoDup (is_mentions i) ∧ NoDup (is_labels i).

Definition committer_wf (c : CommitterTag) : Prop :=
  is_blank (ct_name c) = false ∧ is_blank (ct_email c) = false ∧
  (i64_min ≤ ct_timestamp c ≤ i64_max)%Z ∧ (i32_min ≤ ct_timezone_minutes c ≤ i32_max)%Z.

Definition patch_wf (p : Patch) : Prop :=
  NoDup (pa_repo_refs p) ∧ NoDup (pa_mentions p) ∧
  (∀ c, pa_committer p = Some c → committer_wf c).

Definition pull_request_wf (p : PullRequest) : Prop :=
  NoDup (pr_repo_refs p) ∧ NoDup (pr_mentions p) ∧ NoDup (pr_labels p) ∧ NoDup (pr_clone p).

Definition pull_request_update_wf (p : PullRequestUpdate) : Prop :=
  NoDup (pu_repo_refs p) ∧ NoDup (pu_mentions p) ∧ NoDup (pu_clone p).

Definition status_wf (s : StatusEvent) : Prop :=
  NoDup (se_reply_events s) ∧ NoDup (se_mentions s) ∧ NoDup (se_repo_refs s) ∧
  NoDup (se_applied_as_commits s).

Definition grasp_list_wf (u : UserGraspList) : Prop := NoDup (ug_urls u).

Definition event_wf (e : Nip34Event) : Prop :=
  match e with
  | ERepoAnnouncement e => announcement_wf e
  | ERepoState e => state_wf e
  | EPatch e => patch_wf e
  | EPullRequest e => pull_request_wf e
  | EPullRequestUpdate e => pull_request_update_wf e
  | EIssue e => issue_wf e
  | EStatus kind e => is_status_kind kind = true ∧ status_wf e
  | EUserGraspList e => grasp_list_wf e
  end.

(** ** The readers establish the invariants *)

(** Go through the arms of a reader's loop, closing each with the induction
    hypothesis. *)
Ltac loop_arms IH :=
  repeat (split_goal; [intros; eapply IH; eauto with gittree; fail|]);
  try (intros; eapply IH; eauto with gittree; fail).

Lemma issue_loop_wf tags : ∀ a m s l i,
  issue_loop tags a m s l = Ok i → NoDup m → NoDup l → issue_wf i.
Proof.
  induction tags as [|t tags IH]; intros until i; cbn [issue_loop].
  - intros (x & _ & [= <-])%bind_Ok **. by split.
  - loop_arms IH.
Qed.

Lemma committer_from_tag_wf t c : CommitterTag_from_tag t = Ok c → committer_wf c.
Proof.
  unfold CommitterTag_from_tag. set (ts := (t !! 3) ≫= parse_i64).
  set (tz := (t !! 4) ≫= parse_i32).
  destruct (_ || _) eqn:E; [done|]. intros [= <-]. reflect_bools.
  destruct ts as [ts'|] eqn:Hts; [|done]. destruct tz as [tz'|] eqn:Htz; [|done].
  subst ts tz. apply bind_Some in Hts as (x & _ & ?%parse_int_range).
  apply bind_Some in Htz as (y & _ & ?%parse_int_range). unfold committer_wf. simpl. tauto.
Qed.

Lemma patch_loop_wf tags : ∀ a r m e1 e2 b1 b2 c1 c2 c3 c p,
  patch_loop tags a r m e1 e2 b1 b2 c1 c2 c3 c = Ok p →
  NoDup r → NoDup m → (∀ x, c = Some x → committer_wf x) → patch_wf p.
Proof.
  induction tags as [|t tags IH]; intros until p; cbn [patch_loop].
  - intros (x & _ & [= <-])%bind_Ok **. by split.
  - repeat (split_goal; [first
      [ intros; eapply IH; eauto with gittree; fail
      | intros (x & Hx%committer_from_tag_wf & Hp)%bind_Ok ???; eapply IH; eauto; naive_solver ]|]).
    all: repeat split_goal; intros; eapply IH; eauto with gittree.
Qed.

Lemma pull_request_loop_wf tags : ∀ a r m s l tc cl b ro mb p,
  pull_request_loop tags a r m s l tc cl b ro mb = Ok p →
  NoDup r → NoDup m → NoDup l → NoDup cl → pull_request_wf p.
Proof.
  induction tags as [|t tags IH]; intros until p; cbn [pull_request_loop].
  - intros (x & _ & (y & _ & [= <-])%bind_Ok)%bind_Ok **. by split_and!.
  - loop_arms IH.
Qed.

Lemma pull_request_update_loop_wf tags : ∀ a r m re ra tc cl mb p,
  pull_request_update_loop tags a r m re ra tc cl mb = Ok p →
  NoDup r → NoDup m → NoDup cl → pull_request_update_wf p.
Proof.
  induction tags as [|t tags IH]; intros until p; cbn [pull_request_update_loop].
  - intros (x & _ & (y & _ & (z & _ & (w & _ & [= <-])%bind_Ok)%bind_Ok)%bind_Ok)%bind_Ok **.
    by split_and!.
  - loop_arms IH.
Qed.

Lemma status_loop_wf tags : ∀ re rp m a r ar mc ac s,
  status_loop tags re rp m a r ar mc ac = Ok s →
  NoDup rp → NoDup m → NoDup r → NoDup ac → status_wf s.
Proof.
  induction tags as [|t tags IH]; intros until s; cbn [status_loop].
  - intros (x & _ & [= <-])%bind_Ok **. by split_and!.
  - destruct (parse_e_tag t) as [[id [mk|]]|].
    + repeat split_goal; intros; try done; eapply IH; eauto with gittree.
    + apply IH.
    + repeat (split_goal; [first
        [ intros; eapply IH; eauto with gittree; fail
        | intros (x & _ & Hp)%bind_Ok ????; eapply IH; eauto ]|]).
      apply IH.
Qed.

Lemma grasp_list_loop_wf tags : ∀ urls, NoDup urls → grasp_list_wf (grasp_list_loop tags urls).
Proof.
  induction tags as [|t tags IH]; intros urls Hu; cbn [grasp_list_loop]; [done|].
  split_goal; apply IH; auto with gittree.
Qed.

(** What [parse] returns, with the kind it was parsed at. *)
Lemma parse_event_wf kind tags e :
  Nip34Event_parse kind tags = Ok e → event_wf e ∧ Nip34Event_kind e = kind.
Proof.
  unfold Nip34Event_parse.
  repeat (case_bool_decide as Hk; [subst kind; intros (x & Hx & ->)%fmap_Ok; split; [|done]|clear Hk]).
  - by eapply from_tags_announcement_wf.
  - by eapply from_tags_state_wf.
  - eapply patch_loop_wf; [done|auto with gittree..|done].
  - eapply pull_request_loop_wf; [done|auto with gittree..].
  - eapply pull_request_update_loop_wf; [done|auto with gittree..].
  - eapply issue_loop_wf; [done|auto with gittree..].
  - destruct (is_status_kind kind) eqn:Hs.
    + intros (x & Hx & ->)%fmap_Ok. split; [|done]. split; [done|].
      eapply status_loop_wf; [done|auto with gittree..].
    + case_bool_decide as Hk; [subst kind|done]. intros [= <-]. split; [|done].
      apply grasp_list_loop_wf. auto with gittree.
Qed.

(** ** Writing an event and reading it back *)

Lemma issue_read_back i : issue_wf i → Issue_from_tags (Issue_to_tags i) = Ok i.
Proof.
  destruct i as [a m s l]. intros [Hm Hl]; simpl in *.
  unfold Issue_from_tags, Issue_to_tags. simpl.
  rewrite (read_each_tag "p" (λ ts o, issue_loop ts (Some a) o None [])) by done.
  rewrite (read_option_tag "subject" (λ ts o, issue_loop ts (Some a) _ o [])) by done.
  rewrite <-(app_nil_r (each_tag "t" l)).
  rewrite (read_each_tag "t" (λ ts o, issue_loop ts (Some a) (extend_unique [] m) s o)) by done.
  by rewrite !extend_unique_nil.
Qed.

Lemma committer_read_back c :
  committer_wf c → CommitterTag_from_tag (CommitterTag_to_tag c) = Ok c.
Proof.
  destruct c as [n e ts tz]. intros (Hn & He & Hts & Htz); simpl in *.
  unfold CommitterTag_from_tag, CommitterTag_to_tag. simpl. rewrite Hn, He.
  unfold parse_i64, parse_i32. by rewrite !parse_int_pretty.
Qed.

Lemma patch_read_back p : patch_wf p → Patch_from_tags (Patch_to_tags p) = Ok p.
Proof.
  destruct p as [a r m e1 e2 b1 b2 c1 c2 c3 c]. intros (Hr & Hm & Hc); simpl in *.
  unfold Patch_from_tags, Patch_to_tags. simpl.
  rewrite (read_each_tag "r"
    (λ ts o, patch_loop ts (Some a) o [] None None false false None None None None)) by done.
  rewrite (read_each_tag "p"
    (λ ts o, patch_loop ts (Some a) _ o None None false false None None None None)) by done.
  rewrite !extend_unique_nil by done.
  assert (∀ rest, patch_loop ((if b1 then [["t"; "root"]] else []) ++
    (if b2 then [["t"; "root-revision"]] else []) ++ rest)
    (Some a) r m None None false false None None None None =
    patch_loop rest (Some a) r m None None b1 b2 None None None None) as ->
    by (intros rest; by destruct b1, b2).
  rewrite (read_option_tag "commit"
    (λ ts o, patch_loop ts (Some a) r m None None b1 b2 o None None None)) by done.
  rewrite (read_option_tag "parent-commit"
    (λ ts o, patch_loop ts (Some a) r m None None b1 b2 c1 o None None)) by done.
  rewrite (read_option_tag "commit-pgp-sig"
    (λ ts o, patch_loop ts (Some a) r m None None b1 b2 c1 c2 o None)) by done.
  assert (∀ rest, patch_loop (marked_e_tag "root" e1 ++ marked_e_tag "reply" e2 ++ rest)
    (Some a) r m None None b1 b2 c1 c2 c3 None =
    patch_loop rest (Some a) r m e1 e2 b1 b2 c1 c2 c3 None) as ->
    by (intros rest; by destruct e1, e2).
  destruct c as [c|]; [|done]. change (CommitterTag_to_tag c) with
    ("committer" :: tail (CommitterTag_to_tag c)). cbn -[CommitterTag_from_tag tail].
  change ("committer" :: tail (CommitterTag_to_tag c)) with (CommitterTag_to_tag c).
  by rewrite committer_read_back by auto.
Qed.

Lemma pull_request_read_back p :
  pull_request_wf p → PullRequest_from_tags (PullRequest_to_tags p) = Ok p.
Proof.
  destruct p as [a r m s l tc cl b ro mb]. intros (Hr & Hm & Hl & Hcl); simpl in *.
  unfold PullRequest_from_tags, PullRequest_to_tags. simpl.
  rewrite (read_each_tag "r"
    (λ ts o, pull_request_loop ts (Some a) o [] None [] None [] None None None)) by done.
  rewrite (read_each_tag "p"
    (λ ts o, pull_request_loop ts (Some a) _ o None [] None [] None None None)) by done.
  rewrite (read_option_tag "subject"
    (λ ts o, pull_request_loop ts (Some a) _ _ o [] None [] None None None)) by done.
  rewrite (read_each_tag "t"
    (λ ts o, pull_request_loop ts (Some a) _ _ s o None [] None None None)) by done.
  rewrite !extend_unique_nil by done. cbn -[list_tag option_tag].
  rewrite (read_list_tag "clone"
    (λ ts o, pull_request_loop ts (Some a) r m s l (Some tc) o None None None)) by done.
  rewrite (read_option_tag "branch-name"
    (λ ts o, pull_request_loop ts (Some a) r m s l (Some tc) cl o None None)) by done.
  rewrite (read_option_tag "e"
    (λ ts o, pull_request_loop ts (Some a) r m s l (Some tc) cl b o None)) by done.
  rewrite <-(app_nil_r (option_tag "merge-base" mb)).
  by rewrite (read_option_tag "merge-base"
    (λ ts o, pull_request_loop ts (Some a) r m s l (Some tc) cl b ro o)).
Qed.

Lemma pull_request_update_read_back p :
  pull_request_update_wf p → PullRequestUpdate_from_tags (PullRequestUpdate_to_tags p) = Ok p.
Proof.
  destruct p as [a r m re ra tc cl mb]. intros (Hr & Hm & Hcl); simpl in *.
  unfold PullRequestUpdate_from_tags, PullRequestUpdate_to_tags. simpl.
  rewrite (read_each_tag "r"
    (λ ts o, pull_request_update_loop ts (Some a) o [] None None None [] None)) by done.
  rewrite (read_each_tag "p"
    (λ ts o, pull_request_update_loop ts (Some a) _ o None None None [] None)) by done.
  rewrite !extend_unique_nil by done. cbn -[list_tag option_tag].
  rewrite (read_list_tag "clone"
    (λ ts o, pull_request_update_loop ts (Some a) r m (Some re) (Some ra) (Some tc) o None)) by done.
  rewrite <-(app_nil_r (option_tag "merge-base" mb)).
  by rewrite (read_option_tag "merge-base"
    (λ ts o, pull_request_update_loop ts (Some a) r m (Some re) (Some ra) (Some tc) cl o)).
Qed.

Lemma status_replies re rp : ∀ acc rest,
  status_loop (((λ reply, ["e"; reply; ""; "reply"]) <$> rp) ++ rest) re acc [] None [] [] None [] =
  status_loop rest re (extend_unique acc rp) [] None [] [] None [].
Proof. induction rp as [|x rp IH]; intros acc rest; [done|]. simpl. apply IH. Qed.

Lemma status_applied re rp m a r l : ∀ acc rest,
  status_loop (((λ x, ["q"; ar_event_id x; ar_relay x; ar_pubkey x]) <$> l) ++ rest)
    re rp m a r acc None [] =
  status_loop rest re rp m a r (acc ++ l) None [].
Proof.
  induction l as [|[x y z] l IH]; intros acc rest; [by rewrite app_nil_r|].
  simpl. rewrite IH. by rewrite <-app_assoc.
Qed.

Lemma status_read_back s : status_wf s → StatusEvent_from_tags (StatusEvent_to_tags s) = Ok s.
Proof.
  destruct s as [re rp m a r ar mc ac]. intros (Hrp & Hm & Hr & Hac); simpl in *.
  unfold StatusEvent_from_tags, StatusEvent_to_tags. simpl.
  rewrite status_replies.
  rewrite (read_each_tag "p" (λ ts o, status_loop ts (Some re) _ o None [] [] None [])) by done.
  rewrite (read_option_tag "a" (λ ts o, status_loop ts (Some re) _ _ o [] [] None [])) by done.
  rewrite (read_each_tag "r" (λ ts o, status_loop ts (Some re) _ _ a o [] None [])) by done.
  rewrite status_applied, !extend_unique_nil, app_nil_l by done.
  rewrite (read_option_tag "merge-commit" (λ ts o, status_loop ts (Some re) rp m a r ar o [])) by done.
  rewrite <-(app_nil_r (list_tag "applied-as-commits" ac)).
  by rewrite (read_list_tag "applied-as-commits" (λ ts o, status_loop ts (Some re) rp m a r ar mc o)).
Qed.

Lemma grasp_list_read_back u :
  grasp_list_wf u → UserGraspList_from_tags_lossy (UserGraspList_to_tags u) = u.
Proof.
  destruct u as [urls]. unfold grasp_list_wf. simpl. intros Hu.
  unfold UserGraspList_from_tags_lossy, UserGraspList_to_tags. simpl.
  rewrite <-(app_nil_r (each_tag "g" urls)), (read_each_tag "g" grasp_list_loop) by done.
  by rewrite extend_unique_nil.
Qed.

Lemma event_read_back e :
  event_wf e → Nip34Event_parse (Nip34Event_kind e) (Nip34Event_to_tags e) = Ok e.
Proof.
  destruct e as [e|e|e|e|e|e|k e|e]; cbn [event_wf Nip34Event_kind Nip34Event_to_tags]; intros Hwf.
  - change (ERepoAnnouncement <$> RepoAnnouncement_from_tags (RepoAnnouncement_to_tags e)
      = Ok (ERepoAnnouncement e)). by rewrite announcement_read_back.
  - change (ERepoState <$> RepoState_from_tags (RepoState_to_tags e) = Ok (ERepoState e)).
    by rewrite state_read_back.
  - change (EPatch <$> Patch_from_tags (Patch_to_tags e) = Ok (EPatch e)).
    by rewrite patch_read_back.
  - change (EPullRequest <$> PullRequest_from_tags (PullRequest_to_tags e) = Ok (EPullRequest e)).
    by rewrite pull_request_read_back.
  - change (EPullRequestUpdate <$> PullRequestUpdate_from_tags (PullRequestUpdate_to_tags e)
      = Ok (EPullRequestUpdate e)). by rewrite pull_request_update_read_back.
  - change (EIssue <$> Issue_from_tags (Issue_to_tags e) = Ok (EIssue e)).
    by rewrite issue_read_back.
  - destruct Hwf as [Hk Hwf].
    assert (∃ s, s ∈ status_kinds ∧ k = s) as (s & Hs & ->).
    { unfold is_status_kind in Hk. rewrite !orb_true_iff, !bool_decide_eq_true in Hk.
      exists k. split; [|done]. unfold status_kinds. set_solver. }
    assert (Nip34Event_parse s (StatusEvent_to_tags e)
      = EStatus s <$> StatusEvent_from_tags (StatusEvent_to_tags e)) as ->.
    { unfold status_kinds in Hs. repeat (apply elem_of_cons in Hs as [->|Hs]; [done|]).
      by apply elem_of_nil in Hs. }
    by rewrite status_read_back.
  - change (Ok (E:=CoreError) (EUserGraspList (UserGraspList_from_tags_lossy (UserGraspList_to_tags e)))
      = Ok (EUserGraspList e)). by rewrite grasp_list_read_back.
Qed.

(** ** What validation guarantees about identifiers *)









(** The root marker of a status loop: the root in progress is never replaced. *)
Lemma status_loop_root tags : ∀ re rp m a r ar mc ac s,
  status_loop tags re rp m a r ar mc ac = Ok s →
  (∀ x, re = Some x → x = se_root_event s) ∧
  (∀ t id, t ∈ tags → parse_e_tag t = Some (id, Some "root") → id = se_root_event s) ∧
  (re = None → ∃ t, t ∈ tags ∧ parse_e_tag t = Some (se_root_event s, Some "root")).
Proof.
  induction tags as [|t tags IH]; intros until s; cbn [status_loop].
  { intros (x & Hx%ok_or_Ok & [= <-])%bind_Ok. simpl. subst re.
    split; [naive_solver|]. split; [|done]. by intros ?? ?%not_elem_of_nil. }
  intros Hs. setoid_rewrite elem_of_cons.
  destruct (parse_e_tag t) as [[id [mk|]]|] eqn:Et.
  2: { apply IH in Hs as (? & ? & ?). naive_solver. }
  2: { repeat (split_in Hs; [first
         [ apply IH in Hs as (? & ? & ?); naive_solver
         | apply bind_Ok in Hs as (? & _ & Hs); apply IH in Hs as (? & ? & ?); naive_solver ]|]).
       apply IH in Hs as (? & ? & ?); naive_solver. }
  destruct (String.eqb_spec mk "root") as [->|Hmk].
  - destruct re as [x|].
    + destruct (String.eqb_spec x id) as [->|]; simpl in Hs; [|done].
      apply IH in Hs as (? & ? & ?). naive_solver.
    + apply IH in Hs as (Hid & ? & _). specialize (Hid id eq_refl) as ->. naive_solver.
  - destruct (mk == "reply"); apply IH in Hs as (? & ? & ?); naive_solver.
Qed.

(** ** Properties *)

(** C33: reading an event gives a normal form: writing the event and reading
    the tags back at its kind returns the same event, for every NIP-34 kind,
    and validation gives the same verdict on the rewritten tags. *)
Theorem nip34_roundtrip `{UrlLib} `{HashOrder} kind tags e :
  Nip34Event_parse kind tags = Ok e →
  Nip34Event_kind e = kind ∧
  Nip34Event_parse kind (Nip34Event_to_tags e) = Ok e ∧
  parse_validated kind (Nip34Event_to_tags e) = parse_validated kind tags.
Proof.
  intros He. pose proof (parse_event_wf _ _ _ He) as [Hwf Hk].
  pose proof (event_read_back _ Hwf) as Hrb. rewrite Hk in Hrb.
  split_and!; [done..|]. unfold parse_validated. by rewrite He, Hrb.
Qed.

Definition sample_patch_tags : tag_list :=
  [["a"; "30617:" +:+ sample_pubkey +:+ ":repo"]; ["p"; sample_pubkey]; ["p"; sample_pubkey];
   ["t"; "root"]; ["unknown"; "x"]; ["commit"; sample_commit];
   ["committer"; "Ada"; "ada@example.com"; "+1700000000"; "-120"]].
Definition sample_patch : Nip34Event :=
  EPatch (mkPatch ("30617:" +:+ sample_pubkey +:+ ":repo") [] [sample_pubkey] None None true false
    (Some sample_commit) None None
    (Some (mkCommitterTag "Ada" "ada@example.com" 1700000000 (-120)))).

Lemma nip34_roundtrip_witness :
  let _ := sample_url_lib in let _ := sample_hash_order in
  Nip34Event_parse KIND_GIT_PATCH sample_patch_tags = Ok sample_patch ∧
  Nip34Event_parse KIND_GIT_PATCH (Nip34Event_to_tags sample_patch) = Ok sample_patch.
Proof.
  intros U O. split; [vm_compute; reflexivity|].
  apply (@nip34_roundtrip U O KIND_GIT_PATCH sample_patch_tags sample_patch).
  vm_compute. reflexivity.
Defined.



(** A status event has one root: reading succeeds only when some tag is
    marked [root], and then every tag marked [root] names the root event;
    a second, different root is an error. *)
Lemma status_single_root tags s :
  StatusEvent_from_tags tags = Ok s →
  (∃ t, t ∈ tags ∧ parse_e_tag t = Some (se_root_event s, Some "root")) ∧
  ∀ t id, t ∈ tags → parse_e_tag t = Some (id, Some "root") → id = se_root_event s.
Proof. intros (_ & ? & Hex)%status_loop_root. auto. Qed.

Lemma status_single_root_witness :
  StatusEvent_from_tags [["e"; "x"; ""; "root"]; ["e"; "x"; ""; "root"]] =
    Ok (mkStatusEvent "x" [] [] None [] [] None []) ∧
  (∀ t id, t ∈ [["e"; "x"; ""; "root"]; ["e"; "x"; ""; "root"]] →
   parse_e_tag t = Some (id, Some "root") → id = "x").
Proof.
  split; [vm_compute; reflexivity|].
  apply (status_single_root [["e"; "x"; ""; "root"]; ["e"; "x"; ""; "root"]]
    (mkStatusEvent "x" [] [] None [] [] None [])).
  vm_compute. reflexivity.
Defined.
