(* ===== verification/GitReceive.v ===== *)
(** * [GitReceive]: which pushes a repository state allows

    Models [crates/core/src/refs.rs], [git_refs.rs] and [git_receive.rs].  The
    text of a rejection abbreviates hashes with [&value[..7]], which panics
    inside a multi-byte character: a decision is [None] when it does. *)

From S2P Require Import Prelude RustStr CoreTypes Nip34Repo.

(** ** [refs.rs] *)

Definition NOSTR_REF_PREFIX : string := "refs/nostr/".
Definition NOSTR_EVENT_ID_LEN : nat := 64.

Definition parse_nostr_ref (name : string) : result CoreError string :=
  event_id ← ok_or (InvalidField "nostr_ref" name) (strip_prefix NOSTR_REF_PREFIX name);
  if negb (bool_decide (String.length event_id = NOSTR_EVENT_ID_LEN))
     || negb (all_hexdigit event_id)
  then Err (InvalidField "nostr_ref" name)
  else Ok event_id.

Definition is_nostr_ref_name (name : string) : bool := is_ok (parse_nostr_ref name).

(** ** [git_refs.rs] *)

Definition HEADS_PREFIX : string := "refs/heads/".
Definition TAGS_PREFIX : string := "refs/tags/".
Definition PR_PREFIX : string := "refs/heads/pr/".
Definition HEAD_REF : string := "HEAD".

Inductive StateRefMatch :=
| Match
| Missing
| Mismatch (expected : string)
| Unsupported.

Definition is_branch_ref (name : string) : bool := starts_with HEADS_PREFIX name.
Definition is_tag_ref (name : string) : bool := starts_with TAGS_PREFIX name.
Definition is_pr_branch_ref (name : string) : bool := starts_with PR_PREFIX name.
Definition is_head_ref (name : string) : bool := name == HEAD_REF.

Definition resolve_ref_value (value : string) (state : gmap string string) : option string :=
  match strip_prefix "ref: " value with
  | Some target => state !! target
  | None => Some value
  end.

Definition match_state_ref (ref_name new_rev : string) (state : RepoState) : StateRefMatch :=
  if negb (is_branch_ref ref_name) && negb (is_tag_ref ref_name) && negb (is_head_ref ref_name)
  then Unsupported
  else
    match st_state state !! ref_name with
    | None => Missing
    | Some expected =>
        match resolve_ref_value expected (st_state state) with
        | Some value => if value == new_rev then Match else Mismatch value
        | None => Missing
        end
    end.

(** ** [git_receive.rs] *)

Record RefUpdate := mkRefUpdate { ru_old_rev : string; ru_new_rev : string; ru_ref_name : string }.

Inductive UpdateDecision :=
| Accept
| Reject (reason : string).

Definition short_hash (value : string) : option string :=
  slice_to (Nat.min (String.length value) 7) value.

Section Receive.
Context `{HashOrder}.

Definition evaluate_ref_update (update : RefUpdate) (state : option RepoState)
    : option UpdateDecision :=
  let ref_name := ru_ref_name update in
  if starts_with "refs/nostr/" ref_name then
    Some (if is_nostr_ref_name ref_name then Accept
          else Reject "refs/nostr/<event-id> must use a valid event id")
  else
    match state with
    | None => Some (Reject "state event not available; cannot validate non-nostr refs")
    | Some state =>
        match RepoState_validate state with
        | Err err => Some (Reject ("invalid repo state: " +:+ CoreError_display err))
        | Ok _ =>
            if is_pr_branch_ref ref_name then
              Some (Reject "refs/heads/pr/* must be pushed via nostr")
            else
              match match_state_ref ref_name (ru_new_rev update) state with
              | Match => Some Accept
              | Missing => Some (Reject (ref_name +:+ " not found in nostr state event"))
              | Mismatch expected =>
                  new ← short_hash (ru_new_rev update);
                  expected ← short_hash expected;
                  Some (Reject ("cannot push " +:+ ref_name +:+ " to " +:+ new
                    +:+ " as nostr state event is at " +:+ expected))
              | Unsupported => Some (Reject ("unsupported ref " +:+ ref_name))
              end
        end
    end.

Fixpoint evaluate_each (updates : list RefUpdate) (state : option RepoState)
    : option UpdateDecision :=
  match updates with
  | [] => Some Accept
  | update :: updates =>
      decision ← evaluate_ref_update update state;
      match decision with
      | Reject reason => Some (Reject reason)
      | Accept => evaluate_each updates state
      end
  end.

Definition evaluate_updates (updates : list RefUpdate) (state : option RepoState)
    : option UpdateDecision :=
  match state with
  | Some s =>
      match RepoState_validate s with
      | Err err => Some (Reject ("invalid repo state: " +:+ CoreError_display err))
      | Ok _ => evaluate_each updates state
      end
  | None => evaluate_each updates None
  end.
End Receive.

(** ** The policy a push must meet *)

(** A reference under [refs/nostr/] names an event. *)
Definition names_event (ref_name : string) : Prop :=
  ∃ id, ref_name = NOSTR_REF_PREFIX +:+ id ∧ is_hex64 id = true.

(** The commit a state gives to a reference, through one symbolic step. *)
Definition state_commit (s : RepoState) (ref_name : string) : option string :=
  value ← st_state s !! ref_name; resolve_ref_value value (st_state s).

Definition allowed `{HashOrder} (u : RefUpdate) (state : option RepoState) : Prop :=
  names_event (ru_ref_name u) ∨
  ∃ s, state = Some s ∧ RepoState_validate s = Ok tt ∧
    (is_branch_ref (ru_ref_name u) = true ∨ is_tag_ref (ru_ref_name u) = true ∨
     ru_ref_name u = "HEAD") ∧
    is_pr_branch_ref (ru_ref_name u) = false ∧
    state_commit s (ru_ref_name u) = Some (ru_new_rev u).

(** ** Lemmas *)

Lemma parse_nostr_ref_Ok name id :
  parse_nostr_ref name = Ok id ↔ name = NOSTR_REF_PREFIX +:+ id ∧ is_hex64 id = true.
Proof.
  unfold parse_nostr_ref, is_hex64. rewrite bind_Ok. setoid_rewrite ok_or_Ok.
  setoid_rewrite strip_prefix_Some. split.
  - intros (x & -> & Hx). destruct (_ || _) eqn:E in Hx; [done|]. injection Hx as ->.
    reflect_bools. split; [done|]. rewrite bool_decide_eq_true_2; [done|]. done.
  - intros (-> & [Hl%bool_decide_eq_true_1 Hh]%andb_true_iff). exists id. split; [done|].
    rewrite Hh, bool_decide_eq_true_2; done.
Qed.

Lemma is_nostr_ref_name_spec name : is_nostr_ref_name name = true ↔ names_event name.
Proof.
  unfold is_nostr_ref_name, names_event. setoid_rewrite <-parse_nostr_ref_Ok.
  destruct (parse_nostr_ref name); naive_solver.
Qed.

Lemma match_state_ref_Match r new s :
  match_state_ref r new s = Match ↔
  (is_branch_ref r = true ∨ is_tag_ref r = true ∨ r = "HEAD") ∧ state_commit s r = Some new.
Proof.
  unfold match_state_ref, state_commit, is_head_ref, HEAD_REF.
  rewrite <-(String.eqb_eq r "HEAD").
  destruct (is_branch_ref r), (is_tag_ref r), (r == "HEAD"); simpl; try naive_solver;
    (destruct (st_state s !! r) as [v|]; simpl; [|naive_solver];
     destruct (resolve_ref_value v _) as [w|]; [|naive_solver];
     destruct (String.eqb_spec w new) as [->|Hne];
     [split; auto|split; [done|intros [_ [= ->]]; done]]).
Qed.

(** References of different kinds have different prefixes. *)
Lemma nostr_ref_disjoint r :
  starts_with "refs/nostr/" r = true →
  is_branch_ref r = false ∧ is_tag_ref r = false ∧ r ≠ "HEAD".
Proof. intros [x ->]%starts_with_true. by vm_compute. Qed.

Lemma evaluate_ref_update_Accept `{HashOrder} u st :
  evaluate_ref_update u st = Some Accept ↔ allowed u st.
Proof.
  unfold evaluate_ref_update, allowed. rewrite <-is_nostr_ref_name_spec.
  destruct (starts_with "refs/nostr/" (ru_ref_name u)) eqn:Hn.
  { apply nostr_ref_disjoint in Hn as (Hb & Ht & Hh).
    destruct (is_nostr_ref_name _); [split; auto|].
    split; [done|]. intros [?|(s & _ & _ & [?|[?|?]] & _)]; congruence. }
  assert (is_nostr_ref_name (ru_ref_name u) = false) as ->.
  { apply not_true_iff_false. rewrite is_nostr_ref_name_spec. intros (id & Hr & _).
    apply not_true_iff_false in Hn. apply Hn, starts_with_true. by exists id. }
  destruct st as [s|]; [|naive_solver].
  destruct (RepoState_validate s) as [[]|] eqn:Hv.
  2: { split; [done|]. intros [?|(s' & [= <-] & ? & _)]; congruence. }
  destruct (is_pr_branch_ref _) eqn:Hpr.
  { split; [done|]. by intros [?|(s' & _ & _ & _ & ? & _)]. }
  destruct (match_state_ref _ _ s) eqn:Hm.
  1: { apply match_state_ref_Match in Hm as [Hk Hc]. split; [intros _; right; by exists s|done]. }
  all: split; [intros Hx | intros [?|(s' & [= <-] & _ & Hk & _ & Hc)];
    [done | by rewrite (proj2 (match_state_ref_Match _ _ _) (conj Hk Hc)) in Hm]].
  - done.
  - by destruct (short_hash (ru_new_rev u)), (short_hash expected).
  - done.
Qed.

Lemma evaluate_each_spec `{HashOrder} us st d :
  evaluate_each us st = Some d ↔
  match d with
  | Accept => Forall (λ u, allowed u st) us
  | Reject _ =>
      ∃ us1 u us2, us = us1 ++ u :: us2 ∧ Forall (λ u, allowed u st) us1 ∧
        evaluate_ref_update u st = Some d
  end.
Proof.
  induction us as [|u us IH]; cbn [evaluate_each].
  { destruct d as [|r]; split; try done. by intros ([|??] & ? & ? & ? & _). }
  destruct (evaluate_ref_update u st) as [[|r]|] eqn:Hu; simpl.
  - pose proof (proj1 (evaluate_ref_update_Accept _ _) Hu) as Ha. rewrite IH.
    destruct d as [|r].
    + rewrite Forall_cons. naive_solver.
    + split.
      * intros (us1 & v & us2 & -> & ? & ?). exists (u :: us1), v, us2. auto.
      * intros ([|w us1] & v & us2 & [= -> ->] & Hf & Hv); [congruence|].
        apply Forall_cons in Hf as [_ ?]. by exists us1, v, us2.
  - destruct d as [|r'].
    + rewrite Forall_cons. split; [done|]. intros [Ha _].
      apply evaluate_ref_update_Accept in Ha. congruence.
    + split; [intros [= ->]; by exists [], u, us|].
      intros ([|w us1] & v & us2 & [= -> ->] & Hf & Hv); [congruence|].
      apply Forall_cons in Hf as [Ha _]. apply evaluate_ref_update_Accept in Ha. congruence.
  - split; [done|]. destruct d as [|r'].
    + rewrite Forall_cons. intros [Ha _]. apply evaluate_ref_update_Accept in Ha. congruence.
    + intros ([|w us1] & v & us2 & [= -> ->] & Hf & Hv); [congruence|].
      apply Forall_cons in Hf as [Ha _]. apply evaluate_ref_update_Accept in Ha. congruence.
Qed.

(** An ASCII string can be cut anywhere. *)
Definition is_ascii_str : string → bool := str_all (λ a, Ascii.nat_of_ascii a <? 128).

Lemma slice_to_ascii s : ∀ n, is_ascii_str s = true → n ≤ String.length s → is_Some (slice_to n s).
Proof.
  induction s as [|b s IH]; intros [|n] Hs Hn; simpl in *; try done; try lia.
  - apply andb_true_iff in Hs as [Hb%Nat.ltb_lt _]. unfold is_continuation.
    assert ((128 <=? Ascii.nat_of_ascii b) = false) as -> by (by apply Nat.leb_gt). done.
  - apply andb_true_iff in Hs as [_ Hs]. destruct (IH n Hs) as [r Hr]; [lia|]. rewrite Hr. by eexists.
Qed.

Lemma short_hash_ascii v : is_ascii_str v = true → is_Some (short_hash v).
Proof. intros. apply slice_to_ascii; [done|lia]. Qed.

Lemma str_all_impl f g s : (∀ a, f a = true → g a = true) → str_all f s = true → str_all g s = true.
Proof. intros Hfg. induction s as [|a s IH]; simpl; [done|]. rewrite !andb_true_iff. naive_solver. Qed.

Lemma hex_is_ascii v : all_hexdigit v = true → is_ascii_str v = true.
Proof.
  apply str_all_impl. intros a. unfold is_ascii_hexdigit, in_span.
  rewrite !orb_true_iff, !andb_true_iff, !Nat.leb_le, Nat.ltb_lt. lia.
Qed.

(** The values a validated state holds can all be abbreviated. *)
Lemma short_hash_state_value v : is_state_value v = true → is_Some (short_hash v).
Proof.
  unfold is_state_value. intros [Hh|Hr]%orb_true_iff.
  - apply short_hash_ascii, hex_is_ascii. by apply andb_true_iff in Hh as [_ ?].
  - apply starts_with_true in Hr as [r ->]. unfold short_hash.
    rewrite str_length_app. cbn [String.length Nat.add Nat.min].
    change ("ref: refs/" +:+ r) with ("ref: re" +:+ ("fs/" +:+ r)).
    rewrite (slice_to_app "ref: re") by done. by eexists.
Qed.

Lemma state_commit_value `{HashOrder} s r c :
  RepoState_validate s = Ok tt → state_commit s r = Some c → is_state_value c = true.
Proof.
  intros (_ & Hwf & _)%RepoState_validate_Ok (v & Hv & Hc)%bind_Some.
  unfold resolve_ref_value in Hc. destruct (strip_prefix "ref: " v) as [target|].
  - by apply Hwf in Hc as [_ ?].
  - injection Hc as <-. by apply Hwf in Hv as [_ ?].
Qed.

Lemma match_state_ref_Mismatch r new s e :
  match_state_ref r new s = Mismatch e → state_commit s r = Some e.
Proof.
  unfold match_state_ref, state_commit. intros Hm. split_in Hm.
  destruct (st_state s !! r) as [v|]; [|done]. simpl.
  destruct (resolve_ref_value v _); [|done]. by destruct (_ == new); simplify_eq.
Qed.

(** The updates one after the other: all are allowed, or the first that is not decides. *)
Lemma evaluate_each_first `{HashOrder} us st d :
  evaluate_each us st = Some d ↔
  match d with
  | Accept => Forall (λ u, allowed u st) us
  | Reject _ =>
      ∃ us1 u us2, us = us1 ++ u :: us2 ∧ Forall (λ u, allowed u st) us1 ∧
        ¬ allowed u st ∧ evaluate_ref_update u st = Some d
  end.
Proof.
  rewrite evaluate_each_spec. destruct d as [|r]; [done|].
  setoid_rewrite <-evaluate_ref_update_Accept. split.
  - intros (us1 & u & us2 & -> & Hf & Hu). exists us1, u, us2. split_and!; try done. congruence.
  - intros (us1 & u & us2 & -> & Hf & _ & Hu). by exists us1, u, us2.
Qed.

(** ** Properties *)

(** C16: [evaluate_updates] accepts a push exactly when the state, if there is
    one, is valid and every updated reference is allowed: it names an event
    under [refs/nostr/], or it is a branch, tag or HEAD outside
    [refs/heads/pr/] whose new commit is the one the state gives it.  It
    rejects a push exactly when the state is invalid, which is then the reason
    whatever the updates are, or when it is valid and some update is not
    allowed: the reason is that of the first such update. *)
Theorem evaluate_updates_spec `{HashOrder} us st d :
  evaluate_updates us st = Some d ↔
  match d with
  | Accept =>
      (∀ s, st = Some s → RepoState_validate s = Ok tt) ∧ Forall (λ u, allowed u st) us
  | Reject reason =>
      (∃ s err, st = Some s ∧ RepoState_validate s = Err err ∧
         reason = "invalid repo state: " +:+ CoreError_display err) ∨
      (∀ s, st = Some s → RepoState_validate s = Ok tt) ∧
      ∃ us1 u us2, us = us1 ++ u :: us2 ∧ Forall (λ u, allowed u st) us1 ∧
        ¬ allowed u st ∧ evaluate_ref_update u st = Some d
  end.
Proof.
  unfold evaluate_updates. destruct st as [s|]; [destruct (RepoState_validate s) as [[]|err] eqn:Es|].
  - rewrite evaluate_each_first. destruct d as [|reason]; split.
    + intros Hu. split; [by intros ? [= <-]|done].
    + by intros [_ Hu].
    + intros Hu. right. split; [by intros ? [= <-]|done].
    + intros [(s' & err & [= <-] & Hv & _)|[_ Hu]]; [congruence|done].
  - destruct d as [|reason]; split; [done| | |].
    + intros [Hv _]. specialize (Hv s eq_refl). congruence.
    + intros [= <-]. left. eauto.
    + intros [(s' & err' & [= <-] & Hv & ->)|[Hv _]]; [congruence|]. specialize (Hv s eq_refl). congruence.
  - rewrite evaluate_each_first. destruct d as [|reason]; split; [done|by intros [_ Hu]| |].
    + intros Hu. right. done.
    + by intros [(s' & err & ? & _)|[_ Hu]].
Qed.

Definition sample_push : list RefUpdate :=
  [mkRefUpdate "" sample_commit "refs/heads/main"; mkRefUpdate "" "x" ("refs/nostr/" +:+ "abc")].

Lemma evaluate_updates_spec_witness :
  let _ := sample_hash_order in
  (∃ s err, Some sample_state = Some s ∧ RepoState_validate s = Err err ∧
     "refs/nostr/<event-id> must use a valid event id" =
       "invalid repo state: " +:+ CoreError_display err) ∨
  (∀ s, Some sample_state = Some s → RepoState_validate s = Ok tt) ∧
  ∃ us1 u us2, sample_push = us1 ++ u :: us2 ∧
    Forall (λ u, allowed u (Some sample_state)) us1 ∧ ¬ allowed u (Some sample_state) ∧
    evaluate_ref_update u (Some sample_state)
      = Some (Reject "refs/nostr/<event-id> must use a valid event id").
Proof.
  intros O. apply (@evaluate_updates_spec O sample_push (Some sample_state)
    (Reject "refs/nostr/<event-id> must use a valid event id")).
  vm_compute. reflexivity.
Defined.

(** No push to a pull-request branch is accepted, whatever the state
    says: those branches move only through Nostr events. *)
Lemma pr_branch_never_pushed `{HashOrder} us st u :
  u ∈ us → is_pr_branch_ref (ru_ref_name u) = true → evaluate_updates us st ≠ Some Accept.
Proof.
  intros Hin Hpr Hacc.
  assert (allowed u st) as [(id & Hr & _)|(s & _ & _ & _ & Hno & _)]; [|..|congruence].
  - unfold evaluate_updates in Hacc.
    assert (evaluate_each us st = Some Accept) as He.
    { destruct st as [s|]; [|done]. by destruct (RepoState_validate s). }
    apply evaluate_each_spec in He. rewrite Forall_forall in He. by apply He.
  - rewrite Hr in Hpr. by vm_compute in Hpr.
Qed.

Lemma pr_branch_never_pushed_witness :
  let _ := sample_hash_order in
  evaluate_updates [mkRefUpdate "" sample_commit "refs/heads/pr/1"] (Some sample_state)
    ≠ Some Accept.
Proof.
  intros O. apply (@pr_branch_never_pushed O _ _ (mkRefUpdate "" sample_commit "refs/heads/pr/1"));
    [apply list_elem_of_here|vm_compute; reflexivity].
Defined.

(** Evaluating a push whose new revisions are ASCII never panics: the
    only slices are of the pushed revision and of a value of a validated state,
    and both are cut on a character boundary. *)
Lemma evaluate_updates_no_panic `{HashOrder} us st :
  Forall (λ u, is_ascii_str (ru_new_rev u) = true) us → is_Some (evaluate_updates us st).
Proof.
  intros Hus.
  assert (∀ u, is_ascii_str (ru_new_rev u) = true → is_Some (evaluate_ref_update u st)) as Hone.
  { intros u [new Hnew]%short_hash_ascii. unfold evaluate_ref_update.
    destruct (starts_with _ _); [by eexists|]. destruct st as [s|]; [|by eexists].
    destruct (RepoState_validate s) as [[]|] eqn:Hv; [|by eexists].
    destruct (is_pr_branch_ref _); [by eexists|].
    destruct (match_state_ref _ _ s) eqn:Hm; try by eexists.
    apply match_state_ref_Mismatch in Hm. eapply state_commit_value in Hm; [|done].
    apply short_hash_state_value in Hm as [e He]. rewrite Hnew, He. by eexists. }
  assert (is_Some (evaluate_each us st)) as Heach.
  { induction Hus as [|u us Hu _ IH]; cbn [evaluate_each]; [by eexists|].
    destruct (Hone u Hu) as [[|r] ->]; [done|by eexists]. }
  unfold evaluate_updates. destruct st as [s|]; [|done].
  destruct (RepoState_validate s); [done|by eexists].
Qed.

Lemma evaluate_updates_no_panic_witness :
  let _ := sample_hash_order in is_Some (evaluate_updates sample_push (Some sample_state)).
Proof.
  intros O. apply (@evaluate_updates_no_panic O).
  repeat (constructor; [vm_compute; reflexivity|]). constructor.
Defined.
