(* ===== verification/RepoEvents.v ===== *)
(** * [RepoEvents]: maintainers, latest state and clone URLs from events

    Models [crates/core/src/repo_events.rs].  The recursion of
    [collect_maintainers_inner] over the maintainer graph takes fuel, [None]
    when it runs out; one more than the number of events is always enough
    ([collect_total]). *)

From S2P Require Import Prelude RustStr CoreTypes Nip34Repo.

Record CoreNostrEvent := mkCoreNostrEvent {
  ce_kind : Z;
  ce_pubkey : string;
  ce_created_at : Z;
  ce_tags : tag_list
}.

Definition find_repo_announcement (events : list CoreNostrEvent) (pubkey identifier : string)
    : option RepoAnnouncement :=
  find_map (λ event,
    if negb (bool_decide (ce_kind event = KIND_GIT_REPO_ANNOUNCEMENT))
       || negb (ce_pubkey event == pubkey) then None
    else
      announcement ← ok (RepoAnnouncement_from_tags (ce_tags event));
      if an_identifier announcement == identifier then Some announcement else None) events.

(** [for m in ms { body(m) }], each call extending the set. *)
Fixpoint collect_each (body : string → gset string → option (gset string))
    (ms : list string) (checked : gset string) : option (gset string) :=
  match ms with
  | [] => Some checked
  | m :: ms => checked ← body m checked; collect_each body ms checked
  end.

Fixpoint collect_maintainers_inner (fuel : nat) (events : list CoreNostrEvent)
    (identifier pubkey : string) (checked : gset string) : option (gset string) :=
  match fuel with
  | 0 => None
  | S fuel =>
      if bool_decide (pubkey ∈ checked) then Some checked
      else
        match find_repo_announcement events pubkey identifier with
        | None => Some checked
        | Some announcement =>
            collect_each
              (collect_maintainers_inner fuel events (an_identifier announcement))
              (an_maintainers announcement) ({[ pubkey ]} ∪ checked)
        end
  end.

Definition collect_maintainers_with (fuel : nat) (events : list CoreNostrEvent)
    (pubkey identifier : string) : option (list string) :=
  (λ checked : gset string, merge_sort String.le (elements checked))
    <$> collect_maintainers_inner fuel events identifier pubkey ∅.

Definition collect_maintainers (events : list CoreNostrEvent) (pubkey identifier : string)
    : option (list string) :=
  collect_maintainers_with (S (length events)) events pubkey identifier.

(** [Iterator::max_by_key]: the last of the greatest elements. *)
Definition max_by_key {A} (key : A → Z) (l : list A) : option A :=
  foldl (λ best x,
    match best with
    | None => Some x
    | Some b => if bool_decide (key b ≤ key x)%Z then Some x else Some b
    end) None l.

Definition is_maintainer_state (maintainers : list string) (event : CoreNostrEvent) : bool :=
  bool_decide (ce_kind event = KIND_GIT_REPO_STATE) && bool_decide (ce_pubkey event ∈ maintainers).

Definition latest_state_from_maintainers (events : list CoreNostrEvent)
    (maintainers : list string) : option RepoState :=
  match maintainers with
  | [] => None
  | _ =>
      latest ← max_by_key ce_created_at
        (List.filter (is_maintainer_state maintainers) events);
      ok (RepoState_from_tags (ce_tags latest))
  end.

Definition clone_step (clones : list string) (clone : string) : list string :=
  let trimmed := trim_end_matches "/" clone in
  if is_empty trimmed then clones
  else if existsb (λ existing, existing == trimmed) clones then clones
  else clones ++ [trimmed].

Definition clone_event_step (maintainers : list string) (identifier : string)
    (clones : list string) (event : CoreNostrEvent) : list string :=
  if negb (bool_decide (ce_kind event = KIND_GIT_REPO_ANNOUNCEMENT)) then clones
  else if negb (bool_decide (ce_pubkey event ∈ maintainers)) then clones
  else
    match RepoAnnouncement_from_tags (ce_tags event) with
    | Err _ => clones
    | Ok announcement =>
        if negb (an_identifier announcement == identifier) then clones
        else foldl clone_step clones (an_clone announcement)
    end.

Definition collect_clone_urls (events : list CoreNostrEvent) (maintainers : list string)
    (identifier : string) : list string :=
  match maintainers with
  | [] => []
  | _ => foldl (clone_event_step maintainers identifier) [] events
  end.

(** ** Specification: the maintainer graph

    An edge leads from a key with an announcement of the repository to each
    maintainer it lists that has an announcement of its own. *)

Section Graph.
Context (events : list CoreNostrEvent) (identifier : string).

Definition announced (p : string) : Prop :=
  is_Some (find_repo_announcement events p identifier).

Definition edge (p q : string) : Prop :=
  ∃ a, find_repo_announcement events p identifier = Some a ∧ q ∈ an_maintainers a ∧ announced q.

Definition maintains (root p : string) : Prop := announced root ∧ rtc edge root p.

(** ** Lemmas *)

Lemma find_repo_announcement_Some p a :
  find_repo_announcement events p identifier = Some a →
  an_identifier a = identifier ∧ ∃ e, e ∈ events ∧ ce_pubkey e = p ∧
    ce_kind e = KIND_GIT_REPO_ANNOUNCEMENT ∧ RepoAnnouncement_from_tags (ce_tags e) = Ok a.
Proof.
  unfold find_repo_announcement. intros (l1 & e & l2 & -> & _ & He)%find_map_Some.
  split_in He. reflect_bools. apply bind_Some in He as (b & Hb%ok_Some & He).
  destruct (String.eqb_spec (an_identifier b) identifier); [|done]. injection He as ->.
  split; [done|]. exists e. split; [set_solver|]. by split_and!; [apply String.eqb_eq|..].
Qed.

(** What one call adds: only keys reachable from [p], [p] itself when it has an
    announcement, and with a new key all its successors. *)
Definition explores (ps : list string) (checked checked' : gset string) : Prop :=
  checked ⊆ checked' ∧
  (∀ x, x ∈ checked' → x ∈ checked ∨ ∃ p, p ∈ ps ∧ announced p ∧ rtc edge p x) ∧
  (∀ p, p ∈ ps → announced p → p ∈ checked') ∧
  (∀ x y, x ∈ checked' → x ∉ checked → edge x y → y ∈ checked').

Lemma explores_cons p ps c1 c2 c3 :
  explores [p] c1 c2 → explores ps c2 c3 → explores (p :: ps) c1 c3.
Proof.
  intros (Hs1 & Hr1 & Hp1 & Hc1) (Hs2 & Hr2 & Hp2 & Hc2). split_and!.
  - by etrans.
  - intros x [Hx|Hx]%Hr2; [|set_solver]. apply Hr1 in Hx. set_solver.
  - set_solver.
  - intros x y Hx Hn He. destruct (decide (x ∈ c2)); [|by eapply Hc2].
    apply Hs2. by eapply Hc1.
Qed.

Lemma collect_each_explores body ms : ∀ c c',
  (∀ m c c', body m c = Some c' → explores [m] c c') →
  collect_each body ms c = Some c' → explores ms c c'.
Proof.
  induction ms as [|m ms IH]; intros c c' Hbody; simpl.
  - intros [= <-]. split_and!; set_solver.
  - intros (c2 & Hm & Hms)%bind_Some. eapply explores_cons; eauto.
Qed.

Lemma inner_explores fuel : ∀ p c c',
  collect_maintainers_inner fuel events identifier p c = Some c' → explores [p] c c'.
Proof.
  induction fuel as [|fuel IH]; intros p c c'; simpl; [done|].
  case_bool_decide as Hp.
  { intros [= <-]. split_and!; set_solver. }
  destruct (find_repo_announcement events p identifier) as [a|] eqn:Ha.
  2:{ intros [= <-]. split_and!; try set_solver. intros q ->%list_elem_of_singleton [b Hb].
      congruence. }
  pose proof (find_repo_announcement_Some _ _ Ha) as [-> _].
  intros (Hs & Hr & Hm & Hc)%collect_each_explores; [|intros; by apply IH].
  assert (announced p) as Hann by by exists a.
  split_and!.
  - set_solver.
  - intros x [[->%elem_of_singleton|]%elem_of_union|(q & Hq & Haq & Hqx)]%Hr; [|by left|];
      right; exists p; (split; [set_solver|]); (split; [done|]); [done|].
    eapply rtc_l; [|done]. by exists a.
  - set_solver.
  - intros x y Hx Hn Hxy. destruct (decide (x = p)) as [->|]; [|eapply Hc; set_solver].
    destruct Hxy as (b & Hb & Hy & Hay). simplify_eq. by apply Hm.
Qed.

(** ** Termination *)

Definition authors : gset string := list_to_set (ce_pubkey <$> events).

Lemma announced_author p : announced p → p ∈ authors.
Proof.
  intros [a (_ & e & He & <- & _)%find_repo_announcement_Some].
  unfold authors. apply elem_of_list_to_set, list_elem_of_fmap. by exists e.
Qed.

Lemma collect_each_total body ms (P : gset string → Prop) :
  (∀ m c, P c → ∃ c', body m c = Some c' ∧ c ⊆ c') →
  (∀ c c', P c → c ⊆ c' → P c') →
  ∀ c, P c → ∃ c', collect_each body ms c = Some c' ∧ c ⊆ c'.
Proof.
  intros Hbody Hmono. induction ms as [|m ms IH]; intros c Hc; simpl; [by exists c|].
  destruct (Hbody m c Hc) as (c2 & Hm & Hs2). rewrite Hm. simpl.
  destruct (IH c2) as (c3 & ? & ?); [by eapply Hmono|]. exists c3. split; [done|]. by etrans.
Qed.

Lemma inner_total fuel : ∀ p c,
  size (authors ∖ c) < fuel →
  ∃ c', collect_maintainers_inner fuel events identifier p c = Some c' ∧ c ⊆ c'.
Proof.
  induction fuel as [|fuel IH]; intros p c Hf; [lia|]. simpl.
  case_bool_decide as Hp; [by exists c|].
  destruct (find_repo_announcement events p identifier) as [a|] eqn:Ha; [|by exists c].
  pose proof (find_repo_announcement_Some _ _ Ha) as [Hid _]. rewrite Hid.
  destruct (collect_each_total (collect_maintainers_inner fuel events identifier)
    (an_maintainers a) (λ c, size (authors ∖ c) < fuel)) with (c := {[p]} ∪ c) as (c' & ? & ?).
  - intros m d Hd. by apply IH.
  - intros d d' Hd Hs. eapply Nat.le_lt_trans; [|exact Hd]. apply subseteq_size. set_solver.
  - assert (p ∈ authors) as Hin by (apply announced_author; by exists a).
    assert (size (authors ∖ ({[p]} ∪ c)) < size (authors ∖ c)); [|lia].
    apply subset_size. set_solver.
  - exists c'. split; [done|]. set_solver.
Qed.

Lemma size_authors : size authors ≤ length events.
Proof.
  unfold authors. rewrite <-(length_fmap ce_pubkey events).
  generalize (ce_pubkey <$> events). intros l. induction l as [|x l IH]; simpl.
  { by apply Nat.le_0_r. }
  assert (size ({[x]} ∪ (list_to_set l : gset string)) ≤ 1 + size (list_to_set l : gset string)); [|lia].
  rewrite size_union_alt, size_singleton.
  assert (size ((list_to_set l : gset string) ∖ {[x]}) ≤ size (list_to_set l : gset string)); [|lia].
  apply subseteq_size. set_solver.
Qed.

(** The fuel of [collect_maintainers] suffices. *)
Lemma collect_total p :
  ∃ c, collect_maintainers_inner (S (length events)) events identifier p ∅ = Some c ∧
    ∀ x, x ∈ c ↔ maintains p x.
Proof.
  destruct (inner_total (S (length events)) p ∅) as (c & Hc & _).
  { pose proof size_authors. pose proof (subseteq_size (authors ∖ ∅) authors). set_solver by lia. }
  exists c. split; [done|]. apply inner_explores in Hc as (_ & Hr & Hp & Hcl).
  intros x. split.
  - intros [Hx|(q & ->%list_elem_of_singleton & ? & ?)]%Hr; [set_solver|by split].
  - intros [Hann Hrtc]. assert (p ∈ c) as Hin by set_solver.
    clear Hann Hp Hr. induction Hrtc as [|x y z Hxy _ IH]; [done|].
    apply IH. apply (Hcl x); set_solver.
Qed.
End Graph.

(** [max_by_key] picks the last of the greatest. *)
Lemma max_by_key_snoc {A} (key : A → Z) l x :
  max_by_key key (l ++ [x]) =
  match max_by_key key l with
  | None => Some x
  | Some b => if bool_decide (key b ≤ key x)%Z then Some x else Some b
  end.
Proof. unfold max_by_key. by rewrite foldl_app. Qed.

Lemma max_by_key_spec {A} (key : A → Z) l x :
  max_by_key key l = Some x ↔
  ∃ l1 l2, l = l1 ++ x :: l2 ∧ Forall (λ y, key y ≤ key x)%Z l1 ∧ Forall (λ y, key y < key x)%Z l2.
Proof.
  revert x. induction l as [|y l IH] using rev_ind; intros x.
  { split; [done|]. by intros ([|??] & ? & ? & _). }
  rewrite max_by_key_snoc. split.
  - destruct (max_by_key key l) as [b|] eqn:E.
    + destruct (proj1 (IH b) eq_refl) as (l1 & l2 & -> & H1 & H2). case_bool_decide as Hb.
      * intros [= <-]. exists (l1 ++ b :: l2), []. split; [done|]. split; [|done].
        apply Forall_app. split; [|constructor; [done|]];
          (eapply Forall_impl; [done|]; intros ?; simpl; lia).
      * intros [= <-]. exists l1, (l2 ++ [y]). rewrite <-app_assoc. split; [done|].
        split; [done|]. apply Forall_app. split; [done|]. apply Forall_singleton. lia.
    + intros [= <-]. exists [], []. destruct l as [|z l]; [done|]. exfalso.
      destruct l as [|w l _] using rev_ind; [done|].
      rewrite app_comm_cons, max_by_key_snoc in E. by repeat case_match.
  - intros (l1 & l2 & Heq & H1 & H2). destruct l2 as [|z l2 _] using rev_ind.
    + apply app_inj_2 in Heq as [-> [= ->]]; [|done].
      destruct (max_by_key key l1) as [b|] eqn:E; [|done].
      destruct (proj1 (IH b) eq_refl) as (k1 & k2 & -> & _). rewrite bool_decide_eq_true_2; [done|].
      rewrite Forall_app, Forall_cons in H1. tauto.
    + rewrite app_comm_cons, app_assoc in Heq. apply app_inj_2 in Heq as [-> [= ->]]; [|done].
      rewrite Forall_app, Forall_singleton in H2. destruct H2 as [H2 Hz].
      assert (max_by_key key (l1 ++ x :: l2) = Some x) as ->.
      { apply IH. by exists l1, l2. }
      rewrite bool_decide_eq_false_2; [done|lia].
Qed.

Lemma filter_split {A} (f : A → bool) l k1 x k2 :
  List.filter f l = k1 ++ x :: k2 →
  ∃ l1 l2, l = l1 ++ x :: l2 ∧ List.filter f l1 = k1 ∧ List.filter f l2 = k2 ∧ f x = true.
Proof.
  revert k1. induction l as [|y l IH]; intros k1; simpl; [by destruct k1|].
  destruct (f y) eqn:Hy.
  - destruct k1 as [|z k1]; intros [= -> Hl].
    + by exists [], l.
    + apply IH in Hl as (l1 & l2 & -> & <- & <- & ?). exists (z :: l1), l2. simpl. by rewrite Hy.
  - intros Hl. apply IH in Hl as (l1 & l2 & -> & <- & <- & ?). exists (y :: l1), l2. simpl.
    by rewrite Hy.
Qed.

Lemma Forall_filter {A} (f : A → bool) (P : A → Prop) l :
  Forall P (List.filter f l) ↔ ∀ x, x ∈ l → f x = true → P x.
Proof.
  induction l as [|y l IH]; simpl.
  { split; [|done]. intros _ x ?%not_elem_of_nil. done. }
  setoid_rewrite elem_of_cons. destruct (f y) eqn:Hy; rewrite ?Forall_cons, IH.
  - split; [intros [? ?] x [->|?] ?; auto|auto].
  - split; [|auto]. intros ? x [->|?] ?; [congruence|auto].
Qed.

Lemma elem_of_clone_fold cs : ∀ clones x,
  x ∈ foldl clone_step clones cs ↔
  x ∈ clones ∨ ∃ c, c ∈ cs ∧ x = trim_end_matches "/" c ∧ x ≠ "".
Proof.
  induction cs as [|c cs IH]; intros clones x; simpl; [set_solver|]. rewrite IH.
  setoid_rewrite elem_of_cons. unfold clone_step, is_empty.
  case_bool_decide as He; [naive_solver|].
  destruct (existsb _ clones) eqn:Hx; [|set_solver].
  apply existsb_true in Hx as (y & Hy & ->%String.eqb_eq). naive_solver.
Qed.

Lemma NoDup_clone_fold cs : ∀ clones, NoDup clones → NoDup (foldl clone_step clones cs).
Proof.
  induction cs as [|c cs IH]; intros clones Hn; simpl; [done|]. apply IH. unfold clone_step.
  destruct (is_empty _); [done|]. destruct (existsb _ clones) eqn:Hx; [done|].
  apply NoDup_app. split; [done|]. split; [|apply NoDup_singleton].
  intros y Hy ->%list_elem_of_singleton. apply (proj1 (existsb_false _ _) Hx) in Hy.
  by rewrite String.eqb_refl in Hy.
Qed.

(** The announcements whose clone URLs count. *)
Definition clone_source (maintainers : list string) (identifier : string) (e : CoreNostrEvent)
    (a : RepoAnnouncement) : Prop :=
  ce_kind e = KIND_GIT_REPO_ANNOUNCEMENT ∧ ce_pubkey e ∈ maintainers ∧
  RepoAnnouncement_from_tags (ce_tags e) = Ok a ∧ an_identifier a = identifier.

Lemma clone_event_step_spec ms id clones e :
  (∃ a, clone_source ms id e a ∧
     clone_event_step ms id clones e = foldl clone_step clones (an_clone a)) ∨
  (¬ (∃ a, clone_source ms id e a) ∧ clone_event_step ms id clones e = clones).
Proof.
  unfold clone_event_step, clone_source.
  case_bool_decide as Hk; simpl; [|right; naive_solver].
  case_bool_decide as Hm; simpl; [|right; naive_solver].
  destruct (RepoAnnouncement_from_tags (ce_tags e)) as [a|] eqn:Ha; [|right; naive_solver].
  destruct (String.eqb_spec (an_identifier a) id); simpl; [left; naive_solver|right; naive_solver].
Qed.

Lemma clone_events_spec ms id es : ∀ clones,
  NoDup clones →
  NoDup (foldl (clone_event_step ms id) clones es) ∧
  ∀ x, x ∈ foldl (clone_event_step ms id) clones es ↔
    x ∈ clones ∨ ∃ e a c, e ∈ es ∧ clone_source ms id e a ∧ c ∈ an_clone a ∧
      x = trim_end_matches "/" c ∧ x ≠ "".
Proof.
  induction es as [|e es IH]; intros clones Hn; simpl.
  { split; [done|]. set_solver. }
  destruct (clone_event_step_spec ms id clones e) as [(a & Ha & ->)|[Ha ->]].
  - destruct (IH (foldl clone_step clones (an_clone a))) as [? Hx]; [by apply NoDup_clone_fold|].
    split; [done|]. intros x. rewrite Hx, elem_of_clone_fold. setoid_rewrite elem_of_cons.
    split; [naive_solver|]. intros [?|(e' & a' & c & [->|He] & Hs & Hr)]; [by eauto| |by eauto 10].
    destruct Ha as (_ & _ & Ha & _), Hs as (_ & _ & Hs & _).
    assert (a' = a) as -> by congruence. left. right. by exists c.
  - destruct (IH clones Hn) as [? Hx]. split; [done|]. intros x. rewrite Hx.
    setoid_rewrite elem_of_cons. naive_solver.
Qed.

(** ** Properties *)

(** [collect_maintainers] terminates on every set of events, cyclic
    maintainer graphs included, and returns, sorted and without duplicates,
    exactly the keys reachable from the given key along announcements of the
    repository: itself if it has an announcement, and every listed maintainer
    that has one. *)
Lemma collect_maintainers_spec events pubkey identifier :
  ∃ l, collect_maintainers events pubkey identifier = Some l ∧
    NoDup l ∧ StronglySorted String.le l ∧
    ∀ x, x ∈ l ↔ maintains events identifier pubkey x.
Proof.
  destruct (collect_total events identifier pubkey) as (c & Hc & Hx).
  exists (merge_sort String.le (elements c)).
  unfold collect_maintainers, collect_maintainers_with. rewrite Hc. split_and!; [done|..].
  - rewrite merge_sort_Permutation. apply NoDup_elements.
  - apply StronglySorted_merge_sort; apply _.
  - intros x. rewrite merge_sort_Permutation, elem_of_elements. apply Hx.
Qed.

(** [latest_state_from_maintainers] returns the state of the newest state
    event signed by a maintainer, the last one in order when several share the
    newest timestamp, and nothing when that event does not parse. *)
Lemma latest_state_spec events maintainers s :
  latest_state_from_maintainers events maintainers = Some s ↔
  ∃ es1 e es2, events = es1 ++ e :: es2 ∧ is_maintainer_state maintainers e = true ∧
    (∀ e', e' ∈ es1 → is_maintainer_state maintainers e' = true →
       ce_created_at e' ≤ ce_created_at e)%Z ∧
    (∀ e', e' ∈ es2 → is_maintainer_state maintainers e' = true →
       ce_created_at e' < ce_created_at e)%Z ∧
    RepoState_from_tags (ce_tags e) = Ok s.
Proof.
  transitivity (∃ e, max_by_key ce_created_at
      (List.filter (is_maintainer_state maintainers) events) = Some e ∧
      RepoState_from_tags (ce_tags e) = Ok s).
  { unfold latest_state_from_maintainers. destruct maintainers as [|m ms].
    - split; [done|]. intros (e & He & _). exfalso. revert He.
      assert (List.filter (is_maintainer_state []) events = []) as ->; [|done].
      induction events as [|x es IH]; simpl; [done|]. unfold is_maintainer_state at 1.
      rewrite (bool_decide_eq_false_2 (_ ∈ [])) by apply not_elem_of_nil. by rewrite andb_false_r.
    - rewrite bind_Some. by setoid_rewrite ok_Some. }
  setoid_rewrite max_by_key_spec. split.
  - intros (e & (k1 & k2 & (es1 & es2 & -> & <- & <- & He)%filter_split & H1 & H2) & Hs).
    rewrite Forall_filter in H1, H2. by exists es1, e, es2.
  - intros (es1 & e & es2 & -> & He & H1 & H2 & Hs). exists e. split; [|done].
    eexists _, _. rewrite List.filter_app. simpl. rewrite He. split; [done|].
    by rewrite !Forall_filter.
Qed.

(** [collect_clone_urls] returns, without duplicates, exactly the nonempty
    clone URLs, less their trailing slashes, of the announcements of the
    repository signed by maintainers. *)
Lemma collect_clone_urls_spec events maintainers identifier :
  NoDup (collect_clone_urls events maintainers identifier) ∧
  ∀ x, x ∈ collect_clone_urls events maintainers identifier ↔
    ∃ e a c, e ∈ events ∧ clone_source maintainers identifier e a ∧ c ∈ an_clone a ∧
      x = trim_end_matches "/" c ∧ x ≠ "".
Proof.
  destruct (clone_events_spec maintainers identifier events [] NoDup_nil_2) as [Hn Hx].
  unfold collect_clone_urls. destruct maintainers as [|m ms].
  - split; [apply NoDup_nil_2|]. intros x. split; [by intros ?%not_elem_of_nil|].
    intros (e & a & c & _ & (_ & ?%not_elem_of_nil & _) & _). done.
  - split; [done|]. intros x. rewrite Hx. set_solver.
Qed.
