(* ===== verification/EventFilters.v ===== *)
(** * [EventFilters]: event references, related-event filters, admission

    Models [crates/core/src/event_refs.rs], [event_filters.rs] and
    [admission.rs]. *)

From S2P Require Import Prelude RustStr CoreTypes Externals Grasp Nip34Repo.

(** ** [event_refs.rs] *)

Definition ADDRESSABLE_KIND_START : Z := 30000.
Definition ADDRESSABLE_KIND_END : Z := 40000.

Record EventReferences := mkEventReferences {
  er_event_ids : list string;
  er_address_pointers : list string
}.

Definition EventReferences_new : EventReferences := mkEventReferences [] [].
Definition EventReferences_is_empty (r : EventReferences) : bool :=
  bool_decide (er_event_ids r = []) && bool_decide (er_address_pointers r = []).

Definition push_event_id (r : EventReferences) (v : string) : EventReferences :=
  mkEventReferences (push_unique (er_event_ids r) v) (er_address_pointers r).
Definition push_pointer (r : EventReferences) (v : string) : EventReferences :=
  mkEventReferences (er_event_ids r) (push_unique (er_address_pointers r) v).

Definition reference_step (refs : EventReferences) (t : tag) : EventReferences :=
  match t with
  | key :: value :: _ =>
      if (key == "a") || (key == "A") then push_pointer refs value
      else if (key == "e") || (key == "E") then push_event_id refs value
      else if key == "q" then
        if contains_char ":" value then push_pointer refs value else push_event_id refs value
      else refs
  | _ => refs
  end.

Definition collect_event_references (tags : tag_list) : EventReferences :=
  foldl reference_step EventReferences_new tags.

Definition is_addressable_kind (kind : Z) : bool :=
  bool_decide (ADDRESSABLE_KIND_START ≤ kind)%Z && bool_decide (kind < ADDRESSABLE_KIND_END)%Z.

Definition find_d_tag (tags : tag_list) : option string := find_map (match_value "d") tags.

Definition self_pointer (kind : Z) (pubkey : string) (tags : tag_list) : string :=
  match find_d_tag tags with
  | Some identifier => pretty kind +:+ ":" +:+ pubkey +:+ ":" +:+ identifier
  | None => pretty kind +:+ ":" +:+ pubkey
  end.

Definition collect_event_references_with_self (kind : Z) (pubkey event_id : string)
    (tags : tag_list) : EventReferences :=
  let refs := collect_event_references tags in
  if is_addressable_kind kind then push_pointer refs (self_pointer kind pubkey tags)
  else push_event_id refs event_id.

(** ** [event_filters.rs] *)

Record EventFilter := mkEventFilter {
  ef_ids : list string;
  ef_kinds : list Z;
  ef_authors : list string;
  ef_tags : gmap string (list string);
  ef_limit : option Z
}.

Definition EventFilter_new : EventFilter := mkEventFilter [] [] [] ∅ None.
Definition with_limit (f : EventFilter) (limit : Z) : EventFilter :=
  mkEventFilter (ef_ids f) (ef_kinds f) (ef_authors f) (ef_tags f) (Some limit).

Definition related_kinds (kind : Z) : list Z :=
  if bool_decide (kind = KIND_GIT_REPO_STATE)
  then [KIND_GIT_REPO_STATE; KIND_GIT_REPO_ANNOUNCEMENT] else [kind].

Definition build_pointer_filter (pointer : string) : option EventFilter :=
  match split ":" pointer with
  | [kind; author; identifier] =>
      kind ← parse_u32 kind;
      Some (mkEventFilter [] (related_kinds kind) [author] {[ "d" := [identifier] ]} None)
  | [kind; author] =>
      kind ← parse_u32 kind;
      Some (mkEventFilter [] (related_kinds kind) [author] ∅ None)
  | _ => None
  end.

(** A filter on one tag name, and [entry(k).or_insert_with(Vec::new).extend(vs)]. *)
Definition tag_filter (tags : gmap string (list string)) : EventFilter :=
  with_limit (mkEventFilter [] [] [] tags None) 1.
Definition entry_extend (k : string) (vs : list string) (m : gmap string (list string))
    : gmap string (list string) := <[k := default [] (m !! k) ++ vs]> m.

Definition build_related_event_filters (kind : Z) (pubkey event_id : string) (tags : tag_list)
    : list EventFilter :=
  let refs := collect_event_references_with_self kind pubkey event_id tags in
  let ids := er_event_ids refs in
  let pointers := er_address_pointers refs in
  (if bool_decide (ids = []) then [] else [with_limit (mkEventFilter ids [] [] ∅ None) 1])
  ++ omap (λ pointer, (λ f, with_limit f 1) <$> build_pointer_filter pointer) pointers
  ++ (if bool_decide (ids = []) then []
      else [tag_filter (entry_extend "E" ids (<["e" := ids]> ∅))])
  ++ (if bool_decide (pointers = []) then []
      else [tag_filter (entry_extend "A" pointers (<["a" := pointers]> ∅))])
  ++ [tag_filter (<["q" := pointers ++ ids]> ∅)].

(** ** [admission.rs] *)

Inductive AdmissionDecision :=
| AdmAccept
| AdmReject (reason : string)
| AdmRequiresRelatedEvents (filters : list EventFilter).

Section Admission.
Context `{UrlLib} `{Bech32Lib}.

Definition evaluate_admission (kind : Z) (pubkey event_id : string) (tags : tag_list)
    (relay_host : option string) : result CoreError AdmissionDecision :=
  if bool_decide (kind = KIND_GIT_REPO_STATE) then Ok AdmAccept
  else if bool_decide (kind = KIND_GIT_REPO_ANNOUNCEMENT) then
    match relay_host with
    | None => Ok (AdmReject "missing relay host for announcement check")
    | Some host =>
        announcement ← RepoAnnouncement_from_tags tags;
        if bool_decide (an_clone announcement = []) then
          Ok (AdmReject "repository announcement missing clone tags")
        else if bool_decide (an_relays announcement = []) then
          Ok (AdmReject "repository announcement missing relays tags")
        else
          listed ← lists_grasp_host announcement host;
          Ok (if (listed : bool) then AdmAccept
              else AdmReject "repository announcement does not list relay host")
    end
  else Ok (AdmRequiresRelatedEvents (build_related_event_filters kind pubkey event_id tags)).
End Admission.

(** ** Lemmas *)

(** The references a tag makes. *)
Definition refers_event (t : tag) (v : string) : Prop :=
  ∃ key, head t = Some key ∧ t !! 1 = Some v ∧
    (key = "e" ∨ key = "E" ∨ key = "q" ∧ contains_char ":" v = false).
Definition refers_address (t : tag) (v : string) : Prop :=
  ∃ key, head t = Some key ∧ t !! 1 = Some v ∧
    (key = "a" ∨ key = "A" ∨ key = "q" ∧ contains_char ":" v = true).

Definition refs_wf (r : EventReferences) : Prop :=
  NoDup (er_event_ids r) ∧ NoDup (er_address_pointers r).

(** Case analysis on which references a tag makes. *)
Ltac refs_solver :=
  split; intros; rewrite ?elem_of_push_unique; split; intros; simpl in *;
  repeat match goal with
  | H : _ ∨ _ |- _ => destruct H
  | H : ∃ _, _ |- _ => destruct H
  | H : _ ∧ _ |- _ => destruct H
  | H : Some _ = Some _ |- _ => injection H as H
  end; subst; try congruence; eauto 10.

Lemma reference_step_spec refs t :
  (∀ v, v ∈ er_event_ids (reference_step refs t) ↔ v ∈ er_event_ids refs ∨ refers_event t v) ∧
  (∀ v, v ∈ er_address_pointers (reference_step refs t) ↔
        v ∈ er_address_pointers refs ∨ refers_address t v).
Proof.
  unfold reference_step, refers_event, refers_address.
  destruct t as [|key [|value rest]]; [refs_solver..|]. simpl.
  destruct (String.eqb_spec key "a") as [->|Ha]; [|destruct (String.eqb_spec key "A") as [->|HA]];
    [simpl; refs_solver..|].
  destruct (String.eqb_spec key "e") as [->|He]; [|destruct (String.eqb_spec key "E") as [->|HE]];
    [simpl; refs_solver..|].
  destruct (String.eqb_spec key "q") as [->|Hq]; simpl; [|refs_solver].
  destruct (contains_char ":" value) eqn:Hc; simpl; refs_solver.
Qed.

Lemma reference_step_wf refs t : refs_wf refs → refs_wf (reference_step refs t).
Proof.
  unfold refs_wf, reference_step. intros [? ?].
  repeat case_match; simpl; auto with gittree.
Qed.

Lemma references_spec tags : ∀ refs,
  (refs_wf refs → refs_wf (foldl reference_step refs tags)) ∧
  (∀ v, v ∈ er_event_ids (foldl reference_step refs tags) ↔
        v ∈ er_event_ids refs ∨ ∃ t, t ∈ tags ∧ refers_event t v) ∧
  (∀ v, v ∈ er_address_pointers (foldl reference_step refs tags) ↔
        v ∈ er_address_pointers refs ∨ ∃ t, t ∈ tags ∧ refers_address t v).
Proof.
  induction tags as [|t tags IH]; intros refs; simpl; [set_solver|].
  destruct (reference_step_spec refs t) as [He Ha]. destruct (IH (reference_step refs t)) as (Hw & He' & Ha').
  split; [auto using reference_step_wf|].
  split; intros v; [rewrite He', He|rewrite Ha', Ha]; set_solver.
Qed.

Lemma pretty_no_colon (z : Z) : (0 ≤ z)%Z → contains_char ":" (pretty z) = false.
Proof. intros Hz. eapply str_all_not_contains; [|by apply pretty_Z_digits]. done. Qed.

Lemma parse_u32_pretty z : (0 ≤ z ≤ u32_max)%Z → parse_u32 (pretty z) = Some z.
Proof. apply parse_int_pretty. Qed.

(** The filter for the address an event has itself. *)
Definition self_filter (kind : Z) (pubkey : string) (identifier : option string) : EventFilter :=
  mkEventFilter [] (related_kinds kind) [pubkey]
    (match identifier with Some i => {[ "d" := [i] ]} | None => ∅ end) None.

Lemma build_self_filter kind pubkey tags :
  (0 ≤ kind ≤ u32_max)%Z → contains_char ":" pubkey = false →
  (∀ i, find_d_tag tags = Some i → contains_char ":" i = false) →
  build_pointer_filter (self_pointer kind pubkey tags)
  = Some (self_filter kind pubkey (find_d_tag tags)).
Proof.
  intros Hk Hp Hi. unfold build_pointer_filter, self_pointer, self_filter.
  assert (contains_char ":" (pretty kind) = false) as Hc by (apply pretty_no_colon; lia).
  destruct (find_d_tag tags) as [i|].
  - change (":" +:+ pubkey +:+ ":" +:+ i) with (String ":" (pubkey +:+ String ":" i)).
    rewrite split_app, split_app, split_no_sep by auto. by rewrite parse_u32_pretty.
  - change (":" +:+ pubkey) with (String ":" pubkey).
    rewrite split_app, split_no_sep by auto. by rewrite parse_u32_pretty.
Qed.

Lemma lists_grasp_host_true `{UrlLib} a h :
  lists_grasp_host a h = Ok true ↔
  ∃ n r, normalize_grasp_host_for_compare h = Ok n ∧ r ∈ an_relays a ∧
    normalize_grasp_host_for_compare r = Ok n.
Proof.
  unfold lists_grasp_host. rewrite bind_Ok. split.
  - intros (n & Hn & [= (x & (r & Hr & Hx%ok_Some)%list_elem_of_omap & ->%String.eqb_eq)%existsb_true]).
    by exists n, r.
  - intros (n & r & Hn & Hr & Hrn). exists n. split; [done|]. f_equal. apply existsb_true.
    exists n. split; [|by apply String.eqb_eq]. apply list_elem_of_omap. exists r. by rewrite Hrn.
Qed.

(** ** Properties *)

(** The references of an event are, each without duplicates, the event
    ids of its [e]/[E] tags and colon-free [q] tags, the addresses of its
    [a]/[A] tags and other [q] tags, and itself: its address when its kind is
    addressable, its id otherwise. *)
Lemma event_references_spec kind pubkey event_id tags :
  let refs := collect_event_references_with_self kind pubkey event_id tags in
  refs_wf refs ∧
  (∀ v, v ∈ er_event_ids refs ↔
     (∃ t, t ∈ tags ∧ refers_event t v) ∨ is_addressable_kind kind = false ∧ v = event_id) ∧
  (∀ v, v ∈ er_address_pointers refs ↔
     (∃ t, t ∈ tags ∧ refers_address t v) ∨
     is_addressable_kind kind = true ∧ v = self_pointer kind pubkey tags).
Proof.
  intros refs. subst refs. unfold collect_event_references_with_self, collect_event_references.
  destruct (references_spec tags EventReferences_new) as (Hw & He & Ha).
  destruct Hw as [Hw1 Hw2]; [by split; apply NoDup_nil_2|].
  simpl in He, Ha. setoid_rewrite elem_of_nil in He. setoid_rewrite elem_of_nil in Ha.
  destruct (is_addressable_kind kind); (split; [split; simpl; auto with gittree|]);
    split; intros v; simpl; rewrite ?elem_of_push_unique, ?He, ?Ha; intuition congruence.
Qed.

(** An event of an addressable kind is always looked up among its related
    events: one of the filters selects its author, its identifier and its kind
    (state events also select the announcement), and every filter asks for one
    event only. *)
Lemma related_filters_self kind pubkey event_id tags :
  is_addressable_kind kind = true → contains_char ":" pubkey = false →
  (∀ i, find_d_tag tags = Some i → contains_char ":" i = false) →
  with_limit (self_filter kind pubkey (find_d_tag tags)) 1
    ∈ build_related_event_filters kind pubkey event_id tags ∧
  Forall (λ f, ef_limit f = Some 1%Z) (build_related_event_filters kind pubkey event_id tags).
Proof.
  intros Hk Hp Hi. split.
  - unfold build_related_event_filters. rewrite elem_of_app. right. rewrite elem_of_app. left.
    apply list_elem_of_omap. exists (self_pointer kind pubkey tags). split.
    + unfold collect_event_references_with_self. rewrite Hk. simpl. apply elem_of_push_unique. by right.
    + unfold is_addressable_kind, ADDRESSABLE_KIND_START, ADDRESSABLE_KIND_END in Hk. reflect_bools.
      rewrite build_self_filter; [done| |done..]. unfold u32_max. lia.
  - unfold build_related_event_filters. rewrite !Forall_app. split_and!.
    + case_bool_decide; [apply Forall_nil_2|by apply Forall_singleton].
    + apply Forall_forall. intros f (p & _ & Hf)%list_elem_of_omap.
      apply fmap_Some in Hf as (g & _ & ->). done.
    + case_bool_decide; [apply Forall_nil_2|by apply Forall_singleton].
    + case_bool_decide; [apply Forall_nil_2|by apply Forall_singleton].
    + by apply Forall_singleton.
Qed.

Lemma related_filters_self_witness :
  with_limit (self_filter KIND_GIT_REPO_STATE "ab" (Some "repo")) 1
    ∈ build_related_event_filters KIND_GIT_REPO_STATE "ab" "id" [["d"; "repo"]].
Proof.
  apply (related_filters_self KIND_GIT_REPO_STATE "ab" "id" [["d"; "repo"]]).
  - vm_compute. reflexivity.
  - vm_compute. reflexivity.
  - intros i [= <-]. vm_compute. reflexivity.
Defined.

(** An event is admitted without looking at others exactly when it is a
    repository state, or an announcement that parses, has clone URLs and lists
    a relay with the same normalised host as this relay. *)
Lemma admission_accept_iff `{UrlLib} kind pubkey event_id tags relay_host :
  evaluate_admission kind pubkey event_id tags relay_host = Ok AdmAccept ↔
  kind = KIND_GIT_REPO_STATE ∨
  kind = KIND_GIT_REPO_ANNOUNCEMENT ∧
    ∃ host a n r, relay_host = Some host ∧ RepoAnnouncement_from_tags tags = Ok a ∧
      an_clone a ≠ [] ∧ r ∈ an_relays a ∧
      normalize_grasp_host_for_compare host = Ok n ∧ normalize_grasp_host_for_compare r = Ok n.
Proof.
  unfold evaluate_admission. case_bool_decide as Hs; [split; auto|].
  case_bool_decide as Ha; [|split; [done|naive_solver]].
  destruct relay_host as [h|]; [|split; [done|naive_solver]].
  rewrite bind_Ok. split.
  - intros (a & Hf & Hx). right. split; [done|].
    case_bool_decide as Hc; [done|]. case_bool_decide; [done|].
    apply bind_Ok in Hx as (listed & Hl & Hx). destruct listed; [|done].
    apply lists_grasp_host_true in Hl as (n & r & ? & ? & ?). by exists h, a, n, r.
  - intros [?|(_ & host & a & n & r & [= <-] & Hf & Hc & Hr & Hh & Hn)]; [done|].
    exists a. split; [done|]. rewrite bool_decide_eq_false_2 by done.
    rewrite bool_decide_eq_false_2.
    + assert (lists_grasp_host a h = Ok true) as ->; [|done].
      apply lists_grasp_host_true. by exists n, r.
    + intros E. rewrite E in Hr. by apply not_elem_of_nil in Hr.
Qed.

