(* ===== verification/CommandCli.v ===== *)
(** * [CommandCli]: the textual command language

    Models [crates/core/src/command_cli.rs]: the tokenizer with its quotes and
    escapes, the parser and the shape check of commands. *)

From S2P Require Import Prelude RustStr.

Inductive CommandNamespace := NsAccount | NsProfile | NsRepo.

#[export] Instance CommandNamespace_eq_dec : EqDecision CommandNamespace.
Proof. solve_decision. Defined.

Inductive CommandArg :=
| Positional (value : string)
| KeyValue (key value : string).

Record ParsedCommand := mkParsedCommand {
  pc_namespace : CommandNamespace;
  pc_action : string;
  pc_target : option string;
  pc_args : list CommandArg
}.

Inductive CommandParseError :=
| MissingPrefix
| EmptyCommand
| InvalidNamespace (value : string)
| UnterminatedQuote
| InvalidCommand (value : string)
| InvalidArgs (value : string).

Definition CommandParseError_display (e : CommandParseError) : string :=
  match e with
  | MissingPrefix => "missing gittree command prefix"
  | EmptyCommand => "empty command"
  | InvalidNamespace value => "invalid namespace: " +:+ value
  | UnterminatedQuote => "unterminated quote"
  | InvalidCommand value => "invalid command: " +:+ value
  | InvalidArgs value => "invalid args: " +:+ value
  end.

(** ** The tokenizer, on the characters of its input *)

Definition backslash : string := byte_str [92].
Definition dquote : string := byte_str [34].

Fixpoint tokenize_loop (cs : list string) (tokens : list string) (current : string)
    (in_quotes escape : bool) : result CommandParseError (list string) :=
  match cs with
  | [] =>
      if in_quotes then Err UnterminatedQuote
      else Ok (if is_empty current then tokens else tokens ++ [current])
  | ch :: cs =>
      if escape then tokenize_loop cs tokens (current +:+ ch) in_quotes false
      else if ch == backslash then tokenize_loop cs tokens current in_quotes true
      else if ch == dquote then tokenize_loop cs tokens current (negb in_quotes) escape
      else if is_whitespace ch && negb in_quotes then
        if is_empty current then tokenize_loop cs tokens current in_quotes escape
        else tokenize_loop cs (tokens ++ [current]) "" in_quotes escape
      else tokenize_loop cs tokens (current +:+ ch) in_quotes escape
  end.

Definition tokenize (input : string) : result CommandParseError (list string) :=
  tokenize_loop (chars input) [] "" false false.

(** ** The parser *)

Definition parse_namespace (value : string) : result CommandParseError CommandNamespace :=
  if value == "account" then Ok NsAccount
  else if value == "profile" then Ok NsProfile
  else if value == "repo" then Ok NsRepo
  else Err (InvalidNamespace value).

Definition args_are_key_values (args : list CommandArg) : bool :=
  forallb (λ arg, match arg with KeyValue _ _ => true | Positional _ => false end) args.

Definition is_target_action (action : string) : bool :=
  (action == "create") || (action == "announce") || (action == "sync")
  || (action == "archive") || (action == "unarchive").

Definition validate_shape (namespace : CommandNamespace) (action : string)
    (target : option string) (args : list CommandArg) : result CommandParseError unit :=
  match namespace with
  | NsAccount =>
      if (action == "create") || (action == "status") || (action == "delete") then
        if is_nil args then Ok tt else Err (InvalidArgs "account commands accept no args")
      else Err (InvalidCommand action)
  | NsProfile =>
      if action == "set" then
        if negb (is_nil args) && args_are_key_values args then Ok tt
        else Err (InvalidArgs "profile set requires key=value args")
      else if action == "visibility" then
        match args with
        | [Positional value] =>
            if (value == "public") || (value == "private") then Ok tt
            else Err (InvalidArgs "profile visibility requires public|private")
        | _ => Err (InvalidArgs "profile visibility requires public|private")
        end
      else Err (InvalidCommand action)
  | NsRepo =>
      if is_target_action action && is_some target && is_nil args then Ok tt
      else if (action == "update") && is_some target && negb (is_nil args) then Ok tt
      else if (action == "maintainers") && is_some target then
        match args with
        | [Positional sub; Positional npub] =>
            if ((sub == "add") || (sub == "remove")) && starts_with "npub" npub then Ok tt
            else Err (InvalidArgs "repo maintainers requires add|remove and npub")
        | _ => Err (InvalidArgs "repo maintainers requires add|remove and npub")
        end
      else if is_target_action action then
        Err (InvalidArgs "repo command requires target and no extra args")
      else if action == "update" then
        Err (InvalidArgs "repo update requires target and key=value args")
      else if action == "maintainers" then Err (InvalidArgs "repo maintainers requires target")
      else Err (InvalidCommand action)
  end.

(** The loop over the tokens after the action. *)
Fixpoint args_loop (namespace : CommandNamespace) (tokens : list string)
    (target : option string) (args : list CommandArg) : option string * list CommandArg :=
  match tokens with
  | [] => (target, args)
  | token :: tokens =>
      match split_once "=" token with
      | Some (key, value) => args_loop namespace tokens target (args ++ [KeyValue key value])
      | None =>
          if is_none target && bool_decide (namespace = NsRepo) then
            args_loop namespace tokens (Some token) args
          else args_loop namespace tokens target (args ++ [Positional token])
      end
  end.

Definition parse_cli_command (input : string) : result CommandParseError ParsedCommand :=
  let trimmed := trim input in
  rest ← (if trimmed == "gittree" then Ok ""
          else ok_or MissingPrefix (strip_prefix "gittree " trimmed));
  tokens ← tokenize rest;
  match tokens with
  | [] => Err EmptyCommand
  | first :: _ =>
      namespace ← parse_namespace first;
      let action := default "" (tokens !! 1) in
      _ ← fail_if (is_empty action) (InvalidCommand "missing subcommand/action");
      let '(target, args) := args_loop namespace (drop 2 tokens) None [] in
      _ ← validate_shape namespace action target args;
      Ok (mkParsedCommand namespace action target args)
  end.

(** ** Specifications *)

(** The commands the language has. *)
Definition command_shape (c : ParsedCommand) : Prop :=
  match pc_namespace c with
  | NsAccount =>
      pc_action c ∈ ["create"; "status"; "delete"] ∧ pc_target c = None ∧ pc_args c = []
  | NsProfile =>
      pc_target c = None ∧
      (pc_action c = "set" ∧ pc_args c ≠ [] ∧
         (∀ a, a ∈ pc_args c → ∃ k v, a = KeyValue k v) ∨
       pc_action c = "visibility" ∧
         (pc_args c = [Positional "public"] ∨ pc_args c = [Positional "private"]))
  | NsRepo =>
      ∃ target, pc_target c = Some target ∧ contains_char "=" target = false ∧
      (pc_action c ∈ ["create"; "announce"; "sync"; "archive"; "unarchive"] ∧ pc_args c = [] ∨
       pc_action c = "update" ∧ pc_args c ≠ [] ∨
       pc_action c = "maintainers" ∧
         ∃ sub key, pc_args c = [Positional sub; Positional ("npub" +:+ key)] ∧
           (sub = "add" ∨ sub = "remove"))
  end.

(** A way to write any token: between quotes, with a backslash before each
    quote and backslash. *)
Definition quote_char (ch : string) : list string :=
  if (ch == backslash) || (ch == dquote) then [backslash; ch] else [ch].
Definition quoted (token : list string) : list string :=
  dquote :: concat (quote_char <$> token) ++ [dquote].
Definition write_command (tokens : list (list string)) : list string :=
  concat ((λ token, quoted token ++ [" "]) <$> tokens).

(** ** Lemmas *)

Lemma args_loop_target ns tokens : ∀ target args t args',
  args_loop ns tokens target args = (t, args') →
  (ns ≠ NsRepo → target = None → t = None) ∧
  ((∀ x, target = Some x → contains_char "=" x = false) →
   ∀ x, t = Some x → contains_char "=" x = false).
Proof.
  induction tokens as [|tok tokens IH]; intros target args t args'; simpl.
  - intros [= <- <-]. auto.
  - destruct (split_once "=" tok) as [[k v]|] eqn:Hs.
    + intros [? ?]%IH. auto.
    + apply split_once_None in Hs. destruct target as [x|]; simpl.
      * intros [? ?]%IH. auto.
      * case_bool_decide as Hns.
        -- intros [? Ht]%IH. split; [done|]. intros _. apply Ht. by intros ? [= <-].
        -- intros [? ?]%IH. auto.
Qed.

Lemma eqb_true s t : (s == t) = true → s = t.
Proof. apply String.eqb_eq. Qed.

(** Case analysis on the comparisons of an action. *)
Ltac action_cases :=
  repeat match goal with
  | H : (_ == _) = true |- _ => apply eqb_true in H; subst
  | H : (_ || _) = true |- _ => apply orb_true_iff in H as [H|H]
  | H : (_ && _) = true |- _ => apply andb_true_iff in H as [? ?]
  | H : starts_with _ _ = true |- _ => apply starts_with_true in H as [? ->]
  | H : negb (is_nil ?l) = true |- _ => destruct l; [done|clear H]
  | H : is_nil ?l = true |- _ => destruct l; [clear H|done]
  end.

Lemma is_target_action_spec a :
  is_target_action a = true → a ∈ ["create"; "announce"; "sync"; "archive"; "unarchive"].
Proof. unfold is_target_action. intros H. action_cases; set_solver. Qed.

Lemma validate_shape_Ok ns action target args :
  validate_shape ns action target args = Ok tt →
  (ns ≠ NsRepo → target = None) →
  (∀ x, target = Some x → contains_char "=" x = false) →
  command_shape (mkParsedCommand ns action target args).
Proof.
  unfold validate_shape, command_shape. intros Hv Htn Hte; destruct ns; simpl.
  - split_in Hv. destruct args; [|done]. split_and!; [|auto|done].
    action_cases; set_solver.
  - split; [auto|]. split_in Hv.
    + left. split_in Hv. action_cases. split_and!; [done..|].
      intros a Ha. match goal with H : args_are_key_values _ = true |- _ =>
        apply (proj1 (forallb_true _ _) H) in Ha end. destruct a; eauto. done.
    + right. split_in Hv. action_cases. split; [done|].
      destruct args as [|[v|] [|]]; try done. split_in Hv.
      action_cases; auto.
  - split_in Hv.
    { action_cases. destruct target as [x|]; [|done]. exists x. split_and!; auto.
      left. split; [by apply is_target_action_spec|done]. }
    split_in Hv.
    { action_cases. destruct target as [x|]; [|done]. exists x. split_and!; auto. }
    split_in Hv; [|split_all Hv].
    action_cases. destruct target as [x|]; [|done]. exists x. split_and!; auto.
    right. right. split; [done|]. destruct args as [|[s|] [|[n|] [|]]]; try done.
    split_in Hv. action_cases; eauto 10.
Qed.

Lemma tokenize_quoted_body token : ∀ cs tokens current,
  tokenize_loop (concat (quote_char <$> token) ++ cs) tokens current true false
  = tokenize_loop cs tokens (current +:+ str_concat token) true false.
Proof.
  induction token as [|ch token IH]; intros cs tokens current; simpl.
  { by rewrite str_app_nil_r. }
  rewrite <-str_app_assoc, <-IH. unfold quote_char at 1.
  destruct (ch == backslash) eqn:Hb, (ch == dquote) eqn:Hq; simpl; try done.
  rewrite Hb, Hq. by rewrite andb_false_r.
Qed.

Lemma tokenize_written tokens : ∀ acc,
  Forall (λ token, str_concat token ≠ "") tokens →
  tokenize_loop (write_command tokens) acc "" false false
  = Ok (acc ++ (str_concat <$> tokens)).
Proof.
  induction tokens as [|token tokens IH]; intros acc Ht.
  { simpl. by rewrite app_nil_r. }
  apply Forall_cons in Ht as [Ht Hts]. unfold write_command, quoted. rewrite fmap_cons. cbn [concat].
  rewrite <-!app_comm_cons, <-!app_assoc.
  match goal with |- tokenize_loop (?d :: ?x) ?t ?c _ _ = _ =>
    change (tokenize_loop x t c true false = Ok (t ++ (str_concat <$> token :: tokens))) end.
  rewrite tokenize_quoted_body, str_app_nil_l. simpl. unfold is_empty.
  rewrite bool_decide_eq_false_2 by done. rewrite IH by done.
  by rewrite <-app_assoc.
Qed.

Lemma write_command_chars tokens :
  Forall (Forall (λ c, is_char c = true)) tokens →
  Forall (λ c, is_char c = true) (write_command tokens).
Proof.
  intros Ht. unfold write_command. apply Forall_concat, Forall_fmap.
  eapply Forall_impl; [exact Ht|]. intros token Hc. unfold quoted, compose.
  rewrite Forall_app. split; [|by constructor]. constructor; [done|]. rewrite Forall_app.
  split; [|by constructor]. apply Forall_concat, Forall_fmap.
  eapply Forall_impl; [exact Hc|]. intros c Hch. unfold quote_char, compose.
  destruct (_ || _); repeat constructor; done.
Qed.

(** ** Properties *)

(** A parsed command has one of the shapes of the language: account
    commands have no arguments, profile commands a known action and its
    arguments, repository commands a target (never a [key=value] token) and the
    arguments their action takes; [repo update] is the one that takes any
    nonempty list of arguments. *)
Lemma parse_cli_command_shape input c :
  parse_cli_command input = Ok c → command_shape c.
Proof.
  unfold parse_cli_command. intros (rest & _ & (tokens & _ & Hc)%bind_Ok)%bind_Ok.
  destruct tokens as [|first tokens]; [done|].
  apply bind_Ok in Hc as (ns & _ & (_ & Hc)%bind_Ok_unit).
  destruct (args_loop ns _ None []) as [target args] eqn:Hl.
  apply bind_Ok_unit in Hc as [Hv [= <-]].
  apply args_loop_target in Hl as [Hn He].
  apply validate_shape_Ok; [done|auto|]. apply He. done.
Qed.

Lemma parse_cli_command_shape_witness :
  command_shape (mkParsedCommand NsRepo "maintainers" (Some "gittree")
    [Positional "add"; Positional "npub1abc"]).
Proof.
  apply (parse_cli_command_shape "  gittree repo maintainers gittree add npub1abc").
  vm_compute. reflexivity.
Defined.

(** Every list of nonempty tokens can be written: between quotes, with
    quotes and backslashes escaped, the tokenizer returns it unchanged,
    whitespace and all. *)
Lemma tokenize_written_command tokens :
  Forall (Forall (λ c, is_char c = true)) tokens →
  Forall (λ token, str_concat token ≠ "") tokens →
  tokenize (str_concat (write_command tokens)) = Ok (str_concat <$> tokens).
Proof.
  intros Hc Hn. unfold tokenize. rewrite chars_concat by by apply write_command_chars.
  by rewrite tokenize_written.
Qed.

Lemma tokenize_written_command_witness :
  tokenize (str_concat (write_command [["a"; " "; backslash]; ["b"]]))
  = Ok [str_concat ["a"; " "; backslash]; "b"].
Proof.
  apply (tokenize_written_command [["a"; " "; backslash]; ["b"]]);
    repeat (constructor; try (vm_compute; reflexivity); try (vm_compute; discriminate)).
Defined.
