(* ===== verification/RelayCompat.v ===== *)
(** * [RelayCompat]: relay information documents and capabilities

    Models [crates/core/src/nip11.rs] (the NIP-11 document; its JSON codec is
    derived by serde) and [relay_compat.rs]. *)

From S2P Require Import Prelude RustStr.

(** ** [nip11.rs] *)

Inductive KindSelector := Single (kind : Z) | Range (lo hi : Z).

Record RelayLimitation := mkRelayLimitation {
  max_message_length : option Z;
  max_subscriptions : option Z;
  max_limit : option Z;
  max_subid_length : option Z;
  max_event_tags : option Z;
  max_content_length : option Z;
  min_pow_difficulty : option Z;
  auth_required : option bool;
  payment_required : option bool;
  restricted_writes : option bool;
  created_at_lower_limit : option Z;
  created_at_upper_limit : option Z;
  default_limit : option Z
}.

Record RetentionRule := mkRetentionRule {
  rr_kinds : option (list KindSelector);
  rr_time : option Z;
  rr_count : option Z
}.

Record Fee := mkFee {
  fee_amount : Z;
  fee_unit : string;
  fee_period : option Z;
  fee_kinds : option (list Z)
}.

Record RelayInfoDocument := mkRelayInfoDocument {
  ri_name : option string;
  ri_description : option string;
  ri_banner : option string;
  ri_icon : option string;
  ri_pubkey : option string;
  ri_self_pubkey : option string;
  ri_contact : option string;
  ri_supported_nips : option (list Z);
  ri_software : option string;
  ri_version : option string;
  ri_privacy_policy : option string;
  ri_terms_of_service : option string;
  ri_limitation : option RelayLimitation;
  ri_retention : option (list RetentionRule);
  ri_relay_countries : option (list string);
  ri_language_tags : option (list string);
  ri_tags : option (list string);
  ri_posting_policy : option string;
  ri_payments_url : option string;
  ri_fees : option (gmap string (list Fee));
  ri_supported_grasps : option (list string);
  ri_repo_acceptance_criteria : option string;
  ri_curation : option string
}.

Definition supported_nips_list (d : RelayInfoDocument) : list Z := default [] (ri_supported_nips d).

Definition supports_nip (d : RelayInfoDocument) (nip : Z) : bool :=
  existsb (λ value, bool_decide (value = nip)) (supported_nips_list d).

(** ** [relay_compat.rs] *)

Inductive RelayCapability := CapNip01 | CapNip11 | CapNip34 | CapNip65 | CapGrasp.

#[export] Instance RelayCapability_eq_dec : EqDecision RelayCapability.
Proof. solve_decision. Defined.

Definition cap_as_str (c : RelayCapability) : string :=
  match c with
  | CapNip01 => "nip-01"
  | CapNip11 => "nip-11"
  | CapNip34 => "nip-34"
  | CapNip65 => "nip-65"
  | CapGrasp => "grasp"
  end.

Record RelayCapabilitySet := mkRelayCapabilitySet {
  cs_required : list RelayCapability;
  cs_optional : list RelayCapability
}.

Record ActiveProbeEvidence := mkActiveProbeEvidence { write_read_ok : bool }.

Record RelayCompatibilityReport := mkRelayCompatibilityReport {
  rc_relay_url : string;
  rc_supported : list RelayCapability;
  rc_missing_required : list RelayCapability;
  rc_missing_optional : list RelayCapability
}.

Definition push_if (b : bool) (c : RelayCapability) (l : list RelayCapability)
    : list RelayCapability := if b then l ++ [c] else l.

Definition lists_grasp (d : RelayInfoDocument) : bool :=
  match ri_supported_grasps d with
  | Some grasps => existsb (λ entry, negb (is_blank entry)) grasps
  | None => false
  end.

Definition capabilities_from_nip11 (d : RelayInfoDocument) : list RelayCapability :=
  let supported := push_if (supports_nip d 1) CapNip01 [] in
  let supported := push_if (supports_nip d 11) CapNip11 supported in
  let supported := push_if (supports_nip d 34) CapNip34 supported in
  let supported := push_if (supports_nip d 65) CapNip65 supported in
  push_if (lists_grasp d) CapGrasp supported.

Definition merge_active_probe_evidence (supported : list RelayCapability)
    (evidence : ActiveProbeEvidence) : list RelayCapability :=
  if negb (write_read_ok evidence) then supported
  else
    let supported := push_if (bool_decide (CapNip01 ∉ supported)) CapNip01 supported in
    push_if (bool_decide (CapNip34 ∉ supported)) CapNip34 supported.

(** The [HashSet] is turned into a vector and sorted by name: its iteration
    order does not matter because the names differ. *)
Definition cap_le (c d : RelayCapability) : Prop := String.le (cap_as_str c) (cap_as_str d).
#[export] Instance cap_le_dec : RelDecision cap_le.
Proof. intros c d. unfold cap_le. apply _. Defined.

Definition evaluate (s : RelayCapabilitySet) (relay_url : string)
    (supported : list RelayCapability) : RelayCompatibilityReport :=
  let missing := List.filter (λ cap, bool_decide (cap ∉ supported)) in
  mkRelayCompatibilityReport relay_url
    (merge_sort cap_le (remove_dups (supported ++ cs_required s ++ cs_optional s)))
    (missing (cs_required s)) (missing (cs_optional s)).

Definition RelayCapabilitySet_default : RelayCapabilitySet :=
  mkRelayCapabilitySet [CapNip01; CapNip34] [CapNip11; CapNip65; CapGrasp].

Definition is_compatible (r : RelayCompatibilityReport) : bool :=
  bool_decide (rc_missing_required r = []).

(** ** Lemmas *)

Lemma elem_of_push_if b c x l : x ∈ push_if b c l ↔ x ∈ l ∨ b = true ∧ x = c.
Proof. destruct b; simpl; set_solver. Qed.

Lemma elem_of_missing (supported l : list RelayCapability) x :
  x ∈ List.filter (λ cap, bool_decide (cap ∉ supported)) l ↔ x ∈ l ∧ x ∉ supported.
Proof. by rewrite list_elem_of_In, filter_In, <-list_elem_of_In, bool_decide_eq_true. Qed.

(** What a relay shows of a capability: its document, or a probe. *)
Definition shows (d : RelayInfoDocument) (ev : ActiveProbeEvidence) (c : RelayCapability) : Prop :=
  match c with
  | CapNip01 => supports_nip d 1 = true ∨ write_read_ok ev = true
  | CapNip11 => supports_nip d 11 = true
  | CapNip34 => supports_nip d 34 = true ∨ write_read_ok ev = true
  | CapNip65 => supports_nip d 65 = true
  | CapGrasp => lists_grasp d = true
  end.

Lemma elem_of_capabilities d x :
  x ∈ capabilities_from_nip11 d ↔ shows d (mkActiveProbeEvidence false) x.
Proof.
  unfold capabilities_from_nip11. rewrite !elem_of_push_if, elem_of_nil.
  destruct x; simpl; intuition congruence.
Qed.

Lemma elem_of_merge l ev x :
  x ∈ merge_active_probe_evidence l ev ↔
  x ∈ l ∨ write_read_ok ev = true ∧ (x = CapNip01 ∨ x = CapNip34).
Proof.
  unfold merge_active_probe_evidence. destruct (write_read_ok ev); simpl; [|intuition congruence].
  rewrite !elem_of_push_if, !bool_decide_eq_true, !elem_of_push_if, !bool_decide_eq_true.
  destruct (decide (CapNip01 ∈ l)), (decide (CapNip34 ∈ l)); destruct x; intuition congruence.
Qed.

(** The [supported] list of a report is sorted by name and has no
    duplicates, but it also holds every required and optional capability, the
    missing ones included: it does not tell what the relay supports. *)
Lemma report_supported_holds_missing s url sup :
  let report := evaluate s url sup in
  NoDup (rc_supported report) ∧ StronglySorted cap_le (rc_supported report) ∧
  (∀ c, c ∈ rc_supported report ↔ c ∈ sup ∨ c ∈ cs_required s ∨ c ∈ cs_optional s) ∧
  (∀ c, c ∈ rc_missing_required report → c ∈ rc_supported report).
Proof.
  intros report. subst report. simpl.
  assert (∀ c, c ∈ merge_sort cap_le (remove_dups (sup ++ cs_required s ++ cs_optional s)) ↔
    c ∈ sup ∨ c ∈ cs_required s ∨ c ∈ cs_optional s) as Hin.
  { intros c. rewrite merge_sort_Permutation, elem_of_remove_dups, !elem_of_app. done. }
  split_and!; [|..|exact Hin|].
  - rewrite merge_sort_Permutation. apply NoDup_remove_dups.
  - apply StronglySorted_merge_sort.
    + intros x y z. unfold cap_le. by etrans.
    + intros x y. apply (total String.le).
  - intros c [Hc _]%elem_of_missing. apply Hin. auto.
Qed.

(** ** Properties *)

(** A relay evaluated from its document and a probe is compatible exactly
    when it shows every required capability; the missing optional ones are
    reported as such.  The [supported] list of the report holds what the relay
    shows and also every required and optional capability, the missing ones
    included. *)
Lemma compatible_iff_required_shown s url d ev :
  let report := evaluate s url (merge_active_probe_evidence (capabilities_from_nip11 d) ev) in
  (is_compatible report = true ↔ ∀ c, c ∈ cs_required s → shows d ev c) ∧
  (∀ c, c ∈ rc_missing_optional report ↔ c ∈ cs_optional s ∧ ¬ shows d ev c) ∧
  (∀ c, c ∈ rc_supported report ↔ shows d ev c ∨ c ∈ cs_required s ∨ c ∈ cs_optional s).
Proof.
  set (sup := merge_active_probe_evidence _ _).
  assert (∀ c, c ∈ sup ↔ shows d ev c) as Hsup.
  { intros c. subst sup. rewrite elem_of_merge, elem_of_capabilities.
    destruct c; simpl; intuition congruence. }
  intros report. subst report. split; [|split].
  - unfold is_compatible. rewrite bool_decide_eq_true. simpl. split.
    + intros Hnil c Hc. apply Hsup. destruct (decide (c ∈ sup)) as [|Hn]; [done|].
      pose proof (proj2 (elem_of_missing sup _ c) (conj Hc Hn)) as Hx. rewrite Hnil in Hx.
      by apply not_elem_of_nil in Hx.
    + intros Hall. apply elem_of_nil_inv. intros c [Hc Hn]%elem_of_missing.
      by apply Hn, Hsup, Hall.
  - intros c. simpl. rewrite elem_of_missing. by rewrite Hsup.
  - intros c. rewrite <-Hsup. apply (report_supported_holds_missing s url sup).
Qed.
