(* ===== verification/RelayEvent.v ===== *)
(** * [RelayEvent]: the relay's events, tag index, filters, subscriptions, policy

    Models [services/relay/src/event.rs], [tags.rs], [filter.rs],
    [subscription.rs] and [policy.rs]. *)

From S2P Require Import Prelude RustStr CoreTypes Externals HexModel.

(** ** [event.rs] *)

Record NostrEvent := mkNostrEvent {
  ev_id : string;
  ev_pubkey : string;
  ev_created_at : Z;   (* i64 *)
  ev_kind : Z;         (* u32 *)
  ev_tags : tag_list;
  ev_content : string;
  ev_sig : string
}.

#[export] Instance NostrEvent_eq_dec : EqDecision NostrEvent.
Proof. solve_decision. Defined.

Inductive EventError := InvalidId | InvalidSignature | InvalidPubkey.

Definition EventError_display (e : EventError) : string :=
  match e with
  | InvalidId => "event id mismatch"
  | InvalidSignature => "invalid event signature"
  | InvalidPubkey => "invalid event pubkey"
  end.

Section Event.
Context `{JsonLib} `{HexLib} `{CryptoLib}.

Definition canonical_json (e : NostrEvent) : string :=
  json_to_string (JArray [JPosInt 0; JString (ev_pubkey e); json_int (ev_created_at e);
    json_int (ev_kind e); JArray ((λ t : tag, JArray (JString <$> t)) <$> ev_tags e);
    JString (ev_content e)]).

Definition compute_id (e : NostrEvent) : string := hex_encode (sha256 (canonical_json e)).

Definition verify (e : NostrEvent) : result EventError unit :=
  let digest := sha256 (canonical_json e) in
  let computed_id := hex_encode digest in
  if negb (ev_id e == computed_id) then Err InvalidId
  else
    sig ← ok_or InvalidSignature (signature_from_str (ev_sig e));
    pubkey ← ok_or InvalidPubkey (xonly_from_str (ev_pubkey e));
    if verify_schnorr sig digest pubkey then Ok tt else Err InvalidSignature.
End Event.

(** ** [tags.rs] *)

Inductive TagError := EmptyTag | EmptyName | EmptyValue.

Definition TagError_display (e : TagError) : string :=
  match e with
  | EmptyTag => "tag is empty"
  | EmptyName => "tag name is empty"
  | EmptyValue => "tag value is empty"
  end.

Abbreviation TagIndex := (gmap string (list string)) (only parsing).

(** The loop over the values of one tag; [entry] is the vector of its name. *)
Fixpoint index_values (values : list string) (entry : list string) : result TagError (list string) :=
  match values with
  | [] => Ok entry
  | value :: values =>
      if is_blank value then Err EmptyValue else index_values values (push_unique entry value)
  end.

Definition index_tag (m : TagIndex) (t : tag) : result TagError TagIndex :=
  match t with
  | [] => Err EmptyTag
  | first :: values =>
      let name := trim first in
      if is_empty name then Err EmptyName
      else
        entry ← index_values values (default [] (m !! name));
        Ok (<[name := entry]> m)
  end.

Definition TagIndex_from_tags (tags : tag_list) : result TagError TagIndex :=
  try_fold index_tag ∅ tags.

Definition tag_index_values (m : TagIndex) (name : string) : option (list string) := m !! name.

(** ** [filter.rs] *)

Record Filter := mkFilter {
  f_ids : list string;
  f_authors : list string;
  f_kinds : list Z;
  f_since : option Z;
  f_until : option Z;
  f_limit : option Z;
  f_tags : gmap string (list string)
}.

#[export] Instance Filter_eq_dec : EqDecision Filter.
Proof. solve_decision. Defined.

Inductive FilterError := InvalidFilter | InvalidFilterField (field : string).

Definition FilterError_display (e : FilterError) : string :=
  match e with
  | InvalidFilter => "invalid filter"
  | InvalidFilterField field => "invalid filter field " +:+ field
  end.

Definition parse_string_array (field : string) (value : json) : result FilterError (list string) :=
  items ← ok_or (InvalidFilterField field) (as_array value);
  try_map (λ item, ok_or (InvalidFilterField field) (as_str item)) items.

Definition parse_u32_array (field : string) (value : json) : result FilterError (list Z) :=
  items ← ok_or (InvalidFilterField field) (as_array value);
  try_map (λ item, as_u32 <$> ok_or (InvalidFilterField field) (as_u64_value item)) items.

Definition parse_u64_field (field : string) (value : json) : result FilterError (option Z) :=
  Some <$> ok_or (InvalidFilterField field) (as_u64_value value).

Definition parse_i64_field (field : string) (value : json) : result FilterError (option Z) :=
  Some <$> ok_or (InvalidFilterField field) (as_i64_value value).

(** One member of the filter object. *)
Definition filter_member (f : Filter) (member : string * json) : result FilterError Filter :=
  let '(key, value) := member in
  let '(mkFilter ids authors kinds since until limit tags) := f in
  if key == "ids" then
    ids ← parse_string_array key value; Ok (mkFilter ids authors kinds since until limit tags)
  else if key == "authors" then
    authors ← parse_string_array key value; Ok (mkFilter ids authors kinds since until limit tags)
  else if key == "kinds" then
    kinds ← parse_u32_array key value; Ok (mkFilter ids authors kinds since until limit tags)
  else if key == "since" then
    since ← parse_i64_field key value; Ok (mkFilter ids authors kinds since until limit tags)
  else if key == "until" then
    until ← parse_i64_field key value; Ok (mkFilter ids authors kinds since until limit tags)
  else if key == "limit" then
    limit ← parse_u64_field key value; Ok (mkFilter ids authors kinds since until limit tags)
  else if starts_with "#" key then
    let name := trim_start_matches_char "#" key in
    if is_empty name then Err (InvalidFilterField key)
    else
      values ← parse_string_array key value;
      Ok (mkFilter ids authors kinds since until limit (<[name := values]> tags))
  else Ok f.

Definition empty_filter : Filter := mkFilter [] [] [] None None None ∅.

Definition Filter_from_json (value : json) : result FilterError Filter :=
  obj ← ok_or InvalidFilter (as_object value);
  try_fold filter_member empty_filter obj.

Definition any_prefix (prefixes : list string) (s : string) : bool :=
  existsb (λ prefix, starts_with prefix s) prefixes.

Definition matches (f : Filter) (e : NostrEvent) (tags : TagIndex) : bool :=
  if negb (is_nil (f_ids f)) && negb (any_prefix (f_ids f) (ev_id e)) then false
  else if negb (is_nil (f_authors f)) && negb (any_prefix (f_authors f) (ev_pubkey e)) then false
  else if negb (is_nil (f_kinds f))
          && negb (existsb (λ kind, bool_decide (kind = ev_kind e)) (f_kinds f)) then false
  else if match f_since f with Some since => bool_decide (ev_created_at e < since)%Z | None => false end
  then false
  else if match f_until f with Some until => bool_decide (ev_created_at e > until)%Z | None => false end
  then false
  else
    forallb (λ entry : string * list string,
      match tag_index_values tags entry.1 with
      | None => false
      | Some existing =>
          existsb (λ value, existsb (λ x, x == value) existing) entry.2
      end) (btree_iter (f_tags f)).

(** ** [subscription.rs] *)

Record SubscriptionState := mkSubscriptionState { eose_flag : bool; sub_filters : list Filter }.

(** A [BTreeMap] keyed by subscription id. *)
Abbreviation SubscriptionRegistry := (gmap string SubscriptionState) (only parsing).

Definition registry_insert (r : SubscriptionRegistry) (id : string) (filters : list Filter)
    : bool * SubscriptionRegistry :=
  (is_none (r !! id), <[id := mkSubscriptionState false filters]> r).
Definition registry_remove (r : SubscriptionRegistry) (id : string) : bool * SubscriptionRegistry :=
  (is_some (r !! id), delete id r).
Definition registry_contains (r : SubscriptionRegistry) (id : string) : bool := is_some (r !! id).
Definition registry_len (r : SubscriptionRegistry) : nat := size r.
Definition mark_eose (r : SubscriptionRegistry) (id : string) : bool * SubscriptionRegistry :=
  match r !! id with
  | None => (false, r)
  | Some state => (true, <[id := mkSubscriptionState true (sub_filters state)]> r)
  end.
Definition eose_sent (r : SubscriptionRegistry) (id : string) : bool :=
  match r !! id with Some state => eose_flag state | None => false end.
Definition registry_filters (r : SubscriptionRegistry) (id : string) : option (list Filter) :=
  sub_filters <$> r !! id.
Definition registry_iter (r : SubscriptionRegistry) : list (string * list Filter) :=
  (λ p : string * SubscriptionState, (p.1, sub_filters p.2)) <$> btree_iter r.

(** ** [policy.rs] *)

Record Policy := mkPolicy {
  p_max_content_len : Z;
  p_max_tags : Z;
  p_max_tag_values : Z;
  p_max_tag_value_len : Z;
  p_max_future_seconds : Z;           (* i64 *)
  p_max_subscriptions : option Z;
  p_max_limit : option Z;
  p_max_message_bytes : option Z;
  p_max_events_per_min : option Z;
  p_max_requests_per_min : option Z;
  p_retention_max_age_seconds : option Z   (* i64 *)
}.

Definition Policy_default : Policy :=
  mkPolicy 8192 128 16 512 60 None None None None None None.

Inductive PolicyError :=
| ContentTooLong | TooManyTags | TooManyTagValues | TagValueTooLong | EventInFuture.

Definition PolicyError_display (e : PolicyError) : string :=
  match e with
  | ContentTooLong => "content too long"
  | TooManyTags => "too many tags"
  | TooManyTagValues => "too many tag values"
  | TagValueTooLong => "tag value too long"
  | EventInFuture => "event timestamp too far in future"
  end.

(** [crates/config]: the [u64] settings; [as usize] is the identity on 64-bit targets. *)
Record RelayPolicyConfig := mkRelayPolicyConfig {
  c_max_content_len : Z;
  c_max_tags : Z;
  c_max_tag_values : Z;
  c_max_tag_value_len : Z;
  c_max_future_seconds : Z;
  c_max_subscriptions : option Z;
  c_max_limit : option Z;
  c_max_message_bytes : option Z;
  c_max_events_per_min : option Z;
  c_max_requests_per_min : option Z;
  c_retention_max_age_seconds : option Z;
  c_auth_required : bool
}.

Definition Policy_from_config (c : RelayPolicyConfig) : Policy :=
  mkPolicy (c_max_content_len c) (c_max_tags c) (c_max_tag_values c) (c_max_tag_value_len c)
    (as_i64 (c_max_future_seconds c)) (c_max_subscriptions c) (c_max_limit c)
    (c_max_message_bytes c) (c_max_events_per_min c) (c_max_requests_per_min c)
    (as_i64 <$> c_retention_max_age_seconds c).

Definition len (s : string) : Z := Z.of_nat (String.length s).

Fixpoint check_tags (p : Policy) (tags : tag_list) : result PolicyError unit :=
  match tags with
  | [] => Ok tt
  | t :: tags =>
      _ ← fail_if (bool_decide (Z.of_nat (length t - 1) > p_max_tag_values p)%Z) TooManyTagValues;
      _ ← check_each (λ value, bool_decide (len value > p_max_tag_value_len p)%Z)
            (λ _, TagValueTooLong) (drop 1 t);
      check_tags p tags
  end.

(** [now + self.max_future_seconds] wraps in a release build. *)
Definition validate_event (p : Policy) (e : NostrEvent) (now : Z) : result PolicyError unit :=
  _ ← fail_if (bool_decide (len (ev_content e) > p_max_content_len p)%Z) ContentTooLong;
  _ ← fail_if (bool_decide (Z.of_nat (length (ev_tags e)) > p_max_tags p)%Z) TooManyTags;
  _ ← check_tags p (ev_tags e);
  _ ← fail_if (bool_decide (ev_created_at e > wrap_i64 (now + p_max_future_seconds p))%Z) EventInFuture;
  Ok tt.

(** ** Lemmas *)

(** The tags an index accepts, and the values it files under a name. *)
Definition indexable (t : tag) : Prop :=
  ∃ first values, t = first :: values ∧ is_blank first = false ∧
    Forall (λ v, is_blank v = false) values.
Definition indexed (tags : tag_list) (name v : string) : Prop :=
  ∃ first values, first :: values ∈ tags ∧ trim first = name ∧ v ∈ values.

Lemma index_values_Ok values : ∀ entry,
  index_values values entry =
  if existsb is_blank values then Err EmptyValue else Ok (extend_unique entry values).
Proof.
  induction values as [|v values IH]; intros entry; simpl; [done|].
  destruct (is_blank v); simpl; [done|]. apply IH.
Qed.

Lemma index_tag_Ok m t m' :
  index_tag m t = Ok m' ↔
  indexable t ∧ ∃ first values, t = first :: values ∧
    m' = <[trim first := extend_unique (default [] (m !! trim first)) values]> m.
Proof.
  unfold index_tag, indexable. destruct t as [|first values]; [naive_solver|].
  change (is_empty (trim first)) with (is_blank first).
  destruct (is_blank first) eqn:Hf.
  { split; [done|]. intros [(f & vs & [= <- <-] & ? & _) _]. congruence. }
  rewrite index_values_Ok. destruct (existsb is_blank values) eqn:Hv; simpl.
  - split; [done|]. intros [(f & vs & [= <- <-] & _ & Hb) _].
    apply existsb_true in Hv as (v & Hin & Hv). rewrite Forall_forall in Hb.
    rewrite Hb in Hv; done.
  - split.
    + intros [= <-]. split; [|eauto]. exists first, values. split_and!; [done..|].
      apply Forall_forall. by apply existsb_false.
    + by intros [_ (f & vs & [= <- <-] & ->)].
Qed.

Lemma index_fold tags : ∀ m m',
  try_fold index_tag m tags = Ok m' →
  Forall indexable tags ∧
  ∀ name v, v ∈ default [] (m' !! name) ↔ v ∈ default [] (m !! name) ∨ indexed tags name v.
Proof.
  induction tags as [|t tags IH]; intros m m'; cbn [try_fold].
  { intros [= <-]. split; [apply Forall_nil_2|]. intros name v. split; [auto|].
    intros [?|(? & ? & ?%not_elem_of_nil & _)]; done. }
  destruct (index_tag m t) as [m1|] eqn:E; [|done]. intros [Hok Hin]%IH.
  apply index_tag_Ok in E as [Hi (first & values & -> & ->)].
  split; [by constructor|]. intros name v. rewrite Hin. unfold indexed.
  setoid_rewrite elem_of_cons.
  destruct (decide (trim first = name)) as [<-|Hn].
  - rewrite lookup_insert_eq. simpl. rewrite elem_of_extend_unique. split.
    + intros [[?|?]|(f & vs & ? & ? & ?)]; eauto 10.
    + intros [?|(f & vs & [[= -> ->]|?] & ? & ?)]; eauto 10.
  - rewrite lookup_insert_ne by done. split.
    + intros [?|(f & vs & ? & ? & ?)]; eauto 10.
    + intros [?|(f & vs & [[= -> ->]|?] & ? & ?)]; [by auto|done|by eauto 10].
Qed.

Lemma index_total tags : Forall indexable tags → ∀ m, ∃ m', try_fold index_tag m tags = Ok m'.
Proof.
  induction 1 as [|t tags Ht _ IH]; intros m; cbn [try_fold]; [by eexists|].
  pose proof Ht as (first & values & -> & _).
  assert (index_tag m (first :: values) =
    Ok (<[trim first := extend_unique (default [] (m !! trim first)) values]> m)) as ->; [|apply IH].
  apply index_tag_Ok. eauto 10.
Qed.

Lemma from_tags_indexable tags : is_ok (TagIndex_from_tags tags) = true ↔ Forall indexable tags.
Proof.
  unfold TagIndex_from_tags. split.
  - destruct (try_fold _ _ _) as [m|] eqn:E; [|done]. intros _. by apply index_fold in E as [? _].
  - intros Ht. destruct (index_total tags Ht ∅) as [m ->]. done.
Qed.

Lemma from_tags_values tags idx :
  TagIndex_from_tags tags = Ok idx →
  ∀ name v, v ∈ default [] (idx !! name) ↔ indexed tags name v.
Proof.
  intros [_ Hin]%index_fold name v. rewrite Hin, lookup_empty. simpl. rewrite elem_of_nil. tauto.
Qed.

Lemma gate_false {A} (l : list A) (b : bool) : negb (is_nil l) && negb b = false ↔ l = [] ∨ b = true.
Proof. destruct l, b; simpl; naive_solver. Qed.

Lemma any_prefix_true ps s : any_prefix ps s = true ↔ ∃ p, p ∈ ps ∧ starts_with p s = true.
Proof. apply existsb_true. Qed.

Lemma if_false_true (b : bool) (k : bool) : (if b then false else k) = true ↔ b = false ∧ k = true.
Proof. destruct b; naive_solver. Qed.

(** What a filter selects, on the tags of the event themselves. *)
Definition selects (f : Filter) (e : NostrEvent) : Prop :=
  (f_ids f = [] ∨ ∃ p, p ∈ f_ids f ∧ starts_with p (ev_id e) = true) ∧
  (f_authors f = [] ∨ ∃ p, p ∈ f_authors f ∧ starts_with p (ev_pubkey e) = true) ∧
  (f_kinds f = [] ∨ ev_kind e ∈ f_kinds f) ∧
  (∀ since, f_since f = Some since → (since ≤ ev_created_at e)%Z) ∧
  (∀ until, f_until f = Some until → (ev_created_at e ≤ until)%Z) ∧
  (∀ name values, f_tags f !! name = Some values →
     ∃ v, v ∈ values ∧ indexed (ev_tags e) name v).

Lemma matches_selects f e idx :
  TagIndex_from_tags (ev_tags e) = Ok idx → matches f e idx = true ↔ selects f e.
Proof.
  intros Hidx. unfold matches, selects.
  rewrite !if_false_true, !gate_false, !any_prefix_true, existsb_true, forallb_true.
  setoid_rewrite bool_decide_eq_true.
  assert ((∃ x, x ∈ f_kinds f ∧ x = ev_kind e) ↔ ev_kind e ∈ f_kinds f) as -> by naive_solver.
  assert (match f_since f with Some s => bool_decide (ev_created_at e < s)%Z | None => false end = false
    ↔ ∀ s, f_since f = Some s → (s ≤ ev_created_at e)%Z) as ->.
  { destruct (f_since f); [|naive_solver]. rewrite bool_decide_eq_false, Z.nlt_ge. naive_solver. }
  assert (match f_until f with Some u => bool_decide (ev_created_at e > u)%Z | None => false end = false
    ↔ ∀ u, f_until f = Some u → (ev_created_at e ≤ u)%Z) as ->.
  { destruct (f_until f); [|naive_solver].
    rewrite bool_decide_eq_false, Z.gt_lt_iff, Z.nlt_ge. naive_solver. }
  do 5 f_equiv. setoid_rewrite <-(from_tags_values _ _ Hidx). unfold tag_index_values. split.
  - intros Hall name values Hl. specialize (Hall (name, values)). simpl in Hall.
    destruct (idx !! name) as [existing|] eqn:E; [|by apply elem_of_btree_iter in Hl; apply Hall in Hl].
    apply elem_of_btree_iter, Hall, existsb_true in Hl as (v & Hv & (x & Hx & ->%String.eqb_eq)%existsb_true).
    eauto.
  - intros Hall [name values] Hl%elem_of_btree_iter. simpl.
    destruct (Hall name values Hl) as (v & Hv & Hx). destruct (idx !! name) as [existing|]; simpl in *.
    + apply existsb_true. exists v. split; [done|]. apply existsb_true. exists v.
      split; [done|]. by apply String.eqb_eq.
    + by apply not_elem_of_nil in Hx.
Qed.

Lemma check_tags_Ok p tags :
  check_tags p tags = Ok tt ↔
  Forall (λ t, (Z.of_nat (length t - 1) ≤ p_max_tag_values p)%Z ∧
               Forall (λ v, (len v ≤ p_max_tag_value_len p)%Z) (drop 1 t)) tags.
Proof.
  induction tags as [|t tags IH]; cbn [check_tags]; [split; auto|].
  rewrite Forall_cons, !bind_Ok_unit, fail_if_Ok, check_each_Ok, IH.
  setoid_rewrite bool_decide_eq_false. setoid_rewrite Z.gt_lt_iff. setoid_rewrite Z.nlt_ge. tauto.
Qed.

(** ** Properties *)

(** An event that [verify] accepts carries the hash of its own content as
    its id, 64 hexadecimal digits, and a signature of that hash which its
    public key verifies. *)
Lemma verified_event `{JsonLib} `{HexLaws} `{CryptoLaws} e :
  verify e = Ok tt →
  ev_id e = compute_id e ∧ String.length (ev_id e) = 64 ∧ all_hexdigit (ev_id e) = true ∧
  ∃ sig pk, signature_from_str (ev_sig e) = Some sig ∧ xonly_from_str (ev_pubkey e) = Some pk ∧
    verify_schnorr sig (sha256 (canonical_json e)) pk = true.
Proof.
  unfold verify. destruct (String.eqb_spec (ev_id e) (hex_encode (sha256 (canonical_json e))))
    as [Hid|]; [|done].
  simpl. intros (sig & Hs%ok_or_Ok & (pk & Hp%ok_or_Ok & Hv)%bind_Ok)%bind_Ok.
  split; [done|]. rewrite Hid. split; [by rewrite hex_encode_length, sha256_length|].
  split; [apply hex_encode_digits|]. exists sig, pk. by destruct (verify_schnorr _ _ _).
Qed.

(** A printer, a digest of 32 bytes and a signature check that accepts all. *)
Definition sample_json_lib : JsonLib :=
  {| json_from_str _ := None; json_to_string _ := "[0]" |}.
Definition sample_digest : string := "0123456789abcdef0123456789abcdef".
Definition sample_crypto_lib : CryptoLib := {|
  Signature := string; XOnlyPublicKey := string;
  sha256 _ := sample_digest;
  signature_from_str s := Some s; xonly_from_str s := Some s;
  verify_schnorr _ _ _ := true
|}.
#[export] Instance sample_crypto_laws : @CryptoLaws sample_crypto_lib.
Proof. constructor. done. Qed.
Definition sample_signed_event : NostrEvent :=
  mkNostrEvent (@hex_encode hex_model sample_digest) "bb" 10 1 [] "" "".

Lemma verified_event_witness :
  let _ := sample_json_lib in let _ := hex_model in let _ := sample_crypto_lib in
  verify sample_signed_event = Ok tt ∧ String.length (ev_id sample_signed_event) = 64.
Proof.
  intros J X C. split; [vm_compute; reflexivity|].
  apply (@verified_event J X hex_model_laws C sample_crypto_laws sample_signed_event).
  vm_compute. reflexivity.
Defined.

(** On an event whose tags can be indexed, a filter matches exactly the
    events it selects: id and author prefixes, kinds, the time window with both
    ends included, and for every tag name of the filter one of its values. *)
Lemma filter_matches_spec f e :
  Forall indexable (ev_tags e) →
  ∃ idx, TagIndex_from_tags (ev_tags e) = Ok idx ∧ (matches f e idx = true ↔ selects f e).
Proof.
  intros Ht. apply from_tags_indexable in Ht.
  destruct (TagIndex_from_tags (ev_tags e)) as [idx|] eqn:E; [|done].
  exists idx. split; [done|]. by apply matches_selects.
Qed.

Definition sample_event : NostrEvent :=
  mkNostrEvent "aa" "bb" 10 1 [["e"; "x"]] "" "".

Lemma filter_matches_spec_witness :
  ∃ idx, TagIndex_from_tags (ev_tags sample_event) = Ok idx ∧
    (matches (mkFilter ["a"] [] [1%Z] None None None {[ "e" := ["x"; "y"] ]}) sample_event idx = true
     ↔ selects (mkFilter ["a"] [] [1%Z] None None None {[ "e" := ["x"; "y"] ]}) sample_event).
Proof.
  apply (filter_matches_spec _ sample_event).
  constructor; [|constructor]. exists "e", ["x"].
  split; [reflexivity|]. split; [vm_compute; reflexivity|].
  constructor; [vm_compute; reflexivity|constructor].
Defined.

(** A kind in a filter is read modulo 2^32: [4294967297] selects the
    events of kind 1. *)
Lemma filter_kinds_truncated (n : Z) f :
  Filter_from_json (JObject [("kinds", JArray [JPosInt n])]) = Ok f →
  f_kinds f = [(n mod 2 ^ 32)%Z].
Proof. simpl. by intros [= <-]. Qed.

Example filter_kind_wraps :
  f_kinds (mkFilter [] [] [1%Z] None None None ∅) = [(4294967297 mod 2 ^ 32)%Z].
Proof. apply (filter_kinds_truncated 4294967297). vm_compute. reflexivity. Qed.

(** An event passes the policy exactly when its content, its number of
    tags, their numbers of values and the length of each value are within the
    limits and its timestamp is at most [max_future_seconds] ahead, as long as
    the clock plus that margin fits in an [i64]. *)
Lemma policy_accepts_iff p e now :
  (i64_min ≤ now + p_max_future_seconds p ≤ i64_max)%Z →
  validate_event p e now = Ok tt ↔
  (len (ev_content e) ≤ p_max_content_len p)%Z ∧
  (Z.of_nat (length (ev_tags e)) ≤ p_max_tags p)%Z ∧
  Forall (λ t, (Z.of_nat (length t - 1) ≤ p_max_tag_values p)%Z ∧
               Forall (λ v, (len v ≤ p_max_tag_value_len p)%Z) (drop 1 t)) (ev_tags e) ∧
  (ev_created_at e ≤ now + p_max_future_seconds p)%Z.
Proof.
  intros Hr. unfold validate_event. rewrite wrap_i64_id by done.
  rewrite !bind_Ok_unit, !fail_if_Ok, check_tags_Ok, !bool_decide_eq_false, !Z.gt_lt_iff, !Z.nlt_ge.
  tauto.
Qed.

Lemma policy_accepts_iff_witness :
  validate_event Policy_default sample_event 0 = Ok tt.
Proof.
  apply (policy_accepts_iff Policy_default sample_event 0); [vm_compute; split; discriminate|].
  split_and!; [vm_compute; discriminate..| |vm_compute; discriminate].
  constructor; [|constructor]. split; [vm_compute; discriminate|].
  constructor; [vm_compute; discriminate|constructor].
Defined.
