(* ===== verification/RelayStore.v ===== *)
(** * [RelayStore]: the relay's event store

    Models the [EventStore] trait of [services/relay/src/store.rs] and its
    in-memory implementation [MemoryStore], whose operations run under a write
    lock and are therefore single steps on its state. *)

From S2P Require Import Prelude RustStr CoreTypes RelayEvent.

Inductive StoreOutcome := Inserted | Duplicate.
Inductive StoreError := Backend (message : string).

Definition StoreError_display (e : StoreError) : string :=
  match e with Backend message => "store error: " +:+ message end.

(** ** Replaceable keys *)

Record ReplaceableKey := mkReplaceableKey {
  rk_kind : Z;
  rk_pubkey : string;
  rk_identifier : option string
}.

#[export] Instance ReplaceableKey_eq_dec : EqDecision ReplaceableKey.
Proof. solve_decision. Defined.
#[export] Instance ReplaceableKey_countable : Countable ReplaceableKey.
Proof.
  apply (inj_countable' (λ k, (rk_kind k, rk_pubkey k, rk_identifier k))
    (λ p, mkReplaceableKey p.1.1 p.1.2 p.2)). by intros [].
Defined.

Definition is_replaceable_kind (kind : Z) : bool :=
  bool_decide (kind = 0%Z) || bool_decide (kind = 3%Z) || in_range 10000 19999 kind.
Definition is_parameterized_replaceable_kind (kind : Z) : bool := in_range 30000 39999 kind.

Definition replaceable_key (e : NostrEvent) : option ReplaceableKey :=
  if is_replaceable_kind (ev_kind e) then Some (mkReplaceableKey (ev_kind e) (ev_pubkey e) None)
  else if is_parameterized_replaceable_kind (ev_kind e) then
    match collect_tag_values (ev_tags e) "d" with
    | [] => None
    | identifier :: _ => Some (mkReplaceableKey (ev_kind e) (ev_pubkey e) (Some identifier))
    end
  else None.

Definition parse_address (value : string) : option ReplaceableKey :=
  match split ":" value with
  | kind_part :: rest =>
      if is_empty kind_part then None
      else
        kind ← parse_u32 kind_part;
        pubkey ← rest !! 0;
        Some (mkReplaceableKey kind pubkey (rest !! 1))
  | [] => None
  end.

(** ** [MemoryStore] *)

Record MemoryStore := mkMemoryStore {
  ms_events : gmap string NostrEvent;
  ms_replaceable : gmap ReplaceableKey string
}.

Definition MemoryStore_new : MemoryStore := mkMemoryStore ∅ ∅.

Definition remove_event (st : MemoryStore) (id : string) : bool * MemoryStore :=
  match ms_events st !! id with
  | None => (false, st)
  | Some event =>
      (true, mkMemoryStore (delete id (ms_events st))
        match replaceable_key event with
        | Some key => delete key (ms_replaceable st)
        | None => ms_replaceable st
        end)
  end.

(** [existing.pubkey == event.pubkey && existing.created_at <= event.created_at] *)
Definition may_delete (event existing : NostrEvent) : bool :=
  (ev_pubkey existing == ev_pubkey event)
  && bool_decide (ev_created_at existing ≤ ev_created_at event)%Z.

Definition delete_target (event : NostrEvent) (st : MemoryStore) (target : string) : MemoryStore :=
  match ms_events st !! target with
  | Some existing => if may_delete event existing then (remove_event st target).2 else st
  | None => st
  end.

Definition delete_address (event : NostrEvent) (st : MemoryStore) (address : string) : MemoryStore :=
  match parse_address address with
  | None => st
  | Some key =>
      match ms_replaceable st !! key with
      | None => st
      | Some existing_id => delete_target event st existing_id
      end
  end.

Definition apply_delete (st : MemoryStore) (event : NostrEvent) : MemoryStore :=
  let st := foldl (delete_target event) st (collect_tag_values (ev_tags event) "e") in
  foldl (delete_address event) st (collect_tag_values (ev_tags event) "a").

Definition KIND_DELETE : Z := 5.

(** The replaceable part of [insert]: [None] when a newer event is kept. *)
Definition replace_existing (st : MemoryStore) (event : NostrEvent) : option MemoryStore :=
  match replaceable_key event with
  | None => Some st
  | Some key =>
      match ms_replaceable st !! key with
      | None => Some (mkMemoryStore (ms_events st) (<[key := ev_id event]> (ms_replaceable st)))
      | Some existing_id =>
          let newer :=
            match ms_events st !! existing_id with
            | Some existing => bool_decide (ev_created_at event ≤ ev_created_at existing)%Z
            | None => false
            end in
          if newer then None
          else
            let st := (remove_event st existing_id).2 in
            Some (mkMemoryStore (ms_events st) (<[key := ev_id event]> (ms_replaceable st)))
      end
  end.

Definition memory_insert (st : MemoryStore) (event : NostrEvent) : StoreOutcome * MemoryStore :=
  if is_some (ms_events st !! ev_id event) then (Duplicate, st)
  else
    let st := if bool_decide (ev_kind event = KIND_DELETE) then apply_delete st event else st in
    match replace_existing st event with
    | None => (Duplicate, st)
    | Some st => (Inserted, mkMemoryStore (<[ev_id event := event]> (ms_events st)) (ms_replaceable st))
    end.

Definition memory_get (st : MemoryStore) (id : string) : option NostrEvent := ms_events st !! id.

Definition memory_delete (st : MemoryStore) (id : string) : bool * MemoryStore := remove_event st id.

(** Newest first, then by id. *)
Definition event_before (l r : NostrEvent) : Prop :=
  (ev_created_at r < ev_created_at l)%Z ∨
  ev_created_at l = ev_created_at r ∧ String.le (ev_id l) (ev_id r).
#[export] Instance event_before_dec : RelDecision event_before.
Proof. intros l r. unfold event_before. apply _. Defined.

Definition sort_events (l : list NostrEvent) : list NostrEvent := merge_sort event_before l.

Definition ordered (st : MemoryStore) : list NostrEvent :=
  sort_events ((btree_iter (ms_events st)).*2).

Record query_state := mkQueryState { q_seen : gset string; q_results : list NostrEvent }.

(** The loop of one filter over the ordered events; [None] for [remaining] is [u64::MAX]. *)
Fixpoint scan (f : Filter) (events : list NostrEvent) (remaining : Z) (q : query_state)
    : result StoreError query_state :=
  match events with
  | [] => Ok q
  | event :: events =>
      if bool_decide (remaining = 0%Z) then Ok q
      else if bool_decide (ev_id event ∈ q_seen q) then scan f events remaining q
      else
        tags ← map_err (λ err, Backend (TagError_display err)) (TagIndex_from_tags (ev_tags event));
        if matches f event tags then
          scan f events (Z.max 0 (remaining - 1))
            (mkQueryState ({[ ev_id event ]} ∪ q_seen q) (q_results q ++ [event]))
        else scan f events remaining q
  end.

Definition memory_query (st : MemoryStore) (filters : list Filter)
    : result StoreError (list NostrEvent) :=
  match filters with
  | [] => Ok []
  | _ =>
      q_results <$> try_fold (λ q f, scan f (ordered st) (default u64_max (f_limit f)) q)
                      (mkQueryState ∅ []) filters
  end.

(** ** The [EventStore] trait

    An operation returns its result and the state it leaves, also when it
    fails. *)

Class EventStore (S : Type) := {
  store_insert : S → NostrEvent → result StoreError StoreOutcome * S;
  store_get : S → string → result StoreError (option NostrEvent);
  store_delete : S → string → result StoreError bool * S;
  store_query : S → list Filter → result StoreError (list NostrEvent)
}.

#[export] Instance MemoryStore_EventStore : EventStore MemoryStore := {|
  store_insert st e := (Ok (memory_insert st e).1, (memory_insert st e).2);
  store_get st id := Ok (memory_get st id);
  store_delete st id := (Ok (memory_delete st id).1, (memory_delete st id).2);
  store_query st fs := memory_query st fs
|}.

(** The states a store reaches. *)
Inductive store_step (st : MemoryStore) : MemoryStore → Prop :=
| step_insert e : store_step st (memory_insert st e).2
| step_delete id : store_step st (memory_delete st id).2.

Definition store_reachable (st : MemoryStore) : Prop := rtc store_step MemoryStore_new st.

(** ** Invariant *)

Record store_inv (st : MemoryStore) : Prop := {
  inv_id : ∀ id e, ms_events st !! id = Some e → ev_id e = id;
  inv_replaceable : ∀ key id, ms_replaceable st !! key = Some id →
    ∃ e, ms_events st !! id = Some e ∧ replaceable_key e = Some key;
  inv_complete : ∀ id e key, ms_events st !! id = Some e → replaceable_key e = Some key →
    ms_replaceable st !! key = Some id
}.

(** ** Lemmas *)

Lemma store_inv_new : store_inv MemoryStore_new.
Proof. split; simpl; intros *; rewrite lookup_empty; done. Qed.

Lemma remove_event_inv st id : store_inv st → store_inv (remove_event st id).2.
Proof.
  intros [Hid Hr Hc]. unfold remove_event. destruct (ms_events st !! id) as [e|] eqn:He; [|done].
  split; simpl.
  - intros id' e' [_ ?]%lookup_delete_Some. eauto.
  - intros key id' Hk.
    assert (id' ≠ id ∧ ms_replaceable st !! key = Some id') as [Hne Hk'].
    { destruct (replaceable_key e) as [k|] eqn:Ek.
      - apply lookup_delete_Some in Hk as [Hne Hk]. split; [|done]. intros ->.
        destruct (Hr _ _ Hk) as (e' & ? & ?). simplify_eq.
      - split; [|done]. intros ->. destruct (Hr _ _ Hk) as (e' & ? & ?). simplify_eq. }
    destruct (Hr _ _ Hk') as (e' & ? & ?). exists e'. by rewrite lookup_delete_ne.
  - intros id' e' key [Hne He']%lookup_delete_Some Hk. pose proof (Hc _ _ _ He' Hk) as Hl.
    destruct (replaceable_key e) as [k|] eqn:Ek; [|done].
    rewrite lookup_delete_ne; [done|]. intros ->.
    pose proof (Hc _ _ _ He Ek). congruence.
Qed.

Lemma remove_event_lookup st id id' :
  ms_events (remove_event st id).2 !! id' =
  if bool_decide (id' = id) then None else ms_events st !! id'.
Proof.
  unfold remove_event. destruct (ms_events st !! id) as [e|] eqn:He; simpl.
  - case_bool_decide as Hd; [subst; apply lookup_delete_eq|by rewrite lookup_delete_ne].
  - case_bool_decide; congruence.
Qed.

Lemma delete_target_inv e st t : store_inv st → store_inv (delete_target e st t).
Proof.
  intros Hst. unfold delete_target. destruct (ms_events st !! t); [|done].
  destruct (may_delete _ _); [by apply remove_event_inv|done].
Qed.

Lemma delete_address_inv e st a : store_inv st → store_inv (delete_address e st a).
Proof.
  intros Hst. unfold delete_address. destruct (parse_address a); [|done].
  destruct (ms_replaceable st !! _); [by apply delete_target_inv|done].
Qed.

Lemma foldl_inv {A B} (P : A → Prop) (f : A → B → A) l a :
  (∀ a b, P a → P (f a b)) → P a → P (foldl f a l).
Proof. intros Hf. revert a. induction l as [|b l IH]; intros a Ha; simpl; auto. Qed.

Lemma apply_delete_inv st e : store_inv st → store_inv (apply_delete st e).
Proof.
  intros Hst. unfold apply_delete.
  apply foldl_inv; [intros; by apply delete_address_inv|].
  apply foldl_inv; [intros; by apply delete_target_inv|done].
Qed.

(** *** Insertion *)

Lemma delete_target_lookup e st t id x :
  ms_events (delete_target e st t) !! id = Some x ↔
  ms_events st !! id = Some x ∧ ¬ (id = t ∧ may_delete e x = true).
Proof.
  unfold delete_target. destruct (ms_events st !! t) as [y|] eqn:Hy.
  - destruct (may_delete e y) eqn:Hm.
    + rewrite remove_event_lookup. case_bool_decide as Hd; [|naive_solver]. subst id.
      rewrite Hy. split; [done|]. intros [[= ->] Hn]. exfalso. auto.
    + split; [|tauto]. intros Hx. split; [done|]. intros [-> Hmx]. congruence.
  - split; [|tauto]. intros Hx. split; [done|]. intros [-> _]. congruence.
Qed.

Lemma delete_address_lookup e st a id x :
  store_inv st →
  ms_events (delete_address e st a) !! id = Some x ↔
  ms_events st !! id = Some x ∧
  ¬ (∃ k, parse_address a = Some k ∧ replaceable_key x = Some k ∧ may_delete e x = true).
Proof.
  intros [Hid Hr Hc]. unfold delete_address. destruct (parse_address a) as [k|]; [|naive_solver].
  destruct (ms_replaceable st !! k) as [eid|] eqn:Hk.
  - rewrite delete_target_lookup. destruct (Hr _ _ Hk) as (y & Hy & Hky).
    split; intros [Hx Hn]; (split; [done|]).
    + intros (k' & [= <-] & Hkx & Hm). apply Hn. split; [|done].
      pose proof (Hc _ _ _ Hx Hkx). congruence.
    + intros [-> Hm]. apply Hn. exists k. split; [done|]. split; [|done]. congruence.
  - split; [|tauto]. intros Hx. split; [done|]. intros (k' & [= <-] & Hkx & _).
    pose proof (Hc _ _ _ Hx Hkx). congruence.
Qed.

(** A loop of deletions removes what one of its steps removes. *)
Lemma fold_deletes {B} (f : MemoryStore → B → MemoryStore) (P : B → string → NostrEvent → Prop) l :
  (∀ st b, store_inv st → store_inv (f st b)) →
  (∀ st b id x, store_inv st →
     ms_events (f st b) !! id = Some x ↔ ms_events st !! id = Some x ∧ ¬ P b id x) →
  ∀ st id x, store_inv st →
  ms_events (foldl f st l) !! id = Some x ↔
  ms_events st !! id = Some x ∧ ¬ (∃ b, b ∈ l ∧ P b id x).
Proof.
  intros Hinv Hf. induction l as [|b l IH]; intros st id x Hst; simpl.
  - split; [|tauto]. intros Hx. split; [done|]. intros (b & ?%not_elem_of_nil & _). done.
  - rewrite IH, Hf by auto. setoid_rewrite elem_of_cons. split.
    + intros ((? & Hb) & Hl). split; [done|]. intros (c & [->|?] & ?); eauto.
    + intros (? & Hn). split_and!; [done|..].
      * intros ?. apply Hn. eauto.
      * intros (c & ? & ?). apply Hn. eauto.
Qed.

(** What a deletion event may delete: older events of the same author that it
    names by id or by address. *)
Definition deletes (e x : NostrEvent) : Prop :=
  ev_pubkey x = ev_pubkey e ∧ (ev_created_at x ≤ ev_created_at e)%Z ∧
  (ev_id x ∈ collect_tag_values (ev_tags e) "e" ∨
   ∃ a k, a ∈ collect_tag_values (ev_tags e) "a" ∧ parse_address a = Some k ∧
     replaceable_key x = Some k).

Lemma may_delete_true e x :
  may_delete e x = true ↔ ev_pubkey x = ev_pubkey e ∧ (ev_created_at x ≤ ev_created_at e)%Z.
Proof. unfold may_delete. by rewrite andb_true_iff, String.eqb_eq, bool_decide_eq_true. Qed.

Lemma apply_delete_lookup st e id x :
  store_inv st →
  ms_events (apply_delete st e) !! id = Some x ↔ ms_events st !! id = Some x ∧ ¬ deletes e x.
Proof.
  intros Hst. unfold apply_delete, deletes. rewrite (assoc and), <-may_delete_true.
  rewrite (fold_deletes (delete_address e)
    (λ a id x, ∃ k, parse_address a = Some k ∧ replaceable_key x = Some k ∧ may_delete e x = true));
    [|intros; by apply delete_address_inv|intros; by apply delete_address_lookup|].
  2:{ apply foldl_inv; [intros; by apply delete_target_inv|done]. }
  rewrite (fold_deletes (delete_target e) (λ t id x, id = t ∧ may_delete e x = true));
    [|intros; by apply delete_target_inv|intros; apply delete_target_lookup|done].
  split.
  - intros ((Hx & H1) & H2). split; [done|]. pose proof (inv_id _ Hst _ _ Hx) as Hid.
    intros [Hm [He|(a & k & Ha & Hp & Hk)]].
    + apply H1. exists (ev_id x). auto.
    + apply H2. exists a. eauto.
  - intros (Hx & Hn). pose proof (inv_id _ Hst _ _ Hx) as Hid. split_and!; [done|..].
    + intros (t & Ht & -> & Hm). apply Hn. split; [done|]. left. by rewrite Hid.
    + intros (a & Ha & k & Hp & Hk & Hm). apply Hn. split; [done|]. right. eauto.
Qed.

(** Putting a new event and its key into a store without either. *)
Lemma add_event_inv st e :
  store_inv st → ms_events st !! ev_id e = None →
  (∀ k, replaceable_key e = Some k → ms_replaceable st !! k = None) →
  store_inv (mkMemoryStore (<[ev_id e := e]> (ms_events st))
    match replaceable_key e with
    | Some k => <[k := ev_id e]> (ms_replaceable st)
    | None => ms_replaceable st
    end).
Proof.
  intros [Hid Hr Hc] Hnew Hkey. split; simpl.
  - intros id x [[<- <-]|[_ ?]]%lookup_insert_Some; eauto.
  - intros key id Hk. destruct (replaceable_key e) as [k|] eqn:Ek.
    + apply lookup_insert_Some in Hk as [[<- <-]|[_ Hk]].
      * exists e. by rewrite lookup_insert_eq.
      * destruct (Hr _ _ Hk) as (y & Hy & ?). exists y. split; [|done].
        rewrite lookup_insert_ne; [done|congruence].
    + destruct (Hr _ _ Hk) as (y & Hy & ?). exists y. split; [|done].
      rewrite lookup_insert_ne; [done|congruence].
  - intros id x key [[<- <-]|[Hne Hx]]%lookup_insert_Some Hk.
    + rewrite Hk. apply lookup_insert_eq.
    + pose proof (Hc _ _ _ Hx Hk) as Hl. destruct (replaceable_key e) as [k|]; [|done].
      rewrite lookup_insert_ne; [done|]. intros ->. rewrite (Hkey key eq_refl) in Hl. done.
Qed.

(** The store just before the new event is added: deletions applied, the event
    it replaces removed. *)
Definition base_store (st : MemoryStore) (e : NostrEvent) : MemoryStore :=
  if bool_decide (ev_kind e = KIND_DELETE) then apply_delete st e else st.

(** The stored event with the same replaceable key. *)
Definition rival (st : MemoryStore) (e x : NostrEvent) : Prop :=
  ms_events st !! ev_id x = Some x ∧
  ∃ k, replaceable_key e = Some k ∧ replaceable_key x = Some k.

Lemma delete_kind_not_replaceable e : ev_kind e = KIND_DELETE → replaceable_key e = None.
Proof. intros Hk. unfold replaceable_key. by rewrite Hk. Qed.

Lemma base_store_inv st e : store_inv st → store_inv (base_store st e).
Proof. intros Hst. unfold base_store. case_bool_decide; [by apply apply_delete_inv|done]. Qed.

Lemma base_store_new st e :
  store_inv st → ms_events st !! ev_id e = None → ms_events (base_store st e) !! ev_id e = None.
Proof.
  intros Hst Hn. unfold base_store. case_bool_decide; [|done]. apply eq_None_not_Some.
  intros [x Hx]. apply apply_delete_lookup in Hx as [? _]; [|done]. congruence.
Qed.

Lemma rival_indexed st e x k :
  store_inv st → replaceable_key e = Some k → rival st e x →
  ms_replaceable st !! k = Some (ev_id x).
Proof.
  intros Hst Hk (Hx & k' & Hk1 & Hk2). assert (k' = k) as -> by congruence.
  by apply (inv_complete _ Hst _ x).
Qed.

(** Adding an event to the events that have no part in [Q]. *)
Lemma add_event_lookup (m base : gmap string NostrEvent) e (Q : NostrEvent → Prop) :
  m !! ev_id e = None → (∀ id x, m !! id = Some x ↔ base !! id = Some x ∧ ¬ Q x) →
  ∀ id x, <[ev_id e := e]> m !! id = Some x ↔
    x = e ∧ id = ev_id e ∨ base !! id = Some x ∧ ¬ Q x.
Proof.
  intros Hn Hm id x. rewrite lookup_insert_Some, <-Hm. split.
  - intros [[<- <-]|[_ ?]]; auto.
  - intros [[-> ->]|Hx]; [auto|]. right. split; [congruence|done].
Qed.

(** The three ways an insertion ends. *)
Lemma memory_insert_cases st e :
  store_inv st →
  (∃ x, ms_events st !! ev_id e = Some x ∧ memory_insert st e = (Duplicate, st)) ∨
  ms_events st !! ev_id e = None ∧
  ((∃ x, rival st e x ∧ (ev_created_at e ≤ ev_created_at x)%Z ∧
      memory_insert st e = (Duplicate, st)) ∨
   (∀ x, rival st e x → (ev_created_at x < ev_created_at e)%Z) ∧
   ∃ st', memory_insert st e = (Inserted, st') ∧ store_inv st' ∧
     (∀ id x, ms_events st' !! id = Some x ↔
        x = e ∧ id = ev_id e ∨
        ms_events (base_store st e) !! id = Some x ∧ ¬ rival st e x)).
Proof.
  intros Hst. unfold memory_insert. fold (base_store st e).
  destruct (ms_events st !! ev_id e) as [x|] eqn:He; simpl; [by left; eauto|].
  right. split; [done|].
  pose proof (base_store_inv st e Hst) as Hb. pose proof (base_store_new st e Hst He) as Hn.
  unfold replace_existing. destruct (replaceable_key e) as [k|] eqn:Hk.
  2:{ assert (∀ x, ¬ rival st e x) as Hno by (intros x (_ & k & ? & _); congruence).
      right. split; [intros x ?%Hno; done|]. eexists. split; [done|]. split.
      - pose proof (add_event_inv _ _ Hb Hn) as Ha. rewrite Hk in Ha. by apply Ha.
      - apply add_event_lookup; [done|]. intros id x. specialize (Hno x). tauto. }
  assert (base_store st e = st) as Hbase.
  { unfold base_store. case_bool_decide as Hd; [|done].
    apply delete_kind_not_replaceable in Hd. congruence. }
  rewrite Hbase in *. destruct (ms_replaceable st !! k) as [eid|] eqn:Hr.
  - destruct (inv_replaceable _ Hst _ _ Hr) as (y & Hy & Hky). rewrite Hy.
    pose proof (inv_id _ Hst _ _ Hy) as Hidy.
    assert (∀ x, rival st e x → ev_id x = eid ∧ x = y) as Huniq.
    { intros x Hx. pose proof (rival_indexed _ _ _ _ Hst Hk Hx). destruct Hx as [Hx _].
      split; congruence. }
    assert (rival st e y) as Hry by (split; [by rewrite Hidy|eauto]).
    case_bool_decide as Hnew; [left; eauto|]. right.
    split; [intros x [_ ->]%Huniq; lia|]. eexists. split; [done|]. split.
    + pose proof (add_event_inv (remove_event st eid).2 e) as Ha. rewrite Hk in Ha. apply Ha.
      * by apply remove_event_inv.
      * rewrite remove_event_lookup. by case_bool_decide.
      * intros k' [= <-]. unfold remove_event. rewrite Hy. simpl. rewrite Hky. apply lookup_delete_eq.
    + apply add_event_lookup; simpl; [rewrite remove_event_lookup; by case_bool_decide|].
      intros id x. rewrite remove_event_lookup. case_bool_decide as Hd.
      * split; [done|]. intros [Hx Hnr]. subst id. rewrite Hy in Hx. by injection Hx as <-.
      * split; [|tauto]. intros Hx. split; [done|]. intros [? _]%Huniq.
        pose proof (inv_id _ Hst _ _ Hx). congruence.
  - assert (∀ x, ¬ rival st e x) as Hno.
    { intros x Hx. pose proof (rival_indexed _ _ _ _ Hst Hk Hx). congruence. }
    right. split; [intros x ?%Hno; done|]. eexists. split; [done|]. split.
    + pose proof (add_event_inv _ _ Hst He) as Ha. rewrite Hk in Ha. apply Ha. naive_solver.
    + apply add_event_lookup; [done|]. intros id x. specialize (Hno x). tauto.
Qed.

Lemma memory_insert_inv st e : store_inv st → store_inv (memory_insert st e).2.
Proof.
  intros Hst. destruct (memory_insert_cases st e Hst)
    as [(x & _ & ->)|[_ [(x & _ & _ & ->)|[_ (st' & -> & ? & _)]]]]; done.
Qed.

Lemma reachable_inv st : store_reachable st → store_inv st.
Proof.
  intros Hr. refine (rtc_ind_r store_inv MemoryStore_new store_inv_new _ st Hr).
  intros x y _ [e|id] Hx; [by apply memory_insert_inv|by apply remove_event_inv].
Qed.

(** *** Queries *)

(** The filter as a test on events; [false] on tags that cannot be indexed. *)
Definition sel (f : Filter) (e : NostrEvent) : bool :=
  match TagIndex_from_tags (ev_tags e) with Ok idx => matches f e idx | Err _ => false end.

Lemma sel_selects f e : Forall indexable (ev_tags e) → sel f e = true ↔ selects f e.
Proof.
  intros Ht. apply from_tags_indexable in Ht. unfold sel.
  destruct (TagIndex_from_tags (ev_tags e)) eqn:E; [|done]. by apply matches_selects.
Qed.

(** The events of a filter that were not returned before. *)
Definition fresh_hits (f : Filter) (done : list NostrEvent) (evs : list NostrEvent)
    : list NostrEvent :=
  List.filter (λ e, negb (bool_decide (ev_id e ∈ ev_id <$> done)) && sel f e) evs.

(** The query without its loops: per filter, the first [limit] fresh hits. *)
Definition reference_query (evs : list NostrEvent) (filters : list Filter) : list NostrEvent :=
  foldl (λ acc f, acc ++ take (Z.to_nat (default u64_max (f_limit f))) (fresh_hits f acc evs))
    [] filters.

Lemma fresh_hits_snoc f acc e evs :
  ev_id e ∉ ev_id <$> evs → fresh_hits f (acc ++ [e]) evs = fresh_hits f acc evs.
Proof.
  intros Hn. unfold fresh_hits. apply filter_ext_in. intros x Hx%list_elem_of_In.
  f_equal. f_equal. apply bool_decide_ext. rewrite fmap_app. simpl.
  rewrite elem_of_app, list_elem_of_singleton. split; [|auto]. intros [?|Heq]; [done|].
  exfalso. apply Hn. rewrite <-Heq. by apply list_elem_of_fmap_2.
Qed.

Lemma scan_reference f evs : ∀ rem q acc,
  Forall (λ e, Forall indexable (ev_tags e)) evs → NoDup (ev_id <$> evs) → (0 ≤ rem)%Z →
  q_results q = acc → q_seen q = list_to_set (ev_id <$> acc) →
  ∃ q', scan f evs rem q = Ok q' ∧
    q_results q' = acc ++ take (Z.to_nat rem) (fresh_hits f acc evs) ∧
    q_seen q' = list_to_set (ev_id <$> q_results q').
Proof.
  induction evs as [|e evs IH]; intros rem q acc Hix Hnd Hrem Hres Hseen; cbn [scan].
  { exists q. split; [done|]. simpl. rewrite take_nil, app_nil_r. by subst. }
  apply Forall_cons in Hix as [He Hix]. apply NoDup_cons in Hnd as [Hni Hnd].
  case_bool_decide as H0.
  { subst rem. exists q. rewrite app_nil_r. by subst. }
  unfold fresh_hits. cbn [List.filter]. fold (fresh_hits f acc evs). rewrite Hseen.
  assert (bool_decide (ev_id e ∈ (list_to_set (ev_id <$> acc) : gset string))
    = bool_decide (ev_id e ∈ ev_id <$> acc)) as ->
    by (apply bool_decide_ext; apply elem_of_list_to_set).
  destruct (bool_decide (ev_id e ∈ ev_id <$> acc)) eqn:Hin; cbn [negb andb]; [by apply IH|].
  apply from_tags_indexable in He. unfold sel at 1.
  destruct (TagIndex_from_tags (ev_tags e)) as [idx|]; [|done]. cbn [map_err mbind result_bind].
  destruct (matches f e idx); [|by apply IH].
  destruct (IH (Z.max 0 (rem - 1)) (mkQueryState ({[ev_id e]} ∪ list_to_set (ev_id <$> acc))
    (q_results q ++ [e])) (acc ++ [e])) as (q' & Hq & Hr & Hs); [done..|lia|by rewrite Hres| |].
  { simpl. rewrite fmap_app, list_to_set_app_L. simpl. set_solver. }
  exists q'. split; [done|]. split; [|done]. rewrite Hr, fresh_hits_snoc, <-app_assoc by done.
  f_equal. replace (Z.to_nat rem) with (S (Z.to_nat (Z.max 0 (rem - 1)))) by lia. done.
Qed.

#[export] Instance event_before_trans : Transitive event_before.
Proof.
  intros x y z [Hxy|[Hxy Hxy']] [Hyz|[Hyz Hyz']]; unfold event_before; [lia..|].
  right. split; [congruence|]. by etrans.
Qed.
#[export] Instance event_before_total : Total event_before.
Proof.
  intros x y. unfold event_before.
  destruct (Z.lt_trichotomy (ev_created_at x) (ev_created_at y)) as [?|[?|?]]; [auto..| |auto].
  destruct (total String.le (ev_id x) (ev_id y)); auto.
Qed.

Lemma elem_of_ordered st e :
  store_inv st → e ∈ ordered st ↔ ms_events st !! ev_id e = Some e.
Proof.
  intros Hst. unfold ordered, sort_events. rewrite merge_sort_Permutation, list_elem_of_fmap. split.
  - intros ([k x] & -> & Hx%elem_of_btree_iter). simpl. by rewrite (inv_id _ Hst _ _ Hx).
  - intros He. exists (ev_id e, e). split; [done|]. by apply elem_of_btree_iter.
Qed.

Lemma NoDup_ordered st : store_inv st → NoDup (ev_id <$> ordered st).
Proof.
  intros Hst. unfold ordered, sort_events. rewrite merge_sort_Permutation.
  rewrite <-list_fmap_compose.
  assert (ev_id ∘ snd <$> btree_iter (ms_events st) = (btree_iter (ms_events st)).*1) as ->.
  { apply list_fmap_ext. intros i [k x] Hkx. simpl.
    apply list_elem_of_lookup_2, elem_of_btree_iter in Hkx. by apply (inv_id _ Hst). }
  rewrite btree_iter_perm. apply NoDup_fst_map_to_list.
Qed.

Lemma ordered_sorted st : StronglySorted event_before (ordered st).
Proof. apply StronglySorted_merge_sort; apply _. Qed.

(** Limits are unsigned. *)
Definition limits_ok (fs : list Filter) : Prop :=
  Forall (λ f, ∀ n, f_limit f = Some n → (0 ≤ n)%Z) fs.

Lemma query_fold_reference evs fs : ∀ q acc,
  Forall (λ e, Forall indexable (ev_tags e)) evs → NoDup (ev_id <$> evs) → limits_ok fs →
  q_results q = acc → q_seen q = list_to_set (ev_id <$> acc) →
  ∃ q', try_fold (λ q f, scan f evs (default u64_max (f_limit f)) q) q fs = Ok q' ∧
    q_results q' = foldl (λ acc f,
      acc ++ take (Z.to_nat (default u64_max (f_limit f))) (fresh_hits f acc evs)) acc fs.
Proof.
  induction fs as [|f fs IH]; intros q acc Hix Hnd Hl Hr Hs; cbn [try_fold]; [by exists q|].
  apply Forall_cons in Hl as [Hl Hls].
  destruct (scan_reference f evs (default u64_max (f_limit f)) q acc) as (q1 & Hq1 & Hr1 & Hs1);
    [done..| |done|done|].
  { destruct (f_limit f); simpl; [by apply Hl|]. by compute. }
  rewrite Hq1. apply IH; [done..|]. by rewrite Hs1, Hr1.
Qed.

Lemma memory_query_reference st fs :
  store_inv st → limits_ok fs →
  (∀ id e, ms_events st !! id = Some e → Forall indexable (ev_tags e)) →
  memory_query st fs = Ok (reference_query (ordered st) fs).
Proof.
  intros Hst Hl Hix. destruct fs as [|f fs]; [done|].
  change (memory_query st (f :: fs)) with (q_results <$> try_fold
    (λ q f, scan f (ordered st) (default u64_max (f_limit f)) q) (mkQueryState ∅ []) (f :: fs)).
  destruct (query_fold_reference (ordered st) (f :: fs) (mkQueryState ∅ []) [])
    as (q & -> & Hq); [|by apply NoDup_ordered|done..|].
  - apply Forall_forall. intros e He%elem_of_ordered; eauto.
  - simpl. by rewrite Hq.
Qed.

Lemma elem_of_fresh_hits f acc evs e :
  e ∈ fresh_hits f acc evs ↔ e ∈ evs ∧ ev_id e ∉ ev_id <$> acc ∧ sel f e = true.
Proof.
  unfold fresh_hits. rewrite list_elem_of_In, filter_In, <-list_elem_of_In.
  rewrite andb_true_iff, negb_true_iff, bool_decide_eq_false. tauto.
Qed.

Lemma NoDup_fresh_hits f acc evs : NoDup (ev_id <$> evs) → NoDup (ev_id <$> fresh_hits f acc evs).
Proof.
  induction evs as [|e evs IH]; [done|]. unfold fresh_hits. cbn [List.filter].
  fold (fresh_hits f acc evs). rewrite fmap_cons, NoDup_cons. intros [Hn Hnd].
  destruct (_ && _); [|auto]. rewrite fmap_cons, NoDup_cons. split; [|auto].
  intros (x & Hx & [Hin _]%elem_of_fresh_hits)%list_elem_of_fmap. apply Hn. rewrite Hx.
  by apply list_elem_of_fmap_2.
Qed.

(** Results are stored events selected by some filter, each once. *)
Lemma reference_sound evs fs : ∀ acc,
  NoDup (ev_id <$> evs) → NoDup (ev_id <$> acc) →
  let res := foldl (λ acc f,
    acc ++ take (Z.to_nat (default u64_max (f_limit f))) (fresh_hits f acc evs)) acc fs in
  NoDup (ev_id <$> res) ∧
  (∀ e, e ∈ res → e ∈ acc ∨ e ∈ evs ∧ ∃ f, f ∈ fs ∧ sel f e = true) ∧ (∀ e, e ∈ acc → e ∈ res).
Proof.
  induction fs as [|f fs IH]; intros acc Hevs Hacc; simpl; [naive_solver|].
  set (new := take _ (fresh_hits f acc evs)).
  assert (∀ e, e ∈ new → e ∈ evs ∧ ev_id e ∉ ev_id <$> acc ∧ sel f e = true) as Hnew.
  { intros e He. apply elem_of_fresh_hits. subst new. eapply elem_of_take in He as (i & Hi & _).
    by eapply list_elem_of_lookup_2. }
  destruct (IH (acc ++ new)) as (H1 & H2 & H3); [done| |].
  - rewrite fmap_app. apply NoDup_app. split; [done|]. split.
    + intros x Hx (e & -> & He)%list_elem_of_fmap. by apply Hnew in He as (_ & ? & _).
    + subst new. rewrite fmap_take. eapply sublist_NoDup; [|apply sublist_take].
      by apply NoDup_fresh_hits.
  - split; [done|]. setoid_rewrite elem_of_app in H2. setoid_rewrite elem_of_app in H3.
    setoid_rewrite elem_of_cons. split; [|eauto].
    intros e [[?|(?&?&?)%Hnew]|(?&g&?&?)]%H2; eauto 10.
Qed.

Lemma id_determines evs x y :
  NoDup (ev_id <$> evs) → x ∈ evs → y ∈ evs → ev_id x = ev_id y → x = y.
Proof.
  intros Hnd (i & Hi)%list_elem_of_lookup (j & Hj)%list_elem_of_lookup Heq.
  assert (i = j) as ->; [|congruence].
  apply (NoDup_lookup _ i j (ev_id x) Hnd); rewrite list_lookup_fmap, ?Hi, ?Hj; simpl; congruence.
Qed.

(** With room for all of them, no selected event is left out. *)
Lemma reference_complete evs fs e f : ∀ acc,
  NoDup (ev_id <$> evs) → (∀ x, x ∈ acc → x ∈ evs) → NoDup (ev_id <$> acc) →
  Forall (λ g, (Z.of_nat (length evs) ≤ default u64_max (f_limit g))%Z) fs →
  e ∈ evs → f ∈ fs → sel f e = true →
  e ∈ foldl (λ acc f,
    acc ++ take (Z.to_nat (default u64_max (f_limit f))) (fresh_hits f acc evs)) acc fs.
Proof.
  induction fs as [|g fs IH]; intros acc Hevs Hsub Hacc Hroom He Hf Hsel; simpl.
  { by apply not_elem_of_nil in Hf. }
  apply Forall_cons in Hroom as [Hg Hroom].
  rewrite take_ge.
  2:{ assert (length (fresh_hits g acc evs) ≤ length evs); [|lia].
      apply filter_length_le. }
  assert (NoDup (ev_id <$> acc ++ fresh_hits g acc evs)) as Hnd.
  { rewrite fmap_app. apply NoDup_app. split; [done|]. split; [|by apply NoDup_fresh_hits].
    intros x Hx (y & -> & (_ & ? & _)%elem_of_fresh_hits)%list_elem_of_fmap. done. }
  apply elem_of_cons in Hf as [->|Hf].
  - apply (reference_sound evs fs (acc ++ fresh_hits g acc evs)); [done..|].
    apply elem_of_app. destruct (decide (ev_id e ∈ ev_id <$> acc)) as [Hin|Hin].
    + left. apply list_elem_of_fmap in Hin as (x & Hx & Hin).
      by rewrite (id_determines evs e x) by auto.
    + right. by apply elem_of_fresh_hits.
  - apply IH; try done. intros x [?|[? _]%elem_of_fresh_hits]%elem_of_app; auto.
Qed.

(** An event whose tags cannot be indexed stops a scan that reaches it. *)
Lemma scan_poisoned f evs : ∀ rem q e,
  e ∈ evs → ¬ Forall indexable (ev_tags e) → NoDup (ev_id <$> evs) →
  (∀ x, x ∈ evs → ev_id x ∉ q_seen q) → (Z.of_nat (length evs) ≤ rem)%Z →
  is_ok (scan f evs rem q) = false.
Proof.
  induction evs as [|x evs IH]; intros rem q e He Hbad Hnd Hseen Hrem; [by apply not_elem_of_nil in He|].
  cbn [scan length] in *. apply NoDup_cons in Hnd as [Hx Hnd].
  rewrite bool_decide_eq_false_2 by lia. rewrite bool_decide_eq_false_2 by (apply Hseen; set_solver).
  destruct (TagIndex_from_tags (ev_tags x)) as [idx|] eqn:E; [|done]. simpl.
  assert (e ∈ evs) as Hin.
  { apply elem_of_cons in He as [->|]; [|done]. exfalso. apply Hbad, from_tags_indexable. by rewrite E. }
  destruct (matches f x idx); eapply IH; try done; try lia; simpl.
  - intros y Hy. rewrite elem_of_union, elem_of_singleton. intros [Heq|Hs].
    + apply Hx. rewrite <-Heq. by apply list_elem_of_fmap_2.
    + revert Hs. apply Hseen. set_solver.
  - set_solver.
Qed.

(** ** Properties *)

(** C17: in every state a store can reach, events are filed under their ids,
    the replaceable index points to stored events with that key and to all of
    them, and so at most one stored event has a given replaceable key. *)
Theorem store_reachable_inv st :
  store_reachable st →
  store_inv st ∧
  ∀ x y k, ms_events st !! ev_id x = Some x → ms_events st !! ev_id y = Some y →
    replaceable_key x = Some k → replaceable_key y = Some k → x = y.
Proof.
  intros Hst%reachable_inv. split; [done|]. intros x y k Hx Hy Hkx Hky.
  pose proof (inv_complete _ Hst _ _ _ Hx Hkx). pose proof (inv_complete _ Hst _ _ _ Hy Hky).
  congruence.
Qed.

Definition sample_state_event (id : string) (t : Z) : NostrEvent :=
  mkNostrEvent id "alice" t 30618 [["d"; "repo"]] "" "".

Lemma store_reachable_inv_witness :
  store_inv (memory_insert (memory_insert MemoryStore_new (sample_state_event "a" 1)).2
    (sample_state_event "b" 2)).2.
Proof.
  apply (store_reachable_inv (memory_insert (memory_insert MemoryStore_new
    (sample_state_event "a" 1)).2 (sample_state_event "b" 2)).2).
  eapply rtc_r; [eapply rtc_r; [apply rtc_refl|apply step_insert]|apply step_insert].
Defined.

(** Inserting an event that is not stored yet succeeds exactly when every
    stored event with the same replaceable key is strictly older; it then
    replaces that event, and the stored event with the key is the newest of
    the two either way. *)
Lemma replaceable_newest_wins st e k :
  store_reachable st → ms_events st !! ev_id e = None → replaceable_key e = Some k →
  ((memory_insert st e).1 = Inserted ↔ ∀ x, rival st e x → (ev_created_at x < ev_created_at e)%Z) ∧
  ∃ x, ms_replaceable (memory_insert st e).2 !! k = Some (ev_id x) ∧
    ms_events (memory_insert st e).2 !! ev_id x = Some x ∧
    (ev_created_at e ≤ ev_created_at x)%Z ∧ ((memory_insert st e).1 = Inserted → x = e).
Proof.
  intros Hst%reachable_inv Hnew Hk.
  destruct (memory_insert_cases st e Hst)
    as [(x & ? & _)|[_ [(x & Hx & Hle & ->)|[Hall (st' & -> & Hst' & Hev)]]]]; [congruence|..]; simpl.
  - split; [split; [done|intros Hall; apply Hall in Hx; lia]|].
    exists x. pose proof Hx as (Hx1 & k' & ? & Hk'). assert (k' = k) as -> by congruence.
    split_and!; try done. by apply (inv_complete _ Hst _ _ _ Hx1).
  - split; [done|]. exists e.
    assert (ms_events st' !! ev_id e = Some e) as He by (apply Hev; auto).
    split_and!; try done. by apply (inv_complete _ Hst' _ _ _ He).
Qed.

Lemma replaceable_newest_wins_witness :
  (memory_insert (memory_insert MemoryStore_new (sample_state_event "a" 2)).2
     (sample_state_event "b" 1)).1 = Inserted ↔
  ∀ x, rival (memory_insert MemoryStore_new (sample_state_event "a" 2)).2
         (sample_state_event "b" 1) x → (ev_created_at x < 1)%Z.
Proof.
  apply (replaceable_newest_wins (memory_insert MemoryStore_new (sample_state_event "a" 2)).2
    (sample_state_event "b" 1) (mkReplaceableKey 30618 "alice" (Some "repo"))).
  - eapply rtc_r; [apply rtc_refl|apply step_insert].
  - vm_compute. reflexivity.
  - vm_compute. reflexivity.
Defined.

(** A deletion event removes exactly the stored events of its own author
    that are not newer than it and that it names by id or by address, and is
    stored itself; nobody can delete another author's events. *)
Lemma deletion_removes_own st e :
  store_reachable st → ms_events st !! ev_id e = None → ev_kind e = KIND_DELETE →
  ∀ id x, ms_events (memory_insert st e).2 !! id = Some x ↔
    x = e ∧ id = ev_id e ∨ ms_events st !! id = Some x ∧ ¬ deletes e x.
Proof.
  intros Hst%reachable_inv Hnew Hkind id x.
  pose proof (delete_kind_not_replaceable e Hkind) as Hnk.
  assert (∀ y, ¬ rival st e y) as Hno by (intros y (_ & k & ? & _); congruence).
  destruct (memory_insert_cases st e Hst)
    as [(y & ? & _)|[_ [(y & Hy & _)|[_ (st' & -> & _ & Hev)]]]]; [congruence|by apply Hno in Hy|].
  simpl. rewrite Hev. unfold base_store. rewrite bool_decide_eq_true_2 by done.
  rewrite apply_delete_lookup by done. specialize (Hno x). tauto.
Qed.

Definition sample_delete : NostrEvent :=
  mkNostrEvent "d" "alice" 9 5 [["a"; "30618:alice:repo"]] "" "".

Lemma deletion_removes_own_witness :
  deletes sample_delete (sample_state_event "a" 2) ∧
  ¬ (ms_events (memory_insert (memory_insert MemoryStore_new (sample_state_event "a" 2)).2
      sample_delete).2 !! "a" = Some (sample_state_event "a" 2)).
Proof.
  assert (deletes sample_delete (sample_state_event "a" 2)) as Hd.
  { split; [reflexivity|]. split; [vm_compute; discriminate|]. right. exists "30618:alice:repo". eexists.
    split; [vm_compute; left|]. split; vm_compute; reflexivity. }
  split; [exact Hd|]. intros Hx.
  apply (deletion_removes_own (memory_insert MemoryStore_new (sample_state_event "a" 2)).2
    sample_delete) in Hx.
  - destruct Hx as [[Hx _]|[_ Hx]]; [discriminate|exact (Hx Hd)].
  - eapply rtc_r; [apply rtc_refl|apply step_insert].
  - vm_compute. reflexivity.
  - vm_compute. reflexivity.
Defined.

(** The newest events come first; events of the same time are in the order of their ids. *)
Definition events_newest_first (l : list NostrEvent) : Prop :=
  ∀ i j a b, i < j → l !! i = Some a → l !! j = Some b →
    (ev_created_at b < ev_created_at a)%Z ∨
    ev_created_at a = ev_created_at b ∧ String.le (ev_id a) (ev_id b) ∧ ev_id a ≠ ev_id b.

Lemma ordered_newest_first st : store_inv st → events_newest_first (ordered st).
Proof.
  intros Hst i j a b Hij Ha Hb.
  assert (ev_id a ≠ ev_id b) as Hne.
  { intros E. pose proof (NoDup_lookup _ i j (ev_id a) (NoDup_ordered st Hst)) as Hx.
    rewrite !list_lookup_fmap, Ha, Hb in Hx. simpl in Hx. rewrite E in Hx. specialize (Hx eq_refl eq_refl). lia. }
  assert (event_before a b) as [?|[??]]; [|by left|by right].
  pose proof (ordered_sorted st) as Hs. revert i j Hij Ha Hb.
  induction Hs as [|x l _ IH Hx]; intros [|i] [|j] Hij Ha Hb; simplify_eq/=; try lia.
  - rewrite Forall_forall in Hx. by eapply Hx, list_elem_of_lookup_2.
  - eapply (IH i j); [lia|done..].
Qed.

(** C15: a query, with unsigned limits, on a reachable store whose events all
    have indexable tags returns the reference result: filter by filter, the
    first [limit] of the stored events, in the order newest first and then by
    id, that the filter selects and no earlier filter returned.  So every
    result is a stored event selected by some filter, no event comes twice,
    and with room in the limits none is left out. *)
Theorem query_refines_reference st fs :
  store_reachable st → limits_ok fs →
  (∀ id e, ms_events st !! id = Some e → Forall indexable (ev_tags e)) →
  ∃ stored,
    (∀ e, e ∈ stored ↔ ms_events st !! ev_id e = Some e) ∧ events_newest_first stored ∧
    (∀ f e, e ∈ stored → sel f e = true ↔ selects f e) ∧
    memory_query st fs = Ok (reference_query stored fs) ∧
    NoDup (ev_id <$> reference_query stored fs) ∧
    (∀ e, e ∈ reference_query stored fs →
       ms_events st !! ev_id e = Some e ∧ ∃ f, f ∈ fs ∧ selects f e) ∧
    (Forall (λ f, (Z.of_nat (length stored) ≤ default u64_max (f_limit f))%Z) fs →
     ∀ e f, ms_events st !! ev_id e = Some e → f ∈ fs → selects f e →
       e ∈ reference_query stored fs).
Proof.
  intros Hst%reachable_inv Hl Hix. pose proof (NoDup_ordered st Hst) as Hnd.
  destruct (reference_sound (ordered st) fs [] Hnd) as (H1 & H2 & _); [by apply NoDup_nil_2|].
  exists (ordered st).
  split_and!; [intros e; by apply elem_of_ordered|by apply ordered_newest_first| |by apply memory_query_reference|done|..].
  - intros f e He%elem_of_ordered; [|done]. apply sel_selects. eauto.
  - intros e He. apply H2 in He as [?%not_elem_of_nil|[He (f & Hf & Hsel)]]; [done|].
    apply elem_of_ordered in He; [|done]. split; [done|]. exists f. split; [done|].
    apply sel_selects; eauto.
  - intros Hroom e f He Hf Hsel. apply (reference_complete (ordered st) fs e f []); try done.
    + intros x ?%not_elem_of_nil. done.
    + by apply NoDup_nil_2.
    + by apply elem_of_ordered.
    + apply sel_selects; eauto.
Qed.

Lemma query_refines_reference_witness :
  ∃ stored, events_newest_first stored ∧
    memory_query (memory_insert MemoryStore_new (sample_state_event "a" 2)).2 [empty_filter]
    = Ok (reference_query stored [empty_filter]).
Proof.
  destruct (query_refines_reference (memory_insert MemoryStore_new (sample_state_event "a" 2)).2
    [empty_filter]) as (stored & _ & Hn & _ & Hq & _).
  - eapply rtc_r; [apply rtc_refl|apply step_insert].
  - constructor; [discriminate|constructor].
  - intros id e He.
    change ((<["a" := sample_state_event "a" 2]> ∅ : gmap string NostrEvent) !! id = Some e) in He.
    apply lookup_insert_Some in He as [[_ <-]|[_ He]].
    + constructor; [|constructor]. exists "d", ["repo"]. split; [reflexivity|].
      split; [vm_compute; reflexivity|]. constructor; [vm_compute; reflexivity|constructor].
    + rewrite lookup_empty in He. discriminate.
  - exists stored. split; [exact Hn|exact Hq].
Defined.

(** One stored event with a tag that cannot be indexed (an empty value,
    as in the tags [e, id, "", root] that this system writes itself) makes
    every query fail whose first filter has a limit no less than the number of
    stored events: the insertion does not check what the query requires. *)
Lemma query_poisoned st f fs e :
  store_reachable st → ms_events st !! ev_id e = Some e → ¬ Forall indexable (ev_tags e) →
  (Z.of_nat (length (ordered st)) ≤ default u64_max (f_limit f))%Z →
  is_ok (memory_query st (f :: fs)) = false.
Proof.
  intros Hst%reachable_inv He Hbad Hlim. cbn -[ordered scan u64_max].
  assert (is_ok (scan f (ordered st) (default u64_max (f_limit f)) (mkQueryState ∅ [])) = false) as Hs.
  { apply (scan_poisoned _ _ _ _ e); [by apply elem_of_ordered|done|by apply NoDup_ordered| |done].
    intros x _. apply not_elem_of_empty. }
  destruct (scan _ _ _ _); done.
Qed.

Definition sample_status : NostrEvent :=
  mkNostrEvent "s" "alice" 3 1630 [["e"; "root"; ""; "root"]] "" "".

Lemma query_poisoned_witness :
  is_ok (memory_query (memory_insert MemoryStore_new sample_status).2 [empty_filter]) = false.
Proof.
  apply (query_poisoned (memory_insert MemoryStore_new sample_status).2 empty_filter []
    sample_status).
  - eapply rtc_r; [apply rtc_refl|apply step_insert].
  - vm_compute. reflexivity.
  - intros Hf%from_tags_indexable. vm_compute in Hf. discriminate.
  - vm_compute. discriminate.
Defined.
