(* ===== verification/Membership.v ===== *)
(** * [Membership]: relay memberships and invitations

    Models [crates/storage/src/relay_membership.rs], the error type of
    [error.rs], and the [RelayMembershipRepository] trait of
    [repositories.rs] with its in-memory implementation.  The trait is a class
    of operations; [RelayMembershipLaws] states what its clients rely on, and
    the in-memory repository is proved to meet it. *)

From S2P Require Import Prelude RustStr Externals Nip34Common HexModel.

(** ** [error.rs]; the [source] of an error is its text. *)

Inductive StorageError :=
| StInvalidConnectionString (value source : string)
| StInvalidPoolConfig (field : string) (value : Z)
| StInvalidField (field value : string)
| StInvalidHex (field value : string)
| StSerialization (field source : string)
| StInternal (message : string)
| StMigration (message : string)
| StDatabase (source : string).

Definition StorageError_display (e : StorageError) : string :=
  match e with
  | StInvalidConnectionString value source => "invalid connection string " +:+ value +:+ ": " +:+ source
  | StInvalidPoolConfig field value => "invalid pool config " +:+ field +:+ ": " +:+ pretty value
  | StInvalidField field value => "invalid " +:+ field +:+ ": " +:+ value
  | StInvalidHex field value => "invalid hex " +:+ field +:+ ": " +:+ value
  | StSerialization field source => "invalid " +:+ field +:+ ": " +:+ source
  | StInternal message => "internal error: " +:+ message
  | StMigration message => "migration error: " +:+ message
  | StDatabase source => "database error: " +:+ source
  end.

(** ** [relay_membership.rs] *)

Definition HEX_32_LEN : nat := 64.
Definition MAX_ROLE_LEN : nat := 40.
Definition MAX_STATUS_LEN : nat := 40.
Definition MAX_INVITE_CODE_LEN : nat := 120.

Record RelayMembershipRecord := mkRelayMembershipRecord {
  mr_tenant_id : string;
  mr_pubkey : bytes;
  mr_role : string;
  mr_status : string;
  mr_created_at : Z;
  mr_updated_at : Z
}.

Record RelayInviteRecord := mkRelayInviteRecord {
  iv_tenant_id : string;
  iv_invite_code : string;
  iv_role : string;
  iv_inviter_pubkey : bytes;
  iv_invitee_pubkey : option bytes;
  iv_expires_at : option Z;
  iv_created_at : Z
}.

Definition too_long (n : nat) (s : string) : bool := is_blank s || (n <? String.length s).

Section Records.
Context `{HexLib}.

Definition decode_hex_32 (field value : string) : result StorageError bytes :=
  if negb (bool_decide (String.length value = HEX_32_LEN)) then Err (StInvalidHex field value)
  else ok_or (StInvalidHex field value) (hex_decode value).

Definition RelayMembershipRecord_new (tenant_id pubkey role status : string)
    (created_at updated_at : Z) : result StorageError RelayMembershipRecord :=
  _ ← fail_if (is_blank tenant_id) (StInvalidField "tenant_id" "empty");
  _ ← fail_if (too_long MAX_ROLE_LEN role) (StInvalidField "role" role);
  _ ← fail_if (too_long MAX_STATUS_LEN status) (StInvalidField "status" status);
  _ ← fail_if (bool_decide (updated_at < created_at)%Z)
        (StInvalidField "updated_at" (pretty updated_at));
  pubkey ← decode_hex_32 "pubkey" pubkey;
  Ok (mkRelayMembershipRecord tenant_id pubkey role status created_at updated_at).

Definition RelayInviteRecord_new (tenant_id invite_code role inviter_pubkey : string)
    (invitee_pubkey : option string) (expires_at : option Z) (created_at : Z)
    : result StorageError RelayInviteRecord :=
  _ ← fail_if (is_blank tenant_id) (StInvalidField "tenant_id" "empty");
  _ ← fail_if (too_long MAX_INVITE_CODE_LEN invite_code) (StInvalidField "invite_code" invite_code);
  _ ← fail_if (too_long MAX_ROLE_LEN role) (StInvalidField "role" role);
  _ ← check_opt (λ e, bool_decide (e < created_at)%Z) (λ e, StInvalidField "expires_at" (pretty e))
        expires_at;
  inviter_pubkey ← decode_hex_32 "inviter_pubkey" inviter_pubkey;
  invitee_pubkey ← match invitee_pubkey with
                   | Some pubkey => Some <$> decode_hex_32 "invitee_pubkey" pubkey
                   | None => Ok None
                   end;
  Ok (mkRelayInviteRecord tenant_id invite_code role inviter_pubkey invitee_pubkey expires_at
        created_at).
End Records.

(** ** The trait [RelayMembershipRepository] *)

Class RelayMembershipRepository (M : Type) := {
  upsert_membership : M → RelayMembershipRecord → result StorageError unit * M;
  membership_by_pubkey : M → string → bytes → result StorageError (option RelayMembershipRecord);
  list_memberships : M → string → result StorageError (list RelayMembershipRecord);
  remove_membership : M → string → bytes → result StorageError bool * M;
  insert_invite : M → RelayInviteRecord → result StorageError unit * M;
  invite_by_code : M → string → string → result StorageError (option RelayInviteRecord);
  delete_invite : M → string → string → result StorageError unit * M
}.

(** What a session relies on: memberships and invitations are maps that the
    writes update at their key and leave alone elsewhere. *)
Class RelayMembershipLaws (M : Type) `{RelayMembershipRepository M} : Prop := {
  upsert_lookup : ∀ m r m' t p o, upsert_membership m r = (Ok tt, m') →
    membership_by_pubkey m' t p = Ok o ↔
    if bool_decide (t = mr_tenant_id r ∧ p = mr_pubkey r) then o = Some r
    else membership_by_pubkey m t p = Ok o;
  upsert_invites : ∀ m r m' t c, upsert_membership m r = (Ok tt, m') →
    invite_by_code m' t c = invite_by_code m t c;
  delete_invite_gone : ∀ m m' t c, delete_invite m t c = (Ok tt, m') → invite_by_code m' t c = Ok None;
  delete_invite_memberships : ∀ m m' t c t' p, delete_invite m t c = (Ok tt, m') →
    membership_by_pubkey m' t' p = membership_by_pubkey m t' p;
  insert_invite_lookup : ∀ m r m', insert_invite m r = (Ok tt, m') →
    invite_by_code m' (iv_tenant_id r) (iv_invite_code r) = Ok (Some r);
  insert_invite_memberships : ∀ m r m' t p, insert_invite m r = (Ok tt, m') →
    membership_by_pubkey m' t p = membership_by_pubkey m t p
}.

(** ** The in-memory repository *)

Record MemoryMembership := mkMemoryMembership {
  mm_memberships : gmap string RelayMembershipRecord;
  mm_invites : gmap string RelayInviteRecord
}.

Section InMemory.
Context `{HexLib} `{HashOrder}.

Definition membership_key (tenant_id : string) (pubkey : bytes) : string :=
  tenant_id +:+ ":" +:+ hex_encode pubkey.
Definition invite_key (invite_code : string) : string := invite_code.

#[export] Instance MemoryMembership_repository : RelayMembershipRepository MemoryMembership := {|
  upsert_membership m r :=
    (Ok tt, mkMemoryMembership
      (<[membership_key (mr_tenant_id r) (mr_pubkey r) := r]> (mm_memberships m))
      (mm_invites m));
  membership_by_pubkey m t p := Ok (mm_memberships m !! membership_key t p);
  list_memberships m t :=
    Ok (List.filter (λ r, mr_tenant_id r == t) (hash_iter (mm_memberships m)).*2);
  remove_membership m t p :=
    (Ok (is_some (mm_memberships m !! membership_key t p)),
     mkMemoryMembership (delete (membership_key t p) (mm_memberships m)) (mm_invites m));
  insert_invite m r :=
    (Ok tt, mkMemoryMembership (mm_memberships m)
      (<[invite_key (iv_invite_code r) := r]> (mm_invites m)));
  invite_by_code m t c :=
    Ok (r ← mm_invites m !! c; if iv_tenant_id r == t then Some r else None);
  delete_invite m t c :=
    (Ok tt,
     match mm_invites m !! c with
     | Some r =>
         if iv_tenant_id r == t
         then mkMemoryMembership (mm_memberships m) (delete c (mm_invites m)) else m
     | None => m
     end)
|}.
End InMemory.

(** ** Lemmas *)

(** Hexadecimal digits have no colon, so the last colon of a key separates. *)
Lemma str_last_sep c t1 h1 t2 h2 :
  contains_char c h1 = false → contains_char c h2 = false →
  t1 +:+ String c h1 = t2 +:+ String c h2 → t1 = t2 ∧ h1 = h2.
Proof.
  intros H1 H2 Heq.
  assert (∀ t h h', contains_char c h' = false → String c h' = t +:+ String c h → t = "" ∧ h' = h)
    as Hx.
  { intros t h h' Hh' E. destruct t as [|a t].
    - rewrite str_app_nil_l in E. by injection E.
    - rewrite str_app_cons in E. injection E as -> E. rewrite E, contains_char_app, contains_char_cons in Hh'.
      rewrite bool_decide_eq_true_2 in Hh' by done. by rewrite orb_true_r in Hh'. }
  apply str_app_split in Heq as [(x & -> & Hr)|(a & x & -> & Hr)].
  - apply Hx in Hr as [-> ->]; [|done]. by rewrite str_app_nil_r.
  - apply Hx in Hr as [Hnil _]; done.
Qed.

Section KeyLemmas.
Context `{HexLaws}.

Lemma membership_key_inj t1 p1 t2 p2 :
  membership_key t1 p1 = membership_key t2 p2 → t1 = t2 ∧ p1 = p2.
Proof.
  unfold membership_key. intros E.
  assert (∀ p, contains_char ":" (hex_encode p) = false) as Hc.
  { intros p. apply hex_no_colon, hex_encode_digits. }
  apply str_last_sep in E as [-> E]; [|apply Hc..]. split; [done|]. by apply (inj hex_encode).
Qed.

#[export] Instance MemoryMembership_laws `{HashOrder} : RelayMembershipLaws MemoryMembership.
Proof.
  constructor; simpl.
  - intros m r m' t p o [= <-]. simpl. case_bool_decide as Hk.
    + destruct Hk as [-> ->]. rewrite lookup_insert_eq. naive_solver.
    + rewrite lookup_insert_ne; [done|]. intros E. apply membership_key_inj in E. naive_solver.
  - by intros m r m' t c [= <-].
  - intros m m' t c [= <-]. f_equal. destruct (mm_invites m !! c) as [r|] eqn:E.
    + destruct (iv_tenant_id r == t) eqn:Ht; simpl; [by rewrite lookup_delete_eq|].
      rewrite E. simpl. by rewrite Ht.
    + by rewrite E.
  - intros m m' t c t' p [= <-]. by repeat case_match.
  - intros m r m' [= <-]. simpl. unfold invite_key. rewrite lookup_insert_eq. simpl.
    by rewrite String.eqb_refl.
  - by intros m r m' t p [= <-].
Qed.
End KeyLemmas.
