(* ===== verification/NostrAuth.v ===== *)
(** * [NostrAuth]: requests signed with NIP-98 events

    Models [crates/app-core/src/nip98.rs], with which a client signs the
    authorisation of an HTTP request, [crates/nostr-auth/src/lib.rs], with which
    the services check it, and the helpers of [crates/app-core/src/lib.rs].
    What a signed event must satisfy to be accepted is stated exactly, and a
    client that signs the request it sends is shown to be accepted. *)

From S2P Require Import Prelude RustStr CoreTypes Externals HexModel Nip34Common.

(** ** The crates: [from_slice] of [secp256k1], signing with [k256], [bech32::encode] *)

Class SchnorrSlices `{CryptoLib} := {
  signature_from_slice : bytes → option Signature;
  xonly_from_slice : bytes → option XOnlyPublicKey
}.

Class K256Lib := {
  SigningKey : Type;
  signing_key_from_bytes : bytes → option SigningKey;
  verifying_key_bytes : SigningKey → bytes;
  sign_prehash : SigningKey → bytes → bytes
}.

(** Both crates implement BIP-340: a verifying key has 32 bytes, a signature
    64, and what one signs the other verifies. *)
Class Bip340Laws `{SchnorrSlices} `{K256Lib} : Prop := {
  verifying_key_length : ∀ k, String.length (verifying_key_bytes k) = 32;
  signature_length : ∀ k m, String.length m = 32 → String.length (sign_prehash k m) = 64;
  signed_verifies : ∀ k m, String.length m = 32 → ∃ sig pk,
    signature_from_slice (sign_prehash k m) = Some sig ∧
    xonly_from_slice (verifying_key_bytes k) = Some pk ∧
    verify_schnorr sig m pk = true
}.

Class Bech32Encode := { bech32_encode : string → bytes → option string }.

(** ** [app-core/src/lib.rs] *)

Inductive AppCoreError :=
| AcInvalidPubkey
| AcInvalidSecretKey
| AcInvalidEventEncoding (message : string)
| AcInvalidSignature.

Definition AppCoreError_display (e : AppCoreError) : string :=
  match e with
  | AcInvalidPubkey => "invalid pubkey"
  | AcInvalidSecretKey => "invalid secret key"
  | AcInvalidEventEncoding message => "invalid event encoding: " +:+ message
  | AcInvalidSignature => "invalid signature"
  end.

Definition normalize_identifier (identifier : string) : string :=
  default identifier (strip_suffix ".git" identifier).
Definition app_clone_url (public_git_url npub identifier : string) : string :=
  trim_end_matches "/" public_git_url +:+ "/" +:+ npub +:+ "/" +:+ identifier +:+ ".git".

Definition npub_from_bytes `{Bech32Encode} (b : bytes) : result AppCoreError string :=
  ok_or AcInvalidPubkey (bech32_encode "npub" b).

Definition pubkey_bytes_from_npub `{Bech32Lib} (npub : string) : result AppCoreError bytes :=
  '(hrp, data) ← ok_or AcInvalidPubkey (bech32_decode npub);
  if negb (hrp == "npub") || negb (bool_decide (String.length data = 32)) then Err AcInvalidPubkey
  else Ok data.

(** ** [app-core/src/nip98.rs]: the client *)

Definition NIP98_KIND : Z := 27235.

Record Nip98UnsignedEvent := mkNip98UnsignedEvent {
  nu_pubkey : string;
  nu_created_at : Z;   (* i64 *)
  nu_kind : Z;         (* u32 *)
  nu_tags : tag_list;
  nu_content : string
}.

(** The same fields in both crates; a service decodes the JSON of the client. *)
Record Nip98Event := mkNip98Event {
  ne_id : string;
  ne_pubkey : string;
  ne_created_at : Z;
  ne_kind : Z;
  ne_tags : tag_list;
  ne_content : string;
  ne_sig : string
}.

Definition nip98_tags (method url : string) (payload_sha256 : option string) : tag_list :=
  [["u"; url]; ["method"; method]]
  ++ match payload_sha256 with Some payload => [["payload"; payload]] | None => [] end.

Definition nip98_unsigned_event (pubkey method url : string) (payload_sha256 : option string)
    (created_at : Z) : Nip98UnsignedEvent :=
  mkNip98UnsignedEvent pubkey created_at NIP98_KIND (nip98_tags method url payload_sha256) "".

Section Client.
Context `{JsonLib} `{HexLib} `{CryptoLib} `{K256Lib}.

Definition nip98_payload_hash (payload : bytes) : option string :=
  if is_empty payload then None else Some (hex_encode (sha256 payload)).

Definition nip98_event_id_bytes (u : Nip98UnsignedEvent) : bytes :=
  sha256 (json_to_string (JArray [JPosInt 0; JString (nu_pubkey u); json_int (nu_created_at u);
    json_int (nu_kind u); JArray ((λ t : tag, JArray (JString <$> t)) <$> nu_tags u);
    JString (nu_content u)])).

Definition nip98_event_id (u : Nip98UnsignedEvent) : string := hex_encode (nip98_event_id_bytes u).

Definition nip98_sign_event (secret_key : bytes) (method url : string)
    (payload_sha256 : option string) (created_at : Z) : result AppCoreError Nip98Event :=
  signing_key ← ok_or AcInvalidSecretKey (signing_key_from_bytes secret_key);
  let pubkey_hex := hex_encode (verifying_key_bytes signing_key) in
  let u := nip98_unsigned_event pubkey_hex method url payload_sha256 created_at in
  let id_bytes := nip98_event_id_bytes u in
  Ok (mkNip98Event (hex_encode id_bytes) (nu_pubkey u) (nu_created_at u) (nu_kind u) (nu_tags u)
        (nu_content u) (hex_encode (sign_prehash signing_key id_bytes))).
End Client.

(** ** [nostr-auth/src/lib.rs]: the services *)

Definition HEX_EVENT_ID_LEN : nat := 64.
Definition NIP98_HEX_PUBKEY_LEN : nat := 64.
Definition HEX_SIG_LEN : nat := 128.

Record Nip98Request := mkNip98Request {
  nq_method : string;
  nq_url : string;
  nq_payload_sha256 : option string;
  nq_now : Z;                (* i64 *)
  nq_max_skew_seconds : Z    (* i64 *)
}.

Record Nip98Auth := mkNip98Auth {
  na_pubkey : string;
  na_pubkey_bytes : bytes;
  na_event_id : string
}.

Inductive Nip98Error :=
| NeInvalidKind (kind : Z)
| NeMissingTag (tag : string)
| NeInvalidHex (field value : string)
| NeInvalidMethod (expected found : string)
| NeInvalidUrl (expected found : string)
| NePayloadMismatch (expected found : string)
| NeTimeSkew (created_at now max_skew : Z)
| NeInvalidEventId (expected found : string)
| NeInvalidSignature
| NeInvalidEventEncoding (message : string)
| NeInvalidPublicKey
| NeInvalidSignatureEncoding
| NeInvalidEventIdEncoding.

Definition Nip98Error_display (e : Nip98Error) : string :=
  match e with
  | NeInvalidKind kind => "invalid kind: " +:+ pretty kind
  | NeMissingTag tag => "missing tag: " +:+ tag
  | NeInvalidHex field value => "invalid hex for " +:+ field +:+ ": " +:+ value
  | NeInvalidMethod expected found =>
      "method mismatch (expected " +:+ expected +:+ ", got " +:+ found +:+ ")"
  | NeInvalidUrl expected found =>
      "url mismatch (expected " +:+ expected +:+ ", got " +:+ found +:+ ")"
  | NePayloadMismatch expected found =>
      "payload mismatch (expected " +:+ expected +:+ ", got " +:+ found +:+ ")"
  | NeTimeSkew created_at now max_skew =>
      "created_at outside skew (created_at " +:+ pretty created_at +:+ ", now " +:+ pretty now
      +:+ ", max " +:+ pretty max_skew +:+ ")"
  | NeInvalidEventId expected found =>
      "event id mismatch (expected " +:+ expected +:+ ", got " +:+ found +:+ ")"
  | NeInvalidSignature => "invalid signature"
  | NeInvalidEventEncoding message => "invalid event encoding: " +:+ message
  | NeInvalidPublicKey => "invalid public key"
  | NeInvalidSignatureEncoding => "invalid signature encoding"
  | NeInvalidEventIdEncoding => "invalid event id encoding"
  end.

Definition require_hex (field value : string) (len : nat) : result Nip98Error unit :=
  fail_if (negb (is_hex_len value len)) (NeInvalidHex field value).

(** The second item of the first tag with this name that has one. *)
Definition nip98_tag_value (tags : tag_list) (key : string) : option string :=
  find_map (λ t : tag, match t with
                       | tag_key :: value :: _ => if tag_key == key then Some value else None
                       | _ => None
                       end) tags.

Section Server.
Context `{JsonLib} `{HexLib} `{SchnorrSlices}.

Definition build_event_id (event : Nip98Event) : string :=
  hex_encode (sha256 (json_to_string (JArray [JPosInt 0; JString (ne_pubkey event);
    json_int (ne_created_at event); json_int (ne_kind event);
    JArray ((λ t : tag, JArray (JString <$> t)) <$> ne_tags event); JString (ne_content event)]))).

(** [Message::from_digest_slice] takes 32 bytes. *)
Definition verify_signature (event : Nip98Event) : result Nip98Error bytes :=
  event_id ← ok_or NeInvalidEventIdEncoding (hex_decode (ne_id event));
  _ ← fail_if (negb (bool_decide (String.length event_id = 32))) NeInvalidEventIdEncoding;
  sig_bytes ← ok_or NeInvalidSignatureEncoding (hex_decode (ne_sig event));
  sig ← ok_or NeInvalidSignatureEncoding (signature_from_slice sig_bytes);
  pubkey_bytes ← ok_or NeInvalidPublicKey (hex_decode (ne_pubkey event));
  _ ← fail_if (negb (bool_decide (String.length pubkey_bytes = 32))) NeInvalidPublicKey;
  pubkey ← ok_or NeInvalidPublicKey (xonly_from_slice pubkey_bytes);
  _ ← fail_if (negb (verify_schnorr sig event_id pubkey)) NeInvalidSignature;
  Ok pubkey_bytes.

Definition check_payload (tags : tag_list) (payload_sha256 : option string) : result Nip98Error unit :=
  match payload_sha256 with
  | Some expected =>
      payload ← ok_or (NeMissingTag "payload") (nip98_tag_value tags "payload");
      fail_if (negb (payload == expected)) (NePayloadMismatch expected payload)
  | None => Ok tt
  end.

(** The difference of the two times is an [i128], which cannot overflow. *)
Definition validate_nip98 (event : Nip98Event) (request : Nip98Request) : result Nip98Error Nip98Auth :=
  _ ← fail_if (negb (bool_decide (ne_kind event = NIP98_KIND))) (NeInvalidKind (ne_kind event));
  _ ← require_hex "event.id" (ne_id event) HEX_EVENT_ID_LEN;
  _ ← require_hex "event.pubkey" (ne_pubkey event) NIP98_HEX_PUBKEY_LEN;
  _ ← require_hex "event.sig" (ne_sig event) HEX_SIG_LEN;
  url ← ok_or (NeMissingTag "u") (nip98_tag_value (ne_tags event) "u");
  _ ← fail_if (negb (url == nq_url request)) (NeInvalidUrl (nq_url request) url);
  method ← ok_or (NeMissingTag "method") (nip98_tag_value (ne_tags event) "method");
  _ ← fail_if (negb (eq_ignore_ascii_case method (nq_method request)))
        (NeInvalidMethod (nq_method request) method);
  _ ← check_payload (ne_tags event) (nq_payload_sha256 request);
  _ ← fail_if (bool_decide (nq_max_skew_seconds request < Z.abs (nq_now request - ne_created_at event))%Z)
        (NeTimeSkew (ne_created_at event) (nq_now request) (nq_max_skew_seconds request));
  let expected_id := build_event_id event in
  _ ← fail_if (negb (eq_ignore_ascii_case expected_id (ne_id event)))
        (NeInvalidEventId expected_id (ne_id event));
  pubkey_bytes ← verify_signature event;
  Ok (mkNip98Auth (ne_pubkey event) pubkey_bytes (ne_id event)).
End Server.

(** ** Lemmas *)

Lemma eq_ignore_ascii_case_refl s : eq_ignore_ascii_case s s = true.
Proof. by apply bool_decide_eq_true_2. Qed.

Lemma hex_decode_ignore_case `{HexLaws} s t :
  eq_ignore_ascii_case s t = true → hex_decode s = hex_decode t.
Proof.
  unfold eq_ignore_ascii_case. intros E%bool_decide_eq_true_1.
  by rewrite <-(hex_decode_case s), E, hex_decode_case.
Qed.

Lemma negb_eqb_false s t : negb (s == t) = false ↔ s = t.
Proof. rewrite negb_false_iff. apply String.eqb_eq. Qed.

Lemma negb_bool_decide_false (P : Prop) `{Decision P} : negb (bool_decide P) = false ↔ P.
Proof. rewrite negb_false_iff. apply bool_decide_eq_true. Qed.

Lemma check_payload_Ok tags o :
  check_payload tags o = Ok tt ↔ ∀ p, o = Some p → nip98_tag_value tags "payload" = Some p.
Proof.
  destruct o as [expected|]; simpl; [|naive_solver]. rewrite bind_Ok. split.
  - intros (payload & E%ok_or_Ok & ->%fail_if_Ok%negb_eqb_false) p [= <-]. done.
  - intros E. exists expected. rewrite ok_or_Ok, fail_if_Ok, negb_eqb_false. auto.
Qed.

Section Signatures.
Context `{JsonLib} `{HexLaws} `{SchnorrSlices}.

(** What the signature of an accepted event covers: the hash of its fields. *)
Definition signed_hash (event : Nip98Event) : bytes :=
  sha256 (json_to_string (JArray [JPosInt 0; JString (ne_pubkey event);
    json_int (ne_created_at event); json_int (ne_kind event);
    JArray ((λ t : tag, JArray (JString <$> t)) <$> ne_tags event); JString (ne_content event)])).

Definition signature_valid (event : Nip98Event) (pubkey_bytes : bytes) : Prop :=
  ∃ sig_bytes sig pk,
    hex_decode (ne_sig event) = Some sig_bytes ∧ signature_from_slice sig_bytes = Some sig ∧
    hex_decode (ne_pubkey event) = Some pubkey_bytes ∧ xonly_from_slice pubkey_bytes = Some pk ∧
    verify_schnorr sig (signed_hash event) pk = true.

Lemma verify_signature_Ok event b :
  String.length (signed_hash event) = 32 →
  eq_ignore_ascii_case (build_event_id event) (ne_id event) = true →
  is_hex_len (ne_pubkey event) 64 = true →
  verify_signature event = Ok b ↔ signature_valid event b.
Proof.
  intros Hlen Hid%hex_decode_ignore_case Hpk.
  assert (hex_decode (ne_id event) = Some (signed_hash event)) as Hdec.
  { rewrite <-Hid. apply hex_decode_encode. }
  unfold verify_signature, signature_valid. rewrite Hdec. simpl. rewrite Hlen. simpl. split.
  - intros (sb & Hs%ok_or_Ok & (sig & Hsig%ok_or_Ok & (pb & Hp%ok_or_Ok &
      (_ & (pk & Hx%ok_or_Ok & (Hv%fail_if_Ok & [= <-])%bind_Ok_unit)%bind_Ok)%bind_Ok_unit)%bind_Ok)%bind_Ok)%bind_Ok.
    exists sb, sig, pk. rewrite negb_false_iff in Hv. auto.
  - intros (sb & sig & pk & -> & Hsig & Hp & Hx & Hv). simpl. rewrite Hsig. simpl. rewrite Hp. simpl.
    apply hex_decode_length in Hp. unfold is_hex_len in Hpk.
    apply andb_true_iff in Hpk as [Hpk%bool_decide_eq_true_1 _].
    rewrite (bool_decide_eq_true_2 (String.length b = 32)) by lia. simpl. rewrite Hx. simpl.
    by rewrite Hv.
Qed.
End Signatures.

(** ** Properties *)

(** What a request must show: an event of the right kind whose first [u],
    [method] and, when the request has a body, [payload] tags name this
    request, made within the allowed skew, whose id is its hash and whose
    signature of that hash verifies under its public key. *)
Definition nip98_authorises `{JsonLib} `{HexLib} `{SchnorrSlices} (event : Nip98Event)
    (request : Nip98Request) (pubkey_bytes : bytes) : Prop :=
  ne_kind event = NIP98_KIND ∧
  is_hex_len (ne_id event) 64 = true ∧ is_hex_len (ne_pubkey event) 64 = true ∧
  is_hex_len (ne_sig event) 128 = true ∧
  nip98_tag_value (ne_tags event) "u" = Some (nq_url request) ∧
  (∃ method, nip98_tag_value (ne_tags event) "method" = Some method ∧
    to_ascii_lowercase method = to_ascii_lowercase (nq_method request)) ∧
  (∀ p, nq_payload_sha256 request = Some p → nip98_tag_value (ne_tags event) "payload" = Some p) ∧
  (Z.abs (nq_now request - ne_created_at event) ≤ nq_max_skew_seconds request)%Z ∧
  to_ascii_lowercase (ne_id event) = to_ascii_lowercase (hex_encode (signed_hash event)) ∧
  signature_valid event pubkey_bytes.

(** The conditions of [validate_nip98], gathered from its guards in order. *)
Lemma validate_nip98_Ok `{JsonLib} `{HexLaws} `{SchnorrSlices} `{!CryptoLaws} event request auth :
  validate_nip98 event request = Ok auth ↔
  auth = mkNip98Auth (ne_pubkey event) (na_pubkey_bytes auth) (ne_id event) ∧
  nip98_authorises event request (na_pubkey_bytes auth).
Proof.
  unfold validate_nip98, nip98_authorises, require_hex, HEX_EVENT_ID_LEN, NIP98_HEX_PUBKEY_LEN, HEX_SIG_LEN.
  pose proof (sha256_length (json_to_string (JArray [JPosInt 0; JString (ne_pubkey event);
    json_int (ne_created_at event); json_int (ne_kind event);
    JArray ((λ t : tag, JArray (JString <$> t)) <$> ne_tags event); JString (ne_content event)]))) as Hlen.
  fold (signed_hash event) in Hlen.
  repeat setoid_rewrite bind_Ok_unit. repeat setoid_rewrite fail_if_Ok. split.
  - intros (Hk%negb_bool_decide_false & Hid%negb_false_iff & Hpk%negb_false_iff & Hsig%negb_false_iff & Hrest).
    apply bind_Ok in Hrest as (url & Hu%ok_or_Ok & Hrest).
    apply bind_Ok_unit in Hrest as [->%fail_if_Ok%negb_eqb_false Hrest].
    apply bind_Ok in Hrest as (method & Hm%ok_or_Ok & Hrest).
    apply bind_Ok_unit in Hrest as [Hmm%fail_if_Ok%negb_bool_decide_false Hrest].
    apply bind_Ok_unit in Hrest as [Hpay Hrest]. pose proof (proj1 (check_payload_Ok _ _) Hpay).
    apply bind_Ok_unit in Hrest as [Hskew%fail_if_Ok%bool_decide_eq_false_1 Hrest].
    apply bind_Ok_unit in Hrest as [Hidm%fail_if_Ok%negb_false_iff Hrest].
    apply bind_Ok in Hrest as (b & Hv & [= <-]). simpl.
    apply verify_signature_Ok in Hv; [|done..].
    apply bool_decide_eq_true_1 in Hidm. unfold build_event_id in Hidm. fold (signed_hash event) in Hidm.
    split; [done|]. split_and!; try done; [by exists method|lia].
  - intros (Hauth & Hk & Hid & Hpk & Hsig & Hu & (method & Hm & Hmm) & Hpay & Hskew & Hidm & Hv).
    rewrite Hid, Hpk, Hsig, Hu, Hm. rewrite negb_bool_decide_false. split_and!; [done..|].
    simpl. rewrite String.eqb_refl. simpl.
    assert (eq_ignore_ascii_case method (nq_method request) = true) as Hmi
      by by apply bool_decide_eq_true_2.
    rewrite Hmi. simpl.
    rewrite (proj2 (check_payload_Ok _ _) Hpay). simpl.
    rewrite bool_decide_eq_false_2 by lia. simpl.
    assert (eq_ignore_ascii_case (build_event_id event) (ne_id event) = true) as Hi
      by by apply bool_decide_eq_true_2.
    rewrite Hi. simpl. apply (verify_signature_Ok event _ Hlen Hi Hpk) in Hv. rewrite Hv. simpl. by rewrite <-Hauth.
Qed.

(** C11: a service accepts a signed event for a request exactly when the event
    authorises that request, and it then knows the requester by the public key
    that verifies the signature, which covers url, method and payload. *)
Theorem nip98_accepted_iff `{JsonLib} `{HexLaws} `{SchnorrSlices} `{!CryptoLaws} event request auth :
  validate_nip98 event request = Ok auth ↔
  auth = mkNip98Auth (ne_pubkey event) (na_pubkey_bytes auth) (ne_id event) ∧
  nip98_authorises event request (na_pubkey_bytes auth).
Proof. apply validate_nip98_Ok. Qed.

(** A client that signs the request it makes is accepted: whatever the
    key, url, method, payload and time, the event [nip98_sign_event] returns
    authorises that request at every service whose clock is within the skew,
    under the public key of the signing key. *)
Lemma nip98_client_accepted `{JsonLib} `{HexLaws} `{SchnorrSlices} `{!CryptoLaws} `{!K256Lib}
    `{!Bip340Laws} secret method url payload created_at event now skew :
  nip98_sign_event secret method url payload created_at = Ok event →
  (Z.abs (now - created_at) ≤ skew)%Z →
  ∃ key, signing_key_from_bytes secret = Some key ∧
    validate_nip98 event (mkNip98Request method url payload now skew) =
    Ok (mkNip98Auth (hex_encode (verifying_key_bytes key)) (verifying_key_bytes key) (ne_id event)).
Proof.
  unfold nip98_sign_event. intros (key & Hkey%ok_or_Ok & [= <-])%bind_Ok Hskew. exists key.
  split; [done|]. apply validate_nip98_Ok. split; [done|]. cbn.
  set (digest := nip98_event_id_bytes _).
  assert (String.length digest = 32) as Hd by apply sha256_length.
  assert (∀ b n, String.length b = n → is_hex_len (hex_encode b) (2 * n) = true) as Hhex.
  { intros b n <-. unfold is_hex_len. rewrite hex_encode_length, hex_encode_digits.
    by rewrite bool_decide_eq_true_2. }
  destruct (signed_verifies key digest Hd) as (sig & pk & Hsig & Hpk & Hv).
  split_and!; try done.
  - by apply (Hhex _ 32).
  - apply (Hhex _ 32), verifying_key_length.
  - by apply (Hhex _ 64), signature_length.
  - by exists method.
  - simpl. by intros p ->.
  - exists (sign_prehash key digest), sig, pk. split_and!; [apply hex_decode_encode|done|apply hex_decode_encode|done|done].
Qed.

(** A signature that repeats the message and the key, and a digest of 32 bytes. *)
Definition digest_model (b : bytes) : bytes :=
  String.substring 0 32 (b +:+ "................................").
Definition crypto_model : CryptoLib := {|
  Signature := bytes; XOnlyPublicKey := bytes; sha256 := digest_model;
  signature_from_str s := Some s; xonly_from_str s := Some s;
  verify_schnorr sig m pk := sig == (m +:+ pk)
|}.
Definition slices_model : @SchnorrSlices crypto_model :=
  @Build_SchnorrSlices crypto_model (λ b, Some b) (λ b, Some b).
Definition k256_model : K256Lib := {|
  SigningKey := bytes;
  signing_key_from_bytes b := if bool_decide (String.length b = 32) then Some b else None;
  verifying_key_bytes k := digest_model k;
  sign_prehash k m := m +:+ digest_model k
|}.
Definition json_model : JsonLib := {|
  json_from_str s := Some (JString s);
  json_to_string v := match v with JArray (_ :: JString p :: _) => p | _ => "" end
|}.

Lemma substring_length n s : n ≤ String.length s → String.length (String.substring 0 n s) = n.
Proof. revert n. induction s as [|a s IH]; intros [|n] Hn; simpl in *; try lia. rewrite IH; lia. Qed.

Lemma digest_model_length b : String.length (digest_model b) = 32.
Proof. apply substring_length. rewrite str_length_app. simpl. lia. Qed.

#[export] Instance crypto_model_laws : @CryptoLaws crypto_model.
Proof. constructor. apply digest_model_length. Qed.
#[export] Instance bip340_model_laws : @Bip340Laws crypto_model slices_model k256_model.
Proof.
  constructor; simpl.
  - apply digest_model_length.
  - intros k m Hm. rewrite str_length_app, digest_model_length. lia.
  - intros k m _. do 2 eexists. split_and!; [done..|]. apply String.eqb_refl.
Qed.

Definition sample_secret : bytes := "0123456789abcdef0123456789abcdef".

Lemma nip98_client_accepted_witness :
  let _ := json_model in let _ := hex_model in let _ := crypto_model in
  let _ := slices_model in let _ := k256_model in
  ∃ event, nip98_sign_event sample_secret "POST" "https://x/repos" (Some "ab") 100 = Ok event ∧
    is_ok (validate_nip98 event (mkNip98Request "POST" "https://x/repos" (Some "ab") 130 60)) = true.
Proof.
  intros J X C S K. destruct (nip98_sign_event sample_secret "POST" "https://x/repos" (Some "ab") 100)
    as [event|e] eqn:E; [|by vm_compute in E].
  exists event. split; [done|].
  destruct (@nip98_client_accepted J X hex_model_laws C S crypto_model_laws K bip340_model_laws
    sample_secret "POST" "https://x/repos" (Some "ab") 100 event 130 60 E) as (key & _ & Hv); [lia|].
  by rewrite Hv.
Defined.

Lemma nip98_accepted_iff_witness :
  let _ := json_model in let _ := hex_model in let _ := crypto_model in
  let _ := slices_model in let _ := k256_model in
  ∃ event pk, nip98_sign_event sample_secret "POST" "https://x/repos" (Some "ab") 100 = Ok event ∧
    nip98_authorises event (mkNip98Request "POST" "https://x/repos" (Some "ab") 130 60) pk.
Proof.
  intros J X C S K. destruct (nip98_sign_event sample_secret "POST" "https://x/repos" (Some "ab") 100)
    as [event|e] eqn:E; [|by vm_compute in E].
  destruct (validate_nip98 event (mkNip98Request "POST" "https://x/repos" (Some "ab") 130 60))
    as [auth|e] eqn:E'.
  - exists event, (na_pubkey_bytes auth). split; [done|].
    apply (proj1 (@nip98_accepted_iff J X hex_model_laws C S crypto_model_laws event _ auth) E').
  - exfalso. vm_compute in E. injection E as <-. by vm_compute in E'.
Defined.
