(* ===== verification/Database.v ===== *)
(** * [Database]: statements on tables

    What [crates/storage/src/postgres.rs] shares between its repositories: a
    statement runs on the tables, and any statement may fail, with or without
    having taken effect at the server; the conversions of timestamps; and the
    relation [realises] between a method and its operation on an abstract
    state, with the rules that establish it. *)

From S2P Require Import Prelude RustStr Externals Membership.

(** ** Databases: the outcome of each statement to come, and the tables *)

Inductive StatementOutcome :=
| Executed
| Failed (source : string) (committed : bool).

Record Database (T : Type) := mkDatabase { db_tables : T; db_outcomes : list StatementOutcome }.
Arguments mkDatabase {T} _ _.
Arguments db_tables {T} _.
Arguments db_outcomes {T} _.

(** A statement that computes from the tables and changes them.  A failed one
    reports a [sqlx] error; when its connection broke after the server had
    committed, the tables have changed all the same. *)
Definition statement {T A} (f : T → A * T) : stateful (Database T) StorageError A := λ db,
  let '(a, t) := f (db_tables db) in
  match db_outcomes db with
  | [] => (Ok a, mkDatabase t [])
  | Executed :: os => (Ok a, mkDatabase t os)
  | Failed source committed :: os =>
      (Err (StDatabase source), mkDatabase (if committed then t else db_tables db) os)
  end.

(** A statement that may violate a constraint, which fails without an effect. *)
Definition try_statement {T A} (violation : string) (f : T → option (A * T))
    : stateful (Database T) StorageError A := λ db,
  match f (db_tables db) with
  | Some (a, t) => statement (λ _, (a, t)) db
  | None =>
      (Err (StDatabase (match db_outcomes db with Failed source _ :: _ => source | _ => violation end)),
       mkDatabase (db_tables db) (tail (db_outcomes db)))
  end.

(** The rows of a table come in an order SQL leaves unspecified. *)
Class RowOrder := {
  row_iter : ∀ {A : Type}, list A → list A;
  row_iter_perm : ∀ {A : Type} (l : list A), row_iter l ≡ₚ l
}.

(** ** The [time] crate *)
Class TimeLib := {
  OffsetDateTime : Type;
  from_unix_timestamp : Z → option OffsetDateTime;
  unix_timestamp : OffsetDateTime → Z
}.

Class TimeLaws `{TimeLib} : Prop := {
  unix_timestamp_from : ∀ z t, from_unix_timestamp z = Some t → unix_timestamp t = z;
  from_unix_timestamp_total : ∀ t, is_Some (from_unix_timestamp (unix_timestamp t))
}.

Section Time.
Context `{TimeLib}.

Definition to_offset_datetime (created_at : Z) : result StorageError OffsetDateTime :=
  ok_or (StInvalidField "created_at" (pretty created_at)) (from_unix_timestamp created_at).
Definition from_offset_datetime (timestamp : OffsetDateTime) : Z := unix_timestamp timestamp.

Lemma to_offset_datetime_Ok z t : to_offset_datetime z = Ok t ↔ from_unix_timestamp z = Some t.
Proof. apply ok_or_Ok. Qed.

Lemma offset_datetime_roundtrip `{!TimeLaws} z t :
  to_offset_datetime z = Ok t → from_offset_datetime t = z.
Proof. rewrite to_offset_datetime_Ok. apply unix_timestamp_from. Qed.
End Time.

(** Timestamps as numbers, of the years the crate supports by default. *)
Definition supported_time (z : Z) : bool := in_range (-377705116800) 253402300799 z.
Definition time_model : TimeLib := {|
  OffsetDateTime := { z : Z | supported_time z = true };
  from_unix_timestamp z :=
    match decide (supported_time z = true) with left Hz => Some (z ↾ Hz) | right _ => None end;
  unix_timestamp t := `t
|}.

#[export] Instance time_model_laws : @TimeLaws time_model.
Proof.
  constructor.
  - intros z t. simpl. case_decide; [|done]. by intros [= <-].
  - intros [z Hz]. simpl. rewrite decide_True_pi with (HP := Hz). by eexists.
Qed.

(** ** Methods and the operations they carry out *)

Section Realises.
Context {S V : Type} (holds : S → V → Prop).

(** From a state that stands for [v]: a success returns what [spec] returns
    and leaves a state that stands for the result of [spec]; a failure leaves
    the abstract state as it was, or as [spec] leaves it. *)
Definition realises {E A} (c : stateful S E A) (spec : V → A * V) : Prop :=
  ∀ s v r s', holds s v → c s = (r, s') →
    match r with
    | Ok a => a = (spec v).1 ∧ holds s' (spec v).2
    | Err _ => holds s' v ∨ holds s' (spec v).2
    end.

Lemma realises_lift {E A B} (r : result E A) (k : A → stateful S E B) spec :
  (∀ a, r = Ok a → realises (k a) spec) → realises (lift r ≫= k) spec.
Proof.
  intros Hk s v res s' Hs. unfold mbind, stateful_bind, lift. destruct r as [a|e].
  - by apply Hk.
  - intros [= <- <-]. by left.
Qed.

(** A read leaves the abstract state alone, and its answers satisfy [P]. *)
Definition answers {E A} (c : stateful S E A) (P : V → A → Prop) : Prop :=
  ∀ s v r s', holds s v → c s = (r, s') → holds s' v ∧ ∀ a, r = Ok a → P v a.
End Realises.

(** [c.map_err(f)] *)
Definition map_err_st {S E F A} (f : E → F) (c : stateful S E A) : stateful S F A := λ s,
  let '(r, s) := c s in (map_err f r, s).

Lemma realises_map_err {S V E F A} (holds : S → V → Prop) (f : E → F) (c : stateful S E A) spec :
  realises holds c spec → realises holds (map_err_st f c) spec.
Proof.
  intros Hc s v r s' Hs. unfold map_err_st. destruct (c s) as [r0 s0] eqn:E0. intros [= <- <-].
  specialize (Hc _ _ _ _ Hs E0). by destruct r0.
Qed.

Section Statements.
Context {T V : Type} (rep : T → V → Prop).

Definition db_holds (db : Database T) (v : V) : Prop := rep (db_tables db) v.

Lemma realises_statement {A} (f : T → A * T) (spec : V → A * V) :
  (∀ t v, rep t v → (f t).1 = (spec v).1 ∧ rep (f t).2 (spec v).2) →
  realises db_holds (statement f) spec.
Proof.
  intros Hf db v r db' Hr. unfold statement, db_holds in *.
  destruct (Hf _ _ Hr) as [Ha Ht]. destruct (f (db_tables db)) as [a t]; simpl in *.
  destruct (db_outcomes db) as [|[|source []] os]; intros [= <- <-]; auto.
Qed.

(** A query whose rows are then decoded. *)
Lemma realises_query {A B} (f : T → A) (k : A → result StorageError B) (spec : V → B) :
  (∀ t v, rep t v → k (f t) = Ok (spec v)) →
  realises db_holds (a ← statement (λ t, (f t, t)); lift (k a)) (λ v, (spec v, v)).
Proof.
  intros Hf db v r db' Hr. unfold mbind, stateful_bind, statement, lift, db_holds in *.
  specialize (Hf _ _ Hr).
  destruct (db_outcomes db) as [|[|source []] os]; simpl; intros [= <- <-]; simpl; auto;
    rewrite Hf; simpl; auto.
Qed.

(** A write that a constraint may refuse. *)
Lemma realises_try {A} violation (f : T → option (A * T)) (spec : V → A * V) :
  (∀ t v a t', rep t v → f t = Some (a, t') → a = (spec v).1 ∧ rep t' (spec v).2) →
  realises db_holds (try_statement violation f) spec.
Proof.
  intros Hf db v r db' Hr. unfold try_statement, statement, db_holds in *.
  destruct (f (db_tables db)) as [[a t]|] eqn:E; [|intros [= <- <-]; by left].
  destruct (Hf _ _ _ _ Hr E) as [Ha Ht].
  destruct (db_outcomes db) as [|[|source []] os]; intros [= <- <-]; auto.
Qed.

(** A query whose answer needs no decoding. *)
Lemma answers_read {A} (f : T → A) (P : V → A → Prop) :
  (∀ t v, rep t v → P v (f t)) → answers db_holds (statement (λ t, (f t, t))) P.
Proof.
  intros Hf db v r db' Hr. unfold statement, db_holds in *. specialize (Hf _ _ Hr).
  destruct (db_outcomes db) as [|[|source []] os]; intros [= <- <-]; split; try done; intros ? [= <-]; done.
Qed.

(** A query. *)
Lemma answers_query {A B} (f : T → A) (k : A → result StorageError B) (P : V → B → Prop) :
  (∀ t v b, rep t v → k (f t) = Ok b → P v b) →
  answers db_holds (a ← statement (λ t, (f t, t)); lift (k a)) P.
Proof.
  intros Hf db v r db' Hr. unfold mbind, stateful_bind, statement, lift, db_holds in *.
  destruct (db_outcomes db) as [|[|source []] os]; simpl; intros [= <- <-]; simpl; split; auto;
    try done; intros b Hb; by eapply Hf.
Qed.

(** Without failures to come, a statement succeeds. *)
Definition reliable (db : Database T) : Prop := db_outcomes db = [].

Lemma statement_reliable {A} (f : T → A * T) db :
  reliable db → ∃ a db', statement f db = (Ok a, db') ∧ reliable db'.
Proof.
  unfold reliable, statement. intros ->. destruct (f (db_tables db)) as [a t].
  by exists a, (mkDatabase t []).
Qed.
End Statements.

(** ** Triples: from [P], a success leaves [Q] of its result and a failure leaves [F] *)

Definition triple {S E A} (P : S → Prop) (c : stateful S E A) (Q : A → S → Prop) (F : S → Prop) : Prop :=
  ∀ s r s', P s → c s = (r, s') → match r with Ok a => Q a s' | Err _ => F s' end.

Section Triples.
Context {S E : Type} (F : S → Prop).

Lemma triple_ret {A} (P : S → Prop) (a : A) (Q : A → S → Prop) :
  (∀ s, P s → Q a s) → triple P (mret a : stateful S E A) Q F.
Proof. intros HQ s r s' Hs [= <- <-]. auto. Qed.

Lemma triple_bind {A B} (P : S → Prop) (c : stateful S E A) (k : A → stateful S E B) M Q :
  triple P c M F → (∀ a, triple (M a) (k a) Q F) → triple P (c ≫= k) Q F.
Proof.
  intros Hc Hk s r s' Hs. unfold mbind, stateful_bind.
  destruct (c s) as [[a|e] s0] eqn:E0; specialize (Hc _ _ _ Hs E0); simpl in Hc.
  - by apply Hk.
  - by intros [= <- <-].
Qed.

Lemma triple_weaken {A} (P P' : S → Prop) (c : stateful S E A) (Q Q' : A → S → Prop) F' :
  triple P' c Q' F' → (∀ s, P s → P' s) → (∀ a s, Q' a s → Q a s) → (∀ s, F' s → F s) →
  triple P c Q F.
Proof. intros Hc HP HQ HF s r s' Hs E0. specialize (Hc _ _ _ (HP _ Hs) E0). destruct r; auto. Qed.

(** A fact that does not depend on the state. *)
Lemma triple_pure {A} (φ : Prop) (P : S → Prop) (c : stateful S E A) Q :
  (φ → triple P c Q F) → triple (λ s, P s ∧ φ) c Q F.
Proof. intros Hc s r s' [Hs Hφ]. by apply Hc. Qed.
End Triples.

Lemma realises_triple {S V E A} (holds : S → V → Prop) (c : stateful S E A) spec v :
  realises holds c spec →
  triple (λ s, holds s v) c (λ _ s, holds s (spec v).2) (λ s, holds s v ∨ holds s (spec v).2).
Proof. intros Hc s r s' Hs E0. specialize (Hc _ _ _ _ Hs E0). by destruct r as [a|]; [destruct Hc|]. Qed.

Lemma answers_triple {S V E A} (holds : S → V → Prop) (c : stateful S E A) P v :
  answers holds c P → triple (λ s, holds s v) c (λ a s, holds s v ∧ P v a) (λ s, holds s v).
Proof. intros Hc s r s' Hs E0. destruct (Hc _ _ _ _ Hs E0) as [Hs' Ha]. destruct r; auto. Qed.

Lemma triple_answers {S V E A} (holds : S → V → Prop) (c : stateful S E A) P :
  (∀ v, triple (λ s, holds s v) c (λ a s, holds s v ∧ P v a) (λ s, holds s v)) → answers holds c P.
Proof.
  intros Hc s v r s' Hs E0. specialize (Hc v _ _ _ Hs E0).
  destruct r as [a|]; [|by split]. destruct Hc. split; [done|]. by intros ? [= <-].
Qed.

#[export] Instance filter_bool_Permutation {A} (P : A → bool) :
  Proper ((≡ₚ) ==> (≡ₚ)) (List.filter P).
Proof.
  intros l1 l2 Hl. induction Hl as [|x l1 l2 _ IH|x y l|l1 l2 l3 _ IH1 _ IH2]; cbn [List.filter].
  - done.
  - destruct (P x); [by constructor|done].
  - destruct (P x), (P y); [apply perm_swap|done|done|done].
  - by trans (List.filter P l2).
Qed.

(** A table whose rows decode to the values of an abstract map. *)
Definition table_rep {K R V} `{Countable K} (dec : K → R → option V) (t : gmap K R) (v : gmap K V)
    : Prop :=
  ∀ k, match t !! k with Some row => ∃ r, dec k row = Some r ∧ v !! k = Some r
                       | None => v !! k = None end.

Section TableRep.
Context {K R V : Type} `{Countable K} (dec : K → R → option V).

Lemma table_rep_empty : table_rep dec ∅ ∅.
Proof. intros k. by rewrite !lookup_empty. Qed.

Lemma table_rep_lookup t v k : table_rep dec t v → v !! k = (t !! k ≫= dec k).
Proof. intros Hr. specialize (Hr k). destruct (t !! k) as [row|]; simpl; [|done]. by destruct Hr as (r & -> & ->). Qed.

Lemma table_rep_insert t v k row r :
  table_rep dec t v → dec k row = Some r → table_rep dec (<[k := row]> t) (<[k := r]> v).
Proof.
  intros Hr Hd k'. destruct (decide (k = k')) as [<-|Hne].
  - rewrite !lookup_insert_eq. eauto.
  - rewrite !lookup_insert_ne by done. apply Hr.
Qed.

Lemma table_rep_alter t v k f g :
  table_rep dec t v → (∀ row r, dec k row = Some r → dec k (f row) = Some (g r)) →
  table_rep dec (alter f k t) (alter g k v).
Proof.
  intros Hr Hfg k'. specialize (Hr k'). destruct (decide (k = k')) as [<-|Hne].
  - rewrite !lookup_alter_eq. destruct (t !! k) as [row|]; simpl; [|by rewrite Hr].
    destruct Hr as (r & Hd & ->). eauto.
  - by rewrite !lookup_alter_ne by done.
Qed.

Lemma table_rep_delete t v k : table_rep dec t v → table_rep dec (delete k t) (delete k v).
Proof.
  intros Hr k'. destruct (decide (k = k')) as [<-|Hne]; [by rewrite !lookup_delete_eq|].
  rewrite !lookup_delete_ne by done. apply Hr.
Qed.

(** [COUNT(star)] over the rows counts the values they stand for. *)
Lemma table_rep_count t v (P : R → bool) (Q : V → bool) :
  table_rep dec t v → (∀ k row r, t !! k = Some row → dec k row = Some r → P row = Q r) →
  length (List.filter P (map_to_list t).*2) = length (List.filter Q (map_to_list v).*2).
Proof.
  revert v. induction t as [|k row t Hk IH] using map_ind; intros v Hr HPQ.
  { assert (v = ∅) as ->; [|done]. apply map_eq. intros k. apply (Hr k). }
  pose proof (Hr k) as Hv. rewrite lookup_insert_eq in Hv. destruct Hv as (r & Hd & Hv).
  pose proof (table_rep_delete _ _ k Hr) as Hr'. rewrite delete_insert_id in Hr' by done.
  rewrite <-(insert_delete_id v k r Hv).
  rewrite !map_to_list_insert by (done || apply lookup_delete_eq).
  rewrite !fmap_cons. cbn [fst snd List.filter].
  rewrite (HPQ k row r) by (done || by rewrite lookup_insert_eq).
  specialize (IH _ Hr'). destruct (Q r); cbn [length]; [f_equal|]; apply IH;
    intros k' row' r' Hk' Hd'; apply (HPQ k'); auto; rewrite lookup_insert_ne; congruence.
Qed.
End TableRep.
