(* ===== verification/HttpAuth.v ===== *)
(** * [HttpAuth]: requests to the services and who signed them

    What [services/auth], [services/control] and [services/git-http] share: a
    request as its handler sees it, the [Authorization: Nostr …] header with the
    NIP-98 event in it, and the URL that the event has to name.  Each of the three
    services has its own copy of these functions, which differ in the error they
    raise only; here the error is a parameter.  The [http] and [base64] crates and
    serde's decoders are classes of operations. *)

From S2P Require Import Prelude RustStr CoreTypes Externals Nip34Common HexModel NostrAuth Database.

(** ** Handlers that may panic *)

(** A handler answers an error of its own or panics, which ends the request. *)
Inductive fault (E : Type) := Raised (e : E) | Panicked.
Arguments Raised {E} e.
Arguments Panicked {E}.

(** [return Err(e)], [r?] and [o.expect(…)] in a handler. *)
Definition raise {S E A} (e : E) : stateful S (fault E) A := lift (Err (Raised e)).
Definition attempt {S E A} (r : result E A) : stateful S (fault E) A := lift (map_err Raised r).
Definition expect {S E A} (o : option A) : stateful S (fault E) A := lift (ok_or Panicked o).

(** ** Reasoning about handlers *)

(** From [P], a success leaves [Q] of its result and an error leaves [F] of it. *)
Definition ensures {S E A} (P : S → Prop) (c : stateful S E A) (Q : A → S → Prop) (F : E → S → Prop) : Prop :=
  ∀ s r s', P s → c s = (r, s') → match r with Ok a => Q a s' | Err e => F e s' end.

Section Ensures.
Context {S E : Type} (F : E → S → Prop).

Lemma ensures_ret {A} (P : S → Prop) (a : A) (Q : A → S → Prop) :
  (∀ s, P s → Q a s) → ensures P (mret a : stateful S E A) Q F.
Proof. intros HQ s r s' Hs [= <- <-]. auto. Qed.

Lemma ensures_bind {A B} (P : S → Prop) (c : stateful S E A) (k : A → stateful S E B) M Q :
  ensures P c M F → (∀ a, ensures (M a) (k a) Q F) → ensures P (c ≫= k) Q F.
Proof.
  intros Hc Hk s r s' Hs. unfold mbind, stateful_bind.
  destruct (c s) as [[a|e] s0] eqn:E0; specialize (Hc _ _ _ Hs E0); simpl in Hc.
  - by apply Hk.
  - by intros [= <- <-].
Qed.

(** A result that is computed without the state. *)
Lemma ensures_lift {A B} (P : S → Prop) (x : result E A) (k : A → stateful S E B) Q :
  (∀ a, x = Ok a → ensures P (k a) Q F) → (∀ e s, x = Err e → P s → F e s) → ensures P (lift x ≫= k) Q F.
Proof.
  intros Hk He s r s' Hs. unfold mbind, stateful_bind, lift. destruct x as [a|e].
  - by apply Hk.
  - intros [= <- <-]. auto.
Qed.

Lemma ensures_weaken {A} (P P' : S → Prop) (c : stateful S E A) (Q Q' : A → S → Prop) :
  ensures P' c Q' F → (∀ s, P s → P' s) → (∀ a s, Q' a s → Q a s) → ensures P c Q F.
Proof. intros Hc HP HQ s r s' Hs E0. specialize (Hc _ _ _ (HP _ Hs) E0). destruct r; auto. Qed.
End Ensures.

Lemma ensures_conseq {S E A} (P : S → Prop) (c : stateful S E A) (Q Q' : A → S → Prop) (F F' : E → S → Prop) :
  ensures P c Q' F' → (∀ a s, Q' a s → Q a s) → (∀ e s, F' e s → F e s) → ensures P c Q F.
Proof. intros Hc HQ HF s r s' Hs E0. specialize (Hc _ _ _ Hs E0). destruct r; auto. Qed.

Section EnsuresFault.
Context {S E : Type} (F : fault E → S → Prop).

Lemma ensures_raise {A} (P : S → Prop) (e : E) (Q : A → S → Prop) :
  (∀ s, P s → F (Raised e) s) → ensures P (raise e) Q F.
Proof. intros HF s r s' Hs [= <- <-]. auto. Qed.

Lemma ensures_attempt {A B} (P : S → Prop) (x : result E A) (k : A → stateful S (fault E) B) Q :
  (∀ a, x = Ok a → ensures P (k a) Q F) → (∀ e s, P s → F (Raised e) s) → ensures P (attempt x ≫= k) Q F.
Proof.
  intros Hk He. apply ensures_lift; destruct x; simpl; naive_solver.
Qed.

Lemma ensures_expect {A B} (P : S → Prop) (o : option A) (k : A → stateful S (fault E) B) Q a :
  o = Some a → ensures P (k a) Q F → ensures P (expect o ≫= k) Q F.
Proof. intros -> Hk. apply ensures_lift; simpl; [by intros ? [= <-]|done]. Qed.
End EnsuresFault.

(** ** The crates *)

(** [http]: [HeaderMap::get], [HeaderMap::remove], [HeaderValue::to_str]. *)
Class HttpLib := {
  HeaderMap : Type;
  HeaderValue : Type;
  headers_get : string → HeaderMap → option HeaderValue;
  headers_remove : string → HeaderMap → HeaderMap;
  header_to_str : HeaderValue → option string
}.
Class HttpLaws `{HttpLib} : Prop := {
  headers_get_removed : ∀ k h, headers_get k (headers_remove k h) = None;
  headers_get_other : ∀ k k' h, k ≠ k' → headers_get k (headers_remove k' h) = headers_get k h
}.
Class Base64Lib := { base64_decode : string → option bytes; base64_encode : bytes → string }.
Class Base64Laws `{Base64Lib} : Prop := { base64_roundtrip : ∀ b, base64_decode (base64_encode b) = Some b }.
(** [serde_json::from_slice::<Nip98Event>]. *)
Class Nip98Codec := { nip98_from_slice : bytes → option Nip98Event }.

(** ** Requests *)

(** [Uri::path], [Uri::query] and [Uri::path_and_query]. *)
Record Uri := mkUri { uri_path : string; uri_query : option string; uri_path_and_query : option string }.

Record HttpRequest `{HttpLib} := mkHttpRequest {
  hq_method : string;
  hq_uri : Uri;
  hq_headers : HeaderMap;
  hq_body : bytes
}.

Definition AUTH_HEADER : string := "authorization".

Section Requests.
Context `{HttpLib} `{Base64Lib} `{Nip98Codec} {E : Type} (unauthorized bad_request : string → E).

Definition header_str (name : string) (headers : HeaderMap) : option string :=
  headers_get name headers ≫= header_to_str.

Definition parse_nostr_auth_as (headers : HeaderMap) : result E Nip98Event :=
  value ← ok_or (unauthorized "missing authorization") (header_str AUTH_HEADER headers);
  token ← ok_or (unauthorized "invalid authorization header") (strip_prefix "Nostr " (trim value));
  decoded ← ok_or (unauthorized "invalid nostr authorization") (base64_decode token);
  ok_or (unauthorized "invalid nostr event") (nip98_from_slice decoded).

Definition request_url (scheme host path : string) : string := scheme +:+ "://" +:+ host +:+ path.

Definition build_request_url_as (path : Uri → string) (headers : HeaderMap) (uri : Uri) : result E string :=
  host ← ok_or (bad_request "missing host header") (header_str "host" headers);
  let scheme := default "http" (header_str "x-forwarded-proto" headers) in
  Ok (request_url scheme host (path uri)).

(** [uri.path_and_query().map(as_str).unwrap_or(uri.path())] *)
Definition uri_full_path (uri : Uri) : string := default (uri_path uri) (uri_path_and_query uri).

Context `{JsonLib} `{HexLib} `{SchnorrSlices}.

(** The event of a request, validated for it: [parse_nostr_auth], [build_request_url]
    and [validate_nip98] as the handlers call them one after the other. *)
Definition authenticate_as (path : Uri → string) (max_skew now : Z) (payload : option string)
    (q : HttpRequest) : result E Nip98Auth :=
  event ← parse_nostr_auth_as (hq_headers q);
  url ← build_request_url_as path (hq_headers q) (hq_uri q);
  map_err (λ err, unauthorized (Nip98Error_display err))
    (validate_nip98 event (mkNip98Request (hq_method q) url payload now max_skew)).
End Requests.

(** ** What a request that is accepted carries *)

Section Facts.
Context `{HttpLib} `{Base64Lib} `{Nip98Codec} `{JsonLib} `{HexLaws} `{SchnorrSlices} `{!CryptoLaws}.

(** The request carries an event that authorises it, signed by [pubkey_bytes]. *)
Definition request_signed (path : Uri → string) (max_skew now : Z) (payload : option string)
    (q : HttpRequest) (event : Nip98Event) (pubkey_bytes : bytes) : Prop :=
  ∃ host token decoded value,
    header_str AUTH_HEADER (hq_headers q) = Some value ∧ strip_prefix "Nostr " (trim value) = Some token ∧
    base64_decode token = Some decoded ∧ nip98_from_slice decoded = Some event ∧
    header_str "host" (hq_headers q) = Some host ∧
    nip98_authorises event (mkNip98Request (hq_method q)
      (request_url (default "http" (header_str "x-forwarded-proto" (hq_headers q))) host (path (hq_uri q)))
      payload now max_skew) pubkey_bytes.

(** A request carries one event, which has one key. *)
Lemma request_signed_fun path max_skew now payload path' max_skew' now' payload' q event event' pk pk' :
  request_signed path max_skew now payload q event pk →
  request_signed path' max_skew' now' payload' q event' pk' → event' = event ∧ pk' = pk.
Proof.
  intros (h & t & d & v & Hv & Ht & Hd & He & _ & Ha) (h' & t' & d' & v' & Hv' & Ht' & Hd' & He' & _ & Ha').
  simplify_eq. split; [done|].
  destruct Ha as (_ & _ & _ & _ & _ & _ & _ & _ & _ & (? & ? & ? & _ & _ & Hpk & _)).
  destruct Ha' as (_ & _ & _ & _ & _ & _ & _ & _ & _ & (? & ? & ? & _ & _ & Hpk' & _)). congruence.
Qed.

(** The key of an accepted request: 64 hexadecimal digits that spell the bytes. *)
Lemma request_signed_key {path max_skew now payload q event pk} :
  request_signed path max_skew now payload q event pk →
  is_hex_len (ne_pubkey event) 64 = true ∧ hex_decode (ne_pubkey event) = Some pk.
Proof.
  intros (host & token & decoded & value & _ & _ & _ & _ & _ & Hauth).
  destruct Hauth as (_ & _ & Hpk & _ & _ & _ & _ & _ & _ & (sb & sig & pkx & Hsig)).
  split; [done|]. tauto.
Qed.

Context {E : Type} (unauthorized bad_request : string → E).

(** The event that the header carries. *)
Lemma request_signed_event path max_skew now payload q event pk event' :
  request_signed path max_skew now payload q event pk →
  parse_nostr_auth_as unauthorized (hq_headers q) = Ok event' → event' = event.
Proof.
  intros (h & t & d & v & Hv & Ht & Hd & Hdec & _) He. unfold parse_nostr_auth_as in He.
  apply bind_Ok in He as (v2 & Hv2%ok_or_Ok & He). apply bind_Ok in He as (t2 & Ht2%ok_or_Ok & He).
  apply bind_Ok in He as (d2 & Hd2%ok_or_Ok & He%ok_or_Ok). congruence.
Qed.

Lemma authenticate_Ok path max_skew now payload q auth :
  authenticate_as unauthorized bad_request path max_skew now payload q = Ok auth ↔
  ∃ event, request_signed path max_skew now payload q event (na_pubkey_bytes auth) ∧
    auth = mkNip98Auth (ne_pubkey event) (na_pubkey_bytes auth) (ne_id event).
Proof.
  unfold authenticate_as, parse_nostr_auth_as, build_request_url_as, request_signed. split.
  - intros (event & Hp & Hrest)%bind_Ok.
    apply bind_Ok in Hp as (value & Hv%ok_or_Ok & Hp). apply bind_Ok in Hp as (token & Ht%ok_or_Ok & Hp).
    apply bind_Ok in Hp as (decoded & Hd%ok_or_Ok & He%ok_or_Ok).
    apply bind_Ok in Hrest as (url & Hu & Hrest). apply bind_Ok in Hu as (host & Hh%ok_or_Ok & [= <-]).
    destruct (validate_nip98 _ _) as [a|] eqn:Ev; simpl in Hrest; simplify_eq.
    apply validate_nip98_Ok in Ev as [Ha Hauth]. exists event. split; [|done].
    by exists host, token, decoded, value.
  - intros (event & (host & token & decoded & value & Hv & Ht & Hd & He & Hh & Hauth) & Ha).
    apply bind_Ok. exists event. split.
    { repeat (apply bind_Ok; eexists; split; [apply ok_or_Ok; eassumption|]). by apply ok_or_Ok. }
    apply bind_Ok. eexists. split; [apply bind_Ok; eexists; split; [by apply ok_or_Ok|done]|].
    apply map_err_Ok, validate_nip98_Ok. auto.
Qed.

End Facts.

(** ** Concrete crates: headers as a list, a token that is its bytes, one event *)

Definition http_model : HttpLib := {|
  HeaderMap := list (string * string);
  HeaderValue := string;
  headers_get k h := snd <$> List.find (λ p, p.1 == k) h;
  headers_remove k h := List.filter (λ p, negb (p.1 == k)) h;
  header_to_str v := Some v
|}.

#[export] Instance http_model_laws : @HttpLaws http_model.
Proof.
  constructor; simpl.
  - intros k h. induction h as [|[k' v] h IH]; simpl; [done|].
    destruct (k' == k) eqn:E; simpl; [done|]. by rewrite E.
  - intros k k' h Hne. induction h as [|[k0 v] h IH]; simpl; [done|].
    destruct (String.eqb_spec k0 k') as [->|]; simpl.
    + rewrite IH. destruct (String.eqb_spec k' k); congruence.
    + destruct (k0 == k); [done|]. apply IH.
Qed.

Definition base64_model : Base64Lib := {| base64_decode s := Some s; base64_encode b := b |}.
Definition nip98_codec_model (event : Nip98Event) : Nip98Codec :=
  {| nip98_from_slice b := if b == "event" then Some event else None |}.

(** A request of a client that [sample_secret] signs. *)
Definition sample_event (method url body : string) (now : Z) : Nip98Event :=
  let _ := json_model in let _ := hex_model in let _ := crypto_model in let _ := k256_model in
  match nip98_sign_event sample_secret method url (nip98_payload_hash body) now with
  | Ok event => event
  | Err _ => mkNip98Event "" "" 0 0 [] "" ""
  end.
Definition sample_request (method host path body : string) : @HttpRequest http_model :=
  @mkHttpRequest http_model method (mkUri path None (Some path))
    [("authorization", "Nostr event"); ("host", host); ("x-forwarded-proto", "https")] body.
