(* ===== verification/RelayAdapter.v ===== *)
(** * [RelayAdapter]: signing events and publishing them to a relay

    Models [crates/relay-adapter/src/lib.rs]: the events that are signed with a key, the
    adapter that publishes one over a websocket and waits for the relay's answer, and the
    probe that writes an event and reads it back.  A connection is what its sends and
    timed reads give, one after the other; every look at the clock is part of it.  The signing
    part of [secp256k1] and [Url::set_scheme] are classes. *)

From S2P Require Import Prelude RustStr CoreTypes Externals HexModel Nip34Common Grasp Nip34Repo RelayCompat RelayEvent NostrAuth Database HttpAuth.

(** ** The crates *)

(** [XOnlyPublicKey::from_keypair] of a secret key, serialised, and the text of the error of
    [SecretKey::from_slice]. *)
Class SignerKeys `{SignerLib} := {
  xonly_public : SecretKey → bytes;
  secret_key_error : bytes → string
}.
(** A public key has 32 bytes and a signature 64; a signature verifies; and [from_str] reads
    what [from_slice] does, in hexadecimal. *)
Class SignerLaws `{SignerKeys} `{SchnorrSlices} `{HexLib} : Prop := {
  xonly_public_length : ∀ k, String.length (xonly_public k) = 32;
  sign_schnorr_length : ∀ k m, String.length m = 32 → String.length (sign_schnorr k m) = 64;
  sign_schnorr_verifies : ∀ k m, String.length m = 32 → ∃ sig pk,
    signature_from_slice (sign_schnorr k m) = Some sig ∧ xonly_from_slice (xonly_public k) = Some pk ∧
    verify_schnorr sig m pk = true;
  signature_from_hex : ∀ b, signature_from_str (hex_encode b) = signature_from_slice b;
  xonly_from_hex : ∀ b, xonly_from_str (hex_encode b) = xonly_from_slice b
}.
Class UrlScheme `{UrlLib} := { url_set_scheme : string → Url → option Url }.
(** The text of a parse error of [serde_json]. *)
Class JsonErrors := { json_error : string → string }.

(** ** Configuration and errors *)

Record RelayAdapterConfig := mkRelayAdapterConfig {
  rac_relay_url : string; rac_timeout : Z (* nanoseconds *); rac_secret_key : option string
}.
Definition RelayAdapterConfig_new (relay_url : string) : RelayAdapterConfig :=
  mkRelayAdapterConfig relay_url 5000000000 None.
Definition with_timeout (timeout : Z) (c : RelayAdapterConfig) : RelayAdapterConfig :=
  mkRelayAdapterConfig (rac_relay_url c) timeout (rac_secret_key c).
Definition with_secret_key (secret_key : string) (c : RelayAdapterConfig) : RelayAdapterConfig :=
  mkRelayAdapterConfig (rac_relay_url c) (rac_timeout c) (Some secret_key).

Inductive RelayAdapterError :=
| RaUnsupported (message : string)
| RaInvalidConfig (message : string)
| RaTransport (message : string)
| RaProtocol (message : string).

Definition RelayAdapterError_display (e : RelayAdapterError) : string :=
  match e with
  | RaUnsupported message => "unsupported: " +:+ message
  | RaInvalidConfig message => "invalid config: " +:+ message
  | RaTransport message => "transport error: " +:+ message
  | RaProtocol message => "protocol error: " +:+ message
  end.

(** ** Signed events *)

Record SignedNostrEvent := mkSignedNostrEvent {
  sn_id : string; sn_pubkey : string; sn_created_at : Z; sn_kind : Z; sn_tags : tag_list;
  sn_content : string; sn_sig : string
}.

Section Signing.
Context `{JsonLib} `{HexLib} `{CryptoLib} `{SignerKeys}.

Definition adapter_event_id (pubkey : string) (created_at kind : Z) (tags : tag_list) (content : string)
    : result RelayAdapterError string :=
  Ok (hex_encode (sha256 (json_to_string (JArray [JPosInt 0; JString pubkey; json_int created_at; json_int kind;
    JArray ((λ t : tag, JArray (JString <$> t)) <$> tags); JString content])))).

(** [Message::from_digest_slice] takes 32 bytes. *)
Definition sign_event_id (key : SecretKey) (event_id : string) : result RelayAdapterError string :=
  digest ← ok_or (RaProtocol "failed to decode event id") (hex_decode event_id);
  _ ← fail_if (negb (bool_decide (String.length digest = 32))) (RaProtocol "invalid event id");
  Ok (hex_encode (sign_schnorr key digest)).

Definition signed_with (build : string → Z → Z → tag_list → string → result RelayAdapterError string)
    (sign : SecretKey → string → result RelayAdapterError string)
    (created_at kind : Z) (tags : tag_list) (content : string) (key : SecretKey)
    : result RelayAdapterError SignedNostrEvent :=
  let pubkey_hex := hex_encode (xonly_public key) in
  event_id ← build pubkey_hex created_at kind tags content;
  sig ← sign key event_id;
  Ok (mkSignedNostrEvent event_id pubkey_hex created_at kind tags content sig).

Definition signed : Z → Z → tag_list → string → SecretKey → result RelayAdapterError SignedNostrEvent :=
  signed_with adapter_event_id sign_event_id.

(** [from_announcement] takes the time of the clock. *)
Definition from_announcement (a : RepoAnnouncement) (key : SecretKey) (created_at : Z)
    : result RelayAdapterError SignedNostrEvent :=
  _ ← map_err (λ err, RaInvalidConfig (CoreError_display err)) (RepoAnnouncement_validate a);
  signed created_at KIND_GIT_REPO_ANNOUNCEMENT (RepoAnnouncement_to_tags a) "" key.

(** The probe writes the announcement of a repository that does not exist. *)
Definition build_probe_event (relay_url : string) (key : SecretKey) (now : Z)
    : result RelayAdapterError SignedNostrEvent :=
  let identifier := "probe-" +:+ pretty now in
  from_announcement (mkRepoAnnouncement identifier (Some "gittree probe") None None
    ["https://example.invalid/" +:+ identifier +:+ ".git"] [] [relay_url] [] [] []) key now.
End Signing.

(** ** Messages of the relay *)

Inductive WsMessage := WsText (text : string) | WsOther.

Definition as_bool (v : json) : option bool := match v with JBool b => Some b | _ => None end.

Section Messages.
Context `{JsonLib} `{JsonErrors}.

(** What the three readers start with: an array that begins with [name] and has at least
    [n] members. *)
Definition parse_message (name : string) (n : nat) (message : WsMessage)
    : result RelayAdapterError (option (list json)) :=
  match message with
  | WsOther => Ok None
  | WsText text =>
      value ← ok_or (RaProtocol (json_error text)) (json_from_str text);
      match as_array value with
      | None => Ok None
      | Some array =>
          if bool_decide (length array < n) || negb (bool_decide (head array ≫= as_str = Some name))
          then Ok None else Ok (Some array)
      end
  end.

Definition str_at (array : list json) (i : nat) : option string := value ← array !! i; as_str value.

Definition parse_ok_message (message : WsMessage) : result RelayAdapterError (option (string * bool * option string)) :=
  array ← parse_message "OK" 3 message;
  Ok (option_map (λ array, (default "" (str_at array 1), default false (value ← array !! 2; as_bool value), str_at array 3)) array).

Definition parse_event_message (message : WsMessage) : result RelayAdapterError (option (string * json)) :=
  array ← parse_message "EVENT" 3 message;
  Ok (option_map (λ array : list json, (default "" (str_at array 1), default JNull (array !! 2))) array).

Definition parse_eose_message (message : WsMessage) : result RelayAdapterError (option string) :=
  array ← parse_message "EOSE" 2 message;
  Ok (option_map (λ array, default "" (str_at array 1)) array).

(** [value.get(key)] *)
Definition json_get (key : string) (v : json) : option json :=
  m ← as_object v;
  snd <$> List.find (λ p, p.1 == key) m.
End Messages.

(** ** Connections *)

(** What [timeout(remaining, read.next())] gives. *)
Inductive ReadOutcome :=
| RdElapsed
| RdClosed
| RdError (err : string)
| RdMessage (message : WsMessage).

(** One round of a loop that waits: the clock when it begins, and what it reads. *)
Record Round := mkRound { rd_now : Z; rd_outcome : ReadOutcome }.

(** What was sent, what the next sends give, the instants at which waits begin, and the
    rounds to come. *)
Record Connection := mkConnection {
  cn_sent : list string; cn_sends : list (result string unit); cn_starts : list Z; cn_rounds : list Round
}.

Abbreviation conversing := (stateful Connection (fault RelayAdapterError)).

(** [write.send(WsMessage::Text(text))]; it succeeds once [cn_sends] is used up. *)
Definition ws_send (text : string) : stateful Connection string unit := λ c,
  (default (Ok tt) (head (cn_sends c)),
   mkConnection (cn_sent c ++ [text]) (tail (cn_sends c)) (cn_starts c) (cn_rounds c)).
Definition send_text (text : string) : conversing unit :=
  map_err_st (λ err, Raised (RaTransport err)) (ws_send text).

Section Waiting.
Context `{JsonLib} `{JsonErrors}.

(** The rounds of [wait_for_ok]; [None] while it waits.  A round that the clock finds at the
    deadline reads nothing. *)
Fixpoint ok_rounds (deadline : Z) (event_id : string) (rounds : list Round)
    : option (result RelayAdapterError unit) * list Round :=
  match rounds with
  | [] => (None, [])
  | round :: rest =>
      if bool_decide (deadline ≤ rd_now round)%Z then (Some (Err (RaTransport "probe ok timeout")), rounds)
      else
        match rd_outcome round with
        | RdElapsed => (Some (Err (RaTransport "probe ok timeout")), rest)
        | RdClosed => (Some (Err (RaTransport "relay closed")), rest)
        | RdError err => (Some (Err (RaTransport err)), rest)
        | RdMessage message =>
            match parse_ok_message message with
            | Err err => (Some (Err err), rest)
            | Ok None => ok_rounds deadline event_id rest
            | Ok (Some (ok_id, ok, reason)) =>
                if negb (ok_id == event_id) then ok_rounds deadline event_id rest
                else if ok then (Some (Ok tt), rest)
                else (Some (Err (RaProtocol ("event rejected: " +:+ default "unknown" reason))), rest)
            end
        end
  end.

Fixpoint event_rounds (deadline : Z) (sub_id event_id : string) (rounds : list Round)
    : option (result RelayAdapterError unit) * list Round :=
  match rounds with
  | [] => (None, [])
  | round :: rest =>
      if bool_decide (deadline ≤ rd_now round)%Z then (Some (Err (RaTransport "probe event timeout")), rounds)
      else
        match rd_outcome round with
        | RdElapsed => (Some (Err (RaTransport "probe event timeout")), rest)
        | RdClosed => (Some (Err (RaTransport "relay closed")), rest)
        | RdError err => (Some (Err (RaTransport err)), rest)
        | RdMessage message =>
            let eose :=
              if bool_decide (mjoin (ok (parse_eose_message message)) = Some sub_id)
              then (Some (Err (RaProtocol "probe event not found")), rest)
              else event_rounds deadline sub_id event_id rest in
            match parse_event_message message with
            | Err err => (Some (Err err), rest)
            | Ok None => eose
            | Ok (Some (event_sub_id, event)) =>
                if negb (event_sub_id == sub_id) then event_rounds deadline sub_id event_id rest
                else if bool_decide (json_get "id" event ≫= as_str = Some event_id) then (Some (Ok tt), rest)
                else eose
            end
        end
  end.

(** [Instant::now() + timeout] and the rounds until then. *)
Definition wait (rounds : Z → list Round → option (result RelayAdapterError unit) * list Round) (timeout : Z)
    : conversing (option unit) := λ c,
  let deadline := (default 0 (head (cn_starts c)) + timeout)%Z in
  let '(r, rest) := rounds deadline (cn_rounds c) in
  (match r with None => Ok None | Some (Ok _) => Ok (Some tt) | Some (Err err) => Err (Raised err) end,
   mkConnection (cn_sent c) (cn_sends c) (tail (cn_starts c)) rest).

Definition wait_for_ok (event_id : string) : Z → conversing (option unit) :=
  wait (λ deadline, ok_rounds deadline event_id).
Definition wait_for_event (sub_id event_id : string) : Z → conversing (option unit) :=
  wait (λ deadline, event_rounds deadline sub_id event_id).
End Waiting.

(** ** The adapters *)

(** [json!(event)]: an object whose members are sorted by name. *)
Definition event_value (e : SignedNostrEvent) : json :=
  JObject [("content", JString (sn_content e)); ("created_at", json_int (sn_created_at e)); ("id", JString (sn_id e));
    ("kind", json_int (sn_kind e)); ("pubkey", JString (sn_pubkey e)); ("sig", JString (sn_sig e));
    ("tags", JArray ((λ t : tag, JArray (JString <$> t)) <$> sn_tags e))].
Definition quoted (s : string) : string := String (ascii_of_nat 34) (s +:+ String (ascii_of_nat 34) "").
Definition event_message `{JsonLib} (e : SignedNostrEvent) : string :=
  "[" +:+ quoted "EVENT" +:+ "," +:+ json_to_string (event_value e) +:+ "]".

Definition normalize_ws_url `{UrlScheme} (input : string) : result RelayAdapterError Url :=
  url ← ok_or (RaInvalidConfig "invalid relay url") (url_parse input);
  if bool_decide (url_scheme url ∈ ["wss"; "ws"]) then Ok url
  else if url_scheme url == "https" then Ok (default url (url_set_scheme "wss" url))
  else if url_scheme url == "http" then Ok (default url (url_set_scheme "ws" url))
  else Err (RaInvalidConfig "unsupported relay scheme").

Record NostrRsRelayAdapter := mkNostrRsRelayAdapter { nra_config : RelayAdapterConfig }.
Record WebhookRelayAdapter := mkWebhookRelayAdapter { wra_config : RelayAdapterConfig }.
Record WebsocketRelayAdapter := mkWebsocketRelayAdapter { wsa_config : RelayAdapterConfig }.

Section Adapters.
Context `{JsonLib} `{JsonErrors} `{HexLib} `{CryptoLib} `{SignerKeys} `{UrlScheme}.

(** What the surroundings give: the connection to a URL, a fresh key and the time. *)
Record Surroundings := mkSurroundings {
  su_connect : Url → result string Connection; su_random_key : SecretKey; su_now : Z
}.
(** The result, [None] while it waits, and what was sent. *)
Definition outcome (A : Type) : Type := result (fault RelayAdapterError) (option A) * list string.

Class RelayAdapter (T : Type) := {
  relay_info : T → result RelayAdapterError (option RelayInfoDocument);
  probe_write_read : T → Surroundings → outcome unit;
  publish_event : T → SignedNostrEvent → Surroundings → outcome unit
}.

Definition unsupported {A} (message : string) : outcome A := (Err (Raised (RaUnsupported message)), []).

#[export] Instance NostrRs_adapter : RelayAdapter NostrRsRelayAdapter := {|
  relay_info _ := Err (RaUnsupported "nostr-rs-relay adapter not enabled");
  probe_write_read _ _ := unsupported "nostr-rs-relay adapter not enabled";
  publish_event _ _ _ := unsupported "nostr-rs-relay adapter not enabled"
|}.
#[export] Instance Webhook_adapter : RelayAdapter WebhookRelayAdapter := {|
  relay_info _ := Err (RaUnsupported "webhook adapter not configured");
  probe_write_read _ _ := unsupported "webhook adapter not configured";
  publish_event _ _ _ := unsupported "webhook adapter not configured"
|}.

Definition load_secret_key (config : RelayAdapterConfig) (random : SecretKey) : result RelayAdapterError SecretKey :=
  match rac_secret_key config with
  | Some hex_key =>
      key ← ok_or (RaInvalidConfig "secret key must be hex") (hex_decode hex_key);
      ok_or (RaInvalidConfig ("invalid secret key: " +:+ secret_key_error key)) (secret_from_slice key)
  | None => Ok random
  end.

(** The URL and the connection that both operations begin with. *)
Definition on_connection (config : RelayAdapterConfig) (w : Surroundings) (c : conversing (option unit)) : outcome unit :=
  match normalize_ws_url (rac_relay_url config) with
  | Err err => (Err (Raised err), [])
  | Ok url =>
      match su_connect w url with
      | Err err => (Err (Raised (RaTransport err)), [])
      | Ok connection => let '(r, connection) := c connection in (r, cn_sent connection)
      end
  end.

Definition websocket_publish (config : RelayAdapterConfig) (event : SignedNostrEvent) : conversing (option unit) :=
  _ ← send_text (event_message event);
  wait_for_ok (sn_id event) (rac_timeout config).

(** [let _ = write.send(…)] and the success. *)
Definition close_subscription (sub_id : string) : conversing (option unit) := λ c,
  (Ok (Some tt), (ws_send ("[" +:+ quoted "CLOSE" +:+ "," +:+ quoted sub_id +:+ "]") c).2).

Definition websocket_probe (config : RelayAdapterConfig) (random : SecretKey) (now : Z) : conversing (option unit) :=
  key ← attempt (load_secret_key config random);
  event ← attempt (build_probe_event (rac_relay_url config) key now);
  _ ← send_text (event_message event);
  answered ← wait_for_ok (sn_id event) (rac_timeout config);
  match answered with
  | None => mret None
  | Some _ =>
      prefix ← expect (slice_to 8 (sn_id event));
      let sub_id := "gittree-probe-" +:+ prefix in
      let filter := json_to_string (JObject [("ids", JArray [JString (sn_id event)])]) in
      _ ← send_text ("[" +:+ quoted "REQ" +:+ "," +:+ quoted sub_id +:+ "," +:+ filter +:+ "]");
      found ← wait_for_event sub_id (sn_id event) (rac_timeout config);
      match found with
      | None => mret None
      | Some _ => close_subscription sub_id
      end
  end.

#[export] Instance Websocket_adapter : RelayAdapter WebsocketRelayAdapter := {|
  relay_info _ := Ok None;
  probe_write_read a w := on_connection (wsa_config a) w (websocket_probe (wsa_config a) (su_random_key w) (su_now w));
  publish_event a event w := on_connection (wsa_config a) w (websocket_publish (wsa_config a) event)
|}.
End Adapters.

(** ** Waiting for an answer *)

(** A loop over rounds that a round lets go on, ends with success, or ends with an error. *)
Section FirstAnswer.
Context (loop : list Round → option (result RelayAdapterError unit) * list Round) (passes answers : Round → Prop).
Context (loop_nil : loop [] = (None, [])) (exclusive : ∀ round, passes round → answers round → False).
Context (loop_cons : ∀ round rest,
  (passes round ∧ loop (round :: rest) = loop rest) ∨
  (answers round ∧ loop (round :: rest) = (Some (Ok tt), rest)) ∨
  ((∃ err, (loop (round :: rest)).1 = Some (Err err)) ∧ ¬ passes round ∧ ¬ answers round)).

(** A success of the loop, exactly. *)
Lemma first_answer rounds rest : loop rounds = (Some (Ok tt), rest) ↔
  ∃ before round, rounds = before ++ round :: rest ∧ Forall passes before ∧ answers round.
Proof.
  induction rounds as [|round rounds IH].
  { rewrite loop_nil. split; [done|]. by intros ([|] & ? & ? & _). }
  destruct (loop_cons round rounds) as [[Hs ->]|[[Ha ->]|[[err He] [Hn Hn']]]].
  - rewrite IH. split.
    + intros (before & r & -> & Hb & Hr). by exists (round :: before), r; split_and!; [|constructor|].
    + intros ([|x before] & r & Heq & Hb & Hr); simplify_eq/=; [by destruct (exclusive r)|].
      apply Forall_cons in Hb as [_ Hb]. by exists before, r.
  - split; [intros [= <-]; by exists [], round|].
    intros ([|x before] & r & Heq & Hb & Hr); simplify_eq/=; [done|].
    apply Forall_cons in Hb as [Hx _]. by destruct (exclusive x).
  - split; [intros E; by rewrite E in He|].
    intros ([|x before] & r & Heq & Hb & Hr); simplify_eq/=; [done|]. by apply Forall_cons in Hb as [? _].
Qed.
End FirstAnswer.

Section WaitFacts.
Context `{JsonLib} `{JsonErrors} (deadline : Z) (event_id : string).

(** In time, the round reads a message that says nothing of the event. *)
Definition says_nothing (round : Round) : Prop :=
  (rd_now round < deadline)%Z ∧ ∃ m, rd_outcome round = RdMessage m ∧
    (parse_ok_message m = Ok None ∨ ∃ id ok reason, parse_ok_message m = Ok (Some (id, ok, reason)) ∧ id ≠ event_id).

(** In time, the round reads that the relay accepted the event. *)
Definition acknowledges (round : Round) : Prop :=
  (rd_now round < deadline)%Z ∧ ∃ m reason, rd_outcome round = RdMessage m ∧
    parse_ok_message m = Ok (Some (event_id, true, reason)).

(** The first answer about the event is that it was accepted. *)
Definition acknowledged (rounds : list Round) : Prop :=
  ∃ before round after, rounds = before ++ round :: after ∧ Forall says_nothing before ∧ acknowledges round.

Lemma ok_rounds_cases round rest :
  (says_nothing round ∧ ok_rounds deadline event_id (round :: rest) = ok_rounds deadline event_id rest) ∨
  (acknowledges round ∧ ok_rounds deadline event_id (round :: rest) = (Some (Ok tt), rest)) ∨
  ((∃ err, (ok_rounds deadline event_id (round :: rest)).1 = Some (Err err)) ∧ ¬ says_nothing round ∧ ¬ acknowledges round).
Proof.
  unfold says_nothing, acknowledges. destruct round as [now out]. cbn [ok_rounds rd_now rd_outcome].
  case_bool_decide as Hd; [right; right; split_and!; [by eexists|intros [? _]; lia|intros [? _]; lia]|].
  destruct out as [| | |m]; [right; right; split_and!; [by eexists|naive_solver|naive_solver]..|].
  destruct (parse_ok_message m) as [[[[id acc] reason]|]|err] eqn:Em.
  - destruct (String.eqb_spec id event_id) as [->|Hne]; cbn [negb].
    + destruct acc; [right; left; split; [split; [lia|by exists m, reason]|done]|].
      right. right. split_and!; [by eexists| |].
      * intros [_ (m0 & [= <-] & [E|(? & ? & ? & E & ?)])]; congruence.
      * intros [_ (m0 & r0 & [= <-] & E)]. congruence.
    + left. split; [|done]. split; [lia|]. exists m. split; [done|]. right. by exists id, acc, reason.
  - left. split; [|done]. split; [lia|]. eauto.
  - right. right. split_and!; [by eexists| |].
    + intros [_ (m0 & [= <-] & [E|(? & ? & ? & E & ?)])]; congruence.
    + intros [_ (m0 & r0 & [= <-] & E)]. congruence.
Qed.

Lemma ok_rounds_first rounds rest : ok_rounds deadline event_id rounds = (Some (Ok tt), rest) ↔
  ∃ before round, rounds = before ++ round :: rest ∧ Forall says_nothing before ∧ acknowledges round.
Proof.
  apply first_answer; [done| |apply ok_rounds_cases].
  intros r [_ (m & Hm & [E|(? & ? & ? & E & ?)])] [_ (m' & reason & Hm' & Hr)]; congruence.
Qed.

Lemma ok_rounds_Ok rounds : (ok_rounds deadline event_id rounds).1 = Some (Ok tt) ↔ acknowledged rounds.
Proof.
  unfold acknowledged. destruct (ok_rounds deadline event_id rounds) as [r rest] eqn:E. simpl. split.
  - intros ->. apply ok_rounds_first in E as (before & round & H'). eauto.
  - intros (before & round & after & H'). assert (ok_rounds deadline event_id rounds = (Some (Ok tt), after)) as E'
      by (apply ok_rounds_first; eauto). rewrite E in E'. by injection E' as -> _.
Qed.

(** The loop ends at the deadline at the latest. *)
Lemma ok_rounds_ends rounds round :
  round ∈ rounds → (deadline ≤ rd_now round)%Z → (ok_rounds deadline event_id rounds).1 ≠ None.
Proof.
  induction rounds as [|r rest IH]; [by intros ?%not_elem_of_nil|]. intros Hin Hd.
  destruct (ok_rounds_cases r rest) as [[[Hr _] ->]|[[_ ->]|[[err ->] _]]]; [|done|done].
  apply elem_of_cons in Hin as [->|Hin]; [lia|auto].
Qed.

Context (sub_id : string).

(** In time, the round reads a message that neither has the event for the subscription nor
    ends the events of the subscription. *)
Definition goes_on (round : Round) : Prop :=
  (rd_now round < deadline)%Z ∧ ∃ m, rd_outcome round = RdMessage m ∧
    ((∃ sub event, parse_event_message m = Ok (Some (sub, event)) ∧ sub ≠ sub_id) ∨
     (parse_event_message m = Ok None ∨
      ∃ event, parse_event_message m = Ok (Some (sub_id, event)) ∧ json_get "id" event ≫= as_str ≠ Some event_id) ∧
     mjoin (ok (parse_eose_message m)) ≠ Some sub_id).

(** In time, the round reads the event with the id, for the subscription. *)
Definition brings (round : Round) : Prop :=
  (rd_now round < deadline)%Z ∧ ∃ m event, rd_outcome round = RdMessage m ∧
    parse_event_message m = Ok (Some (sub_id, event)) ∧ json_get "id" event ≫= as_str = Some event_id.

Lemma event_rounds_cases round rest :
  (goes_on round ∧ event_rounds deadline sub_id event_id (round :: rest) = event_rounds deadline sub_id event_id rest) ∨
  (brings round ∧ event_rounds deadline sub_id event_id (round :: rest) = (Some (Ok tt), rest)) ∨
  ((∃ err, (event_rounds deadline sub_id event_id (round :: rest)).1 = Some (Err err)) ∧ ¬ goes_on round ∧ ¬ brings round).
Proof.
  unfold goes_on, brings. destruct round as [now out]. cbn [event_rounds rd_now rd_outcome].
  case_bool_decide as Hd; [right; right; split_and!; [by eexists|intros [? _]; lia|intros [? _]; lia]|].
  destruct out as [| | |m]; [right; right; split_and!; [by eexists|by intros [_ (m & [=] & _)]|by intros [_ (m & e & [=] & _)]]..|].
  destruct (parse_event_message m) as [[[sub event]|]|err] eqn:Em.
  - destruct (String.eqb_spec sub sub_id) as [->|Hne]; cbn [negb].
    + case_bool_decide as Hid; [right; left; split; [split; [lia|by exists m, event]|done]|].
      case_bool_decide as He.
      * right. right. split_and!; [by eexists| |].
        -- intros [_ (m0 & [= <-] & [(? & ? & E & ?)|[_ ?]])]; congruence.
        -- intros [_ (m0 & ? & [= <-] & E & ?)]. congruence.
      * left. split; [|done]. split; [lia|]. exists m. split; [done|]. right. eauto.
    + left. split; [|done]. split; [lia|]. exists m. split; [done|]. left. eauto.
  - case_bool_decide as He.
    + right. right. split_and!; [by eexists| |].
      * intros [_ (m0 & [= <-] & [(? & ? & E & ?)|[_ ?]])]; congruence.
      * intros [_ (m0 & ? & [= <-] & E & ?)]. congruence.
    + left. split; [|done]. split; [lia|]. exists m. eauto.
  - right. right. split_and!; [by eexists| |].
    + intros [_ (m0 & [= <-] & [(? & ? & E & ?)|[[E|(? & E & _)] _]])]; congruence.
    + intros [_ (m0 & ? & [= <-] & E & ?)]. congruence.
Qed.

Lemma event_rounds_first rounds rest : event_rounds deadline sub_id event_id rounds = (Some (Ok tt), rest) ↔
  ∃ before round, rounds = before ++ round :: rest ∧ Forall goes_on before ∧ brings round.
Proof.
  apply first_answer; [done| |apply event_rounds_cases].
  intros r [_ (m & Hm & Hg)] [_ (m' & event & Hm' & He & Hid)]. rewrite Hm in Hm'. injection Hm' as <-. rewrite He in Hg.
  destruct Hg as [(? & ? & [= <- _] & ?)|[[?|(? & [= <-] & ?)] _]]; done.
Qed.
End WaitFacts.

(** ** Publishing *)

Section PublishFacts.
Context `{JsonLib} `{JsonErrors} `{HexLib} `{CryptoLib} `{SignerKeys} `{UrlScheme}.

(** The relay at the configured URL was sent the event, and acknowledged it in time. *)
Definition relay_acknowledged (config : RelayAdapterConfig) (event : SignedNostrEvent) (w : Surroundings) : Prop :=
  ∃ url c, normalize_ws_url (rac_relay_url config) = Ok url ∧ su_connect w url = Ok c ∧
    default (Ok tt) (head (cn_sends c)) = Ok tt ∧
    acknowledged (default 0 (head (cn_starts c)) + rac_timeout config)%Z (sn_id event) (cn_rounds c).

Lemma publish_Ok config event w :
  (publish_event (mkWebsocketRelayAdapter config) event w).1 = Ok (Some tt) ↔ relay_acknowledged config event w.
Proof.
  unfold relay_acknowledged. cbn [publish_event Websocket_adapter wsa_config]. unfold on_connection.
  destruct (normalize_ws_url (rac_relay_url config)) as [url|]; [|split; [done|by intros (? & ? & ? & _)]].
  destruct (su_connect w url) as [c|] eqn:Ec; [|split; [done|intros (? & ? & [= <-] & ? & _); congruence]].
  unfold websocket_publish, send_text, map_err_st, ws_send, mbind, stateful_bind.
  setoid_rewrite <-ok_rounds_Ok. destruct (default (Ok tt) (head (cn_sends c))) as [[]|err] eqn:Es; simpl.
  2:{ split; [done|]. intros (? & ? & [= <-] & ? & ? & _). congruence. }
  unfold wait_for_ok, wait. simpl. set (deadline := (_ + _)%Z). fold deadline.
  destruct (ok_rounds deadline (sn_id event) (cn_rounds c)) as [r rest] eqn:Er. split.
  - intros Hr. exists url, c. split_and!; [done..|]. fold deadline. rewrite Er. by destruct r as [[[]|]|].
  - intros (url' & c' & [= <-] & Hc & _ & Hr). rewrite Ec in Hc. injection Hc as <-. fold deadline in Hr.
    rewrite Er in Hr. simpl in Hr. by subst.
Qed.

Lemma publish_sent config event w url c :
  normalize_ws_url (rac_relay_url config) = Ok url → su_connect w url = Ok c →
  (publish_event (mkWebsocketRelayAdapter config) event w).2 = cn_sent c ++ [event_message event].
Proof.
  intros Hu Hc. cbn [publish_event Websocket_adapter wsa_config]. unfold on_connection. rewrite Hu, Hc.
  unfold websocket_publish, send_text, map_err_st, ws_send, mbind, stateful_bind, wait_for_ok, wait.
  destruct (default (Ok tt) (head (cn_sends c))); simpl; [|done]. by destruct (ok_rounds _ _ _).
Qed.

(** A publication comes to an end, at the deadline at the latest, and never panics. *)
Lemma publish_ends config event w :
  (∀ url c, normalize_ws_url (rac_relay_url config) = Ok url → su_connect w url = Ok c →
     ∃ round, round ∈ cn_rounds c ∧ (default 0 (head (cn_starts c)) + rac_timeout config ≤ rd_now round)%Z) →
  match (publish_event (mkWebsocketRelayAdapter config) event w).1 with
  | Ok None | Err Panicked => False
  | _ => True
  end.
Proof.
  intros Hend. cbn [publish_event Websocket_adapter wsa_config]. unfold on_connection.
  destruct (normalize_ws_url (rac_relay_url config)) as [url|]; [|done].
  destruct (su_connect w url) as [c|] eqn:Ec; [|done]. destruct (Hend url c eq_refl Ec) as (round & Hin & Hd).
  unfold websocket_publish, send_text, map_err_st, ws_send, mbind, stateful_bind, wait_for_ok, wait.
  destruct (default (Ok tt) (head (cn_sends c))); simpl; [|done].
  pose proof (ok_rounds_ends _ (sn_id event) _ _ Hin Hd) as Hn. by destruct (ok_rounds _ _ _) as [[[[]|]|] rest].
Qed.

(** The messages of a probe: the event, the request for it under a subscription of its own,
    and the end of the subscription. *)
Definition probe_messages (event : SignedNostrEvent) (sub_id : string) : list string :=
  [event_message event;
   "[" +:+ quoted "REQ" +:+ "," +:+ quoted sub_id +:+ "," +:+
     json_to_string (JObject [("ids", JArray [JString (sn_id event)])]) +:+ "]";
   "[" +:+ quoted "CLOSE" +:+ "," +:+ quoted sub_id +:+ "]"].

(** The relay at the configured URL was sent a signed announcement, acknowledged it in time,
    and then, asked for it, sent the event with its id back in time; [sent] is what was sent. *)
Definition relay_kept (config : RelayAdapterConfig) (w : Surroundings) (sent : list string) : Prop :=
  ∃ url c key event prefix, normalize_ws_url (rac_relay_url config) = Ok url ∧ su_connect w url = Ok c ∧
    load_secret_key config (su_random_key w) = Ok key ∧
    build_probe_event (rac_relay_url config) key (su_now w) = Ok event ∧ slice_to 8 (sn_id event) = Some prefix ∧
    default (Ok tt) (cn_sends c !! 0) = Ok tt ∧ default (Ok tt) (cn_sends c !! 1) = Ok tt ∧
    sent = cn_sent c ++ probe_messages event ("gittree-probe-" +:+ prefix) ∧
    ∃ before round middle found after, cn_rounds c = before ++ round :: middle ++ found :: after ∧
      let accepted := (default 0 (cn_starts c !! 0%nat) + rac_timeout config)%Z in
      let answered := (default 0 (cn_starts c !! 1%nat) + rac_timeout config)%Z in
      Forall (says_nothing accepted (sn_id event)) before ∧ acknowledges accepted (sn_id event) round ∧
      Forall (goes_on answered (sn_id event) ("gittree-probe-" +:+ prefix)) middle ∧
      brings answered (sn_id event) ("gittree-probe-" +:+ prefix) found.

Lemma lookup_0_head {A} (l : list A) : l !! 0 = head l.
Proof. by destruct l. Qed.
Lemma lookup_1_tail {A} (l : list A) : l !! 1 = head (tail l).
Proof. by destruct l as [|? []]. Qed.

Lemma send_text_Ok text c u c' : send_text text c = (Ok u, c') ↔
  default (Ok tt) (head (cn_sends c)) = Ok tt ∧
  c' = mkConnection (cn_sent c ++ [text]) (tail (cn_sends c)) (cn_starts c) (cn_rounds c).
Proof.
  unfold send_text, map_err_st, ws_send. destruct (default _ (head (cn_sends c))) as [[]|], u; simpl; naive_solver.
Qed.

Lemma wait_Ok rounds timeout c u c' : wait rounds timeout c = (Ok (Some u), c') ↔
  ∃ rest, rounds (default 0 (head (cn_starts c)) + timeout)%Z (cn_rounds c) = (Some (Ok tt), rest) ∧
    c' = mkConnection (cn_sent c) (cn_sends c) (tail (cn_starts c)) rest.
Proof.
  unfold wait. destruct (rounds _ (cn_rounds c)) as [[[[]|]|] rest], u; naive_solver.
Qed.

(** The connection after a probe that succeeds. *)
Lemma websocket_probe_Ok config random now c c' :
  websocket_probe config random now c = (Ok (Some tt), c') ↔
  ∃ key event prefix rest rest', load_secret_key config random = Ok key ∧
    build_probe_event (rac_relay_url config) key now = Ok event ∧ slice_to 8 (sn_id event) = Some prefix ∧
    default (Ok tt) (head (cn_sends c)) = Ok tt ∧ default (Ok tt) (head (tail (cn_sends c))) = Ok tt ∧
    let sub_id := "gittree-probe-" +:+ prefix in
    ok_rounds (default 0 (head (cn_starts c)) + rac_timeout config)%Z (sn_id event) (cn_rounds c) = (Some (Ok tt), rest) ∧
    event_rounds (default 0 (head (tail (cn_starts c))) + rac_timeout config)%Z sub_id (sn_id event) rest =
      (Some (Ok tt), rest') ∧
    c' = mkConnection (cn_sent c ++ probe_messages event sub_id) (tail (tail (tail (cn_sends c))))
           (tail (tail (cn_starts c))) rest'.
Proof.
  unfold websocket_probe, attempt, expect, wait_for_ok, wait_for_event. split.
  - intros (key & ? & [Hk%map_err_Ok ->]%lift_Ok & E)%stateful_bind_Ok.
    apply stateful_bind_Ok in E as (event & ? & [He%map_err_Ok ->]%lift_Ok & E).
    apply stateful_bind_Ok in E as ([] & ? & [E0 ->]%send_text_Ok & E).
    apply stateful_bind_Ok in E as ([[]|] & ? & Ew & E); [|done]. apply wait_Ok in Ew as (rest & Ho & ->).
    apply stateful_bind_Ok in E as (prefix & ? & [Hp%ok_or_Ok ->]%lift_Ok & E).
    apply stateful_bind_Ok in E as ([] & ? & [E1 ->]%send_text_Ok & E).
    apply stateful_bind_Ok in E as ([[]|] & ? & Ew & E); [|done]. apply wait_Ok in Ew as (rest' & Hv & ->).
    injection E as <-. exists key, event, prefix, rest, rest'. split_and!; try done. unfold probe_messages. cbn [cn_sent].
    by rewrite <-!app_assoc.
  - intros (key & event & prefix & rest & rest' & Hk & He & Hp & E0 & E1 & Ho & Hv & ->).
    apply stateful_bind_Ok. exists key, c. split; [by rewrite Hk|].
    apply stateful_bind_Ok. exists event, c. split; [by rewrite He|].
    apply stateful_bind_Ok. eexists tt, _. split; [by apply send_text_Ok|].
    apply stateful_bind_Ok. eexists (Some tt), _. split; [apply wait_Ok; by exists rest|].
    apply stateful_bind_Ok. eexists prefix, _. split; [by rewrite Hp|].
    apply stateful_bind_Ok. eexists tt, _. split; [by apply send_text_Ok|].
    apply stateful_bind_Ok. eexists (Some tt), _. split; [apply wait_Ok; by exists rest'|].
    unfold close_subscription, ws_send, probe_messages. cbn [cn_sent cn_sends cn_starts cn_rounds snd]. by rewrite <-!app_assoc.
Qed.

Lemma probe_Ok config w sent :
  probe_write_read (mkWebsocketRelayAdapter config) w = (Ok (Some tt), sent) ↔ relay_kept config w sent.
Proof.
  unfold relay_kept. setoid_rewrite lookup_0_head. setoid_rewrite lookup_1_tail.
  cbn [probe_write_read Websocket_adapter wsa_config]. unfold on_connection. split.
  - destruct (normalize_ws_url (rac_relay_url config)) as [url|]; [|done]. destruct (su_connect w url) as [c|] eqn:Ec; [|done].
    destruct (websocket_probe _ _ _ c) as [r c'] eqn:E. intros [= -> <-].
    apply websocket_probe_Ok in E as (key & event & prefix & rest & rest' & Hk & He & Hp & E0 & E1 & Ho & Hv & ->).
    apply ok_rounds_first in Ho as (before & round & Hr & Hb & Ha).
    apply event_rounds_first in Hv as (middle & found & -> & Hm & Hf).
    exists url, c, key, event, prefix. split_and!; [done..|]. by exists before, round, middle, found, rest'.
  - intros (url & c & key & event & prefix & -> & -> & Hk & He & Hp & E0 & E1 & -> & before & round & middle & found & after & Hr & Hb & Ha & Hm & Hf).
    rewrite (proj2 (websocket_probe_Ok config (su_random_key w) (su_now w) c
      (mkConnection (cn_sent c ++ probe_messages event ("gittree-probe-" +:+ prefix)) (tail (tail (tail (cn_sends c))))
         (tail (tail (cn_starts c))) after))); [done|].
    exists key, event, prefix, (middle ++ found :: after), after. split_and!; [done..|]. cbv zeta. split_and!; [..|done].
    + apply ok_rounds_first. by exists before, round.
    + apply event_rounds_first. by exists middle, found.
Qed.
End PublishFacts.

(** ** Signed events at the relay *)

(** The same fields in the relay's type of events. *)
Definition relay_event (e : SignedNostrEvent) : NostrEvent :=
  mkNostrEvent (sn_id e) (sn_pubkey e) (sn_created_at e) (sn_kind e) (sn_tags e) (sn_content e) (sn_sig e).

Section SignFacts.
Context `{JsonLib} `{HexLaws} `{CryptoLaws} `{SL : SignerLib} `{!SignerKeys} `{!SchnorrSlices} `{!SignerLaws}.

(** Signing never fails. *)
Lemma signed_Ok created_at kind tags content key :
  ∃ e, signed created_at kind tags content key = Ok e ∧
    e = mkSignedNostrEvent (compute_id (relay_event e)) (hex_encode (xonly_public key)) created_at kind tags content
          (hex_encode (sign_schnorr key (sha256 (canonical_json (relay_event e))))).
Proof.
  unfold signed, signed_with, adapter_event_id. simpl. unfold sign_event_id. rewrite hex_decode_encode. simpl.
  rewrite bool_decide_eq_true_2 by apply sha256_length. simpl. eexists. split; [reflexivity|]. done.
Qed.

Lemma signed_verifies_at_relay created_at kind tags content key e :
  signed created_at kind tags content key = Ok e →
  verify (relay_event e) = Ok tt ∧ sn_pubkey e = hex_encode (xonly_public key) ∧ sn_created_at e = created_at ∧
  sn_kind e = kind ∧ sn_tags e = tags ∧ sn_content e = content.
Proof.
  destruct (signed_Ok created_at kind tags content key) as (e' & -> & He). intros [= ->].
  split; [|by rewrite He]. unfold verify. set (d := sha256 _) in *.
  assert (ev_id (relay_event e) = hex_encode d) as ->.
  { unfold d. fold (compute_id (relay_event e)). rewrite He at 1. done. }
  rewrite String.eqb_refl. cbn [negb].
  destruct (sign_schnorr_verifies key d ltac:(apply sha256_length)) as (sig & pk & Hs & Hp & Hv).
  assert (ev_sig (relay_event e) = hex_encode (sign_schnorr key d)) as -> by (unfold d; by rewrite He at 1).
  assert (ev_pubkey (relay_event e) = hex_encode (xonly_public key)) as -> by (by rewrite He).
  rewrite signature_from_hex, xonly_from_hex, Hs, Hp. simpl. by rewrite Hv.
Qed.

(** Signing an announcement fails on invalid ones only. *)
Lemma announcement_signed a key created_at :
  RepoAnnouncement_validate a = Ok tt →
  ∃ e, from_announcement a key created_at = Ok e ∧
    signed created_at KIND_GIT_REPO_ANNOUNCEMENT (RepoAnnouncement_to_tags a) "" key = Ok e.
Proof.
  intros Hval. unfold from_announcement. rewrite Hval. simpl.
  destruct (signed_Ok created_at KIND_GIT_REPO_ANNOUNCEMENT (RepoAnnouncement_to_tags a) "" key) as (e & He & _). eauto.
Qed.
End SignFacts.

(** ** A relay that acknowledges *)

Module AdapterSample.
#[local] Existing Instances hex_model hex_model_laws crypto_model crypto_model_laws slices_model.
(** Texts are read as the arrays they name. *)
#[local] Instance json : JsonLib := {|
  json_from_str s := if s == "other" then Some (JArray [JString "OK"; JString "x"; JBool true])
                     else if s == "accepted" then Some (JArray [JString "OK"; JString "id"; JBool true]) else None;
  json_to_string v := match v with JArray (_ :: JString p :: _) => p | _ => "" end
|}.
#[local] Instance errors : JsonErrors := {| json_error _ := "expected value" |}.
#[local] Instance signer : SignerLib :=
  {| SecretKey := string; secret_from_slice b := Some b; sign_schnorr k m := m +:+ digest_model k |}.
#[local] Instance keys : SignerKeys := {| xonly_public k := digest_model k; secret_key_error _ := "malformed" |}.
(** The same crate, whose [from_str] decodes hexadecimal. *)
Definition crypto : CryptoLib := {|
  Signature := string; XOnlyPublicKey := string; sha256 := digest_model;
  signature_from_str := hex_decode; xonly_from_str := hex_decode; verify_schnorr sig m pk := sig == (m +:+ pk)
|}.
Definition slices : @SchnorrSlices crypto := @Build_SchnorrSlices crypto (λ b, Some b) (λ b, Some b).
#[local] Instance urls : UrlLib := {|
  Url := string; url_parse s := Some s; url_scheme s := if starts_with "https" s then "https" else "wss"; url_host_str _ := Some "relay";
  url_port _ := None; url_path _ := "/"
|}.
#[local] Instance schemes : UrlScheme := {| url_set_scheme s u := Some (s +:+ "://relay") |}.

Lemma crypto_laws : @CryptoLaws crypto.
Proof. constructor. apply digest_model_length. Qed.
Lemma signer_laws : @SignerLaws signer keys crypto slices hex_model.
Proof.
  constructor; simpl.
  - apply digest_model_length.
  - intros k m Hm. rewrite str_length_app, digest_model_length. lia.
  - intros k m _. do 2 eexists. split_and!; [done..|]. apply String.eqb_refl.
  - apply (@hex_decode_encode hex_model hex_model_laws).
  - apply (@hex_decode_encode hex_model hex_model_laws).
Qed.

Definition config : RelayAdapterConfig := RelayAdapterConfig_new "https://relay".
Definition event : SignedNostrEvent := mkSignedNostrEvent "id" "pk" 1 1 [] "" "sig".
Definition connection : Connection :=
  mkConnection [] [] [100%Z] [mkRound 200 (RdMessage WsOther); mkRound 300 (RdMessage (WsText "other"));
                              mkRound 400 (RdMessage (WsText "accepted"))].
Definition surroundings : Surroundings := mkSurroundings (λ _, Ok connection) "key" 0.

Example sample_acknowledged : relay_acknowledged config event surroundings.
Proof. apply publish_Ok. by vm_compute. Qed.

End AdapterSample.
