(* ===== verification/CommandState.v ===== *)
(** * [CommandState]: the state that control commands act on

    Models [crates/storage/src/command_state.rs] and the [v1_*] methods of
    [PostgresRepositories] in [crates/storage/src/postgres.rs], with the tables
    of [migrations/0013_v1_command_state.sql].  A table is a finite map from
    its primary key to the other columns; each method runs its statement on
    the tables, and any statement may fail, with or without having taken
    effect at the server.  [CommandView] is the abstract state: what the tables
    mean as records.  Each method is shown to [realise] its operation on it. *)

From S2P Require Import Prelude RustStr Externals Nip34Common Membership Database.

(** ** [command_state.rs] *)

Inductive CommandStatus := CsOk | CsError.

Definition CommandStatus_as_str (s : CommandStatus) : string :=
  match s with CsOk => "ok" | CsError => "error" end.

Record CommandLogRecord := mkCommandLogRecord {
  cl_event_id : bytes;
  cl_pubkey : bytes;
  cl_namespace : string;
  cl_action : string;
  cl_target : option string;
  cl_args_json : json;
  cl_status : CommandStatus;
  cl_code : string;
  cl_message : string;
  cl_created_at : Z   (* i64 *)
}.

Inductive AccountLifecycle := AlActive | AlDeleted.

Definition AccountLifecycle_as_str (s : AccountLifecycle) : string :=
  match s with AlActive => "active" | AlDeleted => "deleted" end.

Record AccountStateRecord := mkAccountStateRecord {
  as_pubkey : bytes;
  as_status : AccountLifecycle;
  as_created_at : Z;
  as_updated_at : Z;
  as_deleted_at : option Z
}.

Inductive ProfileVisibilityV1 := PvPublic | PvPrivate.

Definition ProfileVisibilityV1_as_str (v : ProfileVisibilityV1) : string :=
  match v with PvPublic => "public" | PvPrivate => "private" end.
Definition ProfileVisibilityV1_parse (value : string) : result StorageError ProfileVisibilityV1 :=
  if value == "public" then Ok PvPublic
  else if value == "private" then Ok PvPrivate
  else Err (StInvalidField "visibility" value).

Record ProfileStateRecord := mkProfileStateRecord {
  ps_pubkey : bytes;
  ps_display_name : option string;
  ps_bio : option string;
  ps_avatar_url : option string;
  ps_website_url : option string;
  ps_location : option string;
  ps_visibility : ProfileVisibilityV1;
  ps_updated_at : Z
}.

Inductive RepoVisibilityV1 := RvPublic | RvPrivate.

Definition RepoVisibilityV1_as_str (v : RepoVisibilityV1) : string :=
  match v with RvPublic => "public" | RvPrivate => "private" end.
Definition RepoVisibilityV1_parse (value : string) : result StorageError RepoVisibilityV1 :=
  if value == "public" then Ok RvPublic
  else if value == "private" then Ok RvPrivate
  else Err (StInvalidField "visibility" value).

Record RepoStateV1Record := mkRepoStateV1Record {
  rp_owner_pubkey : bytes;
  rp_repo_name : string;
  rp_description : option string;
  rp_website_url : option string;
  rp_visibility : RepoVisibilityV1;
  rp_default_branch : string;
  rp_archived : bool;
  rp_updated_at : Z
}.

Record RepoMaintainerV1Record := mkRepoMaintainerV1Record {
  rm_owner_pubkey : bytes;
  rm_repo_name : string;
  rm_maintainer_pubkey : bytes;
  rm_active : bool;
  rm_updated_at : Z
}.

Section Tables.
Context `{TimeLib}.

(** The columns of each table outside its primary key. *)
Record LogRow := mkLogRow {
  lr_pubkey : bytes; lr_namespace : string; lr_action : string; lr_target : option string;
  lr_args_json : json; lr_status : string; lr_code : string; lr_message : string;
  lr_created_at : OffsetDateTime
}.
Record AccountRow := mkAccountRow {
  ar_status : string; ar_created_at : OffsetDateTime; ar_updated_at : OffsetDateTime;
  ar_deleted_at : option OffsetDateTime
}.
Record ProfileRow := mkProfileRow {
  pr_display_name : option string; pr_bio : option string; pr_avatar_url : option string;
  pr_website_url : option string; pr_location : option string; pr_visibility : string;
  pr_updated_at : OffsetDateTime
}.
Record RepoRow := mkRepoRow {
  rr_description : option string; rr_website_url : option string; rr_visibility : string;
  rr_default_branch : string; rr_archived : bool; rr_updated_at : OffsetDateTime
}.
Record MaintainerRow := mkMaintainerRow { mt_active : bool; mt_updated_at : OffsetDateTime }.

Record V1Tables := mkV1Tables {
  v1_command_log : gmap bytes LogRow;
  v1_account_table : gmap bytes AccountRow;
  v1_profile_table : gmap bytes ProfileRow;
  v1_repo_table : gmap (bytes * string) RepoRow;
  v1_repo_maintainer : gmap (bytes * string * bytes) MaintainerRow
}.

Definition set_log t log :=
  mkV1Tables log (v1_account_table t) (v1_profile_table t) (v1_repo_table t) (v1_repo_maintainer t).
Definition set_accounts t accounts :=
  mkV1Tables (v1_command_log t) accounts (v1_profile_table t) (v1_repo_table t) (v1_repo_maintainer t).
Definition set_profiles t profiles :=
  mkV1Tables (v1_command_log t) (v1_account_table t) profiles (v1_repo_table t) (v1_repo_maintainer t).
Definition set_repos t repos :=
  mkV1Tables (v1_command_log t) (v1_account_table t) (v1_profile_table t) repos (v1_repo_maintainer t).
Definition set_maintainers t maintainers :=
  mkV1Tables (v1_command_log t) (v1_account_table t) (v1_profile_table t) (v1_repo_table t) maintainers.

Abbreviation sql := (stateful (Database V1Tables) StorageError).

(** ** The methods of [PostgresRepositories] *)

Definition v1_insert_command_log (record : CommandLogRecord) : sql bool :=
  created_at ← lift (to_offset_datetime (cl_created_at record));
  statement (λ t,
    match v1_command_log t !! cl_event_id record with
    | Some _ => (false, t)
    | None =>
        (true, set_log t (<[cl_event_id record :=
           mkLogRow (cl_pubkey record) (cl_namespace record) (cl_action record) (cl_target record)
             (cl_args_json record) (CommandStatus_as_str (cl_status record)) (cl_code record)
             (cl_message record) created_at]> (v1_command_log t)))
    end).

Definition v1_update_command_log_outcome (event_id : bytes) (status : CommandStatus)
    (code message : string) : sql unit :=
  statement (λ t,
    (tt, set_log t (alter (λ row,
       mkLogRow (lr_pubkey row) (lr_namespace row) (lr_action row) (lr_target row)
         (lr_args_json row) (CommandStatus_as_str status) code message (lr_created_at row))
       event_id (v1_command_log t)))).

Definition v1_upsert_account_state (record : AccountStateRecord) : sql unit :=
  created_at ← lift (to_offset_datetime (as_created_at record));
  updated_at ← lift (to_offset_datetime (as_updated_at record));
  deleted_at ← lift (match as_deleted_at record with
                     | Some value => Some <$> to_offset_datetime value
                     | None => Ok None
                     end);
  let status := AccountLifecycle_as_str (as_status record) in
  statement (λ t,
    (tt, set_accounts t (<[as_pubkey record :=
       match v1_account_table t !! as_pubkey record with
       | Some row => mkAccountRow status (ar_created_at row) updated_at deleted_at
       | None => mkAccountRow status created_at updated_at deleted_at
       end]> (v1_account_table t)))).

Definition account_from_row (pubkey : bytes) (row : AccountRow)
    : result StorageError AccountStateRecord :=
  status ← (if ar_status row == "active" then Ok AlActive
            else if ar_status row == "deleted" then Ok AlDeleted
            else Err (StInvalidField "status" (ar_status row)));
  Ok (mkAccountStateRecord pubkey status (from_offset_datetime (ar_created_at row))
        (from_offset_datetime (ar_updated_at row)) (from_offset_datetime <$> ar_deleted_at row)).

Definition v1_account_state (pubkey : bytes) : sql (option AccountStateRecord) :=
  row ← statement (λ t, (v1_account_table t !! pubkey, t));
  match row with
  | None => mret None
  | Some row => lift (Some <$> account_from_row pubkey row)
  end.

Definition v1_upsert_profile_state (record : ProfileStateRecord) : sql unit :=
  updated_at ← lift (to_offset_datetime (ps_updated_at record));
  statement (λ t,
    (tt, set_profiles t (<[ps_pubkey record :=
       mkProfileRow (ps_display_name record) (ps_bio record) (ps_avatar_url record)
         (ps_website_url record) (ps_location record)
         (ProfileVisibilityV1_as_str (ps_visibility record)) updated_at]> (v1_profile_table t)))).

Definition profile_from_row (pubkey : bytes) (row : ProfileRow)
    : result StorageError ProfileStateRecord :=
  visibility ← ProfileVisibilityV1_parse (pr_visibility row);
  Ok (mkProfileStateRecord pubkey (pr_display_name row) (pr_bio row) (pr_avatar_url row)
        (pr_website_url row) (pr_location row) visibility (from_offset_datetime (pr_updated_at row))).

Definition v1_profile_state (pubkey : bytes) : sql (option ProfileStateRecord) :=
  row ← statement (λ t, (v1_profile_table t !! pubkey, t));
  match row with
  | None => mret None
  | Some row => lift (Some <$> profile_from_row pubkey row)
  end.

Definition v1_upsert_repo_state (record : RepoStateV1Record) : sql unit :=
  updated_at ← lift (to_offset_datetime (rp_updated_at record));
  statement (λ t,
    (tt, set_repos t (<[(rp_owner_pubkey record, rp_repo_name record) :=
       mkRepoRow (rp_description record) (rp_website_url record)
         (RepoVisibilityV1_as_str (rp_visibility record)) (rp_default_branch record)
         (rp_archived record) updated_at]> (v1_repo_table t)))).

Definition repo_from_row (key : bytes * string) (row : RepoRow)
    : result StorageError RepoStateV1Record :=
  visibility ← RepoVisibilityV1_parse (rr_visibility row);
  Ok (mkRepoStateV1Record key.1 key.2 (rr_description row) (rr_website_url row) visibility
        (rr_default_branch row) (rr_archived row) (from_offset_datetime (rr_updated_at row))).

Definition v1_repo_state (owner_pubkey : bytes) (repo_name : string)
    : sql (option RepoStateV1Record) :=
  row ← statement (λ t, (v1_repo_table t !! (owner_pubkey, repo_name), t));
  match row with
  | None => mret None
  | Some row => lift (Some <$> repo_from_row (owner_pubkey, repo_name) row)
  end.

Definition v1_set_repo_maintainer (record : RepoMaintainerV1Record) : sql unit :=
  updated_at ← lift (to_offset_datetime (rm_updated_at record));
  statement (λ t,
    (tt, set_maintainers t (<[(rm_owner_pubkey record, rm_repo_name record,
                              rm_maintainer_pubkey record) :=
       mkMaintainerRow (rm_active record) updated_at]> (v1_repo_maintainer t)))).

(** [SELECT maintainer_pubkey … WHERE owner_pubkey = $1 AND repo_name = $2 AND active = true],
    collected into a [HashSet]. *)
Definition active_rows {V} (active : V → bool) (owner : bytes) (name : string)
    (m : gmap (bytes * string * bytes) V) : gset bytes :=
  list_to_set (omap (λ '((o, n, p), row),
    if (o == owner) && (n == name) && active row then Some p else None) (map_to_list m)).

Definition v1_list_active_repo_maintainers (owner_pubkey : bytes) (repo_name : string)
    : sql (gset bytes) :=
  statement (λ t, (active_rows mt_active owner_pubkey repo_name (v1_repo_maintainer t), t)).
End Tables.

(** ** The abstract state *)

Record CommandView := mkCommandView {
  cv_log : gmap bytes CommandLogRecord;
  cv_accounts : gmap bytes AccountStateRecord;
  cv_profiles : gmap bytes ProfileStateRecord;
  cv_repos : gmap (bytes * string) RepoStateV1Record;
  cv_maintainers : gmap (bytes * string * bytes) RepoMaintainerV1Record
}.

Definition empty_view : CommandView := mkCommandView ∅ ∅ ∅ ∅ ∅.

Definition view_log f v :=
  mkCommandView (f (cv_log v)) (cv_accounts v) (cv_profiles v) (cv_repos v) (cv_maintainers v).

Definition log_insert (r : CommandLogRecord) (v : CommandView) : bool * CommandView :=
  match cv_log v !! cl_event_id r with
  | Some _ => (false, v)
  | None => (true, view_log (insert (cl_event_id r) r) v)
  end.

Definition with_outcome (status : CommandStatus) (code message : string) (r : CommandLogRecord) :=
  mkCommandLogRecord (cl_event_id r) (cl_pubkey r) (cl_namespace r) (cl_action r) (cl_target r)
    (cl_args_json r) status code message (cl_created_at r).
Definition log_outcome (event_id : bytes) status code message (v : CommandView) : CommandView :=
  view_log (alter (with_outcome status code message) event_id) v.

(** An account keeps the creation time it has. *)
Definition put_account (r : AccountStateRecord) (v : CommandView) : CommandView :=
  mkCommandView (cv_log v)
    (<[as_pubkey r := mkAccountStateRecord (as_pubkey r) (as_status r)
        (match cv_accounts v !! as_pubkey r with
         | Some old => as_created_at old
         | None => as_created_at r
         end) (as_updated_at r) (as_deleted_at r)]> (cv_accounts v))
    (cv_profiles v) (cv_repos v) (cv_maintainers v).
Definition put_profile (r : ProfileStateRecord) (v : CommandView) : CommandView :=
  mkCommandView (cv_log v) (cv_accounts v) (<[ps_pubkey r := r]> (cv_profiles v)) (cv_repos v)
    (cv_maintainers v).
Definition put_repo (r : RepoStateV1Record) (v : CommandView) : CommandView :=
  mkCommandView (cv_log v) (cv_accounts v) (cv_profiles v)
    (<[(rp_owner_pubkey r, rp_repo_name r) := r]> (cv_repos v)) (cv_maintainers v).
Definition put_maintainer (r : RepoMaintainerV1Record) (v : CommandView) : CommandView :=
  mkCommandView (cv_log v) (cv_accounts v) (cv_profiles v) (cv_repos v)
    (<[(rm_owner_pubkey r, rm_repo_name r, rm_maintainer_pubkey r) := r]> (cv_maintainers v)).
Definition active_maintainers (owner : bytes) (name : string) (v : CommandView) : gset bytes :=
  active_rows rm_active owner name (cv_maintainers v).

Lemma elem_of_active_rows {V} (active : V → bool) owner name m p :
  p ∈ active_rows active owner name m ↔ ∃ row, m !! (owner, name, p) = Some row ∧ active row = true.
Proof.
  unfold active_rows. rewrite elem_of_list_to_set, list_elem_of_omap. split.
  - intros ([[[o n] q] row] & Hin%elem_of_map_to_list & E). split_in E.
    reflect_bools. rewrite !String.eqb_eq in *. simplify_eq. eauto.
  - intros (row & Hm & Ha). exists (owner, name, p, row).
    rewrite elem_of_map_to_list, !String.eqb_refl, Ha. auto.
Qed.

(** ** What the tables stand for *)

Section Refinement.
Context `{TimeLaws}.

Definition log_record (event_id : bytes) (row : LogRow) : option CommandLogRecord :=
  status ← (if lr_status row == "ok" then Some CsOk
            else if lr_status row == "error" then Some CsError else None);
  Some (mkCommandLogRecord event_id (lr_pubkey row) (lr_namespace row) (lr_action row)
          (lr_target row) (lr_args_json row) status (lr_code row) (lr_message row)
          (unix_timestamp (lr_created_at row))).
Definition maintainer_record (key : bytes * string * bytes) (row : MaintainerRow)
    : option RepoMaintainerV1Record :=
  Some (mkRepoMaintainerV1Record key.1.1 key.1.2 key.2 (mt_active row)
          (unix_timestamp (mt_updated_at row))).

Record tables_rep (t : V1Tables) (v : CommandView) : Prop := {
  rep_log : table_rep log_record (v1_command_log t) (cv_log v);
  rep_accounts : table_rep (λ k row, ok (account_from_row k row)) (v1_account_table t) (cv_accounts v);
  rep_profiles : table_rep (λ k row, ok (profile_from_row k row)) (v1_profile_table t) (cv_profiles v);
  rep_repos : table_rep (λ k row, ok (repo_from_row k row)) (v1_repo_table t) (cv_repos v);
  rep_maintainers : table_rep maintainer_record (v1_repo_maintainer t) (cv_maintainers v)
}.

Definition holds : Database V1Tables → CommandView → Prop := db_holds tables_rep.

Definition empty_tables : V1Tables := mkV1Tables ∅ ∅ ∅ ∅ ∅.
Lemma empty_tables_rep : tables_rep empty_tables empty_view.
Proof. split; apply table_rep_empty. Qed.

(** The timestamps of a record that has been bound. *)
Ltac times :=
  repeat match goal with
  | Ht : to_offset_datetime ?z = Ok ?t |- _ =>
      let E := fresh "Et" in pose proof (offset_datetime_roundtrip z t Ht) as E;
      unfold from_offset_datetime in E; revert Ht
  end; intros.

Lemma v1_insert_command_log_realises r : realises holds (v1_insert_command_log r) (log_insert r).
Proof.
  apply realises_lift. intros at_ Hat. times. apply realises_statement.
  intros t v Hr. unfold log_insert. rewrite (table_rep_lookup _ _ _ _ (rep_log _ _ Hr)).
  pose proof (rep_log _ _ Hr (cl_event_id r)) as Hk.
  destruct (v1_command_log t !! cl_event_id r) as [row|]; simpl.
  - destruct Hk as (x & -> & _). done.
  - split; [done|]. destruct Hr. split; simpl; [|done..]. apply table_rep_insert; [done|].
    unfold log_record. simpl. rewrite Et. by destruct r as [?????? [] ???].
Qed.

Lemma v1_update_command_log_outcome_realises id status code message :
  realises holds (v1_update_command_log_outcome id status code message)
    (λ v, (tt, log_outcome id status code message v)).
Proof.
  apply realises_statement. intros t v []. split; [done|]. split; simpl; [|done..].
  apply table_rep_alter; [done|]. intros row x (s & _ & [= <-])%bind_Some.
  by destruct status.
Qed.

Lemma account_from_row_Ok k row r :
  ok (account_from_row k row) = Some r →
  as_created_at r = unix_timestamp (ar_created_at row).
Proof. rewrite ok_Some. unfold account_from_row. intros (? & _ & [= <-])%bind_Ok. done. Qed.

Lemma v1_upsert_account_state_realises r :
  realises holds (v1_upsert_account_state r) (λ v, (tt, put_account r v)).
Proof.
  apply realises_lift. intros created Hc. apply realises_lift. intros updated Hu.
  apply realises_lift. intros deleted Hd. apply realises_statement. intros t v Hr. split; [done|].
  assert (from_offset_datetime <$> deleted = as_deleted_at r) as Hdel.
  { destruct (as_deleted_at r) as [z|]; [|by simplify_eq].
    apply fmap_Ok in Hd as (d & Hd & ->). simpl. by rewrite (offset_datetime_roundtrip z d). }
  times. unfold put_account. rewrite (table_rep_lookup _ _ _ _ (rep_accounts _ _ Hr)).
  pose proof (rep_accounts _ _ Hr (as_pubkey r)) as Hk.
  destruct Hr. split; simpl; [done| |done..]. apply table_rep_insert; [done|].
  unfold account_from_row, from_offset_datetime in *.
  destruct (v1_account_table t !! as_pubkey r) as [row|]; simpl.
  - destruct Hk as (x & Hx & _). rewrite Hx. apply account_from_row_Ok in Hx. rewrite Hx.
    rewrite Hdel. destruct r as [? [] ???]; simpl in *; by subst.
  - rewrite Hdel. destruct r as [? [] ???]; simpl in *; by subst.
Qed.

(** Reading a row and decoding it. *)
Lemma read_row_realises {K R V} `{Countable K} (tbl : V1Tables → gmap K R) (view : CommandView → gmap K V)
    (dec : K → R → result StorageError V) k :
  (∀ t v, tables_rep t v → table_rep (λ k row, ok (dec k row)) (tbl t) (view v)) →
  realises holds
    (row ← statement (λ t, (tbl t !! k, t));
     match row with None => mret None | Some row => lift (Some <$> dec k row) end)
    (λ v, (view v !! k, v)).
Proof.
  intros Ht. pose proof (realises_query tables_rep (λ t, tbl t !! k)
    (λ row, match row with None => Ok None | Some row => Some <$> dec k row end) (λ v, view v !! k)) as Hq.
  assert (∀ db, (row ← statement (λ t, (tbl t !! k, t));
     match row with None => mret None | Some row => lift (Some <$> dec k row) end) db =
    (a ← statement (λ t, (tbl t !! k, t));
     lift (match a with None => Ok None | Some row => Some <$> dec k row end)) db) as E.
  { intros db. unfold mbind, stateful_bind.
    destruct (statement _ db) as [[[row|]|] db']; done. }
  intros db v r db' Hdb. rewrite E. eapply Hq; [|done].
  intros t w Hr. specialize (Ht t w Hr k). destruct (tbl t !! k) as [row|]; [|by rewrite Ht].
  destruct Ht as (x & Hx%ok_Some & ->). by rewrite Hx.
Qed.

Lemma v1_account_state_realises k : realises holds (v1_account_state k) (λ v, (cv_accounts v !! k, v)).
Proof. apply (read_row_realises v1_account_table cv_accounts account_from_row). apply rep_accounts. Qed.
Lemma v1_profile_state_realises k : realises holds (v1_profile_state k) (λ v, (cv_profiles v !! k, v)).
Proof. apply (read_row_realises v1_profile_table cv_profiles profile_from_row). apply rep_profiles. Qed.
Lemma v1_repo_state_realises o n :
  realises holds (v1_repo_state o n) (λ v, (cv_repos v !! (o, n), v)).
Proof. apply (read_row_realises v1_repo_table cv_repos repo_from_row). apply rep_repos. Qed.

Lemma v1_upsert_profile_state_realises r :
  realises holds (v1_upsert_profile_state r) (λ v, (tt, put_profile r v)).
Proof.
  apply realises_lift. intros at_ Hat. times. apply realises_statement.
  intros t v []. split; [done|]. split; simpl; [done..| |done|done].
  apply table_rep_insert; [done|]. destruct r as [?????? [] ?]; unfold profile_from_row; simpl in *;
    unfold from_offset_datetime; by subst.
Qed.

Lemma v1_upsert_repo_state_realises r :
  realises holds (v1_upsert_repo_state r) (λ v, (tt, put_repo r v)).
Proof.
  apply realises_lift. intros at_ Hat. times. apply realises_statement.
  intros t v []. split; [done|]. split; simpl; [done..| |done].
  apply table_rep_insert; [done|]. destruct r as [???? [] ???]; unfold repo_from_row; simpl in *;
    unfold from_offset_datetime; by subst.
Qed.

Lemma v1_set_repo_maintainer_realises r :
  realises holds (v1_set_repo_maintainer r) (λ v, (tt, put_maintainer r v)).
Proof.
  apply realises_lift. intros at_ Hat. times. apply realises_statement.
  intros t v []. split; [done|]. split; simpl; [done..|].
  apply table_rep_insert; [done|]. destruct r; unfold maintainer_record; simpl in *; by subst.
Qed.

Lemma v1_list_active_realises o n :
  realises holds (v1_list_active_repo_maintainers o n) (λ v, (active_maintainers o n v, v)).
Proof.
  apply realises_statement. intros t v Hr. split; [|done]. apply set_eq. intros p.
  unfold active_maintainers. simpl. rewrite !elem_of_active_rows.
  pose proof (rep_maintainers _ _ Hr (o, n, p)) as Hk.
  destruct (v1_repo_maintainer t !! (o, n, p)) as [row|].
  - destruct Hk as (x & [= <-] & ->). split; intros (y & [= <-] & Hy); eauto.
  - rewrite Hk. naive_solver.
Qed.
End Refinement.
