(* ===== verification/Dispatch.v ===== *)
(** * [Dispatch]: control commands received from relays

    Models the dispatch service: [services/dispatch/src/ingest.rs] (which relay
    events are commands), [handlers.rs] (their execution on the command state)
    and [lib.rs] (configuration, decoding of relay messages, the connection
    loop), and [crates/storage/src/config.rs].  [CommandStore] is the trait of
    the store; [CommandStoreLaws] is what a store promises, met by the tables of
    [CommandState].  A store call may fail at any point. *)

From S2P Require Import Prelude RustStr CoreTypes Externals HexModel Nip34Common CommandCli.
From S2P Require Import Membership NostrAuth Database CommandState.

(** ** [config.rs] of the storage crate *)

Record StorageConfig := mkStorageConfig {
  st_read_connection : string;
  st_write_connection : option string;
  st_max_connections : Z;               (* u32 *)
  st_min_connections : Z;               (* u32 *)
  st_idle_timeout_secs : option Z;      (* u64 *)
  st_max_lifetime_secs : option Z;      (* u64 *)
  st_application_name : option string
}.

Definition StorageConfig_validate (c : StorageConfig) : result StorageError unit :=
  _ ← fail_if (bool_decide (st_max_connections c = 0)%Z)
        (StInvalidPoolConfig "max_connections" (st_max_connections c));
  fail_if (bool_decide (st_max_connections c < st_min_connections c)%Z)
    (StInvalidPoolConfig "min_connections" (st_min_connections c)).

(** [PgConnectOptions]: what [parse] reads, or the text of its error, and the setter of the
    name. *)
Class PgOptions := {
  PgConnectOptions : Type;
  parse_connect_options : string → result string PgConnectOptions;
  application_name : string → PgConnectOptions → PgConnectOptions
}.

Section ConnectOptions.
Context `{PgOptions}.

Definition apply_connect_options (c : StorageConfig) (options : PgConnectOptions) : PgConnectOptions :=
  match st_application_name c with Some name => application_name name options | None => options end.

Definition read_connect_options (c : StorageConfig) : result StorageError PgConnectOptions :=
  options ← map_err (StInvalidConnectionString (st_read_connection c)) (parse_connect_options (st_read_connection c));
  Ok (apply_connect_options c options).

Definition write_connect_options (c : StorageConfig) : result StorageError PgConnectOptions :=
  let connection := default (st_read_connection c) (st_write_connection c) in
  options ← map_err (StInvalidConnectionString connection) (parse_connect_options connection);
  Ok (apply_connect_options c options).
End ConnectOptions.

(** The settings of [sqlx]'s pool that are used; durations in nanoseconds. *)
Record PoolOptions := mkPoolOptions {
  po_max_connections : Z; po_min_connections : Z; po_idle_timeout : option Z; po_max_lifetime : option Z
}.
Definition pool_options_validated (c : StorageConfig) : PoolOptions :=
  mkPoolOptions (st_max_connections c) (st_min_connections c) (Z.mul 1000000000 <$> st_idle_timeout_secs c)
    (Z.mul 1000000000 <$> st_max_lifetime_secs c).
Definition pool_options (c : StorageConfig) : result StorageError PoolOptions :=
  _ ← StorageConfig_validate c;
  Ok (pool_options_validated c).

(** ** Errors and configuration of [lib.rs] *)

Inductive DispatchError :=
| DeConfig (message : string)
| DeStorage (err : StorageError)
| DeObservabilityConfig (err : string)
| DeObservability (err : string).

Definition DispatchError_display (e : DispatchError) : string :=
  match e with
  | DeConfig message => "dispatch config error: " +:+ message
  | DeStorage err => "dispatch storage error: " +:+ StorageError_display err
  | DeObservabilityConfig err => "dispatch observability config error: " +:+ err
  | DeObservability err => "dispatch observability error: " +:+ err
  end.

Record DispatchConfig := mkDispatchConfig {
  dc_bind : string;
  dc_admin_pubkey : string;
  dc_relay_urls : list string;
  dc_storage : StorageConfig
}.

Definition parse_csv (input : string) : list string :=
  List.filter (λ value, negb (is_empty value)) (trim <$> split "," input).

(** The environment: [get_var]. *)
Definition environment : Type := string → option string.

Definition env_number (parse : string → option Z) (get_var : environment) (key : string)
    : result DispatchError (option Z) :=
  match get_var key with
  | None => Ok None
  | Some value =>
      if is_blank value then Ok None
      else ok_or (DeConfig ("invalid env " +:+ key +:+ ": " +:+ value)) (Some <$> parse value)
  end.
Definition env_u32 : environment → string → result DispatchError (option Z) := env_number parse_u32.
Definition env_u64 : environment → string → result DispatchError (option Z) := env_number parse_u64.

Definition storage_from_env (get_var : environment) : result DispatchError StorageConfig :=
  read_connection ← ok_or (DeConfig "missing env GITTREE_STORAGE_READ_URL")
    (get_var "GITTREE_STORAGE_READ_URL");
  let write_connection := get_var "GITTREE_STORAGE_WRITE_URL" in
  max_connections ← env_u32 get_var "GITTREE_STORAGE_MAX_CONNECTIONS";
  min_connections ← env_u32 get_var "GITTREE_STORAGE_MIN_CONNECTIONS";
  idle_timeout_secs ← env_u64 get_var "GITTREE_STORAGE_IDLE_TIMEOUT_SECS";
  max_lifetime_secs ← env_u64 get_var "GITTREE_STORAGE_MAX_LIFETIME_SECS";
  let storage := mkStorageConfig read_connection write_connection (default 10%Z max_connections)
    (default 2%Z min_connections) idle_timeout_secs max_lifetime_secs
    (get_var "GITTREE_STORAGE_APP_NAME") in
  _ ← map_err (λ err, DeConfig (StorageError_display err)) (StorageConfig_validate storage);
  Ok storage.

Definition DispatchConfig_from_env_with (get_var : environment) : result DispatchError DispatchConfig :=
  let bind := default "127.0.0.1:8091" (get_var "GITTREE_DISPATCH_BIND") in
  admin_pubkey ← ok_or (DeConfig "missing env GITTREE_DISPATCH_ADMIN_PUBKEY")
    (get_var "GITTREE_DISPATCH_ADMIN_PUBKEY");
  let relay_urls := parse_csv (default "" (get_var "GITTREE_DISPATCH_RELAY_URLS")) in
  _ ← fail_if (is_nil relay_urls) (DeConfig "missing relay urls in GITTREE_DISPATCH_RELAY_URLS");
  storage ← storage_from_env get_var;
  Ok (mkDispatchConfig bind admin_pubkey relay_urls storage).

(** ** [ingest.rs] *)

Record RelayEventEnvelope := mkRelayEventEnvelope {
  env_id : string;
  env_pubkey : string;
  env_kind : Z;         (* u32 *)
  env_created_at : Z;   (* i64 *)
  env_content : string;
  env_tags : list (list string);
  env_relay_url : string
}.

Record DispatchFilterConfig := mkDispatchFilterConfig {
  df_admin_pubkey : string;
  df_relay_allowlist : list string
}.

Inductive IngestRejectReason :=
| WrongKind
| IrMissingPrefix
| MissingAdminTag
| RelayNotAllowed.

Definition has_admin_tag (event : RelayEventEnvelope) (admin_pubkey : string) : bool :=
  existsb (λ t, match t with
                | name :: value :: _ => (name == "p") && (value == admin_pubkey)
                | _ => false
                end) (env_tags event).

Definition is_dispatch_command_event (config : DispatchFilterConfig) (event : RelayEventEnvelope)
    : result IngestRejectReason unit :=
  _ ← fail_if (negb (bool_decide (env_kind event = 1%Z))) WrongKind;
  _ ← fail_if (negb (starts_with "gittree " (trim_start (env_content event)))) IrMissingPrefix;
  _ ← fail_if (negb (existsb (λ relay, relay == env_relay_url event) (df_relay_allowlist config)))
        RelayNotAllowed;
  fail_if (negb (has_admin_tag event (df_admin_pubkey config))) MissingAdminTag.

Definition dispatch_filter_config (config : DispatchConfig) : DispatchFilterConfig :=
  mkDispatchFilterConfig (dc_admin_pubkey config) (dc_relay_urls config).

(** ** [handlers.rs] *)

Record CommandExecutionInput := mkCommandExecutionInput {
  ci_event_id : bytes;
  ci_actor_pubkey : bytes;
  ci_parsed : ParsedCommand;
  ci_created_at : Z
}.

Record CommandExecutionOutput := mkCommandExecutionOutput {
  co_status : CommandStatus;
  co_code : string;
  co_message : string
}.

Class CommandStore (S : Type) := {
  insert_command_log : CommandLogRecord → stateful S DispatchError bool;
  update_command_log_outcome :
    bytes → CommandStatus → string → string → stateful S DispatchError unit;
  account_state : bytes → stateful S DispatchError (option AccountStateRecord);
  upsert_account_state : AccountStateRecord → stateful S DispatchError unit;
  profile_state : bytes → stateful S DispatchError (option ProfileStateRecord);
  upsert_profile_state : ProfileStateRecord → stateful S DispatchError unit;
  repo_state : bytes → string → stateful S DispatchError (option RepoStateV1Record);
  upsert_repo_state : RepoStateV1Record → stateful S DispatchError unit;
  set_repo_maintainer : RepoMaintainerV1Record → stateful S DispatchError unit;
  list_active_repo_maintainers : bytes → string → stateful S DispatchError (gset bytes)
}.

#[export] Instance PostgresRepositories_command_store `{TimeLib} : CommandStore (Database V1Tables) := {|
  insert_command_log r := map_err_st DeStorage (v1_insert_command_log r);
  update_command_log_outcome id status code message :=
    map_err_st DeStorage (v1_update_command_log_outcome id status code message);
  account_state p := map_err_st DeStorage (v1_account_state p);
  upsert_account_state r := map_err_st DeStorage (v1_upsert_account_state r);
  profile_state p := map_err_st DeStorage (v1_profile_state p);
  upsert_profile_state r := map_err_st DeStorage (v1_upsert_profile_state r);
  repo_state o n := map_err_st DeStorage (v1_repo_state o n);
  upsert_repo_state r := map_err_st DeStorage (v1_upsert_repo_state r);
  set_repo_maintainer r := map_err_st DeStorage (v1_set_repo_maintainer r);
  list_active_repo_maintainers o n := map_err_st DeStorage (v1_list_active_repo_maintainers o n)
|}.

Definition cmd_ok (code message : string) : CommandExecutionOutput :=
  mkCommandExecutionOutput CsOk code message.
Definition cmd_err (code message : string) : CommandExecutionOutput :=
  mkCommandExecutionOutput CsError code message.

Definition namespace_name (namespace : CommandNamespace) : string :=
  match namespace with NsAccount => "account" | NsProfile => "profile" | NsRepo => "repo" end.

(** [serde_json::Map] is a [BTreeMap]; the positional arguments are written last. *)
Definition args_to_json (args : list CommandArg) : json :=
  let '(object, positional) :=
    foldl (λ '(object, positional) arg,
      match arg with
      | Positional value => (object, positional ++ [JString value])
      | KeyValue key value => (<[key := JString value]> object, positional)
      end) (∅ : gmap string json, []) args in
  JObject (btree_iter (<["_positional" := JArray positional]> object)).

Section Handlers.
Context {S : Type} `{CommandStore S} `{Bech32Lib}.

Abbreviation io := (stateful S DispatchError).

Definition apply_account (input : CommandExecutionInput) : io CommandExecutionOutput :=
  let now := ci_created_at input in
  let action := pc_action (ci_parsed input) in
  existing ← account_state (ci_actor_pubkey input);
  if action == "create" then
    match existing with
    | None =>
        _ ← upsert_account_state
              (mkAccountStateRecord (ci_actor_pubkey input) AlActive now now None);
        mret (cmd_ok "account_created" "account created")
    | Some _ => mret (cmd_ok "account_exists" "account already exists")
    end
  else if action == "delete" then
    let created_at := match existing with Some record => as_created_at record | None => now end in
    _ ← upsert_account_state
          (mkAccountStateRecord (ci_actor_pubkey input) AlDeleted created_at now (Some now));
    mret (cmd_ok "account_deleted" "account deleted")
  else if action == "status" then
    let message := match existing with
                   | Some record => "account " +:+ AccountLifecycle_as_str (as_status record)
                   | None => "account missing"
                   end in
    mret (cmd_ok "account_status" message)
  else mret (cmd_err "invalid_command" "unsupported account action").

Definition profile_field (p : ProfileStateRecord) (arg : CommandArg) : ProfileStateRecord :=
  let '(mkProfileStateRecord pubkey name bio avatar website location visibility updated) := p in
  match arg with
  | KeyValue key value =>
      if key == "name" then
        mkProfileStateRecord pubkey (Some value) bio avatar website location visibility updated
      else if key == "bio" then
        mkProfileStateRecord pubkey name (Some value) avatar website location visibility updated
      else if key == "avatar" then
        mkProfileStateRecord pubkey name bio (Some value) website location visibility updated
      else if key == "website" then
        mkProfileStateRecord pubkey name bio avatar (Some value) location visibility updated
      else if key == "location" then
        mkProfileStateRecord pubkey name bio avatar website (Some value) visibility updated
      else p
  | Positional _ => p
  end.

Definition set_profile_updated (now : Z) (p : ProfileStateRecord) : ProfileStateRecord :=
  mkProfileStateRecord (ps_pubkey p) (ps_display_name p) (ps_bio p) (ps_avatar_url p)
    (ps_website_url p) (ps_location p) (ps_visibility p) now.
Definition set_profile_visibility (v : ProfileVisibilityV1) (p : ProfileStateRecord) : ProfileStateRecord :=
  mkProfileStateRecord (ps_pubkey p) (ps_display_name p) (ps_bio p) (ps_avatar_url p)
    (ps_website_url p) (ps_location p) v (ps_updated_at p).

Definition apply_profile (input : CommandExecutionInput) : io CommandExecutionOutput :=
  let now := ci_created_at input in
  let action := pc_action (ci_parsed input) in
  stored ← profile_state (ci_actor_pubkey input);
  let profile := default (mkProfileStateRecord (ci_actor_pubkey input) None None None None None
                            PvPrivate now) stored in
  if action == "set" then
    let profile := foldl profile_field profile (pc_args (ci_parsed input)) in
    _ ← upsert_profile_state (set_profile_updated now profile);
    mret (cmd_ok "profile_updated" "profile updated")
  else if action == "visibility" then
    match pc_args (ci_parsed input) with
    | [Positional value] =>
        let visibility := if value == "public" then PvPublic else PvPrivate in
        _ ← upsert_profile_state (set_profile_updated now (set_profile_visibility visibility profile));
        mret (cmd_ok "profile_visibility_updated" "profile visibility updated")
    | _ => mret (cmd_err "invalid_args" "profile visibility requires public|private")
    end
  else mret (cmd_err "invalid_command" "unsupported profile action").

Definition actor_is_maintainer (actor : bytes) (repo_name : string) : io bool :=
  maintainers ← list_active_repo_maintainers actor repo_name;
  mret (bool_decide (actor ∈ maintainers)).

Definition repo_field (r : RepoStateV1Record) (arg : CommandArg) : RepoStateV1Record :=
  let '(mkRepoStateV1Record owner name description website visibility branch archived updated) := r in
  match arg with
  | KeyValue key value =>
      if key == "description" then
        mkRepoStateV1Record owner name (Some value) website visibility branch archived updated
      else if key == "website" then
        mkRepoStateV1Record owner name description (Some value) visibility branch archived updated
      else if key == "visibility" then
        mkRepoStateV1Record owner name description website
          (if value == "public" then RvPublic else RvPrivate) branch archived updated
      else if key == "default_branch" then
        mkRepoStateV1Record owner name description website visibility value archived updated
      else r
  | Positional _ => r
  end.

Definition set_repo_updated (now : Z) (r : RepoStateV1Record) : RepoStateV1Record :=
  mkRepoStateV1Record (rp_owner_pubkey r) (rp_repo_name r) (rp_description r) (rp_website_url r)
    (rp_visibility r) (rp_default_branch r) (rp_archived r) now.
Definition set_repo_archived (archived : bool) (r : RepoStateV1Record) : RepoStateV1Record :=
  mkRepoStateV1Record (rp_owner_pubkey r) (rp_repo_name r) (rp_description r) (rp_website_url r)
    (rp_visibility r) (rp_default_branch r) archived (rp_updated_at r).

(** The arms ["update"] and ["archive" | "unarchive"]: both change the state
    of a repository of the actor, when the actor maintains it. *)
Definition change_repo (input : CommandExecutionInput) (repo_name : string)
    (change : RepoStateV1Record → RepoStateV1Record) (done : CommandExecutionOutput)
    : io CommandExecutionOutput :=
  stored ← repo_state (ci_actor_pubkey input) repo_name;
  match stored with
  | None => mret (cmd_err "not_found" "repo not found")
  | Some state =>
      maintains ← actor_is_maintainer (ci_actor_pubkey input) repo_name;
      if negb maintains then mret (cmd_err "unauthorized" "actor is not a maintainer")
      else
        _ ← upsert_repo_state (set_repo_updated (ci_created_at input) (change state));
        mret done
  end.

Definition create_repo (input : CommandExecutionInput) (repo_name : string)
    : io CommandExecutionOutput :=
  let now := ci_created_at input in
  existing ← repo_state (ci_actor_pubkey input) repo_name;
  if is_some existing then mret (cmd_ok "repo_exists" "repo already exists")
  else
    _ ← upsert_repo_state (mkRepoStateV1Record (ci_actor_pubkey input) repo_name None None
          RvPrivate "main" false now);
    _ ← set_repo_maintainer (mkRepoMaintainerV1Record (ci_actor_pubkey input) repo_name
          (ci_actor_pubkey input) true now);
    mret (cmd_ok "repo_created" "repo created").

Definition change_maintainers (input : CommandExecutionInput) (repo_name : string)
    : io CommandExecutionOutput :=
  maintains ← actor_is_maintainer (ci_actor_pubkey input) repo_name;
  if negb maintains then mret (cmd_err "unauthorized" "actor is not a maintainer")
  else
    match pc_args (ci_parsed input) with
    | [Positional action; Positional npub] =>
        match pubkey_bytes_from_npub npub with
        | Ok maintainer_pubkey =>
            _ ← set_repo_maintainer (mkRepoMaintainerV1Record (ci_actor_pubkey input) repo_name
                  maintainer_pubkey (action == "add") (ci_created_at input));
            mret (cmd_ok "repo_maintainer_updated" "repo maintainer updated")
        | Err _ => mret (cmd_err "invalid_args" "invalid maintainer npub")
        end
    | _ => mret (cmd_err "invalid_args" "repo maintainers requires add|remove and npub")
    end.

Definition apply_repo (input : CommandExecutionInput) : io CommandExecutionOutput :=
  match pc_target (ci_parsed input) with
  | None => mret (cmd_err "invalid_args" "repo target is required")
  | Some repo_name =>
      let action := pc_action (ci_parsed input) in
      if action == "create" then create_repo input repo_name
      else if action == "update" then
        change_repo input repo_name (λ state, foldl repo_field state (pc_args (ci_parsed input)))
          (cmd_ok "repo_updated" "repo updated")
      else if (action == "archive") || (action == "unarchive") then
        change_repo input repo_name (set_repo_archived (action == "archive"))
          (cmd_ok "repo_state_updated" "repo archive state updated")
      else if action == "maintainers" then change_maintainers input repo_name
      else if action == "announce" then
        mret (cmd_ok "repo_announce_accepted" "repo announcement accepted")
      else if action == "sync" then mret (cmd_ok "repo_sync_accepted" "repo sync accepted")
      else mret (cmd_err "invalid_command" "unsupported repo action")
  end.

Definition apply_command (input : CommandExecutionInput) : io CommandExecutionOutput :=
  match pc_namespace (ci_parsed input) with
  | NsAccount => apply_account input
  | NsProfile => apply_profile input
  | NsRepo => apply_repo input
  end.

(** The record written before the command is applied. *)
Definition accepted_record (input : CommandExecutionInput) : CommandLogRecord :=
  mkCommandLogRecord (ci_event_id input) (ci_actor_pubkey input)
    (namespace_name (pc_namespace (ci_parsed input))) (pc_action (ci_parsed input))
    (pc_target (ci_parsed input)) (args_to_json (pc_args (ci_parsed input))) CsOk
    "accepted" "accepted" (ci_created_at input).

(** A failure of the command becomes an outcome of its own. *)
Definition catch_internal (c : io CommandExecutionOutput) : io CommandExecutionOutput := λ s,
  match c s with
  | (Ok outcome, s) => (Ok outcome, s)
  | (Err err, s) => (Ok (cmd_err "internal" (DispatchError_display err)), s)
  end.

Definition execute_command (input : CommandExecutionInput) : io CommandExecutionOutput :=
  inserted ← insert_command_log (accepted_record input);
  if negb inserted then mret (cmd_ok "duplicate" "already processed")
  else
    outcome ← catch_internal (apply_command input);
    _ ← update_command_log_outcome (ci_event_id input) (co_status outcome) (co_code outcome)
          (co_message outcome);
    mret outcome.
End Handlers.

(** ** The rest of [lib.rs] *)

Inductive DispatchEventOutcome :=
| Ignored (reason : IngestRejectReason)
| Rejected (message : string)
| Applied (output : CommandExecutionOutput).

(** [serde_json::Map::get] on the members in iteration order. *)
Definition json_get (m : list (string * json)) (key : string) : option json :=
  snd <$> List.find (λ member, member.1 == key) m.

(** [messages::Message] and the items of the two halves of a connection. *)
Inductive WsMessage :=
| WsText (text : string)
| WsPing (payload : bytes)
| WsPong (payload : bytes)
| WsBinary (payload : bytes)
| WsClose.

(** What the service writes to its log. *)
Inductive DispatchLog :=
| LogApplied (code : string)
| LogIgnored (reason : IngestRejectReason)
| LogRejected (message : string)
| LogProcessingFailed (err : DispatchError)
| LogReqSendFailed
| LogReadFailed (err : string).

Section Service.
Context {S : Type} `{CommandStore S} `{Bech32Lib} `{HexLib} `{JsonLib}.

Abbreviation io := (stateful S DispatchError).

Definition decode_fixed_hex (value field : string) : result string bytes :=
  match hex_decode value with
  | Some b => if bool_decide (String.length b = 32) then Ok b
              else Err ("invalid " +:+ field +:+ ": expected 32-byte hex")
  | None => Err ("invalid " +:+ field +:+ ": expected hex")
  end.

Definition process_event_envelope (filter : DispatchFilterConfig) (envelope : RelayEventEnvelope)
    : io DispatchEventOutcome :=
  match is_dispatch_command_event filter envelope with
  | Err reason => mret (Ignored reason)
  | Ok _ =>
      match parse_cli_command (env_content envelope) with
      | Err err => mret (Rejected (CommandParseError_display err))
      | Ok parsed =>
          match decode_fixed_hex (env_id envelope) "event id" with
          | Err message => mret (Rejected message)
          | Ok event_id =>
              match decode_fixed_hex (env_pubkey envelope) "pubkey" with
              | Err message => mret (Rejected message)
              | Ok actor_pubkey =>
                  output ← execute_command
                    (mkCommandExecutionInput event_id actor_pubkey parsed (env_created_at envelope));
                  mret (Applied output)
              end
          end
      end
  end.

Definition build_relay_req_message (admin_pubkey : string) : string :=
  json_to_string (JArray [JString "REQ"; JString "gittree-dispatch";
    JObject [("#p", JArray [JString admin_pubkey]); ("kinds", JArray [JPosInt 1])]]).

Definition parse_event_tags (value : json) : option (list (list string)) :=
  rows ← as_array value;
  mapM (λ row, row ← as_array row; mapM as_str row) rows.

(** [as_u64()? as u32] keeps the low 32 bits of the kind. *)
Definition parse_relay_event_message (message relay_url : string) : option RelayEventEnvelope :=
  value ← json_from_str message;
  parts ← as_array value;
  match parts with
  | first :: _ :: third :: _ =>
      name ← as_str first;
      if negb (name == "EVENT") then None
      else
        event ← as_object third;
        id ← json_get event "id" ≫= as_str;
        pubkey ← json_get event "pubkey" ≫= as_str;
        kind ← json_get event "kind" ≫= as_u64_value;
        created_at ← json_get event "created_at" ≫= as_i64_value;
        content ← json_get event "content" ≫= as_str;
        tags ← json_get event "tags" ≫= parse_event_tags;
        Some (mkRelayEventEnvelope id pubkey (as_u32 kind) created_at content tags relay_url)
  | _ => None
  end.

Definition process_event_message (filter : DispatchFilterConfig) (relay_url message : string)
    : io (option DispatchEventOutcome) :=
  match parse_relay_event_message message relay_url with
  | None => mret None
  | Some envelope =>
      outcome ← process_event_envelope filter envelope;
      mret (Some outcome)
  end.

(** One text message: its effect on the store and what is logged about it. *)
Definition handle_text (filter : DispatchFilterConfig) (relay_url text : string) (s : S)
    : list DispatchLog * S :=
  match process_event_message filter relay_url text s with
  | (Ok (Some (Applied output)), s) => ([LogApplied (co_code output)], s)
  | (Ok (Some (Ignored reason)), s) => ([LogIgnored reason], s)
  | (Ok (Some (Rejected message)), s) => ([LogRejected message], s)
  | (Ok None, s) => ([], s)
  | (Err err, s) => ([LogProcessingFailed err], s)
  end.

(** The loop over the items of the stream; [sends] says which of the messages
    to come the writer takes, all of them when it runs out. *)
Fixpoint read_loop (filter : DispatchFilterConfig) (relay_url : string)
    (items : list (result string WsMessage)) (sends : list bool) (s : S)
    : list DispatchLog * list WsMessage * S :=
  match items with
  | [] => ([], [], s)
  | item :: items =>
      match item with
      | Ok (WsText text) =>
          let '(logs, s) := handle_text filter relay_url text s in
          let '(logs', sent, s) := read_loop filter relay_url items sends s in
          (logs ++ logs', sent, s)
      | Ok (WsPing payload) =>
          if default true (head sends) then
            let '(logs, sent, s) := read_loop filter relay_url items (tail sends) s in
            (logs, WsPong payload :: sent, s)
          else ([], [], s)
      | Ok WsClose => ([], [], s)
      | Ok _ => read_loop filter relay_url items sends s
      | Err err => ([LogReadFailed err], [], s)
      end
  end.

Definition process_relay_connection (filter : DispatchFilterConfig) (relay_url : string)
    (items : list (result string WsMessage)) (sends : list bool) (s : S)
    : list DispatchLog * list WsMessage * S :=
  let req := build_relay_req_message (df_admin_pubkey filter) in
  if default true (head sends) then
    let '(logs, sent, s) := read_loop filter relay_url items (tail sends) s in
    (logs, WsText req :: sent, s)
  else ([LogReqSendFailed], [], s).

(** Some rounds of the endless loop of a subscription: each connects, or fails to. *)
Fixpoint run_relay_subscription (filter : DispatchFilterConfig) (relay_url : string)
    (rounds : list (option (list (result string WsMessage) * list bool))) (s : S) : S :=
  match rounds with
  | [] => s
  | None :: rounds => run_relay_subscription filter relay_url rounds s
  | Some (items, sends) :: rounds =>
      let '(_, _, s) := process_relay_connection filter relay_url items sends s in
      run_relay_subscription filter relay_url rounds s
  end.
End Service.
