(* ===== verification/DispatchFacts.v ===== *)
(** * [DispatchFacts]: what control commands can and cannot do

    The theorems on [Dispatch], for every store that meets [CommandStoreLaws]
    and however its calls fail: the plan of a command says what it answers and
    writes, an execution carries out a prefix of its plan, once per event, and
    within what the actor may change; a stream of relay messages has the effect
    of its commands, and delivering it again has none. *)

From S2P Require Import Prelude RustStr CoreTypes Externals HexModel Nip34Common CommandCli.
From S2P Require Import Membership NostrAuth Database CommandState Dispatch.

(** ** What a store promises *)

Class CommandStoreLaws (S : Type) `{CommandStore S} := {
  stands : S → CommandView → Prop;
  insert_command_log_spec : ∀ r, realises stands (insert_command_log r) (log_insert r);
  update_command_log_outcome_spec : ∀ id status code message,
    realises stands (update_command_log_outcome id status code message)
      (λ v, (tt, log_outcome id status code message v));
  account_state_spec : ∀ p, realises stands (account_state p) (λ v, (cv_accounts v !! p, v));
  upsert_account_state_spec : ∀ r,
    realises stands (upsert_account_state r) (λ v, (tt, put_account r v));
  profile_state_spec : ∀ p, realises stands (profile_state p) (λ v, (cv_profiles v !! p, v));
  upsert_profile_state_spec : ∀ r,
    realises stands (upsert_profile_state r) (λ v, (tt, put_profile r v));
  repo_state_spec : ∀ o n, realises stands (repo_state o n) (λ v, (cv_repos v !! (o, n), v));
  upsert_repo_state_spec : ∀ r, realises stands (upsert_repo_state r) (λ v, (tt, put_repo r v));
  set_repo_maintainer_spec : ∀ r,
    realises stands (set_repo_maintainer r) (λ v, (tt, put_maintainer r v));
  list_active_spec : ∀ o n,
    realises stands (list_active_repo_maintainers o n) (λ v, (active_maintainers o n v, v))
}.

#[export] Instance PostgresRepositories_laws `{TimeLaws} : CommandStoreLaws (Database V1Tables) := {|
  stands := holds;
  insert_command_log_spec r := realises_map_err _ _ _ _ (v1_insert_command_log_realises r);
  update_command_log_outcome_spec id status code message :=
    realises_map_err _ _ _ _ (v1_update_command_log_outcome_realises id status code message);
  account_state_spec p := realises_map_err _ _ _ _ (v1_account_state_realises p);
  upsert_account_state_spec r := realises_map_err _ _ _ _ (v1_upsert_account_state_realises r);
  profile_state_spec p := realises_map_err _ _ _ _ (v1_profile_state_realises p);
  upsert_profile_state_spec r := realises_map_err _ _ _ _ (v1_upsert_profile_state_realises r);
  repo_state_spec o n := realises_map_err _ _ _ _ (v1_repo_state_realises o n);
  upsert_repo_state_spec r := realises_map_err _ _ _ _ (v1_upsert_repo_state_realises r);
  set_repo_maintainer_spec r := realises_map_err _ _ _ _ (v1_set_repo_maintainer_realises r);
  list_active_spec o n := realises_map_err _ _ _ _ (v1_list_active_realises o n)
|}.

(** ** The specification of a command: what it answers and what it writes *)

Inductive write :=
| WAccount (r : AccountStateRecord)
| WProfile (r : ProfileStateRecord)
| WRepo (r : RepoStateV1Record)
| WMaintainer (r : RepoMaintainerV1Record).

Definition apply_write (v : CommandView) (w : write) : CommandView :=
  match w with
  | WAccount r => put_account r v
  | WProfile r => put_profile r v
  | WRepo r => put_repo r v
  | WMaintainer r => put_maintainer r v
  end.
Definition apply_writes (ws : list write) (v : CommandView) : CommandView := foldl apply_write v ws.

(** The key under which a write falls. *)
Definition write_pubkey (w : write) : bytes :=
  match w with
  | WAccount r => as_pubkey r
  | WProfile r => ps_pubkey r
  | WRepo r => rp_owner_pubkey r
  | WMaintainer r => rm_owner_pubkey r
  end.

Section Plans.
Context `{Bech32Lib}.

Definition plan : Type := CommandExecutionOutput * list write.

Definition plan_account (i : CommandExecutionInput) (account : option AccountStateRecord) : plan :=
  let me := ci_actor_pubkey i in
  let now := ci_created_at i in
  if pc_action (ci_parsed i) == "create" then
    if is_some account then (cmd_ok "account_exists" "account already exists", [])
    else (cmd_ok "account_created" "account created",
          [WAccount (mkAccountStateRecord me AlActive now now None)])
  else if pc_action (ci_parsed i) == "delete" then
    (cmd_ok "account_deleted" "account deleted",
     [WAccount (mkAccountStateRecord me AlDeleted (default now (as_created_at <$> account)) now (Some now))])
  else if pc_action (ci_parsed i) == "status" then
    (cmd_ok "account_status"
       (default "account missing"
          ((λ r, "account " +:+ AccountLifecycle_as_str (as_status r)) <$> account)), [])
  else (cmd_err "invalid_command" "unsupported account action", []).

Definition plan_profile (i : CommandExecutionInput) (stored : option ProfileStateRecord) : plan :=
  let me := ci_actor_pubkey i in
  let now := ci_created_at i in
  let profile := default (mkProfileStateRecord me None None None None None PvPrivate now) stored in
  if pc_action (ci_parsed i) == "set" then
    (cmd_ok "profile_updated" "profile updated",
     [WProfile (set_profile_updated now (foldl profile_field profile (pc_args (ci_parsed i))))])
  else if pc_action (ci_parsed i) == "visibility" then
    match pc_args (ci_parsed i) with
    | [Positional value] =>
        (cmd_ok "profile_visibility_updated" "profile visibility updated",
         [WProfile (set_profile_updated now
            (set_profile_visibility (if value == "public" then PvPublic else PvPrivate) profile))])
    | _ => (cmd_err "invalid_args" "profile visibility requires public|private", [])
    end
  else (cmd_err "invalid_command" "unsupported profile action", []).

(** A repository of the actor is changed by its maintainers; the actor is the
    only one who can be asked about here. *)
Definition maintains (me : bytes) (name : string) (v : CommandView) : bool :=
  bool_decide (me ∈ active_maintainers me name v).

Definition plan_change (i : CommandExecutionInput) (name : string)
    (change : RepoStateV1Record → RepoStateV1Record) (done : CommandExecutionOutput)
    (v : CommandView) : plan :=
  match cv_repos v !! (ci_actor_pubkey i, name) with
  | None => (cmd_err "not_found" "repo not found", [])
  | Some state =>
      if maintains (ci_actor_pubkey i) name v
      then (done, [WRepo (set_repo_updated (ci_created_at i) (change state))])
      else (cmd_err "unauthorized" "actor is not a maintainer", [])
  end.

Definition plan_create (i : CommandExecutionInput) (name : string) (v : CommandView) : plan :=
  let me := ci_actor_pubkey i in
  if is_some (cv_repos v !! (me, name)) then (cmd_ok "repo_exists" "repo already exists", [])
  else (cmd_ok "repo_created" "repo created",
        [WRepo (mkRepoStateV1Record me name None None RvPrivate "main" false (ci_created_at i));
         WMaintainer (mkRepoMaintainerV1Record me name me true (ci_created_at i))]).

Definition plan_maintainers (i : CommandExecutionInput) (name : string) (v : CommandView) : plan :=
  if maintains (ci_actor_pubkey i) name v then
    match pc_args (ci_parsed i) with
    | [Positional action; Positional npub] =>
        match pubkey_bytes_from_npub npub with
        | Ok p => (cmd_ok "repo_maintainer_updated" "repo maintainer updated",
                   [WMaintainer (mkRepoMaintainerV1Record (ci_actor_pubkey i) name p
                                   (action == "add") (ci_created_at i))])
        | Err _ => (cmd_err "invalid_args" "invalid maintainer npub", [])
        end
    | _ => (cmd_err "invalid_args" "repo maintainers requires add|remove and npub", [])
    end
  else (cmd_err "unauthorized" "actor is not a maintainer", []).

Definition plan_repo (i : CommandExecutionInput) (v : CommandView) : plan :=
  match pc_target (ci_parsed i) with
  | None => (cmd_err "invalid_args" "repo target is required", [])
  | Some name =>
      let action := pc_action (ci_parsed i) in
      if action == "create" then plan_create i name v
      else if action == "update" then
        plan_change i name (λ r, foldl repo_field r (pc_args (ci_parsed i)))
          (cmd_ok "repo_updated" "repo updated") v
      else if (action == "archive") || (action == "unarchive") then
        plan_change i name (set_repo_archived (action == "archive"))
          (cmd_ok "repo_state_updated" "repo archive state updated") v
      else if action == "maintainers" then plan_maintainers i name v
      else if action == "announce" then
        (cmd_ok "repo_announce_accepted" "repo announcement accepted", [])
      else if action == "sync" then (cmd_ok "repo_sync_accepted" "repo sync accepted", [])
      else (cmd_err "invalid_command" "unsupported repo action", [])
  end.

Definition plan_command (i : CommandExecutionInput) (v : CommandView) : plan :=
  match pc_namespace (ci_parsed i) with
  | NsAccount => plan_account i (cv_accounts v !! ci_actor_pubkey i)
  | NsProfile => plan_profile i (cv_profiles v !! ci_actor_pubkey i)
  | NsRepo => plan_repo i v
  end.
End Plans.

(** ** The handlers carry out their plans *)

Section Planned.
Context {S : Type} `{CommandStoreLaws S}.

(** A success answers as planned and has written everything; a failure has
    written a prefix. *)
Definition planned (c : stateful S DispatchError CommandExecutionOutput) (p : CommandView → plan) : Prop :=
  ∀ s v r s', stands s v → c s = (r, s') →
    match r with
    | Ok out => out = (p v).1 ∧ stands s' (apply_writes (p v).2 v)
    | Err _ => ∃ ws, ws `prefix_of` (p v).2 ∧ stands s' (apply_writes ws v)
    end.

Lemma planned_ret out : planned (mret out) (λ _, (out, [])).
Proof. intros s v r s' Hs [= <- <-]. done. Qed.

Lemma planned_read {A} (c : stateful S DispatchError A) f k p :
  realises stands c (λ v, (f v, v)) → (∀ a, planned (k a) (p a)) →
  planned (c ≫= k) (λ v, p (f v) v).
Proof.
  intros Hc Hk s v r s' Hs. unfold mbind, stateful_bind.
  destruct (c s) as [[a|e] s1] eqn:E; specialize (Hc _ _ _ _ Hs E); simpl in Hc.
  - destruct Hc as [-> Hs1]. by apply Hk.
  - intros [= <- <-]. exists []. split; [apply prefix_nil|]. by destruct Hc.
Qed.

Lemma planned_write (c : stateful S DispatchError unit) w k p :
  realises stands c (λ v, (tt, apply_write v w)) → planned k p →
  planned (c ≫= λ _, k) (λ v, ((p (apply_write v w)).1, w :: (p (apply_write v w)).2)).
Proof.
  intros Hc Hk s v r s' Hs. unfold mbind, stateful_bind.
  destruct (c s) as [[[]|e] s1] eqn:E; specialize (Hc _ _ _ _ Hs E); simpl in Hc.
  - destruct Hc as [_ Hs1]. intros Hr. specialize (Hk _ _ _ _ Hs1 Hr). destruct r; [done|].
    destruct Hk as (ws & Hp & Hw). exists (w :: ws). split; [by apply prefix_cons|done].
  - intros [= <- <-]. destruct Hc as [Hc|Hc].
    + exists []. split; [apply prefix_nil|done].
    + exists [w]. split; [apply prefix_cons, prefix_nil|done].
Qed.

Lemma planned_ext c p q : (∀ v, p v = q v) → planned c p → planned c q.
Proof. intros E Hc s v r s' Hs Hr. specialize (Hc s v r s' Hs Hr). by rewrite <-E. Qed.

(** A single write, then the answer. *)
Lemma planned_write_ret c w out :
  realises stands c (λ v, (tt, apply_write v w)) →
  planned (c ≫= λ _, mret out) (λ _, (out, [w])).
Proof. intros Hc. apply (planned_write c w _ (λ _, (out, []))); [done|apply planned_ret]. Qed.

Hint Resolve planned_ret planned_write_ret upsert_account_state_spec upsert_profile_state_spec
  upsert_repo_state_spec set_repo_maintainer_spec : gittree.

Lemma apply_account_planned i :
  planned (apply_account i) (λ v, plan_account i (cv_accounts v !! ci_actor_pubkey i)).
Proof.
  apply (planned_read _ _ _ (λ a _, plan_account i a)); [apply account_state_spec|].
  intros [r|]; unfold plan_account; simpl; repeat case_match; auto with gittree.
Qed.

Lemma apply_profile_planned i :
  planned (apply_profile i) (λ v, plan_profile i (cv_profiles v !! ci_actor_pubkey i)).
Proof.
  apply (planned_read _ _ _ (λ a _, plan_profile i a)); [apply profile_state_spec|].
  intros stored. unfold plan_profile. repeat case_match; auto with gittree.
Qed.

Lemma actor_is_maintainer_realises me name :
  realises stands (actor_is_maintainer me name) (λ v, (maintains me name v, v)).
Proof.
  intros s v r s' Hs. unfold actor_is_maintainer, mbind, stateful_bind.
  destruct (list_active_repo_maintainers me name s) as [[a|e] s1] eqn:E;
    pose proof (list_active_spec me name s v _ _ Hs E) as Hl; simpl in Hl; intros [= <- <-]; [|done].
  simpl. by destruct Hl as [-> ?].
Qed.

Lemma change_repo_planned i name change done :
  planned (change_repo i name change done) (plan_change i name change done).
Proof.
  apply (planned_read _ _ _ (λ stored v,
    match stored with
    | None => (cmd_err "not_found" "repo not found", [])
    | Some state =>
        if maintains (ci_actor_pubkey i) name v
        then (done, [WRepo (set_repo_updated (ci_created_at i) (change state))])
        else (cmd_err "unauthorized" "actor is not a maintainer", [])
    end)); [apply repo_state_spec|].
  intros [state|]; [|auto with gittree].
  apply (planned_read _ _ _ (λ (b : bool) _, if b then _ else _)); [apply actor_is_maintainer_realises|].
  intros []; simpl; auto with gittree.
Qed.

Lemma create_repo_planned i name : planned (create_repo i name) (plan_create i name).
Proof.
  apply (planned_read _ _ _ (λ (stored : option RepoStateV1Record) _,
    if is_some stored then _ else _)); [apply repo_state_spec|].
  intros [r|]; simpl; [auto with gittree|].
  apply (planned_write _ (WRepo _) _ (λ _, (_, [_]))); auto with gittree.
Qed.

Lemma change_maintainers_planned `{Bech32Lib} i name :
  planned (change_maintainers i name) (plan_maintainers i name).
Proof.
  apply (planned_read _ _ _ (λ (b : bool) _, if b then _ else _)); [apply actor_is_maintainer_realises|].
  intros []; simpl; repeat case_match; auto with gittree.
Qed.

Lemma apply_command_planned `{Bech32Lib} i : planned (apply_command i) (plan_command i).
Proof.
  unfold apply_command, plan_command. destruct (pc_namespace (ci_parsed i)).
  - apply apply_account_planned.
  - apply apply_profile_planned.
  - unfold apply_repo, plan_repo. destruct (pc_target (ci_parsed i)) as [name|]; [|auto with gittree].
    repeat case_match; auto using create_repo_planned, change_repo_planned, change_maintainers_planned
      with gittree.
Qed.
End Planned.

(** ** Executing a command *)

(** The event of the command has been logged as accepted. *)
Definition logged (i : CommandExecutionInput) (v : CommandView) : CommandView :=
  view_log (insert (ci_event_id i) (accepted_record i)) v.

(** The views a command may leave behind: untouched when its event is already
    logged or could not be; otherwise its event is logged, some prefix of its
    planned writes is applied, and the outcome is recorded or still to be. *)
Inductive executed `{Bech32Lib} (i : CommandExecutionInput) (v : CommandView)
    : result DispatchError CommandExecutionOutput → CommandView → Prop :=
| ExDuplicate : is_Some (cv_log v !! ci_event_id i) →
    executed i v (Ok (cmd_ok "duplicate" "already processed")) v
| ExNotLogged err : executed i v (Err err) v
| ExDone out ws : cv_log v !! ci_event_id i = None → plan_command i (logged i v) = (out, ws) →
    executed i v (Ok out) (log_outcome (ci_event_id i) (co_status out) (co_code out) (co_message out)
                             (apply_writes ws (logged i v)))
| ExInternal message ws : cv_log v !! ci_event_id i = None →
    ws `prefix_of` (plan_command i (logged i v)).2 →
    executed i v (Ok (cmd_err "internal" message))
      (log_outcome (ci_event_id i) CsError "internal" message (apply_writes ws (logged i v)))
| ExUnrecorded err ws : cv_log v !! ci_event_id i = None →
    ws `prefix_of` (plan_command i (logged i v)).2 →
    executed i v (Err err) (apply_writes ws (logged i v))
| ExRecorded err status code message ws : cv_log v !! ci_event_id i = None →
    ws `prefix_of` (plan_command i (logged i v)).2 →
    executed i v (Err err)
      (log_outcome (ci_event_id i) status code message (apply_writes ws (logged i v))).

Section Execute.
Context {S : Type} `{CommandStoreLaws S} `{Bech32Lib}.

Lemma catch_internal_planned c p s v r s' :
  planned c p → stands s v → catch_internal c s = (r, s') →
  (r = Ok (p v).1 ∧ stands s' (apply_writes (p v).2 v)) ∨
  ∃ message ws, r = Ok (cmd_err "internal" message) ∧ ws `prefix_of` (p v).2 ∧
    stands s' (apply_writes ws v).
Proof.
  intros Hc Hs. unfold catch_internal. destruct (c s) as [[out|e] s1] eqn:E;
    specialize (Hc _ _ _ _ Hs E); simpl in Hc; intros [= <- <-].
  - left. destruct Hc as [-> ?]. done.
  - right. destruct Hc as (ws & ? & ?). eauto.
Qed.

Lemma execute_command_executed i s v r s' :
  stands s v → execute_command i s = (r, s') → ∃ v', stands s' v' ∧ executed i v r v'.
Proof.
  intros Hs. unfold execute_command, mbind, stateful_bind.
  destruct (insert_command_log (accepted_record i) s) as [[b|e] s1] eqn:E1;
    pose proof (insert_command_log_spec _ _ _ _ _ Hs E1) as Hi; unfold log_insert in Hi; simpl in Hi;
    destruct (cv_log v !! ci_event_id i) as [old|] eqn:Eold; simpl in Hi.
  - destruct Hi as [-> Hs1]. simpl. intros [= <- <-]. exists v. split; [done|]. by constructor.
  - destruct Hi as [-> Hs1]. simpl.
    destruct (catch_internal (apply_command i) s1) as [r2 s2] eqn:E2.
    destruct (catch_internal_planned _ _ _ _ _ _ (apply_command_planned i) Hs1 E2)
      as [[-> Hs2]|(message & ws & -> & Hp & Hs2)];
      destruct (update_command_log_outcome _ _ _ _ s2) as [[[]|e3] s3] eqn:E3;
      pose proof (update_command_log_outcome_spec _ _ _ _ _ _ _ _ Hs2 E3) as Hu; simpl in Hu;
      intros [= <- <-].
    + destruct Hu as [_ Hu]. eexists. split; [exact Hu|]. apply ExDone; [done|].
      apply surjective_pairing.
    + destruct Hu as [Hu|Hu]; eexists; (split; [exact Hu|]).
      * by apply ExUnrecorded.
      * by apply ExRecorded.
    + destruct Hu as [_ Hu]. eexists. split; [exact Hu|]. by apply ExInternal.
    + destruct Hu as [Hu|Hu]; eexists; (split; [exact Hu|]).
      * by apply ExUnrecorded.
      * by apply ExRecorded.
  - intros [= <- <-]. exists v. split; [by destruct Hi|constructor].
  - intros [= <- <-]. destruct Hi as [Hi|Hi]; eexists; (split; [exact Hi|]); [constructor|].
    apply (ExUnrecorded i v e []); [done|apply prefix_nil].
Qed.
End Execute.

(** ** Where the writes of a plan fall *)

Lemma profile_fields_pubkey args p : ps_pubkey (foldl profile_field p args) = ps_pubkey p.
Proof.
  revert p. induction args as [|a args IH]; intros p; simpl; [done|]. rewrite IH.
  destruct p, a; simpl; repeat case_match; done.
Qed.

Lemma repo_fields_key args r :
  rp_owner_pubkey (foldl repo_field r args) = rp_owner_pubkey r ∧
  rp_repo_name (foldl repo_field r args) = rp_repo_name r.
Proof.
  revert r. induction args as [|a args IH]; intros r; simpl; [done|].
  destruct (IH (repo_field r a)) as [-> ->]. destruct r, a; simpl; repeat case_match; done.
Qed.

(** Records lie under their own keys. *)
Record view_keyed (v : CommandView) : Prop := {
  keyed_profiles : ∀ k r, cv_profiles v !! k = Some r → ps_pubkey r = k;
  keyed_repos : ∀ k r, cv_repos v !! k = Some r → (rp_owner_pubkey r, rp_repo_name r) = k
}.

Lemma apply_write_keyed v w : view_keyed v → view_keyed (apply_write v w).
Proof.
  intros []. destruct w; split; simpl; auto; intros k x Hk;
    apply lookup_insert_Some in Hk as [[<- <-]|[? ?]]; auto.
Qed.

Lemma apply_writes_keyed ws v : view_keyed v → view_keyed (apply_writes ws v).
Proof. revert v. induction ws; intros v Hv; simpl; [done|]. by apply IHws, apply_write_keyed. Qed.

(** What a write of the actor may do to the state [v]: it falls under the
    actor's key, and it changes an existing repository, or the maintainers of
    a repository, only where the actor is an active maintainer in [v]. *)
Definition permitted (me : bytes) (v : CommandView) (w : write) : Prop :=
  write_pubkey w = me ∧
  match w with
  | WRepo r => cv_repos v !! (me, rp_repo_name r) = None ∨ me ∈ active_maintainers me (rp_repo_name r) v
  | WMaintainer r =>
      cv_repos v !! (me, rm_repo_name r) = None ∧ rm_maintainer_pubkey r = me ∨
      me ∈ active_maintainers me (rm_repo_name r) v
  | _ => True
  end.

Section Permitted.
Context `{Bech32Lib}.

Lemma plan_profile_permitted i v stored :
  (∀ p, stored = Some p → ps_pubkey p = ci_actor_pubkey i) →
  Forall (permitted (ci_actor_pubkey i) v) (plan_profile i stored).2.
Proof.
  intros Hk. unfold plan_profile, permitted. set (p0 := default _ stored).
  assert (ps_pubkey p0 = ci_actor_pubkey i) as Hp by (destruct stored; simpl; auto).
  repeat case_match; simpl; repeat constructor; simpl; rewrite ?profile_fields_pubkey; done.
Qed.

Lemma plan_change_permitted i name change out v :
  view_keyed v →
  (∀ r, rp_owner_pubkey (change r) = rp_owner_pubkey r ∧ rp_repo_name (change r) = rp_repo_name r) →
  Forall (permitted (ci_actor_pubkey i) v) (plan_change i name change out v).2.
Proof.
  intros Hv Hc. unfold plan_change, maintains.
  destruct (cv_repos v !! (ci_actor_pubkey i, name)) as [r|] eqn:E; [|constructor].
  case_bool_decide as Hm; [|constructor]. apply (keyed_repos _ Hv) in E. simplify_eq.
  destruct (Hc r) as [Ho Hn]. apply Forall_singleton. split; simpl; [congruence|]. rewrite Hn. auto.
Qed.

Lemma plan_command_permitted i v :
  view_keyed v → Forall (permitted (ci_actor_pubkey i) v) (plan_command i v).2.
Proof.
  intros Hv. unfold plan_command. destruct (pc_namespace (ci_parsed i)).
  - unfold plan_account. repeat case_match; repeat constructor; done.
  - apply plan_profile_permitted. intros p Hp. by eapply keyed_profiles.
  - unfold plan_repo. destruct (pc_target (ci_parsed i)) as [name|]; [|constructor].
    repeat case_match; try constructor.
    + unfold plan_create. destruct (cv_repos v !! (ci_actor_pubkey i, name)) eqn:E; repeat constructor; simpl; auto.
    + apply plan_change_permitted; [done|]. intros r. apply repo_fields_key.
    + apply plan_change_permitted; [done|]. by intros [].
    + unfold plan_maintainers, maintains. case_bool_decide; repeat case_match; try constructor; [|constructor].
      split; simpl; auto.
Qed.
End Permitted.

(** ** Isolation *)

(** The repository [name] of [owner] is closed to [me]: it belongs to someone
    else, or [me] created it and is no active maintainer of it. *)
Definition closed_to (me : bytes) (v : CommandView) (owner : bytes) (name : string) : Prop :=
  owner ≠ me ∨ is_Some (cv_repos v !! (me, name)) ∧ me ∉ active_maintainers me name v.

(** Two views that differ only in what is [me]'s to change. *)
Record within (me : bytes) (v v' : CommandView) : Prop := {
  within_accounts : ∀ p, p ≠ me → cv_accounts v' !! p = cv_accounts v !! p;
  within_profiles : ∀ p, p ≠ me → cv_profiles v' !! p = cv_profiles v !! p;
  within_repos : ∀ o n, closed_to me v o n → cv_repos v' !! (o, n) = cv_repos v !! (o, n);
  within_maintainers : ∀ o n p, closed_to me v o n →
    cv_maintainers v' !! (o, n, p) = cv_maintainers v !! (o, n, p)
}.

Lemma within_refl me v : within me v v.
Proof. by split. Qed.

Lemma within_write me v v' w : within me v v' → permitted me v w → within me v (apply_write v' w).
Proof.
  intros [Ha Hp Hr Hm] [Hk Hw]. destruct w as [r|r|r|r]; simpl in *; subst me.
  - split; simpl; auto. intros p Hne. by rewrite lookup_insert_ne, Ha.
  - split; simpl; auto. intros p Hne. by rewrite lookup_insert_ne, Hp.
  - split; simpl; auto. intros o n Hc. rewrite lookup_insert_ne; [auto|].
    intros [= <- <-]. destruct Hc as [?|[Hs Hn]]; [done|].
    destruct Hw as [Hw|Hw]; [|done]. rewrite Hw in Hs. by destruct Hs.
  - split; simpl; auto. intros o n p Hc. rewrite lookup_insert_ne; [auto|].
    intros [= <- <- <-]. destruct Hc as [?|[Hs Hn]]; [done|].
    destruct Hw as [[Hw _]|Hw]; [|done]. rewrite Hw in Hs. by destruct Hs.
Qed.

Lemma within_writes me v ws : ∀ v', within me v v' → Forall (permitted me v) ws →
  within me v (apply_writes ws v').
Proof.
  induction ws as [|w ws IH]; intros v' Hv Hw; simpl; [done|].
  apply Forall_cons in Hw as [Hw Hws]. apply IH; [|done]. by apply within_write.
Qed.

Lemma apply_writes_log ws : ∀ v, cv_log (apply_writes ws v) = cv_log v.
Proof. induction ws as [|w ws IH]; intros v; simpl; [done|]. rewrite IH. by destruct w. Qed.

(** Everything but the log. *)
Lemma logged_state i v :
  cv_accounts (logged i v) = cv_accounts v ∧ cv_profiles (logged i v) = cv_profiles v ∧
  cv_repos (logged i v) = cv_repos v ∧ cv_maintainers (logged i v) = cv_maintainers v.
Proof. done. Qed.

Lemma within_log me v v' f : within me v v' → within me v (view_log f v').
Proof. intros []. by split. Qed.

Lemma view_keyed_log v f : view_keyed v → view_keyed (view_log f v).
Proof. intros []. by split. Qed.

Section Isolation.
Context `{Bech32Lib}.

Lemma executed_writes i v ws :
  view_keyed v → ws `prefix_of` (plan_command i (logged i v)).2 →
  within (ci_actor_pubkey i) v (apply_writes ws (logged i v)) ∧
  view_keyed (apply_writes ws (logged i v)).
Proof.
  intros Hv [ws' Hws]. assert (view_keyed (logged i v)) as Hl by by apply view_keyed_log.
  pose proof (plan_command_permitted i (logged i v) Hl) as Hp. rewrite Hws in Hp.
  apply Forall_app in Hp as [Hp _]. split; [|by apply apply_writes_keyed].
  destruct (within_writes _ _ _ _ (within_refl (ci_actor_pubkey i) (logged i v)) Hp). by split.
Qed.

(** Of the log only the entry of this event may have changed, and after an
    execution that answers there is one. *)
Lemma executed_log i v r v' :
  executed i v r v' →
  (∀ id, id ≠ ci_event_id i → cv_log v' !! id = cv_log v !! id) ∧
  (∀ id, is_Some (cv_log v !! id) → v' = v ∨ id ≠ ci_event_id i) ∧
  (∀ out, r = Ok out → is_Some (cv_log v' !! ci_event_id i)).
Proof.
  assert (∀ ws id, id ≠ ci_event_id i →
    cv_log (apply_writes ws (logged i v)) !! id = cv_log v !! id) as Hlog.
  { intros ws id Hne. rewrite apply_writes_log. simpl. by rewrite lookup_insert_ne. }
  assert (∀ ws, is_Some (cv_log (apply_writes ws (logged i v)) !! ci_event_id i)) as Hin.
  { intros ws. rewrite apply_writes_log. simpl. rewrite lookup_insert_eq. by eexists. }
  destruct 1 as [Hd|err|out ws Hn Hp|message ws Hn Hp|err ws Hn Hp|err status code message ws Hn Hp];
    (split; [|split]); simpl; auto; try done;
    try (intros id Hne; rewrite lookup_alter_ne by done; by apply Hlog);
    try (intros _ _; rewrite lookup_alter_eq; by apply fmap_is_Some);
    intros id Hs; right; intros ->; rewrite Hn in Hs; by destruct Hs.
Qed.

(** However the execution ends, only the actor's own state has changed. *)
Lemma executed_within i v r v' :
  view_keyed v → executed i v r v' → within (ci_actor_pubkey i) v v' ∧ view_keyed v'.
Proof.
  intros Hv. destruct 1 as [Hd|err|out ws Hn Hp|message ws Hn Hp|err ws Hn Hp|err status code message ws Hn Hp].
  - split; [apply within_refl|done].
  - split; [apply within_refl|done].
  - destruct (executed_writes i v ws Hv) as [? ?]; [by rewrite Hp|].
    split; [by apply within_log|by apply view_keyed_log].
  - destruct (executed_writes i v ws Hv Hp). split; [by apply within_log|by apply view_keyed_log].
  - by apply executed_writes.
  - destruct (executed_writes i v ws Hv Hp). split; [by apply within_log|by apply view_keyed_log].
Qed.

(** A logged event acts no more. *)
Lemma executed_replay i v r v' :
  is_Some (cv_log v !! ci_event_id i) → executed i v r v' →
  v' = v ∧ ∀ out, r = Ok out → out = cmd_ok "duplicate" "already processed".
Proof.
  intros [x Hx]. destruct 1 as [Hd|err|? ? Hn|? ? Hn|? ? Hn|? ? ? ? ? Hn]; try congruence.
  - split; [done|]. by intros out [= <-].
  - done.
Qed.
End Isolation.

(** ** Streams of messages *)

Section Streams.
Context {S : Type} `{CommandStoreLaws S} `{Bech32Lib} `{HexLib} `{JsonLib}.

(** The command a relay message carries, if it carries one. *)
Definition command_of (filter : DispatchFilterConfig) (relay_url text : string)
    : option CommandExecutionInput :=
  envelope ← parse_relay_event_message text relay_url;
  _ ← ok (is_dispatch_command_event filter envelope);
  parsed ← ok (parse_cli_command (env_content envelope));
  event_id ← ok (decode_fixed_hex (env_id envelope) "event id");
  actor_pubkey ← ok (decode_fixed_hex (env_pubkey envelope) "pubkey");
  Some (mkCommandExecutionInput event_id actor_pubkey parsed (env_created_at envelope)).

Definition not_applied (o : option DispatchEventOutcome) : bool :=
  match o with Some (Applied _) => false | _ => true end.

Lemma process_event_message_command filter url text s :
  match command_of filter url text with
  | None => ∃ o, process_event_message filter url text s = (Ok o, s) ∧ not_applied o = true
  | Some i =>
      process_event_message filter url text s =
      match execute_command i s with
      | (Ok out, s') => (Ok (Some (Applied out)), s')
      | (Err e, s') => (Err e, s')
      end
  end.
Proof.
  unfold process_event_message, command_of, process_event_envelope.
  destruct (parse_relay_event_message text url) as [envelope|]; simpl; [|by eexists].
  destruct (is_dispatch_command_event filter envelope); simpl; [|by eexists].
  destruct (parse_cli_command (env_content envelope)); simpl; [|by eexists].
  destruct (decode_fixed_hex (env_id envelope) "event id"); simpl; [|by eexists].
  destruct (decode_fixed_hex (env_pubkey envelope) "pubkey"); simpl; [|by eexists].
  unfold mbind, stateful_bind. by destruct (execute_command _ s) as [[]].
Qed.

Lemma handle_text_command filter url text s :
  match command_of filter url text with
  | None => ∃ logs, handle_text filter url text s = (logs, s) ∧ ∀ e, LogProcessingFailed e ∉ logs
  | Some i =>
      handle_text filter url text s =
      match execute_command i s with
      | (Ok out, s') => ([LogApplied (co_code out)], s')
      | (Err e, s') => ([LogProcessingFailed e], s')
      end
  end.
Proof.
  pose proof (process_event_message_command filter url text s) as Hp. unfold handle_text.
  destruct (command_of filter url text) as [i|].
  - rewrite Hp. by destruct (execute_command i s) as [[]].
  - destruct Hp as (o & -> & Ho). destruct o as [[]|]; simpl in Ho; try done;
      (eexists; split; [done|]); intros e; rewrite ?list_elem_of_singleton; [done..|apply not_elem_of_nil].
Qed.

Fixpoint handle_texts (filter : DispatchFilterConfig) (relay_url : string) (texts : list string) (s : S)
    : list DispatchLog * S :=
  match texts with
  | [] => ([], s)
  | text :: texts =>
      let '(logs, s) := handle_text filter relay_url text s in
      let '(logs', s) := handle_texts filter relay_url texts s in
      (logs ++ logs', s)
  end.

(** The texts a connection handles: those before it closes, fails, or cannot
    answer a ping. *)
Fixpoint read_texts (items : list (result string WsMessage)) (sends : list bool) : list string :=
  match items with
  | [] => []
  | Ok (WsText text) :: items => text :: read_texts items sends
  | Ok (WsPing _) :: items => if default true (head sends) then read_texts items (tail sends) else []
  | Ok WsClose :: _ => []
  | Ok _ :: items => read_texts items sends
  | Err _ :: _ => []
  end.
Definition connection_texts (items : list (result string WsMessage)) (sends : list bool) : list string :=
  if default true (head sends) then read_texts items (tail sends) else [].

Lemma read_loop_texts filter url items : ∀ sends s logs sent s',
  read_loop filter url items sends s = (logs, sent, s') →
  ∃ logs1 logs2, handle_texts filter url (read_texts items sends) s = (logs1, s') ∧
    logs = logs1 ++ logs2.
Proof.
  induction items as [|[[text|payload|payload|payload|]|err] items IH]; intros sends s logs sent s'; simpl.
  - intros [= <- <- <-]. by exists [], [].
  - destruct (handle_text filter url text s) as [logs1 s1].
    destruct (read_loop filter url items sends s1) as [[logs2 sent2] s2] eqn:E. intros [= <- <- <-].
    apply IH in E as (l1 & l2 & -> & ->). exists (logs1 ++ l1), l2. split; [done|]. by rewrite app_assoc.
  - destruct (default true (head sends)).
    + destruct (read_loop filter url items (tail sends) s) as [[logs2 sent2] s2] eqn:E.
      intros [= <- <- <-]. by apply IH in E.
    + intros [= <- <- <-]. by exists [], [].
  - apply IH.
  - apply IH.
  - intros [= <- <- <-]. by exists [], [].
  - intros [= <- <- <-]. by exists [], [LogReadFailed err].
Qed.

Lemma connection_handles filter url items sends s logs sent s' :
  process_relay_connection filter url items sends s = (logs, sent, s') →
  ∃ logs1 logs2, handle_texts filter url (connection_texts items sends) s = (logs1, s') ∧
    logs = logs1 ++ logs2.
Proof.
  unfold process_relay_connection, connection_texts. destruct (default true (head sends)).
  - destruct (read_loop filter url items (tail sends) s) as [[l sn] s1] eqn:E.
    intros [= <- <- <-]. by apply read_loop_texts in E.
  - intros [= <- <- <-]. by exists [], [LogReqSendFailed].
Qed.

(** The event of every command among these texts is logged. *)
Definition all_logged (filter : DispatchFilterConfig) (relay_url : string) (texts : list string)
    (v : CommandView) : Prop :=
  ∀ text i, text ∈ texts → command_of filter relay_url text = Some i →
    is_Some (cv_log v !! ci_event_id i).

Lemma handle_text_view filter url text s v logs s' :
  stands s v → handle_text filter url text s = (logs, s') →
  ∃ v', stands s' v' ∧
    (∀ id, is_Some (cv_log v !! id) → is_Some (cv_log v' !! id)) ∧
    ((∀ e, LogProcessingFailed e ∉ logs) → all_logged filter url [text] v') ∧
    (all_logged filter url [text] v → v' = v).
Proof.
  intros Hs Ht. pose proof (handle_text_command filter url text s) as Hc.
  destruct (command_of filter url text) as [i|] eqn:Ei.
  - rewrite Ht in Hc. destruct (execute_command i s) as [r s1] eqn:Ex.
    destruct (execute_command_executed i s v r s1 Hs Ex) as (v' & Hs1 & He).
    destruct (executed_log _ _ _ _ He) as (Hl1 & Hl2 & Hl3).
    exists v'. assert (s' = s1) as -> by (destruct r; congruence). split_and!; [done|..].
    + intros id Hid. destruct (Hl2 id Hid) as [->|Hne]; [done|]. by rewrite Hl1.
    + intros Hnf text' j ->%list_elem_of_singleton Hj. simplify_eq. destruct r as [out|e]; [eauto|].
      simplify_eq. by destruct (Hnf e (proj2 (list_elem_of_singleton _ _) eq_refl)).
    + intros Hall. destruct (executed_replay i v r v'); [|done|done]. by apply (Hall text); [set_solver|].
  - destruct Hc as (l & Hc & Hnf). rewrite Ht in Hc. simplify_eq. exists v.
    split_and!; [done|done| |done]. intros _ text' j ->%list_elem_of_singleton Hj. congruence.
Qed.

Lemma handle_texts_logged filter url texts : ∀ s v logs s',
  stands s v → handle_texts filter url texts s = (logs, s') → (∀ e, LogProcessingFailed e ∉ logs) →
  ∃ v', stands s' v' ∧ all_logged filter url texts v' ∧
    (∀ id, is_Some (cv_log v !! id) → is_Some (cv_log v' !! id)).
Proof.
  induction texts as [|text texts IH]; intros s v logs s' Hs; simpl.
  - intros [= <- <-] _. exists v. split_and!; [done| |done]. intros text i Hin. by apply not_elem_of_nil in Hin.
  - destruct (handle_text filter url text s) as [logs1 s1] eqn:E1.
    destruct (handle_texts filter url texts s1) as [logs2 s2] eqn:E2. intros [= <- <-] Hnf.
    destruct (handle_text_view _ _ _ _ _ _ _ Hs E1) as (v1 & Hs1 & Hm1 & Hl1 & _).
    destruct (IH _ _ _ _ Hs1 E2) as (v2 & Hs2 & Hl2 & Hm2); [set_solver|].
    exists v2. split_and!; [done| |auto]. intros t i [->|Hin]%elem_of_cons Hi; [|by eapply Hl2].
    apply Hm2. apply (Hl1 ltac:(set_solver) text); [set_solver|done].
Qed.

Lemma handle_texts_replay filter url texts : ∀ s v logs s',
  stands s v → all_logged filter url texts v → handle_texts filter url texts s = (logs, s') → stands s' v.
Proof.
  induction texts as [|text texts IH]; intros s v logs s' Hs Hall; simpl.
  - by intros [= <- <-].
  - destruct (handle_text filter url text s) as [logs1 s1] eqn:E1.
    destruct (handle_texts filter url texts s1) as [logs2 s2] eqn:E2. intros [= <- <-].
    destruct (handle_text_view _ _ _ _ _ _ _ Hs E1) as (v1 & Hs1 & _ & _ & Hr).
    rewrite Hr in Hs1; [|intros t i ->%list_elem_of_singleton; apply Hall; left].
    eapply IH; [exact Hs1| |exact E2]. intros t i Hin. apply Hall. by right.
Qed.
End Streams.

(** ** Without failures of the database *)

Create HintDb surely.

Section Reliable.
Context `{TimeLaws} `{Bech32Lib}.

(** From the view [v], while statements succeed, [c] succeeds. *)
Definition surely {E A} (c : stateful (Database V1Tables) E A) (v : CommandView) : Prop :=
  ∀ db, reliable db → stands db v → ∃ a db', c db = (Ok a, db') ∧ reliable db'.

Definition time_ok (z : Z) : Prop := is_Some (from_unix_timestamp z).

Lemma surely_ret {E A} (a : A) v : surely (E:=E) (mret a) v.
Proof. intros db Hr _. by exists a, db. Qed.

Lemma surely_map_err {E F A} (f : E → F) (c : stateful (Database V1Tables) E A) v :
  surely c v → surely (map_err_st f c) v.
Proof.
  intros Hc db Hr Hh. destruct (Hc db Hr Hh) as (a & db' & E1 & Hr'). exists a, db'.
  unfold map_err_st. by rewrite E1.
Qed.

Lemma surely_bind {E A B} (c : stateful (Database V1Tables) E A) (k : A → stateful _ E B) spec v :
  realises stands c spec → surely c v → surely (k (spec v).1) (spec v).2 → surely (c ≫= k) v.
Proof.
  intros Hc Hs Hk db Hr Hh. destruct (Hs db Hr Hh) as (a & db1 & E1 & Hr1).
  destruct (Hc _ _ _ _ Hh E1) as [-> Hh1]. destruct (Hk db1 Hr1 Hh1) as (b & db2 & E2 & Hr2).
  exists b, db2. unfold mbind, stateful_bind. by rewrite E1.
Qed.

Lemma surely_statement {A} (f : V1Tables → A * V1Tables) v : surely (statement f) v.
Proof. intros db Hr _. by apply statement_reliable. Qed.

Lemma surely_lift {E A B} (r : result E A) a (k : A → stateful _ E B) v :
  r = Ok a → surely (k a) v → surely (lift r ≫= k) v.
Proof. intros ->. done. Qed.

Lemma time_ok_datetime z : time_ok z → ∃ t, to_offset_datetime z = Ok t.
Proof. intros [t Ht]. exists t. by apply to_offset_datetime_Ok. Qed.

(** The calls of the store that the handlers make. *)
Lemma surely_insert_log r v : time_ok (cl_created_at r) → surely (insert_command_log r) v.
Proof.
  intros [t Ht]%time_ok_datetime. apply surely_map_err. eapply surely_lift; [done|]. apply surely_statement.
Qed.
Lemma surely_update_log id status code message v :
  surely (update_command_log_outcome id status code message) v.
Proof. apply surely_map_err, surely_statement. Qed.
Lemma surely_upsert_account r v :
  time_ok (as_created_at r) → time_ok (as_updated_at r) →
  (∀ z, as_deleted_at r = Some z → time_ok z) → surely (upsert_account_state r) v.
Proof.
  intros [tc Hc]%time_ok_datetime [tu Hu]%time_ok_datetime Hd. apply surely_map_err.
  eapply surely_lift; [done|]. eapply surely_lift; [done|].
  destruct (as_deleted_at r) as [z|].
  - destruct (time_ok_datetime z (Hd z eq_refl)) as [td Htd].
    eapply surely_lift; [by rewrite Htd|]. apply surely_statement.
  - eapply surely_lift; [done|]. apply surely_statement.
Qed.
Lemma surely_upsert_profile r v : time_ok (ps_updated_at r) → surely (upsert_profile_state r) v.
Proof.
  intros [t Ht]%time_ok_datetime. apply surely_map_err. eapply surely_lift; [done|]. apply surely_statement.
Qed.
Lemma surely_upsert_repo r v : time_ok (rp_updated_at r) → surely (upsert_repo_state r) v.
Proof.
  intros [t Ht]%time_ok_datetime. apply surely_map_err. eapply surely_lift; [done|]. apply surely_statement.
Qed.
Lemma surely_set_maintainer r v : time_ok (rm_updated_at r) → surely (set_repo_maintainer r) v.
Proof.
  intros [t Ht]%time_ok_datetime. apply surely_map_err. eapply surely_lift; [done|]. apply surely_statement.
Qed.

(** A read decodes the row it finds, since the tables stand for a view. *)
Lemma surely_read_row {K R V} `{Countable K} (tbl : V1Tables → gmap K R) (view : CommandView → gmap K V)
    (dec : K → R → result StorageError V) k v :
  (∀ t v, tables_rep t v → table_rep (λ k row, ok (dec k row)) (tbl t) (view v)) →
  surely (E:=DispatchError) (map_err_st DeStorage
    (row ← statement (λ t, (tbl t !! k, t));
     match row with None => mret None | Some row => lift (Some <$> dec k row) end)) v.
Proof.
  intros Ht. apply surely_map_err. intros db Hr Hh. unfold mbind, stateful_bind, statement.
  rewrite Hr. specialize (Ht _ _ Hh k). simpl. destruct (tbl (db_tables db) !! k) as [row|].
  - destruct Ht as (x & Hx%ok_Some & _). unfold lift. rewrite Hx. by eexists _, _.
  - by eexists _, _.
Qed.

Lemma surely_account_state p v : surely (account_state p) v.
Proof. apply (surely_read_row v1_account_table cv_accounts account_from_row). apply rep_accounts. Qed.
Lemma surely_profile_state p v : surely (profile_state p) v.
Proof. apply (surely_read_row v1_profile_table cv_profiles profile_from_row). apply rep_profiles. Qed.
Lemma surely_repo_state o n v : surely (repo_state o n) v.
Proof. apply (surely_read_row v1_repo_table cv_repos repo_from_row). apply rep_repos. Qed.
Lemma surely_list_active o n v : surely (list_active_repo_maintainers o n) v.
Proof. apply surely_map_err, surely_statement. Qed.

Lemma surely_is_maintainer me n v : surely (actor_is_maintainer me n) v.
Proof.
  eapply surely_bind; [apply list_active_spec|apply surely_list_active|apply surely_ret].
Qed.

(** The creation times that are stored can be stored again. *)
Definition times_stored (v : CommandView) : Prop :=
  ∀ k r, cv_accounts v !! k = Some r → time_ok (as_created_at r).

Lemma stands_times (db : Database V1Tables) v : stands db v → times_stored v.
Proof.
  intros Hs k r Hk. pose proof (rep_accounts _ _ Hs k) as Hr.
  destruct (v1_account_table (db_tables db) !! k) as [row|]; [|congruence].
  destruct Hr as (x & Hx & Hx'). rewrite Hk in Hx'. simplify_eq.
  apply account_from_row_Ok in Hx. unfold time_ok. rewrite Hx. apply from_unix_timestamp_total.
Qed.

Hint Resolve surely_ret surely_update_log surely_upsert_account surely_upsert_profile
  surely_upsert_repo surely_set_maintainer surely_account_state surely_profile_state
  surely_repo_state surely_is_maintainer : surely.

(** A write, then the answer. *)
Lemma surely_write_ret {E A} (c : stateful (Database V1Tables) E unit) w (a : A) v :
  realises stands c (λ v, (tt, apply_write v w)) → surely c v → surely (c ≫= λ _, mret a) v.
Proof. intros Hc Hs. eapply surely_bind; [done|done|apply surely_ret]. Qed.

Lemma surely_apply_account i v :
  times_stored v → time_ok (ci_created_at i) → surely (apply_account i) v.
Proof.
  intros Hv Hi. eapply surely_bind; [apply account_state_spec|auto with surely|]. cbn [fst snd].
  specialize (Hv (ci_actor_pubkey i)). destruct (cv_accounts v !! ci_actor_pubkey i) as [r|].
  - repeat case_match; auto with surely.
    eapply (surely_write_ret _ (WAccount _)); [apply upsert_account_state_spec|].
    apply surely_upsert_account; simpl; auto. by intros z [= <-].
  - repeat case_match; auto with surely;
      (eapply (surely_write_ret _ (WAccount _)); [apply upsert_account_state_spec|]);
      apply surely_upsert_account; simpl; auto; [done|]. by intros z [= <-].
Qed.

Lemma surely_apply_profile i v : time_ok (ci_created_at i) → surely (apply_profile i) v.
Proof.
  intros Hi. eapply surely_bind; [apply profile_state_spec|auto with surely|]. cbn [fst snd].
  repeat case_match; auto with surely;
    (eapply (surely_write_ret _ (WProfile _)); [apply upsert_profile_state_spec|]); auto with surely.
Qed.

Lemma surely_change_repo i name change out v :
  time_ok (ci_created_at i) → surely (change_repo i name change out) v.
Proof.
  intros Hi. eapply surely_bind; [apply repo_state_spec|auto with surely|]. cbn [fst snd].
  destruct (cv_repos v !! (ci_actor_pubkey i, name)) as [r|]; [|auto with surely].
  eapply surely_bind; [apply actor_is_maintainer_realises|auto with surely|]. cbn [fst snd].
  destruct (maintains _ _ _); cbn [negb]; [|auto with surely].
  eapply (surely_write_ret _ (WRepo _)); [apply upsert_repo_state_spec|auto with surely].
Qed.

Lemma surely_apply_command i v :
  times_stored v → time_ok (ci_created_at i) → surely (apply_command i) v.
Proof.
  intros Hv Hi. unfold apply_command. destruct (pc_namespace (ci_parsed i));
    [by apply surely_apply_account|by apply surely_apply_profile|].
  unfold apply_repo. destruct (pc_target (ci_parsed i)) as [name|]; [|apply surely_ret].
  repeat case_match; auto using surely_change_repo with surely.
  - eapply surely_bind; [apply repo_state_spec|auto with surely|]. cbn [fst snd].
    destruct (is_some _); [auto with surely|].
    eapply surely_bind; [apply upsert_repo_state_spec|auto with surely|].
    eapply (surely_write_ret _ (WMaintainer _)); [apply set_repo_maintainer_spec|auto with surely].
  - eapply surely_bind; [apply actor_is_maintainer_realises|auto with surely|]. cbn [fst snd].
    repeat case_match; auto with surely.
    eapply (surely_write_ret _ (WMaintainer _)); [apply set_repo_maintainer_spec|auto with surely].
Qed.

(** A command whose event is new is carried out in full. *)
Lemma execute_command_total i db v :
  reliable db → stands db v → time_ok (ci_created_at i) →
  ∃ out db' v', execute_command i db = (Ok out, db') ∧ reliable db' ∧ stands db' v' ∧
    if is_some (cv_log v !! ci_event_id i)
    then out = cmd_ok "duplicate" "already processed" ∧ v' = v
    else plan_command i (logged i v) = (out, (plan_command i (logged i v)).2) ∧
      v' = log_outcome (ci_event_id i) (co_status out) (co_code out) (co_message out)
             (apply_writes (plan_command i (logged i v)).2 (logged i v)).
Proof.
  intros Hr Hs Hi. unfold execute_command, mbind, stateful_bind.
  destruct (surely_insert_log (accepted_record i) v Hi db Hr Hs) as (b & db1 & E1 & Hr1).
  rewrite E1. destruct (insert_command_log_spec _ _ _ _ _ Hs E1) as [-> Hs1]. unfold log_insert in *.
  change (cl_event_id (accepted_record i)) with (ci_event_id i) in *.
  destruct (cv_log v !! ci_event_id i) as [old|]; cbn [fst snd negb is_some] in *.
  { by exists (cmd_ok "duplicate" "already processed"), db1, v. }
  destruct (surely_apply_command i _ (stands_times _ _ Hs1) Hi db1 Hr1 Hs1) as (out & db2 & E2 & Hr2).
  unfold catch_internal. rewrite E2. destruct (apply_command_planned i _ _ _ _ Hs1 E2) as [-> Hs2].
  fold (logged i v) in *. set (p := plan_command i (logged i v)) in *.
  destruct (surely_update_log (ci_event_id i) (co_status p.1) (co_code p.1) (co_message p.1)
    _ db2 Hr2 Hs2) as ([] & db3 & E3 & Hr3). rewrite E3.
  destruct (update_command_log_outcome_spec _ _ _ _ _ _ _ _ Hs2 E3) as [_ Hs3].
  exists p.1, db3. eexists. split; [done|]. split; [done|]. split; [exact Hs3|]. by destruct p.
Qed.
End Reliable.

(** While the database answers, a command is carried out in full: it
    answers "duplicate" and changes nothing if its event is in the log, and
    otherwise answers what its plan says, makes all planned writes and records
    the outcome in the log. *)
Lemma command_executes `{TimeLaws} `{Bech32Lib} i (db : Database V1Tables) v :
  reliable db → stands db v → time_ok (ci_created_at i) →
  ∃ out db' v', execute_command i db = (Ok out, db') ∧ stands db' v' ∧
    if is_some (cv_log v !! ci_event_id i)
    then out = cmd_ok "duplicate" "already processed" ∧ v' = v
    else let ws := (plan_command i (logged i v)).2 in
      out = (plan_command i (logged i v)).1 ∧
      v' = log_outcome (ci_event_id i) (co_status out) (co_code out) (co_message out)
             (apply_writes ws (logged i v)).
Proof.
  intros Hr Hs Ht. destruct (execute_command_total i db v Hr Hs Ht) as (out & db' & v' & E & _ & Hs' & Hcase).
  exists out, db', v'. split_and!; [done..|]. destruct (is_some _); [done|].
  destruct Hcase as [Hp Hv]. by rewrite Hp.
Qed.

(** ** Properties *)

(** C6: a command acts only on what is its actor's: whatever the command, the
    state and the failures of the store, the accounts and profiles of other
    keys, the repositories of other owners with their maintainers, and the
    repositories the actor owns without being an active maintainer stay as they
    are, and of the command log only the entry of its own event can change. *)
Theorem commands_isolated {S : Type} `{CommandStoreLaws S} `{Bech32Lib} i s v r s' :
  stands s v → view_keyed v → execute_command i s = (r, s') →
  ∃ v', stands s' v' ∧ view_keyed v' ∧ within (ci_actor_pubkey i) v v' ∧
    ∀ id, id ≠ ci_event_id i → cv_log v' !! id = cv_log v !! id.
Proof.
  intros Hs Hv Hx. destruct (execute_command_executed _ _ _ _ _ Hs Hx) as (v' & Hs' & He).
  destruct (executed_within _ _ _ _ Hv He). exists v'.
  split_and!; [done..|]. by apply (executed_log _ _ _ _ He).
Qed.

(** C10: a relay message changes the command state only if it is a command: a
    JSON event message of kind 1 (modulo 2^32) from an allowed relay, tagged
    with the administrator's key, whose content parses as a command and whose
    id and author are 32 bytes; any other message is answered without having
    been applied.  A command takes the step of [executed] that its answer
    names: "duplicate" changes nothing and is for an event in the log, the
    planned answer comes with the whole plan, after the event entered the log
    and with the outcome recorded there, and an internal error or a failure
    with a prefix of the plan.  While no statement fails, a command whose event
    is new and whose time can be stored gets the planned answer. *)
Theorem messages_refine_commands `{TimeLaws} `{Bech32Lib} `{HexLib} `{JsonLib}
    filter url text (db : Database V1Tables) v r db' :
  stands db v → process_event_message filter url text db = (r, db') →
  (command_of filter url text = None ∧ db' = db ∧ ∃ o, r = Ok o ∧ not_applied o = true) ∨
  ∃ i env r' v', command_of filter url text = Some i ∧
    parse_relay_event_message text url = Some env ∧ env_kind env = 1%Z ∧
    url ∈ df_relay_allowlist filter ∧ has_admin_tag env (df_admin_pubkey filter) = true ∧
    hex_decode (env_id env) = Some (ci_event_id i) ∧ hex_decode (env_pubkey env) = Some (ci_actor_pubkey i) ∧
    r = match r' with Ok out => Ok (Some (Applied out)) | Err e => Err e end ∧
    executed i v r' v' ∧ stands db' v' ∧
    (reliable db → time_ok (ci_created_at i) → cv_log v !! ci_event_id i = None →
       r' = Ok (plan_command i (logged i v)).1).
Proof.
  intros Hs Hp. pose proof (process_event_message_command filter url text db) as Hc.
  destruct (command_of filter url text) as [i|] eqn:Ei; [right|left].
  2: { destruct Hc as (o & Hc & Ho). rewrite Hp in Hc. simplify_eq. eauto. }
  destruct (execute_command i db) as [r' db1] eqn:Ex.
  destruct (execute_command_executed _ _ _ _ _ Hs Ex) as (v' & Hs1 & He).
  assert (r = match r' with Ok out => Ok (Some (Applied out)) | Err e => Err e end ∧ db' = db1) as [Hr ->]
    by (rewrite Hp in Hc; destruct r'; by simplify_eq).
  assert (reliable db → time_ok (ci_created_at i) → cv_log v !! ci_event_id i = None →
    r' = Ok (plan_command i (logged i v)).1) as Hplan.
  { intros Hrel Ht Hnew. destruct (command_executes i db v Hrel Hs Ht) as (out & db2 & v2 & E2 & _ & Hout).
    rewrite Hnew in Hout. destruct Hout as [-> _]. congruence. }
  unfold command_of in Ei.
  apply bind_Some in Ei as (env & Hparse & ([] & Hf%ok_Some & (parsed & Hcli & (id & Hid%ok_Some &
    (pk & Hpk%ok_Some & [= <-])%bind_Some)%bind_Some)%bind_Some)%bind_Some).
  apply bind_Ok_unit in Hf as [Hk%fail_if_Ok%negb_bool_decide_false [_ [Hurl%fail_if_Ok%negb_false_iff
    Htag%fail_if_Ok%negb_false_iff]%bind_Ok_unit]%bind_Ok_unit].
  apply existsb_true in Hurl as (relay & Hin & ->%String.eqb_eq).
  assert (env_relay_url env = url) as Hu.
  { unfold parse_relay_event_message in Hparse.
    repeat (apply bind_Some in Hparse as (? & _ & Hparse) || case_match); by simplify_eq. }
  rewrite Hu in Hin. unfold decode_fixed_hex in Hid, Hpk. split_all Hid. split_all Hpk.
  do 4 eexists. split_and!; eauto.
Qed.

(** Reconnecting is harmless.  A relay sends all its stored events anew on
    every subscription; when a connection has handled its texts without a
    failure of the store, any later connection that delivers only texts among
    those (again, in any order, any number of times, and whatever then fails)
    leaves the command state as it is. *)
Lemma reconnect_idempotent {S : Type} `{CommandStoreLaws S} `{Bech32Lib} `{HexLib} `{JsonLib} filter url
    items1 sends1 items2 sends2 s v logs1 sent1 s1 logs2 sent2 s2 :
  stands s v →
  process_relay_connection filter url items1 sends1 s = (logs1, sent1, s1) →
  (∀ e, LogProcessingFailed e ∉ logs1) →
  connection_texts items2 sends2 ⊆ connection_texts items1 sends1 →
  process_relay_connection filter url items2 sends2 s1 = (logs2, sent2, s2) →
  ∃ v1, stands s1 v1 ∧ stands s2 v1.
Proof.
  intros Hs (l1 & l2 & Hc1 & ->)%connection_handles Hnf Hsub (l3 & l4 & Hc2 & ->)%connection_handles.
  destruct (handle_texts_logged _ _ _ _ _ _ _ Hs Hc1) as (v1 & Hs1 & Hall & _); [set_solver|].
  exists v1. split; [done|]. eapply handle_texts_replay; [done| |done].
  intros text i Hin. apply Hall. by apply Hsub.
Qed.






Fixpoint execute_all {S : Type} `{CommandStore S} `{Bech32Lib} (inputs : list CommandExecutionInput) (s : S) : S :=
  match inputs with
  | [] => s
  | i :: inputs => execute_all inputs (execute_command i s).2
  end.

(** A repository whose owner is not among its active maintainers stays as it
    is for ever: no sequence of commands of anybody, the owner's and the other
    maintainers' included, changes its state or makes the owner a maintainer.
    An interrupted creation leaves such a repository behind. *)
Lemma orphaned_repository_stuck {S : Type} `{CommandStoreLaws S} `{Bech32Lib} inputs s v owner name :
  stands s v → view_keyed v → is_Some (cv_repos v !! (owner, name)) →
  owner ∉ active_maintainers owner name v →
  ∃ v', stands (execute_all inputs s) v' ∧ cv_repos v' !! (owner, name) = cv_repos v !! (owner, name) ∧
    owner ∉ active_maintainers owner name v'.
Proof.
  revert s v. induction inputs as [|i inputs IH]; intros s v Hs Hv Hrepo Hm; simpl; [eauto|].
  destruct (execute_command i s) as [r s1] eqn:E.
  destruct (execute_command_executed _ _ _ _ _ Hs E) as (v1 & Hs1 & He).
  destruct (executed_within _ _ _ _ Hv He) as [[_ _ Hwr Hwm] Hv1].
  assert (closed_to (ci_actor_pubkey i) v owner name) as Hc.
  { destruct (decide (owner = ci_actor_pubkey i)) as [->|]; [by right|by left]. }
  specialize (Hwr _ _ Hc). assert (owner ∉ active_maintainers owner name v1) as Hm1.
  { unfold active_maintainers in *. rewrite elem_of_active_rows in Hm |- *. by rewrite Hwm. }
  simpl. rewrite <-Hwr in Hrepo |- *. by apply IH.
Qed.

(** ** Samples *)

Definition sample_actor : bytes := "0123456789abcdef0123456789abcdef".
Definition sample_input (n : ascii) (action : string) : CommandExecutionInput :=
  mkCommandExecutionInput (String n "123456789abcdef0123456789abcdef") sample_actor
    (mkParsedCommand NsRepo action (Some "demo") []) 1700000000.
Definition sample_npub_lib : Bech32Lib := {|
  bech32_decode s := (λ r, ("npub", r)) <$> strip_prefix "npub1" s
|}.
Definition sample_db (outcomes : list StatementOutcome) : Database (@V1Tables time_model) :=
  mkDatabase (@empty_tables time_model) outcomes.

Lemma sample_db_stands outcomes :
  stands (CommandStoreLaws:=@PostgresRepositories_laws time_model time_model_laws) (sample_db outcomes)
    empty_view.
Proof. apply empty_tables_rep. Qed.

Lemma empty_view_keyed : view_keyed empty_view.
Proof. split; intros k r; simpl; by rewrite lookup_empty. Qed.

(** The connection breaks between the two writes of a creation. *)
Definition interrupted : list StatementOutcome :=
  [Executed; Executed; Executed; Failed "connection closed" false; Executed].

Example interrupted_creation :
  let _ := time_model in let _ := sample_npub_lib in
  let '(out, db) := execute_command (sample_input "1" "create") (sample_db interrupted) in
  out = Ok (cmd_err "internal" "dispatch storage error: database error: connection closed") ∧
  (execute_command (sample_input "2" "create") db).1 = Ok (cmd_ok "repo_exists" "repo already exists") ∧
  (execute_command (sample_input "2" "update") db).1
    = Ok (cmd_err "unauthorized" "actor is not a maintainer").
Proof. vm_compute. done. Qed.

Lemma commands_isolated_witness :
  let _ := time_model in let _ := sample_npub_lib in
  ∃ out db v', execute_command (sample_input "1" "create") (sample_db []) = (Ok out, db) ∧
    co_code out = "repo_created" ∧ stands db v' ∧ within sample_actor empty_view v'.
Proof.
  intros T B. destruct (execute_command (sample_input "1" "create") (sample_db [])) as [r db] eqn:E.
  destruct (@commands_isolated _ _ (@PostgresRepositories_laws T time_model_laws) B
    (sample_input "1" "create") (sample_db []) empty_view r db
    (sample_db_stands []) empty_view_keyed E) as (v' & Hs & _ & Hw & _).
  destruct r as [out|e]; [|apply (f_equal fst) in E; vm_compute in E; done].
  exists out, db, v'. split_and!; [done| |done|done].
  apply (f_equal fst) in E. vm_compute in E. injection E as <-. done.
Defined.

Definition sample_repo_record : RepoStateV1Record :=
  mkRepoStateV1Record sample_actor "demo" None None RvPrivate "main" false 1700000000.

Lemma orphaned_repository_stuck_witness :
  let _ := time_model in let _ := sample_npub_lib in
  let db := (upsert_repo_state sample_repo_record (sample_db [])).2 in
  ∃ v', stands (execute_all [sample_input "1" "update"; sample_input "2" "maintainers"] db) v' ∧
    is_Some (cv_repos v' !! (sample_actor, "demo")) ∧
    sample_actor ∉ active_maintainers sample_actor "demo" v'.
Proof.
  intros T B db.
  destruct (@orphaned_repository_stuck _ _ (@PostgresRepositories_laws T time_model_laws) B
    [sample_input "1" "update"; sample_input "2" "maintainers"] db (put_repo sample_repo_record empty_view)
    sample_actor "demo") as (v' & Hs & Hr & Hm).
  - unfold db. destruct (upsert_repo_state sample_repo_record (sample_db [])) as [r db'] eqn:E.
    pose proof (@upsert_repo_state_spec _ _ (@PostgresRepositories_laws T time_model_laws)
      sample_repo_record _ _ _ _ (sample_db_stands []) E) as Hst.
    destruct r; [by destruct Hst|]. apply (f_equal fst) in E. vm_compute in E. done.
  - apply (apply_write_keyed _ (WRepo sample_repo_record)), empty_view_keyed.
  - simpl. rewrite lookup_insert_eq. by eexists.
  - unfold active_maintainers. rewrite elem_of_active_rows. simpl. intros (row & Hrow & _).
    by rewrite lookup_empty in Hrow.
  - exists v'. split_and!; [done| |done]. rewrite Hr. simpl. rewrite lookup_insert_eq. by eexists.
Defined.

(** A relay message that carries ["gittree repo create demo"]. *)
Definition sample_hex : string := "3031323334353637383961626364656630313233343536373839616263646566".
Definition sample_message : json :=
  JArray [JString "EVENT"; JString "gittree-dispatch";
    JObject [("content", JString "gittree repo create demo"); ("created_at", JPosInt 1700000000);
             ("id", JString sample_hex); ("kind", JPosInt 1); ("pubkey", JString sample_hex);
             ("tags", JArray [JArray [JString "p"; JString "admin"]])]].
Definition sample_message_lib : JsonLib := {|
  json_from_str s := if s == "create" then Some sample_message else None;
  json_to_string _ := ""
|}.
Definition sample_filter : DispatchFilterConfig := mkDispatchFilterConfig "admin" ["wss://relay"].
Definition sample_items : list (result string WsMessage) :=
  [Ok (WsText "noise"); Ok (WsPing "x"); Ok (WsText "create"); Ok WsClose; Ok (WsText "late")].

Definition sample_command : CommandExecutionInput :=
  mkCommandExecutionInput sample_actor sample_actor
    (mkParsedCommand NsRepo "create" (Some "demo") []) 1700000000.

Lemma sample_command_of :
  let _ := hex_model in let _ := sample_message_lib in
  command_of sample_filter "wss://relay" "create" = Some sample_command.
Proof. vm_compute. done. Qed.

Lemma sample_time_ok : @time_ok time_model 1700000000.
Proof. by eexists. Qed.

Lemma messages_refine_commands_witness :
  let _ := time_model in let _ := sample_npub_lib in let _ := hex_model in let _ := sample_message_lib in
  ∃ db v', process_event_message sample_filter "wss://relay" "create" (sample_db []) =
      (Ok (Some (Applied (cmd_ok "repo_created" "repo created"))), db) ∧
    stands db v' ∧ executed sample_command empty_view (Ok (cmd_ok "repo_created" "repo created")) v'.
Proof.
  intros T B X J.
  assert (command_of sample_filter "wss://relay" "create" = Some sample_command) as Hcmd
    by exact sample_command_of.
  destruct (process_event_message sample_filter "wss://relay" "create" (sample_db [])) as [r db] eqn:E.
  destruct (@messages_refine_commands T time_model_laws B X J
    sample_filter "wss://relay" "create" (sample_db []) empty_view r db (sample_db_stands []) E)
    as [(Hn & _)|(i & env & r' & v' & Hi & _ & _ & _ & _ & _ & _ & Hr & He & Hs & Hplan)].
  - rewrite Hcmd in Hn. done.
  - rewrite Hcmd in Hi. injection Hi as <-. specialize (Hplan eq_refl sample_time_ok eq_refl).
    assert (r' = Ok (cmd_ok "repo_created" "repo created")) as Hr' by (rewrite Hplan; vm_compute; reflexivity).
    exists db, v'. rewrite Hr, Hr'. rewrite Hr' in He. split; [reflexivity|]. split; [exact Hs|exact He].
Defined.

Lemma reconnect_idempotent_witness :
  let _ := time_model in let _ := sample_npub_lib in let _ := hex_model in let _ := sample_message_lib in
  let once := (process_relay_connection sample_filter "wss://relay" sample_items [] (sample_db [])).2 in
  let twice := (process_relay_connection sample_filter "wss://relay" sample_items [] once).2 in
  ∃ v1, stands once v1 ∧ stands twice v1.
Proof.
  intros T B X J once twice. unfold twice, once.
  destruct (process_relay_connection sample_filter "wss://relay" sample_items [] (sample_db []))
    as [[logs1 sent1] s1] eqn:E1. cbn [fst snd].
  destruct (process_relay_connection sample_filter "wss://relay" sample_items [] s1)
    as [[logs2 sent2] s2] eqn:E2. cbn [fst snd].
  apply (@reconnect_idempotent _ _ (@PostgresRepositories_laws T time_model_laws) B X J
    sample_filter "wss://relay" sample_items [] sample_items [] (sample_db []) empty_view
    logs1 sent1 s1 logs2 sent2 s2 (sample_db_stands []) E1); [|apply reflexivity|exact E2].
  apply (f_equal (λ x, x.1.1)) in E1. vm_compute in E1. subst logs1.
  intros e. by rewrite list_elem_of_singleton.
Defined.

Lemma command_executes_witness :
  let _ := time_model in let _ := sample_npub_lib in
  ∃ db' v', execute_command sample_command (sample_db []) = (Ok (cmd_ok "repo_created" "repo created"), db') ∧
    stands db' v' ∧ is_Some (cv_repos v' !! (sample_actor, "demo")).
Proof.
  intros T B. destruct (@command_executes T time_model_laws B sample_command (sample_db []) empty_view
    eq_refl (sample_db_stands []) sample_time_ok) as (out & db' & v' & E & Hs & Hc).
  simpl in Hc. rewrite lookup_empty in Hc. destruct Hc as [-> ->].
  exists db'. eexists. split_and!; [exact E|exact Hs|]. vm_compute. by eexists.
Defined.

