(* ===== verification/Config.v ===== *)
(** * [Config]: the configuration of the services

    Models [crates/config/src/lib.rs]: the configurations of the services, of
    relays, of the forge, of the user interface and of authentication, from
    environment variables and from TOML, and their validation.  TOML is read by
    a parser outside the repository into the [Toml*] records, of which every
    field is optional; socket addresses are read as [core::net] reads them. *)

From S2P Require Import Prelude RustStr CoreTypes Externals Nip34Common RelayEvent Dispatch.

(** ** Socket addresses *)

Inductive SocketAddr :=
| SocketAddrV4 (octets : list N) (port : N)
| SocketAddrV6 (groups : list N) (scope_id port : N).

(** A reader consumes a prefix of the text, or nothing. *)
Definition reader (A : Type) : Type := string → option (A * string).

Definition read_given_char (c : ascii) : reader unit := λ s,
  match s with String a s => if Ascii.eqb a c then Some (tt, s) else None | "" => None end.

Definition to_digit (radix : N) (a : ascii) : option N :=
  let n := N_of_ascii a in
  let d := if in_span 48 57 a then Some (n - 48)%N
           else if in_span 97 122 a then Some (n - 87)%N
           else if in_span 65 90 a then Some (n - 55)%N else None in
  d ← d; if (d <? radix)%N then Some d else None.

(** The digits at the front, with their value and count. *)
Fixpoint read_digits (radix acc : N) (count : nat) (s : string) : N * nat * string :=
  match s with
  | String a s' =>
      match to_digit radix a with
      | Some d => read_digits radix (acc * radix + d)%N (S count) s'
      | None => (acc, count, s)
      end
  | "" => (acc, count, s)
  end.

Definition read_number (radix : N) (max_digits : option nat) (allow_zero_prefix : bool) (max : N)
    : reader N := λ s,
  let has_leading_zero := match s with String a _ => Ascii.eqb a "0" | "" => false end in
  let '(value, digit_count, rest) := read_digits radix 0 0 s in
  if match max_digits with Some n => n <? digit_count | None => false end then None
  else if digit_count =? 0 then None
  else if negb allow_zero_prefix && has_leading_zero && (1 <? digit_count) then None
  else if (value <=? max)%N then Some (value, rest) else None.

Definition read_ipv4_addr : reader (list N) := λ s,
  let octet := read_number 10 (Some 3) false 255 in
  '(a, s) ← octet s; '(_, s) ← read_given_char "." s;
  '(b, s) ← octet s; '(_, s) ← read_given_char "." s;
  '(c, s) ← octet s; '(_, s) ← read_given_char "." s;
  '(d, s) ← octet s; Some ([a; b; c; d], s).

Definition read_separator {A} (sep : ascii) (first : bool) (inner : reader A) : reader A := λ s,
  if first then inner s else '(_, s) ← read_given_char sep s; inner s.

(** Up to [limit] groups, the last two perhaps written as an IPv4 address. *)
Fixpoint read_groups (limit : nat) (first : bool) (s : string) : list N * bool * string :=
  match limit with
  | 0 => ([], false, s)
  | S limit' =>
      match (if 0 <? limit' then read_separator ":" first read_ipv4_addr s else None) with
      | Some ([a; b; c; d], s) => ([(a * 256 + b)%N; (c * 256 + d)%N], true, s)
      | _ =>
          match read_separator ":" first (read_number 16 (Some 4) true 65535) s with
          | Some (group, s) =>
              let '(groups, ipv4, s) := read_groups limit' false s in (group :: groups, ipv4, s)
          | None => ([], false, s)
          end
      end
  end.

Definition read_ipv6_addr : reader (list N) := λ s,
  let '(head, head_ipv4, s) := read_groups 8 true s in
  if length head =? 8 then Some (head, s)
  else if head_ipv4 then None
  else
    '(_, s) ← read_given_char ":" s; '(_, s) ← read_given_char ":" s;
    let limit := 8 - (length head + 1) in
    let '(back, _, s) := read_groups limit true s in
    Some (head ++ replicate (8 - length head - length back) 0%N ++ back, s).

Definition read_port : reader N := λ s,
  '(_, s) ← read_given_char ":" s; read_number 10 None true 65535 s.

Definition read_socket_addr_v4 : reader SocketAddr := λ s,
  '(ip, s) ← read_ipv4_addr s; '(port, s) ← read_port s; Some (SocketAddrV4 ip port, s).

Definition read_scope_id : reader N := λ s,
  '(_, s) ← read_given_char "%" s; read_number 10 None true 4294967295 s.

Definition read_socket_addr_v6 : reader SocketAddr := λ s,
  '(_, s) ← read_given_char "[" s;
  '(ip, s) ← read_ipv6_addr s;
  let '(scope_id, s) := match read_scope_id s with Some r => r | None => (0%N, s) end in
  '(_, s) ← read_given_char "]" s;
  '(port, s) ← read_port s;
  Some (SocketAddrV6 ip scope_id port, s).

Definition parse_socket_addr (value : string) : option SocketAddr :=
  match (match read_socket_addr_v4 value with Some r => Some r | None => read_socket_addr_v6 value end) with
  | Some (addr, "") => Some addr
  | _ => None
  end.

Definition socket_port (a : SocketAddr) : N :=
  match a with SocketAddrV4 _ port => port | SocketAddrV6 _ _ port => port end.

(** ** Errors *)

Inductive ConfigError :=
| InvalidRelayBind (value : string)
| InvalidRelayUrl (value : string)
| InvalidRelayCompatibilityMode (value : string)
| InvalidRelayProbeConfig (field value : string)
| InvalidRelayPolicyConfig (field value : string)
| InvalidServiceBind (service value : string)
| MissingEnv (key : string)
| InvalidConfig (field value : string)
| ReadConfig (path source : string)
| TomlParse (path : option string) (source : string).

Definition ConfigError_display (e : ConfigError) : string :=
  match e with
  | InvalidRelayBind value => "invalid relay bind address: " +:+ value
  | InvalidRelayUrl value => "invalid relay url: " +:+ value
  | InvalidRelayCompatibilityMode value => "invalid relay compatibility mode: " +:+ value
  | InvalidRelayProbeConfig field value => "invalid relay probe config " +:+ field +:+ ": " +:+ value
  | InvalidRelayPolicyConfig field value => "invalid relay policy config " +:+ field +:+ ": " +:+ value
  | InvalidServiceBind service value => "invalid " +:+ service +:+ " bind address: " +:+ value
  | MissingEnv key => "missing env " +:+ key
  | InvalidConfig field value => "invalid config " +:+ field +:+ ": " +:+ value
  | ReadConfig path source => "failed to read config file " +:+ path +:+ ": " +:+ source
  | TomlParse (Some path) source => "failed to parse config file " +:+ path +:+ ": " +:+ source
  | TomlParse None source => "failed to parse config: " +:+ source
  end.

Definition with_path (path : string) (e : ConfigError) : ConfigError :=
  match e with TomlParse None source => TomlParse (Some path) source | other => other end.

(** ** Reading variables *)

Definition env_or_default_with (key default_value : string) (get_var : environment) : string :=
  default default_value (get_var key).

Definition env_required_string_with (key : string) (get_var : environment) : result ConfigError string :=
  value ← ok_or (MissingEnv key) (get_var key);
  if is_blank value then Err (MissingEnv key) else Ok value.

Definition parse_bool (value : string) : option bool :=
  let value := to_ascii_lowercase (trim value) in
  if (value == "true") || (value == "1") || (value == "yes") then Some true
  else if (value == "false") || (value == "0") || (value == "no") then Some false
  else None.

Definition env_bool_default_with (key : string) (default_value : bool) (get_var : environment)
    : result ConfigError bool :=
  match get_var key with
  | Some value =>
      if is_blank value then Ok default_value
      else ok_or (InvalidConfig key value) (parse_bool value)
  | None => Ok default_value
  end.

Definition env_optional_string_with (key : string) (get_var : environment) : option string :=
  match get_var key with
  | Some value => if is_blank value then None else Some value
  | None => None
  end.

(** A variable that is absent or blank, or must parse. *)
Definition env_parsed {A} (parse : string → option A) (err : string → ConfigError) (key : string)
    (get_var : environment) : result ConfigError (option A) :=
  match get_var key with
  | Some value => if is_blank value then Ok None else ok_or (err value) (Some <$> parse value)
  | None => Ok None
  end.
Definition env_bool (key : string) : environment → result ConfigError (option bool) :=
  env_parsed parse_bool (InvalidRelayProbeConfig key) key.
Definition config_env_u64 (key : string) : environment → result ConfigError (option Z) :=
  env_parsed parse_u64 (InvalidRelayProbeConfig key) key.
Definition env_bool_policy (key field : string) : environment → result ConfigError (option bool) :=
  env_parsed parse_bool (InvalidRelayPolicyConfig field) key.
Definition env_u64_policy (key field : string) : environment → result ConfigError (option Z) :=
  env_parsed parse_u64 (InvalidRelayPolicyConfig field) key.

Definition is_hex_len (value : string) (len : nat) : bool :=
  bool_decide (String.length value = len) && all_hexdigit value.

Definition validate_service_bind (service value : string) : result ConfigError unit :=
  fail_if (is_none (parse_socket_addr value)) (InvalidServiceBind service value).

Definition parse_relay_urls (raw : string) : list string :=
  List.filter (λ entry, negb (is_empty entry)) (trim <$> split "," raw).
Definition parse_csv_values (raw : string) : list string :=
  List.filter (λ entry, negb (is_empty entry)) (trim <$> split "," raw).

Definition require_toml_field {T} (value : option T) (field : string) : result ConfigError T :=
  ok_or (InvalidConfig field "missing") value.

Definition validate_policy_limit (field : string) (value : Z) : result ConfigError unit :=
  fail_if (bool_decide (value = 0)%Z) (InvalidRelayPolicyConfig field (pretty value)).

(** ** The relay's bind address *)

Definition DEFAULT_RELAY_BIND : string := "0.0.0.0:8080".

Record GittreeConfig := mkGittreeConfig { gc_relay_bind : string }.
Definition GittreeConfig_default : GittreeConfig := mkGittreeConfig DEFAULT_RELAY_BIND.
Definition GittreeConfig_from_env_with_keys (get_var : environment) (relay_bind_key : string) : GittreeConfig :=
  mkGittreeConfig (default DEFAULT_RELAY_BIND (get_var relay_bind_key)).
Definition GittreeConfig_from_env (get_var : environment) : GittreeConfig :=
  mkGittreeConfig (default DEFAULT_RELAY_BIND (get_var "GITTREE_RELAY_BIND")).
Definition GittreeConfig_validate (c : GittreeConfig) : result ConfigError unit :=
  fail_if (is_none (parse_socket_addr (gc_relay_bind c))) (InvalidRelayBind (gc_relay_bind c)).
Definition relay_bind_addr (c : GittreeConfig) : result ConfigError SocketAddr :=
  ok_or (InvalidRelayBind (gc_relay_bind c)) (parse_socket_addr (gc_relay_bind c)).
Definition relay_bind_port (c : GittreeConfig) : result ConfigError N := socket_port <$> relay_bind_addr c.
Definition GittreeConfig_from_env_validated (get_var : environment) : result ConfigError GittreeConfig :=
  let config := GittreeConfig_from_env get_var in
  _ ← GittreeConfig_validate config; Ok config.
Definition TomlConfig_into_config (relay_bind : option string) : GittreeConfig :=
  mkGittreeConfig (default DEFAULT_RELAY_BIND relay_bind).

(** ** The bind addresses of the services *)

Record ServicesConfig := mkServicesConfig {
  sv_relay : string; sv_admission : string; sv_state : string; sv_coordinator : string;
  sv_sync : string; sv_git_http : string; sv_ui : string; sv_webhook : string; sv_control : string;
  sv_auth : string
}.

(** The fields of both configurations with their default. *)
Definition DEFAULT_ADMISSION_BIND : string := "127.0.0.1:8081".
Definition DEFAULT_STATE_BIND : string := "127.0.0.1:8082".
Definition DEFAULT_COORDINATOR_BIND : string := "127.0.0.1:8083".
Definition DEFAULT_SYNC_BIND : string := "127.0.0.1:8084".
Definition DEFAULT_GIT_HTTP_BIND : string := "127.0.0.1:8085".
Definition DEFAULT_UI_BIND : string := "127.0.0.1:8086".
Definition DEFAULT_WEBHOOK_BIND : string := "127.0.0.1:8087".
Definition DEFAULT_CONTROL_BIND : string := "127.0.0.1:8088".
Definition DEFAULT_AUTH_BIND : string := "127.0.0.1:8089".

Definition ServicesConfig_default : ServicesConfig :=
  mkServicesConfig DEFAULT_RELAY_BIND DEFAULT_ADMISSION_BIND DEFAULT_STATE_BIND DEFAULT_COORDINATOR_BIND
    DEFAULT_SYNC_BIND DEFAULT_GIT_HTTP_BIND DEFAULT_UI_BIND DEFAULT_WEBHOOK_BIND DEFAULT_CONTROL_BIND
    DEFAULT_AUTH_BIND.

Definition ServicesConfig_from_env_with (get_var : environment) : ServicesConfig :=
  mkServicesConfig
    (env_or_default_with "GITTREE_RELAY_BIND" DEFAULT_RELAY_BIND get_var)
    (env_or_default_with "GITTREE_ADMISSION_BIND" DEFAULT_ADMISSION_BIND get_var)
    (env_or_default_with "GITTREE_STATE_BIND" DEFAULT_STATE_BIND get_var)
    (env_or_default_with "GITTREE_COORDINATOR_BIND" DEFAULT_COORDINATOR_BIND get_var)
    (env_or_default_with "GITTREE_SYNC_BIND" DEFAULT_SYNC_BIND get_var)
    (env_or_default_with "GITTREE_GIT_HTTP_BIND" DEFAULT_GIT_HTTP_BIND get_var)
    (env_or_default_with "GITTREE_UI_BIND" DEFAULT_UI_BIND get_var)
    (env_or_default_with "GITTREE_WEBHOOK_BIND" DEFAULT_WEBHOOK_BIND get_var)
    (env_or_default_with "GITTREE_CONTROL_BIND" DEFAULT_CONTROL_BIND get_var)
    (env_or_default_with "GITTREE_AUTH_BIND" DEFAULT_AUTH_BIND get_var).

Definition ServicesConfig_validate (c : ServicesConfig) : result ConfigError unit :=
  _ ← validate_service_bind "relay" (sv_relay c);
  _ ← validate_service_bind "admission" (sv_admission c);
  _ ← validate_service_bind "state" (sv_state c);
  _ ← validate_service_bind "coordinator" (sv_coordinator c);
  _ ← validate_service_bind "sync" (sv_sync c);
  _ ← validate_service_bind "git_http" (sv_git_http c);
  _ ← validate_service_bind "ui" (sv_ui c);
  _ ← validate_service_bind "webhook" (sv_webhook c);
  _ ← validate_service_bind "control" (sv_control c);
  validate_service_bind "auth" (sv_auth c).

Definition ServicesConfig_from_env_validated_with (get_var : environment) : result ConfigError ServicesConfig :=
  let config := ServicesConfig_from_env_with get_var in
  _ ← ServicesConfig_validate config; Ok config.

(** [Option<TomlServiceConfig>], whose [bind] is optional *)
Abbreviation TomlServiceConfig := (option string) (only parsing).
Record TomlServicesConfig := mkTomlServicesConfig {
  ts_relay : option TomlServiceConfig; ts_admission : option TomlServiceConfig;
  ts_state : option TomlServiceConfig; ts_coordinator : option TomlServiceConfig;
  ts_sync : option TomlServiceConfig; ts_git_http : option TomlServiceConfig;
  ts_ui : option TomlServiceConfig; ts_webhook : option TomlServiceConfig;
  ts_control : option TomlServiceConfig; ts_auth : option TomlServiceConfig
}.
Definition TomlServicesConfig_default : TomlServicesConfig :=
  mkTomlServicesConfig None None None None None None None None None None.
Definition bind_or_default (config : option TomlServiceConfig) (default_value : string) : string :=
  default default_value (mjoin config).
Definition into_services (services : option TomlServicesConfig) : ServicesConfig :=
  let services := default TomlServicesConfig_default services in
  mkServicesConfig
    (bind_or_default (ts_relay services) DEFAULT_RELAY_BIND)
    (bind_or_default (ts_admission services) DEFAULT_ADMISSION_BIND)
    (bind_or_default (ts_state services) DEFAULT_STATE_BIND)
    (bind_or_default (ts_coordinator services) DEFAULT_COORDINATOR_BIND)
    (bind_or_default (ts_sync services) DEFAULT_SYNC_BIND)
    (bind_or_default (ts_git_http services) DEFAULT_GIT_HTTP_BIND)
    (bind_or_default (ts_ui services) DEFAULT_UI_BIND)
    (bind_or_default (ts_webhook services) DEFAULT_WEBHOOK_BIND)
    (bind_or_default (ts_control services) DEFAULT_CONTROL_BIND)
    (bind_or_default (ts_auth services) DEFAULT_AUTH_BIND).

(** ** Relays, the forge, the user interface, authentication *)

Record RelayTargetsConfig := mkRelayTargetsConfig { rt_relay_urls : list string }.

Record ForgejoConfig := mkForgejoConfig {
  fj_base_url : string; fj_api_token : string; fj_owner : string; fj_webhook_url : string;
  fj_webhook_secret : string; fj_repo_private : bool
}.
Record TomlForgejoConfig := mkTomlForgejoConfig {
  tf_base_url : option string; tf_api_token : option string; tf_owner : option string;
  tf_webhook_url : option string; tf_webhook_secret : option string; tf_repo_private : option bool
}.

Record UiConfig := mkUiConfig {
  ui_repo_root : string; ui_public_git_url : string; ui_auth_url : string; ui_app_url : string;
  ui_state_url : string; ui_control_url : string
}.
Record TomlUiConfig := mkTomlUiConfig {
  tu_repo_root : option string; tu_public_git_url : option string; tu_auth_url : option string;
  tu_app_url : option string; tu_state_url : option string; tu_control_url : option string
}.
Definition DEFAULT_UI_AUTH_URL : string := "http://localhost:8089".
Definition DEFAULT_UI_APP_URL : string := "http://localhost:8090".
Definition DEFAULT_UI_STATE_URL : string := "http://localhost:8082".
Definition DEFAULT_UI_CONTROL_URL : string := "http://localhost:8088".

Record ControlAuthConfig := mkControlAuthConfig { ca_token : string; ca_admin_keys : list string }.

Definition ControlAuthConfig_from_env (get_var : environment) : result ConfigError ControlAuthConfig :=
  token ← env_required_string_with "GITTREE_CONTROL_TOKEN" get_var;
  let admin_keys := match env_optional_string_with "GITTREE_CONTROL_ADMIN_KEYS" get_var with
                    | Some raw => parse_csv_values raw
                    | None => []
                    end in
  Ok (mkControlAuthConfig token admin_keys).
Definition ControlAuthConfig_validate (c : ControlAuthConfig) : result ConfigError unit :=
  _ ← fail_if (is_blank (ca_token c)) (InvalidConfig "control.token" (ca_token c));
  fail_if (existsb is_blank (ca_admin_keys c)) (InvalidConfig "control.admin_keys" "empty key").

Record AuthConfig := mkAuthConfig { au_email_domain : string; au_max_skew_seconds : Z }.
Definition AuthConfig_validate (c : AuthConfig) : result ConfigError unit :=
  _ ← fail_if (is_blank (au_email_domain c)) (InvalidConfig "auth.email_domain" (au_email_domain c));
  fail_if (bool_decide (au_max_skew_seconds c = 0)%Z)
    (InvalidConfig "auth.max_skew_seconds" (pretty (au_max_skew_seconds c))).
Definition AuthConfig_from_env_with (get_var : environment) : result ConfigError AuthConfig :=
  let email_domain := default "local.test" (env_optional_string_with "GITTREE_AUTH_EMAIL_DOMAIN" get_var) in
  max_skew_seconds ← match env_optional_string_with "GITTREE_AUTH_MAX_SKEW_SECONDS" get_var with
                     | Some value => ok_or (InvalidConfig "auth.max_skew_seconds" value) (parse_u64 value)
                     | None => Ok 60%Z
                     end;
  let config := mkAuthConfig email_domain max_skew_seconds in
  _ ← AuthConfig_validate config; Ok config.

Inductive RelayCompatibilityMode := CompatStrict | CompatWarn | CompatAllow.
Definition RelayCompatibilityMode_parse (value : string) : option RelayCompatibilityMode :=
  let value := to_ascii_lowercase (trim value) in
  if value == "strict" then Some CompatStrict
  else if (value == "warn") || (value == "warning") then Some CompatWarn
  else if value == "allow" then Some CompatAllow
  else None.
Definition RelayCompatibilityMode_as_str (m : RelayCompatibilityMode) : string :=
  match m with CompatStrict => "strict" | CompatWarn => "warn" | CompatAllow => "allow" end.

Definition DEFAULT_RELAY_COMPAT_MODE : RelayCompatibilityMode := CompatStrict.
Definition RelayCompatibilityConfig_from_env (get_var : environment)
    : result ConfigError RelayCompatibilityMode :=
  let mode := env_or_default_with "GITTREE_RELAY_COMPAT_MODE"
                (RelayCompatibilityMode_as_str DEFAULT_RELAY_COMPAT_MODE) get_var in
  ok_or (InvalidRelayCompatibilityMode mode) (RelayCompatibilityMode_parse mode).
(** [relay_compatibility], whose [mode] is optional *)
Definition TomlRelayCompatibility_into_config (relay_compatibility : option (option string))
    : result ConfigError RelayCompatibilityMode :=
  let mode := default (RelayCompatibilityMode_as_str DEFAULT_RELAY_COMPAT_MODE) (mjoin relay_compatibility) in
  ok_or (InvalidRelayCompatibilityMode mode) (RelayCompatibilityMode_parse mode).

Record RelayProbeConfig := mkRelayProbeConfig {
  rpc_active : bool; rpc_timeout_secs : Z; rpc_secret_key : option string
}.
Record TomlRelayProbeConfig := mkTomlRelayProbeConfig {
  tp_active : option bool; tp_timeout_secs : option Z; tp_secret_key : option string
}.
Definition DEFAULT_RELAY_PROBE_TIMEOUT_SECS : Z := 5.
Definition RelayProbeConfig_default : RelayProbeConfig :=
  mkRelayProbeConfig false DEFAULT_RELAY_PROBE_TIMEOUT_SECS None.
Definition RelayProbeConfig_validate (c : RelayProbeConfig) : result ConfigError unit :=
  _ ← fail_if (bool_decide (rpc_timeout_secs c = 0)%Z) (InvalidRelayProbeConfig "relay_probe.timeout_secs" "0");
  check_opt (λ secret, negb (is_hex_len secret 64)) (InvalidRelayProbeConfig "relay_probe.secret_key")
    (rpc_secret_key c).
Definition RelayProbeConfig_from_env (get_var : environment) : result ConfigError RelayProbeConfig :=
  active ← env_bool "GITTREE_RELAY_PROBE_ACTIVE" get_var;
  timeout_secs ← config_env_u64 "GITTREE_RELAY_PROBE_TIMEOUT_SECS" get_var;
  let secret_key := env_optional_string_with "GITTREE_RELAY_PROBE_SECRET_KEY" get_var in
  let config := mkRelayProbeConfig (default false active)
                  (default DEFAULT_RELAY_PROBE_TIMEOUT_SECS timeout_secs) secret_key in
  _ ← RelayProbeConfig_validate config; Ok config.
Definition TomlRelayProbe_into_config (relay_probe : option TomlRelayProbeConfig) : RelayProbeConfig :=
  let config := default (mkTomlRelayProbeConfig None None None) relay_probe in
  mkRelayProbeConfig (default false (tp_active config))
    (default DEFAULT_RELAY_PROBE_TIMEOUT_SECS (tp_timeout_secs config)) (tp_secret_key config).

(** ** The policy of the relay *)

Record TomlRelayPolicyConfig := mkTomlRelayPolicyConfig {
  tr_max_content_len : option Z; tr_max_tags : option Z; tr_max_tag_values : option Z;
  tr_max_tag_value_len : option Z; tr_max_future_seconds : option Z; tr_max_subscriptions : option Z;
  tr_max_limit : option Z; tr_max_message_bytes : option Z; tr_max_events_per_min : option Z;
  tr_max_requests_per_min : option Z; tr_retention_max_age_seconds : option Z;
  tr_auth_required : option bool
}.

Definition validate_opt_limit (field : string) (value : option Z) : result ConfigError unit :=
  match value with Some limit => validate_policy_limit field limit | None => Ok tt end.

Definition RelayPolicyConfig_validate (c : RelayPolicyConfig) : result ConfigError unit :=
  _ ← validate_policy_limit "relay_policy.max_content_len" (c_max_content_len c);
  _ ← validate_policy_limit "relay_policy.max_tags" (c_max_tags c);
  _ ← validate_policy_limit "relay_policy.max_tag_values" (c_max_tag_values c);
  _ ← validate_policy_limit "relay_policy.max_tag_value_len" (c_max_tag_value_len c);
  _ ← validate_policy_limit "relay_policy.max_future_seconds" (c_max_future_seconds c);
  _ ← validate_opt_limit "relay_policy.max_subscriptions" (c_max_subscriptions c);
  _ ← validate_opt_limit "relay_policy.max_limit" (c_max_limit c);
  _ ← validate_opt_limit "relay_policy.max_message_bytes" (c_max_message_bytes c);
  _ ← validate_opt_limit "relay_policy.max_events_per_min" (c_max_events_per_min c);
  _ ← validate_opt_limit "relay_policy.max_requests_per_min" (c_max_requests_per_min c);
  validate_opt_limit "relay_policy.retention_max_age_seconds" (c_retention_max_age_seconds c).

Definition RelayPolicyConfig_default : RelayPolicyConfig :=
  mkRelayPolicyConfig 8192 128 16 512 60 None None None None None None false.

Definition RelayPolicyConfig_from_env (get_var : environment) : result ConfigError RelayPolicyConfig :=
  max_content_len ← env_u64_policy "GITTREE_RELAY_POLICY_MAX_CONTENT_LEN" "relay_policy.max_content_len" get_var;
  max_tags ← env_u64_policy "GITTREE_RELAY_POLICY_MAX_TAGS" "relay_policy.max_tags" get_var;
  max_tag_values ← env_u64_policy "GITTREE_RELAY_POLICY_MAX_TAG_VALUES" "relay_policy.max_tag_values" get_var;
  max_tag_value_len ← env_u64_policy "GITTREE_RELAY_POLICY_MAX_TAG_VALUE_LEN" "relay_policy.max_tag_value_len" get_var;
  max_future_seconds ← env_u64_policy "GITTREE_RELAY_POLICY_MAX_FUTURE_SECS" "relay_policy.max_future_seconds" get_var;
  max_subscriptions ← env_u64_policy "GITTREE_RELAY_POLICY_MAX_SUBSCRIPTIONS" "relay_policy.max_subscriptions" get_var;
  max_limit ← env_u64_policy "GITTREE_RELAY_POLICY_MAX_LIMIT" "relay_policy.max_limit" get_var;
  max_message_bytes ← env_u64_policy "GITTREE_RELAY_POLICY_MAX_MESSAGE_BYTES" "relay_policy.max_message_bytes" get_var;
  max_events_per_min ← env_u64_policy "GITTREE_RELAY_POLICY_MAX_EVENTS_PER_MIN" "relay_policy.max_events_per_min" get_var;
  max_requests_per_min ← env_u64_policy "GITTREE_RELAY_POLICY_MAX_REQUESTS_PER_MIN" "relay_policy.max_requests_per_min" get_var;
  retention_max_age_seconds ← env_u64_policy "GITTREE_RELAY_POLICY_RETENTION_MAX_AGE_SECS"
    "relay_policy.retention_max_age_seconds" get_var;
  auth_required ← env_bool_policy "GITTREE_RELAY_POLICY_AUTH_REQUIRED" "relay_policy.auth_required" get_var;
  let config := mkRelayPolicyConfig (default 8192%Z max_content_len) (default 128%Z max_tags)
    (default 16%Z max_tag_values) (default 512%Z max_tag_value_len) (default 60%Z max_future_seconds)
    max_subscriptions max_limit max_message_bytes max_events_per_min max_requests_per_min
    retention_max_age_seconds (default false auth_required) in
  _ ← RelayPolicyConfig_validate config; Ok config.

Definition TomlRelayPolicyConfig_none : TomlRelayPolicyConfig :=
  mkTomlRelayPolicyConfig None None None None None None None None None None None None.
Definition TomlRelayPolicy_into_config (relay_policy : option TomlRelayPolicyConfig) : RelayPolicyConfig :=
  let config := default TomlRelayPolicyConfig_none relay_policy in
  mkRelayPolicyConfig (default 8192%Z (tr_max_content_len config)) (default 128%Z (tr_max_tags config))
    (default 16%Z (tr_max_tag_values config)) (default 512%Z (tr_max_tag_value_len config))
    (default 60%Z (tr_max_future_seconds config)) (tr_max_subscriptions config) (tr_max_limit config)
    (tr_max_message_bytes config) (tr_max_events_per_min config) (tr_max_requests_per_min config)
    (tr_retention_max_age_seconds config) (default false (tr_auth_required config)).

(** ** What needs a URL parser *)

Section Urls.
Context `{UrlLib}.

Definition has_scheme (schemes : list string) (value : string) : bool :=
  match url_parse value with
  | Some parsed => existsb (λ scheme, scheme == url_scheme parsed) schemes
  | None => false
  end.
Definition validate_relay_url (value : string) : result ConfigError unit :=
  fail_if (negb (has_scheme ["ws"; "wss"; "http"; "https"] value)) (InvalidRelayUrl value).
Definition validate_http_url (field value : string) : result ConfigError unit :=
  fail_if (negb (has_scheme ["http"; "https"] value)) (InvalidConfig field value).

Definition RelayTargetsConfig_validate (c : RelayTargetsConfig) : result ConfigError unit :=
  check_each (λ url, negb (is_ok (validate_relay_url url))) InvalidRelayUrl (rt_relay_urls c).
Definition RelayTargetsConfig_from_env_validated (get_var : environment)
    : result ConfigError RelayTargetsConfig :=
  let config := mkRelayTargetsConfig (parse_relay_urls (default "" (get_var "GITTREE_RELAY_URLS"))) in
  _ ← RelayTargetsConfig_validate config; Ok config.
(** A document whose [relay_urls] is optional. *)
Definition RelayTargetsConfig_from_toml (relay_urls : option (list string))
    : result ConfigError RelayTargetsConfig :=
  let config := mkRelayTargetsConfig (default [] relay_urls) in
  _ ← RelayTargetsConfig_validate config; Ok config.

Definition ForgejoConfig_validate (c : ForgejoConfig) : result ConfigError unit :=
  _ ← validate_http_url "forgejo.base_url" (fj_base_url c);
  _ ← validate_http_url "forgejo.webhook_url" (fj_webhook_url c);
  _ ← fail_if (is_blank (fj_api_token c)) (InvalidConfig "forgejo.api_token" (fj_api_token c));
  _ ← fail_if (is_blank (fj_owner c)) (InvalidConfig "forgejo.owner" (fj_owner c));
  fail_if (is_blank (fj_webhook_secret c)) (InvalidConfig "forgejo.webhook_secret" (fj_webhook_secret c)).
Definition ForgejoConfig_from_env_with (get_var : environment) : result ConfigError ForgejoConfig :=
  base_url ← env_required_string_with "GITTREE_FORGEJO_BASE_URL" get_var;
  api_token ← env_required_string_with "GITTREE_FORGEJO_API_TOKEN" get_var;
  owner ← env_required_string_with "GITTREE_FORGEJO_OWNER" get_var;
  webhook_url ← env_required_string_with "GITTREE_FORGEJO_WEBHOOK_URL" get_var;
  webhook_secret ← env_required_string_with "GITTREE_FORGEJO_WEBHOOK_SECRET" get_var;
  repo_private ← env_bool_default_with "GITTREE_FORGEJO_REPO_PRIVATE" true get_var;
  let config := mkForgejoConfig base_url api_token owner webhook_url webhook_secret repo_private in
  _ ← ForgejoConfig_validate config; Ok config.
Definition TomlForgejoRoot_into_config (forgejo : option TomlForgejoConfig) : result ConfigError ForgejoConfig :=
  config ← ok_or (InvalidConfig "forgejo" "missing") forgejo;
  base_url ← require_toml_field (tf_base_url config) "forgejo.base_url";
  api_token ← require_toml_field (tf_api_token config) "forgejo.api_token";
  owner ← require_toml_field (tf_owner config) "forgejo.owner";
  webhook_url ← require_toml_field (tf_webhook_url config) "forgejo.webhook_url";
  webhook_secret ← require_toml_field (tf_webhook_secret config) "forgejo.webhook_secret";
  Ok (mkForgejoConfig base_url api_token owner webhook_url webhook_secret (default true (tf_repo_private config))).

Definition UiConfig_validate (c : UiConfig) : result ConfigError unit :=
  _ ← fail_if (is_empty (ui_repo_root c)) (InvalidConfig "ui.repo_root" "");
  _ ← validate_http_url "ui.public_git_url" (ui_public_git_url c);
  _ ← validate_http_url "ui.auth_url" (ui_auth_url c);
  _ ← validate_http_url "ui.app_url" (ui_app_url c);
  _ ← validate_http_url "ui.state_url" (ui_state_url c);
  validate_http_url "ui.control_url" (ui_control_url c).
Definition UiConfig_from_env (get_var : environment) : result ConfigError UiConfig :=
  repo_root ← env_required_string_with "GITTREE_UI_REPO_ROOT" get_var;
  public_git_url ← env_required_string_with "GITTREE_UI_PUBLIC_GIT_URL" get_var;
  let config := mkUiConfig repo_root public_git_url
    (default DEFAULT_UI_AUTH_URL (env_optional_string_with "GITTREE_UI_AUTH_URL" get_var))
    (default DEFAULT_UI_APP_URL (env_optional_string_with "GITTREE_UI_APP_URL" get_var))
    (default DEFAULT_UI_STATE_URL (env_optional_string_with "GITTREE_UI_STATE_URL" get_var))
    (default DEFAULT_UI_CONTROL_URL (env_optional_string_with "GITTREE_UI_CONTROL_URL" get_var)) in
  _ ← UiConfig_validate config; Ok config.
Definition TomlUiRoot_into_config (ui : option TomlUiConfig) : result ConfigError UiConfig :=
  config ← ok_or (InvalidConfig "ui" "missing") ui;
  repo_root ← require_toml_field (tu_repo_root config) "ui.repo_root";
  public_git_url ← require_toml_field (tu_public_git_url config) "ui.public_git_url";
  Ok (mkUiConfig repo_root public_git_url (default DEFAULT_UI_AUTH_URL (tu_auth_url config))
        (default DEFAULT_UI_APP_URL (tu_app_url config)) (default DEFAULT_UI_STATE_URL (tu_state_url config))
        (default DEFAULT_UI_CONTROL_URL (tu_control_url config))).
End Urls.

(** A document and a file: the parser gives a record or an error. *)
Definition from_toml_str {T A} (parse : string → result string T) (into_config : T → result ConfigError A)
    (input : string) : result ConfigError A :=
  parsed ← map_err (TomlParse None) (parse input); into_config parsed.
Definition from_toml_file {T A} (read : string → result string string) (parse : string → result string T)
    (into_config : T → result ConfigError A) (path : string) : result ConfigError A :=
  contents ← map_err (ReadConfig path) (read path);
  map_err (with_path path) (from_toml_str parse into_config contents).

Definition RelayPolicyConfig_from_toml_str (parse : string → result string (option TomlRelayPolicyConfig))
    : string → result ConfigError RelayPolicyConfig :=
  from_toml_str parse (λ parsed, let config := TomlRelayPolicy_into_config parsed in
    _ ← RelayPolicyConfig_validate config; Ok config).
Definition RelayProbeConfig_from_toml_str (parse : string → result string (option TomlRelayProbeConfig))
    : string → result ConfigError RelayProbeConfig :=
  from_toml_str parse (λ parsed, let config := TomlRelayProbe_into_config parsed in
    _ ← RelayProbeConfig_validate config; Ok config).
Definition ServicesConfig_from_toml_file_validated (read : string → result string string)
    (parse : string → result string (option TomlServicesConfig)) (path : string)
    : result ConfigError ServicesConfig :=
  config ← from_toml_file read parse (λ parsed, Ok (into_services parsed)) path;
  _ ← ServicesConfig_validate config; Ok config.

(** ** The two sources of a policy say the same *)

(** The variables that write down a document. *)
Definition policy_env (t : TomlRelayPolicyConfig) : environment := λ key,
  if key == "GITTREE_RELAY_POLICY_MAX_CONTENT_LEN" then pretty <$> tr_max_content_len t
  else if key == "GITTREE_RELAY_POLICY_MAX_TAGS" then pretty <$> tr_max_tags t
  else if key == "GITTREE_RELAY_POLICY_MAX_TAG_VALUES" then pretty <$> tr_max_tag_values t
  else if key == "GITTREE_RELAY_POLICY_MAX_TAG_VALUE_LEN" then pretty <$> tr_max_tag_value_len t
  else if key == "GITTREE_RELAY_POLICY_MAX_FUTURE_SECS" then pretty <$> tr_max_future_seconds t
  else if key == "GITTREE_RELAY_POLICY_MAX_SUBSCRIPTIONS" then pretty <$> tr_max_subscriptions t
  else if key == "GITTREE_RELAY_POLICY_MAX_LIMIT" then pretty <$> tr_max_limit t
  else if key == "GITTREE_RELAY_POLICY_MAX_MESSAGE_BYTES" then pretty <$> tr_max_message_bytes t
  else if key == "GITTREE_RELAY_POLICY_MAX_EVENTS_PER_MIN" then pretty <$> tr_max_events_per_min t
  else if key == "GITTREE_RELAY_POLICY_MAX_REQUESTS_PER_MIN" then pretty <$> tr_max_requests_per_min t
  else if key == "GITTREE_RELAY_POLICY_RETENTION_MAX_AGE_SECS" then pretty <$> tr_retention_max_age_seconds t
  else if key == "GITTREE_RELAY_POLICY_AUTH_REQUIRED"
       then (λ b : bool, if b then "true" else "false") <$> tr_auth_required t
  else None.

(** The numbers of the document are [u64]. *)
Definition policy_u64 (t : TomlRelayPolicyConfig) : Prop :=
  Forall (λ o : option Z, ∀ z, o = Some z → (0 ≤ z ≤ u64_max)%Z)
    [tr_max_content_len t; tr_max_tags t; tr_max_tag_values t; tr_max_tag_value_len t;
     tr_max_future_seconds t; tr_max_subscriptions t; tr_max_limit t; tr_max_message_bytes t;
     tr_max_events_per_min t; tr_max_requests_per_min t; tr_retention_max_age_seconds t].

Lemma pretty_Z_nonempty (z : Z) : pretty z ≠ "".
Proof. destruct z as [|p|p]; [done| |done]. apply (pretty_N_nonempty (N.pos p)). Qed.

Lemma env_u64_policy_pretty key field get_var o :
  get_var key = pretty <$> o → (∀ z, o = Some z → (0 ≤ z ≤ u64_max)%Z) →
  env_u64_policy key field get_var = Ok o.
Proof.
  unfold env_u64_policy, env_parsed. intros ->. destruct o as [z|]; simpl; [|done].
  intros Hz. specialize (Hz z eq_refl).
  rewrite digits_not_blank by (apply pretty_Z_nonempty || apply pretty_Z_digits; lia).
  unfold parse_u64. by rewrite parse_int_pretty.
Qed.

Lemma env_bool_policy_text key field get_var o :
  get_var key = (λ b : bool, if b then "true" else "false") <$> o → env_bool_policy key field get_var = Ok o.
Proof. unfold env_bool_policy, env_parsed. intros ->. by destruct o as [[]|]. Qed.

(** The environment and a TOML document configure the relay's policy alike:
    the variables that write down a document, each number in decimal, give the
    policy, or the error, that the document gives. *)
Lemma policy_env_toml_agree t :
  policy_u64 t →
  RelayPolicyConfig_from_env (policy_env t) =
    RelayPolicyConfig_from_toml_str (λ _, Ok (Some t)) "".
Proof.
  intros Ht. unfold policy_u64 in Ht. rewrite !Forall_cons in Ht.
  destruct Ht as (? & ? & ? & ? & ? & ? & ? & ? & ? & ? & ? & _).
  unfold RelayPolicyConfig_from_env.
  repeat (erewrite env_u64_policy_pretty by (reflexivity || eassumption); unfold mbind at 1; cbn [result_bind]).
  erewrite env_bool_policy_text by reflexivity. done.
Qed.

Lemma policy_env_toml_agree_witness :
  RelayPolicyConfig_from_env (policy_env (mkTomlRelayPolicyConfig (Some 100%Z) (Some 0%Z) None None None None None
    None (Some 18446744073709551615%Z) None None (Some true))) = Err (InvalidRelayPolicyConfig "relay_policy.max_tags" "0").
Proof.
  rewrite policy_env_toml_agree.
  - reflexivity.
  - unfold policy_u64. repeat (apply Forall_cons; split); [..|constructor];
      intros z Hz; try discriminate Hz; injection Hz as <-; vm_compute; split; discriminate.
Defined.

(** A validated policy has no limit of zero. *)
Lemma validated_policy_positive get_var c :
  RelayPolicyConfig_from_env get_var = Ok c →
  c_max_content_len c ≠ 0%Z ∧ c_max_tags c ≠ 0%Z ∧ c_max_tag_values c ≠ 0%Z ∧
  c_max_tag_value_len c ≠ 0%Z ∧ c_max_future_seconds c ≠ 0%Z ∧
  c_max_subscriptions c ≠ Some 0%Z ∧ c_max_limit c ≠ Some 0%Z ∧ c_max_message_bytes c ≠ Some 0%Z ∧
  c_max_events_per_min c ≠ Some 0%Z ∧ c_max_requests_per_min c ≠ Some 0%Z ∧
  c_retention_max_age_seconds c ≠ Some 0%Z.
Proof.
  assert (∀ f v, validate_policy_limit f v = Ok tt → v ≠ 0%Z) as Hl.
  { intros f v. unfold validate_policy_limit, fail_if. by case_bool_decide. }
  assert (∀ f v, validate_opt_limit f v = Ok tt → v ≠ Some 0%Z) as Ho.
  { intros f [v|]; [|done]. simpl. intros Hv%Hl. congruence. }
  unfold RelayPolicyConfig_from_env. intros Hc.
  do 12 (apply bind_Ok in Hc as (? & _ & Hc)). apply bind_Ok_unit in Hc as [Hv [= <-]].
  unfold RelayPolicyConfig_validate in Hv. rewrite !bind_Ok_unit in Hv.
  destruct Hv as (? & ? & ? & ? & ? & ? & ? & ? & ? & ? & ?). split_and!; eauto.
Qed.

(** Without variables and with an empty document, the defaults, which are valid. *)
Lemma defaults_agree :
  RelayPolicyConfig_from_env (λ _, None) = Ok RelayPolicyConfig_default ∧
  RelayPolicyConfig_from_toml_str (λ _, Ok None) "" = Ok RelayPolicyConfig_default ∧
  ServicesConfig_from_env_validated_with (λ _, None) = Ok ServicesConfig_default ∧
  into_services None = ServicesConfig_default ∧
  RelayProbeConfig_from_env (λ _, None) = Ok RelayProbeConfig_default ∧
  RelayCompatibilityConfig_from_env (λ _, None) = TomlRelayCompatibility_into_config None ∧
  parse_socket_addr "[::1]:8080" = Some (SocketAddrV6 [0; 0; 0; 0; 0; 0; 0; 1] 0 8080)%N ∧
  parse_socket_addr "127.0.0.1:080" = Some (SocketAddrV4 [127; 0; 0; 1] 80)%N ∧
  parse_socket_addr "127.0.0.01:80" = None ∧ parse_socket_addr "localhost:80" = None.
Proof. split_and!; vm_compute; reflexivity. Qed.
