(* ===== verification/Repositories.v ===== *)
(** * [Repositories]: the records of the storage crate and its in-memory repositories

    Models the records of [crates/storage/src/repo.rs], [repo_mapping.rs],
    [account.rs], [profile.rs], [relay_tenant.rs], [relay_compat.rs] and
    [queries.rs], and of [repositories.rs] the traits for announcements, states,
    mappings, accounts, profiles, relay compatibility and tenants with their
    in-memory implementations.  Each group of operations has its own state; an
    operation is a [stateful] computation, since a repository in a database
    changes with every statement.  The classes of laws state what the services
    rely on. *)

From S2P Require Import Prelude RustStr CoreTypes Externals HexModel Nip34Common Nip34Repo RelayCompat.
From S2P Require Import Membership Database.

(** ** Records *)

Record RepoAnnouncementRecord := mkRepoAnnouncementRecord {
  ra_event_id : bytes;
  ra_rec_pubkey : bytes;
  ra_rec_identifier : string;
  ra_name : option string;
  ra_description : option string;
  ra_root_commit : option string;
  ra_clone_urls : list string;
  ra_web_urls : list string;
  ra_relays : list string;
  ra_blossoms : list string;
  ra_hashtags : list string;
  ra_maintainers : list string;
  ra_created_at : Z
}.

Record RepoStateRecord := mkRepoStateRecord {
  rs_event_id : bytes;
  rs_pubkey : bytes;
  rs_identifier : string;
  rs_created_at : Z;
  rs_state_json : string
}.

Record RepoMappingRecord := mkRepoMappingRecord {
  mp_forgejo_owner : string;
  mp_forgejo_repo : string;
  mp_pubkey : bytes;
  mp_identifier : string
}.

Record AccountRecord := mkAccountRecord { ac_pubkey : bytes; ac_forgejo_username : string }.

Inductive ProfileVisibility := VisPrivate | VisPublic.

Record ProfileRecord := mkProfileRecord {
  pf_pubkey : bytes;
  pf_display_name : option string;
  pf_bio : option string;
  pf_avatar_url : option string;
  pf_website_url : option string;
  pf_location : option string;
  pf_visibility : ProfileVisibility;
  pf_created_at : Z;
  pf_updated_at : Z
}.

Record RelayTenantRecord := mkRelayTenantRecord {
  tn_id : string;
  tn_host : string;
  tn_relay_pubkey : bytes;
  tn_relay_secret : bytes;
  tn_relay_secret_nonce : bytes;
  tn_relay_secret_kid : string;
  tn_name : option string;
  tn_description : option string;
  tn_icon : option string;
  tn_banner : option string;
  tn_contact : option string;
  tn_auth_required : bool;
  tn_public_read : bool;
  tn_public_write : bool;
  tn_created_at : Z;
  tn_updated_at : Z
}.

Record RelayProbeMetadata := mkRelayProbeMetadata {
  pm_nip11_url : option string;
  pm_nip11_available : bool;
  pm_active_probe_ok : option bool;
  pm_active_probe_error : option string
}.
Definition RelayProbeMetadata_default : RelayProbeMetadata := mkRelayProbeMetadata None false None None.

Record RelayCompatibilityRecord := mkRelayCompatibilityRecord {
  rcr_relay_url : string;
  rcr_compatible : bool;
  rcr_supported_capabilities : list string;
  rcr_missing_required : list string;
  rcr_missing_optional : list string;
  rcr_report_json : string;
  rcr_nip11_url : option string;
  rcr_nip11_available : bool;
  rcr_active_probe_ok : option bool;
  rcr_active_probe_error : option string;
  rcr_checked_at : Z
}.

Record RepoFilter := mkRepoFilter { rf_pubkey : bytes; rf_identifier : string }.

(** JSON of a state map and of a report: [serde_json] on derived types. *)
Class RecordCodec := {
  state_map_to_json : gmap string string → string;
  state_map_from_json : string → result string (gmap string string);
  report_to_json : RelayCompatibilityReport → string;
  report_from_json : string → result string RelayCompatibilityReport
}.

(** What is written can be read back. *)
Class RecordCodecLaws `{RecordCodec} : Prop := {
  state_map_roundtrip : ∀ m, state_map_from_json (state_map_to_json m) = Ok m;
  report_roundtrip : ∀ r, report_from_json (report_to_json r) = Ok r
}.

(** ** Their constructors *)

Definition ProfileVisibility_as_str (v : ProfileVisibility) : string :=
  match v with VisPrivate => "private" | VisPublic => "public" end.
Definition ProfileVisibility_parse (value : string) : result StorageError ProfileVisibility :=
  let lower := to_ascii_lowercase (trim value) in
  if lower == "private" then Ok VisPrivate
  else if lower == "public" then Ok VisPublic
  else Err (StInvalidField "visibility" value).

Definition normalize_optional (field : string) (value : option string) (max_len : nat)
    : result StorageError (option string) :=
  match trim <$> value with
  | None => Ok None
  | Some value =>
      if is_empty value then Ok None
      else if max_len <? String.length value then Err (StInvalidField field value)
      else Ok (Some value)
  end.

Definition normalize_optional_url (field : string) (value : option string) (max_len : nat)
    : result StorageError (option string) :=
  value ← normalize_optional field value max_len;
  _ ← check_opt (λ url, let lower := to_ascii_lowercase url in
                        negb (starts_with "http://" lower || starts_with "https://" lower))
        (StInvalidField field) value;
  Ok value.

Section Constructors.
Context `{HexLib} `{HashOrder} `{RecordCodec}.

Definition RepoAnnouncementRecord_new (event_id pubkey : string) (created_at : Z)
    (a : RepoAnnouncement) : result StorageError RepoAnnouncementRecord :=
  _ ← map_err (λ err, StInvalidField "announcement" (CoreError_display err)) (RepoAnnouncement_validate a);
  event_id ← decode_hex_32 "event_id" event_id;
  pubkey ← decode_hex_32 "pubkey" pubkey;
  Ok (mkRepoAnnouncementRecord event_id pubkey (an_identifier a) (an_name a) (an_description a)
        (an_root_commit a) (an_clone a) (an_web a) (an_relays a) (an_blossoms a) (an_hashtags a)
        (an_maintainers a) created_at).

Definition RepoStateRecord_new (event_id pubkey : string) (created_at : Z) (s : RepoState)
    : result StorageError RepoStateRecord :=
  _ ← map_err (λ err, StInvalidField "state" (CoreError_display err)) (RepoState_validate s);
  let state_json := state_map_to_json (st_state s) in
  event_id ← decode_hex_32 "event_id" event_id;
  pubkey ← decode_hex_32 "pubkey" pubkey;
  Ok (mkRepoStateRecord event_id pubkey (st_identifier s) created_at state_json).

Definition state_map (r : RepoStateRecord) : result StorageError (gmap string string) :=
  map_err (StSerialization "state") (state_map_from_json (rs_state_json r)).

Definition RepoMappingRecord_new (m : RepoMapping) : result StorageError RepoMappingRecord :=
  pubkey ← decode_hex_32 "pubkey" (rm_pubkey m);
  Ok (mkRepoMappingRecord (fr_owner (rm_forgejo m)) (fr_name (rm_forgejo m)) pubkey (rm_identifier m)).

Definition forgejo_full_name (r : RepoMappingRecord) : string :=
  mp_forgejo_owner r +:+ "/" +:+ mp_forgejo_repo r.

Definition AccountRecord_new (pubkey forgejo_username : string) : result StorageError AccountRecord :=
  _ ← fail_if (is_blank forgejo_username) (StInvalidField "forgejo_username" forgejo_username);
  pubkey ← decode_hex_32 "pubkey" pubkey;
  Ok (mkAccountRecord pubkey forgejo_username).

Definition MAX_DISPLAY_NAME : nat := 80.
Definition MAX_BIO : nat := 500.
Definition MAX_AVATAR_URL : nat := 300.
Definition MAX_WEBSITE_URL : nat := 300.
Definition MAX_LOCATION : nat := 120.

Definition ProfileRecord_new (pubkey : string)
    (display_name bio avatar_url website_url location : option string)
    (visibility : ProfileVisibility) (created_at updated_at : Z) : result StorageError ProfileRecord :=
  _ ← fail_if (bool_decide (updated_at < created_at)%Z) (StInvalidField "updated_at" (pretty updated_at));
  pubkey ← decode_hex_32 "pubkey" pubkey;
  display_name ← normalize_optional "display_name" display_name MAX_DISPLAY_NAME;
  bio ← normalize_optional "bio" bio MAX_BIO;
  avatar_url ← normalize_optional_url "avatar_url" avatar_url MAX_AVATAR_URL;
  website_url ← normalize_optional_url "website_url" website_url MAX_WEBSITE_URL;
  location ← normalize_optional "location" location MAX_LOCATION;
  Ok (mkProfileRecord pubkey display_name bio avatar_url website_url location visibility
        created_at updated_at).

Definition MAX_HOST_LEN : nat := 255.
Definition MAX_NAME_LEN : nat := 120.
Definition MAX_DESC_LEN : nat := 500.
Definition MAX_URL_LEN : nat := 300.

Definition RelayTenantRecord_new (id host relay_pubkey : string)
    (relay_secret relay_secret_nonce : bytes) (relay_secret_kid : string)
    (name description icon banner contact : option string)
    (auth_required public_read public_write : bool) (created_at updated_at : Z)
    : result StorageError RelayTenantRecord :=
  let host := to_ascii_lowercase (trim host) in
  _ ← fail_if (is_blank id) (StInvalidField "tenant_id" "empty");
  _ ← fail_if (is_empty host || (MAX_HOST_LEN <? String.length host) || contains_char " " host)
        (StInvalidField "host" host);
  _ ← fail_if (is_empty relay_secret) (StInvalidField "relay_secret" "empty");
  _ ← fail_if (is_empty relay_secret_nonce) (StInvalidField "relay_secret_nonce" "empty");
  _ ← fail_if (is_blank relay_secret_kid) (StInvalidField "relay_secret_kid" relay_secret_kid);
  _ ← fail_if (bool_decide (updated_at < created_at)%Z) (StInvalidField "updated_at" (pretty updated_at));
  relay_pubkey ← decode_hex_32 "relay_pubkey" relay_pubkey;
  name ← normalize_optional "name" name MAX_NAME_LEN;
  description ← normalize_optional "description" description MAX_DESC_LEN;
  icon ← normalize_optional_url "icon" icon MAX_URL_LEN;
  banner ← normalize_optional_url "banner" banner MAX_URL_LEN;
  contact ← normalize_optional "contact" contact MAX_URL_LEN;
  Ok (mkRelayTenantRecord id host relay_pubkey relay_secret relay_secret_nonce relay_secret_kid
        name description icon banner contact auth_required public_read public_write
        created_at updated_at).

Definition RelayCompatibilityRecord_new (report : RelayCompatibilityReport) (checked_at : Z)
    (metadata : RelayProbeMetadata) : result StorageError RelayCompatibilityRecord :=
  _ ← fail_if (is_blank (rc_relay_url report)) (StInvalidField "relay_url" "empty");
  Ok (mkRelayCompatibilityRecord (rc_relay_url report) (is_compatible report)
        (cap_as_str <$> rc_supported report)
        (cap_as_str <$> rc_missing_required report)
        (cap_as_str <$> rc_missing_optional report)
        (report_to_json report) (pm_nip11_url metadata) (pm_nip11_available metadata)
        (pm_active_probe_ok metadata) (pm_active_probe_error metadata) checked_at).

Definition record_report (r : RelayCompatibilityRecord) : result StorageError RelayCompatibilityReport :=
  map_err (StSerialization "report") (report_from_json (rcr_report_json r)).

Definition RepoFilter_from_hex (pubkey_hex identifier : string) : result StorageError RepoFilter :=
  pubkey ← ok_or (StInvalidHex "pubkey" pubkey_hex) (hex_decode pubkey_hex);
  Ok (mkRepoFilter pubkey identifier).
End Constructors.

(** ** The traits *)

Class AnnouncementRepository (R : Type) := {
  insert_announcement : RepoAnnouncementRecord → stateful R StorageError unit;
  list_announcements : bytes → string → stateful R StorageError (list RepoAnnouncementRecord);
  latest_announcement : bytes → string → stateful R StorageError (option RepoAnnouncementRecord)
}.

Class StateRepository (R : Type) := {
  insert_state : RepoStateRecord → stateful R StorageError unit;
  repo_latest_state : bytes → string → stateful R StorageError (option RepoStateRecord)
}.

Class RepoMappingRepository (R : Type) := {
  upsert_mapping : RepoMappingRecord → stateful R StorageError unit;
  mapping_by_forgejo : string → string → stateful R StorageError (option RepoMappingRecord);
  mapping_by_repo : bytes → string → stateful R StorageError (option RepoMappingRecord);
  list_mappings : stateful R StorageError (list RepoMappingRecord)
}.

Class AccountRepository (R : Type) := {
  upsert_account : AccountRecord → stateful R StorageError unit;
  account_by_pubkey : bytes → stateful R StorageError (option AccountRecord);
  account_by_username : string → stateful R StorageError (option AccountRecord)
}.

Class ProfileRepository (R : Type) := {
  upsert_profile : ProfileRecord → stateful R StorageError unit;
  profile_by_pubkey : bytes → stateful R StorageError (option ProfileRecord)
}.

Class RelayCompatibilityRepository (R : Type) := {
  upsert_relay_compatibility : RelayCompatibilityRecord → stateful R StorageError unit;
  relay_compatibility : string → stateful R StorageError (option RelayCompatibilityRecord)
}.

Class RelayTenantRepository (R : Type) := {
  upsert_tenant : RelayTenantRecord → stateful R StorageError unit;
  tenant_by_id : string → stateful R StorageError (option RelayTenantRecord);
  tenant_by_host : string → stateful R StorageError (option RelayTenantRecord);
  list_tenants : stateful R StorageError (list RelayTenantRecord)
}.

(** ** The in-memory repositories *)

(** A [HashMap<String, Vec<A>>] that records are pushed to. *)
Definition push_record {A} (key : string) (r : A) (m : gmap string (list A)) : gmap string (list A) :=
  <[key := default [] (m !! key) ++ [r]]> m.

(** [records.sort_by_key(|r| r.created_at); records.pop()] *)
Definition time_le {A} (time : A → Z) (a b : A) : Prop := (time a ≤ time b)%Z.
#[export] Instance time_le_dec {A} (time : A → Z) : RelDecision (time_le time).
Proof. intros a b. unfold time_le. apply _. Defined.
Definition pop_latest {A} (time : A → Z) (l : list A) : option A := last (merge_sort (time_le time) l).

Definition read_mem {R A} (f : R → A) : stateful R StorageError A := λ m, (Ok (f m), m).
Definition write_mem {R} (f : R → R) : stateful R StorageError unit := λ m, (Ok tt, f m).

Record MemoryAnnouncements := mkMemoryAnnouncements {
  ma_announcements : gmap string (list RepoAnnouncementRecord)
}.
Record MemoryStates := mkMemoryStates { mst_states : gmap string (list RepoStateRecord) }.
Record MemoryMappings := mkMemoryMappings {
  mm_by_forgejo : gmap string RepoMappingRecord;
  mm_by_repo : gmap string RepoMappingRecord
}.
Record MemoryAccounts := mkMemoryAccounts {
  mac_by_pubkey : gmap string AccountRecord;
  mac_by_username : gmap string AccountRecord
}.
Record MemoryProfiles := mkMemoryProfiles { mpr_profiles : gmap string ProfileRecord }.
Record MemoryCompatibility := mkMemoryCompatibility { mc_records : gmap string RelayCompatibilityRecord }.
Record MemoryTenants := mkMemoryTenants {
  mt_by_id : gmap string RelayTenantRecord;
  mt_by_host : gmap string string
}.

Section InMemory.
Context `{HexLib} `{HashOrder}.

Definition repo_key (pubkey : bytes) (identifier : string) : string :=
  hex_encode pubkey +:+ ":" +:+ identifier.
Definition forgejo_key (owner repo : string) : string := owner +:+ "/" +:+ repo.
Definition account_key (pubkey : bytes) : string := hex_encode pubkey.
Definition profile_key (pubkey : bytes) : string := account_key pubkey.
Definition tenant_key (tenant_id : string) : string := tenant_id.

#[export] Instance MemoryAnnouncements_repository : AnnouncementRepository MemoryAnnouncements := {|
  insert_announcement r := write_mem (λ m, mkMemoryAnnouncements
    (push_record (repo_key (ra_rec_pubkey r) (ra_rec_identifier r)) r (ma_announcements m)));
  list_announcements p i := read_mem (λ m, default [] (ma_announcements m !! repo_key p i));
  latest_announcement p i :=
    read_mem (λ m, pop_latest ra_created_at (default [] (ma_announcements m !! repo_key p i)))
|}.

#[export] Instance MemoryStates_repository : StateRepository MemoryStates := {|
  insert_state r := write_mem (λ m, mkMemoryStates
    (push_record (repo_key (rs_pubkey r) (rs_identifier r)) r (mst_states m)));
  repo_latest_state p i :=
    read_mem (λ m, pop_latest rs_created_at (default [] (mst_states m !! repo_key p i)))
|}.

Definition mapping_le (a b : RepoMappingRecord) : Prop :=
  String.le (forgejo_full_name a) (forgejo_full_name b).
#[export] Instance mapping_le_dec : RelDecision mapping_le.
Proof. intros a b. unfold mapping_le. apply _. Defined.

#[export] Instance MemoryMappings_repository : RepoMappingRepository MemoryMappings := {|
  upsert_mapping r := write_mem (λ m, mkMemoryMappings
    (<[forgejo_key (mp_forgejo_owner r) (mp_forgejo_repo r) := r]> (mm_by_forgejo m))
    (<[repo_key (mp_pubkey r) (mp_identifier r) := r]> (mm_by_repo m)));
  mapping_by_forgejo owner repo := read_mem (λ m, mm_by_forgejo m !! forgejo_key owner repo);
  mapping_by_repo p i := read_mem (λ m, mm_by_repo m !! repo_key p i);
  list_mappings := read_mem (λ m, merge_sort mapping_le (hash_iter (mm_by_repo m)).*2)
|}.

(** A new name releases the old one; a name taken by another key is an error. *)
Definition upsert_account_mem (r : AccountRecord) : stateful MemoryAccounts StorageError unit := λ m,
  let key := account_key (ac_pubkey r) in
  let taken := match mac_by_username m !! ac_forgejo_username r with
               | Some existing => negb (ac_pubkey existing == ac_pubkey r)
               | None => false
               end in
  if taken then (Err (StInternal "account username already exists"), m)
  else
    let by_username :=
      match mac_by_pubkey m !! key with
      | Some existing =>
          if negb (ac_forgejo_username existing == ac_forgejo_username r)
          then delete (ac_forgejo_username existing) (mac_by_username m) else mac_by_username m
      | None => mac_by_username m
      end in
    (Ok tt, mkMemoryAccounts (<[key := r]> (mac_by_pubkey m))
              (<[ac_forgejo_username r := r]> by_username)).

#[export] Instance MemoryAccounts_repository : AccountRepository MemoryAccounts := {|
  upsert_account := upsert_account_mem;
  account_by_pubkey p := read_mem (λ m, mac_by_pubkey m !! account_key p);
  account_by_username u := read_mem (λ m, mac_by_username m !! u)
|}.

#[export] Instance MemoryProfiles_repository : ProfileRepository MemoryProfiles := {|
  upsert_profile r := write_mem (λ m,
    mkMemoryProfiles (<[profile_key (pf_pubkey r) := r]> (mpr_profiles m)));
  profile_by_pubkey p := read_mem (λ m, mpr_profiles m !! profile_key p)
|}.

#[export] Instance MemoryCompatibility_repository : RelayCompatibilityRepository MemoryCompatibility := {|
  upsert_relay_compatibility r := write_mem (λ m,
    mkMemoryCompatibility (<[rcr_relay_url r := r]> (mc_records m)));
  relay_compatibility u := read_mem (λ m, mc_records m !! u)
|}.

#[export] Instance MemoryTenants_repository : RelayTenantRepository MemoryTenants := {|
  upsert_tenant r := write_mem (λ m, mkMemoryTenants
    (<[tenant_key (tn_id r) := r]> (mt_by_id m)) (<[tn_host r := tn_id r]> (mt_by_host m)));
  tenant_by_id i := read_mem (λ m, mt_by_id m !! i);
  tenant_by_host h := read_mem (λ m, mt_by_host m !! h ≫= λ i, mt_by_id m !! i);
  list_tenants := read_mem (λ m, (hash_iter (mt_by_id m)).*2)
|}.
End InMemory.
