(* ===== verification/PostgresRepos.v ===== *)
(** * [PostgresRepos]: the repositories in the database

    Models the implementations that [PostgresRepositories] of
    [crates/storage/src/postgres.rs] gives of the traits of [Repositories], on
    the tables of [migrations/0001] to [0004] and [0008] to [0010], with their
    primary keys, unique columns and checks.  [AnnouncementLaws] and [StateLaws]
    are what the services rely on; both the in-memory and the database
    implementations meet them. *)

From S2P Require Import Prelude RustStr CoreTypes Externals HexModel Nip34Common Nip34Repo RelayCompat.
From S2P Require Import Membership Database Repositories.

(** The type [jsonb] of the database: a text is read into it and written back
    in a form of its own. *)
Class JsonbLib := {
  jsonb : Type;
  jsonb_in : string → option jsonb;
  jsonb_out : jsonb → string
}.

(** Another row than the one of [k] has the value [u] in a unique column. *)
Definition clashes {K V U} `{Countable K} `{EqDecision U} (col : V → U) (k : K) (u : U) (m : gmap K V) : bool :=
  existsb (λ '(k', v), negb (bool_decide (k' = k)) && bool_decide (col v = u)) (map_to_list m).

Lemma clashes_false {K V U} `{Countable K} `{EqDecision U} (col : V → U) (k : K) u m :
  clashes col k u m = false ↔ ∀ k' v, m !! k' = Some v → col v = u → k' = k.
Proof.
  unfold clashes. rewrite existsb_false. split.
  - intros Hf k' v Hk Hu. apply elem_of_map_to_list in Hk. specialize (Hf _ Hk). simpl in Hf.
    apply andb_false_iff in Hf as [Hf|Hf]; reflect_bools; done.
  - intros Hu [k' v] Hin%elem_of_map_to_list. apply andb_false_iff.
    destruct (decide (col v = u)) as [E|E]; [left|right; by apply bool_decide_eq_false_2].
    apply negb_false_iff, bool_decide_eq_true_2. by eapply Hu.
Qed.

Section Tables.
Context `{TimeLib} `{JsonbLib}.

Record AnnouncementRow := mkAnnouncementRow {
  anr_event_id : bytes; anr_pubkey : bytes; anr_identifier : string; anr_name : option string;
  anr_description : option string; anr_root_commit : option string; anr_clone_urls : list string;
  anr_web_urls : list string; anr_relays : list string; anr_blossoms : list string;
  anr_hashtags : list string; anr_maintainers : list string; anr_created_at : OffsetDateTime
}.
Record StateRow := mkStateRow {
  str_event_id : bytes; str_pubkey : bytes; str_identifier : string;
  str_created_at : OffsetDateTime; str_state : jsonb
}.
Record AccountsRow := mkAccountsRow { acr_forgejo_username : string }.
Record GittreeProfileRow := mkGittreeProfileRow {
  gpr_display_name : option string; gpr_bio : option string; gpr_avatar_url : option string;
  gpr_website_url : option string; gpr_location : option string; gpr_visibility : string;
  gpr_created_at : OffsetDateTime; gpr_updated_at : OffsetDateTime
}.
Record CompatibilityRow := mkCompatibilityRow {
  cor_compatible : bool; cor_supported : list string; cor_missing_required : list string;
  cor_missing_optional : list string; cor_report : jsonb; cor_checked_at : OffsetDateTime;
  cor_nip11_url : option string; cor_nip11_available : bool; cor_active_probe_ok : option bool;
  cor_active_probe_error : option string
}.

(** The tables, those with a serial key as the list of their rows. *)
Record RepoTables := mkRepoTables {
  t_announcements : list AnnouncementRow;
  t_states : list StateRow;
  t_mappings : gmap (string * string) (bytes * string);
  t_accounts : gmap bytes AccountsRow;
  t_profiles : gmap bytes GittreeProfileRow;
  t_compatibility : gmap string CompatibilityRow;
  t_tenants : gmap string RelayTenantRecord
}.

Definition put_announcements t x :=
  mkRepoTables x (t_states t) (t_mappings t) (t_accounts t) (t_profiles t) (t_compatibility t) (t_tenants t).
Definition put_states t x :=
  mkRepoTables (t_announcements t) x (t_mappings t) (t_accounts t) (t_profiles t) (t_compatibility t) (t_tenants t).
Definition put_mappings t x :=
  mkRepoTables (t_announcements t) (t_states t) x (t_accounts t) (t_profiles t) (t_compatibility t) (t_tenants t).
Definition put_accounts t x :=
  mkRepoTables (t_announcements t) (t_states t) (t_mappings t) x (t_profiles t) (t_compatibility t) (t_tenants t).
Definition put_profiles t x :=
  mkRepoTables (t_announcements t) (t_states t) (t_mappings t) (t_accounts t) x (t_compatibility t) (t_tenants t).
Definition put_compatibility t x :=
  mkRepoTables (t_announcements t) (t_states t) (t_mappings t) (t_accounts t) (t_profiles t) x (t_tenants t).
Definition put_tenants t x :=
  mkRepoTables (t_announcements t) (t_states t) (t_mappings t) (t_accounts t) (t_profiles t) (t_compatibility t) x.

Abbreviation sql := (stateful (Database RepoTables) StorageError).

Section Queries.
Context `{RowOrder}.

(** [ORDER BY created_at DESC] *)
Definition newest_first {A} (time : A → OffsetDateTime) (a b : A) : Prop :=
  (unix_timestamp (time b) ≤ unix_timestamp (time a))%Z.
#[export] Instance newest_first_dec {A} (time : A → OffsetDateTime) : RelDecision (newest_first time).
Proof. intros a b. unfold newest_first. apply _. Defined.

Definition announcement_from_row (row : AnnouncementRow) : RepoAnnouncementRecord :=
  mkRepoAnnouncementRecord (anr_event_id row) (anr_pubkey row) (anr_identifier row) (anr_name row)
    (anr_description row) (anr_root_commit row) (anr_clone_urls row) (anr_web_urls row)
    (anr_relays row) (anr_blossoms row) (anr_hashtags row) (anr_maintainers row)
    (from_offset_datetime (anr_created_at row)).

Definition pg_insert_announcement (r : RepoAnnouncementRecord) : sql unit :=
  created_at ← lift (to_offset_datetime (ra_created_at r));
  try_statement "duplicate key value violates unique constraint" (λ t,
    if existsb (λ row, anr_event_id row == ra_event_id r) (t_announcements t) then None
    else Some (tt, put_announcements t (t_announcements t ++
      [mkAnnouncementRow (ra_event_id r) (ra_rec_pubkey r) (ra_rec_identifier r) (ra_name r)
         (ra_description r) (ra_root_commit r) (ra_clone_urls r) (ra_web_urls r) (ra_relays r)
         (ra_blossoms r) (ra_hashtags r) (ra_maintainers r) created_at]))).

Definition select_announcements (pubkey : bytes) (identifier : string) (t : RepoTables)
    : list AnnouncementRow :=
  merge_sort (newest_first anr_created_at)
    (List.filter (λ row, (anr_pubkey row == pubkey) && (anr_identifier row == identifier))
       (row_iter (t_announcements t))).

Definition pg_list_announcements (pubkey : bytes) (identifier : string)
    : sql (list RepoAnnouncementRecord) :=
  rows ← statement (λ t, (select_announcements pubkey identifier t, t));
  lift (Ok (announcement_from_row <$> rows)).

Definition pg_latest_announcement (pubkey : bytes) (identifier : string)
    : sql (option RepoAnnouncementRecord) :=
  row ← statement (λ t, (head (select_announcements pubkey identifier t), t));
  lift (Ok (announcement_from_row <$> row)).

Definition state_from_row (row : StateRow) : RepoStateRecord :=
  mkRepoStateRecord (str_event_id row) (str_pubkey row) (str_identifier row)
    (from_offset_datetime (str_created_at row)) (jsonb_out (str_state row)).

(** [$5::jsonb] fails on a text that is not JSON. *)
Definition pg_insert_state (r : RepoStateRecord) : sql unit :=
  created_at ← lift (to_offset_datetime (rs_created_at r));
  try_statement "duplicate key value violates unique constraint" (λ t,
    state ← jsonb_in (rs_state_json r);
    if existsb (λ row, str_event_id row == rs_event_id r) (t_states t) then None
    else Some (tt, put_states t (t_states t ++
      [mkStateRow (rs_event_id r) (rs_pubkey r) (rs_identifier r) created_at state]))).

Definition select_states (pubkey : bytes) (identifier : string) (t : RepoTables) : list StateRow :=
  merge_sort (newest_first str_created_at)
    (List.filter (λ row, (str_pubkey row == pubkey) && (str_identifier row == identifier))
       (row_iter (t_states t))).

Definition pg_latest_state (pubkey : bytes) (identifier : string) : sql (option RepoStateRecord) :=
  row ← statement (λ t, (head (select_states pubkey identifier t), t));
  lift (Ok (state_from_row <$> row)).

Definition mapping_from_row (key : string * string) (row : bytes * string) : RepoMappingRecord :=
  mkRepoMappingRecord key.1 key.2 row.1 row.2.

(** The conflict clause covers the name at the forge; the repository is unique too. *)
Definition pg_upsert_mapping (r : RepoMappingRecord) : sql unit :=
  let key := (mp_forgejo_owner r, mp_forgejo_repo r) in
  try_statement "duplicate key value violates unique constraint" (λ t,
    if clashes id key (mp_pubkey r, mp_identifier r) (t_mappings t) then None
    else Some (tt, put_mappings t (<[key := (mp_pubkey r, mp_identifier r)]> (t_mappings t)))).

Definition pg_mapping_by_forgejo (owner repo : string) : sql (option RepoMappingRecord) :=
  row ← statement (λ t, (t_mappings t !! (owner, repo), t));
  lift (Ok (mapping_from_row (owner, repo) <$> row)).

Definition pg_mapping_by_repo (pubkey : bytes) (identifier : string) : sql (option RepoMappingRecord) :=
  row ← statement (λ t, (head (List.filter (λ '(_, row), (row.1 == pubkey) && (row.2 == identifier))
                                 (row_iter (map_to_list (t_mappings t)))), t));
  lift (Ok ((λ '(key, row), mapping_from_row key row) <$> row)).

Definition owner_le (a b : (string * string) * (bytes * string)) : Prop :=
  a.1.1 ≠ b.1.1 ∧ String.le a.1.1 b.1.1 ∨ a.1.1 = b.1.1 ∧ String.le a.1.2 b.1.2.
#[export] Instance owner_le_dec : RelDecision owner_le.
Proof. intros a b. unfold owner_le. apply _. Defined.

Definition pg_list_mappings : sql (list RepoMappingRecord) :=
  rows ← statement (λ t, (merge_sort owner_le (row_iter (map_to_list (t_mappings t))), t));
  lift (Ok ((λ '(key, row), mapping_from_row key row) <$> rows)).

Definition pg_upsert_account (r : AccountRecord) : sql unit :=
  try_statement "duplicate key value violates unique constraint" (λ t,
    if clashes acr_forgejo_username (ac_pubkey r) (ac_forgejo_username r) (t_accounts t) then None
    else Some (tt, put_accounts t (<[ac_pubkey r := mkAccountsRow (ac_forgejo_username r)]> (t_accounts t)))).

Definition pg_account_by_pubkey (pubkey : bytes) : sql (option AccountRecord) :=
  row ← statement (λ t, (t_accounts t !! pubkey, t));
  lift (Ok ((λ row, mkAccountRecord pubkey (acr_forgejo_username row)) <$> row)).

Definition pg_account_by_username (username : string) : sql (option AccountRecord) :=
  row ← statement (λ t, (head (List.filter (λ '(_, row), acr_forgejo_username row == username)
                                 (row_iter (map_to_list (t_accounts t)))), t));
  lift (Ok ((λ '(pubkey, row), mkAccountRecord pubkey (acr_forgejo_username row)) <$> row)).

(** A stored profile keeps its creation time; [updated_at >= created_at] is checked. *)
Definition pg_upsert_profile (r : ProfileRecord) : sql unit :=
  created_at ← lift (to_offset_datetime (pf_created_at r));
  updated_at ← lift (to_offset_datetime (pf_updated_at r));
  try_statement "violates check constraint gittree_profile_updated" (λ t,
    let created_at := match t_profiles t !! pf_pubkey r with
                      | Some row => gpr_created_at row
                      | None => created_at
                      end in
    if bool_decide (unix_timestamp updated_at < unix_timestamp created_at)%Z then None
    else Some (tt, put_profiles t (<[pf_pubkey r :=
      mkGittreeProfileRow (pf_display_name r) (pf_bio r) (pf_avatar_url r) (pf_website_url r)
        (pf_location r) (ProfileVisibility_as_str (pf_visibility r)) created_at updated_at]>
      (t_profiles t)))).

Definition pg_profile_by_pubkey (pubkey : bytes) : sql (option ProfileRecord) :=
  row ← statement (λ t, (t_profiles t !! pubkey, t));
  match row with
  | None => lift (Ok None)
  | Some row =>
      visibility ← lift (ProfileVisibility_parse (gpr_visibility row));
      lift (Ok (Some (mkProfileRecord pubkey (gpr_display_name row) (gpr_bio row)
        (gpr_avatar_url row) (gpr_website_url row) (gpr_location row) visibility
        (from_offset_datetime (gpr_created_at row)) (from_offset_datetime (gpr_updated_at row)))))
  end.

Definition pg_upsert_relay_compatibility (r : RelayCompatibilityRecord) : sql unit :=
  checked_at ← lift (to_offset_datetime (rcr_checked_at r));
  try_statement "invalid input syntax for type json" (λ t,
    report ← jsonb_in (rcr_report_json r);
    Some (tt, put_compatibility t (<[rcr_relay_url r :=
      mkCompatibilityRow (rcr_compatible r) (rcr_supported_capabilities r) (rcr_missing_required r)
        (rcr_missing_optional r) report checked_at (rcr_nip11_url r) (rcr_nip11_available r)
        (rcr_active_probe_ok r) (rcr_active_probe_error r)]> (t_compatibility t)))).

Definition pg_relay_compatibility (relay_url : string) : sql (option RelayCompatibilityRecord) :=
  row ← statement (λ t, (t_compatibility t !! relay_url, t));
  lift (Ok ((λ row, mkRelayCompatibilityRecord relay_url (cor_compatible row) (cor_supported row)
    (cor_missing_required row) (cor_missing_optional row) (jsonb_out (cor_report row))
    (cor_nip11_url row) (cor_nip11_available row) (cor_active_probe_ok row)
    (cor_active_probe_error row) (from_offset_datetime (cor_checked_at row))) <$> row)).

Definition pg_upsert_tenant (r : RelayTenantRecord) : sql unit :=
  try_statement "duplicate key value violates unique constraint" (λ t,
    if clashes tn_host (tn_id r) (tn_host r) (t_tenants t) then None
    else Some (tt, put_tenants t (<[tn_id r := r]> (t_tenants t)))).

Definition pg_tenant_by_id (tenant_id : string) : sql (option RelayTenantRecord) :=
  statement (λ t, (t_tenants t !! tenant_id, t)).

Definition pg_tenant_by_host (host : string) : sql (option RelayTenantRecord) :=
  statement (λ t, (head (List.filter (λ r, tn_host r == host)
                           (row_iter (map_to_list (t_tenants t)).*2)), t)).

Definition host_le (a b : RelayTenantRecord) : Prop := String.le (tn_host a) (tn_host b).
#[export] Instance host_le_dec : RelDecision host_le.
Proof. intros a b. unfold host_le. apply _. Defined.

Definition pg_list_tenants : sql (list RelayTenantRecord) :=
  statement (λ t, (merge_sort host_le (row_iter (map_to_list (t_tenants t)).*2), t)).

#[export] Instance Postgres_announcements : AnnouncementRepository (Database RepoTables) := {|
  insert_announcement := pg_insert_announcement;
  list_announcements := pg_list_announcements;
  latest_announcement := pg_latest_announcement
|}.
#[export] Instance Postgres_states : StateRepository (Database RepoTables) := {|
  insert_state := pg_insert_state; repo_latest_state := pg_latest_state
|}.
#[export] Instance Postgres_mappings : RepoMappingRepository (Database RepoTables) := {|
  upsert_mapping := pg_upsert_mapping; mapping_by_forgejo := pg_mapping_by_forgejo;
  mapping_by_repo := pg_mapping_by_repo; list_mappings := pg_list_mappings
|}.
#[export] Instance Postgres_accounts : AccountRepository (Database RepoTables) := {|
  upsert_account := pg_upsert_account; account_by_pubkey := pg_account_by_pubkey;
  account_by_username := pg_account_by_username
|}.
#[export] Instance Postgres_profiles : ProfileRepository (Database RepoTables) := {|
  upsert_profile := pg_upsert_profile; profile_by_pubkey := pg_profile_by_pubkey
|}.
#[export] Instance Postgres_compatibility : RelayCompatibilityRepository (Database RepoTables) := {|
  upsert_relay_compatibility := pg_upsert_relay_compatibility;
  relay_compatibility := pg_relay_compatibility
|}.
#[export] Instance Postgres_tenants : RelayTenantRepository (Database RepoTables) := {|
  upsert_tenant := pg_upsert_tenant; tenant_by_id := pg_tenant_by_id;
  tenant_by_host := pg_tenant_by_host; list_tenants := pg_list_tenants
|}.
End Queries.
End Tables.

(** ** What the services rely on *)

(** [o] is a record of [l] with the greatest time. *)
Definition latest_of {A} (time : A → Z) (l : list A) (o : option A) : Prop :=
  match o with
  | None => l = []
  | Some r => r ∈ l ∧ ∀ r', r' ∈ l → (time r' ≤ time r)%Z
  end.

Definition ann_of (pubkey : bytes) (identifier : string) (r : RepoAnnouncementRecord) : bool :=
  (ra_rec_pubkey r == pubkey) && (ra_rec_identifier r == identifier).
Definition state_of (pubkey : bytes) (identifier : string) (r : RepoStateRecord) : bool :=
  (rs_pubkey r == pubkey) && (rs_identifier r == identifier).

(** A repository of announcements keeps those that were inserted. *)
Class AnnouncementLaws (R : Type) `{AnnouncementRepository R} := {
  ann_holds : R → list RepoAnnouncementRecord → Prop;
  insert_announcement_spec : ∀ r, realises ann_holds (insert_announcement r) (λ l, (tt, l ++ [r]));
  list_announcements_spec : ∀ p i, answers ann_holds (list_announcements p i)
    (λ l rs, rs ≡ₚ List.filter (ann_of p i) l);
  latest_announcement_spec : ∀ p i, answers ann_holds (latest_announcement p i)
    (λ l o, latest_of ra_created_at (List.filter (ann_of p i) l) o)
}.

(** [r'] is [r], its JSON perhaps in another spelling that reads the same. *)
Definition same_state `{RecordCodec} (r r' : RepoStateRecord) : Prop :=
  rs_event_id r = rs_event_id r' ∧ rs_pubkey r = rs_pubkey r' ∧ rs_identifier r = rs_identifier r' ∧
  rs_created_at r = rs_created_at r' ∧ ∀ m, state_map r = Ok m → state_map r' = Ok m.

Class StateLaws (R : Type) `{StateRepository R} `{RecordCodec} := {
  state_holds : R → list RepoStateRecord → Prop;
  insert_state_spec : ∀ r, realises state_holds (insert_state r) (λ l, (tt, l ++ [r]));
  latest_state_spec : ∀ p i, answers state_holds (repo_latest_state p i)
    (λ l o, ∃ o', latest_of rs_created_at (List.filter (state_of p i) l) o' ∧
      option_Forall2 same_state o' o)
}.

(** ** Lemmas on times *)

Lemma latest_of_head {A} (time : A → Z) (before : relation A) l :
  StronglySorted before l → (∀ a b, before a b → (time b ≤ time a)%Z) →
  latest_of time l (head l).
Proof.
  intros Hs Hb. destruct l as [|x l]; simpl; [done|]. split; [left|].
  intros r [->|Hin]%elem_of_cons; [lia|]. inversion Hs as [|? ? _ Hx]; subst.
  rewrite Forall_forall in Hx. auto.
Qed.

Lemma latest_of_last {A} (time : A → Z) l :
  StronglySorted (time_le time) l → latest_of time l (last l).
Proof.
  intros Hs. induction Hs as [|x l Hs IH Hx]; [done|]. destruct l as [|y l].
  - simpl. split; [left|]. intros r ->%list_elem_of_singleton. lia.
  - rewrite last_cons_cons. destruct (last (y :: l)) as [r|] eqn:E; [|by apply last_None in E].
    destruct IH as [Hin Hmax]. split; [by right|]. intros r' [->|Hr']%elem_of_cons; [|auto].
    rewrite Forall_forall in Hx. by apply Hx.
Qed.

Lemma latest_of_perm {A} (time : A → Z) l l' o : l ≡ₚ l' → latest_of time l o → latest_of time l' o.
Proof.
  intros Hp. destruct o as [r|]; simpl.
  - intros [Hin Hmax]. rewrite Hp in Hin. split; [done|]. intros r' Hr'. apply Hmax. by rewrite Hp.
  - intros ->. by apply Permutation_nil.
Qed.

Lemma latest_of_fmap {A B} (f : A → B) (time : A → Z) (time' : B → Z) l o :
  (∀ a, time' (f a) = time a) → latest_of time l o → latest_of time' (f <$> l) (f <$> o).
Proof.
  intros Ht. destruct o as [r|]; simpl.
  - intros [Hin Hmax]. split; [by apply list_elem_of_fmap_2|].
    intros r' (a & -> & Ha)%list_elem_of_fmap. rewrite !Ht. auto.
  - by intros ->.
Qed.

#[export] Instance time_le_total {A} (time : A → Z) : Total (time_le time).
Proof. intros a b. unfold time_le. lia. Qed.
#[export] Instance time_le_trans {A} (time : A → Z) : Transitive (time_le time).
Proof. intros a b c. unfold time_le. lia. Qed.

Lemma pop_latest_spec {A} (time : A → Z) l : latest_of time l (pop_latest time l).
Proof.
  apply (latest_of_perm time (merge_sort (time_le time) l)); [apply merge_sort_Permutation|].
  apply latest_of_last, StronglySorted_merge_sort; apply _.
Qed.

Lemma filter_permutation {A} (f : A → bool) l l' : l ≡ₚ l' → List.filter f l ≡ₚ List.filter f l'.
Proof.
  induction 1 as [|x l l' _ IH|x y l|l1 l2 l3 _ IH1 _ IH2]; simpl; [done| | |by etrans].
  - by destruct (f x); [constructor|].
  - destruct (f x), (f y); try done. constructor.
Qed.

Lemma filter_fmap {A B} (f : A → B) (p : B → bool) (q : A → bool) l :
  (∀ a, p (f a) = q a) → List.filter p (f <$> l) = f <$> List.filter q l.
Proof.
  intros Hpq. induction l as [|x l IH]; [done|]. rewrite fmap_cons. cbn [List.filter].
  rewrite Hpq, IH. by destruct (q x).
Qed.

(** ** The database *)

Section Database.
Context `{TimeLaws} `{JsonbLib} `{RowOrder}.

#[export] Instance newest_first_total {A} (time : A → OffsetDateTime) : Total (newest_first time).
Proof. intros a b. unfold newest_first. lia. Qed.
#[export] Instance newest_first_trans {A} (time : A → OffsetDateTime) : Transitive (newest_first time).
Proof. intros a b c. unfold newest_first. lia. Qed.

(** The rows that are selected, newest first, from rows that decode to [l]. *)
Lemma select_latest {A B} (f : A → B) (time : B → Z) (at_ : A → OffsetDateTime) (p : B → bool) q rows :
  (∀ a, time (f a) = unix_timestamp (at_ a)) → (∀ a, p (f a) = q a) →
  let selected := merge_sort (newest_first at_) (List.filter q (row_iter rows)) in
  f <$> selected ≡ₚ List.filter p (f <$> rows) ∧
  latest_of time (List.filter p (f <$> rows)) (f <$> head selected).
Proof.
  intros Ht Hp selected.
  assert (f <$> selected ≡ₚ List.filter p (f <$> rows)) as Hperm.
  { unfold selected. rewrite merge_sort_Permutation, (filter_fmap f p q) by done.
    by rewrite (filter_permutation q _ _ (row_iter_perm rows)). }
  split; [done|]. eapply latest_of_perm; [exact Hperm|].
  apply (latest_of_fmap f (λ a, unix_timestamp (at_ a))); [done|].
  eapply latest_of_head; [apply StronglySorted_merge_sort; apply _|]. done.
Qed.

Definition ann_rep (t : RepoTables) (l : list RepoAnnouncementRecord) : Prop :=
  announcement_from_row <$> t_announcements t = l.

#[export] Instance Postgres_announcement_laws : AnnouncementLaws (Database RepoTables).
Proof.
  refine {| ann_holds := db_holds ann_rep |}.
  - intros r. apply realises_lift. intros at_ Hat. apply realises_try.
    intros t l a t' Hr Hf. destruct (existsb _ _); [done|]. injection Hf as <- <-. split; [done|].
    unfold ann_rep in *. simpl. rewrite fmap_app, Hr. simpl. unfold announcement_from_row at 1. simpl.
    rewrite (offset_datetime_roundtrip _ _ Hat). by destruct r.
  - intros p i. apply (answers_query ann_rep (select_announcements p i)).
    intros t l b <- [= <-]. by apply (select_latest announcement_from_row ra_created_at anr_created_at).
  - intros p i. apply (answers_query ann_rep (λ t, head (select_announcements p i t))).
    intros t l b <- [= <-]. by apply (select_latest announcement_from_row ra_created_at anr_created_at).
Defined.

(** While no statement fails, the latest announcement is read. *)
Lemma pg_latest_reliable p i (db : Database RepoTables) :
  reliable db → ∃ o db', latest_announcement p i db = (Ok o, db') ∧ reliable db'.
Proof.
  intros Hr. cbn. unfold pg_latest_announcement, mbind, stateful_bind, statement, lift. rewrite Hr. by do 2 eexists.
Qed.

(** A row that decodes to the record, up to the spelling of its JSON. *)
Definition state_rep `{RecordCodec} (t : RepoTables) (l : list RepoStateRecord) : Prop :=
  Forall2 same_state l (state_from_row <$> t_states t).

Section States.
Context `{RecordCodec}.
(** [jsonb] keeps what the text says. *)
Class JsonbLaws : Prop := {
  jsonb_state_map : ∀ s j m, jsonb_in s = Some j → state_map_from_json s = Ok m →
    state_map_from_json (jsonb_out j) = Ok m
}.
Context `{!JsonbLaws}.

#[export] Instance same_state_refl : Reflexive same_state.
Proof. intros r. by repeat split. Qed.

Lemma same_state_of p i r r' : same_state r r' → state_of p i r' = state_of p i r.
Proof. unfold state_of. by intros (_ & -> & -> & _). Qed.

Lemma inserted_state_same r at_ j :
  to_offset_datetime (rs_created_at r) = Ok at_ → jsonb_in (rs_state_json r) = Some j →
  same_state r (state_from_row (mkStateRow (rs_event_id r) (rs_pubkey r) (rs_identifier r) at_ j)).
Proof.
  intros Hat Hj. unfold same_state, state_from_row. simpl.
  rewrite (offset_datetime_roundtrip _ _ Hat). repeat split; auto. intros m. unfold state_map. simpl.
  destruct (state_map_from_json (rs_state_json r)) as [m'|] eqn:E; [|done]. intros [= <-].
  by rewrite (jsonb_state_map _ _ _ Hj E).
Qed.

Lemma latest_of_same l l' o : Forall2 same_state l l' → latest_of rs_created_at l' o →
  ∃ o', latest_of rs_created_at l o' ∧ option_Forall2 same_state o' o.
Proof.
  intros Hl. destruct o as [r|]; simpl.
  - intros [(k & Hk)%list_elem_of_lookup Hmax].
    destruct (Forall2_lookup_r _ _ _ _ _ Hl Hk) as (r' & Hk' & Hs). exists (Some r'). split; [|by constructor].
    split; [by eapply list_elem_of_lookup_2|]. intros r0 (k0 & Hk0)%list_elem_of_lookup.
    destruct (Forall2_lookup_l _ _ _ _ _ Hl Hk0) as (r1 & Hk1 & Hs1).
    destruct Hs as (_ & _ & _ & -> & _), Hs1 as (_ & _ & _ & -> & _).
    apply Hmax. by eapply list_elem_of_lookup_2.
  - intros ->. inversion Hl. exists None. split; [done|constructor].
Qed.

Lemma filter_same p i l l' : Forall2 same_state l l' →
  Forall2 same_state (List.filter (state_of p i) l) (List.filter (state_of p i) l').
Proof.
  induction 1 as [|r r' l l' Hr _ IH]; simpl; [constructor|].
  rewrite (same_state_of p i _ _ Hr). destruct (state_of p i r); [by constructor|done].
Qed.

#[export] Instance Postgres_state_laws : StateLaws (Database RepoTables).
Proof.
  refine {| state_holds := db_holds state_rep |}.
  - intros r. apply realises_lift. intros at_ Hat. apply realises_try.
    intros t l a t' Hr. destruct (jsonb_in _) as [j|] eqn:Hj; simpl; [|done].
    destruct (existsb _ _); [done|]. intros [= <- <-]. split; [done|].
    unfold state_rep. simpl. rewrite fmap_app. apply Forall2_app; [done|].
    repeat constructor; by apply inserted_state_same.
  - intros p i. apply (answers_query state_rep (λ t, head (select_states p i t))).
    intros t l b Hr [= <-]. eapply latest_of_same; [by apply filter_same|].
    by apply (select_latest state_from_row rs_created_at str_created_at).
Defined.
End States.
End Database.

(** ** The in-memory repositories *)

Section Memory.
Context `{HexLaws}.

#[export] Instance repo_key_inj : Inj2 (=) (=) (=) repo_key.
Proof.
  intros p i p' i' Hk. apply (f_equal (split_once ":")) in Hk.
  assert (∀ b, contains_char ":" (hex_encode b) = false) as Hc.
  { intros b. apply (str_all_not_contains is_ascii_hexdigit); [done|]. apply hex_encode_digits. }
  unfold repo_key in Hk. change (":" +:+ i) with (String ":" i) in Hk.
  change (":" +:+ i') with (String ":" i') in Hk. rewrite !split_once_app in Hk by apply Hc.
  injection Hk as Hp ->. split; [|done]. by apply (inj hex_encode).
Qed.

(** A map from the keys of repositories to the records of [l], in order. *)
Definition grouped {A} (pubkey : A → bytes) (identifier : A → string)
    (m : gmap string (list A)) (l : list A) : Prop :=
  ∀ p i, default [] (m !! repo_key p i) =
    List.filter (λ r, (pubkey r == p) && (identifier r == i)) l.

Lemma grouped_push {A} pubkey identifier m l (r : A) :
  grouped pubkey identifier m l →
  grouped pubkey identifier (push_record (repo_key (pubkey r) (identifier r)) r m) (l ++ [r]).
Proof.
  intros Hm p i. rewrite List.filter_app, <-Hm. unfold push_record. cbn [List.filter].
  destruct (decide (repo_key (pubkey r) (identifier r) = repo_key p i)) as [E|E].
  - rewrite E, lookup_insert_eq. apply (inj2 repo_key) in E as [-> ->]. by rewrite !String.eqb_refl.
  - rewrite lookup_insert_ne by done. destruct (_ && _) eqn:Ep; [|by rewrite app_nil_r].
    apply andb_true_iff in Ep as [Hp%String.eqb_eq Hi%String.eqb_eq]. by rewrite Hp, Hi in E.
Qed.

#[export] Instance Memory_announcement_laws : AnnouncementLaws MemoryAnnouncements.
Proof.
  refine {| ann_holds m := grouped ra_rec_pubkey ra_rec_identifier (ma_announcements m) |}.
  - intros r m l res m' Hm [= <- <-]. split; [done|]. by apply grouped_push.
  - intros p i m l res m' Hm [= <- <-]. split; [done|]. intros a [= <-]. by rewrite Hm.
  - intros p i m l res m' Hm [= <- <-]. split; [done|]. intros a [= <-]. rewrite Hm.
    apply pop_latest_spec.
Defined.

(** Reading from memory never fails. *)
Lemma memory_latest_good p i (m : MemoryAnnouncements) :
  True → ∃ o m', latest_announcement p i m = (Ok o, m') ∧ True.
Proof. intros _. by do 2 eexists. Qed.

#[export] Instance Memory_state_laws `{RecordCodec} : StateLaws MemoryStates.
Proof.
  refine {| state_holds m := grouped rs_pubkey rs_identifier (mst_states m) |}.
  - intros r m l res m' Hm [= <- <-]. split; [done|]. by apply grouped_push.
  - intros p i m l res m' Hm [= <- <-]. split; [done|]. intros a [= <-]. rewrite Hm.
    eexists. split; [apply pop_latest_spec|].
    by destruct (pop_latest _ _); constructor.
Defined.
End Memory.
