(* ===== verification/Directory.v ===== *)
(** * [Directory]: what services rely on of accounts, profiles, tenants and mappings

    The laws of [AccountRepository], [ProfileRepository], [RelayTenantRepository] and
    [RepoMappingRepository] that the handlers of the services are verified against, and the implementations
    that meet them: accounts and profiles in memory and in the database, tenants
    and mappings in the database. *)

From S2P Require Import Prelude RustStr CoreTypes Externals HexModel Membership Database.
From S2P Require Import Repositories PostgresRepos.

(** ** The laws *)

(** Accounts are names of keys; no two keys have the same name. *)
Class AccountLaws (R : Type) `{AccountRepository R} := {
  account_holds : R → gmap bytes string → Prop;
  account_unique : ∀ s v p q u, account_holds s v → v !! p = Some u → v !! q = Some u → p = q;
  upsert_account_law : ∀ r, realises account_holds (upsert_account r)
    (λ v, (tt, <[ac_pubkey r := ac_forgejo_username r]> v));
  account_by_pubkey_law : ∀ p, answers account_holds (account_by_pubkey p)
    (λ v o, o = mkAccountRecord p <$> v !! p)
}.

(** Profiles are records of keys; an update keeps the time of creation. *)
Class ProfileLaws (R : Type) `{ProfileRepository R} := {
  profile_holds : R → gmap bytes ProfileRecord → Prop;
  profile_keyed : ∀ s v p r, profile_holds s v → v !! p = Some r → pf_pubkey r = p;
  upsert_profile_law : ∀ r s v res s', profile_holds s v →
    (∀ old, v !! pf_pubkey r = Some old → pf_created_at old = pf_created_at r) →
    upsert_profile r s = (res, s') →
    match res with
    | Ok _ => profile_holds s' (<[pf_pubkey r := r]> v)
    | Err _ => profile_holds s' v ∨ profile_holds s' (<[pf_pubkey r := r]> v)
    end;
  profile_by_pubkey_law : ∀ p, answers profile_holds (profile_by_pubkey p) (λ v o, o = v !! p)
}.

(** Tenants are records of identifiers; no two have the same host. *)
Class TenantLaws (R : Type) `{RelayTenantRepository R} := {
  tenant_holds : R → gmap string RelayTenantRecord → Prop;
  tenant_unique : ∀ s v i j r r', tenant_holds s v → v !! i = Some r → v !! j = Some r' →
    tn_host r = tn_host r' → i = j;
  upsert_tenant_law : ∀ r, realises tenant_holds (upsert_tenant r) (λ v, (tt, <[tn_id r := r]> v));
  tenant_by_host_law : ∀ h, answers tenant_holds (tenant_by_host h)
    (λ v o, match o with
            | Some r => v !! tn_id r = Some r ∧ tn_host r = h
            | None => ∀ i r, v !! i = Some r → tn_host r ≠ h
            end)
}.

(** A mapping is a name at the forge for a repository of a key; no two names are for the same
    repository. *)
Definition mapping_at (v : gmap (string * string) (bytes * string)) (r : RepoMappingRecord) : Prop :=
  v !! (mp_forgejo_owner r, mp_forgejo_repo r) = Some (mp_pubkey r, mp_identifier r).
Class MappingLaws (R : Type) `{RepoMappingRepository R} := {
  mapping_holds : R → gmap (string * string) (bytes * string) → Prop;
  mapping_unique : ∀ s v k k' x, mapping_holds s v → v !! k = Some x → v !! k' = Some x → k = k';
  upsert_mapping_law : ∀ r, realises mapping_holds (upsert_mapping r)
    (λ v, (tt, <[(mp_forgejo_owner r, mp_forgejo_repo r) := (mp_pubkey r, mp_identifier r)]> v));
  mapping_by_repo_law : ∀ p i, answers mapping_holds (mapping_by_repo p i)
    (λ v o, match o with
            | Some r => mapping_at v r ∧ mp_pubkey r = p ∧ mp_identifier r = i
            | None => ∀ k, v !! k ≠ Some (p, i)
            end);
  list_mappings_law : answers mapping_holds list_mappings (λ v l, ∀ r, r ∈ l ↔ mapping_at v r)
}.

(** ** The database *)

Section Database.
Context `{TimeLaws} `{JsonbLib} `{RowOrder}.

Definition accounts_rep (t : RepoTables) (v : gmap bytes string) : Prop :=
  v = acr_forgejo_username <$> t_accounts t ∧
  ∀ p q u, v !! p = Some u → v !! q = Some u → p = q.

#[export] Instance Postgres_account_laws : AccountLaws (Database RepoTables).
Proof.
  refine {| account_holds := db_holds accounts_rep |}.
  - intros s v p q u [_ Hu]. apply Hu.
  - intros r. apply realises_try. intros t v a t' [-> Hu] Hf.
    destruct (clashes _ _ _ _) eqn:Ec; [done|]. injection Hf as <- <-. split; [done|].
    rewrite clashes_false in Ec. unfold accounts_rep. cbn [put_accounts t_accounts fst snd]. split; [by rewrite fmap_insert|].
    intros p q u. rewrite !lookup_insert. repeat case_decide; subst; try done.
    + intros [= <-] (x & Ex & Hx)%lookup_fmap_Some. symmetry. by eapply Ec.
    + intros (x & Ex & Hx)%lookup_fmap_Some [= Hq]. eapply Ec; [done|]. congruence.
    + apply Hu.
  - intros p. eapply (answers_query accounts_rep (λ t, t_accounts t !! p)).
    intros t v b [-> _] [= <-]. rewrite lookup_fmap. by destruct (t_accounts t !! p).
Defined.

Definition decode_profile (p : bytes) (row : GittreeProfileRow) : option ProfileRecord :=
  visibility ← ok (ProfileVisibility_parse (gpr_visibility row));
  Some (mkProfileRecord p (gpr_display_name row) (gpr_bio row) (gpr_avatar_url row) (gpr_website_url row)
    (gpr_location row) visibility (from_offset_datetime (gpr_created_at row))
    (from_offset_datetime (gpr_updated_at row))).

Definition profiles_rep (t : RepoTables) : gmap bytes ProfileRecord → Prop :=
  table_rep decode_profile (t_profiles t).

Lemma visibility_roundtrip v : ProfileVisibility_parse (ProfileVisibility_as_str v) = Ok v.
Proof. by destruct v. Qed.

Lemma pg_upsert_profile_written r t v t' c u :
  to_offset_datetime (pf_created_at r) = Ok c → to_offset_datetime (pf_updated_at r) = Ok u →
  profiles_rep t v → (∀ old, v !! pf_pubkey r = Some old → pf_created_at old = pf_created_at r) →
  (if bool_decide (unix_timestamp u < unix_timestamp (match t_profiles t !! pf_pubkey r with
      Some row => gpr_created_at row | None => c end))%Z then None
   else Some (tt, put_profiles t (<[pf_pubkey r := mkGittreeProfileRow (pf_display_name r) (pf_bio r)
      (pf_avatar_url r) (pf_website_url r) (pf_location r) (ProfileVisibility_as_str (pf_visibility r))
      (match t_profiles t !! pf_pubkey r with Some row => gpr_created_at row | None => c end) u]>
      (t_profiles t)))) = Some (tt, t') →
  profiles_rep t' (<[pf_pubkey r := r]> v).
Proof.
  intros Hc Hu Hr Hold. case_bool_decide; [done|]. intros [= <-].
  apply table_rep_insert; [done|]. unfold decode_profile. simpl. rewrite visibility_roundtrip. simpl.
  rewrite (offset_datetime_roundtrip _ _ Hu).
  assert (from_offset_datetime (match t_profiles t !! pf_pubkey r with
    Some row => gpr_created_at row | None => c end) = pf_created_at r) as ->; [|by destruct r].
  specialize (Hr (pf_pubkey r)). destruct (t_profiles t !! pf_pubkey r) as [row|].
  - destruct Hr as (old & Hd & Hv). rewrite <-(Hold _ Hv). unfold decode_profile in Hd.
    destruct (ProfileVisibility_parse _); simpl in Hd; by simplify_eq.
  - by apply offset_datetime_roundtrip.
Qed.

#[export] Instance Postgres_profile_laws : ProfileLaws (Database RepoTables).
Proof.
  refine {| profile_holds := db_holds profiles_rep |}.
  - intros s v p r Hs Hp. pose proof (table_rep_lookup _ _ _ p Hs) as E. rewrite Hp in E.
    destruct (t_profiles _ !! p) as [row|]; [|done]. simpl in E. unfold decode_profile in E.
    destruct (ProfileVisibility_parse _); simpl in E; by simplify_eq.
  - intros r s v res s' Hs Hold. unfold upsert_profile, Postgres_profiles, pg_upsert_profile, mbind, stateful_bind, lift.
    destruct (to_offset_datetime (pf_created_at r)) as [c|] eqn:Hc; [|intros [= <- <-]; by left].
    destruct (to_offset_datetime (pf_updated_at r)) as [u|] eqn:Hu; [|intros [= <- <-]; by left].
    unfold try_statement, statement. cbv zeta. unfold db_holds in *.
    pose proof (pg_upsert_profile_written r (db_tables s) v) as Hw.
    match goal with |- context [match ?x with Some _ => _ | None => (Err _, mkDatabase _ _) end] => destruct x as [[[] t']|] eqn:E end;
      [|intros [= <- <-]; by left].
    specialize (Hw t' c u Hc Hu Hs Hold E).
    destruct (db_outcomes s) as [|[|source []] os]; intros [= <- <-]; simpl; auto.
  - intros p s v r s' Hs. unfold profile_by_pubkey, Postgres_profiles, pg_profile_by_pubkey, mbind, stateful_bind, statement.
    pose proof (table_rep_lookup _ _ _ p Hs) as Hp. unfold db_holds in *.
    destruct (db_outcomes s) as [|[|source []] os]; simpl; try (intros [= <- <-]; by split);
      (destruct (t_profiles (db_tables s) !! p) as [row|]; simpl in *;
       [unfold decode_profile, lift in *; destruct (ProfileVisibility_parse _) as [vis|]; simpl in *|]);
      intros [= <- <-]; (split; [done|]); intros ? [= <-]; by rewrite ?Hp.
Defined.

Definition mappings_rep (t : RepoTables) (v : gmap (string * string) (bytes * string)) : Prop :=
  v = t_mappings t ∧ ∀ k k' x, v !! k = Some x → v !! k' = Some x → k = k'.

Lemma mapping_row_at v k x r : mapping_from_row k x = r → v !! k = Some x → mapping_at v r.
Proof. intros <-. by destruct k, x. Qed.

#[export] Instance Postgres_mapping_laws : MappingLaws (Database RepoTables).
Proof.
  refine {| mapping_holds := db_holds mappings_rep |}.
  - intros s v k k' x [_ Hu]. apply Hu.
  - intros r. apply realises_try. intros t v a t' [-> Hu] Hf.
    destruct (clashes _ _ _ _) eqn:Ec; [done|]. injection Hf as <- <-. split; [done|].
    rewrite clashes_false in Ec. unfold mappings_rep. cbn [put_mappings t_mappings fst snd]. split; [done|].
    intros k k' x. rewrite !lookup_insert. repeat case_decide; subst; try done.
    + intros [= <-] Hk. symmetry. by eapply Ec.
    + intros Hk [= <-]. by eapply Ec.
    + apply Hu.
  - intros p i. eapply (answers_query mappings_rep (λ t, head (List.filter (λ '(_, row), (row.1 == p) && (row.2 == i))
      (row_iter (map_to_list (t_mappings t)))))).
    intros t v b [-> _] [= <-]. destruct (head _) as [[k x]|] eqn:Eh; simpl.
    + apply head_Some_elem_of, list_elem_of_In, filter_In in Eh as [Hin%list_elem_of_In Hx].
      rewrite row_iter_perm in Hin. apply elem_of_map_to_list in Hin. apply andb_true_iff in Hx as [->%String.eqb_eq ->%String.eqb_eq].
      split; [by eapply mapping_row_at|done].
    + apply head_None in Eh. intros k Hk.
      assert ((k, (p, i)) ∈ List.filter (λ '(_, row), (row.1 == p) && (row.2 == i)) (row_iter (map_to_list (t_mappings t)))) as Hin.
      { apply list_elem_of_In, filter_In. split; [|by rewrite !String.eqb_refl].
        apply list_elem_of_In. rewrite row_iter_perm. by apply elem_of_map_to_list. }
      rewrite Eh in Hin. by apply not_elem_of_nil in Hin.
  - eapply (answers_query mappings_rep (λ t, merge_sort owner_le (row_iter (map_to_list (t_mappings t))))).
    intros t v b [-> _] [= <-] r. rewrite list_elem_of_fmap. split.
    + intros ([k x] & -> & Hin). rewrite merge_sort_Permutation, row_iter_perm in Hin. apply elem_of_map_to_list in Hin.
      by eapply mapping_row_at.
    + intros Hr. exists ((mp_forgejo_owner r, mp_forgejo_repo r), (mp_pubkey r, mp_identifier r)). split; [by destruct r|].
      rewrite merge_sort_Permutation, row_iter_perm. by apply elem_of_map_to_list.
Defined.

Definition tenants_rep (t : RepoTables) (v : gmap string RelayTenantRecord) : Prop :=
  v = t_tenants t ∧ (∀ i r, v !! i = Some r → tn_id r = i) ∧
  ∀ i j r r', v !! i = Some r → v !! j = Some r' → tn_host r = tn_host r' → i = j.

#[export] Instance Postgres_tenant_laws : TenantLaws (Database RepoTables).
Proof.
  refine {| tenant_holds := db_holds tenants_rep |}.
  - intros s v i j r r' (_ & _ & Hu). apply Hu.
  - intros r. apply realises_try. intros t v a t' (-> & Hid & Hu) Hf.
    destruct (clashes _ _ _ _) eqn:Ec; [done|]. injection Hf as <- <-. split; [done|].
    rewrite clashes_false in Ec. unfold tenants_rep. cbn [put_tenants t_tenants fst snd]. split; [done|]. split.
    + intros i r'. rewrite lookup_insert. case_decide; [intros [= <-]; done|apply Hid].
    + intros i j ri rj. rewrite !lookup_insert. repeat case_decide; subst; try done.
      * intros [= <-] Hj Eh. symmetry. by eapply Ec.
      * intros Hi [= <-] Eh. by eapply Ec.
      * apply Hu.
  - intros h. apply answers_read. intros t v (-> & Hid & Hu).
    destruct (head _) as [r|] eqn:Eh.
    + apply head_Some_elem_of, list_elem_of_In, filter_In in Eh as [Hin%list_elem_of_In Hh%String.eqb_eq].
      rewrite row_iter_perm in Hin. apply list_elem_of_fmap in Hin as ([i x] & -> & Hx%elem_of_map_to_list).
      simpl in *. split; [|done]. by rewrite (Hid _ _ Hx).
    + apply head_None in Eh. intros i r Hr Hh.
      assert (r ∈ List.filter (λ r, tn_host r == h) (row_iter (map_to_list (t_tenants t)).*2)) as Hin.
      { apply list_elem_of_In, filter_In. split; [|by apply String.eqb_eq]. apply list_elem_of_In.
        rewrite row_iter_perm. apply list_elem_of_fmap. exists (i, r). split; [done|]. by apply elem_of_map_to_list. }
      rewrite Eh in Hin. by apply not_elem_of_nil in Hin.
Defined.
End Database.

(** ** In memory *)

Section Memory.
Context `{HexLaws} `{HashOrder}.

#[export] Instance account_key_inj : Inj (=) (=) account_key.
Proof. intros p q. apply (inj hex_encode). Qed.

Record memory_accounts (m : MemoryAccounts) (v : gmap bytes string) : Prop := {
  ma_pubkeys : ∀ p, mac_by_pubkey m !! account_key p = mkAccountRecord p <$> v !! p;
  ma_usernames : ∀ u r, mac_by_username m !! u = Some r → ac_forgejo_username r = u ∧ v !! ac_pubkey r = Some u;
  ma_named : ∀ p u, v !! p = Some u → mac_by_username m !! u = Some (mkAccountRecord p u)
}.

Lemma upsert_account_mem_spec r m v :
  memory_accounts m v →
  match upsert_account_mem r m with
  | (Ok _, m') => memory_accounts m' (<[ac_pubkey r := ac_forgejo_username r]> v)
  | (Err _, m') => memory_accounts m' v
  end.
Proof.
  intros [Hp Hu Hn]. unfold upsert_account_mem.
  destruct (match mac_by_username m !! ac_forgejo_username r with
            | Some e => negb (ac_pubkey e == ac_pubkey r) | None => false end) eqn:Et; [done|].
  assert (∀ p, v !! p = Some (ac_forgejo_username r) → p = ac_pubkey r) as Hfree.
  { intros p Hv. rewrite (Hn _ _ Hv) in Et. by apply negb_false_iff, String.eqb_eq in Et. }
  assert (∀ u x, (match mac_by_pubkey m !! account_key (ac_pubkey r) with
      | Some e => if negb (ac_forgejo_username e == ac_forgejo_username r)
                  then delete (ac_forgejo_username e) (mac_by_username m) else mac_by_username m
      | None => mac_by_username m end) !! u = Some x ↔
    mac_by_username m !! u = Some x ∧ (u = ac_forgejo_username r ∨ ac_pubkey x ≠ ac_pubkey r)) as Hrest.
  { intros u x. rewrite Hp. destruct (v !! ac_pubkey r) as [old|] eqn:Ev; simpl.
    - destruct (String.eqb_spec old (ac_forgejo_username r)) as [->|Hne]; simpl.
      + split; [|tauto]. intros Hx. split; [done|]. destruct (Hu _ _ Hx) as [<- Hv].
        destruct (decide (ac_pubkey x = ac_pubkey r)) as [E|]; [|tauto]. rewrite E, Ev in Hv. left. congruence.
      + rewrite lookup_delete_Some. split.
        * intros [Ho Hx]. split; [done|]. right. intros E. destruct (Hu _ _ Hx) as [_ Hv]. congruence.
        * intros [Hx Ho]. split; [|done]. intros <-. destruct (Hu _ _ Hx) as [_ Hv].
          rewrite (Hn _ _ Ev) in Hx. injection Hx as <-. simpl in *. destruct Ho; congruence.
    - split; [|tauto]. intros Hx. split; [done|]. right. intros E. destruct (Hu _ _ Hx) as [_ Hv]. congruence. }
  split; simpl.
  - intros p. rewrite !lookup_insert. repeat case_decide; simplify_eq; [by destruct r|apply Hp].
  - intros u x. rewrite lookup_insert. case_decide as Eu; [intros [= <-]; subst; by rewrite lookup_insert_eq|].
    intros [Hx Ho]%Hrest. destruct (Hu _ _ Hx) as [? Hv]. split; [done|].
    rewrite lookup_insert_ne; [done|]. destruct Ho; congruence.
  - intros p u. rewrite !lookup_insert. case_decide as Ep; [intros [= <-]; subst; rewrite decide_True by done; by destruct r|].
    intros Hv. case_decide as Eu; [subst; by apply Hfree in Hv|]. apply Hrest. simpl.
    split; [by apply Hn|]. right. congruence.
Qed.

#[export] Instance Memory_account_laws : AccountLaws MemoryAccounts.
Proof.
  refine {| account_holds := memory_accounts |}.
  - intros m v p q u [_ _ Hn] Hp Hq. apply Hn in Hp, Hq. congruence.
  - intros r m v res m' Hm E. pose proof (upsert_account_mem_spec r m v Hm) as Hs.
    change (upsert_account r) with (upsert_account_mem r) in E. rewrite E in Hs. destruct res as [[]|]; auto.
  - intros p m v res m' Hm [= <- <-]. split; [done|]. intros ? [= <-]. apply Hm.
Defined.

#[export] Instance Memory_profile_laws : ProfileLaws MemoryProfiles.
Proof.
  refine {| profile_holds m v := ∀ p, mpr_profiles m !! profile_key p = v !! p ∧
              ∀ r, v !! p = Some r → pf_pubkey r = p |}.
  - intros m v p r Hm. apply Hm.
  - intros r m v res m' Hm _ [= <- <-] p. simpl. unfold profile_key. rewrite !lookup_insert.
    repeat case_decide; simplify_eq; [|apply Hm]. split; [done|]. by intros ? [= <-].
  - intros p m v res m' Hm [= <- <-]. split; [done|]. intros ? [= <-]. apply Hm.
Defined.
End Memory.
