(* ===== verification/Cache.v ===== *)
(** * [Cache]: repositories with a cache in front

    Models [crates/storage/src/cache.rs]: [CachedRepositories] keeps, for a
    repository of announcements, states and relay compatibility, what it last
    read or wrote, for a time to live and up to a number of entries.  The maps
    are behind locks that a panic poisons; the clock advances between any two
    readings.  The calls of one history follow one another. *)

From S2P Require Import Prelude RustStr CoreTypes Externals HexModel Nip34Common Nip34Repo RelayCompat.
From S2P Require Import Membership Database Repositories PostgresRepos.

(** Durations and instants in nanoseconds. *)
Record CacheConfig := mkCacheConfig { cc_ttl : option N; cc_max_entries : nat }.
Definition CacheConfig_disabled : CacheConfig := mkCacheConfig None 0.
Definition CacheConfig_default : CacheConfig := mkCacheConfig (Some 30000000000%N) 1024.

Record CacheEntry (T : Type) := mkCacheEntry { ce_value : T; ce_stored_at : N }.
Arguments mkCacheEntry {T} _ _.
Arguments ce_value {T} _.
Arguments ce_stored_at {T} _.

(** [RwLock<HashMap<String, CacheEntry<T>>>] *)
Record LockedMap (T : Type) := mkLockedMap {
  lm_poisoned : bool;
  lm_map : gmap string (CacheEntry T)
}.
Arguments mkLockedMap {T} _ _.
Arguments lm_poisoned {T} _.
Arguments lm_map {T} _.

Record CacheStore := mkCacheStore {
  cs_announcements : LockedMap (list RepoAnnouncementRecord);
  cs_latest_announcements : LockedMap RepoAnnouncementRecord;
  cs_latest_states : LockedMap RepoStateRecord;
  cs_relay_compatibility : LockedMap RelayCompatibilityRecord
}.
Definition CacheStore_default : CacheStore :=
  mkCacheStore (mkLockedMap false ∅) (mkLockedMap false ∅) (mkLockedMap false ∅) (mkLockedMap false ∅).

(** The clock: the instant of the last reading and what passes before the next ones. *)
Record Clock := mkClock { ck_now : N; ck_ticks : list N }.

Record CachedRepositories (R : Type) := mkCachedRepositories {
  cr_inner : R;
  cr_cache : CacheStore;
  cr_config : CacheConfig;
  cr_clock : Clock
}.
Arguments mkCachedRepositories {R} _ _ _ _.
Arguments cr_inner {R} _.
Arguments cr_cache {R} _.
Arguments cr_config {R} _.
Arguments cr_clock {R} _.

Definition CachedRepositories_with_config {R} (inner : R) (config : CacheConfig) (clock : Clock)
    : CachedRepositories R :=
  mkCachedRepositories inner CacheStore_default config clock.

(** One of the maps of the store, with the message of its poisoned lock. *)
Record CacheField (T : Type) := mkCacheField {
  cf_get : CacheStore → LockedMap T;
  cf_put : LockedMap T → CacheStore → CacheStore;
  cf_message : string
}.
Arguments mkCacheField {T} _ _ _.
Arguments cf_get {T} _ _.
Arguments cf_put {T} _ _ _.
Arguments cf_message {T} _.

Definition f_announcements : CacheField (list RepoAnnouncementRecord) := mkCacheField cs_announcements
  (λ x s, mkCacheStore x (cs_latest_announcements s) (cs_latest_states s) (cs_relay_compatibility s))
  "announcement cache poisoned".
Definition f_latest_announcements : CacheField RepoAnnouncementRecord := mkCacheField cs_latest_announcements
  (λ x s, mkCacheStore (cs_announcements s) x (cs_latest_states s) (cs_relay_compatibility s))
  "announcement cache poisoned".
Definition f_latest_states : CacheField RepoStateRecord := mkCacheField cs_latest_states
  (λ x s, mkCacheStore (cs_announcements s) (cs_latest_announcements s) x (cs_relay_compatibility s))
  "state cache poisoned".
Definition f_relay_compatibility : CacheField RelayCompatibilityRecord := mkCacheField cs_relay_compatibility
  (λ x s, mkCacheStore (cs_announcements s) (cs_latest_announcements s) (cs_latest_states s) x)
  "relay compatibility cache poisoned".

(** [Iterator::min_by_key]: the first of the least. *)
Fixpoint min_by_key {A} (key : A → N) (l : list A) : option A :=
  match l with
  | [] => None
  | x :: l =>
      match min_by_key key l with
      | Some y => Some (if (key y <? key x)%N then y else x)
      | None => Some x
      end
  end.

(** [Iterator::max_by_key]: the last of the greatest. *)
Fixpoint max_by_key {A} (key : A → Z) (l : list A) : option A :=
  match l with
  | [] => None
  | x :: l =>
      match max_by_key key l with
      | Some y => Some (if (key x <=? key y)%Z then y else x)
      | None => Some x
      end
  end.

Section Cached.
Context {R : Type} `{HexLib} `{HashOrder}.

Abbreviation cached := (stateful (CachedRepositories R) StorageError).

Definition on_inner {A} (c : stateful R StorageError A) : cached A := λ s,
  let '(r, inner) := c (cr_inner s) in
  (r, mkCachedRepositories inner (cr_cache s) (cr_config s) (cr_clock s)).

Definition instant_now : cached N := λ s,
  let now := (ck_now (cr_clock s) + default 0 (head (ck_ticks (cr_clock s))))%N in
  (Ok now, mkCachedRepositories (cr_inner s) (cr_cache s) (cr_config s)
             (mkClock now (tail (ck_ticks (cr_clock s))))).

Definition cache_key (pubkey : bytes) (identifier : string) : string :=
  hex_encode pubkey +:+ ":" +:+ identifier.

Definition cache_enabled (config : CacheConfig) : bool := 0 <? cc_max_entries config.

Definition is_fresh {T} (entry : CacheEntry T) : cached bool := λ s,
  match cc_ttl (cr_config s) with
  | Some ttl => (now ← instant_now; mret ((now - ce_stored_at entry <? ttl)%N)) s
  | None => (Ok true, s)
  end.

(** [while map.len() > max_entries { … }]: a round removes an entry. *)
Fixpoint evict_loop {T} (fuel max_entries : nat) (map : gmap string (CacheEntry T))
    : gmap string (CacheEntry T) :=
  match fuel with
  | 0 => map
  | S fuel =>
      if max_entries <? size map then
        match min_by_key (λ e, ce_stored_at e.2) (hash_iter map) with
        | Some oldest => evict_loop fuel max_entries (delete oldest.1 map)
        | None => map
        end
      else map
  end.

Definition evict_if_needed {T} (config : CacheConfig) (map : gmap string (CacheEntry T))
    : gmap string (CacheEntry T) :=
  if cc_max_entries config =? 0 then ∅
  else evict_loop (size map) (cc_max_entries config) map.

Definition cache_read {T} (f : CacheField T) : cached (gmap string (CacheEntry T)) := λ s,
  let l := cf_get f (cr_cache s) in
  (if lm_poisoned l then Err (StInternal (cf_message f)) else Ok (lm_map l), s).

(** Writing a map through its lock. *)
Definition cache_write {T} (f : CacheField T)
    (change : gmap string (CacheEntry T) → gmap string (CacheEntry T)) : cached unit := λ s,
  let l := cf_get f (cr_cache s) in
  if lm_poisoned l then (Err (StInternal (cf_message f)), s)
  else (Ok tt, mkCachedRepositories (cr_inner s)
                 (cf_put f (mkLockedMap false (change (lm_map l))) (cr_cache s))
                 (cr_config s) (cr_clock s)).

Definition get_config : cached CacheConfig := λ s, (Ok (cr_config s), s).

(** Storing an entry and making room for it. *)
Definition cache_store {T} (f : CacheField T) (key : string) (value : T) (now : N) : cached unit :=
  config ← get_config;
  cache_write f (λ map, evict_if_needed config (<[key := mkCacheEntry value now]> map)).

(** The entry under a key while it is fresh; a stale one is removed. *)
Definition cache_lookup {T} (f : CacheField T) (key : string) : cached (option T) :=
  map ← cache_read f;
  match map !! key with
  | None => mret None
  | Some entry =>
      fresh ← is_fresh entry;
      if fresh : bool then mret (Some (ce_value entry))
      else (_ ← cache_write f (delete key); mret None)
  end.

(** A read of one record that is cached when there is one. *)
Definition cached_read {T} (f : CacheField T) (key : string)
    (fetch : stateful R StorageError (option T)) : cached (option T) :=
  config ← get_config;
  if negb (cache_enabled config) then on_inner fetch
  else
    hit ← cache_lookup f key;
    match hit with
    | Some value => mret (Some value)
    | None =>
        record ← on_inner fetch;
        match record with
        | Some value =>
            now ← instant_now;
            _ ← cache_store f key value now;
            mret record
        | None => mret record
        end
    end.

(** After an insertion: unless a fresh entry is newer, the record is the latest. *)
Definition remember_latest {T} (f : CacheField T) (time : T → Z) (key : string) (record : T) (now : N)
    : cached unit :=
  map ← cache_read f;
  should_update ← match map !! key with
                  | Some entry =>
                      fresh ← is_fresh entry;
                      mret (negb (fresh && (time record <? time (ce_value entry))%Z))
                  | None => mret true
                  end;
  if should_update : bool then cache_store f key record now else mret tt.

Definition push_announcement (key : string) (record : RepoAnnouncementRecord) (now : N) : cached unit :=
  lists ← cache_read f_announcements;
  match lists !! key with
  | None => mret tt
  | Some entry =>
      fresh ← is_fresh entry;
      cache_write f_announcements
        (if fresh : bool then insert key (mkCacheEntry (ce_value entry ++ [record]) now) else delete key)
  end.

Definition cached_insert_announcement `{AnnouncementRepository R} (record : RepoAnnouncementRecord)
    : cached unit :=
  config ← get_config;
  if negb (cache_enabled config) then on_inner (insert_announcement record)
  else
    _ ← on_inner (insert_announcement record);
    let key := cache_key (ra_rec_pubkey record) (ra_rec_identifier record) in
    now ← instant_now;
    _ ← push_announcement key record now;
    remember_latest f_latest_announcements ra_created_at key record now.

Definition cached_list_announcements `{AnnouncementRepository R} (pubkey : bytes) (identifier : string)
    : cached (list RepoAnnouncementRecord) :=
  config ← get_config;
  if negb (cache_enabled config) then on_inner (list_announcements pubkey identifier)
  else
    let key := cache_key pubkey identifier in
    hit ← cache_lookup f_announcements key;
    match hit with
    | Some records => mret records
    | None =>
        records ← on_inner (list_announcements pubkey identifier);
        now ← instant_now;
        _ ← cache_store f_announcements key records now;
        _ ← match max_by_key ra_created_at records with
            | None => cache_write f_latest_announcements (delete key)
            | Some record => cache_store f_latest_announcements key record now
            end;
        mret records
    end.

Definition cached_latest_announcement `{AnnouncementRepository R} (pubkey : bytes) (identifier : string)
    : cached (option RepoAnnouncementRecord) :=
  cached_read f_latest_announcements (cache_key pubkey identifier) (latest_announcement pubkey identifier).

Definition cached_insert_state `{StateRepository R} (record : RepoStateRecord) : cached unit :=
  config ← get_config;
  if negb (cache_enabled config) then on_inner (insert_state record)
  else
    _ ← on_inner (insert_state record);
    now ← instant_now;
    remember_latest f_latest_states rs_created_at (cache_key (rs_pubkey record) (rs_identifier record))
      record now.

Definition cached_latest_state `{StateRepository R} (pubkey : bytes) (identifier : string)
    : cached (option RepoStateRecord) :=
  cached_read f_latest_states (cache_key pubkey identifier) (repo_latest_state pubkey identifier).

Definition cached_upsert_relay_compatibility `{RelayCompatibilityRepository R}
    (record : RelayCompatibilityRecord) : cached unit :=
  config ← get_config;
  if negb (cache_enabled config) then on_inner (upsert_relay_compatibility record)
  else
    _ ← on_inner (upsert_relay_compatibility record);
    now ← instant_now;
    cache_store f_relay_compatibility (rcr_relay_url record) record now.

Definition cached_relay_compatibility `{RelayCompatibilityRepository R} (relay_url : string)
    : cached (option RelayCompatibilityRecord) :=
  cached_read f_relay_compatibility relay_url (relay_compatibility relay_url).

#[export] Instance Cached_announcements `{AnnouncementRepository R}
    : AnnouncementRepository (CachedRepositories R) := {|
  insert_announcement := cached_insert_announcement;
  list_announcements := cached_list_announcements;
  latest_announcement := cached_latest_announcement
|}.
#[export] Instance Cached_states `{StateRepository R} : StateRepository (CachedRepositories R) := {|
  insert_state := cached_insert_state; repo_latest_state := cached_latest_state
|}.
#[export] Instance Cached_compatibility `{RelayCompatibilityRepository R}
    : RelayCompatibilityRepository (CachedRepositories R) := {|
  upsert_relay_compatibility := cached_upsert_relay_compatibility;
  relay_compatibility := cached_relay_compatibility
|}.
End Cached.

(** ** The maps: bounded, and with valid entries *)

Definition map_ok {T} (n : nat) (p : string → T → Prop) (m : gmap string (CacheEntry T)) : Prop :=
  size m ≤ n ∧ ∀ k e, m !! k = Some e → p k (ce_value e).

Record store_ok (n : nat) pa pl ps pc (s : CacheStore) : Prop := mkStoreOk {
  ok_announcements : map_ok n pa (lm_map (cs_announcements s));
  ok_latest_announcements : map_ok n pl (lm_map (cs_latest_announcements s));
  ok_latest_states : map_ok n ps (lm_map (cs_latest_states s));
  ok_relay_compatibility : map_ok n pc (lm_map (cs_relay_compatibility s))
}.

(** [V p] constrains the map of [f] by [p], and the others in the same way for any [p]. *)
Class FieldOk {T} (n : nat) (f : CacheField T) (V : (string → T → Prop) → CacheStore → Prop) : Prop := {
  field_get : ∀ p s, V p s → map_ok n p (lm_map (cf_get f s));
  field_put : ∀ p p' b m s, V p s → map_ok n p' m → V p' (cf_put f (mkLockedMap b m) s)
}.

#[export] Instance announcements_ok n pl ps pc : FieldOk n f_announcements (λ p, store_ok n p pl ps pc).
Proof. split; [by intros ?? []|]. intros ????? [] ?. by split. Qed.
#[export] Instance latest_announcements_ok n pa ps pc :
  FieldOk n f_latest_announcements (λ p, store_ok n pa p ps pc).
Proof. split; [by intros ?? []|]. intros ????? [] ?. by split. Qed.
#[export] Instance latest_states_ok n pa pl pc : FieldOk n f_latest_states (λ p, store_ok n pa pl p pc).
Proof. split; [by intros ?? []|]. intros ????? [] ?. by split. Qed.
#[export] Instance relay_compatibility_ok n pa pl ps :
  FieldOk n f_relay_compatibility (λ p, store_ok n pa pl ps p).
Proof. split; [by intros ?? []|]. intros ????? [] ?. by split. Qed.

Lemma map_ok_empty {T} n (p : string → T → Prop) : map_ok n p ∅.
Proof. split; [rewrite map_size_empty; lia|]. intros k e. by rewrite lookup_empty. Qed.

Lemma map_ok_impl {T} n (p p' : string → T → Prop) m :
  map_ok n p m → (∀ k e, m !! k = Some e → p k (ce_value e) → p' k (ce_value e)) → map_ok n p' m.
Proof. intros [Hn Hp] Hi. split; [done|]. eauto. Qed.

Lemma map_ok_zero {T} (p p' : string → T → Prop) m : map_ok 0 p m → map_ok 0 p' m.
Proof. intros [Ha%Nat.le_0_r%map_size_empty_iff _]. subst m. apply map_ok_empty. Qed.

Lemma map_ok_delete {T} n (p p' : string → T → Prop) m k :
  map_ok n p m → (∀ k' v, k' ≠ k → p k' v → p' k' v) → map_ok n p' (delete k m).
Proof.
  intros [Hn Hp] Hi. split.
  - rewrite map_size_delete. destruct (m !! k); simpl; lia.
  - intros k' e [Hne Hk]%lookup_delete_Some. auto.
Qed.

(** ** Eviction *)

Section Eviction.
Context `{HashOrder}.

Lemma min_by_key_in {A} (key : A → N) l x : min_by_key key l = Some x → x ∈ l.
Proof.
  revert x. induction l as [|y l IH]; intros x; simpl; [done|].
  destruct (min_by_key key l) as [z|]; intros [= <-]; [|by left].
  destruct (_ <? _)%N; [right; auto|by left].
Qed.

Lemma min_by_key_None {A} (key : A → N) l : min_by_key key l = None → l = [].
Proof. destruct l as [|y l]; simpl; [done|]. by destruct (min_by_key key l). Qed.

Lemma evict_loop_spec {T} fuel n (m : gmap string (CacheEntry T)) :
  size m ≤ n + fuel → size (evict_loop fuel n m) ≤ n ∧ evict_loop fuel n m ⊆ m.
Proof.
  revert m. induction fuel as [|fuel IH]; intros m Hs; simpl; [split; [lia|done]|].
  destruct (Nat.ltb_spec n (size m)) as [Hlt|]; [|split; [lia|done]].
  destruct (min_by_key _ _) as [[k e]|] eqn:Em.
  - apply min_by_key_in, elem_of_hash_iter in Em.
    destruct (IH (delete k m)) as [Hsz Hsub].
    { rewrite map_size_delete, Em. simpl. lia. }
    split; [done|]. etrans; [exact Hsub|apply delete_subseteq].
  - apply min_by_key_None in Em. pose proof (hash_iter_perm m) as Hp. rewrite Em in Hp.
    apply Permutation_nil_l, eq_sym, map_to_list_empty_iff in Hp. subst. rewrite map_size_empty in Hlt. lia.
Qed.

Lemma evict_if_needed_spec {T} config (m : gmap string (CacheEntry T)) :
  size (evict_if_needed config m) ≤ cc_max_entries config ∧ evict_if_needed config m ⊆ m.
Proof.
  unfold evict_if_needed. destruct (Nat.eqb_spec (cc_max_entries config) 0) as [E|].
  - rewrite map_size_empty. split; [lia|apply map_empty_subseteq].
  - apply evict_loop_spec. lia.
Qed.
End Eviction.

(** ** The operations on one map *)

Section Operations.
Context {R : Type} `{HexLib} `{HashOrder}.

Definition inv (J : R → Prop) (V : CacheStore → Prop) (n : nat) (s : CachedRepositories R) : Prop :=
  J (cr_inner s) ∧ V (cr_cache s) ∧ cc_max_entries (cr_config s) = n.

Lemma inv_on_inner {A} J V n (c : stateful R StorageError A) (Q : A → R → Prop) (F : R → Prop) :
  triple J c Q F → triple (inv J V n) (on_inner c) (λ a, inv (Q a) V n) (inv F V n).
Proof.
  intros Hc s r s' (HJ & HV & Hn). unfold on_inner. destruct (c (cr_inner s)) as [r0 i0] eqn:E0.
  intros [= <- <-]. specialize (Hc _ _ _ HJ E0). destruct r0; by repeat split.
Qed.

Lemma inv_and J φ V n s : inv (λ i, J i ∧ φ) V n s → inv J V n s ∧ φ.
Proof. unfold inv. naive_solver. Qed.

Lemma inv_now J V n F : triple (inv J V n) instant_now (λ _, inv J V n) F.
Proof. intros s r s' Hs [= <- <-]. exact Hs. Qed.

Lemma inv_get_config J V n F :
  triple (inv J V n) get_config (λ config s, inv J V n s ∧ cc_max_entries config = n) F.
Proof. intros s r s' Hs [= <- <-]. split; [done|]. by destruct Hs as (_ & _ & ?). Qed.

Lemma inv_is_fresh {T} J V n F (e : CacheEntry T) :
  triple (inv J V n) (is_fresh e) (λ _, inv J V n) F.
Proof.
  intros s r s' Hs. unfold is_fresh. destruct (cc_ttl _) as [ttl|]; intros [= <- <-]; exact Hs.
Qed.

Section Field.
Context {T : Type} (f : CacheField T) (V : (string → T → Prop) → CacheStore → Prop) (n : nat).
Context `{!FieldOk n f V}.

Lemma inv_cache_read J p :
  triple (inv J (V p) n) (cache_read f) (λ m s, inv J (V p) n s ∧ map_ok n p m) (inv J (V p) n).
Proof.
  intros s r s' Hs. unfold cache_read. destruct (lm_poisoned _); intros [= <- <-]; [done|].
  split; [done|]. apply field_get. by destruct Hs as (_ & ? & _).
Qed.

Lemma inv_cache_write J p p' change :
  (∀ m, map_ok n p m → map_ok n p' (change m)) →
  triple (inv J (V p) n) (cache_write f change) (λ _, inv J (V p') n) (inv J (V p) n).
Proof.
  intros Hc s r s' Hs. unfold cache_write. destruct (lm_poisoned _); intros [= <- <-]; [done|].
  destruct Hs as (HJ & HV & Hn). repeat split; [done| |done]. eapply field_put; [done|].
  apply Hc. by apply field_get.
Qed.

Lemma inv_cache_store J p p' key v now :
  (∀ k v, k ≠ key → p k v → p' k v) → p' key v →
  triple (inv J (V p) n) (cache_store f key v now) (λ _, inv J (V p') n) (inv J (V p) n).
Proof.
  intros Hp Hv. eapply triple_bind; [apply inv_get_config|]. intros config. apply triple_pure.
  intros Hn. apply inv_cache_write. intros m [_ Hm].
  destruct (evict_if_needed_spec config (<[key := mkCacheEntry v now]> m)) as [Hsz Hsub].
  split; [lia|]. intros k e He. eapply lookup_weaken in He; [|exact Hsub].
  apply lookup_insert_Some in He as [[<- <-]|[Hne He]]; auto.
Qed.

Lemma inv_cache_lookup J p key :
  triple (inv J (V p) n) (cache_lookup f key)
    (λ o s, inv J (V p) n s ∧ ∀ v, o = Some v → p key v) (inv J (V p) n).
Proof.
  eapply triple_bind; [apply inv_cache_read|]. intros m. apply triple_pure. intros [_ Hm].
  destruct (m !! key) as [e|] eqn:E; [|by apply triple_ret].
  eapply triple_bind; [apply inv_is_fresh|]. intros [].
  - apply triple_ret. intros s Hs. split; [done|]. intros v [= <-]. eauto.
  - eapply triple_bind; [apply (inv_cache_write J p p)|].
    + intros m' Hm'. by eapply map_ok_delete.
    + intros []. by apply triple_ret.
Qed.

(** A cached read answers as the repository, or from a valid entry. *)
Lemma inv_cached_read J p key fetch (Q : option T → Prop) :
  triple J fetch (λ o i, J i ∧ Q o ∧ ∀ v, o = Some v → p key v) J →
  (∀ v, p key v → Q (Some v)) →
  triple (inv J (V p) n) (cached_read f key fetch) (λ o s, inv J (V p) n s ∧ Q o) (inv J (V p) n).
Proof.
  intros Hf HQ. eapply triple_bind; [apply inv_get_config|]. intros config. apply triple_pure. intros _.
  destruct (negb _).
  { eapply triple_weaken; [by apply inv_on_inner|done|intros o s [? []]%inv_and|done]. done. }
  eapply triple_bind; [apply inv_cache_lookup|]. intros [v|].
  { apply triple_ret. intros s [Hs Hv]. auto. }
  eapply (triple_bind _ _ _ _ (λ o s, inv J (V p) n s ∧ Q o ∧ ∀ v, o = Some v → p key v)).
  { eapply triple_weaken; [by apply inv_on_inner|by intros s []|intros o s; apply inv_and|done]. }
  intros [v|]; apply triple_pure; intros [Hq Hp]; [|by apply triple_ret].
  eapply triple_bind; [apply inv_now|]. intros now.
  eapply triple_bind; [apply (inv_cache_store J p p); [done|by apply Hp]|].
  intros []. by apply triple_ret.
Qed.

(** The latest record after an insertion of the newest one: the other entries
    stay valid, and the entry of the key is replaced. *)
Lemma inv_remember_latest J p p' (time : T → Z) key r now :
  (∀ k v, k ≠ key → p k v → p' k v) → p' key r → (∀ v, p key v → (time v ≤ time r)%Z) →
  triple (inv J (V p) n) (remember_latest f time key r now) (λ _, inv J (V p') n) (inv J (V p) n).
Proof.
  intros Hp Hr Hmax. eapply triple_bind; [apply inv_cache_read|]. intros m. apply triple_pure. intros [_ Hm].
  eapply (triple_bind _ _ _ _ (λ b s, inv J (V p) n s ∧ b = true)).
  - destruct (m !! key) as [e|] eqn:E; [|by apply triple_ret].
    eapply triple_bind; [apply inv_is_fresh|]. intros fresh. apply triple_ret. intros s Hs.
    split; [done|]. specialize (Hmax _ (Hm _ _ E)). apply negb_true_iff, andb_false_iff. right. lia.
  - intros b. apply triple_pure. intros ->. by apply inv_cache_store.
Qed.
End Field.
End Operations.

(** ** Coherence *)

Lemma max_by_key_latest {A} (time : A → Z) l : latest_of time l (max_by_key time l).
Proof.
  induction l as [|x l IH]; simpl; [done|]. destruct (max_by_key time l) as [y|]; simpl in *.
  - destruct IH as [Hin Hmax]. destruct (Z.leb_spec (time x) (time y)).
    + split; [by right|]. intros r' [->|Hr']%elem_of_cons; [done|auto].
    + split; [left|]. intros r' [->|Hr']%elem_of_cons; [lia|]. specialize (Hmax _ Hr'). lia.
  - subst l. split; [left|]. intros r' ->%list_elem_of_singleton. lia.
Qed.

Lemma latest_of_snoc {A} (time : A → Z) l r :
  (∀ r', r' ∈ l → (time r' ≤ time r)%Z) → latest_of time (l ++ [r]) (Some r).
Proof.
  intros Hmax. split; [apply elem_of_app; right; left|].
  intros r' [Hr'| ->%list_elem_of_singleton]%elem_of_app; [auto|lia].
Qed.

Section Coherence.
Context `{HexLaws} `{HashOrder}.

(** The records of one repository. *)
Definition of_key {A} (key_of : A → string) (key : string) (l : list A) : list A :=
  List.filter (λ r, key_of r == key) l.

Definition ann_key (r : RepoAnnouncementRecord) : string := cache_key (ra_rec_pubkey r) (ra_rec_identifier r).
Definition state_key (r : RepoStateRecord) : string := cache_key (rs_pubkey r) (rs_identifier r).

Lemma cache_key_eqb p i p' i' : (cache_key p i == cache_key p' i') = (p == p') && (i == i').
Proof.
  apply eq_true_iff_eq. rewrite andb_true_iff, !String.eqb_eq. split.
  - apply (inj2 repo_key).
  - by intros [-> ->].
Qed.

Lemma of_ann_key p i l : of_key ann_key (cache_key p i) l = List.filter (ann_of p i) l.
Proof. apply List.filter_ext. intros r. apply cache_key_eqb. Qed.
Lemma of_state_key p i l : of_key state_key (cache_key p i) l = List.filter (state_of p i) l.
Proof. apply List.filter_ext. intros r. apply cache_key_eqb. Qed.

Lemma of_key_snoc {A} (key_of : A → string) l r : of_key key_of (key_of r) (l ++ [r]) = of_key key_of (key_of r) l ++ [r].
Proof. unfold of_key. rewrite List.filter_app. cbn. by rewrite String.eqb_refl. Qed.
Lemma of_key_snoc_ne {A} (key_of : A → string) key l r : key ≠ key_of r → of_key key_of key (l ++ [r]) = of_key key_of key l.
Proof.
  intros Hne. unfold of_key. rewrite List.filter_app. cbn.
  rewrite (proj2 (String.eqb_neq _ _)) by congruence. apply app_nil_r.
Qed.

(** No record of its repository is newer. *)
Definition newest {A} (time : A → Z) (key_of : A → string) (r : A) (l : list A) : Prop :=
  ∀ r', r' ∈ of_key key_of (key_of r) l → (time r' ≤ time r)%Z.

Section Announcements.
Context {R : Type} `{AnnouncementLaws R}.

Definition lists_valid (l : list RepoAnnouncementRecord) (key : string) (rs : list RepoAnnouncementRecord) : Prop :=
  rs ≡ₚ of_key ann_key key l.
Definition latest_valid (l : list RepoAnnouncementRecord) (key : string) (r : RepoAnnouncementRecord) : Prop :=
  latest_of ra_created_at (of_key ann_key key l) (Some r).

(** The repository holds [l] and the cache agrees with it. *)
Definition coherent (n : nat) (s : CachedRepositories R) (l : list RepoAnnouncementRecord) : Prop :=
  inv (λ i, ann_holds i l) (store_ok n (lists_valid l) (latest_valid l) (λ _ _, True) (λ _ _, True)) n s.

Lemma latest_announcement_coherent n p i :
  answers (coherent n) (cached_latest_announcement p i)
    (λ l o, latest_of ra_created_at (List.filter (ann_of p i) l) o).
Proof.
  apply triple_answers. intros l.
  apply (inv_cached_read f_latest_announcements
           (λ q, store_ok n (lists_valid l) q (λ _ _, True) (λ _ _, True)) n).
  - eapply triple_weaken; [apply (answers_triple _ _ _ l (latest_announcement_spec p i))|done| |done].
    intros o s [Hs Ho]. split; [done|]. split; [done|]. intros v ->. unfold latest_valid. by rewrite of_ann_key.
  - intros v. unfold latest_valid. by rewrite of_ann_key.
Qed.

Lemma list_announcements_coherent n p i :
  answers (coherent n) (cached_list_announcements p i) (λ l rs, rs ≡ₚ List.filter (ann_of p i) l).
Proof.
  apply triple_answers. intros l. unfold cached_list_announcements.
  eapply triple_bind; [apply inv_get_config|]. intros config. apply triple_pure. intros _.
  pose proof (answers_triple _ _ _ l (list_announcements_spec p i)) as Hlist.
  destruct (negb _).
  { eapply triple_weaken; [by apply inv_on_inner|done|intros rs s; apply inv_and|done]. }
  eapply triple_bind.
  { apply (inv_cache_lookup f_announcements (λ q, store_ok n q (latest_valid l) (λ _ _, True) (λ _ _, True)) n). }
  intros [rs|].
  { apply triple_ret. intros s [Hs Hv]. split; [done|]. rewrite <-of_ann_key. by apply Hv. }
  eapply (triple_bind _ _ _ _ (λ rs s, coherent n s l ∧ lists_valid l (cache_key p i) rs)).
  { eapply triple_weaken; [by apply inv_on_inner|by intros s []|intros rs s Hs|done].
    unfold lists_valid. rewrite of_ann_key. by apply inv_and. }
  intros rs. apply triple_pure. intros Hrs. eapply triple_bind; [apply inv_now|]. intros now.
  eapply triple_bind.
  { apply (inv_cache_store f_announcements (λ q, store_ok n q (latest_valid l) (λ _ _, True) (λ _ _, True)) n
             _ (lists_valid l) (lists_valid l)); done. }
  intros []. pose proof (max_by_key_latest ra_created_at rs) as Hmax.
  eapply (triple_bind _ _ _ _ (λ _, inv (λ i, ann_holds i l) (store_ok n (lists_valid l) (latest_valid l)
            (λ _ _, True) (λ _ _, True)) n)).
  - destruct (max_by_key ra_created_at rs) as [r|].
    + apply (inv_cache_store f_latest_announcements (λ q, store_ok n (lists_valid l) q (λ _ _, True) (λ _ _, True)) n
               _ (latest_valid l) (latest_valid l)); [done|].
      by eapply latest_of_perm.
    + apply (inv_cache_write f_latest_announcements (λ q, store_ok n (lists_valid l) q (λ _ _, True) (λ _ _, True)) n
               _ (latest_valid l) (latest_valid l)).
      intros m Hm. by eapply map_ok_delete.
  - intros []. apply triple_ret. intros s Hs. split; [done|]. by rewrite <-of_ann_key.
Qed.

Lemma map_ok_replace {T} n (p p' : string → T → Prop) m k e e' :
  map_ok n p m → m !! k = Some e → (∀ k' v, k' ≠ k → p k' v → p' k' v) → p' k (ce_value e') →
  map_ok n p' (<[k := e']> m).
Proof.
  intros [Hn Hp] Hk Hi He'. split; [by rewrite map_size_insert_Some|].
  intros k' e0 [[<- <-]|[Hne Hk']]%lookup_insert_Some; auto.
Qed.

Lemma is_fresh_total {T} (e : CacheEntry T) (s : CachedRepositories R) :
  ∃ b clock, is_fresh e s = (Ok b, mkCachedRepositories (cr_inner s) (cr_cache s) (cr_config s) clock).
Proof. unfold is_fresh. destruct (cc_ttl _); [by eexists _, _|]. exists true, (cr_clock s). by destruct s. Qed.

Lemma push_announcement_coherent n l r now :
  let V q := store_ok n q (latest_valid l) (λ _ _, True) (λ _ _, True) in
  triple (inv (λ i, ann_holds i (l ++ [r])) (V (lists_valid l)) n) (push_announcement (ann_key r) r now)
    (λ _, inv (λ i, ann_holds i (l ++ [r])) (V (lists_valid (l ++ [r]))) n) (λ _, True).
Proof.
  assert (∀ k rs, k ≠ ann_key r → lists_valid l k rs → lists_valid (l ++ [r]) k rs) as Hother.
  { intros k rs Hne. unfold lists_valid. by rewrite of_key_snoc_ne. }
  intros V s res s' (HJ & Hok & Hn).
  unfold push_announcement, mbind, stateful_bind at 1, cache_read.
  destruct (lm_poisoned _) eqn:Ep; [by intros [= <- <-]|].
  pose proof (field_get (n:=n) (f:=f_announcements) (V:=V) _ _ Hok) as Hm.
  destruct (lm_map _ !! ann_key r) as [e|] eqn:E.
  - destruct (is_fresh_total e s) as (b & clock & Ef). unfold stateful_bind. rewrite Ef.
    unfold cache_write. cbn [cr_cache cr_inner cr_config cr_clock]. rewrite Ep. intros [= <- <-].
    split; [done|]. split; [|done]. eapply (field_put (f:=f_announcements) (V:=V)); [done|].
    destruct b; [eapply map_ok_replace; [done..|]|by eapply map_ok_delete].
    unfold lists_valid. rewrite of_key_snoc. cbn [ce_value]. by rewrite (proj2 Hm _ _ E).
  - intros [= <- <-]. split; [done|]. split; [|done]. destruct Hok. split; try done.
    eapply map_ok_impl; [done|]. intros k e' Hk. apply Hother. intros ->. simpl in E. congruence.
Qed.

Lemma insert_announcement_coherent n l r :
  newest ra_created_at ann_key r l →
  triple (λ s, coherent n s l) (cached_insert_announcement r) (λ _ s, coherent n s (l ++ [r])) (λ _, True).
Proof.
  intros Hnew. eapply triple_bind; [apply inv_get_config|]. intros config. apply triple_pure. intros Hn.
  pose proof (realises_triple _ _ _ l (insert_announcement_spec r)) as Hins. simpl in Hins.
  pose (V0 := store_ok n (lists_valid l) (latest_valid l) (λ _ _, True) (λ _ _, True)).
  destruct (negb (cache_enabled config)) eqn:Een.
  - assert (n = 0) as ->. { unfold cache_enabled in Een. destruct (Nat.ltb_spec 0 (cc_max_entries config)); [done|lia]. }
    eapply triple_weaken; [by apply inv_on_inner|done| |done].
    intros [] s (HJ & Hok & Hc). split; [done|]. split; [|done].
    destruct Hok. split; try done; by eapply map_ok_zero.
  - eapply (triple_bind _ _ _ _ (λ _, inv (λ i, ann_holds i (l ++ [r])) V0 n)).
    { eapply triple_weaken; [by apply inv_on_inner|done..]. }
    intros []. eapply triple_bind; [apply inv_now|]. intros now.
    eapply triple_bind; [exact (push_announcement_coherent n l r now)|]. intros [].
    eapply triple_weaken.
    + apply (inv_remember_latest f_latest_announcements
               (λ q, store_ok n (lists_valid (l ++ [r])) q (λ _ _, True) (λ _ _, True)) n
               (λ i, ann_holds i (l ++ [r])) (latest_valid l) (latest_valid (l ++ [r]))).
      * intros k v Hne. unfold latest_valid. by rewrite of_key_snoc_ne.
      * unfold latest_valid. change (cache_key _ _) with (ann_key r). rewrite of_key_snoc. by apply latest_of_snoc.
      * intros v [Hin _]. by apply Hnew.
    + done.
    + done.
    + done.
Qed.

(** The states of a cache in front of a repository, from an empty one, with the
    announcements the repository holds: whatever is read, and announcements
    that are inserted, none older than another of its repository. *)
Inductive announced (n : nat) : CachedRepositories R → list RepoAnnouncementRecord → Prop :=
| announced_start inner config clock l :
    ann_holds inner l → cc_max_entries config = n →
    announced n (CachedRepositories_with_config inner config clock) l
| announced_insert s s' l r :
    announced n s l → newest ra_created_at ann_key r l →
    insert_announcement r s = (Ok tt, s') → announced n s' (l ++ [r])
| announced_list s s' l p i res :
    announced n s l → list_announcements p i s = (res, s') → announced n s' l
| announced_latest s s' l p i res :
    announced n s l → latest_announcement p i s = (res, s') → announced n s' l.

Lemma store_ok_default n pa pl ps pc : store_ok n pa pl ps pc CacheStore_default.
Proof. split; apply map_ok_empty. Qed.

Lemma announced_coherent n s l : announced n s l → coherent n s l.
Proof.
  induction 1 as [inner config clock l Hl Hn|s s' l r _ IH Hnew E|s s' l p i res _ IH E|s s' l p i res _ IH E].
  - split; [done|]. split; [apply store_ok_default|done].
  - exact (insert_announcement_coherent n l r Hnew _ _ _ IH E).
  - exact (proj1 (list_announcements_coherent n p i _ _ _ _ IH E)).
  - exact (proj1 (latest_announcement_coherent n p i _ _ _ _ IH E)).
Qed.

(** C25: a cache over a repository of announcements answers as the repository
    does: in every state that reads and insertions in order of time lead to
    from an empty cache, a list of announcements has exactly those the repository
    holds, the latest announcement is one of the latest it holds, whatever the clock,
    the time to live and the entries that were evicted, and no map has more
    entries than configured. *)
Theorem cached_announcements_coherent n s l p i :
  announced n s l →
  (∀ rs s', list_announcements p i s = (Ok rs, s') → rs ≡ₚ List.filter (ann_of p i) l) ∧
  (∀ o s', latest_announcement p i s = (Ok o, s') → latest_of ra_created_at (List.filter (ann_of p i) l) o) ∧
  size (lm_map (cs_announcements (cr_cache s))) ≤ n ∧
  size (lm_map (cs_latest_announcements (cr_cache s))) ≤ n.
Proof.
  intros Hs%announced_coherent. split_and!.
  - intros rs s' E. by apply (list_announcements_coherent n p i _ _ _ _ Hs E).
  - intros o s' E. by apply (latest_announcement_coherent n p i _ _ _ _ Hs E).
  - by destruct Hs as (_ & [[? _] _ _ _] & _).
  - by destruct Hs as (_ & [_ [? _] _ _] & _).
Qed.
End Announcements.

Section States.
Context {R : Type} `{StateLaws R}.

(** What a read of the latest state may answer. *)
Definition latest_state_of (p : bytes) (i : string) (l : list RepoStateRecord) (o : option RepoStateRecord) : Prop :=
  ∃ o', latest_of rs_created_at (List.filter (state_of p i) l) o' ∧ option_Forall2 same_state o' o.

Definition state_valid (l : list RepoStateRecord) (key : string) (r : RepoStateRecord) : Prop :=
  ∃ r', latest_of rs_created_at (of_key state_key key l) (Some r') ∧ same_state r' r.

Definition state_coherent (n : nat) (s : CachedRepositories R) (l : list RepoStateRecord) : Prop :=
  inv (λ i, state_holds i l) (store_ok n (λ _ _, True) (λ _ _, True) (state_valid l) (λ _ _, True)) n s.

Lemma state_valid_latest p i l r :
  state_valid l (cache_key p i) r ↔ latest_state_of p i l (Some r).
Proof.
  unfold state_valid, latest_state_of. rewrite of_state_key. split.
  - intros (r' & Hr' & Hs). exists (Some r'). split; [done|by constructor].
  - intros (o & Ho & Hs). inversion Hs; subst. eauto.
Qed.

Lemma latest_state_coherent n p i : answers (state_coherent n) (cached_latest_state p i) (latest_state_of p i).
Proof.
  apply triple_answers. intros l.
  apply (inv_cached_read f_latest_states
           (λ q, store_ok n (λ _ _, True) (λ _ _, True) q (λ _ _, True)) n).
  - eapply triple_weaken; [apply (answers_triple _ _ _ l (latest_state_spec p i))|done| |done].
    intros o s [Hs Ho]. split; [done|]. split; [done|]. intros v ->. by apply state_valid_latest.
  - intros v. by apply state_valid_latest.
Qed.

Lemma insert_state_coherent n l r :
  newest rs_created_at state_key r l →
  triple (λ s, state_coherent n s l) (cached_insert_state r) (λ _ s, state_coherent n s (l ++ [r])) (λ _, True).
Proof.
  intros Hnew. eapply triple_bind; [apply inv_get_config|]. intros config. apply triple_pure. intros Hn.
  pose proof (realises_triple _ _ _ l (insert_state_spec r)) as Hins. simpl in Hins.
  destruct (negb (cache_enabled config)) eqn:Een.
  - assert (n = 0) as ->. { unfold cache_enabled in Een. destruct (Nat.ltb_spec 0 (cc_max_entries config)); [done|lia]. }
    eapply triple_weaken; [by apply inv_on_inner|done| |done].
    intros [] s (HJ & Hok & Hc). split; [done|]. split; [|done].
    destruct Hok. split; try done; by eapply map_ok_zero.
  - eapply (triple_bind _ _ _ _ (λ _, inv (λ i, state_holds i (l ++ [r]))
               (store_ok n (λ _ _, True) (λ _ _, True) (state_valid l) (λ _ _, True)) n)).
    { eapply triple_weaken; [by apply inv_on_inner|done..]. }
    intros []. eapply triple_bind; [apply inv_now|]. intros now.
    eapply triple_weaken.
    + apply (inv_remember_latest f_latest_states (λ q, store_ok n (λ _ _, True) (λ _ _, True) q (λ _ _, True)) n
               (λ i, state_holds i (l ++ [r])) (state_valid l) (state_valid (l ++ [r]))).
      * intros k v Hne. unfold state_valid. by rewrite of_key_snoc_ne.
      * exists r. change (cache_key _ _) with (state_key r). rewrite of_key_snoc. split; [by apply latest_of_snoc|done].
      * intros v (r' & [Hin _] & (_ & _ & _ & <- & _)). by apply Hnew.
    + done.
    + done.
    + done.
Qed.

Inductive recorded (n : nat) : CachedRepositories R → list RepoStateRecord → Prop :=
| recorded_start inner config clock l :
    state_holds inner l → cc_max_entries config = n →
    recorded n (CachedRepositories_with_config inner config clock) l
| recorded_insert s s' l r :
    recorded n s l → newest rs_created_at state_key r l →
    insert_state r s = (Ok tt, s') → recorded n s' (l ++ [r])
| recorded_latest s s' l p i res :
    recorded n s l → repo_latest_state p i s = (res, s') → recorded n s' l.

Lemma recorded_coherent n s l : recorded n s l → state_coherent n s l.
Proof.
  induction 1 as [inner config clock l Hl Hn|s s' l r _ IH Hnew E|s s' l p i res _ IH E].
  - split; [done|]. split; [apply store_ok_default|done].
  - exact (insert_state_coherent n l r Hnew _ _ _ IH E).
  - exact (proj1 (latest_state_coherent n p i _ _ _ _ IH E)).
Qed.

(** When states are inserted in order of time, a cache over a repository of
    states answers with the latest state the repository holds. *)
Lemma cached_states_coherent n s l p i o s' :
  recorded n s l → repo_latest_state p i s = (Ok o, s') → latest_state_of p i l o.
Proof. intros Hs%recorded_coherent E. by apply (latest_state_coherent n p i _ _ _ _ Hs E). Qed.

(** The repository has a newer state than [r]. *)
Definition outdated (r : RepoStateRecord) (l : list RepoStateRecord) : Prop :=
  ∃ r', r' ∈ of_key state_key (state_key r) l ∧ (rs_created_at r < rs_created_at r')%Z.

Lemma outdated_not_latest r l :
  outdated r l → ¬ latest_state_of (rs_pubkey r) (rs_identifier r) (l ++ [r]) (Some r).
Proof.
  intros (r' & Hin & Hlt) (o & Ho & Hs). inversion Hs as [o' ? Hs'|]; subst. destruct Ho as [_ Hmax].
  rewrite <-of_state_key in Hmax. change (cache_key _ _) with (state_key r) in Hmax.
  rewrite of_key_snoc in Hmax. specialize (Hmax r'). destruct Hs' as (_ & _ & _ & Et & _).
  rewrite Et in Hmax. enough (rs_created_at r' ≤ rs_created_at r)%Z by lia.
  apply Hmax, elem_of_app. by left.
Qed.

(** The entry is still fresh at the next reading of the clock. *)
Definition next_reading_fresh (s : CachedRepositories R) : Prop :=
  match cc_ttl (cr_config s) with
  | Some ttl => (default 0 (head (ck_ticks (cr_clock s))) < ttl)%N
  | None => True
  end.

Lemma evict_not_needed {T} config (m : gmap string (CacheEntry T)) :
  0 < cc_max_entries config → size m ≤ cc_max_entries config → evict_if_needed config m = m.
Proof.
  intros Hpos Hsz. unfold evict_if_needed. destruct (Nat.eqb_spec (cc_max_entries config) 0); [lia|].
  destruct (size m) eqn:E; simpl; [done|]. destruct (Nat.ltb_spec (cc_max_entries config) (size m)); [lia|done].
Qed.

(** A read of an entry that was just stored. *)
Lemma cached_read_hit {T} (f : CacheField T) key fetch s e :
  lm_poisoned (cf_get f (cr_cache s)) = false → 0 < cc_max_entries (cr_config s) →
  lm_map (cf_get f (cr_cache s)) !! key = Some e →
  ce_stored_at e = ck_now (cr_clock s) → next_reading_fresh s →
  (cached_read f key fetch s).1 = Ok (Some (ce_value e)).
Proof.
  intros Hp Hn Hk He Hfresh.
  assert (∃ s1, is_fresh e s = (Ok true, s1)) as [s1 E1].
  { unfold is_fresh, next_reading_fresh in *. destruct (cc_ttl (cr_config s)) as [ttl|]; [|by eexists].
    unfold mbind, stateful_bind, instant_now. rewrite He.
    replace (_ - _ <? ttl)%N with true; [by eexists|]. symmetry. apply N.ltb_lt. lia. }
  unfold cached_read, cache_lookup, mbind, stateful_bind, get_config, cache_enabled, cache_read.
  rewrite (proj2 (Nat.ltb_lt 0 _)) by done. cbn [negb]. by rewrite Hp, Hk, E1.
Qed.

(** What an insertion into a cache without an entry leaves. *)
Lemma cold_insertion s s' r :
  let states := cs_latest_states (cr_cache s) in
  lm_map states !! state_key r = None →
  size (lm_map states) < cc_max_entries (cr_config s) →
  insert_state r s = (Ok tt, s') →
  ∃ i', insert_state r (cr_inner s) = (Ok tt, i') ∧ lm_poisoned states = false ∧
    s' = mkCachedRepositories i'
           (cf_put f_latest_states (mkLockedMap false
              (<[state_key r := mkCacheEntry r (ck_now (cr_clock s'))]> (lm_map states))) (cr_cache s))
           (cr_config s) (cr_clock s').
Proof.
  intros states Hnone Hroom. change (insert_state r s) with (cached_insert_state r s).
  unfold cached_insert_state, mbind, stateful_bind, get_config, cache_enabled.
  rewrite (proj2 (Nat.ltb_lt 0 _)) by lia. cbn [negb]. unfold on_inner.
  destruct (insert_state r (cr_inner s)) as [[[]|e] i0]; [|done].
  cbn [instant_now]. unfold remember_latest, mbind, stateful_bind, cache_read. cbn.
  destruct (lm_poisoned _) eqn:Ep; [done|].
  change (lm_map (cs_latest_states (cr_cache s)) !! cache_key (rs_pubkey r) (rs_identifier r))
    with (lm_map states !! state_key r). rewrite Hnone. cbn.
  unfold cache_store, mbind, stateful_bind, get_config, cache_write. cbn. rewrite Ep. intros [= <-].
  exists i0. split_and!; [done|done|]. cbn. rewrite evict_not_needed; [done|lia|].
  rewrite map_size_insert_None by done. exact Hroom.
Qed.

(** An entry for every insertion: when the cache has no entry for a
    repository and room for one, the state that is inserted is what the cache then
    answers as the latest, also when the repository holds a newer state; so in front of a
    repository with a newer state, the cache hides it. *)
Lemma older_insertion_served s s' l r :
  state_holds (cr_inner s) l → outdated r l →
  lm_map (cs_latest_states (cr_cache s)) !! state_key r = None →
  size (lm_map (cs_latest_states (cr_cache s))) < cc_max_entries (cr_config s) →
  insert_state r s = (Ok tt, s') → next_reading_fresh s' →
  state_holds (cr_inner s') (l ++ [r]) ∧
  (repo_latest_state (rs_pubkey r) (rs_identifier r) s').1 = Ok (Some r) ∧
  ¬ latest_state_of (rs_pubkey r) (rs_identifier r) (l ++ [r]) (Some r).
Proof.
  intros Hl Hout Hnone Hroom E Hfresh.
  destruct (cold_insertion s s' r Hnone Hroom E) as (i' & Ei & Ep & Es). split_and!.
  - rewrite Es. by apply (insert_state_spec r _ _ _ _ Hl Ei).
  - apply (cached_read_hit f_latest_states (state_key r) _ s' (mkCacheEntry r (ck_now (cr_clock s')))); [by rewrite Es| | |done|done].
    + rewrite Es. cbn. lia.
    + rewrite Es. cbn. apply lookup_insert_eq.
  - by apply outdated_not_latest.
Qed.
End States.
End Coherence.

(** ** Witnesses *)

Definition codec_model : RecordCodec := {|
  state_map_to_json m := default "" (m !! "HEAD");
  state_map_from_json s := Ok {[ "HEAD" := s ]};
  report_to_json r := rc_relay_url r;
  report_from_json _ := Err "not an object"
|}.

Definition sample_state_at (t : Z) : RepoStateRecord := mkRepoStateRecord "e" "k" "r" t "{}".
Definition sample_ann_at (t : Z) : RepoAnnouncementRecord :=
  mkRepoAnnouncementRecord "e" "k" "r" None None None [] [] [] [] [] [] t.

(** A repository in memory, empty but for [l], behind a cache of two entries for ten nanoseconds. *)
Definition sample_states (l : list RepoStateRecord) : CachedRepositories MemoryStates :=
  let _ := hex_model in
  CachedRepositories_with_config
    (mkMemoryStates (foldl (λ m r, push_record (repo_key (rs_pubkey r) (rs_identifier r)) r m) ∅ l))
    (mkCacheConfig (Some 10%N) 2) (mkClock 0 [1; 1; 1]%N).
Definition sample_announcements : CachedRepositories MemoryAnnouncements :=
  CachedRepositories_with_config (mkMemoryAnnouncements ∅) (mkCacheConfig (Some 10%N) 2) (mkClock 0 [1; 1; 1]%N).

Lemma sample_states_hold l :
  let _ := hex_model in let _ := codec_model in state_holds (cr_inner (sample_states l)) l.
Proof.
  intros hm cm. cbn. induction l as [|r l IH] using rev_ind.
  - intros p i. reflexivity.
  - rewrite foldl_app. by apply grouped_push.
Qed.

Lemma cached_announcements_coherent_witness :
  let _ := hex_model in let _ := sample_hash_order in
  let s := (insert_announcement (sample_ann_at 5) sample_announcements).2 in
  (latest_announcement "k" "r" s).1 = Ok (Some (sample_ann_at 5)) ∧
  latest_of ra_created_at (List.filter (ann_of "k" "r") [sample_ann_at 5]) (Some (sample_ann_at 5)).
Proof.
  intros hm ho s. split; [vm_compute; reflexivity|].
  refine (proj1 (proj2 (cached_announcements_coherent 2 s [sample_ann_at 5] "k" "r" _)) _
            (latest_announcement "k" "r" s).2 _).
  - apply (announced_insert 2 sample_announcements s []).
    + apply announced_start; [|reflexivity]. intros p i. reflexivity.
    + intros r' Hr'. apply not_elem_of_nil in Hr'. destruct Hr'.
    + vm_compute. reflexivity.
  - vm_compute. reflexivity.
Defined.

Lemma cached_states_coherent_witness :
  let _ := hex_model in let _ := sample_hash_order in let _ := codec_model in
  latest_state_of "k" "r" [sample_state_at 5] (Some (sample_state_at 5)).
Proof.
  intros hm ho cm.
  refine (cached_states_coherent 2 (sample_states [sample_state_at 5]) [sample_state_at 5] "k" "r" _
            (repo_latest_state "k" "r" (sample_states [sample_state_at 5])).2 _ _).
  - apply recorded_start; [|reflexivity]. exact (sample_states_hold [sample_state_at 5]).
  - vm_compute. reflexivity.
Defined.

Lemma older_insertion_served_witness :
  let _ := hex_model in let _ := sample_hash_order in let _ := codec_model in
  let s' := (insert_state (sample_state_at 3) (sample_states [sample_state_at 5])).2 in
  (repo_latest_state "k" "r" s').1 = Ok (Some (sample_state_at 3)).
Proof.
  intros hm ho cm s'.
  destruct (older_insertion_served (sample_states [sample_state_at 5]) s' [sample_state_at 5] (sample_state_at 3))
    as (_ & Hr & _).
  - exact (sample_states_hold [sample_state_at 5]).
  - exists (sample_state_at 5). split; [left|reflexivity].
  - vm_compute. reflexivity.
  - vm_compute. lia.
  - vm_compute. reflexivity.
  - vm_compute. reflexivity.
  - exact Hr.
Defined.
