(* ===== verification/StateService.v ===== *)
(** * [StateService]: the read side

    Models [services/state/src/lib.rs]: the storage configuration, the views of
    accounts, profiles, repositories and their maintainers over the command
    state, the latest state of a repository, the closure of its maintainers over
    announcements, relay compatibility, and the cache of responses in front of
    them.  [build_router] gives the routes; a path is its decoded segments.
    Serving and the encoding of responses as JSON are not modelled. *)

From S2P Require Import Prelude RustStr CoreTypes Externals HexModel Nip34Common Nip34Repo RelayCompat.
From S2P Require Import Membership NostrAuth Database CommandState Dispatch DispatchFacts.
From S2P Require Import Repositories PostgresRepos Cache.

(** ** Storage configuration *)

Inductive StorageConfigError :=
| SceMissingEnv (key : string)
| SceInvalidEnv (key value : string)
| SceInvalidConfig (message : string).

Definition StorageConfigError_display (e : StorageConfigError) : string :=
  match e with
  | SceMissingEnv key => "missing env " +:+ key
  | SceInvalidEnv key value => "invalid env " +:+ key +:+ ": " +:+ value
  | SceInvalidConfig message => message
  end.

Definition state_env_number (parse : string → option Z) (get_var : environment) (key : string)
    : result StorageConfigError (option Z) :=
  match get_var key with
  | None => Ok None
  | Some value =>
      if is_blank value then Ok None else ok_or (SceInvalidEnv key value) (Some <$> parse value)
  end.

Definition state_storage_from_env (get_var : environment) : result StorageConfigError StorageConfig :=
  read_connection ← ok_or (SceMissingEnv "GITTREE_STORAGE_READ_URL") (get_var "GITTREE_STORAGE_READ_URL");
  let write_connection := get_var "GITTREE_STORAGE_WRITE_URL" in
  max_connections ← state_env_number parse_u32 get_var "GITTREE_STORAGE_MAX_CONNECTIONS";
  min_connections ← state_env_number parse_u32 get_var "GITTREE_STORAGE_MIN_CONNECTIONS";
  idle_timeout_secs ← state_env_number parse_u64 get_var "GITTREE_STORAGE_IDLE_TIMEOUT_SECS";
  max_lifetime_secs ← state_env_number parse_u64 get_var "GITTREE_STORAGE_MAX_LIFETIME_SECS";
  let config := mkStorageConfig read_connection write_connection (default 10%Z max_connections)
    (default 2%Z min_connections) idle_timeout_secs max_lifetime_secs
    (get_var "GITTREE_STORAGE_APP_NAME") in
  _ ← map_err (λ err, SceInvalidConfig (StorageError_display err)) (StorageConfig_validate config);
  Ok config.

(** ** Responses and errors *)

Record AccountViewResponse := mkAccountViewResponse {
  av_npub : string; av_status : string; av_created_at : Z; av_updated_at : Z; av_deleted_at : option Z
}.
Record ProfileViewResponse := mkProfileViewResponse {
  pv_npub : string; pv_display_name : option string; pv_bio : option string;
  pv_avatar_url : option string; pv_website_url : option string; pv_location : option string;
  pv_visibility : string; pv_updated_at : Z
}.
Record RepoViewResponse := mkRepoViewResponse {
  rv_owner : string; rv_repo : string; rv_description : option string; rv_website_url : option string;
  rv_visibility : string; rv_default_branch : string; rv_archived : bool; rv_updated_at : Z
}.
Record RepoMaintainersResponse := mkRepoMaintainersResponse {
  rmr_owner : string; rmr_repo : string; rmr_maintainers : list string
}.
Record RepoActivityResponse := mkRepoActivityResponse {
  rar_owner : string; rar_repo : string; rar_activity : list string
}.
Record StateResponse := mkStateResponse {
  sr_event_id : string; sr_pubkey : string; sr_identifier : string; sr_created_at : Z;
  sr_state : gmap string string
}.
Record MaintainersResponse := mkMaintainersResponse { mr_identifier : string; mr_maintainers : list string }.
Record RelayCompatibilityResponse := mkRelayCompatibilityResponse {
  rcp_relay_url : string; rcp_compatible : bool; rcp_supported : list string;
  rcp_missing_required : list string; rcp_missing_optional : list string;
  rcp_nip11_url : option string; rcp_nip11_available : bool; rcp_active_probe_ok : option bool;
  rcp_active_probe_error : option string; rcp_checked_at : Z
}.

Inductive StateHttpError :=
| ShBadRequest (message : string)
| ShNotFound (message : string)
| ShStorage (message : string).

Inductive StateServiceError :=
| SsInvalidInput (field value : string)
| SsNotFound (pubkey identifier : string)
| SsRelayNotFound (relay_url : string)
| SsStorage (err : StorageError).

Definition StateServiceError_display (e : StateServiceError) : string :=
  match e with
  | SsInvalidInput field value => "invalid " +:+ field +:+ ": " +:+ value
  | SsNotFound pubkey identifier => "state not found for " +:+ pubkey +:+ ":" +:+ identifier
  | SsRelayNotFound relay_url => "relay compatibility not found for " +:+ relay_url
  | SsStorage err => "storage error: " +:+ StorageError_display err
  end.

Definition StateHttpError_from (err : StateServiceError) : StateHttpError :=
  match err with
  | SsInvalidInput field value => ShBadRequest (field +:+ ": " +:+ value)
  | SsNotFound pubkey identifier => ShNotFound (pubkey +:+ ":" +:+ identifier)
  | SsRelayNotFound relay_url => ShNotFound relay_url
  | SsStorage err => ShStorage (StorageError_display err)
  end.

(** The status and the body of an error. *)
Definition StateHttpError_into_response (e : StateHttpError) : Z * string :=
  match e with
  | ShBadRequest message => (400, message)%Z
  | ShNotFound message => (404, message)%Z
  | ShStorage message => (500, message)%Z
  end.

(** ** The cache of responses *)

Record StateCache := mkStateCache {
  sc_config : CacheConfig;
  sc_state_entries : LockedMap StateResponse;
  sc_maintainer_entries : LockedMap MaintainersResponse;
  sc_relay_entries : LockedMap RelayCompatibilityResponse;
  sc_clock : Clock
}.

Definition StateCacheConfig_default : CacheConfig := mkCacheConfig (Some 30000000000%N) 1024.
Definition StateCache_new (config : CacheConfig) (clock : Clock) : StateCache :=
  mkStateCache config (mkLockedMap false ∅) (mkLockedMap false ∅) (mkLockedMap false ∅) clock.
Definition StateCache_key (pubkey_hex identifier : string) : string :=
  pubkey_hex +:+ ":" +:+ identifier.
Definition relay_key (relay_url : string) : string := relay_url.

(** One of its maps. *)
Record EntryField (T : Type) := mkEntryField {
  ef_get : StateCache → LockedMap T;
  ef_put : LockedMap T → StateCache → StateCache
}.
Arguments mkEntryField {T} _ _.
Arguments ef_get {T} _ _.
Arguments ef_put {T} _ _ _.

Definition e_state : EntryField StateResponse := mkEntryField sc_state_entries
  (λ x c, mkStateCache (sc_config c) x (sc_maintainer_entries c) (sc_relay_entries c) (sc_clock c)).
Definition e_maintainers : EntryField MaintainersResponse := mkEntryField sc_maintainer_entries
  (λ x c, mkStateCache (sc_config c) (sc_state_entries c) x (sc_relay_entries c) (sc_clock c)).
Definition e_relay : EntryField RelayCompatibilityResponse := mkEntryField sc_relay_entries
  (λ x c, mkStateCache (sc_config c) (sc_state_entries c) (sc_maintainer_entries c) x (sc_clock c)).

Section StateCache.
Context `{HashOrder}.

Definition sc_instant_now (c : StateCache) : N * StateCache :=
  let now := (ck_now (sc_clock c) + default 0 (head (ck_ticks (sc_clock c))))%N in
  (now, mkStateCache (sc_config c) (sc_state_entries c) (sc_maintainer_entries c) (sc_relay_entries c)
          (mkClock now (tail (ck_ticks (sc_clock c))))).

Definition sc_is_fresh {T} (entry : CacheEntry T) (c : StateCache) : bool * StateCache :=
  match cc_ttl (sc_config c) with
  | Some ttl => let '(now, c) := sc_instant_now c in ((now - ce_stored_at entry <? ttl)%N, c)
  | None => (true, c)
  end.

Definition sc_evict_if_needed {T} (c : StateCache) (map : gmap string (CacheEntry T))
    : gmap string (CacheEntry T) :=
  evict_loop (size map) (cc_max_entries (sc_config c)) map.

(** [get_state], [get_maintainers], [get_relay_compatibility] *)
Definition get_entry {T} (f : EntryField T) (key : string) (c : StateCache) : option T * StateCache :=
  if negb (cache_enabled (sc_config c)) then (None, c)
  else if lm_poisoned (ef_get f c) then (None, c)
  else match lm_map (ef_get f c) !! key with
       | None => (None, c)
       | Some entry =>
           let '(fresh, c) := sc_is_fresh entry c in
           if fresh : bool then (Some (ce_value entry), c)
           else (None, ef_put f (mkLockedMap false (delete key (lm_map (ef_get f c)))) c)
       end.

(** [insert_state], [insert_maintainers], [insert_relay_compatibility] *)
Definition insert_entry {T} (f : EntryField T) (key : string) (value : T) (c : StateCache) : StateCache :=
  if negb (cache_enabled (sc_config c)) then c
  else if lm_poisoned (ef_get f c) then c
  else
    let '(now, c) := sc_instant_now c in
    ef_put f (mkLockedMap false
      (sc_evict_if_needed c (<[key := mkCacheEntry value now]> (lm_map (ef_get f c))))) c.

(** A response from the cache, or computed and then stored. *)
Definition cached_response {R E T} (f : EntryField T) (key : string) (compute : stateful R E T)
    : stateful (R * StateCache) E T := λ s,
  match get_entry f key s.2 with
  | (Some value, c) => (Ok value, (s.1, c))
  | (None, c) =>
      match compute s.1 with
      | (Err e, r) => (Err e, (r, c))
      | (Ok response, r) => (Ok response, (r, insert_entry f key response c))
      end
  end.
End StateCache.

(** ** The service over the repositories *)

Section Service.
Context {R : Type} `{HexLib} `{HashOrder} `{RecordCodec}.

Abbreviation service := (stateful R StateServiceError).

Definition latest_state `{StateRepository R} (pubkey_hex identifier : string) : service StateResponse :=
  _ ← lift (fail_if (is_blank identifier) (SsInvalidInput "identifier" identifier));
  filter ← lift (map_err SsStorage (RepoFilter_from_hex pubkey_hex identifier));
  record ← map_err_st SsStorage (repo_latest_state (rf_pubkey filter) (rf_identifier filter));
  record ← lift (ok_or (SsNotFound pubkey_hex identifier) record);
  state ← lift (map_err SsStorage (state_map record));
  lift (Ok (mkStateResponse (hex_encode (rs_event_id record)) (hex_encode (rs_pubkey record))
              (rs_identifier record) (rs_created_at record) state)).

Definition latest_state_cached `{StateRepository R} (pubkey_hex identifier : string)
    : stateful (R * StateCache) StateServiceError StateResponse :=
  cached_response e_state (StateCache_key pubkey_hex identifier) (latest_state pubkey_hex identifier).

(** [while let Some(pubkey) = pending.pop() { … }]; the top of the stack is the
    head of the list.  [None] when the fuel runs out. *)
Fixpoint resolve_loop `{AnnouncementRepository R} (fuel : nat) (identifier : string)
    (pending : list string) (seen : gset string) : service (option (gset string)) :=
  match fuel with
  | 0 => mret None
  | S fuel =>
      match pending with
      | [] => mret (Some seen)
      | pubkey :: pending =>
          if bool_decide (pubkey ∈ seen) then resolve_loop fuel identifier pending seen
          else
            filter ← lift (map_err SsStorage (RepoFilter_from_hex pubkey identifier));
            announcement ← map_err_st SsStorage
              (latest_announcement (rf_pubkey filter) (rf_identifier filter));
            match announcement with
            | None => resolve_loop fuel identifier pending seen
            | Some announcement =>
                let seen := {[pubkey]} ∪ seen in
                resolve_loop fuel identifier
                  (foldl (λ pending maintainer,
                     if bool_decide (maintainer ∈ seen) then pending else maintainer :: pending)
                     pending (ra_maintainers announcement)) seen
            end
      end
  end.

Definition resolve_maintainers `{AnnouncementRepository R} (fuel : nat) (pubkey_hex identifier : string)
    : service (option MaintainersResponse) :=
  _ ← lift (fail_if (is_blank identifier) (SsInvalidInput "identifier" identifier));
  seen ← resolve_loop fuel identifier [pubkey_hex] ∅;
  lift (Ok ((λ seen, mkMaintainersResponse identifier (merge_sort String.le (elements (seen : gset string)))) <$> seen)).

Definition resolve_maintainers_cached `{AnnouncementRepository R} (fuel : nat) (pubkey_hex identifier : string)
    : stateful (R * StateCache) StateServiceError (option MaintainersResponse) := λ s,
  let key := StateCache_key pubkey_hex identifier in
  match get_entry e_maintainers key s.2 with
  | (Some value, c) => (Ok (Some value), (s.1, c))
  | (None, c) =>
      match resolve_maintainers fuel pubkey_hex identifier s.1 with
      | (Ok (Some response), r) => (Ok (Some response), (r, insert_entry e_maintainers key response c))
      | (res, r) => (res, (r, c))
      end
  end.

Definition state_relay_compatibility `{RelayCompatibilityRepository R} (relay_url : string)
    : service RelayCompatibilityResponse :=
  _ ← lift (fail_if (is_blank relay_url) (SsInvalidInput "relay_url" relay_url));
  record ← map_err_st SsStorage (relay_compatibility relay_url);
  record ← lift (ok_or (SsRelayNotFound relay_url) record);
  lift (Ok (mkRelayCompatibilityResponse (rcr_relay_url record) (rcr_compatible record)
              (rcr_supported_capabilities record) (rcr_missing_required record)
              (rcr_missing_optional record) (rcr_nip11_url record) (rcr_nip11_available record)
              (rcr_active_probe_ok record) (rcr_active_probe_error record) (rcr_checked_at record))).

Definition relay_compatibility_cached `{RelayCompatibilityRepository R} (relay_url : string)
    : stateful (R * StateCache) StateServiceError RelayCompatibilityResponse :=
  cached_response e_relay (relay_key relay_url) (state_relay_compatibility relay_url).
End Service.

(** ** The views *)

Class ProjectionRepositories (P : Type) := {
  p_account_state : bytes → stateful P StorageError (option AccountStateRecord);
  p_profile_state : bytes → stateful P StorageError (option ProfileStateRecord);
  p_repo_state : bytes → string → stateful P StorageError (option RepoStateV1Record);
  p_list_active_repo_maintainers : bytes → string → stateful P StorageError (gset bytes)
}.

#[export] Instance PostgresRepositories_projection `{TimeLib} : ProjectionRepositories (Database V1Tables) := {|
  p_account_state := v1_account_state;
  p_profile_state := v1_profile_state;
  p_repo_state := v1_repo_state;
  p_list_active_repo_maintainers := v1_list_active_repo_maintainers
|}.

Section Views.
Context {P : Type} `{ProjectionRepositories P} `{Bech32Lib} `{Bech32Encode}.

Abbreviation view := (stateful P StateHttpError).
Definition storage_failure (err : StorageError) : StateHttpError := ShStorage (StorageError_display err).

Definition parse_npub_param (npub : string) : result StateHttpError bytes :=
  map_err (λ _, ShBadRequest ("invalid npub: " +:+ npub)) (pubkey_bytes_from_npub npub).

Definition account_view_handler (npub : string) : view AccountViewResponse :=
  pubkey ← lift (parse_npub_param npub);
  record ← map_err_st storage_failure (p_account_state pubkey);
  record ← lift (ok_or (ShNotFound "account") record);
  lift (Ok (mkAccountViewResponse npub (AccountLifecycle_as_str (as_status record))
              (as_created_at record) (as_updated_at record) (as_deleted_at record))).

Definition profile_view_handler (npub : string) : view ProfileViewResponse :=
  pubkey ← lift (parse_npub_param npub);
  record ← map_err_st storage_failure (p_profile_state pubkey);
  record ← lift (ok_or (ShNotFound "profile") record);
  if ProfileVisibilityV1_as_str (ps_visibility record) == "private"
  then lift (Err (ShNotFound "profile"))
  else lift (Ok (mkProfileViewResponse npub (ps_display_name record) (ps_bio record)
         (ps_avatar_url record) (ps_website_url record) (ps_location record)
         (ProfileVisibilityV1_as_str (ps_visibility record)) (ps_updated_at record))).

Definition repo_view_handler (owner repo : string) : view RepoViewResponse :=
  owner_pubkey ← lift (parse_npub_param owner);
  record ← map_err_st storage_failure (p_repo_state owner_pubkey repo);
  record ← lift (ok_or (ShNotFound "repo") record);
  lift (Ok (mkRepoViewResponse owner (rp_repo_name record) (rp_description record)
         (rp_website_url record) (RepoVisibilityV1_as_str (rp_visibility record))
         (rp_default_branch record) (rp_archived record) (rp_updated_at record))).

Definition repo_maintainers_view_handler (owner repo : string) : view RepoMaintainersResponse :=
  owner_pubkey ← lift (parse_npub_param owner);
  maintainers ← map_err_st storage_failure (p_list_active_repo_maintainers owner_pubkey repo);
  let values := omap (λ maintainer, ok (npub_from_bytes maintainer)) (elements maintainers) in
  lift (Ok (mkRepoMaintainersResponse owner repo (merge_sort String.le values))).

Definition repo_activity_view_handler (owner repo : string) : view RepoActivityResponse :=
  lift (Ok (mkRepoActivityResponse owner repo [])).
End Views.

(** ** The router *)

Inductive StateReply :=
| RepHealth
| RepRelayCompatibility (r : RelayCompatibilityResponse)
| RepAccount (r : AccountViewResponse)
| RepProfile (r : ProfileViewResponse)
| RepRepo (r : RepoViewResponse)
| RepMaintainers (r : RepoMaintainersResponse)
| RepActivity (r : RepoActivityResponse).

Record StateAppState (R P : Type) := mkStateAppState {
  sa_repositories : R;
  sa_projection_repositories : P;
  sa_cache : StateCache
}.
Arguments mkStateAppState {R P} _ _ _.
Arguments sa_repositories {R P} _.
Arguments sa_projection_repositories {R P} _.
Arguments sa_cache {R P} _.

Section Router.
Context {R P : Type} `{RelayCompatibilityRepository R} `{ProjectionRepositories P}.
Context `{HashOrder} `{Bech32Lib} `{Bech32Encode}.

Definition on_projection {A} (f : A → StateReply) (c : stateful P StateHttpError A)
    : stateful (StateAppState R P) StateHttpError StateReply := λ s,
  let '(r, p) := c (sa_projection_repositories s) in
  (f <$> r, mkStateAppState (sa_repositories s) p (sa_cache s)).

Definition relay_compatibility_handler (relay_url : string)
    : stateful (StateAppState R P) StateHttpError RelayCompatibilityResponse := λ s,
  let '(r, (repositories, cache)) :=
    relay_compatibility_cached relay_url (sa_repositories s, sa_cache s) in
  (map_err StateHttpError_from r, mkStateAppState repositories (sa_projection_repositories s) cache).

(** A GET of a path; [None] when no route matches.  [relay_url] is the parameter
    of the query, without which the extractor rejects the request. *)
Definition build_router (path : list string) (relay_url : option string)
    : option (stateful (StateAppState R P) StateHttpError StateReply) :=
  match path with
  | ["health"] => Some (lift (Ok RepHealth))
  | ["relay-compatibility"] =>
      Some (match relay_url with
            | Some relay_url => r ← relay_compatibility_handler relay_url; lift (Ok (RepRelayCompatibility r))
            | None => lift (Err (ShBadRequest "Failed to deserialize query string: missing field `relay_url`"))
            end)
  | ["v1"; "accounts"; npub] => Some (on_projection RepAccount (account_view_handler npub))
  | ["v1"; "profiles"; npub] => Some (on_projection RepProfile (profile_view_handler npub))
  | ["v1"; "repos"; owner; repo] => Some (on_projection RepRepo (repo_view_handler owner repo))
  | ["v1"; "repos"; owner; repo; "maintainers"] =>
      Some (on_projection RepMaintainers (repo_maintainers_view_handler owner repo))
  | ["v1"; "repos"; owner; repo; "activity"] =>
      Some (on_projection RepActivity (repo_activity_view_handler owner repo))
  | _ => None
  end.
End Router.

(** ** The closure of the maintainers *)

Section Maintainers.
Context `{HexLib} (l : list RepoAnnouncementRecord) (identifier root : string).

(** [r] is the latest announcement of the key written [s]. *)
Definition listed (s : string) (r : RepoAnnouncementRecord) : Prop :=
  ∃ p, hex_decode s = Some p ∧ latest_of ra_created_at (List.filter (ann_of p identifier) l) (Some r).

(** Reached from [root] along the maintainers of latest announcements, each key having one. *)
Inductive reaches : string → Prop :=
| reaches_root r : listed root r → reaches root
| reaches_step m r m' r' : reaches m → listed m r → m' ∈ ra_maintainers r → listed m' r' → reaches m'.

(** The key of the request, or one named by an announcement that is reached. *)
Definition candidate (c : string) : Prop :=
  c = root ∨ ∃ m r, reaches m ∧ listed m r ∧ c ∈ ra_maintainers r.

(** Announcements of a repository with the same time are the same. *)
Definition untied : Prop :=
  ∀ p r r', latest_of ra_created_at (List.filter (ann_of p identifier) l) (Some r) →
    latest_of ra_created_at (List.filter (ann_of p identifier) l) (Some r') → r = r'.

(** All keys that can be met. *)
Definition universe : list string := root :: flat_map ra_maintainers l.
Definition universe_set : gset string := list_to_set universe.
(** More rounds than the loop can take: each key is added to [seen] once, and
    adding one pushes at most all keys. *)
Definition resolve_fuel : nat := S (length universe * S (length universe) + 1).
Definition work (pending : list string) (seen : gset string) : nat :=
  size (universe_set ∖ seen) * S (length universe) + length pending.

Lemma reaches_listed m : reaches m → ∃ r, listed m r.
Proof. destruct 1; eauto. Qed.

Lemma listed_in s r : listed s r → r ∈ l.
Proof. intros (p & _ & Hin & _). apply list_elem_of_In, filter_In in Hin as [Hin _]. by apply list_elem_of_In. Qed.

Lemma listed_maintainers s r m : listed s r → m ∈ ra_maintainers r → m ∈ universe.
Proof.
  intros Hr Hm. right. apply list_elem_of_In, in_flat_map. exists r.
  split; apply list_elem_of_In; [by eapply listed_in|done].
Qed.

Lemma candidate_universe c : candidate c → c ∈ universe.
Proof. intros [->|(m & r & _ & Hr & Hc)]; [left|by eapply listed_maintainers]. Qed.

Lemma listed_length s r : listed s r → length (ra_maintainers r) ≤ length universe.
Proof.
  intros Hin%listed_in. simpl. apply le_S. induction l as [|x l' IH]; [by apply not_elem_of_nil in Hin|].
  simpl. rewrite length_app. apply elem_of_cons in Hin as [->|Hin]; [lia|]. apply IH in Hin. lia.
Qed.

(** The state of the loop. *)
Record resolving (pending : list string) (seen : gset string) : Prop := {
  pending_candidates : ∀ c, c ∈ pending → candidate c;
  seen_reached : ∀ m, m ∈ seen → reaches m;
  root_handled : root ∈ seen ∨ root ∈ pending ∨ ∀ r, ¬ listed root r;
  seen_closed : untied → ∀ m r m', m ∈ seen → listed m r → m' ∈ ra_maintainers r →
    m' ∈ seen ∨ m' ∈ pending ∨ ∀ r', ¬ listed m' r'
}.

Lemma resolving_start : resolving [root] ∅.
Proof.
  split; [|set_solver|right; left; left|set_solver].
  intros c ->%list_elem_of_singleton. by left.
Qed.

Lemma resolving_end seen m : untied → resolving [] seen → reaches m → m ∈ seen.
Proof.
  intros Hu [_ Hs Hr Hc]. induction 1 as [r Hl|m r m' r' _ IH Hl Hm Hl'].
  - destruct Hr as [?|[Hn|Hn]]; [done|by apply not_elem_of_nil in Hn|by apply Hn in Hl].
  - destruct (Hc Hu m r m' IH Hl Hm) as [?|[Hn|Hn]]; [done|by apply not_elem_of_nil in Hn|by apply Hn in Hl'].
Qed.

(** Popping a key that is seen or has no announcement. *)
Lemma resolving_skip c pending seen :
  resolving (c :: pending) seen → c ∈ seen ∨ (∀ r, ¬ listed c r) → resolving pending seen.
Proof.
  intros [Hp Hs Hr Hc] Hskip. split; [set_solver|done| |].
  - destruct Hr as [?|[[->|?]%elem_of_cons|?]]; [auto|destruct Hskip; auto|auto|auto].
  - intros Hu m r m' Hm Hl Hm'. destruct (Hc Hu m r m' Hm Hl Hm') as [?|[[->|?]%elem_of_cons|?]]; [auto| |auto|auto].
    destruct Hskip; auto.
Qed.

Definition push_maintainers (seen : gset string) (pending maintainers : list string) : list string :=
  foldl (λ pending m, if bool_decide (m ∈ seen) then pending else m :: pending) pending maintainers.

Lemma push_cons seen pending m ms : push_maintainers seen pending (m :: ms) =
  push_maintainers seen (if bool_decide (m ∈ seen) then pending else m :: pending) ms.
Proof. done. Qed.

Lemma elem_of_push seen pending ms m :
  m ∈ push_maintainers seen pending ms ↔ m ∈ pending ∨ (m ∈ ms ∧ m ∉ seen).
Proof.
  revert pending. induction ms as [|x ms IH]; intros pending; [set_solver|].
  rewrite push_cons, IH. case_bool_decide; set_solver.
Qed.

Lemma length_push seen pending ms : length (push_maintainers seen pending ms) ≤ length pending + length ms.
Proof.
  revert pending. induction ms as [|x ms IH]; intros pending; [simpl; lia|].
  rewrite push_cons. case_bool_decide; (etrans; [apply IH|]); simpl; lia.
Qed.

Lemma resolving_add c r pending seen :
  resolving (c :: pending) seen → listed c r → c ∉ seen →
  resolving (push_maintainers ({[c]} ∪ seen) pending (ra_maintainers r)) ({[c]} ∪ seen).
Proof.
  intros [Hp Hs Hr Hc] Hl Hn.
  assert (reaches c) as Hcr.
  { destruct (Hp c) as [->|(m & r0 & Hm & Hl0 & Hin)]; [left| |]; eauto using reaches. }
  split.
  - intros m [Hm|[Hm _]]%elem_of_push; [apply Hp; by right|]. right. eauto.
  - intros m [->%elem_of_singleton|Hm]%elem_of_union; auto.
  - setoid_rewrite elem_of_push. destruct Hr as [?|[[->|?]%elem_of_cons|?]]; set_solver.
  - intros Hu m r0 m' [->%elem_of_singleton|Hm]%elem_of_union Hl0 Hm'; rewrite elem_of_push.
    + assert (r0 = r) as ->.
      { destruct Hl as (p & Hd & Hlat), Hl0 as (p' & Hd' & Hlat'). simplify_eq. eauto. }
      destruct (decide (m' ∈ ({[c]} ∪ seen : gset string))); auto.
    + destruct (Hc Hu m r0 m' Hm Hl0 Hm') as [?|[[->|?]%elem_of_cons|?]]; set_solver.
Qed.

Lemma work_skip c pending seen : work pending seen < work (c :: pending) seen.
Proof. unfold work. simpl. lia. Qed.

(** Adding a key to [seen] pays for what is pushed. *)
Lemma work_push c ms pending seen :
  length ms ≤ length universe → c ∈ universe → c ∉ seen →
  work (push_maintainers ({[c]} ∪ seen) pending ms) ({[c]} ∪ seen) < work (c :: pending) seen.
Proof.
  intros Hlen Hu Hn. unfold work. pose proof (length_push ({[c]} ∪ seen) pending ms).
  assert (size (universe_set ∖ seen) = S (size (universe_set ∖ ({[c]} ∪ seen)))) as ->.
  { assert (c ∈ universe_set) by (by apply elem_of_list_to_set).
    rewrite (union_difference_singleton_L c (universe_set ∖ seen)) by set_solver.
    rewrite size_union, size_singleton by set_solver. simpl. do 2 f_equal. set_solver. }
  rewrite Nat.mul_succ_l, length_cons. lia.
Qed.
End Maintainers.

Lemma size_list_to_set_le (l : list string) : size (list_to_set l : gset string) ≤ length l.
Proof.
  induction l as [|x l IH]; [done|]. rewrite list_to_set_cons. cbn [length]. rewrite size_union_alt, size_singleton.
  assert (size (list_to_set l ∖ {[x]} : gset string) ≤ size (list_to_set l : gset string))
    by (apply subseteq_size; set_solver). lia.
Qed.

Lemma resolve_fuel_work l root fuel : resolve_fuel l root ≤ fuel → work l root [root] ∅ < fuel.
Proof.
  intros Hf. eapply Nat.lt_le_trans; [|exact Hf]. unfold resolve_fuel, work. apply Nat.lt_succ_r.
  apply Nat.add_le_mono; [|simpl; lia]. apply Nat.mul_le_mono_r.
  etrans; [apply (subseteq_size _ (universe_set l root)); set_solver|]. apply size_list_to_set_le.
Qed.

Section Resolve.
Context {R : Type} `{HexLib} `{AnnouncementRepository R}.
(** A repository that stands for a list of announcements, as it is read. *)
Context (holds : R → list RepoAnnouncementRecord → Prop).
Context (reads_latest : ∀ p i, answers holds (latest_announcement p i)
  (λ l o, latest_of ra_created_at (List.filter (ann_of p i) l) o)).
Context (l : list RepoAnnouncementRecord) (identifier root : string).

(** Why a resolution fails: a key that is met is not hexadecimal, or a read fails. *)
Inductive resolve_failure : StateServiceError → Prop :=
| failure_hex c err : candidate l identifier root c → RepoFilter_from_hex c identifier = Err err →
    resolve_failure (SsStorage err)
| failure_read p s s' err : holds s l → latest_announcement p identifier s = (Err err, s') →
    resolve_failure (SsStorage err).

Definition resolve_outcome (r : result StateServiceError (option (gset string))) : Prop :=
  match r with
  | Ok (Some seen) => (∀ m, m ∈ seen → reaches l identifier root m) ∧
      (untied l identifier → ∀ m, reaches l identifier root m → m ∈ seen)
  | Ok None => False
  | Err e => resolve_failure e
  end.

Lemma RepoFilter_from_hex_Ok c f :
  RepoFilter_from_hex c identifier = Ok f ↔ ∃ p, hex_decode c = Some p ∧ f = mkRepoFilter p identifier.
Proof. unfold RepoFilter_from_hex. destruct (hex_decode c); simpl; naive_solver. Qed.

Lemma resolve_loop_spec fuel pending seen s r s' :
  holds s l → resolving l identifier root pending seen →
  work l root pending seen < fuel →
  resolve_loop fuel identifier pending seen s = (r, s') → holds s' l ∧ resolve_outcome r.
Proof.
  revert pending seen s. induction fuel as [|fuel IH]; intros pending seen s Hs Hi Hw; [lia|].
  destruct pending as [|c pending]; simpl.
  { intros [= <- <-]. split; [done|]. split; [apply Hi|]. intros Hu m. by apply resolving_end. }
  pose proof (work_skip l root c pending seen) as Hskip.
  case_bool_decide as Hseen.
  { intros E. eapply IH; [done| | |done]; [|lia]. eapply resolving_skip; [done|]. by left. }
  unfold mbind, stateful_bind, lift, map_err_st.
  destruct (RepoFilter_from_hex c identifier) as [f|err] eqn:Ef; simpl.
  2:{ intros [= <- <-]. split; [done|]. eapply failure_hex; [|done]. apply Hi. left. }
  apply RepoFilter_from_hex_Ok in Ef as (p & Hp & ->). simpl.
  destruct (latest_announcement p identifier s) as [[o|err] s1] eqn:El;
    destruct (reads_latest p identifier _ _ _ _ Hs El) as [Hs1 Ho].
  2:{ simpl. intros [= <- <-]. split; [done|]. exact (failure_read p _ _ _ Hs El). }
  specialize (Ho _ eq_refl). destruct o as [a|]; simpl.
  - assert (listed l identifier c a) as Hl by (by exists p).
    apply (IH (push_maintainers ({[c]} ∪ seen) pending (ra_maintainers a)) _ _ Hs1 (resolving_add _ _ _ _ _ _ _ Hi Hl Hseen)).
    eapply Nat.lt_le_trans; [|apply Nat.lt_succ_r, Hw]. apply work_push; [by eapply listed_length| |done].
    eapply candidate_universe. apply Hi. left.
  - apply IH; [done| |lia]. eapply resolving_skip; [done|]. right. intros a (p' & Hp' & Hin & _).
    simplify_eq. simpl in Ho. rewrite Ho in Hin. by apply not_elem_of_nil in Hin.
Qed.

Lemma resolve_maintainers_outcome s r s' fuel :
  holds s l → resolve_fuel l root ≤ fuel → resolve_maintainers fuel root identifier s = (r, s') →
  holds s' l ∧
  match r with
  | Ok (Some response) =>
      mr_identifier response = identifier ∧ StronglySorted String.le (mr_maintainers response) ∧
      NoDup (mr_maintainers response) ∧
      (∀ m, m ∈ mr_maintainers response → reaches l identifier root m) ∧
      (untied l identifier → ∀ m, reaches l identifier root m → m ∈ mr_maintainers response)
  | Ok None => False
  | Err e => e = SsInvalidInput "identifier" identifier ∧ is_blank identifier = true ∨ resolve_failure e
  end.
Proof.
  intros Hs Hf. unfold resolve_maintainers, mbind, stateful_bind, lift, fail_if.
  destruct (is_blank identifier) eqn:Eb; [intros [= <- <-]; auto|].
  destruct (resolve_loop fuel identifier [root] ∅ s) as [r0 s0] eqn:El. intros E.
  destruct (resolve_loop_spec fuel [root] ∅ s r0 s0 Hs (resolving_start l identifier root)) as [Hs0 Ho];
    [by apply resolve_fuel_work|done|].
  destruct r0 as [[seen|]|e]; injection E as <- <-; simpl in *; [|done|auto].
  assert (∀ m, m ∈ merge_sort String.le (elements seen) ↔ m ∈ seen) as Hm.
  { intros m. by rewrite merge_sort_Permutation, elem_of_elements. }
  split; [done|]. split; [done|]. split_and!.
  - apply StronglySorted_merge_sort; apply _.
  - rewrite merge_sort_Permutation. apply NoDup_elements.
  - intros m ?%Hm. by apply Ho.
  - intros Hu m ?. by apply Hm, Ho.
Qed.
End Resolve.

Section Closure.
Context {R : Type} `{HexLib} `{AnnouncementRepository R}.
Context (holds : R → list RepoAnnouncementRecord → Prop).
Context (reads_latest : ∀ p i, answers holds (latest_announcement p i)
  (λ l o, latest_of ra_created_at (List.filter (ann_of p i) l) o)).
(** A repository whose reads do not fail. *)
Context (good : R → Prop) (reads_good : ∀ p i s, good s → ∃ o s', latest_announcement p i s = (Ok o, s') ∧ good s').

(** The answers of a repository whose reads do not fail. *)
Lemma good_reads_latest p i : answers (λ s l, holds s l ∧ good s) (latest_announcement p i)
  (λ l o, latest_of ra_created_at (List.filter (ann_of p i) l) o).
Proof.
  intros s l r s' [Hs Hg] E. destruct (reads_good p i s Hg) as (o & s1 & E1 & Hg1).
  destruct (reads_latest p i _ _ _ _ Hs E) as [Hs' Ha]. rewrite E in E1. simplify_eq. auto.
Qed.

(** C26: the maintainers the service resolves, when it does not answer from its cache, are
    the closure.  With enough fuel, which is computed from the announcements, the loop ends,
    on any cycle of maintainers.  Its answer is sorted, without repetitions, and has only keys
    that the requested one reaches along the maintainers of latest announcements and that
    have an announcement themselves; it has all of them if the latest announcement of each
    key is unique.  While the reads of the repository do not fail, it fails only on a blank
    identifier or on a key, the requested one or one that a reached announcement names,
    that is not hexadecimal. *)
Theorem resolve_maintainers_closure l identifier root s r s' fuel :
  holds s l → resolve_fuel l root ≤ fuel →
  resolve_maintainers fuel root identifier s = (r, s') →
  holds s' l ∧
  match r with
  | Ok (Some response) =>
      mr_identifier response = identifier ∧ StronglySorted String.le (mr_maintainers response) ∧
      NoDup (mr_maintainers response) ∧
      (∀ m, m ∈ mr_maintainers response → reaches l identifier root m) ∧
      (untied l identifier → ∀ m, reaches l identifier root m → m ∈ mr_maintainers response)
  | Ok None => False
  | Err e => good s →
      is_blank identifier = true ∧ e = SsInvalidInput "identifier" identifier ∨
      ∃ c, candidate l identifier root c ∧ hex_decode c = None ∧ e = SsStorage (StInvalidHex "pubkey" c)
  end.
Proof.
  intros Hs Hf E. destruct (resolve_maintainers_outcome holds reads_latest l identifier root s r s' fuel Hs Hf E) as [Hs' Ho].
  split; [done|]. destruct r as [[response|]|e]; [done|done|]. intros Hg.
  destruct (resolve_maintainers_outcome _ good_reads_latest l identifier root s _ s' fuel (conj Hs Hg) Hf E)
    as [_ [[-> ?]|[c err Hc Herr|p s1 s2 err [_ Hg1] Hread]]]; [by left| |].
  - right. exists c. split; [done|]. unfold RepoFilter_from_hex in Herr. destruct (hex_decode c); [done|].
    by injection Herr as <-.
  - destruct (reads_good p identifier s1 Hg1) as (o & s3 & E3 & _). congruence.
Qed.
End Closure.

(** ** The views over the command state *)

Section ViewFacts.
Context `{TimeLaws} `{Bech32Lib} `{Bech32Encode}.

(** A view, by the command state it is over. *)
Definition shows {A} (handler : stateful (Database V1Tables) StateHttpError A)
    (spec : CommandView → result StateHttpError A) : Prop :=
  ∀ db v r db', CommandState.holds db v → handler db = (r, db') →
    CommandState.holds db' v ∧ (r = spec v ∨ ∃ err, r = Err (storage_failure err)).

Lemma shows_lookup {A B} npub (read : bytes → stateful (Database V1Tables) StorageError A)
    (look : bytes → CommandView → A) (k : A → result StateHttpError B) :
  (∀ p, realises CommandState.holds (read p) (λ v, (look p v, v))) →
  shows (pubkey ← lift (parse_npub_param npub); a ← map_err_st storage_failure (read pubkey); lift (k a))
    (λ v, pubkey ← parse_npub_param npub; k (look pubkey v)).
Proof.
  intros Hread db v r db' Hd. unfold mbind, stateful_bind, lift, map_err_st.
  destruct (parse_npub_param npub) as [p|e]; simpl; [|intros [= <- <-]; auto].
  destruct (read p db) as [[a|err] db1] eqn:E; specialize (Hread p _ _ _ _ Hd E); simpl in *;
    intros [= <- <-].
  - destruct Hread as [-> ?]. auto.
  - split; [|eauto]. by destruct Hread.
Qed.

Lemma shows_ext {A} (h h' : stateful (Database V1Tables) StateHttpError A) spec spec' :
  (∀ db, h' db = h db) → (∀ v, spec' v = spec v) → shows h spec → shows h' spec'.
Proof. intros Hh Hs Hshow db v r db' Hd E. rewrite Hh in E. rewrite Hs. by apply (Hshow db). Qed.

Definition profile_view (npub : string) (v : CommandView) : result StateHttpError ProfileViewResponse :=
  pubkey ← parse_npub_param npub;
  match cv_profiles v !! pubkey with
  | Some (mkProfileStateRecord _ name bio avatar website location PvPublic updated) =>
      Ok (mkProfileViewResponse npub name bio avatar website location "public" updated)
  | _ => Err (ShNotFound "profile")
  end.

Lemma profile_view_shows npub : shows (profile_view_handler npub) (profile_view npub).
Proof.
  eapply (shows_ext _ _ _ _ _ _ (shows_lookup npub v1_profile_state (λ p v, cv_profiles v !! p)
    (λ o, match o with
          | Some (mkProfileStateRecord _ name bio avatar website location PvPublic updated) =>
              Ok (mkProfileViewResponse npub name bio avatar website location "public" updated)
          | _ => Err (ShNotFound "profile")
          end) v1_profile_state_realises)).
  Unshelve.
  - intros db. unfold profile_view_handler, mbind, stateful_bind, lift, map_err_st.
    destruct (parse_npub_param npub) as [p|]; [|done]. cbn [p_profile_state PostgresRepositories_projection].
    destruct (v1_profile_state p db) as [[[[? ? ? ? ? ? [] ?]|]|] ?]; done.
  - done.
Qed.

(** The view of a repository does not look at its visibility. *)
Lemma repo_view_shows owner repo : shows (repo_view_handler owner repo) (λ v,
  owner_pubkey ← parse_npub_param owner;
  match cv_repos v !! (owner_pubkey, repo) with
  | Some r => Ok (mkRepoViewResponse owner (rp_repo_name r) (rp_description r) (rp_website_url r)
                (RepoVisibilityV1_as_str (rp_visibility r)) (rp_default_branch r) (rp_archived r)
                (rp_updated_at r))
  | None => Err (ShNotFound "repo")
  end).
Proof.
  eapply (shows_ext _ _ _ _ _ _ (shows_lookup owner (λ p, v1_repo_state p repo) (λ p v, cv_repos v !! (p, repo))
    (λ o, match o with
          | Some r => Ok (mkRepoViewResponse owner (rp_repo_name r) (rp_description r) (rp_website_url r)
                (RepoVisibilityV1_as_str (rp_visibility r)) (rp_default_branch r) (rp_archived r)
                (rp_updated_at r))
          | None => Err (ShNotFound "repo")
          end) (λ p, v1_repo_state_realises p repo))).
  Unshelve.
  - intros db. unfold repo_view_handler, mbind, stateful_bind, lift, map_err_st.
    destruct (parse_npub_param owner) as [p|]; [|done]. cbn [p_repo_state PostgresRepositories_projection].
    by destruct (v1_repo_state p repo db) as [[[r|]|] ?].
  - done.
Qed.

(** Nothing of the profile of [pubkey] is public. *)
Definition hidden (v : CommandView) (pubkey : bytes) : Prop :=
  ∀ r, cv_profiles v !! pubkey = Some r → ps_visibility r = PvPrivate.

Lemma hidden_view v npub pubkey :
  parse_npub_param npub = Ok pubkey → hidden v pubkey → profile_view npub v = Err (ShNotFound "profile").
Proof.
  intros Hp Hh. unfold profile_view. rewrite Hp. simpl.
  destruct (cv_profiles v !! pubkey) as [[? ? ? ? ? ? vis ?]|] eqn:E; [|done].
  apply Hh in E. simpl in E. by subst.
Qed.

Lemma execute_all_profiles inputs (db : Database V1Tables) v pubkey :
  stands db v → view_keyed v → Forall (λ i, ci_actor_pubkey i ≠ pubkey) inputs →
  ∃ v', stands (execute_all inputs db) v' ∧ cv_profiles v' !! pubkey = cv_profiles v !! pubkey.
Proof.
  revert db v. induction inputs as [|i inputs IH]; intros db v Hs Hv Hf; [by exists v|]. simpl.
  apply Forall_cons in Hf as [Hi Hf]. destruct (execute_command i db) as [r db1] eqn:E.
  destruct (execute_command_executed _ _ _ _ _ Hs E) as (v1 & Hs1 & He).
  destruct (executed_within _ _ _ _ Hv He) as [Hw Hv1].
  destruct (IH db1 v1 Hs1 Hv1 Hf) as (v2 & Hs2 & Hp). exists v2. split; [done|].
  rewrite Hp. apply Hw. congruence.
Qed.

(** A profile that is private, or that was never set, stays hidden from the
    views whatever commands other keys send: after any sequence of commands of others on
    the tables that the views read, a request for the profile is answered that there is none (or
    that the storage failed), the same answer for both cases. *)
Lemma private_profile_hidden inputs (db : Database V1Tables) v npub pubkey :
  stands db v → view_keyed v → parse_npub_param npub = Ok pubkey →
  Forall (λ i, ci_actor_pubkey i ≠ pubkey) inputs → hidden v pubkey →
  let r := (profile_view_handler npub (execute_all inputs db)).1 in
  r = Err (ShNotFound "profile") ∨ ∃ err, r = Err (storage_failure err).
Proof.
  intros Hs Hv Hp Hf Hh. destruct (execute_all_profiles _ _ _ _ Hs Hv Hf) as (v' & Hs' & Hsame).
  destruct (profile_view_handler npub (execute_all inputs db)) as [r db'] eqn:E.
  destruct (profile_view_shows npub _ _ _ _ Hs' E) as [_ [->|?]]; [left|by right]. simpl.
  apply (hidden_view _ _ _ Hp). unfold hidden. by rewrite Hsame.
Qed.
End ViewFacts.

(** ** Witnesses *)

(** Two keys that name each other as maintainers. *)
Definition sample_ann_by (pubkey maintainer : string) : RepoAnnouncementRecord :=
  mkRepoAnnouncementRecord "e" pubkey "r" None None None [] [] [] [] [] [maintainer] 5.
Definition sample_anns : list RepoAnnouncementRecord := [sample_ann_by "a" "62"; sample_ann_by "b" "61"].
Definition sample_ann_repository : MemoryAnnouncements :=
  let _ := hex_model in
  mkMemoryAnnouncements (foldl (λ m r, push_record (repo_key (ra_rec_pubkey r) (ra_rec_identifier r)) r m)
    ∅ sample_anns).

Lemma sample_ann_holds : let _ := hex_model in let _ := hex_model_laws in ann_holds sample_ann_repository sample_anns.
Proof.
  intros hm hl. cbn [sample_ann_repository ann_holds Memory_announcement_laws ma_announcements].
  change sample_anns with (([] ++ [sample_ann_by "a" "62"]) ++ [sample_ann_by "b" "61"]).
  apply grouped_push, grouped_push. intros p i. done.
Qed.

Lemma sample_anns_untied : untied sample_anns "r".
Proof.
  assert (∀ p r, r ∈ List.filter (ann_of p "r") sample_anns →
    r = sample_ann_by "a" "62" ∧ p = "a" ∨ r = sample_ann_by "b" "61" ∧ p = "b") as Hin.
  { intros p r [Hr Hp]%list_elem_of_In%filter_In. unfold ann_of in Hp.
    apply andb_true_iff in Hp as [<-%String.eqb_eq _].
    destruct Hr as [<-|[<-|[]]]; auto. }
  intros p r r' [Hr%Hin _] [Hr'%Hin _].
  destruct Hr as [[-> ->]|[-> ->]], Hr' as [[-> Hp]|[-> Hp]]; done.
Qed.

Lemma resolve_maintainers_closure_witness :
  let _ := hex_model in let _ := sample_hash_order in
  (resolve_maintainers 20 "61" "r" sample_ann_repository).1
    = Ok (Some (mkMaintainersResponse "r" ["61"; "62"])) ∧
  reaches sample_anns "r" "61" "62".
Proof.
  intros hm ho. split; [vm_compute; reflexivity|].
  destruct (resolve_maintainers_closure (ann_holds (R:=MemoryAnnouncements)) (latest_announcement_spec (R:=MemoryAnnouncements))
    (λ _, True) memory_latest_good
    sample_anns "r" "61" sample_ann_repository (Ok (Some (mkMaintainersResponse "r" ["61"; "62"])))
    (resolve_maintainers 20 "61" "r" sample_ann_repository).2 20) as (_ & _ & _ & _ & Hm & _).
  - exact sample_ann_holds.
  - vm_compute. lia.
  - vm_compute. reflexivity.
  - apply Hm. right. left.
Defined.

Lemma private_profile_hidden_witness :
  let _ := time_model in let _ := sample_npub_lib in
  (profile_view_handler "npub1abcdefabcdefabcdefabcdefabcdefab" (execute_all [sample_input "1" "create"] (sample_db []))).1
    = Err (ShNotFound "profile").
Proof.
  intros tm nl.
  destruct (private_profile_hidden [sample_input "1" "create"] (sample_db []) empty_view
    "npub1abcdefabcdefabcdefabcdefabcdefab" "abcdefabcdefabcdefabcdefabcdefab") as [Hr|[err Hr]].
  - exact (sample_db_stands []).
  - exact empty_view_keyed.
  - vm_compute. reflexivity.
  - constructor; [|constructor]. vm_compute. intros E. discriminate E.
  - intros r Hr. vm_compute in Hr. discriminate Hr.
  - exact Hr.
  - vm_compute in Hr. discriminate Hr.
Defined.
