(* ===== verification/GitHook.v ===== *)
(** * [GitHook]: the hooks of a repository and the webhook of the forge

    Models [services/git-hook/src/lib.rs] and [services/webhook/src/lib.rs]: a
    push is read from the input of the hook and judged by the state of the
    repository ([evaluate_updates] of [GitReceive]); what was received is
    announced to the sync service, by the hook itself or on a signed request of
    the forge.  HTTP exchanges are arguments: what a request is answered.  The
    decoders that serde derives and the HMAC are parameters. *)

From S2P Require Import Prelude RustStr CoreTypes Externals HexModel Nip34Common Nip34Repo GitReceive.
From S2P Require Import Membership NostrAuth Database Dispatch Config Repositories PostgresRepos StateService.

(** ** HTTP exchanges *)

(** A response: its status, and its body unless reading it fails. *)
Record HttpResponse := mkHttpResponse { hr_status : Z; hr_body : result string string }.
Definition is_success (r : HttpResponse) : bool := in_range 200 299 (hr_status r).
(** [response.text().unwrap_or_default()] *)
Definition text_or_default (r : HttpResponse) : string := default "" (ok (hr_body r)).

Class HttpLib := { status_display : Z → string }.

(** ** Configuration of the hook *)

Inductive HookMode := PreReceive | PostReceive.

Inductive HookConfigError :=
| HceConfig (err : ConfigError)
| HceMissingEnv (key : string)
| HceInvalidMode (value : string).

Definition HookConfigError_display (e : HookConfigError) : string :=
  match e with
  | HceConfig err => "hook config error: " +:+ ConfigError_display err
  | HceMissingEnv key => "missing env " +:+ key
  | HceInvalidMode value => "invalid hook mode: " +:+ value
  end.

Record HookConfig := mkHookConfig { hk_state_url : string; hk_sync_url : option string; hk_mode : HookMode }.

Definition HookMode_from_env (get_var : environment) : result HookConfigError HookMode :=
  let mode := default "pre-receive" (get_var "GITTREE_HOOK_MODE") in
  if mode == "pre-receive" then Ok PreReceive
  else if mode == "post-receive" then Ok PostReceive
  else Err (HceInvalidMode mode).

(** [mode.unwrap_or(HookMode::from_env()?)] reads the variable in any case. *)
Definition HookConfig_from_env_with_overrides (get_var : environment) (mode : option HookMode)
    (state_url sync_url : option string) : result HookConfigError HookConfig :=
  _ ← map_err HceConfig (ServicesConfig_from_env_validated_with get_var);
  state_url ← match state_url with
              | Some state_url => Ok state_url
              | None => ok_or (HceMissingEnv "GITTREE_STATE_URL") (get_var "GITTREE_STATE_URL")
              end;
  env_mode ← HookMode_from_env get_var;
  let mode := default env_mode mode in
  let sync_url := match sync_url with Some url => Some url | None => get_var "GITTREE_SYNC_URL" end in
  _ ← fail_if (match mode with PostReceive => is_none sync_url | PreReceive => false end)
        (HceMissingEnv "GITTREE_SYNC_URL");
  Ok (mkHookConfig state_url sync_url mode).

(** ** Errors *)

Inductive HookError :=
| HeInvalidLine (line : string)
| HeInvalidPayload (message : string)
| HeInvalidSignature (message : string).

Definition HookError_display (e : HookError) : string :=
  match e with
  | HeInvalidLine line => "invalid ref line: " +:+ line
  | HeInvalidPayload message => "invalid payload: " +:+ message
  | HeInvalidSignature message => "invalid signature: " +:+ message
  end.

Inductive HookServiceError :=
| HsConfig (err : HookConfigError)
| HsParse (err : HookError)
| HsCore (message : string)
| HsState (message : string)
| HsReject (reason : string).

Definition HookServiceError_display (e : HookServiceError) : string :=
  match e with
  | HsConfig err => "hook config error: " +:+ HookConfigError_display err
  | HsParse err => "hook parse error: " +:+ HookError_display err
  | HsCore message => "hook core error: " +:+ message
  | HsState message => "hook state error: " +:+ message
  | HsReject reason => reason
  end.

(** ** The updates of a push *)

(** [RefUpdate] of the hook has the fields of the one of the core crate.  The
    first word of a line is there, the line being trimmed and not empty; a
    panic is [None]. *)
Fixpoint parse_lines (input : list string) : option (result HookError (list RefUpdate)) :=
  match input with
  | [] => Some (Ok [])
  | line :: input =>
      let line := trim line in
      if is_empty line then parse_lines input
      else
        match split_whitespace line with
        | [] => None
        | old :: new :: reference :: _ =>
            rest ← parse_lines input;
            Some (updates ← rest; Ok (mkRefUpdate old new reference :: updates))
        | _ => Some (Err (HeInvalidLine line))
        end
  end.
Definition parse_updates (input : string) : option (result HookError (list RefUpdate)) :=
  parse_lines (lines input).

(** ** Payloads of the forge *)

Record ForgejoPushEvent := mkForgejoPushEvent {
  fp_owner : string; fp_repo : string; fp_full_name : string; fp_reference : string;
  fp_before : string; fp_after : string
}.
(** [ForgejoPushPayload] with its repository and its owner. *)
Record ForgejoPushPayload := mkForgejoPushPayload {
  pl_reference : string; pl_before : string; pl_after : string;
  pl_name : string; pl_full_name : option string; pl_username : string
}.

(** The decoder of the payload and of a state, and HMAC-SHA-256. *)
Class HookLib := {
  payload_from_str : string → result string ForgejoPushPayload;
  state_response_from_str : string → result string RepoState;
  hmac_sha256 : bytes → bytes → bytes;
  valid_utf8 : bytes → bool
}.

Record RefUpdatePayload := mkRefUpdatePayload { up_old : string; up_new : string; up_reference : string }.
Record PostReceivePayload := mkPostReceivePayload {
  pr_pubkey : string; pr_identifier : string; pr_updates : list RefUpdatePayload
}.
Definition RefUpdatePayload_from (u : RefUpdate) : RefUpdatePayload :=
  mkRefUpdatePayload (ru_old_rev u) (ru_new_rev u) (ru_ref_name u).

Definition ensure_non_empty (field value : string) : result HookError unit :=
  fail_if (is_blank value) (HeInvalidPayload ("missing required field: " +:+ field)).

Section Hook.
Context `{HookLib} `{HexLib} `{HttpLib} `{HashOrder} `{Bech32Lib}.

Definition parse_forgejo_push (payload : string) : result HookError ForgejoPushEvent :=
  parsed ← map_err HeInvalidPayload (payload_from_str payload);
  _ ← ensure_non_empty "ref" (pl_reference parsed);
  _ ← ensure_non_empty "before" (pl_before parsed);
  _ ← ensure_non_empty "after" (pl_after parsed);
  _ ← ensure_non_empty "repository.name" (pl_name parsed);
  _ ← ensure_non_empty "repository.owner.username" (pl_username parsed);
  let full_name := default (pl_username parsed +:+ "/" +:+ pl_name parsed) (pl_full_name parsed) in
  _ ← fail_if (negb (contains_char "/" full_name))
        (HeInvalidPayload ("invalid repository full_name: " +:+ full_name));
  Ok (mkForgejoPushEvent (pl_username parsed) (pl_name parsed) full_name (pl_reference parsed)
        (pl_before parsed) (pl_after parsed)).

Definition verify_forgejo_signature (secret : string) (payload : bytes) (signature_header : string)
    : result HookError unit :=
  _ ← fail_if (is_empty secret) (HeInvalidSignature "missing webhook secret");
  let signature_header := trim signature_header in
  _ ← fail_if (is_empty signature_header) (HeInvalidSignature "missing signature header");
  let signature := default signature_header (strip_prefix "sha256=" signature_header) in
  provided ← ok_or (HeInvalidSignature "invalid signature encoding") (hex_decode signature);
  fail_if (negb (provided == hmac_sha256 secret payload)) (HeInvalidSignature "signature mismatch").

(** ** Fetching the state *)

(** [HttpStateFetcher], with the response to a GET of a URL. *)
Definition state_endpoint (base_url pubkey identifier : string) : string :=
  trim_end_matches "/" base_url +:+ "/state/" +:+ pubkey +:+ "/" +:+ identifier.

Definition fetch_latest_state (get : string → result string HttpResponse) (base_url pubkey identifier : string)
    : result HookServiceError (option RepoState) :=
  response ← map_err HsState (get (state_endpoint base_url pubkey identifier));
  if bool_decide (hr_status response = 404)%Z then Ok None
  else if negb (is_success response) then
    Err (HsState ("state service error " +:+ status_display (hr_status response) +:+ ": "
                  +:+ text_or_default response))
  else
    body ← map_err HsState (hr_body response);
    state ← map_err HsState (state_response_from_str body);
    Ok (Some state).

(** The [StateFetcher] is a function; a panic in [evaluate_updates] is [None]. *)
Definition evaluate_pre_receive (fetch : string → string → result HookServiceError (option RepoState))
    (repo_path : list (option string)) (updates : list RefUpdate)
    : result HookServiceError (option UpdateDecision) :=
  repo ← map_err (λ err, HsCore (CoreError_display err)) (parse_repo_path repo_path);
  let needs_state := existsb (λ u, negb (starts_with "refs/nostr/" (ru_ref_name u))) updates in
  state ← (if needs_state then fetch (rp_pubkey repo) (rp_identifier repo) else Ok None);
  Ok (evaluate_updates updates state).

(** ** Announcing what was received *)

(** The sync service: what the requests to come are answered, and the payloads
    that were posted to it. *)
Record SyncEndpoint := mkSyncEndpoint {
  se_answers : list (result string HttpResponse);
  se_posted : list PostReceivePayload
}.
Definition no_answer : result string HttpResponse := Err "connection closed".

Definition post_payload (payload : PostReceivePayload) : stateful SyncEndpoint string HttpResponse := λ e,
  (default no_answer (head (se_answers e)), mkSyncEndpoint (tail (se_answers e)) (se_posted e ++ [payload])).

(** [HttpPostReceiveNotifier::notify] *)
Definition notify (payload : PostReceivePayload) : stateful SyncEndpoint HookServiceError unit :=
  response ← map_err_st HsState (post_payload payload);
  lift (fail_if (negb (is_success response))
          (HsState ("post-receive error " +:+ status_display (hr_status response) +:+ ": "
                    +:+ text_or_default response))).

Definition handle_post_receive (repo_path : list (option string)) (updates : list RefUpdate)
    : stateful SyncEndpoint HookServiceError unit :=
  repo ← lift (map_err (λ err, HsCore (CoreError_display err)) (parse_repo_path repo_path));
  notify (mkPostReceivePayload (rp_pubkey repo) (rp_identifier repo) (RefUpdatePayload_from <$> updates)).

Definition handle_forgejo_push (resolve_mapping : string → string → result HookServiceError (option RepoMapping))
    (payload : string) : stateful SyncEndpoint HookServiceError unit :=
  event ← lift (map_err HsParse (parse_forgejo_push payload));
  mapping ← lift (resolve_mapping (fp_owner event) (fp_repo event));
  mapping ← lift (ok_or (HsReject "missing repo mapping") mapping);
  notify (mkPostReceivePayload (rm_pubkey mapping) (rm_identifier mapping)
            [mkRefUpdatePayload (fp_before event) (fp_after event) (fp_reference event)]).

(** ** Running a hook *)

(** What the process finds: variables, files, standard input and directories;
    [path_components] are the components of a path, last first. *)
Record HookWorld := mkHookWorld {
  hw_var_os : environment;
  hw_read_file : string → result string string;
  hw_stdin : result string string;
  hw_stdin_is_terminal : bool;
  hw_current_dir : result string string;
  hw_path_components : string → list (option string);
  hw_get : string → result string HttpResponse
}.

Definition env_path (get_var : environment) (key : string) : option string :=
  value ← get_var key; if is_blank value then None else Some value.

Definition validate_input_source (stdin_is_tty : bool) (stdin_file : option string)
    : result HookServiceError unit :=
  fail_if (stdin_is_tty && is_none stdin_file)
    (HsCore "refusing to run interactively; provide --stdin-file or pipe hook input").

Definition read_input (w : HookWorld) (stdin_file : option string) : result HookServiceError string :=
  match stdin_file with
  | Some path =>
      map_err (λ err, HsCore ("failed to read stdin file " +:+ path +:+ ": " +:+ err)) (hw_read_file w path)
  | None => map_err (λ err, HsCore ("failed to read stdin: " +:+ err)) (hw_stdin w)
  end.

Definition hook_repo_path (w : HookWorld) : result HookServiceError string :=
  match hw_var_os w "GITTREE_HOOK_REPO_PATH" with
  | Some path => Ok path
  | None =>
      match hw_var_os w "GIT_DIR" with
      | Some path => Ok path
      | None => map_err (λ err, HsCore ("failed to read repo path: " +:+ err)) (hw_current_dir w)
      end
  end.

(** [None] is a panic, after which git sees a failed hook as after an error. *)
Definition run_hook (w : HookWorld) (config : HookConfig) (stdin_file : option string) (e : SyncEndpoint)
    : option (result HookServiceError unit * SyncEndpoint) :=
  match (_ ← validate_input_source (hw_stdin_is_terminal w) stdin_file; read_input w stdin_file) with
  | Err err => Some (Err err, e)
  | Ok input =>
      parsed ← parse_updates input;
      match parsed with
      | Err err =>
          Some (match hk_mode config with PostReceive => Ok tt | PreReceive => Err (HsParse err) end, e)
      | Ok updates =>
          match hook_repo_path w with
          | Err err => Some (Err err, e)
          | Ok path =>
              let repo_path := hw_path_components w path in
              match hk_mode config with
              | PreReceive =>
                  match evaluate_pre_receive (fetch_latest_state (hw_get w) (hk_state_url config)) repo_path updates with
                  | Err err => Some (Err err, e)
                  | Ok decision =>
                      decision ← decision;
                      Some (match decision with
                            | Reject reason => Err (HsReject reason)
                            | Accept => Ok tt
                            end, e)
                  end
              | PostReceive =>
                  match hk_sync_url config with
                  | None => Some (Err (HsConfig (HceMissingEnv "GITTREE_SYNC_URL")), e)
                  | Some _ => Some (Ok tt, (handle_post_receive repo_path updates e).2)
                  end
              end
          end
      end
  end.

Definition run_hook_from_env (w : HookWorld) (mode : HookMode) (e : SyncEndpoint)
    : option (result HookServiceError unit * SyncEndpoint) :=
  match HookConfig_from_env_with_overrides (hw_var_os w) (Some mode) None None with
  | Err err => Some (Err (HsConfig err), e)
  | Ok config => run_hook w config (env_path (hw_var_os w) "GITTREE_HOOK_STDIN_FILE") e
  end.
End Hook.

(** ** The webhook service *)

Inductive WebhookHttpError :=
| WhBadRequest (message : string)
| WhUnauthorized (message : string)
| WhNotFound (message : string)
| WhUpstream (message : string)
| WhInternal (message : string).

Definition WebhookHttpError_into_response (e : WebhookHttpError) : Z * string :=
  match e with
  | WhBadRequest message => (400, message)%Z
  | WhUnauthorized message => (401, message)%Z
  | WhNotFound message => (404, message)%Z
  | WhUpstream message => (502, message)%Z
  | WhInternal message => (500, message)%Z
  end.

Record WebhookAckPayload := mkWebhookAckPayload { wa_repo : string; wa_updates : Z }.

Definition SIGNATURE_HEADERS : list string :=
  ["x-gitea-signature"; "x-forgejo-signature"; "x-hub-signature-256"].

(** The headers: the first value of a name, as text when it is visible ASCII. *)
Definition headers : Type := string → option (option string).

Fixpoint first_signature (names : list string) (h : headers) : result WebhookHttpError string :=
  match names with
  | [] => Err (WhUnauthorized "missing signature")
  | name :: names =>
      match h name with
      | Some value => ok_or (WhUnauthorized "invalid signature") value
      | None => first_signature names h
      end
  end.
Definition extract_signature : headers → result WebhookHttpError string := first_signature SIGNATURE_HEADERS.

Section Webhook.
Context {R : Type} `{RepoMappingRepository R} `{HookLib} `{HexLib} `{HttpLib}.

Record WebhookAppState := mkWebhookAppState {
  wh_repositories : R;
  wh_endpoint : SyncEndpoint;
  wh_forgejo_secret : string
}.

(** [HttpSyncNotifier::notify] *)
Definition sync_notify (payload : PostReceivePayload) : stateful SyncEndpoint string unit :=
  response ← post_payload payload;
  lift (fail_if (negb (is_success response))
          ("sync error " +:+ status_display (hr_status response) +:+ ": " +:+ text_or_default response)).

Definition on_repositories {A} (c : stateful R StorageError A) : stateful WebhookAppState WebhookHttpError A := λ s,
  let '(r, repositories) := c (wh_repositories s) in
  (map_err (λ err, WhInternal (StorageError_display err)) r,
   mkWebhookAppState repositories (wh_endpoint s) (wh_forgejo_secret s)).
Definition on_notifier {A} (c : stateful SyncEndpoint string A) : stateful WebhookAppState WebhookHttpError A := λ s,
  let '(r, endpoint) := c (wh_endpoint s) in
  (map_err WhUpstream r, mkWebhookAppState (wh_repositories s) endpoint (wh_forgejo_secret s)).

Definition forgejo_handler (h : headers) (body : bytes)
    : stateful WebhookAppState WebhookHttpError WebhookAckPayload := λ s,
  (signature ← lift (extract_signature h);
   _ ← lift (map_err (λ err, WhUnauthorized (HookError_display err))
               (verify_forgejo_signature (wh_forgejo_secret s) body signature));
   _ ← lift (fail_if (negb (valid_utf8 body)) (WhBadRequest "invalid payload"));
   event ← lift (map_err (λ err, WhBadRequest (HookError_display err)) (parse_forgejo_push body));
   mapping ← on_repositories (mapping_by_forgejo (fp_owner event) (fp_repo event));
   mapping ← lift (ok_or (WhNotFound "missing repo mapping") mapping);
   _ ← on_notifier (sync_notify (mkPostReceivePayload (hex_encode (mp_pubkey mapping)) (mp_identifier mapping)
         [mkRefUpdatePayload (fp_before event) (fp_after event) (fp_reference event)]));
   lift (Ok (mkWebhookAckPayload (forgejo_full_name mapping) 1))) s.
End Webhook.

(** ** Configuration of the webhook service *)

Inductive WebhookConfigError :=
| WceConfig (err : ConfigError)
| WceStorage (err : StorageConfigError)
| WceMissingEnv (key : string)
| WceInvalidEnv (key value : string).

Definition WebhookConfigError_display (e : WebhookConfigError) : string :=
  match e with
  | WceConfig err => "webhook config error: " +:+ ConfigError_display err
  | WceStorage err => "webhook storage config error: " +:+ StorageConfigError_display err
  | WceMissingEnv key => "missing env " +:+ key
  | WceInvalidEnv key value => "invalid env " +:+ key +:+ ": " +:+ value
  end.

Record WebhookConfig := mkWebhookConfig {
  wc_bind : string; wc_storage : StorageConfig; wc_sync_url : string; wc_forgejo_secret : string
}.

Definition webhook_env_required_string (get_var : environment) (key : string) : result WebhookConfigError string :=
  value ← ok_or (WceMissingEnv key) (get_var key);
  if is_blank value then Err (WceInvalidEnv key value) else Ok value.

Definition WebhookConfig_from_env (get_var : environment) : result WebhookConfigError WebhookConfig :=
  services ← map_err WceConfig (ServicesConfig_from_env_validated_with get_var);
  storage ← map_err WceStorage (state_storage_from_env get_var);
  sync_url ← webhook_env_required_string get_var "GITTREE_SYNC_URL";
  forgejo_secret ← webhook_env_required_string get_var "GITTREE_FORGEJO_WEBHOOK_SECRET";
  Ok (mkWebhookConfig (sv_webhook services) storage sync_url forgejo_secret).

(** ** Reading what git writes *)

(** A word: characters of which none is white space, on one line. *)
Definition token (s : string) : Prop :=
  (∃ cs, s = str_concat cs ∧ plain_chars cs ∧ cs ≠ []) ∧
  contains_char line_feed s = false ∧ contains_char carriage_return s = false.

(** The line git writes for an update, and those of a push. *)
Definition update_line (u : RefUpdate) : string :=
  ru_old_rev u +:+ " " +:+ ru_new_rev u +:+ " " +:+ ru_ref_name u.
Definition print_updates (us : list RefUpdate) : string :=
  foldr (λ u rest, update_line u +:+ String line_feed rest) "" us.
Definition printable (u : RefUpdate) : Prop :=
  token (ru_old_rev u) ∧ token (ru_new_rev u) ∧ token (ru_ref_name u).

Lemma space_plain : is_char " " = true ∧ is_whitespace " " = true.
Proof. by vm_compute. Qed.

(** The characters of three words. *)
Lemma three_words a b c :
  plain_chars a → plain_chars b → plain_chars c → a ≠ [] → b ≠ [] → c ≠ [] →
  let cs := a ++ " " :: b ++ " " :: c in
  Forall (λ c, is_char c = true) cs ∧ trim (str_concat cs) = str_concat cs ∧ str_concat cs ≠ "" ∧
  split_whitespace (str_concat cs) = [str_concat a; str_concat b; str_concat c].
Proof.
  intros Ha Hb Hc Hna Hnb Hnc cs.
  assert (Forall (λ c, is_char c = true) cs) as Hcs.
  { unfold cs. rewrite !Forall_app, !Forall_cons, !Forall_app, !Forall_cons.
    split_and!; try by apply plain_is_char. all: apply space_plain. }
  assert (cs ≠ []) as Hne by (unfold cs; by destruct a).
  split_and!; [done| | |].
  - destruct a as [|a0 a]; [done|]. destruct c as [|c0 c] using rev_ind; [done|].
    assert (cs = a0 :: (a ++ " " :: b ++ " " :: c) ++ [c0]) as E.
    { unfold cs. simpl. by rewrite <-!app_assoc; simpl; rewrite <-!app_assoc. }
    rewrite E in *. apply trim_bounded; [done| |].
    + by apply Forall_cons in Ha as [[_ ?] _].
    + apply Forall_app in Hc as [_ [[_ ?] _]%Forall_cons]. done.
  - intros E. by apply str_concat_empty in E.
  - unfold split_whitespace. rewrite chars_concat by done. unfold cs.
    rewrite split_words_space, split_words_space by done. by rewrite split_words_word.
Qed.

Lemma update_line_words u : printable u →
  trim (update_line u) = update_line u ∧ update_line u ≠ "" ∧
  split_whitespace (update_line u) = [ru_old_rev u; ru_new_rev u; ru_ref_name u].
Proof.
  destruct u as [old new name]. intros ([(a & Ea & Ha & Hna) _] & [(b & Eb & Hb & Hnb) _] & [(c & Ec & Hc & Hnc) _]).
  cbn [ru_old_rev ru_new_rev ru_ref_name] in *. subst. destruct (three_words a b c Ha Hb Hc Hna Hnb Hnc) as (_ & Ht & Hne & Hs).
  assert (update_line (mkRefUpdate (str_concat a) (str_concat b) (str_concat c))
          = str_concat (a ++ " " :: b ++ " " :: c)) as ->.
  { unfold update_line. simpl. rewrite !str_concat_app. cbn [str_concat foldr].
    fold (str_concat (b ++ " " :: c)). rewrite str_concat_app. done. }
  done.
Qed.

Lemma update_line_no_feed u : printable u →
  contains_char line_feed (update_line u) = false ∧ contains_char carriage_return (update_line u) = false.
Proof.
  intros ([_ [Ha Ha']] & [_ [Hb Hb']] & [_ [Hc Hc']]). unfold update_line.
  rewrite !contains_char_app, Ha, Ha', Hb, Hb', Hc, Hc'. done.
Qed.

(** Reading the lines of a push gives back its updates. *)
Lemma parse_print_updates us : Forall printable us → parse_updates (print_updates us) = Some (Ok us).
Proof.
  unfold parse_updates. induction 1 as [|u us Hu _ IH]; [done|]. cbn [print_updates foldr].
  destruct (update_line_no_feed u Hu) as [Hn Hr]. rewrite lines_cons by done. cbn [parse_lines].
  destruct (update_line_words u Hu) as (-> & Hne & ->).
  unfold is_empty. rewrite bool_decide_eq_false_2 by done.
  fold (print_updates us). rewrite IH. by destruct u.
Qed.

(** ** The decision of the hook *)

Section Decision.
Context `{HookLib} `{HttpLib} `{HashOrder} `{Bech32Lib}.

Lemma evaluate_updates_Accept us st :
  evaluate_updates us st = Some Accept ↔
  (∀ s, st = Some s → RepoState_validate s = Ok tt) ∧ Forall (λ u, allowed u st) us.
Proof.
  unfold evaluate_updates. destruct st as [s|].
  - destruct (RepoState_validate s) as [[]|] eqn:E.
    + rewrite evaluate_each_spec. split; [|by intros []]. intros Hf. split; [|done]. by intros ? [= <-].
    + split; [done|]. intros [Hv _]. rewrite (Hv s eq_refl) in E. done.
  - rewrite evaluate_each_spec. split; [|by intros []]. done.
Qed.

(** The state the updates are judged by: none is fetched for events only. *)
Definition judged_by (get : string → result string HttpResponse) (url : string) (repo : RepoPath)
    (us : list RefUpdate) (st : option RepoState) : Prop :=
  if existsb (λ u, negb (starts_with "refs/nostr/" (ru_ref_name u))) us
  then fetch_latest_state get url (rp_pubkey repo) (rp_identifier repo) = Ok st
  else st = None.

Lemma evaluate_pre_receive_Accept get url path us :
  evaluate_pre_receive (fetch_latest_state get url) path us = Ok (Some Accept) ↔
  ∃ repo st, parse_repo_path path = Ok repo ∧ judged_by get url repo us st ∧
    (∀ s, st = Some s → RepoState_validate s = Ok tt) ∧ Forall (λ u, allowed u st) us.
Proof.
  unfold evaluate_pre_receive, judged_by.
  destruct (parse_repo_path path) as [repo|]; simpl; [|split; [done|by intros (? & ? & ? & _)]].
  setoid_rewrite <-evaluate_updates_Accept. destruct (existsb _ us); simpl.
  - destruct (fetch_latest_state _ _ _ _) as [st|] eqn:Ef; simpl;
      [|split; [done|by intros (r & st & [= <-] & ? & _); congruence]].
    split; [intros [= Ha]; by exists repo, st|]. intros (r & st' & [= <-] & Ef' & Ha).
    rewrite Ef in Ef'. injection Ef' as <-. by rewrite Ha.
  - split; [intros [= Ha]; by exists repo, None|]. intros (r & st & [= <-] & -> & Ha). exact (f_equal Ok Ha).
Qed.

(** The hook runs on what git writes to it, in the directory of the repository. *)
Definition receives (w : HookWorld) (us : list RefUpdate) (path : string) : Prop :=
  hw_stdin_is_terminal w = false ∧ hw_stdin w = Ok (print_updates us) ∧ hook_repo_path w = Ok path.

Lemma run_hook_pre_receive w config us path e :
  receives w us path → Forall printable us → hk_mode config = PreReceive →
  run_hook w config None e =
    match evaluate_pre_receive (fetch_latest_state (hw_get w) (hk_state_url config)) (hw_path_components w path) us with
    | Err err => Some (Err err, e)
    | Ok decision =>
        decision ← decision;
        Some (match decision with Reject reason => Err (HsReject reason) | Accept => Ok tt end, e)
    end.
Proof.
  intros (Hterm & Hin & Hpath) Hus Hmode. unfold run_hook, validate_input_source, read_input.
  rewrite Hterm, Hin. simpl. rewrite parse_print_updates by done. simpl. by rewrite Hpath, Hmode.
Qed.

Lemma run_hook_pre_receive_Ok w config us path e e' :
  receives w us path → Forall printable us → hk_mode config = PreReceive →
  run_hook w config None e = Some (Ok tt, e') ↔
  e' = e ∧ ∃ repo st, parse_repo_path (hw_path_components w path) = Ok repo ∧
    judged_by (hw_get w) (hk_state_url config) repo us st ∧
    (∀ s, st = Some s → RepoState_validate s = Ok tt) ∧ Forall (λ u, allowed u st) us.
Proof.
  intros Hw Hus Hmode. rewrite (run_hook_pre_receive w config us path e Hw Hus Hmode).
  rewrite <-evaluate_pre_receive_Accept.
  destruct (evaluate_pre_receive _ _ _) as [[[|reason]|]|err]; simpl;
    (split; [intros E; by simplify_eq|by intros [-> ?]]).
Qed.

(** C7: the pre-receive hook, run by git on a push, lets it pass exactly when the
    directory names a repository, the state service answers with a valid state or with none
    (it is not asked for pushes of event references only), and every update of
    the push is allowed by that state; otherwise the hook fails, and git
    refuses the push. *)
Theorem pre_receive_iff w config us path e :
  receives w us path → Forall printable us → hk_mode config = PreReceive →
  run_hook w config None e = Some (Ok tt, e) ↔
  ∃ repo st, parse_repo_path (hw_path_components w path) = Ok repo ∧
    judged_by (hw_get w) (hk_state_url config) repo us st ∧
    (∀ s, st = Some s → RepoState_validate s = Ok tt) ∧ Forall (λ u, allowed u st) us.
Proof.
  intros Hw Hus Hmode. rewrite (run_hook_pre_receive_Ok w config us path e e Hw Hus Hmode).
  split; [by intros [_ ?]|done].
Qed.

Lemma allowed_without_state u : allowed u None → names_event (ru_ref_name u).
Proof. intros [?|(s & ? & _)]; done. Qed.

(** The answer of the state service to a path it has no route for. *)
Definition unrouted (get : string → result string HttpResponse) (base : string) : Prop :=
  ∀ pubkey identifier, ∃ body,
    get (state_endpoint base pubkey identifier) = Ok (mkHttpResponse 404 body).

Lemma unrouted_no_state get base pubkey identifier :
  unrouted get base → fetch_latest_state get base pubkey identifier = Ok None.
Proof. intros Hu. destruct (Hu pubkey identifier) as [body Hg]. unfold fetch_latest_state. by rewrite Hg. Qed.

(** The hook asks the state service for [/state/<pubkey>/<identifier>], which
    is none of the service's routes; answered so, every push that updates a
    branch, a tag or anything else than event references is refused, whatever
    the state of the repository. *)
Lemma state_route_missing {R P : Type} `{RelayCompatibilityRepository R} `{ProjectionRepositories P}
    `{Bech32Encode} w config us path e e' :
  (∀ pubkey identifier query,
     build_router (R:=R) (P:=P) ["state"; pubkey; identifier] query = None) ∧
  (receives w us path → Forall printable us → hk_mode config = PreReceive →
   unrouted (hw_get w) (hk_state_url config) →
   run_hook w config None e = Some (Ok tt, e') → Forall (λ u, names_event (ru_ref_name u)) us).
Proof.
  split; [done|]. intros Hw Hus Hmode Hu.
  rewrite (run_hook_pre_receive_Ok w config us path e e' Hw Hus Hmode).
  intros (_ & repo & st & _ & Hj & _ & Hall). unfold judged_by in Hj.
  rewrite (unrouted_no_state _ _ _ _ Hu) in Hj. assert (st = None) as -> by (destruct (existsb _ us); congruence).
  eapply Forall_impl; [exact Hall|]. intros u. apply allowed_without_state.
Qed.
End Decision.

(** ** The webhook *)

Section WebhookFacts.
Context {R : Type} `{RepoMappingRepository R} `{HookLib} `{HexLib} `{HttpLib}.

(** The request carries the HMAC of its body under a secret that is not empty. *)
Definition authentic (h : headers) (body : bytes) (secret : string) : Prop :=
  secret ≠ "" ∧ ∃ header, extract_signature h = Ok header ∧
    hex_decode (default (trim header) (strip_prefix "sha256=" (trim header))) = Some (hmac_sha256 secret body).

Lemma verify_forgejo_signature_Ok secret body header :
  verify_forgejo_signature secret body header = Ok tt →
  secret ≠ "" ∧ hex_decode (default (trim header) (strip_prefix "sha256=" (trim header))) = Some (hmac_sha256 secret body).
Proof.
  unfold verify_forgejo_signature. intros Hv.
  apply bind_Ok_unit in Hv as [Hs Hv]. apply bind_Ok_unit in Hv as [_ Hv].
  apply bind_Ok in Hv as (provided & Hp%ok_or_Ok & Hm). apply fail_if_Ok in Hs, Hm.
  apply negb_false_iff, String.eqb_eq in Hm as ->. split; [|done].
  intros ->. by apply bool_decide_eq_false_1 in Hs.
Qed.

(** What the handler posts for an event and the mapping of its repository. *)
Definition push_payload (event : ForgejoPushEvent) (mapping : RepoMappingRecord) : PostReceivePayload :=
  mkPostReceivePayload (hex_encode (mp_pubkey mapping)) (mp_identifier mapping)
    [mkRefUpdatePayload (fp_before event) (fp_after event) (fp_reference event)].

(** C22: the webhook announces a push to the sync service only for an authentic
    request: whatever the request and its outcome, either nothing was posted and the
    request failed, or the request carries the HMAC of its body under the configured
    secret, its body decodes to a push of a repository that a mapping was read for,
    and exactly the payload of that push for the mapped repository was posted. *)
Theorem webhook_authentic h body (s : WebhookAppState (R:=R)) r s' :
  forgejo_handler h body s = (r, s') →
  (se_posted (wh_endpoint s') = se_posted (wh_endpoint s) ∧ is_ok r = false) ∨
  (authentic h body (wh_forgejo_secret s) ∧
   ∃ event mapping repositories', parse_forgejo_push body = Ok event ∧
     mapping_by_forgejo (fp_owner event) (fp_repo event) (wh_repositories s) = (Ok (Some mapping), repositories') ∧
     se_posted (wh_endpoint s') = se_posted (wh_endpoint s) ++ [push_payload event mapping]).
Proof.
  unfold forgejo_handler, mbind, stateful_bind, lift.
  destruct (extract_signature h) as [header|] eqn:Eh; [|intros [= <- <-]; auto].
  destruct (verify_forgejo_signature _ _ _) as [[]|] eqn:Ev; simpl; [|intros [= <- <-]; auto].
  destruct (valid_utf8 body); simpl; [|intros [= <- <-]; auto].
  destruct (parse_forgejo_push body) as [event|] eqn:Ep; simpl; [|intros [= <- <-]; auto].
  unfold on_repositories. destruct (mapping_by_forgejo _ _ _) as [[[mapping|]|] reps] eqn:Em; simpl;
    [|intros [= <- <-]; auto..].
  intros E. right. split; [split; apply verify_forgejo_signature_Ok in Ev as [? ?]; eauto|].
  exists event, mapping, reps. split_and!; [done|done|].
  revert E. unfold on_notifier, sync_notify, mbind, stateful_bind, post_payload, lift. cbn [wh_endpoint].
  destruct (default no_answer _) as [resp|]; simpl; [|by intros [= <- <-]].
  destruct (is_success resp); simpl; by intros [= <- <-].
Qed.
End WebhookFacts.

(** ** Witnesses *)

Definition is_token (s : string) : bool :=
  negb (is_empty s) && forallb (λ c, is_char c && negb (is_whitespace c)) (ascii_chars s) &&
  negb (contains_char line_feed s) && negb (contains_char carriage_return s).

Lemma is_token_true s : is_token s = true → token s.
Proof.
  unfold is_token. rewrite !andb_true_iff, !negb_true_iff. intros [[[Hne Hp] Hn] Hr].
  split; [|done]. exists (ascii_chars s). split_and!.
  - by rewrite ascii_chars_concat.
  - apply Forall_forall. intros c Hc. rewrite forallb_true in Hp. specialize (Hp c Hc).
    by apply andb_true_iff in Hp as [? ?%negb_true_iff].
  - destruct s; [by vm_compute in Hne|done].
Qed.

Definition hook_lib_model : HookLib := {|
  payload_from_str _ := Ok (mkForgejoPushPayload "refs/heads/main" "0" "1" "repo" None "owner");
  state_response_from_str _ := Ok sample_state;
  hmac_sha256 k m := k +:+ m;
  valid_utf8 _ := true
|}.
Definition http_lib_model : HttpLib := {| status_display z := pretty z |}.
Definition sample_update : RefUpdate := mkRefUpdate "0" sample_commit "refs/heads/main".
Definition sample_world (status : Z) : HookWorld :=
  mkHookWorld (λ key, if key == "GIT_DIR" then Some "/repo" else None) (λ _, Err "no file")
    (Ok (print_updates [sample_update])) false (Err "no directory")
    (λ _, [Some "repo.git"; Some "npub1abcdefabcdefabcdefabcdefabcdefab"]) (λ _, Ok (mkHttpResponse status (Ok ""))).
Definition sample_hook_config : HookConfig := mkHookConfig "http://state" None PreReceive.

Lemma sample_printable : Forall printable [sample_update].
Proof. constructor; [|constructor]. split; [|split]; apply is_token_true; vm_compute; reflexivity. Qed.

Lemma pre_receive_iff_witness :
  let _ := hook_lib_model in let _ := http_lib_model in let _ := sample_hash_order in
  let _ := DispatchFacts.sample_npub_lib in
  allowed sample_update (Some sample_state) ∧
  run_hook (sample_world 200) sample_hook_config None (mkSyncEndpoint [] []) = Some (Ok tt, mkSyncEndpoint [] []).
Proof.
  intros hl ht ho nl.
  destruct (proj1 (pre_receive_iff (sample_world 200) sample_hook_config [sample_update] "/repo" (mkSyncEndpoint [] [])
    (conj eq_refl (conj eq_refl eq_refl)) sample_printable eq_refl))
    as (repo & st & Hp & Hj & Hv & Hall).
  - vm_compute. reflexivity.
  - split; [|vm_compute; reflexivity]. vm_compute in Hj. injection Hj as <-.
    inversion Hall. assumption.
Defined.

Lemma state_route_missing_witness :
  let _ := hook_lib_model in let _ := http_lib_model in let _ := sample_hash_order in
  let _ := DispatchFacts.sample_npub_lib in
  run_hook (sample_world 404) sample_hook_config None (mkSyncEndpoint [] []) ≠ Some (Ok tt, mkSyncEndpoint [] []).
Proof.
  intros hl ht ho nl Hr.
  pose (enc := {| bech32_encode _ _ := None |} : Bech32Encode).
  pose proof (proj2 (state_route_missing (R:=MemoryCompatibility) (P:=Database (@CommandState.V1Tables time_model))
    (H:=hl) (sample_world 404) sample_hook_config [sample_update] "/repo" (mkSyncEndpoint [] []) (mkSyncEndpoint [] []))
    (conj eq_refl (conj eq_refl eq_refl)) sample_printable eq_refl) as Hx.
  specialize (Hx (λ pubkey identifier, ex_intro _ (Ok "") eq_refl) Hr).
  inversion Hx as [|u us (id & Hn & _) _]. vm_compute in Hn. discriminate Hn.
Defined.

Definition sample_mappings : MemoryMappings :=
  mkMemoryMappings {[ "owner/repo" := mkRepoMappingRecord "owner" "repo" "k" "id" ]} ∅.
Definition sample_headers : headers := λ name,
  if name == "x-forgejo-signature" then Some (Some "sha256=7374") else None.

Lemma webhook_authentic_witness :
  let _ := hook_lib_model in let _ := http_lib_model in let _ := hex_model in let _ := sample_hash_order in
  let s := mkWebhookAppState sample_mappings (mkSyncEndpoint [Ok (mkHttpResponse 200 (Ok ""))] []) "s" in
  authentic sample_headers "t" "s" ∧
  (forgejo_handler sample_headers "t" s).1 = Ok (mkWebhookAckPayload "owner/repo" 1).
Proof.
  intros hl ht hx ho s.
  destruct (webhook_authentic sample_headers "t" s (forgejo_handler sample_headers "t" s).1
    (forgejo_handler sample_headers "t" s).2) as [[_ Hr]|[Ha _]].
  - vm_compute. reflexivity.
  - vm_compute in Hr. discriminate Hr.
  - split; [exact Ha|vm_compute; reflexivity].
Defined.
