(* ===== verification/Outbox.v ===== *)
(** * [Outbox]: events waiting to be published to relays

    Models [crates/storage/src/outbox.rs] and the trait
    [RelayPublishRepository] with its implementations in memory
    ([repositories.rs]) and in the database ([postgres.rs], table of
    [migrations/0007]).  A job is pending, then claimed by a publisher, then
    published or pending again.  [OutboxLaws] is what a publisher relies on.
    Instants are in nanoseconds. *)

From S2P Require Import Prelude RustStr CoreTypes Externals HexModel Nip34Common Membership Database Repositories.

(** ** [outbox.rs] *)

Record RelayPublishRequest := mkRelayPublishRequest {
  rq_relay_url : string; rq_event_id : string; rq_pubkey : string; rq_created_at : Z; rq_kind : Z;
  rq_tags : tag_list; rq_content : string; rq_sig : string; rq_forgejo_owner : string;
  rq_forgejo_repo : string; rq_identifier : string
}.
Record RelayPublishEntry := mkRelayPublishEntry {
  en_relay_url : string; en_event_id : bytes; en_pubkey : bytes; en_created_at : Z; en_kind : Z;
  en_tags : tag_list; en_content : string; en_sig : bytes; en_forgejo_owner : string;
  en_forgejo_repo : string; en_identifier : string
}.
Record RelayPublishJob := mkRelayPublishJob {
  jb_id : Z; jb_entry : RelayPublishEntry; jb_attempt_count : Z; jb_publish_after : Z
}.

Inductive RelayPublishStatus := RpPending | RpPublishing | RpPublished.
#[export] Instance RelayPublishStatus_eq_dec : EqDecision RelayPublishStatus.
Proof. solve_decision. Defined.

Definition RelayPublishStatus_as_str (s : RelayPublishStatus) : string :=
  match s with RpPending => "pending" | RpPublishing => "publishing" | RpPublished => "published" end.
Definition RelayPublishStatus_parse (value : string) : result StorageError RelayPublishStatus :=
  if value == "pending" then Ok RpPending
  else if value == "publishing" then Ok RpPublishing
  else if value == "published" then Ok RpPublished
  else Err (StInvalidField "status" value).

Definition require_non_empty (field value : string) : result StorageError unit :=
  fail_if (is_blank value) (StInvalidField field "").

Section Decode.
Context `{HexLib}.

Definition decode_hex (field value : string) (len : nat) : result StorageError bytes :=
  if negb (bool_decide (String.length value = len)) then Err (StInvalidHex field value)
  else ok_or (StInvalidHex field value) (hex_decode value).

Definition RelayPublishRequest_decode (r : RelayPublishRequest) : result StorageError RelayPublishEntry :=
  _ ← require_non_empty "relay_url" (rq_relay_url r);
  _ ← require_non_empty "forgejo_owner" (rq_forgejo_owner r);
  _ ← require_non_empty "forgejo_repo" (rq_forgejo_repo r);
  _ ← require_non_empty "identifier" (rq_identifier r);
  event_id ← decode_hex "event_id" (rq_event_id r) 64;
  pubkey ← decode_hex "pubkey" (rq_pubkey r) 64;
  sig ← decode_hex "sig" (rq_sig r) 128;
  Ok (mkRelayPublishEntry (rq_relay_url r) event_id pubkey (rq_created_at r) (rq_kind r) (rq_tags r)
        (rq_content r) sig (rq_forgejo_owner r) (rq_forgejo_repo r) (rq_identifier r)).
End Decode.

(** ** The trait *)

Class RelayPublishRepository (R : Type) := {
  enqueue_relay_publish : Z → RelayPublishRequest → stateful R StorageError unit;
  claim_relay_publish : Z → stateful R StorageError (option RelayPublishJob);
  mark_relay_publish_succeeded : Z → stateful R StorageError unit;
  mark_relay_publish_failed : Z → string → Z → stateful R StorageError unit;
  pending_relay_publishes : bytes → string → Z → stateful R StorageError Z
}.

Record OutboxEntry := mkOutboxEntry {
  oe_job : RelayPublishJob; oe_status : RelayPublishStatus; oe_last_error : option string
}.

(** ** In memory *)

Record MemoryOutbox := mkMemoryOutbox { mo_seq : Z; mo_entries : gmap Z OutboxEntry }.

Definition outbox_missing : StorageError := StInternal "outbox entry not found".

(** [i32] addition of a release build *)
Definition wrap_i32 (z : Z) : Z := ((z + 2 ^ 31) mod 2 ^ 32 - 2 ^ 31)%Z.

Section Memory.
Context `{HexLib} `{RowOrder}.

Definition enqueue_memory (now : Z) (request : RelayPublishRequest) : stateful MemoryOutbox StorageError unit := λ m,
  match RelayPublishRequest_decode request with
  | Err err => (Err err, m)
  | Ok entry =>
      let id := (mo_seq m + 1)%Z in
      (Ok tt, mkMemoryOutbox id
         (<[id := mkOutboxEntry (mkRelayPublishJob id entry 0 now) RpPending None]> (mo_entries m)))
  end.

(** The least due id, in any order of iteration. *)
Definition select_due (now : Z) (entries : list (Z * OutboxEntry)) : option Z :=
  foldl (λ selected '(id, entry),
    if negb (bool_decide (oe_status entry = RpPending)) then selected
    else if bool_decide (now < jb_publish_after (oe_job entry))%Z then selected
    else match selected with
         | Some current => if (current <=? id)%Z then Some current else Some id
         | None => Some id
         end) None entries.

Definition claim_memory (now : Z) : stateful MemoryOutbox StorageError (option RelayPublishJob) := λ m,
  match select_due now (row_iter (map_to_list (mo_entries m))) with
  | None => (Ok None, m)
  | Some id =>
      match mo_entries m !! id with
      | None => (Ok None, m)   (* [expect("entry")]: the id was just found *)
      | Some e =>
          let job := mkRelayPublishJob (jb_id (oe_job e)) (jb_entry (oe_job e))
                       (wrap_i32 (jb_attempt_count (oe_job e) + 1)) now in
          (Ok (Some job), mkMemoryOutbox (mo_seq m)
             (<[id := mkOutboxEntry job RpPublishing (oe_last_error e)]> (mo_entries m)))
      end
  end.

Definition update_memory (id : Z) (f : OutboxEntry → OutboxEntry) : stateful MemoryOutbox StorageError unit := λ m,
  match mo_entries m !! id with
  | None => (Err outbox_missing, m)
  | Some e => (Ok tt, mkMemoryOutbox (mo_seq m) (<[id := f e]> (mo_entries m)))
  end.

Definition entry_succeeded (e : OutboxEntry) : OutboxEntry := mkOutboxEntry (oe_job e) RpPublished None.
Definition entry_failed (error : string) (retry_at : Z) (e : OutboxEntry) : OutboxEntry :=
  mkOutboxEntry (mkRelayPublishJob (jb_id (oe_job e)) (jb_entry (oe_job e)) (jb_attempt_count (oe_job e)) retry_at)
    RpPending (Some error).

(** An entry that is not published yet, of an event of one kind about one repository. *)
Definition unpublished (pubkey : bytes) (identifier : string) (kind : Z) (e : OutboxEntry) : bool :=
  negb (bool_decide (oe_status e = RpPublished)) && bool_decide (en_kind (jb_entry (oe_job e)) = kind) &&
  (en_identifier (jb_entry (oe_job e)) == identifier) && (en_pubkey (jb_entry (oe_job e)) == pubkey).

#[export] Instance MemoryOutbox_repository : RelayPublishRepository MemoryOutbox := {|
  enqueue_relay_publish := enqueue_memory;
  claim_relay_publish := claim_memory;
  mark_relay_publish_succeeded id := update_memory id entry_succeeded;
  mark_relay_publish_failed id error retry_at := update_memory id (entry_failed error retry_at);
  pending_relay_publishes pubkey identifier kind := λ m,
    (Ok (Z.of_nat (length (List.filter (unpublished pubkey identifier kind) (map_to_list (mo_entries m)).*2))), m)
|}.
End Memory.

(** ** In the database *)

(** [x as i32] *)
Definition as_i32 (z : Z) : Z := wrap_i32 z.

Definition tags_to_json (tags : tag_list) : json := JArray ((λ t, JArray (JString <$> t)) <$> tags).
Definition strings_from_json (v : json) : option (list string) := l ← as_array v; mapM as_str l.
Definition tags_from_json (v : json) : option tag_list := l ← as_array v; mapM strings_from_json l.

Record OutboxRow := mkOutboxRow {
  ob_relay_url : string; ob_event_id : bytes; ob_pubkey : bytes; ob_created_at : Z; ob_kind : Z;
  ob_tags : json; ob_content : string; ob_sig : bytes; ob_forgejo_owner : string;
  ob_forgejo_repo : string; ob_identifier : string; ob_status : string; ob_attempt_count : Z;
  ob_last_error : option string; ob_publish_after : Z
}.
Record OutboxTable := mkOutboxTable { ot_seq : Z; ot_rows : gmap Z OutboxRow }.

Definition set_outbox_row (status : string) (attempt_count : Z) (last_error : option string)
    (publish_after : Z) (row : OutboxRow) : OutboxRow :=
  mkOutboxRow (ob_relay_url row) (ob_event_id row) (ob_pubkey row) (ob_created_at row) (ob_kind row)
    (ob_tags row) (ob_content row) (ob_sig row) (ob_forgejo_owner row) (ob_forgejo_repo row)
    (ob_identifier row) status attempt_count last_error publish_after.

Section Sql.
Context `{HexLib} `{RowOrder}.

Abbreviation sql := (stateful (Database OutboxTable) StorageError).

Definition entry_row (e : RelayPublishEntry) (now : Z) : OutboxRow :=
  mkOutboxRow (en_relay_url e) (en_event_id e) (en_pubkey e) (en_created_at e) (as_i32 (en_kind e))
    (tags_to_json (en_tags e)) (en_content e) (en_sig e) (en_forgejo_owner e) (en_forgejo_repo e)
    (en_identifier e) (RelayPublishStatus_as_str RpPending) 0 None now.

Definition pg_enqueue (now : Z) (request : RelayPublishRequest) : sql unit :=
  entry ← lift (RelayPublishRequest_decode request);
  statement (λ t, let id := (ot_seq t + 1)%Z in
    (tt, mkOutboxTable id (<[id := entry_row entry now]> (ot_rows t)))).

Definition job_from_row (id : Z) (row : OutboxRow) : result StorageError RelayPublishJob :=
  tags ← ok_or (StSerialization "tags" "invalid type") (tags_from_json (ob_tags row));
  Ok (mkRelayPublishJob id (mkRelayPublishEntry (ob_relay_url row) (ob_event_id row) (ob_pubkey row)
        (ob_created_at row) (as_u32 (ob_kind row)) tags (ob_content row) (ob_sig row)
        (ob_forgejo_owner row) (ob_forgejo_repo row) (ob_identifier row))
      (ob_attempt_count row) (ob_publish_after row)).

Definition id_le (a b : Z * OutboxRow) : Prop := (a.1 ≤ b.1)%Z.
#[export] Instance id_le_dec : RelDecision id_le.
Proof. intros a b. unfold id_le. apply _. Defined.

(** [ORDER BY id LIMIT 1]; the count is an [integer], whose overflow is an error. *)
Definition claim_rows (now : Z) (t : OutboxTable) : option (option (Z * OutboxRow) * OutboxTable) :=
  match head (merge_sort id_le (List.filter (λ '(_, row),
          (ob_status row == RelayPublishStatus_as_str RpPending) && bool_decide (ob_publish_after row ≤ now)%Z)
          (row_iter (map_to_list (ot_rows t))))) with
  | None => Some (None, t)
  | Some (id, row) =>
      if bool_decide (i32_max < ob_attempt_count row + 1)%Z then None
      else
        let row := set_outbox_row (RelayPublishStatus_as_str RpPublishing) (ob_attempt_count row + 1)
                     (ob_last_error row) (ob_publish_after row) row in
        Some (Some (id, row), mkOutboxTable (ot_seq t) (<[id := row]> (ot_rows t)))
  end.

Definition pg_claim (now : Z) : sql (option RelayPublishJob) :=
  row ← try_statement "integer out of range" (claim_rows now);
  match row with
  | None => lift (Ok None)
  | Some (id, row) => job ← lift (job_from_row id row); lift (Ok (Some job))
  end.

(** An update of one row, which reports how many rows there were. *)
Definition pg_update (id : Z) (f : OutboxRow → OutboxRow) : sql unit :=
  found ← statement (λ t, (is_some (ot_rows t !! id), mkOutboxTable (ot_seq t) (alter f id (ot_rows t))));
  lift (fail_if (negb found) outbox_missing).

Definition pg_mark_succeeded (id : Z) : sql unit :=
  pg_update id (λ row, set_outbox_row (RelayPublishStatus_as_str RpPublished) (ob_attempt_count row) None
                         (ob_publish_after row) row).
Definition pg_mark_failed (id : Z) (error : string) (retry_at : Z) : sql unit :=
  pg_update id (λ row, set_outbox_row (RelayPublishStatus_as_str RpPending) (ob_attempt_count row) (Some error)
                         retry_at row).

Definition pg_pending (pubkey : bytes) (identifier : string) (kind : Z) : sql Z :=
  statement (λ t, (Z.of_nat (length (List.filter (λ row,
    (ob_pubkey row == pubkey) && (ob_identifier row == identifier) &&
    bool_decide (ob_kind row = as_i32 kind) &&
    negb (ob_status row == RelayPublishStatus_as_str RpPublished)) (map_to_list (ot_rows t)).*2)), t)).

#[export] Instance Postgres_outbox : RelayPublishRepository (Database OutboxTable) := {|
  enqueue_relay_publish := pg_enqueue;
  claim_relay_publish := pg_claim;
  mark_relay_publish_succeeded := pg_mark_succeeded;
  mark_relay_publish_failed := pg_mark_failed;
  pending_relay_publishes := pg_pending
|}.
End Sql.

(** ** What a publisher relies on *)

Abbreviation outbox := (gmap Z OutboxEntry).

(** The entry is pending and its time has come. *)
Definition due (now : Z) (v : outbox) (id : Z) : Prop :=
  ∃ e, v !! id = Some e ∧ oe_status e = RpPending ∧ (jb_publish_after (oe_job e) ≤ now)%Z.

Definition claimed (e : OutboxEntry) (publish_after : Z) : OutboxEntry :=
  mkOutboxEntry (mkRelayPublishJob (jb_id (oe_job e)) (jb_entry (oe_job e))
    (wrap_i32 (jb_attempt_count (oe_job e) + 1)) publish_after) RpPublishing (oe_last_error e).

(** A claim takes the due entry with the least id, or there is none. *)
Definition claims (now : Z) (v : outbox) (o : option RelayPublishJob) (v' : outbox) : Prop :=
  match o with
  | None => v' = v ∧ ∀ id, ¬ due now v id
  | Some job => ∃ id e publish_after, due now v id ∧ (∀ id', due now v id' → (id ≤ id')%Z) ∧
      v !! id = Some e ∧ job = oe_job (claimed e publish_after) ∧ v' = <[id := claimed e publish_after]> v
  end.

Definition count_unpublished (pubkey : bytes) (identifier : string) (kind : Z) (v : outbox) : Z :=
  Z.of_nat (length (List.filter (unpublished pubkey identifier kind) (map_to_list v).*2)).

Definition new_entry (id : Z) (entry : RelayPublishEntry) (now : Z) : OutboxEntry :=
  mkOutboxEntry (mkRelayPublishJob id entry 0 now) RpPending None.

(** A method succeeds with its effect, or fails with or without it. *)
Definition u32 (z : Z) : Prop := (0 ≤ z ≤ u32_max)%Z.

Class OutboxLaws (R : Type) `{HexLib} `{RelayPublishRepository R} := {
  outbox_holds : R → outbox → Prop;
  outbox_ids : ∀ s v id e, outbox_holds s v → v !! id = Some e → jb_id (oe_job e) = id;
  enqueue_spec : ∀ now request s v r s', outbox_holds s v → u32 (rq_kind request) →
    enqueue_relay_publish now request s = (r, s') →
    (is_ok r = false ∧ outbox_holds s' v) ∨
    ∃ entry id, RelayPublishRequest_decode request = Ok entry ∧ (∀ id', is_Some (v !! id') → (id' < id)%Z) ∧
      outbox_holds s' (<[id := new_entry id entry now]> v);
  claim_spec : ∀ now s v r s', outbox_holds s v → claim_relay_publish now s = (r, s') →
    (is_ok r = false ∧ outbox_holds s' v) ∨
    ∃ o v', outbox_holds s' v' ∧ claims now v o v' ∧ (r = Ok o ∨ is_ok r = false);
  succeeded_spec : ∀ id s v r s', outbox_holds s v → mark_relay_publish_succeeded id s = (r, s') →
    (is_ok r = false ∧ outbox_holds s' v) ∨ outbox_holds s' (alter entry_succeeded id v);
  failed_spec : ∀ id error retry_at s v r s', outbox_holds s v →
    mark_relay_publish_failed id error retry_at s = (r, s') →
    (is_ok r = false ∧ outbox_holds s' v) ∨ outbox_holds s' (alter (entry_failed error retry_at) id v);
  pending_spec : ∀ pubkey identifier kind,
    answers outbox_holds (pending_relay_publishes pubkey identifier kind)
      (λ v n, u32 kind → n = count_unpublished pubkey identifier kind v)
}.

(** ** The implementation in memory *)

Section MemoryLaws.
Context `{HexLib} `{RowOrder}.

Definition dueb (now : Z) (e : OutboxEntry) : bool :=
  bool_decide (oe_status e = RpPending) && bool_decide (jb_publish_after (oe_job e) ≤ now)%Z.

(** One step of [select_due]. *)
Definition select_step (now : Z) (best : option Z) (p : Z * OutboxEntry) : option Z :=
  if dueb now p.2 then Some (match best with Some c => Z.min c p.1 | None => p.1 end) else best.

Lemma select_due_steps now l : select_due now l = foldl (select_step now) None l.
Proof.
  unfold select_due. generalize (@None Z) as best. induction l as [|[id e] l IH]; intros best; simpl; [done|].
  rewrite <-IH. f_equal. unfold select_step, dueb. simpl.
  destruct (bool_decide (oe_status e = RpPending)); simpl; [|done].
  destruct (decide (now < jb_publish_after (oe_job e))%Z) as [Hlt|Hge].
  - rewrite bool_decide_eq_true_2, bool_decide_eq_false_2; [done|lia|done].
  - rewrite bool_decide_eq_false_2, bool_decide_eq_true_2; [|lia|done].
    destruct best as [c|]; [|done]. destruct (Z.leb_spec c id); f_equal; lia.
Qed.

(** The least of [best] and the ids that are due. *)
Definition is_least (now : Z) (best : option Z) (l : list (Z * OutboxEntry)) (r : option Z) : Prop :=
  match r with
  | None => best = None ∧ ∀ id e, (id, e) ∈ l → dueb now e = false
  | Some id => (best = Some id ∨ ∃ e, (id, e) ∈ l ∧ dueb now e = true) ∧
      (∀ id', best = Some id' → (id ≤ id')%Z) ∧ ∀ id' e, (id', e) ∈ l → dueb now e = true → (id ≤ id')%Z
  end.

Lemma select_steps_least now l best : is_least now best l (foldl (select_step now) best l).
Proof.
  revert best. induction l as [|[id e] l IH]; intros best.
  { simpl. destruct best; simpl; [split; [by left|]; split; [intros ? [= <-]; lia|]|split; [done|]];
      intros ? ? Hin; by apply not_elem_of_nil in Hin. }
  cbn [foldl]. specialize (IH (select_step now best (id, e))).
  destruct (foldl (select_step now) (select_step now best (id, e)) l) as [r|];
    unfold select_step in IH; cbn [fst snd] in IH; destruct (dueb now e) eqn:Ed; unfold is_least in *.
  - destruct IH as (Hr & Hb & Hl). split_and!.
    + destruct Hr as [[= <-]|(e' & ? & ?)]; [|right; exists e'; split; [by right|done]].
      destruct best as [c|]; [|right; exists e; split; [left|done]].
      destruct (Z.min_spec c id) as [[_ ->]|[_ ->]]; [by left|right; exists e; split; [left|done]].
    + intros c ->. specialize (Hb _ eq_refl). lia.
    + intros id' e' [[= -> ->]|Hin]%elem_of_cons Hd; [|eauto]. specialize (Hb _ eq_refl). destruct best; lia.
  - destruct IH as (Hr & Hb & Hl). split_and!; [|done|].
    + destruct Hr as [?|(e' & ? & ?)]; [by left|right; exists e'; split; [by right|done]].
    + intros id' e' [[= -> ->]|Hin]%elem_of_cons Hd; [congruence|eauto].
  - by destruct IH.
  - destruct IH as [-> Hl]. split; [done|]. intros id' e' [[= -> ->]|Hin]%elem_of_cons; eauto.
Qed.

Lemma dueb_due now v id : due now v id ↔ ∃ e, v !! id = Some e ∧ dueb now e = true.
Proof. unfold due, dueb. setoid_rewrite andb_true_iff. setoid_rewrite bool_decide_eq_true. done. Qed.

Lemma select_due_spec now (v : outbox) :
  match select_due now (row_iter (map_to_list v)) with
  | None => ∀ id, ¬ due now v id
  | Some id => due now v id ∧ ∀ id', due now v id' → (id ≤ id')%Z
  end.
Proof.
  rewrite select_due_steps. pose proof (select_steps_least now (row_iter (map_to_list v)) None) as Hl.
  assert (∀ id e, (id, e) ∈ row_iter (map_to_list v) ↔ v !! id = Some e) as Hin.
  { intros id e. rewrite (row_iter_perm (map_to_list v)). apply elem_of_map_to_list. }
  destruct (foldl _ _ _) as [id|]; simpl in Hl.
  - destruct Hl as ([?|(e & He%Hin & Hd)] & _ & Hmin); [done|]. split; [apply dueb_due; eauto|].
    intros id' (e' & He'%Hin & Hd')%dueb_due. eauto.
  - destruct Hl as [_ Hl]. intros id (e & He%Hin & Hd)%dueb_due. apply Hl in He. congruence.
Qed.

Record memory_holds (m : MemoryOutbox) (v : outbox) : Prop := {
  memory_entries : mo_entries m = v;
  memory_ids : ∀ id e, v !! id = Some e → jb_id (oe_job e) = id ∧ (id ≤ mo_seq m)%Z
}.

Lemma memory_update id f m v r m' :
  (∀ e, jb_id (oe_job (f e)) = jb_id (oe_job e)) → memory_holds m v → update_memory id f m = (r, m') →
  (is_ok r = false ∧ memory_holds m' v) ∨ memory_holds m' (alter f id v).
Proof.
  intros Hf [<- Hids]. unfold update_memory. destruct (mo_entries m !! id) as [e|] eqn:E; intros [= <- <-].
  - right. split; simpl; [|].
    + apply map_eq. intros k. destruct (decide (id = k)) as [<-|].
      * by rewrite lookup_insert_eq, lookup_alter_eq, E.
      * by rewrite lookup_insert_ne, lookup_alter_ne.
    + intros k e' Hk. destruct (decide (id = k)) as [<-|].
      * rewrite lookup_alter_eq, E in Hk. injection Hk as <-. rewrite Hf. eauto.
      * rewrite lookup_alter_ne in Hk by done. eauto.
  - left. done.
Qed.

#[export] Instance Memory_outbox_laws : OutboxLaws MemoryOutbox.
Proof.
  refine {| outbox_holds := memory_holds |}.
  - intros s v id e [_ Hids] He. by apply Hids in He as [? _].
  - intros now request s v r s' [<- Hids] _ E. cbn in E. unfold enqueue_memory in E.
    destruct (RelayPublishRequest_decode request) as [entry|]; injection E as <- <-; [right|by left].
    exists entry, (mo_seq s + 1)%Z. split_and!; [done| |].
    + intros id' [e He]. apply Hids in He as [_ ?]. lia.
    + split; simpl; [done|]. intros id e [[<- <-]|[_ He]]%lookup_insert_Some; simpl; [lia|].
      apply Hids in He. lia.
  - intros now s v r s' [<- Hids] E. right. cbn in E. unfold claim_memory in E.
    pose proof (select_due_spec now (mo_entries s)) as Hs. destruct (select_due _ _) as [id|].
    + destruct Hs as [Hd Hmin]. pose proof Hd as (e & He & _). rewrite He in E. injection E as <- <-.
      exists (Some (oe_job (claimed e now))), (<[id := claimed e now]> (mo_entries s)). split_and!; [|by exists id, e, now|by left].
      split; simpl; [done|]. intros id' e' [[<- <-]|[_ He']]%lookup_insert_Some; simpl; eauto.
    + injection E as <- <-. exists None, (mo_entries s). split_and!; [done|done|by left].
  - intros id s v r s' Hs E. by eapply memory_update.
  - intros id error retry_at s v r s' Hs E. by eapply memory_update.
  - intros pubkey identifier kind s v r s' Hs [= <- <-]. split; [done|].
    intros n [= <-] _. by destruct Hs as [<- _].
Defined.
End MemoryLaws.

(** ** The implementation in the database *)

Lemma strings_roundtrip (t : list string) : strings_from_json (JArray (JString <$> t)) = Some t.
Proof.
  unfold strings_from_json. cbn [as_array mbind option_bind]. induction t as [|s t IH]; [done|].
  rewrite fmap_cons. cbn [mapM as_str mbind option_bind]. by rewrite IH.
Qed.

Lemma tags_roundtrip tags : tags_from_json (tags_to_json tags) = Some tags.
Proof.
  unfold tags_from_json, tags_to_json. cbn [as_array mbind option_bind]. induction tags as [|t tags IH]; [done|].
  rewrite fmap_cons. cbn [mapM]. rewrite strings_roundtrip. cbn [mbind option_bind]. by rewrite IH.
Qed.

Lemma kind_roundtrip k : u32 k → as_u32 (as_i32 k) = k.
Proof.
  unfold u32, u32_max, as_u32, as_i32, wrap_i32. intros Hk.
  rewrite Zminus_mod_idemp_l. replace (k + 2 ^ 31 - 2 ^ 31)%Z with k by lia. apply Z.mod_small. lia.
Qed.

Lemma wrap_i32_id z : (i32_min ≤ z ≤ i32_max)%Z → wrap_i32 z = z.
Proof. unfold wrap_i32, i32_min, i32_max. intros. rewrite Z.mod_small; lia. Qed.

Section DatabaseLaws.
Context `{HexLib} `{RowOrder}.

Definition decode_row (id : Z) (row : OutboxRow) : option OutboxEntry :=
  job ← ok (job_from_row id row); status ← ok (RelayPublishStatus_parse (ob_status row));
  Some (mkOutboxEntry job status (ob_last_error row)).

(** A row that was written by the methods. *)
Record row_ok (seq id : Z) (row : OutboxRow) : Prop := {
  row_id : (id ≤ seq)%Z;
  row_attempts : (0 ≤ ob_attempt_count row ≤ i32_max)%Z;
  row_kind : ∃ k, u32 k ∧ ob_kind row = as_i32 k
}.
Record outbox_rep (t : OutboxTable) (v : outbox) : Prop := {
  rep_rows : table_rep decode_row (ot_rows t) v;
  rep_ok : ∀ id row, ot_rows t !! id = Some row → row_ok (ot_seq t) id row
}.

Lemma decode_row_Some id row e :
  decode_row id row = Some e ↔
  ∃ tags, tags_from_json (ob_tags row) = Some tags ∧ RelayPublishStatus_parse (ob_status row) = Ok (oe_status e) ∧
    oe_last_error e = ob_last_error row ∧
    oe_job e = mkRelayPublishJob id (mkRelayPublishEntry (ob_relay_url row) (ob_event_id row) (ob_pubkey row)
      (ob_created_at row) (as_u32 (ob_kind row)) tags (ob_content row) (ob_sig row)
      (ob_forgejo_owner row) (ob_forgejo_repo row) (ob_identifier row)) (ob_attempt_count row) (ob_publish_after row).
Proof.
  unfold decode_row, job_from_row. destruct (tags_from_json (ob_tags row)) as [tags|]; simpl.
  - destruct (RelayPublishStatus_parse _) as [st|]; simpl; split.
    + intros [= <-]. by exists tags.
    + intros (t & [= <-] & [= ->] & ? & ?). destruct e; simpl in *. by subst.
    + done.
    + by intros (t & _ & ? & _).
  - split; [done|]. by intros (t & ? & _).
Qed.

Lemma decode_entry_row id entry now :
  u32 (en_kind entry) → decode_row id (entry_row entry now) = Some (new_entry id entry now).
Proof.
  intros Hk. apply decode_row_Some. exists (en_tags entry). split_and!; [apply tags_roundtrip|done|done|].
  cbn. rewrite kind_roundtrip by done. by destruct entry.
Qed.

Lemma decode_kind r entry : RelayPublishRequest_decode r = Ok entry → en_kind entry = rq_kind r.
Proof.
  unfold RelayPublishRequest_decode. intros Hd.
  do 4 apply bind_Ok_unit in Hd as [_ Hd]. do 3 apply bind_Ok in Hd as (? & _ & Hd). by injection Hd as <-.
Qed.

(** Changing the status, the error and the time of a row. *)
Lemma decode_set_row id row e st error pa :
  decode_row id row = Some e →
  decode_row id (set_outbox_row (RelayPublishStatus_as_str st) (ob_attempt_count row) error pa row) =
    Some (mkOutboxEntry (mkRelayPublishJob (jb_id (oe_job e)) (jb_entry (oe_job e)) (jb_attempt_count (oe_job e)) pa)
            st error).
Proof.
  intros (tags & Ht & _ & _ & Hj)%decode_row_Some. apply decode_row_Some. exists tags. rewrite Hj. split_and!; try done.
  by destruct st.
Qed.

Lemma outbox_rep_alter t v id f g :
  outbox_rep t v → (∀ row e, decode_row id row = Some e → decode_row id (f row) = Some (g e)) →
  (∀ row seq, row_ok seq id row → row_ok seq id (f row)) →
  outbox_rep (mkOutboxTable (ot_seq t) (alter f id (ot_rows t))) (alter g id v).
Proof.
  intros [Hr Hok] Hfg Hf. split; simpl.
  - by apply table_rep_alter.
  - intros id' row Hrow. destruct (decide (id = id')) as [<-|].
    + rewrite lookup_alter_eq in Hrow. apply fmap_Some in Hrow as (row0 & Hrow0 & ->). eauto.
    + rewrite lookup_alter_ne in Hrow by done. eauto.
Qed.

Lemma pg_update_spec id f g db v r db' :
  (∀ row e, decode_row id row = Some e → decode_row id (f row) = Some (g e)) →
  (∀ row seq, row_ok seq id row → row_ok seq id (f row)) →
  db_holds outbox_rep db v → pg_update id f db = (r, db') →
  (is_ok r = false ∧ db_holds outbox_rep db' v) ∨ db_holds outbox_rep db' (alter g id v).
Proof.
  intros Hfg Hf Hr. unfold pg_update, mbind, stateful_bind, statement, lift, db_holds in *.
  pose proof (outbox_rep_alter _ _ id f g Hr Hfg Hf) as Hr'.
  destruct (db_outcomes db) as [|[|source []] os]; simpl; intros [= <- <-]; simpl; auto.
Qed.

Lemma decode_status id row e st :
  decode_row id row = Some e → (ob_status row == RelayPublishStatus_as_str st) = bool_decide (oe_status e = st).
Proof.
  intros (tags & _ & Hs & _)%decode_row_Some. unfold RelayPublishStatus_parse in Hs.
  destruct (String.eqb_spec (ob_status row) "pending") as [->|N1]; [injection Hs as <-; by destruct st|].
  destruct (String.eqb_spec (ob_status row) "publishing") as [->|N2]; [injection Hs as <-; by destruct st|].
  destruct (String.eqb_spec (ob_status row) "published") as [->|N3]; [injection Hs as <-; by destruct st|done].
Qed.

Lemma head_merge_sort {A} (R : relation A) `{!RelDecision R, !Transitive R, !Total R} (l : list A) :
  match head (merge_sort R l) with
  | None => l = []
  | Some x => x ∈ l ∧ ∀ y, y ∈ l → y = x ∨ R x y
  end.
Proof.
  pose proof (merge_sort_Permutation R l) as Hp. pose proof (Sorted_StronglySorted R _ (Sorted_merge_sort R l)) as Hs.
  destruct (merge_sort R l) as [|x l']; cbn [head].
  - by apply Permutation_nil_l in Hp.
  - apply StronglySorted_cons in Hs as [Hx _]. split; [rewrite <-Hp; left|].
    intros y Hy. rewrite <-Hp in Hy. apply elem_of_cons in Hy as [->|Hy]; [by left|].
    right. by eapply Forall_forall in Hx.
Qed.

#[export] Instance id_le_trans : Transitive id_le.
Proof. intros a b c. unfold id_le. lia. Qed.
#[export] Instance id_le_total : Total id_le.
Proof. intros a b. unfold id_le. lia. Qed.

Lemma row_due now t v id :
  outbox_rep t v →
  due now v id ↔ ∃ row, (id, row) ∈ List.filter (λ '(_, row),
      (ob_status row == RelayPublishStatus_as_str RpPending) && bool_decide (ob_publish_after row ≤ now)%Z)
      (row_iter (map_to_list (ot_rows t))).
Proof.
  intros [Hr _]. unfold due. rewrite (table_rep_lookup _ _ _ id Hr).
  setoid_rewrite list_elem_of_In. setoid_rewrite filter_In. setoid_rewrite <-list_elem_of_In.
  setoid_rewrite (row_iter_perm (map_to_list (ot_rows t))). setoid_rewrite elem_of_map_to_list.
  setoid_rewrite andb_true_iff. setoid_rewrite bool_decide_eq_true. specialize (Hr id).
  destruct (ot_rows t !! id) as [row|]; simpl.
  - destruct Hr as (e & Hd & _). rewrite Hd. pose proof (decode_status _ _ _ RpPending Hd) as Hs. cbn [RelayPublishStatus_as_str] in Hs.
    apply decode_row_Some in Hd as (tags & _ & _ & _ & Hj). split.
    + intros (? & [= <-] & Hst & Hpa). exists row. rewrite Hj in Hpa. by rewrite Hs, Hst.
    + intros (? & [= <-] & Hst & Hpa). exists e. rewrite Hs, bool_decide_eq_true in Hst. by rewrite Hj.
  - split; intros (? & ? & _); done.
Qed.

Lemma claim_rows_spec now t v o t' :
  outbox_rep t v → claim_rows now t = Some (o, t') →
  ∃ v', outbox_rep t' v' ∧ claims now v
    (p ← o; ok (job_from_row p.1 p.2)) v' ∧ ∀ p, o = Some p → is_ok (job_from_row p.1 p.2) = true.
Proof.
  intros Hr. unfold claim_rows.
  pose proof (head_merge_sort id_le (List.filter (λ '(_, row),
    (ob_status row == RelayPublishStatus_as_str RpPending) && bool_decide (ob_publish_after row ≤ now)%Z)
    (row_iter (map_to_list (ot_rows t))))) as Hh.
  destruct (head _) as [[id row]|]; [|intros [= <- <-]].
  2: { exists v. split_and!; [done|split; [done|]|done]. intros id Hd%(row_due _ _ _ _ Hr). rewrite Hh in Hd.
       destruct Hd as [row Hd]. by apply not_elem_of_nil in Hd. }
  destruct Hh as [Hin Hmin]. assert (due now v id) as Hdue by (apply (row_due _ _ _ _ Hr); eauto).
  assert (ot_rows t !! id = Some row) as Hrow.
  { apply list_elem_of_In, filter_In in Hin as [Hin%list_elem_of_In _].
    by rewrite (row_iter_perm (map_to_list (ot_rows t))), elem_of_map_to_list in Hin. }
  destruct (bool_decide (i32_max < ob_attempt_count row + 1)%Z) eqn:Emax; [done|]. intros [= <- <-].
  apply bool_decide_eq_false in Emax.
  pose proof (rep_rows _ _ Hr id) as Hd. rewrite Hrow in Hd. destruct Hd as (e & Hd & Hv).
  destruct (rep_ok _ _ Hr _ _ Hrow) as [Hid Hatt Hk].
  assert (decode_row id (set_outbox_row "publishing" (ob_attempt_count row + 1) (ob_last_error row)
            (ob_publish_after row) row) = Some (claimed e (ob_publish_after row))) as Hd'.
  { apply decode_row_Some in Hd as (tags & Ht & _ & Hl & Hj). apply decode_row_Some. exists tags.
    split_and!; [done|done|done|]. unfold claimed. rewrite Hj. cbn. rewrite wrap_i32_id; [done|].
    unfold i32_min, i32_max in *. lia. }
  exists (<[id := claimed e (ob_publish_after row)]> v). split_and!.
  - split; cbn [ot_rows ot_seq].
    + apply table_rep_insert; [apply Hr|done].
    + intros id' row' [[<- <-]|[_ Hrow']]%lookup_insert_Some; [split; cbn; [done|lia|done]|by apply Hr].
  - unfold decode_row in Hd'. destruct (job_from_row id _) as [job|] eqn:Ej in Hd'; [|done].
    cbn [mbind option_bind fst snd RelayPublishStatus_as_str]. rewrite Ej. cbn in Hd' |- *. injection Hd' as Hjob.
    exists id, e, (ob_publish_after row). split_and!; [done| |done|by subst|done].
    intros id' [row' Hin']%(row_due _ _ _ _ Hr). apply Hmin in Hin' as [[= -> _]|]; [lia|done].
  - intros p [= <-]. cbn [fst snd RelayPublishStatus_as_str]. unfold decode_row in Hd'.
    destruct (job_from_row id _); [done|done].
Qed.

Lemma pg_enqueue_spec now request db v r db' :
  db_holds outbox_rep db v → u32 (rq_kind request) → pg_enqueue now request db = (r, db') →
  (is_ok r = false ∧ db_holds outbox_rep db' v) ∨
  ∃ entry id, RelayPublishRequest_decode request = Ok entry ∧ (∀ id', is_Some (v !! id') → (id' < id)%Z) ∧
    db_holds outbox_rep db' (<[id := new_entry id entry now]> v).
Proof.
  intros Hr Hk. unfold pg_enqueue, mbind, stateful_bind, lift, db_holds in *.
  destruct (RelayPublishRequest_decode request) as [entry|err] eqn:Ed; [|intros [= <- <-]; by left].
  rewrite <-(decode_kind _ _ Ed) in Hk. set (id := (ot_seq (db_tables db) + 1)%Z).
  assert (outbox_rep (mkOutboxTable id (<[id := entry_row entry now]> (ot_rows (db_tables db))))
            (<[id := new_entry id entry now]> v)) as Hr'.
  { split; cbn [ot_rows ot_seq].
    - apply table_rep_insert; [apply Hr|by apply decode_entry_row].
    - intros id' row [[<- <-]|[_ Hrow]]%lookup_insert_Some.
      + split; cbn; [lia|unfold i32_max; lia|eauto].
      + apply Hr in Hrow as [? ? ?]. split; [lia|done|done]. }
  assert (∀ id', is_Some (v !! id') → (id' < id)%Z) as Hid.
  { intros id' [e He]. rewrite (table_rep_lookup _ _ _ id' (rep_rows _ _ Hr)) in He.
    destruct (ot_rows (db_tables db) !! id') as [row|] eqn:Er; [|done]. apply Hr in Er as [? _ _]. lia. }
  unfold statement. fold id.
  destruct (db_outcomes db) as [|[|source []] os]; intros [= <- <-]; eauto 6.
Qed.

Lemma pg_claim_spec now db v r db' :
  db_holds outbox_rep db v → pg_claim now db = (r, db') →
  (is_ok r = false ∧ db_holds outbox_rep db' v) ∨
  ∃ o v', db_holds outbox_rep db' v' ∧ claims now v o v' ∧ (r = Ok o ∨ is_ok r = false).
Proof.
  intros Hr. unfold pg_claim, mbind, stateful_bind, try_statement, lift, db_holds in *.
  destruct (claim_rows now (db_tables db)) as [[o t]|] eqn:Ec; [|intros [= <- <-]; by left].
  destruct (claim_rows_spec _ _ _ _ _ Hr Ec) as (v' & Hr' & Hc & Hok). unfold statement.
  assert (match o with Some (id, row) => ∃ job, job_from_row id row = Ok job ∧ claims now v (Some job) v'
          | None => claims now v None v' end) as Ho.
  { destruct o as [[id row]|]; [|done]. specialize (Hok _ eq_refl). cbn in Hok, Hc.
    destruct (job_from_row id row) as [job|]; [by exists job|done]. }
  destruct (db_outcomes db) as [|[|source []] os].
  1,2: destruct o as [[id row]|]; [destruct Ho as (job & -> & Ho)|]; intros [= <- <-]; right;
         eexists _, v'; (split; [exact Hr'|split; [exact Ho|by left]]).
  - intros [= <- <-]. right. eexists _, v'. (split; [exact Hr'|split; [exact Hc|by right]]).
  - intros [= <- <-]. by left.
Qed.

Lemma succeeded_row id row e :
  decode_row id row = Some e →
  decode_row id (set_outbox_row (RelayPublishStatus_as_str RpPublished) (ob_attempt_count row) None
                   (ob_publish_after row) row) = Some (entry_succeeded e).
Proof.
  intros Hd. rewrite (decode_set_row _ _ _ RpPublished _ _ Hd). unfold entry_succeeded.
  by apply decode_row_Some in Hd as (? & _ & _ & _ & ->).
Qed.

#[export] Instance Postgres_outbox_laws : OutboxLaws (Database OutboxTable).
Proof.
  refine {| outbox_holds := db_holds outbox_rep |}.
  - intros s v id e Hr He. rewrite (table_rep_lookup _ _ _ id (rep_rows _ _ Hr)) in He.
    destruct (ot_rows _ !! id) as [row|]; [|done]. cbn in He. apply decode_row_Some in He as (? & _ & _ & _ & ->). done.
  - apply pg_enqueue_spec.
  - apply pg_claim_spec.
  - intros id s v r s' Hr E. eapply pg_update_spec; [| |exact Hr|exact E].
    + apply succeeded_row.
    + intros row seq [? ? ?]. by split.
  - intros id error retry_at s v r s' Hr E. eapply pg_update_spec; [| |exact Hr|exact E].
    + intros row e Hd. cbn beta. by rewrite (decode_set_row _ _ _ RpPending _ _ Hd).
    + intros row seq [? ? ?]. by split.
  - intros pubkey identifier kind. apply (answers_read outbox_rep).
    intros t v [Hr Hok] Hk. unfold count_unpublished. f_equal.
    eapply table_rep_count; [done|]. intros id row e Hrow Hd.
    pose proof (decode_status _ _ _ RpPublished Hd) as Hs. destruct (Hok _ _ Hrow) as [_ _ (k & Hk' & Hkk)].
    apply decode_row_Some in Hd as (tags & _ & _ & _ & Hj). unfold unpublished. rewrite Hs, Hj, Hkk. cbn.
    rewrite kind_roundtrip by done.
    assert (bool_decide (as_i32 k = as_i32 kind) = bool_decide (k = kind)) as ->.
    { apply bool_decide_ext. split; [|congruence]. intros Hkey%(f_equal as_u32). by rewrite !kind_roundtrip in Hkey. }
    destruct (_ == pubkey), (_ == identifier), (bool_decide (k = kind)), (bool_decide _); done.
Defined.
End DatabaseLaws.

(** ** Without failures *)

(** Every entry can be claimed [n] times more. *)
Definition attempts_fit (n : nat) (v : outbox) : Prop :=
  ∀ id e, v !! id = Some e →
    (0 ≤ jb_attempt_count (oe_job e) ∧ jb_attempt_count (oe_job e) + Z.of_nat n ≤ i32_max)%Z.

(** An outbox none of whose methods will fail. *)
Class OutboxReliability (R : Type) `{OutboxLaws R} := {
  outbox_reliable : R → Prop;
  claim_reliable : ∀ now s v, outbox_holds s v → outbox_reliable s → attempts_fit 1 v →
    ∃ o s' v', claim_relay_publish now s = (Ok o, s') ∧ outbox_reliable s' ∧ outbox_holds s' v' ∧ claims now v o v';
  succeeded_reliable : ∀ id s v, outbox_holds s v → outbox_reliable s → is_Some (v !! id) →
    ∃ s', mark_relay_publish_succeeded id s = (Ok tt, s') ∧ outbox_reliable s' ∧
      outbox_holds s' (alter entry_succeeded id v);
  failed_reliable : ∀ id error retry_at s v, outbox_holds s v → outbox_reliable s → is_Some (v !! id) →
    ∃ s', mark_relay_publish_failed id error retry_at s = (Ok tt, s') ∧ outbox_reliable s' ∧
      outbox_holds s' (alter (entry_failed error retry_at) id v);
  pending_reliable : ∀ pubkey identifier kind s v, outbox_holds s v → outbox_reliable s →
    ∃ n s', pending_relay_publishes pubkey identifier kind s = (Ok n, s') ∧ outbox_reliable s' ∧ outbox_holds s' v
}.

Section Reliability.
Context `{HexLib} `{RowOrder}.

Lemma memory_update_reliable id f m v :
  (∀ e, jb_id (oe_job (f e)) = jb_id (oe_job e)) → memory_holds m v → is_Some (v !! id) →
  ∃ m', update_memory id f m = (Ok tt, m') ∧ True ∧ memory_holds m' (alter f id v).
Proof.
  intros Hf Hm Hid. destruct (update_memory id f m) as [r m'] eqn:E. exists m'.
  pose proof (memory_update _ _ _ _ _ _ Hf Hm E) as Hu. unfold update_memory in E.
  destruct Hm as [Hv _]. rewrite Hv in E. destruct Hid as [e He]. rewrite He in E. injection E as <- <-.
  split_and!; [done|done|]. by destruct Hu as [[? _]|?].
Qed.

#[export] Instance Memory_outbox_reliable : OutboxReliability MemoryOutbox.
Proof.
  refine {| outbox_reliable := λ _, True |}.
  - intros now s v Hs _ _. destruct (claim_relay_publish now s) as [r s'] eqn:E.
    destruct (claim_spec _ _ _ _ _ Hs E) as [[Hr _]|(o & v' & Hs' & Hc & [->|Hr])].
    1,3: cbn in E; unfold claim_memory in E; repeat case_match; simplify_eq; done.
    by exists o, s', v'.
  - intros id s v Hs _ Hid. by apply memory_update_reliable.
  - intros id error retry_at s v Hs _ Hid. by apply memory_update_reliable.
  - intros pubkey identifier kind s v Hs _. eexists _, s. split; [done|auto].
Defined.

Lemma pg_update_reliable id f g db v :
  (∀ row e, decode_row id row = Some e → decode_row id (f row) = Some (g e)) →
  (∀ row seq, row_ok seq id row → row_ok seq id (f row)) →
  db_holds outbox_rep db v → reliable db → is_Some (v !! id) →
  ∃ db', pg_update id f db = (Ok tt, db') ∧ reliable db' ∧ db_holds outbox_rep db' (alter g id v).
Proof.
  intros Hfg Hf Hr Hrel Hid. pose proof (outbox_rep_alter _ _ id f g Hr Hfg Hf) as Hr'.
  unfold pg_update, mbind, stateful_bind, statement, lift, db_holds, reliable in *. rewrite Hrel.
  rewrite (table_rep_lookup _ _ _ id (rep_rows _ _ Hr)) in Hid.
  destruct (ot_rows (db_tables db) !! id) as [row|]; [|by destruct Hid]. eexists. split; [done|]. by split.
Qed.

Lemma claim_rows_total now t v : outbox_rep t v → attempts_fit 1 v → ∃ p, claim_rows now t = Some p.
Proof.
  intros [Hr _] Hfit. unfold claim_rows.
  pose proof (head_merge_sort id_le (List.filter (λ '(_, row),
    (ob_status row == RelayPublishStatus_as_str RpPending) && bool_decide (ob_publish_after row ≤ now)%Z)
    (row_iter (map_to_list (ot_rows t))))) as Hh.
  destruct (head _) as [[id row]|]; [|by eexists]. destruct Hh as [Hin _].
  apply list_elem_of_In, filter_In in Hin as [Hin%list_elem_of_In _].
  rewrite (row_iter_perm (map_to_list (ot_rows t))), elem_of_map_to_list in Hin.
  specialize (Hr id). rewrite Hin in Hr. destruct Hr as (e & Hd & Hv). apply Hfit in Hv as [_ Hv].
  apply decode_row_Some in Hd as (? & _ & _ & _ & Hj). rewrite Hj in Hv. simpl in Hv.
  rewrite bool_decide_eq_false_2 by lia. by eexists.
Qed.

#[export] Instance Postgres_outbox_reliable : OutboxReliability (Database OutboxTable).
Proof.
  refine {| outbox_reliable := reliable |}.
  - intros now db v Hr Hrel Hfit. destruct (claim_rows_total now _ _ Hr Hfit) as [[o t] Ec].
    destruct (claim_rows_spec _ _ _ _ _ Hr Ec) as (v' & Hr' & Hc & Hok).
    exists (p ← o; ok (job_from_row p.1 p.2)), (mkDatabase t []), v'.
    split; [|by split_and!]. cbn. unfold pg_claim, mbind, stateful_bind, try_statement, statement, lift.
    unfold reliable in Hrel. rewrite Ec, Hrel. destruct o as [[id row]|]; [|done].
    specialize (Hok _ eq_refl). cbn in Hok |- *. by destruct (job_from_row id row).
  - intros id db v Hr Hrel Hid. eapply pg_update_reliable; [| |exact Hr|exact Hrel|exact Hid].
    + apply succeeded_row.
    + intros row seq [? ? ?]. by split.
  - intros id error retry_at db v Hr Hrel Hid. eapply pg_update_reliable; [| |exact Hr|exact Hrel|exact Hid].
    + intros row e Hd. cbn beta. by rewrite (decode_set_row _ _ _ RpPending _ _ Hd).
    + intros row seq [? ? ?]. by split.
  - intros pubkey identifier kind db v Hr Hrel. cbn. unfold pg_pending, statement. unfold reliable in *. rewrite Hrel.
    eexists _, _. split; [done|]. by split.
Defined.
End Reliability.
