(* ===== verification/Forgejo.v ===== *)
(** * [Forgejo]: the client of the forge

    Models [crates/forgejo/src/lib.rs]: the requests the client makes of the
    HTTP interface of the forge and how it reads the answers.  The transport is
    a class, as the trait in the code; the decoders that serde derives for the
    answers are parameters.  [ForgeLaws] is the documented behaviour of the
    forge that the client relies on, and the theorems say what the [ensure_*]
    operations then achieve. *)

From S2P Require Import Prelude RustStr CoreTypes Externals HexModel Database Config.

(** ** Requests and answers *)

Inductive ForgejoMethod := FmGet | FmPost.
Record ForgejoRequest := mkForgejoRequest {
  fq_method : ForgejoMethod; fq_url : string; fq_body : option string
}.
Record ForgejoResponse := mkForgejoResponse { fr_status : Z; fr_body : string }.

Inductive ForgejoError :=
| FeRequest (message : string)
| FeResponse (status : Z) (body : string)
| FeParse (message : string)
| FeNotFound (message : string).

Definition ForgejoError_display (e : ForgejoError) : string :=
  match e with
  | FeRequest message => "forgejo request error: " +:+ message
  | FeResponse status body => "forgejo response " +:+ pretty status +:+ ": " +:+ body
  | FeParse message => "forgejo parse error: " +:+ message
  | FeNotFound message => "forgejo not found: " +:+ message
  end.

Class ForgejoTransport (T : Type) := { send : ForgejoRequest → stateful T ForgejoError ForgejoResponse }.

(** *** The transport over the network *)

(** What [reqwest] is asked to send. *)
Record WireRequest := mkWireRequest {
  wr_method : ForgejoMethod; wr_url : string; wr_headers : list (string * string); wr_body : option string
}.
(** What it comes back with: an error, or a status and the body unless reading it fails. *)
Class WireLib (N : Type) := { wire_execute : WireRequest → stateful N string (Z * result string string) }.

Record ReqwestTransport (N : Type) := mkReqwestTransport { rt_network : N; rt_token : string }.
Arguments mkReqwestTransport {N} _ _.
Arguments rt_network {N} _.
Arguments rt_token {N} _.

Definition ReqwestTransport_new {N} (network : N) (token : string) : result ForgejoError (ReqwestTransport N) :=
  if is_blank token then Err (FeRequest "forgejo api token must not be empty")
  else Ok (mkReqwestTransport network token).

Definition wire_request (token : string) (request : ForgejoRequest) : WireRequest :=
  mkWireRequest (fq_method request) (fq_url request)
    ([("Authorization", "token " +:+ token); ("Accept", "application/json")] ++
     match fq_body request with Some _ => [("Content-Type", "application/json")] | None => [] end)
    (fq_body request).

Definition reqwest_send {N} `{WireLib N} (request : ForgejoRequest)
    : stateful (ReqwestTransport N) ForgejoError ForgejoResponse := λ t,
  let '(r, network) := wire_execute (wire_request (rt_token t) request) (rt_network t) in
  (match r with
   | Err err => Err (FeRequest err)
   | Ok (status, text) => body ← map_err FeRequest text; Ok (mkForgejoResponse status body)
   end, mkReqwestTransport network (rt_token t)).

#[export] Instance ReqwestTransport_transport {N} `{WireLib N} : ForgejoTransport (ReqwestTransport N) :=
  {| send := reqwest_send |}.

(** ** What is sent and what is read *)

Record ForgejoRepo := mkForgejoRepo {
  fo_owner : string; fo_name : string; fo_full_name : string; fo_html_url : option string
}.
Record ForgejoUser := mkForgejoUser { fu_username : string; fu_email : option string }.
Record ForgejoOrg := mkForgejoOrg { fg_name : string; fg_full_name : option string }.
Record ForgejoPullRequest := mkForgejoPullRequest {
  fpr_number : Z; fpr_url : string; fpr_html_url : option string
}.
Record ForgejoCreateUser := mkForgejoCreateUser {
  cu_username : string; cu_email : string; cu_password : string; cu_full_name : option string;
  cu_must_change_password : option bool; cu_send_notify : option bool
}.
Record ForgejoCreateOrg := mkForgejoCreateOrg {
  co_username : string; co_full_name : option string; co_description : option string;
  co_visibility : option string
}.
Record ForgejoCreateRepo := mkForgejoCreateRepo {
  cr_name : string; cr_description : option string; cr_private : option bool; cr_auto_init : option bool
}.
Record ForgejoCreatePullRequest := mkForgejoCreatePullRequest {
  cp_head : string; cp_base : string; cp_title : string; cp_body : option string
}.

(** The answers, as their derived decoders give them. *)
Record ForgejoRepoResponse := mkForgejoRepoResponse {
  rr_full_name : string; rr_name : string; rr_owner : string; rr_html_url : option string
}.
Record ForgejoUserResponse := mkForgejoUserResponse {
  ur_login : option string; ur_username : option string; ur_email : option string
}.
Record ForgejoOrgResponse := mkForgejoOrgResponse { or_name : string; or_full_name : option string }.
Record ForgejoPullRequestResponse := mkForgejoPullRequestResponse {
  pr_number : Z; pr_url : string; pr_html_url : option string
}.
(** A hook, of which only the URL of the configuration is read. *)
Record ForgejoHookResponse := mkForgejoHookResponse { hr_url : option string }.

Class ForgejoCodec := {
  repo_from_str : string → result string ForgejoRepoResponse;
  user_from_str : string → result string ForgejoUserResponse;
  org_from_str : string → result string ForgejoOrgResponse;
  pull_request_from_str : string → result string ForgejoPullRequestResponse;
  hooks_from_str : string → result string (list ForgejoHookResponse)
}.

Definition into_repo (r : ForgejoRepoResponse) : ForgejoRepo :=
  mkForgejoRepo (rr_owner r) (rr_name r) (rr_full_name r) (rr_html_url r).

Definition into_user (r : ForgejoUserResponse) : result ForgejoError ForgejoUser :=
  username ← match ur_login r, ur_username r with
             | Some login, Some username =>
                 if negb (login == username) then
                   Err (FeParse "forgejo user response has mismatched login and username")
                 else Ok login
             | Some login, None => Ok login
             | None, Some username => Ok username
             | None, None => Err (FeParse "forgejo user response missing username")
             end;
  Ok (mkForgejoUser username (ur_email r)).

Definition into_org (r : ForgejoOrgResponse) : ForgejoOrg := mkForgejoOrg (or_name r) (or_full_name r).

Definition into_pull_request (r : ForgejoPullRequestResponse) : result ForgejoError ForgejoPullRequest :=
  if bool_decide (pr_number r < 0)%Z then Err (FeParse ("invalid pull request number: " +:+ pretty (pr_number r)))
  else Ok (mkForgejoPullRequest (pr_number r) (pr_url r) (pr_html_url r)).

(** Members that are skipped when there is no value. *)
Definition opt_member (key : string) (v : option json) : list (string * json) :=
  match v with Some v => [(key, v)] | None => [] end.
Definition opt_string (v : option string) : json := match v with Some s => JString s | None => JNull end.

Definition user_payload (u : ForgejoCreateUser) : json := JObject (
  [("username", JString (cu_username u)); ("email", JString (cu_email u)); ("password", JString (cu_password u))] ++
  opt_member "full_name" (JString <$> cu_full_name u) ++
  opt_member "must_change_password" (JBool <$> cu_must_change_password u) ++
  opt_member "send_notify" (JBool <$> cu_send_notify u)).
Definition org_payload (o : ForgejoCreateOrg) : json := JObject (
  [("username", JString (co_username o))] ++ opt_member "full_name" (JString <$> co_full_name o) ++
  opt_member "description" (JString <$> co_description o) ++ opt_member "visibility" (JString <$> co_visibility o)).
Definition pull_request_payload (r : ForgejoCreatePullRequest) : json := JObject (
  [("head", JString (cp_head r)); ("base", JString (cp_base r)); ("title", JString (cp_title r))] ++
  opt_member "body" (JString <$> cp_body r)).
(** [CreateRepoPayload] *)
Definition repo_payload (name : string) (description : option string) (private : bool) : json :=
  JObject [("name", JString name); ("description", opt_string description); ("private", JBool private)].
(** [CreateAdminRepoPayload] *)
Definition admin_repo_payload (name : string) (description : option string) (private auto_init : bool) : json :=
  JObject ([("name", JString name); ("description", opt_string description); ("private", JBool private)] ++
           (if auto_init then [("auto_init", JBool true)] else [])).
(** [CreateHookPayload] *)
Definition hook_payload (url secret : string) : json := JObject [
  ("type", JString "gitea");
  ("config", JObject [("url", JString url); ("content_type", JString "json"); ("secret", JString secret)]);
  ("events", JArray [JString "push"]); ("active", JBool true)].

Definition join_url (base path : string) : string :=
  trim_end_matches "/" base +:+ "/" +:+ trim_start_matches_char "/" path.

(** ** The client *)

Section Client.
Context {T : Type} `{ForgejoTransport T} `{ForgejoCodec} `{JsonLib} (config : ForgejoConfig).

Abbreviation client := (stateful T ForgejoError).

Definition api_url (path : string) : string := join_url (fj_base_url config) path.
Definition repo_url (owner name : string) : string := api_url ("/api/v1/repos/" +:+ owner +:+ "/" +:+ name).
Definition hooks_url (owner repo : string) : string :=
  api_url ("/api/v1/repos/" +:+ owner +:+ "/" +:+ repo +:+ "/hooks").

Definition get (url : string) : client ForgejoResponse := send (mkForgejoRequest FmGet url None).
Definition post (url : string) (payload : json) : client ForgejoResponse :=
  send (mkForgejoRequest FmPost url (Some (json_to_string payload))).

Definition unexpected {A} (response : ForgejoResponse) : client A :=
  lift (Err (FeResponse (fr_status response) (fr_body response))).
Definition parse_json {A} (from_str : string → result string A) (body : string) : client A :=
  lift (map_err FeParse (from_str body)).
Definition read_repo (response : ForgejoResponse) : client ForgejoRepo :=
  repo ← parse_json repo_from_str (fr_body response); lift (Ok (into_repo repo)).

Definition get_repo_for_owner (owner name : string) : client (option ForgejoRepo) :=
  response ← get (repo_url owner name);
  if bool_decide (fr_status response = 200)%Z then repo ← read_repo response; lift (Ok (Some repo))
  else if bool_decide (fr_status response = 404)%Z then lift (Ok None)
  else unexpected response.
Definition get_repo (name : string) : client (option ForgejoRepo) :=
  get_repo_for_owner (fj_owner config) name.

Definition get_user (username : string) : client (option ForgejoUser) :=
  response ← get (api_url ("/api/v1/users/" +:+ username));
  if bool_decide (fr_status response = 200)%Z then
    user ← parse_json user_from_str (fr_body response); user ← lift (into_user user); lift (Ok (Some user))
  else if bool_decide (fr_status response = 404)%Z then lift (Ok None)
  else unexpected response.

Definition create_user (user : ForgejoCreateUser) : client ForgejoUser :=
  response ← post (api_url "/api/v1/admin/users") (user_payload user);
  if bool_decide (fr_status response = 200)%Z || bool_decide (fr_status response = 201)%Z then
    user ← parse_json user_from_str (fr_body response); lift (into_user user)
  else unexpected response.

Definition create_org (owner : string) (org : ForgejoCreateOrg) : client ForgejoOrg :=
  response ← post (api_url ("/api/v1/admin/users/" +:+ owner +:+ "/orgs")) (org_payload org);
  if bool_decide (fr_status response = 200)%Z || bool_decide (fr_status response = 201)%Z then
    org ← parse_json org_from_str (fr_body response); lift (Ok (into_org org))
  else unexpected response.

Definition create_repo_for_owner (owner : string) (repo : ForgejoCreateRepo) : client ForgejoRepo :=
  response ← post (api_url ("/api/v1/admin/users/" +:+ owner +:+ "/repos"))
    (admin_repo_payload (cr_name repo) (cr_description repo) (default (fj_repo_private config) (cr_private repo))
       (default false (cr_auto_init repo)));
  if bool_decide (fr_status response = 201)%Z then read_repo response
  else if bool_decide (fr_status response = 409)%Z then
    found ← get_repo_for_owner owner (cr_name repo); lift (ok_or (FeNotFound (cr_name repo)) found)
  else unexpected response.

Definition create_pull_request (owner repo : string) (request : ForgejoCreatePullRequest)
    : client ForgejoPullRequest :=
  response ← post (api_url ("/api/v1/repos/" +:+ owner +:+ "/" +:+ repo +:+ "/pulls")) (pull_request_payload request);
  if bool_decide (fr_status response = 201)%Z then
    pr ← parse_json pull_request_from_str (fr_body response); lift (into_pull_request pr)
  else unexpected response.

(** What is made of the answer when a repository was to be created as one's own. *)
Definition create_repo (name : string) (description : option string) : client ForgejoRepo :=
  let payload := repo_payload name description (fj_repo_private config) in
  let found : client ForgejoRepo := found ← get_repo name; lift (ok_or (FeNotFound name) found) in
  response ← post (api_url ("/api/v1/orgs/" +:+ fj_owner config +:+ "/repos")) payload;
  if bool_decide (fr_status response = 201)%Z then read_repo response
  else if bool_decide (fr_status response = 409)%Z then found
  else if negb (bool_decide (fr_status response = 403)%Z || bool_decide (fr_status response = 404)%Z) then
    unexpected response
  else
    response ← post (api_url "/api/v1/user/repos") payload;
    if bool_decide (fr_status response = 201)%Z then read_repo response
    else if bool_decide (fr_status response = 409)%Z then found
    else unexpected response.

Definition list_hooks_for_owner (owner repo : string) : client (list ForgejoHookResponse) :=
  response ← get (hooks_url owner repo);
  if bool_decide (fr_status response = 200)%Z then parse_json hooks_from_str (fr_body response)
  else unexpected response.
Definition list_hooks (repo : string) : client (list ForgejoHookResponse) :=
  list_hooks_for_owner (fj_owner config) repo.

Definition create_hook_for_owner (owner repo : string) : client unit :=
  response ← post (hooks_url owner repo) (hook_payload (fj_webhook_url config) (fj_webhook_secret config));
  if bool_decide (fr_status response = 200)%Z || bool_decide (fr_status response = 201)%Z then lift (Ok tt)
  else unexpected response.
Definition create_hook (repo : string) : client unit := create_hook_for_owner (fj_owner config) repo.

Definition ensure_repo (name : string) (description : option string) : client ForgejoRepo :=
  found ← get_repo name;
  match found with
  | Some repo => lift (Ok repo)
  | None => create_repo name description
  end.

Definition ensure_repo_for_owner (owner name : string) (description : option string) : client ForgejoRepo :=
  found ← get_repo_for_owner owner name;
  match found with
  | Some repo => lift (Ok repo)
  | None => create_repo_for_owner owner (mkForgejoCreateRepo name description None None)
  end.

Definition ensure_user (user : ForgejoCreateUser) : client ForgejoUser :=
  found ← get_user (cu_username user);
  match found with
  | Some existing => lift (Ok existing)
  | None => create_user user
  end.

Definition is_own_hook (hook : ForgejoHookResponse) : bool :=
  match hr_url hook with Some url => url == fj_webhook_url config | None => false end.

Definition ensure_webhook_for_owner (owner repo : string) : client unit :=
  hooks ← list_hooks_for_owner owner repo;
  if existsb is_own_hook hooks then lift (Ok tt) else create_hook_for_owner owner repo.
Definition ensure_webhook (repo : string) : client unit :=
  hooks ← list_hooks repo;
  if existsb is_own_hook hooks then lift (Ok tt) else create_hook repo.
End Client.

(** ** What the client relies on *)

(** The repositories of the forge, under the keys of their owner and name, and
    the URLs their hooks call. *)
Abbreviation forge := (gmap (string * string) (list (option string))).

Section Laws.
Context {T : Type} `{ForgejoTransport T} `{ForgejoCodec} `{JsonLib} (config : ForgejoConfig).

(** A name that the forge allows for an owner or a repository. *)
Definition segment (s : string) : bool :=
  negb (is_empty s) && str_all (λ c, is_ascii_alphanumeric c || bool_decide (c ∈ ["-"; "_"; "."]%char)) s.

(** The documented interface: [GET] of a repository is answered 200 or 404, a
    creation is answered 201, or 409 when the name is taken, the hooks are listed
    and appended to; any other answer, and no answer, leaves it open whether the
    request had its effect.  [name_key] is what the forge compares names by. *)
Class ForgeLaws := {
  forge_holds : T → forge → Prop;
  name_key : string → string;
  get_repo_law : ∀ owner name s v r s', segment owner = true → segment name = true → forge_holds s v →
    send (mkForgejoRequest FmGet (repo_url config owner name) None) s = (r, s') →
    forge_holds s' v ∧ ∀ body,
      (r = Ok (mkForgejoResponse 200 body) → is_Some (v !! (name_key owner, name_key name)) ∧
         ∀ repo, repo_from_str body = Ok repo → segment (rr_name repo) = true ∧ name_key (rr_name repo) = name_key name) ∧
      (r = Ok (mkForgejoResponse 404 body) → v !! (name_key owner, name_key name) = None);
  create_repo_law : ∀ owner name description private auto_init s v r s', segment owner = true → segment name = true →
    forge_holds s v →
    send (mkForgejoRequest FmPost (api_url config ("/api/v1/admin/users/" +:+ owner +:+ "/repos"))
            (Some (json_to_string (admin_repo_payload name description private auto_init)))) s = (r, s') →
    ∃ v', forge_holds s' v' ∧
      (v' = v ∨ v !! (name_key owner, name_key name) = None ∧ v' = <[(name_key owner, name_key name) := []]> v) ∧
      ∀ body, r = Ok (mkForgejoResponse 201 body) → is_Some (v' !! (name_key owner, name_key name)) ∧
         ∀ repo, repo_from_str body = Ok repo → segment (rr_name repo) = true ∧ name_key (rr_name repo) = name_key name;
  list_hooks_law : ∀ owner name s v r s', segment owner = true → segment name = true → forge_holds s v →
    send (mkForgejoRequest FmGet (hooks_url config owner name) None) s = (r, s') →
    forge_holds s' v ∧ ∀ body hooks, r = Ok (mkForgejoResponse 200 body) → hooks_from_str body = Ok hooks →
      v !! (name_key owner, name_key name) = Some (hr_url <$> hooks);
  create_hook_law : ∀ owner name s v r s', segment owner = true → segment name = true → forge_holds s v →
    send (mkForgejoRequest FmPost (hooks_url config owner name)
            (Some (json_to_string (hook_payload (fj_webhook_url config) (fj_webhook_secret config))))) s = (r, s') →
    ∃ v', forge_holds s' v' ∧
      (v' = v ∨ v' = alter (λ l, l ++ [Some (fj_webhook_url config)]) (name_key owner, name_key name) v) ∧
      ∀ status body, r = Ok (mkForgejoResponse status body) → status = 200%Z ∨ status = 201%Z →
        v' = alter (λ l, l ++ [Some (fj_webhook_url config)]) (name_key owner, name_key name) v
}.

Context `{!ForgeLaws}.

Definition is_own (url : option string) : bool :=
  match url with Some url => url == fj_webhook_url config | None => false end.
(** How many hooks of a repository call this system. *)
Definition own_hooks (v : forge) (k : string * string) : nat :=
  match v !! k with Some l => length (List.filter is_own l) | None => 0 end.

(** The forge is set up for a repository as the coordinator does it. *)
Definition setup (owner name : string) (description : option string) : stateful T ForgejoError unit :=
  repo ← ensure_repo_for_owner config owner name description;
  ensure_webhook_for_owner config owner (fo_name repo).

(** One after the other, whatever became of the attempts before. *)
Fixpoint attempts (n : nat) (owner name : string) (description : option string) (s : T)
    : result ForgejoError unit * T :=
  let '(r, s) := setup owner name description s in
  match n with O => (r, s) | S n => attempts n owner name description s end.
End Laws.
Arguments ForgeLaws T {_ _ _} config.

Section SetupFacts.
Context {T : Type} `{ForgejoTransport T} `{ForgejoCodec} `{JsonLib} (config : ForgejoConfig).
Context `{!ForgeLaws T config}.

Abbreviation holds v := (λ s, forge_holds config s v).
Abbreviation key owner name := (name_key config owner, name_key config name).
Abbreviation same_name n name := (segment n = true ∧ name_key config n = name_key config name).

Lemma get_repo_triple owner name v :
  segment owner = true → segment name = true →
  triple (holds v) (get_repo_for_owner config owner name)
    (λ o s, forge_holds config s v ∧
      match o with Some repo => is_Some (v !! key owner name) ∧ same_name (fo_name repo) name
                 | None => v !! key owner name = None end)
    (holds v).
Proof.
  intros So Sn. unfold get_repo_for_owner, get.
  eapply triple_bind with (M := λ resp s, forge_holds config s v ∧
    (fr_status resp = 200%Z → is_Some (v !! key owner name) ∧
       ∀ repo, repo_from_str (fr_body resp) = Ok repo → same_name (rr_name repo) name) ∧
    (fr_status resp = 404%Z → v !! key owner name = None)).
  - intros s r s' Hs E. destruct (get_repo_law _ _ _ _ _ _ _ So Sn Hs E) as [Hs' Hr]. destruct r as [[st body]|]; [|done].
    destruct (Hr body) as [H200 H404]. split_and!; [done| |]; simpl; intros ->; auto.
  - intros [st body] s r s' (Hs & H200 & H404). simpl in *. repeat case_bool_decide; simplify_eq.
    + unfold read_repo, parse_json, mbind, stateful_bind, lift. cbn [fr_body]. destruct (H200 eq_refl) as [Hin Hn].
      destruct (repo_from_str body) as [repo|]; simpl; intros [= <- <-]; [|done].
      simpl. auto.
    + intros [= <- <-]. auto.
    + intros [= <- <-]. done.
Qed.

(** The repository is there, or was created without a hook. *)
Definition created (k : string * string) (v v' : forge) : Prop :=
  v' = v ∨ v !! k = None ∧ v' = <[k := []]> v.

Lemma created_own k v v' : created k v v' → own_hooks config v' k = own_hooks config v k.
Proof. intros [->|[Hk ->]]; [done|]. unfold own_hooks. by rewrite lookup_insert_eq, Hk. Qed.

Lemma created_other k k' v v' : created k v v' → k' ≠ k → v' !! k' = v !! k'.
Proof. intros [->|[_ ->]] Hne; [done|]. by apply lookup_insert_ne. Qed.

Lemma create_repo_triple owner name description v :
  segment owner = true → segment name = true →
  triple (holds v) (create_repo_for_owner config owner (mkForgejoCreateRepo name description None None))
    (λ repo s, ∃ v', forge_holds config s v' ∧ created (key owner name) v v' ∧ is_Some (v' !! key owner name) ∧
                     same_name (fo_name repo) name)
    (λ s, ∃ v', forge_holds config s v' ∧ created (key owner name) v v').
Proof.
  intros So Sn. unfold create_repo_for_owner, post. cbn [cr_name cr_description cr_private cr_auto_init default from_option].
  eapply triple_bind with (M := λ resp s, ∃ v', forge_holds config s v' ∧ created (key owner name) v v' ∧
    (fr_status resp = 201%Z → is_Some (v' !! key owner name) ∧
       ∀ repo, repo_from_str (fr_body resp) = Ok repo → same_name (rr_name repo) name)).
  - intros s r s' Hs E. destruct (create_repo_law _ _ _ _ _ _ _ _ _ _ So Sn Hs E) as (v' & Hs' & Hc & Hr).
    destruct r as [[st body]|]; [|by exists v']. exists v'. split_and!; [done|done|]. simpl. intros ->. by apply Hr.
  - intros [st body] s r s' (v' & Hs & Hc & H201). simpl in *. repeat case_bool_decide; simplify_eq.
    + unfold read_repo, parse_json, mbind, stateful_bind, lift. cbn [fr_body]. destruct (H201 eq_refl) as [Hin Hn].
      destruct (repo_from_str body) as [repo|]; simpl; intros [= <- <-]; exists v'; [|done]. simpl. auto.
    + unfold mbind, stateful_bind. destruct (get_repo_for_owner config owner name s) as [r0 s0] eqn:E0.
      pose proof (get_repo_triple owner name v' So Sn _ _ _ Hs E0) as Hg.
      destruct r0 as [[repo|]|]; simpl; intros [= <- <-].
      * destruct Hg as (? & ? & ?). exists v'. auto.
      * destruct Hg. by exists v'.
      * by exists v'.
    + intros [= <- <-]. by exists v'.
Qed.

Lemma ensure_repo_triple owner name description v :
  segment owner = true → segment name = true →
  triple (holds v) (ensure_repo_for_owner config owner name description)
    (λ repo s, ∃ v', forge_holds config s v' ∧ created (key owner name) v v' ∧ is_Some (v' !! key owner name) ∧
                     same_name (fo_name repo) name)
    (λ s, ∃ v', forge_holds config s v' ∧ created (key owner name) v v').
Proof.
  intros So Sn. unfold ensure_repo_for_owner. eapply triple_bind.
  { eapply triple_weaken; [by apply get_repo_triple|intros s Hs; exact Hs|intros o s Ho; exact Ho|].
    intros s Hs. exists v. split; [done|by left]. }
  intros [repo|].
  - intros s r s' (Hs & Hin & Hn) [= <- <-]. exists v. split; [done|]. split; [by left|done].
  - eapply triple_weaken; [by apply create_repo_triple|by intros s [Hs _]|intros o s Ho; exact Ho|intros s Hs; exact Hs].
Qed.

Lemma list_hooks_triple owner name v :
  segment owner = true → segment name = true →
  triple (holds v) (list_hooks_for_owner config owner name)
    (λ hooks s, forge_holds config s v ∧ v !! key owner name = Some (hr_url <$> hooks)) (holds v).
Proof.
  intros So Sn. unfold list_hooks_for_owner, get, triple, mbind, stateful_bind. intros s r s' Hs.
  destruct (send _ s) as [[[st body]|] s0] eqn:E; destruct (list_hooks_law _ _ _ _ _ _ _ So Sn Hs E) as [Hs' Hr];
    [|by intros [= <- <-]].
  cbn [fr_status fr_body]. case_bool_decide as Hst; [subst st|by intros [= <- <-]].
  unfold parse_json, lift. destruct (hooks_from_str body) as [hooks|] eqn:Eh; intros [= <- <-]; [|done]. eauto.
Qed.

Definition hooked (k : string * string) (v v' : forge) : Prop :=
  v' = v ∨ own_hooks config v k = 0 ∧ v' = alter (λ l, l ++ [Some (fj_webhook_url config)]) k v.

Lemma own_hooks_alter k v l :
  v !! k = Some l →
  own_hooks config (alter (λ l, l ++ [Some (fj_webhook_url config)]) k v) k = S (own_hooks config v k).
Proof.
  intros Hk. unfold own_hooks. rewrite lookup_alter_eq, Hk. simpl.
  rewrite List.filter_app, length_app. simpl. rewrite (proj2 (String.eqb_eq _ _) eq_refl). simpl. lia.
Qed.

Lemma hooked_own k v v' : hooked k v v' → own_hooks config v k ≤ own_hooks config v' k ≤ Nat.max 1 (own_hooks config v k).
Proof.
  intros [->|[Hz ->]]; [lia|]. rewrite Hz. unfold own_hooks. rewrite lookup_alter_eq.
  destruct (v !! k) as [l|] eqn:Ek; simpl; [|lia]. pose proof (own_hooks_alter k v l Ek) as Ho.
  unfold own_hooks in Ho, Hz. rewrite lookup_alter_eq, Ek in Ho. rewrite Ek in Hz. simpl in Ho. lia.
Qed.

Lemma hooked_other k k' v v' : hooked k v v' → k' ≠ k → v' !! k' = v !! k'.
Proof. intros [->|[_ ->]] Hne; [done|]. by apply lookup_alter_ne. Qed.

Lemma own_hooks_listed k v hooks :
  v !! k = Some (hr_url <$> hooks) → existsb (is_own_hook config) hooks = (0 <? own_hooks config v k).
Proof.
  intros Hk. unfold own_hooks. rewrite Hk. clear Hk. induction hooks as [|h hooks IH]; [done|]. simpl.
  unfold is_own_hook at 1, is_own at 1. destruct (hr_url h) as [u|]; [|apply IH].
  destruct (u == fj_webhook_url config); [done|apply IH].
Qed.

Lemma ensure_webhook_triple owner name v :
  segment owner = true → segment name = true →
  triple (holds v) (ensure_webhook_for_owner config owner name)
    (λ _ s, ∃ v', forge_holds config s v' ∧ hooked (key owner name) v v' ∧ 0 < own_hooks config v' (key owner name))
    (λ s, ∃ v', forge_holds config s v' ∧ hooked (key owner name) v v').
Proof.
  intros So Sn. unfold ensure_webhook_for_owner. eapply triple_bind.
  { eapply triple_weaken; [by apply list_hooks_triple|intros s Hs; exact Hs|intros o s Ho; exact Ho|].
    intros s Hs. exists v. split; [done|by left]. }
  intros hooks s r s' [Hs Hk]. rewrite (own_hooks_listed _ _ _ Hk).
  destruct (Nat.ltb_spec 0 (own_hooks config v (key owner name))) as [Hown|Hown].
  { intros [= <- <-]. exists v. split_and!; [done|by left|done]. }
  assert (own_hooks config v (key owner name) = 0) as Hz by lia.
  unfold create_hook_for_owner, post, mbind, stateful_bind.
  destruct (send _ s) as [r0 s0] eqn:E. destruct (create_hook_law _ _ _ _ _ _ _ So Sn Hs E) as (v' & Hs' & Hc & Hr).
  assert (hooked (key owner name) v v') as Hh by (destruct Hc; [by left|by right]).
  destruct r0 as [[st body]|]; [|intros [= <- <-]; by exists v']. cbn [fr_status fr_body].
  destruct (bool_decide (st = 200%Z) || bool_decide (st = 201%Z)) eqn:Est; intros [= <- <-]; exists v'; [|done].
  split_and!; [done|done|]. apply orb_true_iff in Est. rewrite !bool_decide_eq_true in Est.
  rewrite (Hr _ _ eq_refl Est), (own_hooks_alter _ _ _ Hk). lia.
Qed.

(** What an attempt may change. *)
Definition set_up (k : string * string) (v v' : forge) : Prop :=
  (∀ k', k' ≠ k → v' !! k' = v !! k') ∧
  own_hooks config v k ≤ own_hooks config v' k ≤ Nat.max 1 (own_hooks config v k) ∧
  (0 < own_hooks config v k → v' = v).

Lemma set_up_refl k v : set_up k v v.
Proof. unfold set_up. split_and!; [done|lia..|done]. Qed.

Lemma set_up_trans k v1 v2 v3 : set_up k v1 v2 → set_up k v2 v3 → set_up k v1 v3.
Proof.
  intros (Ho & Hc & Hi) (Ho' & Hc' & Hi'). split_and!; [|lia..|].
  - intros k' Hk'. by rewrite Ho', Ho.
  - intros Hpos. rewrite Hi' by lia. auto.
Qed.

Lemma created_set_up k v v' : created k v v' → set_up k v v'.
Proof.
  intros Hc. pose proof (created_own _ _ _ Hc). split_and!; [|lia..|].
  - intros k'. by apply created_other.
  - destruct Hc as [->|[Hk _]]; [done|]. unfold own_hooks. rewrite Hk. lia.
Qed.

Lemma hooked_set_up k v v' : hooked k v v' → set_up k v v'.
Proof.
  intros Hh. pose proof (hooked_own _ _ _ Hh). split_and!; [|lia..|].
  - intros k'. by apply hooked_other.
  - destruct Hh as [->|[Hz _]]; [done|lia].
Qed.

Lemma setup_triple owner name description v :
  segment owner = true → segment name = true →
  triple (holds v) (setup config owner name description)
    (λ _ s, ∃ v', forge_holds config s v' ∧ set_up (key owner name) v v' ∧ 0 < own_hooks config v' (key owner name))
    (λ s, ∃ v', forge_holds config s v' ∧ set_up (key owner name) v v').
Proof.
  intros So Sn. unfold setup. eapply triple_bind.
  { eapply triple_weaken; [by apply ensure_repo_triple|intros s Hs; exact Hs|intros o s Ho; exact Ho|].
    intros s (v' & Hs & Hc). exists v'. split; [done|by apply created_set_up]. }
  intros repo s r s' (v1 & Hs & Hc & _ & Hseg & Hn) E. pose proof (ensure_webhook_triple _ _ v1 So Hseg _ _ _ Hs E) as Ht.
  rewrite Hn in Ht.
  destruct r as [[]|]; destruct Ht as (v2 & Hs2 & Hh); exists v2; (split; [done|]);
    [destruct Hh as [Hh Hpos]; split; [|done]|];
    eapply set_up_trans; eauto using created_set_up, hooked_set_up.
Qed.

Lemma attempts_set_up n owner name description s v r s' :
  segment owner = true → segment name = true →
  forge_holds config s v → attempts config n owner name description s = (r, s') →
  ∃ v', forge_holds config s' v' ∧ set_up (key owner name) v v' ∧
    (is_ok r = true → 0 < own_hooks config v' (key owner name)).
Proof.
  intros So Sn. revert s v. induction n as [|n IH]; intros s v Hs E; simpl in E;
    destruct (setup config owner name description s) as [r0 s0] eqn:E0;
    pose proof (setup_triple owner name description v So Sn _ _ _ Hs E0) as Ht.
  - injection E as <- <-.
    destruct r0 as [[]|]; [destruct Ht as (v' & Hs' & Hu & Hpos)|destruct Ht as (v' & Hs' & Hu)]; exists v'; done.
  - assert (∃ v1, forge_holds config s0 v1 ∧ set_up (key owner name) v v1) as (v1 & Hs1 & Hu).
    { destruct r0 as [[]|]; destruct Ht as (v1 & ? & Hu); exists v1; [by destruct Hu|done]. }
    destruct (IH _ _ Hs1 E) as (v2 & Hs2 & Hu2 & Hpos). exists v2. eauto using set_up_trans.
Qed.

(** Setting up the forge for a repository (the repository is created when it
    is missing, then the webhook when it is missing) may be attempted any number
    of times, after any failures: no other repository changes, at most one hook
    that calls this system results, exactly one once an attempt succeeds, and
    from then on further attempts change nothing. *)
Lemma setup_idempotent n owner name description s v r s' :
  segment owner = true → segment name = true →
  forge_holds config s v → own_hooks config v (key owner name) ≤ 1 →
  attempts config n owner name description s = (r, s') →
  ∃ v', forge_holds config s' v' ∧ (∀ k, k ≠ key owner name → v' !! k = v !! k) ∧
    own_hooks config v' (key owner name) ≤ 1 ∧
    (is_ok r = true → own_hooks config v' (key owner name) = 1 ∧
      ∀ m r2 s2, attempts config m owner name description s' = (r2, s2) → forge_holds config s2 v').
Proof.
  intros So Sn Hs Hle E. destruct (attempts_set_up _ _ _ _ _ _ _ _ So Sn Hs E) as (v' & Hs' & (Ho & Hc & _) & Hpos).
  exists v'. split_and!; [done|done|lia|]. intros Hok. specialize (Hpos Hok). split; [lia|].
  intros m r2 s2 E2. destruct (attempts_set_up _ _ _ _ _ _ _ _ So Sn Hs' E2) as (v2 & Hs2 & (_ & _ & Hi) & _).
  by rewrite <-(Hi Hpos).
Qed.
End SetupFacts.

(** ** A forge *)

(** A forge that answers as documented, for the witness: it keeps the number of
    hooks of each repository, all of which call the configured URL. *)
Module SampleForge.
Definition config : ForgejoConfig :=
  mkForgejoConfig "http://forge/" "token" "gittree" "http://hook/forgejo" "secret" false.

#[local] Instance json_lib : JsonLib := {|
  json_from_str _ := None;
  json_to_string v := match v with JObject ((_, JString name) :: _) => name | _ => "" end
|}.
#[local] Instance codec : ForgejoCodec := {|
  repo_from_str body := Ok (mkForgejoRepoResponse body body "" None);
  user_from_str _ := Err "unused";
  org_from_str _ := Err "unused";
  pull_request_from_str _ := Err "unused";
  hooks_from_str body := Ok (replicate (String.length body) (mkForgejoHookResponse (Some (fj_webhook_url config))))
|}.

Fixpoint unary (n : nat) : string := match n with O => "" | S n => String "x" (unary n) end.
Lemma unary_length n : String.length (unary n) = n.
Proof. induction n; simpl; congruence. Qed.

Abbreviation State := (gmap (string * string) nat).
Definition not_found : ForgejoResponse := mkForgejoResponse 404 "".

Definition handle (request : ForgejoRequest) (s : State) : ForgejoResponse * State :=
  match fq_method request, strip_prefix "http://forge/api/v1/repos/" (fq_url request) with
  | FmGet, Some path =>
      match split "/" path with
      | [owner; name] =>
          (match s !! (owner, name) with Some _ => mkForgejoResponse 200 name | None => not_found end, s)
      | [owner; name; _] =>
          (match s !! (owner, name) with Some n => mkForgejoResponse 200 (unary n) | None => not_found end, s)
      | _ => (not_found, s)
      end
  | FmPost, Some path =>
      match split "/" path with
      | [owner; name; _] =>
          match s !! (owner, name) with
          | Some n => (mkForgejoResponse 201 "", <[(owner, name) := S n]> s)
          | None => (not_found, s)
          end
      | _ => (not_found, s)
      end
  | FmPost, None =>
      match strip_prefix "http://forge/api/v1/admin/users/" (fq_url request), fq_body request with
      | Some path, Some name =>
          match split "/" path with
          | [owner; _] =>
              match s !! (owner, name) with
              | Some _ => (mkForgejoResponse 409 "", s)
              | None => (mkForgejoResponse 201 name, <[(owner, name) := 0]> s)
              end
          | _ => (not_found, s)
          end
      | _, _ => (not_found, s)
      end
  | FmGet, None => (not_found, s)
  end.

#[local] Instance transport : ForgejoTransport State :=
  {| send request := λ s, let '(response, s) := handle request s in (Ok response, s) |}.

Definition sample_holds (s : State) (v : forge) : Prop :=
  v = (λ n, replicate n (Some (fj_webhook_url config))) <$> s.

Lemma segment_no_slash s : segment s = true → contains_char "/" s = false.
Proof. intros [_ Hs]%andb_true_iff. by eapply str_all_not_contains; [|exact Hs]. Qed.

Lemma split_two a b : segment a = true → contains_char "/" b = false → split "/" (a +:+ "/" +:+ b) = [a; b].
Proof. intros Ha Hb. change ("/" +:+ b) with (String "/" b). rewrite split_app by by apply segment_no_slash. by rewrite split_no_sep. Qed.
Lemma split_three a b c :
  segment a = true → segment b = true → contains_char "/" c = false →
  split "/" (a +:+ "/" +:+ b +:+ "/" +:+ c) = [a; b; c].
Proof.
  intros Ha Hb Hc. change ("/" +:+ b +:+ "/" +:+ c) with (String "/" (b +:+ "/" +:+ c)). rewrite split_app by by apply segment_no_slash.
  by rewrite split_two.
Qed.

Lemma repo_url_sample owner name :
  strip_prefix "http://forge/api/v1/repos/" (repo_url config owner name) = Some (owner +:+ "/" +:+ name).
Proof. reflexivity. Qed.
Lemma hooks_url_sample owner name :
  strip_prefix "http://forge/api/v1/repos/" (hooks_url config owner name) = Some (owner +:+ "/" +:+ name +:+ "/hooks").
Proof. reflexivity. Qed.

Lemma handle_get_repo owner name s :
  segment owner = true → segment name = true →
  handle (mkForgejoRequest FmGet (repo_url config owner name) None) s =
    (match s !! (owner, name) with Some _ => mkForgejoResponse 200 name | None => not_found end, s).
Proof.
  intros So Sn. unfold handle. cbn [fq_method fq_url]. rewrite repo_url_sample.
  by rewrite split_two by auto using segment_no_slash.
Qed.

Lemma handle_list_hooks owner name s :
  segment owner = true → segment name = true →
  handle (mkForgejoRequest FmGet (hooks_url config owner name) None) s =
    (match s !! (owner, name) with Some n => mkForgejoResponse 200 (unary n) | None => not_found end, s).
Proof.
  intros So Sn. unfold handle. cbn [fq_method fq_url]. rewrite hooks_url_sample.
  change "/hooks" with ("/" +:+ "hooks"). by rewrite split_three.
Qed.

Lemma handle_create_hook owner name body s :
  segment owner = true → segment name = true →
  handle (mkForgejoRequest FmPost (hooks_url config owner name) body) s =
    match s !! (owner, name) with
    | Some n => (mkForgejoResponse 201 "", <[(owner, name) := S n]> s)
    | None => (not_found, s)
    end.
Proof.
  intros So Sn. unfold handle. cbn [fq_method fq_url]. rewrite hooks_url_sample.
  change "/hooks" with ("/" +:+ "hooks"). by rewrite split_three.
Qed.

Lemma handle_create_repo owner name s :
  segment owner = true →
  handle (mkForgejoRequest FmPost (api_url config ("/api/v1/admin/users/" +:+ owner +:+ "/repos")) (Some name)) s =
    match s !! (owner, name) with
    | Some _ => (mkForgejoResponse 409 "", s)
    | None => (mkForgejoResponse 201 name, <[(owner, name) := 0]> s)
    end.
Proof.
  intros So. unfold handle. cbn [fq_method fq_url fq_body].
  assert (strip_prefix "http://forge/api/v1/repos/"
    (api_url config ("/api/v1/admin/users/" +:+ owner +:+ "/repos")) = None) as -> by reflexivity.
  assert (strip_prefix "http://forge/api/v1/admin/users/"
    (api_url config ("/api/v1/admin/users/" +:+ owner +:+ "/repos")) = Some (owner +:+ "/" +:+ "repos")) as ->
    by reflexivity.
  by rewrite split_two.
Qed.

#[local] Instance laws : ForgeLaws State config.
Proof.
  refine {| forge_holds := sample_holds; name_key := λ s, s |};
    unfold sample_holds; cbn [send transport].
  - intros owner name s v r s' So Sn ->. rewrite handle_get_repo by done. intros [= <- <-]. split; [done|].
    intros body. rewrite lookup_fmap. destruct (s !! (owner, name)); split; intros [= <-]; [|done].
    split; [by eexists|]. intros repo [= <-]. done.
  - intros owner name description private auto_init s v r s' So Sn ->.
    change (json_to_string _) with name. rewrite handle_create_repo by done.
    destruct (s !! (owner, name)) as [n|] eqn:E; intros [= <- <-].
    + eexists. split; [done|]. split; [by left|done].
    + eexists. split; [done|]. rewrite fmap_insert, lookup_fmap, E. split; [by right|].
      intros body [= <-]. rewrite lookup_insert_eq. split; [by eexists|]. by intros repo [= <-].
  - intros owner name s v r s' So Sn ->. rewrite handle_list_hooks by done. intros [= <- <-]. split; [done|].
    intros body hooks. rewrite lookup_fmap. destruct (s !! (owner, name)) as [n|]; intros [= <-].
    cbn [hooks_from_str codec]. intros [= <-]. simpl. by rewrite fmap_replicate, unary_length.
  - intros owner name s v r s' So Sn ->. rewrite handle_create_hook by done.
    destruct (s !! (owner, name)) as [n|] eqn:E; intros [= <- <-]; eexists; (split; [done|]).
    + assert ((λ n, replicate n (Some (fj_webhook_url config))) <$> <[(owner, name) := S n]> s =
        alter (λ l, l ++ [Some (fj_webhook_url config)]) (owner, name)
          ((λ n, replicate n (Some (fj_webhook_url config))) <$> s)) as Heq; [|by split; [right|]].
      apply map_eq. intros k. destruct (decide (k = (owner, name))) as [->|Hne].
      * rewrite lookup_alter_eq, !lookup_fmap, lookup_insert_eq, E. cbn [fmap option_fmap option_map].
        by rewrite replicate_S_end.
      * by rewrite lookup_alter_ne, !lookup_fmap, lookup_insert_ne.
    + split; [by left|]. intros status body [= <- _] [?|?]; done.
Defined.

Lemma setup_idempotent_witness :
  ∃ v', forge_holds config (attempts config 1 "alice" "repo" None ∅).2 v' ∧
    own_hooks config v' ("alice", "repo") = 1.
Proof.
  destruct (setup_idempotent config 1 "alice" "repo" None (∅ : State) ∅
    (attempts config 1 "alice" "repo" None ∅).1 (attempts config 1 "alice" "repo" None ∅).2)
    as (v' & Hs & _ & _ & Hok).
  - reflexivity.
  - reflexivity.
  - vm_compute. reflexivity.
  - vm_compute. lia.
  - by destruct (attempts config 1 "alice" "repo" None ∅).
  - exists v'. split; [exact Hs|]. apply Hok. vm_compute. reflexivity.
Defined.
End SampleForge.
