(* ===== verification/AuthService.v ===== *)
(** * [AuthService]: accounts and profiles over HTTP

    Models [services/auth/src/lib.rs]: the configuration, the handlers of signup and
    of profiles, which authenticate a request by the NIP-98 event it carries, and the
    routes, in both modes of the service.  The state is the repository of accounts, the
    one of profiles, and the forge.  The clock and the random password are arguments.
    Serving, CORS and the encoding of answers are not modelled. *)

From S2P Require Import Prelude RustStr CoreTypes Externals Nip34Common GitReceive HexModel NostrAuth Membership Database HttpAuth.
From S2P Require Import Dispatch Config Repositories PostgresRepos Directory StateService Forgejo.

(** ** Configuration *)

Record AuthServiceConfig := mkAuthServiceConfig {
  asc_bind : string; asc_auth : AuthConfig; asc_forgejo : ForgejoConfig; asc_storage : StorageConfig;
  asc_command_only : bool
}.

Inductive AuthConfigError := AcConfig (err : ConfigError) | AcStorage (err : StorageConfigError).
Definition AuthConfigError_display (e : AuthConfigError) : string :=
  match e with
  | AcConfig err => "auth config error: " +:+ ConfigError_display err
  | AcStorage err => "auth storage config error: " +:+ StorageConfigError_display err
  end.

Definition parse_bool_flag (value : option string) : bool :=
  match value with
  | Some value => bool_decide (trim value ∈ ["1"; "true"; "TRUE"; "yes"; "YES"])
  | None => false
  end.

(** [storage_from_env_with], [parse_env_u32] and [parse_env_u64] read the variables the
    way the state service does. *)
Definition auth_storage_from_env (get_var : environment) : result AuthConfigError StorageConfig :=
  map_err AcStorage (state_storage_from_env get_var).

Definition AuthServiceConfig_from_env_with `{UrlLib} (get_var : environment) : result AuthConfigError AuthServiceConfig :=
  services ← map_err AcConfig (ServicesConfig_from_env_validated_with get_var);
  auth ← map_err AcConfig (AuthConfig_from_env_with get_var);
  forgejo ← map_err AcConfig (ForgejoConfig_from_env_with get_var);
  storage ← auth_storage_from_env get_var;
  let command_only := parse_bool_flag (get_var "GITTREE_AUTH_COMMAND_ONLY") in
  Ok (mkAuthServiceConfig (sv_auth services) auth forgejo storage command_only).

(** ** Answers and errors *)

Record SignupResponse := mkSignupResponse { sr_pubkey : string; sr_username : string; sr_status : string }.

(** [gittree_app_core::ProfileVisibility], [Profile] and [ProfileUpdate]. *)
Inductive ApiProfileVisibility := ApiPrivate | ApiPublic.
Record Profile := mkProfile {
  pr_pubkey : string; pr_username : string; pr_display_name : option string; pr_bio : option string;
  pr_avatar_url : option string; pr_website_url : option string; pr_location : option string;
  pr_visibility : ApiProfileVisibility; pr_created_at : Z; pr_updated_at : Z
}.
Record ProfileUpdate := mkProfileUpdate {
  pu_display_name : option string; pu_bio : option string; pu_avatar_url : option string;
  pu_website_url : option string; pu_location : option string; pu_visibility : option ApiProfileVisibility
}.

Inductive AuthHttpError :=
| AhUnauthorized (message : string)
| AhBadRequest (message : string)
| AhNotFound (message : string)
| AhInternal (message : string).

Definition AuthHttpError_into_response (e : AuthHttpError) : Z * string :=
  match e with
  | AhUnauthorized message => (401%Z, message)
  | AhBadRequest message => (400%Z, message)
  | AhNotFound message => (404%Z, message)
  | AhInternal message => (500%Z, message)
  end.

Definition profile_input_error (err : StorageError) : AuthHttpError :=
  match err with
  | StInvalidField _ _ | StInvalidHex _ _ => AhBadRequest (StorageError_display err)
  | _ => AhInternal (StorageError_display err)
  end.

(** [serde_json::from_slice::<ProfileUpdate>]. *)
Class ProfileUpdateCodec := { profile_update_from_slice : bytes → result string ProfileUpdate }.

(** ** Helpers *)

Definition username_from_valid_pubkey (pubkey : string) : option string :=
  prefix ← slice_to 12 pubkey;
  _ ← guard (12 ≤ String.length pubkey);
  suffix ← slice_from (String.length pubkey - 12) pubkey;
  Some ("gt_" +:+ prefix +:+ suffix).

Definition api_visibility_from_storage (v : ProfileVisibility) : ApiProfileVisibility :=
  match v with VisPrivate => ApiPrivate | VisPublic => ApiPublic end.
Definition storage_visibility_from_api (v : ApiProfileVisibility) : ProfileVisibility :=
  match v with ApiPrivate => VisPrivate | ApiPublic => VisPublic end.

Definition profile_response (pubkey username : string) (p : ProfileRecord) : Profile :=
  mkProfile pubkey username (pf_display_name p) (pf_bio p) (pf_avatar_url p) (pf_website_url p)
    (pf_location p) (api_visibility_from_storage (pf_visibility p)) (pf_created_at p) (pf_updated_at p).

(** [Option::or] *)
Definition option_or {A} (o o' : option A) : option A := match o with Some a => Some a | None => o' end.

Definition apply_profile_update `{HexLib} (pubkey : string) (p : ProfileRecord) (update : ProfileUpdate)
    (now : Z) : result StorageError ProfileRecord :=
  ProfileRecord_new pubkey
    (option_or (pu_display_name update) (pf_display_name p))
    (option_or (pu_bio update) (pf_bio p))
    (option_or (pu_avatar_url update) (pf_avatar_url p))
    (option_or (pu_website_url update) (pf_website_url p))
    (option_or (pu_location update) (pf_location p))
    (default (pf_visibility p) (storage_visibility_from_api <$> pu_visibility update))
    (pf_created_at p) now.

(** ** The handlers *)

Record AuthAppState (A P T : Type) := mkAuthAppState {
  as_accounts : A; as_profiles : P; as_transport : T
}.
Arguments mkAuthAppState {A P T} _ _ _.
Arguments as_accounts {A P T} _.
Arguments as_profiles {A P T} _.
Arguments as_transport {A P T} _.

Section Service.
Context {A P T : Type} `{AccountRepository A} `{ProfileRepository P} `{ForgejoTransport T} `{ForgejoCodec}.
Context `{HttpLib} `{Base64Lib} `{Nip98Codec} `{JsonLib} `{HexLib} `{SchnorrSlices} `{ProfileUpdateCodec}.
Context (auth : AuthConfig) (forgejo : ForgejoConfig).

Abbreviation state := (AuthAppState A P T).
Abbreviation handler := (stateful state (fault AuthHttpError)).

Definition internal (err : StorageError) : fault AuthHttpError := Raised (AhInternal (StorageError_display err)).

Definition on_accounts {X} (c : stateful A StorageError X) : handler X := λ s,
  let '(r, a) := c (as_accounts s) in
  (map_err internal r, mkAuthAppState a (as_profiles s) (as_transport s)).
Definition on_profiles {X} (c : stateful P StorageError X) : handler X := λ s,
  let '(r, p) := c (as_profiles s) in
  (map_err internal r, mkAuthAppState (as_accounts s) p (as_transport s)).
Definition on_forge {X} (c : stateful T ForgejoError X) : handler X := λ s,
  let '(r, t) := c (as_transport s) in
  (map_err (λ err, Raised (AhInternal (ForgejoError_display err))) r, mkAuthAppState (as_accounts s) (as_profiles s) t).

Definition payload_hash (body : bytes) : option string :=
  if is_empty body then None else Some (hex_encode (sha256 body)).
Definition parse_nostr_auth : HeaderMap → result AuthHttpError Nip98Event := parse_nostr_auth_as AhUnauthorized.
Definition build_request_url : HeaderMap → Uri → result AuthHttpError string :=
  build_request_url_as AhBadRequest uri_full_path.
(** What [signup_handler] and the profile handlers start with. *)
Definition authenticate (now : Z) (payload : option string) (q : HttpRequest) : handler Nip98Auth :=
  attempt (authenticate_as AhUnauthorized AhBadRequest uri_full_path (as_i64 (au_max_skew_seconds auth)) now payload q).

Definition parse_pubkey_bytes (pubkey : string) : result AuthHttpError bytes :=
  if negb (bool_decide (String.length pubkey = 64)) then Err (AhBadRequest "invalid pubkey")
  else ok_or (AhBadRequest "invalid pubkey") (hex_decode pubkey).

Definition generate_password (random : bytes) : string := hex_encode random.

Definition new_profile (pubkey username : string) (now : Z) : result StorageError ProfileRecord :=
  ProfileRecord_new pubkey (Some username) None None None None VisPrivate now now.

Definition signup_handler (now : Z) (random : bytes) (q : HttpRequest) : handler SignupResponse :=
  caller ← authenticate now (payload_hash (hq_body q)) q;
  username ← expect (username_from_valid_pubkey (na_pubkey caller));
  existing ← on_accounts (account_by_pubkey (na_pubkey_bytes caller));
  match existing with
  | Some existing => mret (mkSignupResponse (na_pubkey caller) (ac_forgejo_username existing) "existing")
  | None =>
      let email := username +:+ "@" +:+ au_email_domain auth in
      let password := generate_password random in
      user ← on_forge (ensure_user forgejo
        (mkForgejoCreateUser username email password None (Some false) (Some false)));
      record ← attempt (map_err (λ err, AhBadRequest (StorageError_display err))
                          (AccountRecord_new (na_pubkey caller) (fu_username user)));
      _ ← on_accounts (upsert_account record);
      profile ← attempt (map_err profile_input_error (new_profile (na_pubkey caller) (fu_username user) now));
      _ ← on_profiles (upsert_profile profile);
      mret (mkSignupResponse (na_pubkey caller) (fu_username user) "created")
  end.

Definition command_only_signup_handler : handler SignupResponse :=
  raise (AhBadRequest "signup disabled; use gittree kind-1 command flow").

Definition ensure_profile (pubkey username : string) (now : Z) : handler ProfileRecord :=
  pubkey_bytes ← attempt (parse_pubkey_bytes pubkey);
  existing ← on_profiles (profile_by_pubkey pubkey_bytes);
  match existing with
  | Some existing => mret existing
  | None =>
      record ← attempt (map_err profile_input_error (new_profile pubkey username now));
      _ ← on_profiles (upsert_profile record);
      mret record
  end.

(** The account of a caller, whose absence is an error. *)
Definition require_account (err : AuthHttpError) (pubkey : bytes) : handler AccountRecord :=
  account ← on_accounts (account_by_pubkey pubkey);
  attempt (ok_or err account).

Definition profile_get_handler (now : Z) (q : HttpRequest) : handler Profile :=
  caller ← authenticate now None q;
  account ← require_account (AhBadRequest "account not found") (na_pubkey_bytes caller);
  profile ← ensure_profile (na_pubkey caller) (ac_forgejo_username account) now;
  mret (profile_response (na_pubkey caller) (ac_forgejo_username account) profile).

Definition command_only_profile_patch_handler : handler Profile :=
  raise (AhBadRequest "profile write disabled; use gittree kind-1 command flow").

Definition profile_patch_handler (now : Z) (q : HttpRequest) : handler Profile :=
  caller ← authenticate now (payload_hash (hq_body q)) q;
  _ ← attempt (fail_if (is_empty (hq_body q)) (AhBadRequest "missing profile update"));
  update ← attempt (map_err (λ err, AhBadRequest ("invalid profile update: " +:+ err))
                      (profile_update_from_slice (hq_body q)));
  account ← require_account (AhBadRequest "account not found") (na_pubkey_bytes caller);
  profile ← ensure_profile (na_pubkey caller) (ac_forgejo_username account) now;
  updated ← attempt (map_err profile_input_error (apply_profile_update (na_pubkey caller) profile update now));
  _ ← on_profiles (upsert_profile updated);
  mret (profile_response (na_pubkey caller) (ac_forgejo_username account) updated).

Definition profile_public_handler `{Bech32Lib} (npub : string) : handler Profile :=
  pubkey_bytes ← attempt (map_err (λ _, AhBadRequest "invalid npub") (pubkey_bytes_from_npub npub));
  account ← require_account (AhNotFound "profile not found") pubkey_bytes;
  profile ← on_profiles (profile_by_pubkey pubkey_bytes);
  profile ← attempt (ok_or (AhNotFound "profile not found") profile);
  match pf_visibility profile with
  | VisPublic => mret (profile_response (hex_encode pubkey_bytes) (ac_forgejo_username account) profile)
  | VisPrivate => raise (AhNotFound "profile not found")
  end.

(** ** The routes: the decoded segments of the path; [get] also serves [HEAD] *)

Inductive AuthReply := ReHealth | ReSignup (r : SignupResponse) | ReProfile (p : Profile).

Definition reply {X} (f : X → AuthReply) (c : handler X) : option (handler AuthReply) :=
  Some (x ← c; mret (f x)).

Definition build_router_with_mode `{Bech32Lib} (command_only : bool) (now : Z) (random : bytes)
    (path : list string) (q : HttpRequest) : option (handler AuthReply) :=
  let is_get := bool_decide (hq_method q ∈ ["GET"; "HEAD"]) in
  if bool_decide (path = ["health"]) then if is_get then Some (mret ReHealth) else None
  else if bool_decide (path = ["v1"; "signup"]) then
    if hq_method q == "POST" then
      reply ReSignup (if command_only then command_only_signup_handler else signup_handler now random q)
    else None
  else if bool_decide (path = ["v1"; "profile"]) then
    if is_get then reply ReProfile (profile_get_handler now q)
    else if hq_method q == "PATCH" then
      reply ReProfile (if command_only then command_only_profile_patch_handler else profile_patch_handler now q)
    else None
  else
    match path with
    | [v1; profile; npub] =>
        if (v1 == "v1") && (profile == "profile") && is_get then reply ReProfile (profile_public_handler npub) else None
    | _ => None
    end.
End Service.

(** ** What a request may change *)

Lemma username_total pubkey :
  is_hex_len pubkey 64 = true → is_Some (username_from_valid_pubkey pubkey).
Proof.
  unfold is_hex_len. intros [Hlen%bool_decide_eq_true_1 Hhex]%andb_true_iff.
  assert (∀ n, n ≤ 64 → is_Some (slice_to n pubkey)) as Hs.
  { intros n Hn. apply slice_to_ascii; [by apply hex_is_ascii|lia]. }
  unfold username_from_valid_pubkey. rewrite Hlen.
  destruct (Hs 12) as [prefix ->]; [lia|]. simpl.
  destruct (slice_from_total 52 pubkey) as [x Hx]; [apply Hs; lia|]. simpl in Hx |- *. rewrite Hx. simpl. eauto.
Qed.

Section Facts.
Context {A P T : Type} `{AccountLaws A} `{ProfileLaws P} `{ForgejoTransport T} `{ForgejoCodec}.
Context `{HttpLib} `{Base64Lib} `{Nip98Codec} `{JsonLib} `{HexLaws} `{SchnorrSlices} `{!CryptoLaws}.
Context `{ProfileUpdateCodec} (auth : AuthConfig) (forgejo : ForgejoConfig).

Abbreviation state := (AuthAppState A P T).
Abbreviation accounts := (gmap bytes string).
Abbreviation profiles := (gmap bytes ProfileRecord).

(** The repositories hold [va] and [vp], and a key with a profile has an account. *)
Record auth_inv (s : state) (va : accounts) (vp : profiles) : Prop := {
  inv_accounts : account_holds (as_accounts s) va;
  inv_profiles : profile_holds (as_profiles s) vp;
  inv_dom : ∀ p, is_Some (vp !! p) → is_Some (va !! p)
}.

(** Nothing but the entries of [pk] differs, and no account is lost or renamed. *)
Definition differs_at (pk : bytes) (va : accounts) (vp : profiles) (va' : accounts) (vp' : profiles) : Prop :=
  va ⊆ va' ∧ ∀ p, p ≠ pk → va' !! p = va !! p ∧ vp' !! p = vp !! p.

(** From [va] and [vp], nothing but the entries of [pk] has changed, and [φ] holds. *)
Definition touched (pk : bytes) (va : accounts) (vp : profiles) (φ : accounts → profiles → Prop) (s : state) : Prop :=
  ∃ va' vp', auth_inv s va' vp' ∧ φ va' vp' ∧ differs_at pk va vp va' vp'.

Definition anything (va : accounts) (vp : profiles) : Prop := True.

(** An error that is answered, and not a panic. *)
Definition answered pk va vp ψ (e : fault AuthHttpError) (s : state) : Prop :=
  e ≠ Panicked ∧ touched pk va vp ψ s.

Lemma touched_weaken pk va vp (φ ψ : accounts → profiles → Prop) s :
  (∀ va' vp', φ va' vp' → ψ va' vp') → touched pk va vp φ s → touched pk va vp ψ s.
Proof. intros Himp (va' & vp' & Hi & Hφ & Ho). exists va', vp'. auto. Qed.

Section OneCaller.
Context (pk : bytes) (va : accounts) (vp : profiles).
Abbreviation within φ := (touched pk va vp φ).
Abbreviation answer := (answered pk va vp anything).

Lemma within_answer φ e s : within φ s → answer (Raised e) s.
Proof. intros Hs. split; [done|]. by eapply touched_weaken. Qed.

Lemma account_read p (φ ψ : accounts → profiles → Prop) :
  (∀ va' vp', φ va' vp' → ψ va' vp') →
  ensures (within φ) (on_accounts (account_by_pubkey p))
    (λ o, within (λ va' vp', φ va' vp' ∧ o = mkAccountRecord p <$> va' !! p)) (answered pk va vp ψ).
Proof.
  intros Hψ s r s' (va' & vp' & [Ha Hp Hd] & Hφ & Ho). unfold on_accounts.
  destruct (account_by_pubkey p (as_accounts s)) as [r0 a] eqn:E.
  destruct (account_by_pubkey_law p _ _ _ _ Ha E) as [Ha' Hr]. intros [= <- <-].
  destruct r0 as [o|e]; simpl.
  - exists va', vp'. split_and!; [done|done|by apply Hr|done].
  - split; [done|]. exists va', vp'. split_and!; [done|by apply Hψ|done].
Qed.

Lemma account_write r (φ : accounts → profiles → Prop) :
  ac_pubkey r = pk → (∀ va' vp', φ va' vp' → va' !! pk = None) →
  ensures (within φ) (on_accounts (upsert_account r))
    (λ _, within (λ va' vp', ∃ va0, φ va0 vp' ∧ va' = <[pk := ac_forgejo_username r]> va0)) answer.
Proof.
  intros <- Hfree s res s' (va' & vp' & [Ha Hp Hd] & Hφ & Hsub & Ho). unfold on_accounts.
  destruct (upsert_account r (as_accounts s)) as [r0 a] eqn:E.
  pose proof (upsert_account_law r _ _ _ _ Ha E) as Hr. simpl in Hr.
  assert (∀ p, is_Some (vp' !! p) → is_Some (<[ac_pubkey r := ac_forgejo_username r]> va' !! p)) as Hd'.
  { intros p Hs. rewrite lookup_insert. case_decide; [by eexists|]. by apply Hd. }
  assert (differs_at (ac_pubkey r) va vp (<[ac_pubkey r := ac_forgejo_username r]> va') vp') as Ho'.
  { split; [etrans; [done|]; apply insert_subseteq; by eapply Hfree|].
    intros p Hne. rewrite lookup_insert_ne by done. by apply Ho. }
  intros [= <- <-]. destruct r0 as [[]|e]; simpl.
  - destruct Hr as [_ Hr]. eexists _, vp'. split_and!; [done| |done]. by exists va'.
  - split; [done|]. destruct Hr as [Hr|Hr]; eexists _, vp'; (split; [done|]); done.
Qed.

Lemma profile_read p (φ ψ : accounts → profiles → Prop) :
  (∀ va' vp', φ va' vp' → ψ va' vp') →
  ensures (within φ) (on_profiles (profile_by_pubkey p))
    (λ o, within (λ va' vp', φ va' vp' ∧ o = vp' !! p)) (answered pk va vp ψ).
Proof.
  intros Hψ s r s' (va' & vp' & [Ha Hp Hd] & Hφ & Ho). unfold on_profiles.
  destruct (profile_by_pubkey p (as_profiles s)) as [r0 a] eqn:E.
  destruct (profile_by_pubkey_law p _ _ _ _ Hp E) as [Hp' Hr]. intros [= <- <-].
  destruct r0 as [o|e]; simpl.
  - exists va', vp'. split_and!; [done|done|by apply Hr|done].
  - split; [done|]. exists va', vp'. split_and!; [done|by apply Hψ|done].
Qed.

Lemma profile_write r (φ : accounts → profiles → Prop) :
  pf_pubkey r = pk →
  (∀ va' vp', φ va' vp' → is_Some (va' !! pk) ∧ ∀ old, vp' !! pk = Some old → pf_created_at old = pf_created_at r) →
  ensures (within φ) (on_profiles (upsert_profile r))
    (λ _, within (λ va' vp', ∃ vp0, φ va' vp0 ∧ vp' = <[pk := r]> vp0)) answer.
Proof.
  intros <- Hpre s res s' (va' & vp' & [Ha Hp Hd] & Hφ & Hsub & Ho). destruct (Hpre _ _ Hφ) as [Hacc Hold].
  unfold on_profiles. destruct (upsert_profile r (as_profiles s)) as [r0 a] eqn:E.
  pose proof (upsert_profile_law r _ _ _ _ Hp Hold E) as Hr.
  assert (∀ p, is_Some (<[pf_pubkey r := r]> vp' !! p) → is_Some (va' !! p)) as Hd'.
  { intros p. rewrite lookup_insert. case_decide; [by subst|]. apply Hd. }
  assert (differs_at (pf_pubkey r) va vp va' (<[pf_pubkey r := r]> vp')) as Ho'.
  { split; [done|]. intros p Hne. rewrite lookup_insert_ne by done. by apply Ho. }
  intros [= <- <-]. destruct r0 as [[]|e]; simpl.
  - eexists va', _. split_and!; [done| |done]. by exists vp'.
  - split; [done|]. destruct Hr as [Hr|Hr]; eexists va', _; (split; [done|]); done.
Qed.

Lemma forge_call {X} (c : stateful T ForgejoError X) φ :
  ensures (within φ) (on_forge c) (λ _, within φ) answer.
Proof.
  intros s r s' (va' & vp' & [Ha Hp Hd] & Hφ & Ho). unfold on_forge. destruct (c (as_transport s)) as [r0 t].
  intros [= <- <-]. destruct r0; simpl; [by exists va', vp'|]. split; [done|]. by exists va', vp'.
Qed.

Lemma ProfileRecord_new_Ok pubkey dn bio av web loc vis c u r :
  ProfileRecord_new pubkey dn bio av web loc vis c u = Ok r →
  hex_decode pubkey = Some (pf_pubkey r) ∧ pf_visibility r = vis ∧ pf_created_at r = c ∧ pf_updated_at r = u.
Proof.
  unfold ProfileRecord_new, decode_hex_32. intros (_ & E)%bind_Ok_unit.
  apply bind_Ok in E as (p & Hp & E). repeat (apply bind_Ok in E as (? & _ & E)). injection E as <-. simpl.
  split_and!; [|done..]. split_in Hp. by apply ok_or_Ok in Hp.
Qed.

(** The key of the caller, as the handlers get it. *)
Context (pubkey : string) (Hdec : hex_decode pubkey = Some pk) (Hlen : is_hex_len pubkey 64 = true).

Lemma ensure_profile_spec username now (φ : accounts → profiles → Prop) :
  (∀ va' vp', φ va' vp' → is_Some (va' !! pk)) →
  ensures (within φ) (ensure_profile pubkey username now)
    (λ profile, within (λ va' vp', vp' !! pk = Some profile ∧ ∃ vp0, φ va' vp0 ∧
      (vp' = vp0 ∨ vp0 !! pk = None ∧ pf_visibility profile = VisPrivate ∧ vp' = <[pk := profile]> vp0))) answer.
Proof.
  intros Hacc. unfold ensure_profile. apply ensures_attempt; [|intros e s; apply within_answer].
  intros pb Hpb. assert (pb = pk) as ->.
  { unfold parse_pubkey_bytes in Hpb. split_in Hpb. apply ok_or_Ok in Hpb. congruence. }
  eapply ensures_bind; [by apply profile_read|]. intros [profile|].
  { apply ensures_ret. intros s (va' & vp' & Hi & [Hφ Hr] & Ho). exists va', vp'. naive_solver. }
  apply ensures_attempt; [|intros e s; apply within_answer].
  intros record Hrec%map_err_Ok. apply ProfileRecord_new_Ok in Hrec as (Hk & Hvis & Hc & _).
  eapply ensures_bind; [apply profile_write|].
  - congruence.
  - intros va' vp' [Hφ Hn]. split; [by eapply Hacc|]. by rewrite <-Hn.
  - intros []. apply ensures_ret. intros s. apply touched_weaken. intros va' vp' (vp0 & [Hφ Hn] & ->).
    split; [by rewrite lookup_insert_eq|]. exists vp0. auto.
Qed.
End OneCaller.

(** What [signup_handler] answers: the account that there was, with nothing changed, or
    a new one under the name the forge gave, with a private profile. *)
Definition signed_up (pk : bytes) (va : accounts) (vp : profiles) (pubkey : string) (r : SignupResponse)
    (va' : accounts) (vp' : profiles) : Prop :=
  sr_pubkey r = pubkey ∧ va' !! pk = Some (sr_username r) ∧
  (sr_status r = "existing" ∧ va' = va ∧ vp' = vp ∨
   sr_status r = "created" ∧ va !! pk = None ∧ va' = <[pk := sr_username r]> va ∧
   ∃ profile, vp' = <[pk := profile]> vp ∧ pf_visibility profile = VisPrivate).

Abbreviation max_skew := (as_i64 (au_max_skew_seconds auth)).

(** Nothing is touched before a request is authenticated. *)
Lemma authenticate_spec {X} va vp now payload q (k : Nip98Auth → stateful state (fault AuthHttpError) X) Q F :
  (∀ event pk, request_signed uri_full_path max_skew now payload q event pk →
     ensures (λ s, auth_inv s va vp) (k (mkNip98Auth (ne_pubkey event) pk (ne_id event))) Q F) →
  (∀ e s, auth_inv s va vp → F (Raised e) s) →
  ensures (λ s, auth_inv s va vp) (authenticate auth now payload q ≫= k) Q F.
Proof.
  intros Hk HF. apply ensures_attempt; [|done].
  intros caller (event & Hs & ->)%authenticate_Ok. by apply Hk.
Qed.

(** Nothing has changed, and a key with a profile has an account. *)
Definition unchanged (pk : bytes) (va : accounts) (vp : profiles) (va' : accounts) (vp' : profiles) : Prop :=
  va' = va ∧ vp' = vp ∧ (is_Some (vp !! pk) → is_Some (va !! pk)).

Lemma inv_within pk va vp s : auth_inv s va vp → touched pk va vp (unchanged pk va vp) s.
Proof. intros Hi. exists va, vp. split_and!; [done|split_and!; try done; apply Hi|by split]. Qed.

Lemma from_inv {X} pk va vp (c : stateful state (fault AuthHttpError) X) Q F :
  ensures (touched pk va vp (unchanged pk va vp)) c Q F → ensures (λ s, auth_inv s va vp) c Q F.
Proof. intros Hc. eapply ensures_weaken; [exact Hc|intros s; apply inv_within|done]. Qed.

Lemma signup_spec pk event now random q va vp :
  request_signed uri_full_path max_skew now (payload_hash (hq_body q)) q event pk →
  ensures (λ s, auth_inv s va vp) (signup_handler auth forgejo now random q)
    (λ r, touched pk va vp (signed_up pk va vp (ne_pubkey event) r)) (answered pk va vp anything).
Proof.
  intros Hsigned. apply authenticate_spec; [|intros e s Hi; by eapply within_answer, inv_within].
  intros event' pk' Hsigned'. assert (event' = event ∧ pk' = pk) as [-> ->] by (by eapply request_signed_fun). clear Hsigned'.
  destruct (request_signed_key Hsigned) as [Hlen Hdec]. cbn [na_pubkey na_pubkey_bytes].
  destruct (username_total _ Hlen) as [username Hu].
  eapply ensures_expect; [exact Hu|]. apply (from_inv pk).
  eapply ensures_bind; [by apply account_read|]. intros [existing|].
  { apply ensures_ret. intros s. apply touched_weaken. intros va' vp' [(-> & -> & _) Hr].
    destruct (va !! pk) as [u|] eqn:Eu; simplify_eq/=. split_and!; [done|done|by left]. }
  eapply ensures_bind; [apply forge_call|]. intros user.
  apply ensures_attempt; [|intros e s; apply within_answer]. intros record Hrec%map_err_Ok.
  unfold AccountRecord_new, decode_hex_32 in Hrec. apply bind_Ok_unit in Hrec as [_ Hrec].
  apply bind_Ok in Hrec as (p & Hp & [= <-]). split_in Hp. apply ok_or_Ok in Hp. simplify_eq.
  eapply ensures_bind; [apply account_write; [done|]|].
  { intros va' vp' [(-> & -> & _) Hn]. by destruct (va !! pk). }
  intros []. cbn [ac_forgejo_username].
  apply ensures_attempt; [|intros e s; apply within_answer].
  intros profile (Hk & Hvis & Hc & _)%map_err_Ok%ProfileRecord_new_Ok.
  eapply ensures_bind; [apply profile_write|].
  - congruence.
  - intros va' vp' (va0 & [(-> & -> & Hd) Hn] & ->). rewrite lookup_insert_eq. split; [by eexists|]. intros old Hold.
    destruct Hd as [u Hu']; [by eexists|]. by rewrite Hu' in Hn.
  - intros []. apply ensures_ret. intros s. apply touched_weaken.
    intros va' vp' (vp0 & (va0 & [(-> & -> & Hd) Hn] & ->) & ->). split; [done|].
    split; [by rewrite lookup_insert_eq|]. right. split; [done|]. split; [by destruct (va !! pk)|]. eauto.
Qed.

(** The profile of the caller, as it is read or created. *)
Definition profiled (pk : bytes) (va : accounts) (vp : profiles) (username : string) (profile : ProfileRecord)
    (va' : accounts) (vp' : profiles) : Prop :=
  va' = va ∧ va !! pk = Some username ∧ vp' !! pk = Some profile ∧
  (vp' = vp ∨ vp !! pk = None ∧ pf_visibility profile = VisPrivate ∧ vp' = <[pk := profile]> vp).

Lemma caller_profile pk pubkey now va vp X (k : AccountRecord → ProfileRecord → stateful state (fault AuthHttpError) X) Q :
  hex_decode pubkey = Some pk →
  (∀ username profile, ensures (touched pk va vp (profiled pk va vp username profile))
     (k (mkAccountRecord pk username) profile) Q (answered pk va vp anything)) →
  ensures (λ s, auth_inv s va vp)
    (account ← require_account (AhBadRequest "account not found") pk;
     profile ← ensure_profile pubkey (ac_forgejo_username account) now; k account profile) Q (answered pk va vp anything).
Proof.
  intros Hdec Hk. apply (from_inv pk).
  eapply ensures_bind.
  { eapply ensures_bind; [by apply account_read|]. intros o s r s' Hs. unfold attempt, lift. intros [= <- <-].
    instantiate (1 := λ account s, touched pk va vp (λ va' vp', unchanged pk va vp va' vp' ∧
      Some account = mkAccountRecord pk <$> va !! pk) s).
    destruct o as [account|]; simpl; [|by eapply within_answer].
    eapply touched_weaken; [|exact Hs]. intros va' vp' [Hu Ha]. split; [done|]. by destruct Hu as (-> & _). }
  intros [p username]. eapply ensures_bind; [apply (ensure_profile_spec pk); [done|]|].
  - intros va' vp' [(-> & -> & _) Ha]. by destruct (va !! pk).
  - intros profile s r s' Hs. assert (p = pk) as ->.
    { destruct Hs as (va' & vp' & _ & (_ & vp0 & (_ & Ha) & _) & _). by destruct (va !! pk); simplify_eq/=. }
    apply Hk. eapply touched_weaken; [|exact Hs]. intros va' vp' (Hp & vp0 & ((-> & -> & _) & Ha) & Hc).
    split; [done|]. split; [by destruct (va !! pk); simplify_eq/=|]. auto.
Qed.

Lemma profile_get_spec pk event now q va vp :
  request_signed uri_full_path max_skew now None q event pk →
  ensures (λ s, auth_inv s va vp) (profile_get_handler auth now q)
    (λ r, touched pk va vp (λ va' vp', ∃ username profile, profiled pk va vp username profile va' vp' ∧
       r = profile_response (ne_pubkey event) username profile)) (answered pk va vp anything).
Proof.
  intros Hsigned. apply authenticate_spec; [|intros e s Hi; by eapply within_answer, inv_within].
  intros event' pk' Hsigned'. assert (event' = event ∧ pk' = pk) as [-> ->] by (by eapply request_signed_fun).
  destruct (request_signed_key Hsigned) as [Hlen Hdec]. cbn [na_pubkey na_pubkey_bytes].
  apply caller_profile; [done|]. intros username profile. apply ensures_ret. intros s. apply touched_weaken. eauto.
Qed.

Lemma profile_patch_spec pk event now q va vp :
  request_signed uri_full_path max_skew now (payload_hash (hq_body q)) q event pk →
  ensures (λ s, auth_inv s va vp) (profile_patch_handler auth now q)
    (λ r, touched pk va vp (λ va' vp', ∃ username vp0 profile update updated,
       profiled pk va vp username profile va' vp0 ∧ profile_update_from_slice (hq_body q) = Ok update ∧
       apply_profile_update (ne_pubkey event) profile update now = Ok updated ∧
       vp' = <[pk := updated]> vp0 ∧ r = profile_response (ne_pubkey event) username updated)) (answered pk va vp anything).
Proof.
  intros Hsigned. apply authenticate_spec; [|intros e s Hi; by eapply within_answer, inv_within].
  intros event' pk' Hsigned'. assert (event' = event ∧ pk' = pk) as [-> ->] by (by eapply request_signed_fun).
  destruct (request_signed_key Hsigned) as [Hlen Hdec]. cbn [na_pubkey na_pubkey_bytes].
  apply ensures_attempt; [|intros e s Hi; by eapply within_answer, inv_within]. intros [] _.
  apply ensures_attempt; [|intros e s Hi; by eapply within_answer, inv_within]. intros update Hup%map_err_Ok.
  apply caller_profile; [done|]. intros username profile.
  apply ensures_attempt; [|intros e s; by apply within_answer].
  intros updated Hupd%map_err_Ok. destruct (ProfileRecord_new_Ok _ _ _ _ _ _ _ _ _ _ Hupd) as (Hk & _ & Hc & _).
  eapply ensures_bind; [apply profile_write|].
  - congruence.
  - intros va' vp' (-> & Hu & Hp & _). split; [by eexists|]. intros old Hold. congruence.
  - intros []. apply ensures_ret. intros s. apply touched_weaken. intros va' vp' (vp0 & Hpr & ->). eauto 10.
Qed.

(** A handler that reads leaves the state alone. *)
Lemma profile_public_spec `{Bech32Lib} pk npub va vp :
  ensures (touched pk va vp (unchanged pk va vp)) (profile_public_handler npub)
    (λ r, touched pk va vp (λ va' vp', unchanged pk va vp va' vp' ∧ ∃ b username profile,
       pubkey_bytes_from_npub npub = Ok b ∧ va !! b = Some username ∧ vp !! b = Some profile ∧
       pf_visibility profile = VisPublic ∧ r = profile_response (hex_encode b) username profile))
    (answered pk va vp (unchanged pk va vp)).
Proof.
  unfold profile_public_handler, require_account.
  apply ensures_attempt; [|by intros e s Hs; split]. intros b Hb%map_err_Ok.
  eapply ensures_bind.
  { eapply ensures_bind; [by apply account_read|]. intros o s r s' Hs. unfold attempt, lift. intros [= <- <-].
    instantiate (1 := λ account s, touched pk va vp (λ va' vp', unchanged pk va vp va' vp' ∧
      Some account = mkAccountRecord b <$> va !! b) s).
    destruct o as [account|]; simpl; [|split; [done|]]; (eapply touched_weaken; [|exact Hs]).
    - intros va' vp' [Hu Ha]. split; [done|]. by destruct Hu as (-> & _).
    - by intros va' vp' [Hu _]. }
  intros account. eapply ensures_bind; [apply profile_read; by intros va' vp' [Hu _]|]. intros o.
  apply ensures_attempt.
  2:{ intros e s Hs. split; [done|]. eapply touched_weaken; [|exact Hs]. by intros va' vp' [[Hu _] _]. }
  intros profile Ho%ok_or_Ok. destruct (pf_visibility profile) eqn:Evis.
  - apply ensures_raise. intros s Hs. split; [done|]. eapply touched_weaken; [|exact Hs]. by intros va' vp' [[Hu _] _].
  - apply ensures_ret. intros s. apply touched_weaken. intros va' vp' [[Hu Ha] Hp]. split; [done|].
    destruct Hu as (-> & -> & _). destruct (va !! b) as [username|] eqn:Eb; simplify_eq/=. eauto 10.
Qed.

(** [p] signed the request: its method and URL and, unless it only reads, its body. *)
Definition caller (now : Z) (q : HttpRequest) (p : bytes) : Prop :=
  ∃ event payload, request_signed uri_full_path max_skew now payload q event p ∧
    (payload = payload_hash (hq_body q) ∨ payload = None ∧ hq_method q ∈ ["GET"; "HEAD"]).

(** Nothing but the profile of a caller, and the account that it had not, has changed. *)
Definition isolated (now : Z) (q : HttpRequest) (va : accounts) (vp : profiles) (s : state) : Prop :=
  ∃ va' vp', auth_inv s va' vp' ∧ va ⊆ va' ∧
    ∀ p, va' !! p ≠ va !! p ∨ vp' !! p ≠ vp !! p → caller now q p.

Lemma touched_isolated now q pk va vp φ s : caller now q pk → touched pk va vp φ s → isolated now q va vp s.
Proof.
  intros Hc (va' & vp' & Hi & Hφ & Hsub & Ho). exists va', vp'. split; [done|]. split; [done|]. intros p Hp.
  destruct (decide (p = pk)) as [->|Hne]; [done|]. destruct (Ho p Hne). tauto.
Qed.

Lemma inv_isolated now q va vp s : auth_inv s va vp → isolated now q va vp s.
Proof. intros Hi. exists va, vp. split; [done|]. split; [done|]. tauto. Qed.

Lemma unchanged_isolated now q pk va vp φ s :
  (∀ va' vp', φ va' vp' → unchanged pk va vp va' vp') → touched pk va vp φ s → isolated now q va vp s.
Proof. intros Hφ (va' & vp' & Hi & Hu & _). apply Hφ in Hu as (-> & -> & _). by apply inv_isolated. Qed.

(** What every request leaves, answered or refused. *)
Abbreviation safe now q va vp c :=
  (ensures (λ s, auth_inv s va vp) c (λ _, isolated now q va vp) (λ e s, e ≠ Panicked ∧ isolated now q va vp s)).

Lemma safe_authenticated {X} now q va vp payload (k : Nip98Auth → stateful state (fault AuthHttpError) X)
    (Q : bytes → Nip98Event → X → accounts → profiles → Prop) :
  payload = payload_hash (hq_body q) ∨ payload = None ∧ hq_method q ∈ ["GET"; "HEAD"] →
  (∀ event pk, request_signed uri_full_path max_skew now payload q event pk →
     ensures (λ s, auth_inv s va vp) (authenticate auth now payload q ≫= k)
       (λ r, touched pk va vp (Q pk event r)) (answered pk va vp anything)) →
  safe now q va vp (authenticate auth now payload q ≫= k).
Proof.
  intros Hpay Hspec. unfold authenticate at 1, attempt.
  destruct (authenticate_as _ _ _ _ _ _ _) as [a|e] eqn:Ea.
  - pose proof Ea as (event & Hs & _)%authenticate_Ok.
    assert (caller now q (na_pubkey_bytes a)) as Hc by (by eexists _, _).
    intros s r s' Hi E. specialize (Hspec _ _ Hs s r s' Hi). unfold authenticate, attempt in Hspec.
    rewrite Ea in Hspec. specialize (Hspec E). destruct r as [x|e].
    + by eapply touched_isolated.
    + destruct Hspec as [Hp Ht]. split; [done|]. by eapply touched_isolated.
  - intros s r s' Hi [= <- <-]. split; [done|]. by apply inv_isolated.
Qed.

Lemma safe_reply {X} now q va vp (f : X → AuthReply) c h :
  reply f c = Some h → safe now q va vp c → safe now q va vp h.
Proof. intros [= <-] Hc. eapply ensures_bind; [exact Hc|]. intros x. by apply ensures_ret. Qed.

Lemma safe_raise {X} now q va vp e : safe now q va vp (raise e : stateful state (fault AuthHttpError) X).
Proof. apply ensures_raise. intros s Hi. split; [done|]. by apply inv_isolated. Qed.

(** C5: in both modes, a request changes no account and no profile but those of the key
    that signed it with its method, its URL and, unless it only reads, its body; it
    never panics, whatever the forge and the database answer; no account is lost or
    renamed, and a key that has a profile has an account. *)
Theorem requests_isolated `{Bech32Lib} command_only now random path q h s va vp r s' :
  auth_inv s va vp →
  build_router_with_mode auth forgejo command_only now random path q = Some h → h s = (r, s') →
  r ≠ Err Panicked ∧ isolated now q va vp s'.
Proof.
  intros Hi Hroute Hrun.
  assert (safe now q va vp h) as Hsafe.
  { unfold build_router_with_mode in Hroute.
    case_bool_decide; [split_in Hroute; intros ? ? ? Hs [= <- <-]; by apply inv_isolated|].
    case_bool_decide; [split_in Hroute|case_bool_decide; [split_in Hroute|]].
    - eapply safe_reply; [done|]. destruct command_only; [apply safe_raise|].
      eapply safe_authenticated; [by left|]. intros event pk. apply signup_spec.
    - reflect_bools. eapply safe_reply; [done|]. eapply safe_authenticated; [by right|].
      intros event pk. apply profile_get_spec.
    - split_in Hroute. eapply safe_reply; [done|]. destruct command_only; [apply safe_raise|].
      eapply safe_authenticated; [by left|]. intros event pk. apply profile_patch_spec.
    - destruct path as [|v1 [|profile [|npub []]]]; try done. split_in Hroute.
      eapply safe_reply; [done|]. intros s0 r0 s1 Hs E0.
      pose proof (profile_public_spec "" npub va vp s0 r0 s1 (inv_within _ _ _ _ Hs) E0) as Hp.
      destruct r0; [|destruct Hp as [? Hp]; split; [done|]]; (eapply unchanged_isolated; [|exact Hp]); naive_solver. }
  specialize (Hsafe _ _ _ Hi Hrun). destruct r; [done|]. destruct Hsafe. split; congruence.
Qed.

(** Reading a profile by npub: its visibility decides, unless the database fails. *)
Lemma profile_public_total `{Bech32Lib} npub pk s va vp username profile r s' :
  auth_inv s va vp → pubkey_bytes_from_npub npub = Ok pk → va !! pk = Some username → vp !! pk = Some profile →
  profile_public_handler npub s = (r, s') →
  (∃ err, r = Err (internal err)) ∨
  r = match pf_visibility profile with
      | VisPublic => Ok (profile_response (hex_encode pk) username profile)
      | VisPrivate => Err (Raised (AhNotFound "profile not found"))
      end.
Proof.
  intros [Ha Hp _] Hn Hu Hv. unfold profile_public_handler, require_account, mbind, stateful_bind, attempt, lift, on_accounts, on_profiles.
  rewrite Hn. simpl.
  destruct (account_by_pubkey pk (as_accounts s)) as [ra a] eqn:Ea.
  destruct (account_by_pubkey_law pk _ _ _ _ Ha Ea) as [_ Hra].
  destruct ra as [o|err]; simpl; [|intros [= <- <-]; left; by eexists].
  rewrite (Hra _ eq_refl), Hu. simpl.
  destruct (profile_by_pubkey pk (as_profiles s)) as [rp b] eqn:Ep.
  destruct (profile_by_pubkey_law pk _ _ _ _ Hp Ep) as [_ Hrp].
  destruct rp as [o'|err]; simpl; [|intros [= <- <-]; left; by eexists].
  rewrite (Hrp _ eq_refl), Hv. simpl. destruct (pf_visibility profile); intros [= <- <-]; by right.
Qed.

(** An update of a profile is what is then shown: a successful [PATCH] stores and answers
    the caller's profile with the fields of the update in place of the old ones, and
    reading it by the npub of the key answers it when it is public and 404 when it is
    private, unless the database fails. *)
Lemma profile_update_shown `{Bech32Lib} now q event pk s va vp p s1 npub r s2 :
  request_signed uri_full_path max_skew now (payload_hash (hq_body q)) q event pk →
  auth_inv s va vp → profile_patch_handler auth now q s = (Ok p, s1) →
  pubkey_bytes_from_npub npub = Ok pk → profile_public_handler npub s1 = (r, s2) →
  ∃ username old update new,
    va !! pk = Some username ∧ (vp !! pk = Some old ∨ vp !! pk = None ∧ pf_visibility old = VisPrivate) ∧
    profile_update_from_slice (hq_body q) = Ok update ∧
    apply_profile_update (ne_pubkey event) old update now = Ok new ∧
    p = profile_response (ne_pubkey event) username new ∧
    ((∃ err, r = Err (internal err)) ∨
     r = match pr_visibility p with
         | ApiPublic => Ok (profile_response (hex_encode pk) username new)
         | ApiPrivate => Err (Raised (AhNotFound "profile not found"))
         end).
Proof.
  intros Hs Hi E1 Hnpub E2. pose proof (profile_patch_spec _ _ _ _ _ _ Hs _ _ _ Hi E1) as Hp.
  destruct Hp as (va1 & vp1 & Hi1 & (username & vp0 & old & update & new & (-> & Hname & Hold & Hc) & Hup & Happ & -> & ->) & _).
  exists username, old, update, new. split_and!; try done.
  - destruct Hc as [->|(? & ? & _)]; auto.
  - destruct (profile_public_total npub pk s1 _ _ username new r s2 Hi1 Hnpub Hname) as [?|Hr];
      [by rewrite lookup_insert_eq|done|by left|right].
    simpl. by destruct (pf_visibility new).
Qed.
End Facts.

(** ** A service that serves one key *)

Module AuthSample.
#[local] Existing Instances json_model hex_model hex_model_laws crypto_model slices_model crypto_model_laws.
#[local] Existing Instances http_model base64_model.
Definition body : string := "public".
#[local] Instance codec : Nip98Codec :=
  nip98_codec_model (sample_event "PATCH" "https://auth/v1/profile" body 100).
#[local] Instance updates : ProfileUpdateCodec := {|
  profile_update_from_slice b :=
    if b == "public" then Ok (mkProfileUpdate (Some "Ada") None None None None (Some ApiPublic)) else Err "json"
|}.
#[local] Instance transport : ForgejoTransport unit := {| send _ := λ s, (Err (FeRequest "offline"), s) |}.
#[local] Instance forge_codec : ForgejoCodec := {|
  repo_from_str _ := Err "json"; user_from_str _ := Err "json"; org_from_str _ := Err "json";
  pull_request_from_str _ := Err "json"; hooks_from_str _ := Err "json"
|}.
#[local] Instance bech32 : Bech32Lib := {| bech32_decode s := if s == "npub1" then Some ("npub", sample_secret) else None |}.

Definition auth : AuthConfig := mkAuthConfig "local.test" 60.
Definition forgejo : ForgejoConfig := mkForgejoConfig "http://forge/" "token" "gittree" "http://hook" "secret" false.
Definition state : AuthAppState MemoryAccounts MemoryProfiles unit :=
  mkAuthAppState (upsert_account_mem (mkAccountRecord sample_secret "gt_ada") (mkMemoryAccounts ∅ ∅)).2
    (mkMemoryProfiles ∅) tt.
Definition accounts : gmap bytes string := {[sample_secret := "gt_ada"]}.
Definition request : HttpRequest := sample_request "PATCH" "auth" "/v1/profile" body.

Lemma state_inv : auth_inv state accounts ∅.
Proof.
  split; cbn [state as_accounts as_profiles].
  - pose proof (upsert_account_mem_spec (mkAccountRecord sample_secret "gt_ada") (mkMemoryAccounts ∅ ∅) ∅) as Hs.
    destruct (upsert_account_mem _ _) as [[[]|e] m] eqn:E; [|by vm_compute in E]. apply Hs. by split.
  - by intros p.
  - by intros p [].
Qed.

Lemma request_is_signed : request_signed uri_full_path 60 130 (payload_hash body) request
  (sample_event "PATCH" "https://auth/v1/profile" body 100) sample_secret.
Proof.
  destruct (authenticate_as id id uri_full_path 60 130 (payload_hash body) request) as [a|] eqn:E; [|by vm_compute in E].
  pose proof E as (event & Hs & _)%authenticate_Ok.
  assert (event = sample_event "PATCH" "https://auth/v1/profile" body 100) as ->.
  { destruct Hs as (h & t & d & v & Hv & Ht & Hd & He & _). injection Hv as <-.
    assert (t = "event") as -> by (vm_compute in Ht; congruence). injection Hd as <-. simpl in He. congruence. }
  assert (na_pubkey_bytes a = sample_secret) as <-; [|done].
  destruct (request_signed_key Hs) as [_ Hk].
  assert (hex_decode (ne_pubkey (sample_event "PATCH" "https://auth/v1/profile" body 100)) = Some sample_secret) as Hk'
    by (by vm_compute).
  rewrite Hk' in Hk. by injection Hk.
Qed.

Lemma requests_isolated_witness :
  ∃ h, build_router_with_mode auth forgejo false 130 "" ["v1"; "profile"] request = Some h ∧
    is_ok (h state).1 = true ∧ isolated auth 130 request accounts ∅ (h state).2.
Proof.
  eexists. split; [reflexivity|]. split; [by vm_compute|].
  match goal with |- isolated _ _ _ _ _ (?h state).2 => destruct (h state) as [r s'] eqn:E; simpl;
    apply (requests_isolated auth forgejo false 130 "" ["v1"; "profile"] request h state accounts ∅ r s') end;
    [apply state_inv|reflexivity|done].
Defined.

Lemma profile_update_shown_witness :
  ∃ p s1 old update new,
    profile_patch_handler auth 130 request state = (Ok p, s1) ∧ pr_display_name p = Some "Ada" ∧
    (profile_public_handler "npub1" s1).1 = Ok (profile_response (hex_encode sample_secret) "gt_ada" new) ∧
    profile_update_from_slice body = Ok update ∧
    apply_profile_update (ne_pubkey (sample_event "PATCH" "https://auth/v1/profile" body 100)) old update 130 = Ok new.
Proof.
  destruct (profile_patch_handler auth 130 request state) as [[p|e] s1] eqn:E1; [|by vm_compute in E1].
  destruct (profile_public_handler "npub1" s1) as [r s2] eqn:E2.
  destruct (profile_update_shown auth 130 request _ sample_secret state accounts ∅ p s1 "npub1" r s2
    request_is_signed state_inv E1 ltac:(by vm_compute) E2) as (username & old & update & new & Hu & _ & Hup & Happ & Hp & Hr).
  exists p, s1, old, update, new.
  assert (username = "gt_ada") as -> by (vm_compute in Hu; congruence).
  vm_compute in E1. injection E1 as <- <-. vm_compute in E2. injection E2 as <- <-.
  split_and!; [done|done| |done|done]. destruct Hr as [[err Hr]|Hr]; [done|exact Hr].
Defined.
End AuthSample.
