(* ===== verification/ControlService.v ===== *)
(** * [ControlService]: creating users, repositories and relay tenants over HTTP

    Models [services/control/src/lib.rs] and [control_action.rs]: the configuration, the
    requests that bear the service's token and those that a Nostr key signs, what they do at the
    forge, in the outbox, and to tenants and memberships, and the routes.  The state is
    these repositories and the forge, each its own component.  The clock, the random key
    and the nonce of a tenant are arguments; the extractors of JSON bodies are a class.  Serving,
    CORS and the encoding of answers are not modelled. *)

From S2P Require Import Prelude RustStr CoreTypes Externals Nip34Common HexModel Grasp Nip34Repo RelayEvent NostrAuth Membership Database HttpAuth.
From S2P Require Import RelayAdapter Dispatch Config Repositories PostgresRepos Directory StateService Outbox Forgejo.

(** ** Configuration *)

Record ControlConfig := mkControlConfig {
  ctl_bind : string; ctl_auth : ControlAuthConfig; ctl_forgejo : ForgejoConfig; ctl_storage : StorageConfig;
  ctl_relay_urls : list string; ctl_public_git_url : string
}.

Inductive ControlConfigError := CtlConfig (err : ConfigError) | CtlStorage (err : StorageConfigError).
Definition ControlConfigError_display (e : ControlConfigError) : string :=
  match e with
  | CtlConfig err => "control config error: " +:+ ConfigError_display err
  | CtlStorage err => "control storage config error: " +:+ StorageConfigError_display err
  end.

(** [storage_from_env], [env_u32] and [env_u64] read the variables the way the state
    service does. *)
Definition control_storage_from_env (get_var : environment) : result ControlConfigError StorageConfig :=
  map_err CtlStorage (state_storage_from_env get_var).

Definition ControlConfig_from_env `{UrlLib} (get_var : environment) : result ControlConfigError ControlConfig :=
  services ← map_err CtlConfig (ServicesConfig_from_env_validated_with get_var);
  auth ← map_err CtlConfig (ControlAuthConfig_from_env get_var);
  forgejo ← map_err CtlConfig (ForgejoConfig_from_env_with get_var);
  storage ← control_storage_from_env get_var;
  relay_targets ← map_err CtlConfig (RelayTargetsConfig_from_env_validated get_var);
  ui ← map_err CtlConfig (UiConfig_from_env get_var);
  Ok (mkControlConfig (sv_control services) auth forgejo storage (rt_relay_urls relay_targets) (ui_public_git_url ui)).

(** ** [control_action.rs] *)

Inductive ControlAction :=
| ActCreateUser (username email password : string) (admin must_change_password : option bool)
| ActCreateOrg (name : string) (full_name description : option string)
| ActCreateRepo (name : string) (owner identifier description : option string) (private : option bool)
    (pubkey privkey : string)
| ActCreatePullRequest (owner repo head base title : string) (body : option string) (draft : option bool).

(** [serde_json::from_str::<ControlAction>]. *)
Class ControlActionCodec := { control_action_from_str : string → option ControlAction }.

Definition action_non_empty (field value : string) : result CoreError unit :=
  fail_if (is_blank value) (InvalidField field "").
Definition action_hex64 (field value : string) : result CoreError unit :=
  fail_if (negb (bool_decide (String.length value = 64)) || negb (all_hexdigit value)) (InvalidField field value).
Definition if_some {E} (check : string → result E unit) (o : option string) : result E unit :=
  match o with Some value => check value | None => Ok tt end.

Definition ControlAction_validate (action : ControlAction) : result CoreError unit :=
  match action with
  | ActCreateUser username email password _ _ =>
      _ ← action_non_empty "username" username;
      _ ← action_non_empty "email" email;
      action_non_empty "password" password
  | ActCreateOrg name full_name _ =>
      _ ← action_non_empty "name" name;
      if_some (action_non_empty "full_name") full_name
  | ActCreateRepo name owner identifier _ _ pubkey privkey =>
      _ ← action_non_empty "name" name;
      _ ← if_some (action_non_empty "owner") owner;
      _ ← if_some (action_non_empty "identifier") identifier;
      _ ← action_hex64 "pubkey" pubkey;
      action_hex64 "privkey" privkey
  | ActCreatePullRequest owner repo head base title _ _ =>
      _ ← action_non_empty "owner" owner;
      _ ← action_non_empty "repo" repo;
      _ ← action_non_empty "head" head;
      _ ← action_non_empty "base" base;
      action_non_empty "title" title
  end.

Definition ControlAction_parse `{ControlActionCodec} (kind : Z) (content : string) (expected_kind : Z)
    : result CoreError ControlAction :=
  _ ← fail_if (negb (bool_decide (kind = expected_kind))) (InvalidField "kind" (pretty kind));
  _ ← fail_if (is_blank content) (MissingField "content");
  action ← ok_or (InvalidField "content" "invalid json") (control_action_from_str content);
  _ ← ControlAction_validate action;
  Ok action.

(** ** Requests, answers and errors *)

Record ControlCreateUserRequest := mkControlCreateUserRequest {
  cuq_username : string; cuq_email : string; cuq_password : string; cuq_full_name : option string;
  cuq_must_change_password : option bool; cuq_send_notify : option bool
}.
Definition ForgejoCreateUser_from (q : ControlCreateUserRequest) : ForgejoCreateUser :=
  mkForgejoCreateUser (cuq_username q) (cuq_email q) (cuq_password q) (cuq_full_name q) (cuq_must_change_password q)
    (cuq_send_notify q).
Record ControlCreateOrgRequest := mkControlCreateOrgRequest {
  coq_owner : string; coq_name : string; coq_full_name : option string; coq_description : option string;
  coq_visibility : option string
}.
Record ControlCreateRepoRequest := mkControlCreateRepoRequest {
  crq_owner : string; crq_name : string; crq_identifier : option string; crq_description : option string;
  crq_private : option bool; crq_auto_init : option bool; crq_pubkey : string; crq_privkey : string
}.
Record ControlCreateTenantRequest := mkControlCreateTenantRequest {
  ctq_host : string; ctq_name : option string; ctq_description : option string; ctq_icon : option string;
  ctq_banner : option string; ctq_contact : option string; ctq_auth_required : option bool;
  ctq_public_read : option bool; ctq_public_write : option bool
}.
Record ControlCreateTenantResponse := mkControlCreateTenantResponse {
  ctr_tenant_id : string; ctr_host : string; ctr_relay_pubkey : string; ctr_relay_url : string;
  ctr_owner_pubkey : string; ctr_status : string
}.
Record ControlCreatePullRequest := mkControlCreatePullRequest {
  cpq_owner : string; cpq_repo : string; cpq_head : string; cpq_base : string; cpq_title : string;
  cpq_body : option string
}.
Record CreateRepoInput := mkCreateRepoInput {
  cri_owner : option string; cri_name : string; cri_identifier : option string; cri_description : option string;
  cri_private : option bool; cri_auto_init : option bool; cri_pubkey : string; cri_privkey : string
}.
Record ControlEventRequest := mkControlEventRequest { ceq_kind : Z (* u64 *); ceq_pubkey : string; ceq_content : string }.
(** [gittree_app_core]'s; its signed event has the fields of the relay adapter's. *)
Record RepoCreateRequest := mkRepoCreateRequest { rcq_event : SignedNostrEvent; rcq_private : option bool }.
Record RepoCreateResponse := mkRepoCreateResponse { rcs_owner : string; rcs_name : string; rcs_html_url : option string }.

Record ControlUserResponse := mkControlUserResponse { cus_username : string; cus_email : option string }.
Definition ControlUserResponse_from (u : ForgejoUser) : ControlUserResponse := mkControlUserResponse (fu_username u) (fu_email u).
Record ControlOrgResponse := mkControlOrgResponse { cos_name : string; cos_full_name : option string }.
Definition ControlOrgResponse_from (o : ForgejoOrg) : ControlOrgResponse := mkControlOrgResponse (fg_name o) (fg_full_name o).
Record ControlRepoResponse := mkControlRepoResponse {
  crs_owner : string; crs_name : string; crs_full_name : string; crs_html_url : option string
}.
Definition ControlRepoResponse_from (r : ForgejoRepo) : ControlRepoResponse :=
  mkControlRepoResponse (fo_owner r) (fo_name r) (fo_full_name r) (fo_html_url r).
Record ControlPullResponse := mkControlPullResponse { cps_number : Z; cps_url : string; cps_html_url : option string }.
Definition ControlPullResponse_from (p : ForgejoPullRequest) : ControlPullResponse :=
  mkControlPullResponse (fpr_number p) (fpr_url p) (fpr_html_url p).
Inductive ControlEventResponse :=
| EvCreateUser (user : ControlUserResponse)
| EvCreateOrg (org : ControlOrgResponse)
| EvCreateRepo (repo : ControlRepoResponse)
| EvCreatePullRequest (pull : ControlPullResponse).

Inductive ControlHttpError := CtUnauthorized (message : string) | CtBadRequest (message : string) | CtInternal (message : string).
Definition ControlHttpError_into_response (e : ControlHttpError) : Z * string :=
  match e with
  | CtUnauthorized message => (401%Z, message)
  | CtBadRequest message => (400%Z, message)
  | CtInternal message => (500%Z, message)
  end.

Definition map_forgejo_error (error : ForgejoError) : ControlHttpError :=
  match error with
  | FeResponse status body =>
      if bool_decide (400 ≤ status)%Z && bool_decide (status < 500)%Z
      then CtBadRequest ("forgejo error " +:+ pretty status +:+ ": " +:+ body)
      else CtInternal (ForgejoError_display error)
  | _ => CtInternal (ForgejoError_display error)
  end.
Definition map_storage_error (error : StorageError) : ControlHttpError := CtInternal (StorageError_display error).

(** ** Checks *)

Definition control_non_empty (field value : string) : result ControlHttpError unit :=
  fail_if (is_blank value) (CtBadRequest ("missing " +:+ field)).
Definition control_hex64 (field value : string) : result ControlHttpError unit :=
  fail_if (negb (bool_decide (String.length value = 64)) || negb (all_hexdigit value)) (CtBadRequest ("invalid " +:+ field)).

Definition normalize_host (value : string) : result ControlHttpError string :=
  let value := trim_end_matches "." (trim value) in
  let value := match strip_prefix "https://" value with
               | Some rest => rest
               | None => default value (strip_prefix "http://" value)
               end in
  _ ← fail_if (contains_char "/" value) (CtBadRequest "invalid host");
  normalized ← match strip_prefix "[" value with
               | Some value =>
                   ok_or (CtBadRequest "invalid host") ((λ p : string * string, to_ascii_lowercase p.1) <$> split_once "]" value)
               | None => Ok (to_ascii_lowercase (default value (head (split ":" value))))
               end;
  _ ← fail_if (is_blank normalized) (CtBadRequest "invalid host");
  Ok normalized.

Definition authorize_admin_pubkey (pubkey : string) (auth : ControlAuthConfig) : result ControlHttpError unit :=
  if is_nil (ca_admin_keys auth) then Ok tt
  else if existsb (λ key, key == pubkey) (ca_admin_keys auth) then Ok tt
  else Err (CtUnauthorized "control pubkey not authorized").

Definition ensure_action_pubkey_matches (request_pubkey : string) (action : ControlAction) : result ControlHttpError unit :=
  match action with
  | ActCreateRepo _ _ _ _ _ pubkey _ =>
      fail_if (negb (pubkey == request_pubkey)) (CtBadRequest "pubkey does not match control request")
  | _ => Ok tt
  end.

Section Checks.
Context `{HttpLib} `{Base64Lib} `{Nip98Codec} `{JsonLib} `{HexLib} `{SchnorrSlices}.

Definition authorize (headers : HeaderMap) (token : string) : result ControlHttpError unit :=
  value ← ok_or (CtUnauthorized "missing authorization") (header_str AUTH_HEADER headers);
  value ← ok_or (CtUnauthorized "invalid authorization header") (strip_prefix "Bearer " (trim value));
  fail_if (negb (value == token)) (CtUnauthorized "invalid control token").

Definition control_nostr_auth : HeaderMap → result ControlHttpError Nip98Event := parse_nostr_auth_as CtUnauthorized.
Definition control_request_url : HeaderMap → Uri → result ControlHttpError string :=
  build_request_url_as CtBadRequest uri_full_path.

Definition parse_pubkey_bytes (value : string) : result ControlHttpError bytes :=
  ok_or (CtBadRequest "invalid pubkey") (hex_decode value).
(** [bytes.try_into::<[u8; 32]>()] *)
Definition array_32 (message : string) (b : bytes) : result ControlHttpError bytes :=
  if bool_decide (String.length b = 32) then Ok b else Err (CtBadRequest message).
Definition pubkey_from_bytes : bytes → result ControlHttpError bytes := array_32 "invalid pubkey".
Definition event_id_from_bytes : bytes → result ControlHttpError bytes := array_32 "invalid event id".
Definition parse_schnorr_signature (sig_bytes : bytes) : result ControlHttpError Signature :=
  ok_or (CtBadRequest "invalid event sig") (signature_from_slice sig_bytes).

Definition parse_secret_key `{SignerLib} (value : string) : result ControlHttpError SecretKey :=
  _ ← fail_if (negb (bool_decide (String.length value = 64))) (CtBadRequest "invalid privkey");
  key ← ok_or (CtBadRequest "invalid privkey") (hex_decode value);
  ok_or (CtBadRequest "invalid privkey") (secret_from_slice key).

(** [encode_npub] panics if [bech32::encode] fails. *)
Definition npub_from_hex `{Bech32Encode} (pubkey : string) : result (fault ControlHttpError) string :=
  _ ← fail_if (negb (bool_decide (String.length pubkey = 64))) (Raised (CtBadRequest "invalid pubkey"));
  key ← map_err Raised (parse_pubkey_bytes pubkey);
  ok_or Panicked (bech32_encode "npub" key).

Definition control_event_id (event : SignedNostrEvent) : string :=
  hex_encode (sha256 (json_to_string (JArray [JPosInt 0; JString (sn_pubkey event); json_int (sn_created_at event);
    json_int (sn_kind event); JArray ((λ t : tag, JArray (JString <$> t)) <$> sn_tags event); JString (sn_content event)]))).

Definition verify_signed_event (event : SignedNostrEvent) : result ControlHttpError bytes :=
  event_id ← ok_or (CtBadRequest "invalid event id") (hex_decode (sn_id event));
  event_id ← event_id_from_bytes event_id;
  _ ← fail_if (negb (control_event_id event == sn_id event)) (CtBadRequest "event id mismatch");
  sig_bytes ← ok_or (CtBadRequest "invalid event sig") (hex_decode (sn_sig event));
  sig ← parse_schnorr_signature sig_bytes;
  pubkey_bytes ← parse_pubkey_bytes (sn_pubkey event);
  pubkey_bytes ← pubkey_from_bytes pubkey_bytes;
  pubkey ← ok_or (CtBadRequest "invalid pubkey") (xonly_from_slice pubkey_bytes);
  _ ← fail_if (negb (verify_schnorr sig event_id pubkey)) (CtBadRequest "invalid event sig");
  Ok pubkey_bytes.

Definition validate_repo_announcement_event `{Bech32Encode} `{UrlLib} `{Bech32Lib} (event : SignedNostrEvent) (auth_pubkey : string)
    (relay_urls : list string) (public_git_url : string)
    : result (fault ControlHttpError) (RepoAnnouncement * string * string * bytes) :=
  let bad message := Raised (CtBadRequest message) in
  _ ← fail_if (negb (bool_decide (sn_kind event = KIND_GIT_REPO_ANNOUNCEMENT))) (bad "invalid repo announcement kind");
  _ ← fail_if (negb (sn_pubkey event == auth_pubkey)) (Raised (CtUnauthorized "repo event pubkey mismatch"));
  npub ← npub_from_hex (sn_pubkey event);
  pubkey_bytes ← map_err Raised (verify_signed_event event);
  announcement ← map_err (λ err, bad (CoreError_display err)) (RepoAnnouncement_from_tags (sn_tags event));
  _ ← map_err (λ err, bad (CoreError_display err)) (RepoAnnouncement_validate announcement);
  _ ← fail_if (negb (existsb (λ key, key == sn_pubkey event) (an_maintainers announcement))) (bad "missing maintainer pubkey");
  let identifier := normalize_identifier (an_identifier announcement) in
  _ ← fail_if (is_blank identifier) (bad "invalid repo identifier");
  expected_clone ← map_err (λ err, bad (CoreError_display err))
    (format_grasp_server_url_as_clone_url public_git_url npub identifier);
  _ ← fail_if (negb (existsb (λ url, url == expected_clone) (an_clone announcement))) (bad "missing clone url");
  _ ← check_each (λ relay_url, negb (existsb (λ url, url == relay_url) (an_relays announcement)))
        (λ _, bad "missing relay url") relay_urls;
  Ok (announcement, identifier, npub, pubkey_bytes).
End Checks.

(** ** The state *)

(** [SecretKey::secret_bytes]. *)
Class SecretBytes `{SignerLib} := { secret_bytes : SecretKey → bytes }.

Record ControlAppState (A O N M T : Type) := mkControlAppState {
  ct_accounts : A; ct_outbox : O; ct_tenants : N; ct_memberships : M; ct_transport : T
}.
Arguments mkControlAppState {A O N M T} _ _ _ _ _.
Arguments ct_accounts {A O N M T} _.
Arguments ct_outbox {A O N M T} _.
Arguments ct_tenants {A O N M T} _.
Arguments ct_memberships {A O N M T} _.
Arguments ct_transport {A O N M T} _.

(** What the extractor of a JSON body gives the handler, or the status and text of its rejection. *)
Class ControlExtract `{HttpLib} := {
  extract_user : HttpRequest → result (Z * string) ControlCreateUserRequest;
  extract_org : HttpRequest → result (Z * string) ControlCreateOrgRequest;
  extract_repo : HttpRequest → result (Z * string) ControlCreateRepoRequest;
  extract_pull : HttpRequest → result (Z * string) ControlCreatePullRequest;
  extract_event : HttpRequest → result (Z * string) ControlEventRequest;
  (* [serde_json::from_slice] in the handlers that read the body themselves *)
  repo_create_from_slice : bytes → result string RepoCreateRequest;
  tenant_create_from_slice : bytes → result string ControlCreateTenantRequest
}.

Section Service.
Context {A O N M T : Type} `{AccountRepository A} `{RelayPublishRepository O} `{RelayTenantRepository N}.
Context `{RelayMembershipRepository M} `{ForgejoTransport T} `{ForgejoCodec}.
Context `{HttpLib} `{Base64Lib} `{Nip98Codec} `{JsonLib} `{HexLib} `{SchnorrSlices} `{SignerKeys} `{!SecretBytes}.
Context `{Bech32Encode} `{Bech32Lib} `{UrlLib} `{ControlActionCodec} `{!ControlExtract}.
Context (auth : ControlAuthConfig) (forgejo : ForgejoConfig) (relay_urls : list string) (public_git_url : string).

Abbreviation state := (ControlAppState A O N M T).
Abbreviation handler := (stateful state (fault ControlHttpError)).

Definition on_accounts {X} (c : stateful A StorageError X) : handler X := λ s,
  let '(r, a) := c (ct_accounts s) in
  (map_err (Raised ∘ map_storage_error) r, mkControlAppState a (ct_outbox s) (ct_tenants s) (ct_memberships s) (ct_transport s)).
Definition on_outbox {X} (c : stateful O StorageError X) : handler X := λ s,
  let '(r, o) := c (ct_outbox s) in
  (map_err (Raised ∘ map_storage_error) r, mkControlAppState (ct_accounts s) o (ct_tenants s) (ct_memberships s) (ct_transport s)).
Definition on_tenants {X} (c : stateful N StorageError X) : handler X := λ s,
  let '(r, n) := c (ct_tenants s) in
  (map_err (Raised ∘ map_storage_error) r, mkControlAppState (ct_accounts s) (ct_outbox s) n (ct_memberships s) (ct_transport s)).
Definition on_memberships {X} (c : M → result StorageError X * M) : handler X := λ s,
  let '(r, m) := c (ct_memberships s) in
  (map_err (Raised ∘ map_storage_error) r, mkControlAppState (ct_accounts s) (ct_outbox s) (ct_tenants s) m (ct_transport s)).
Definition on_forgejo {X} (c : stateful T ForgejoError X) : handler X := λ s,
  let '(r, t) := c (ct_transport s) in
  (map_err (Raised ∘ map_forgejo_error) r, mkControlAppState (ct_accounts s) (ct_outbox s) (ct_tenants s) (ct_memberships s) t).

(** ** Repositories *)

(** The request that queues an event for a relay. *)
Definition publish_request (event : SignedNostrEvent) (owner repo identifier relay_url : string) : RelayPublishRequest :=
  mkRelayPublishRequest relay_url (sn_id event) (sn_pubkey event) (sn_created_at event) (sn_kind event) (sn_tags event)
    (sn_content event) (sn_sig event) owner repo identifier.

(** [for relay_url in &state.relay_urls { … enqueue_relay_publish(request).await …?; }]; the
    outbox reads the clock for each. *)
Fixpoint queue_all (instants : nat → Z) (i : nat) (request : string → RelayPublishRequest) (urls : list string) : handler unit :=
  match urls with
  | [] => mret tt
  | relay_url :: urls =>
      _ ← on_outbox (enqueue_relay_publish (instants i) (request relay_url));
      queue_all instants (S i) request urls
  end.

Definition create_repo_with_announcement (now : Z) (instants : nat → Z) (input : CreateRepoInput) : handler ControlRepoResponse :=
  let owner := default (fj_owner forgejo) (cri_owner input) in
  let identifier := default (cri_name input) (cri_identifier input) in
  _ ← attempt (control_non_empty "owner" owner);
  _ ← attempt (control_non_empty "name" (cri_name input));
  _ ← attempt (control_non_empty "identifier" identifier);
  _ ← attempt (control_hex64 "privkey" (cri_privkey input));
  _ ← attempt (fail_if (is_nil relay_urls) (CtBadRequest "missing relay urls"));
  npub ← lift (npub_from_hex (cri_pubkey input));
  secret_key ← attempt (parse_secret_key (cri_privkey input));
  clone_url ← attempt (map_err (λ err, CtBadRequest (CoreError_display err))
    (format_grasp_server_url_as_clone_url public_git_url npub identifier));
  let announcement := mkRepoAnnouncement identifier (Some (cri_name input)) (cri_description input) None [clone_url] []
    relay_urls [] [] [cri_pubkey input] in
  event ← attempt (map_err (λ err, CtBadRequest (RelayAdapterError_display err)) (from_announcement announcement secret_key now));
  _ ← attempt (fail_if (negb (sn_pubkey event == cri_pubkey input)) (CtBadRequest "pubkey does not match privkey"));
  repo ← on_forgejo (create_repo_for_owner forgejo owner
    (mkForgejoCreateRepo (cri_name input) (cri_description input) (cri_private input) (cri_auto_init input)));
  _ ← queue_all instants 0 (publish_request event owner (fo_name repo) identifier) relay_urls;
  mret (ControlRepoResponse_from repo).

Definition create_repo_from_signed_event (instants : nat → Z) (auth_pubkey : string) (request : RepoCreateRequest)
    : handler RepoCreateResponse :=
  let event := rcq_event request in
  validated ← lift (validate_repo_announcement_event event auth_pubkey relay_urls public_git_url);
  let '(announcement, identifier, _, pubkey_bytes) := validated in
  account ← on_accounts (account_by_pubkey pubkey_bytes);
  account ← attempt (ok_or (CtBadRequest "account not found") account);
  let owner := ac_forgejo_username account in
  let private := default (fj_repo_private forgejo) (rcq_private request) in
  repo ← on_forgejo (create_repo_for_owner forgejo owner
    (mkForgejoCreateRepo identifier (an_description announcement) (Some private) None));
  _ ← queue_all instants 0 (publish_request event owner (fo_name repo) identifier) relay_urls;
  mret (mkRepoCreateResponse owner (fo_name repo) (fo_html_url repo)).

(** ** The handlers of signed requests *)

Definition MAX_SKEW_SECONDS : Z := 300.
(** [gittree_app_core::nip98_payload_hash]. *)
Definition control_authenticate (now : Z) (q : HttpRequest) : handler Nip98Auth :=
  attempt (authenticate_as CtUnauthorized CtBadRequest uri_full_path MAX_SKEW_SECONDS now (nip98_payload_hash (hq_body q)) q).

Definition create_repo_nostr_handler (now : Z) (instants : nat → Z) (q : HttpRequest) : handler RepoCreateResponse :=
  caller ← control_authenticate now q;
  _ ← attempt (fail_if (is_empty (hq_body q)) (CtBadRequest "missing repo create body"));
  payload ← attempt (map_err (λ err, CtBadRequest ("invalid repo create request: " +:+ err)) (repo_create_from_slice (hq_body q)));
  create_repo_from_signed_event instants (na_pubkey caller) payload.

Definition create_tenant_handler (now : Z) (secret_key : SecretKey) (nonce : bytes) (q : HttpRequest)
    : handler ControlCreateTenantResponse :=
  event ← attempt (control_nostr_auth (hq_headers q));
  let owner_pubkey := ne_pubkey event in
  owner_pubkey_bytes ← attempt (map_err (λ _, CtUnauthorized "invalid nostr auth pubkey") (parse_pubkey_bytes owner_pubkey));
  request_url ← attempt (control_request_url (hq_headers q) (hq_uri q));
  _ ← attempt (map_err (λ err, CtUnauthorized (Nip98Error_display err))
    (validate_nip98 event (mkNip98Request (hq_method q) request_url (nip98_payload_hash (hq_body q)) now MAX_SKEW_SECONDS)));
  _ ← attempt (fail_if (is_empty (hq_body q)) (CtBadRequest "missing tenant create body"));
  payload ← attempt (map_err (λ err, CtBadRequest ("invalid tenant create request: " +:+ err)) (tenant_create_from_slice (hq_body q)));
  host ← attempt (normalize_host (ctq_host payload));
  existing ← on_tenants (tenant_by_host host);
  _ ← attempt (fail_if (is_some existing) (CtBadRequest "tenant host already exists"));
  let relay_pubkey_hex := hex_encode (xonly_public secret_key) in
  record ← attempt (map_err (λ err, CtBadRequest (StorageError_display err))
    (RelayTenantRecord_new host host relay_pubkey_hex (secret_bytes secret_key) nonce "local" (ctq_name payload)
       (ctq_description payload) (ctq_icon payload) (ctq_banner payload) (ctq_contact payload)
       (default true (ctq_auth_required payload)) (default false (ctq_public_read payload))
       (default false (ctq_public_write payload)) now now));
  _ ← on_tenants (upsert_tenant record);
  _ ← on_memberships (λ m, upsert_membership m (mkRelayMembershipRecord host owner_pubkey_bytes "owner" "active" now now));
  mret (mkControlCreateTenantResponse host host relay_pubkey_hex ("wss://" +:+ host) owner_pubkey "created").

(** ** The handlers of requests with the token *)

Definition create_user_handler (q : HttpRequest) (payload : ControlCreateUserRequest) : handler ControlUserResponse :=
  _ ← attempt (authorize (hq_headers q) (ca_token auth));
  _ ← attempt (control_non_empty "username" (cuq_username payload));
  _ ← attempt (control_non_empty "email" (cuq_email payload));
  _ ← attempt (control_non_empty "password" (cuq_password payload));
  user ← on_forgejo (create_user forgejo (ForgejoCreateUser_from payload));
  mret (ControlUserResponse_from user).

Definition create_org_handler (q : HttpRequest) (payload : ControlCreateOrgRequest) : handler ControlOrgResponse :=
  _ ← attempt (authorize (hq_headers q) (ca_token auth));
  _ ← attempt (control_non_empty "owner" (coq_owner payload));
  _ ← attempt (control_non_empty "name" (coq_name payload));
  org ← on_forgejo (create_org forgejo (coq_owner payload)
    (mkForgejoCreateOrg (coq_name payload) (coq_full_name payload) (coq_description payload) (coq_visibility payload)));
  mret (ControlOrgResponse_from org).

Definition create_repo_handler (now : Z) (instants : nat → Z) (q : HttpRequest) (payload : ControlCreateRepoRequest)
    : handler ControlRepoResponse :=
  _ ← attempt (authorize (hq_headers q) (ca_token auth));
  _ ← attempt (control_non_empty "owner" (crq_owner payload));
  _ ← attempt (control_non_empty "name" (crq_name payload));
  _ ← attempt (control_non_empty "pubkey" (crq_pubkey payload));
  _ ← attempt (control_non_empty "privkey" (crq_privkey payload));
  _ ← attempt (if_some (control_non_empty "identifier") (crq_identifier payload));
  _ ← attempt (control_hex64 "pubkey" (crq_pubkey payload));
  _ ← attempt (control_hex64 "privkey" (crq_privkey payload));
  _ ← attempt (authorize_admin_pubkey (crq_pubkey payload) auth);
  create_repo_with_announcement now instants
    (mkCreateRepoInput (Some (crq_owner payload)) (crq_name payload) (crq_identifier payload) (crq_description payload)
       (crq_private payload) (crq_auto_init payload) (crq_pubkey payload) (crq_privkey payload)).

Definition create_pull_handler (q : HttpRequest) (payload : ControlCreatePullRequest) : handler ControlPullResponse :=
  _ ← attempt (authorize (hq_headers q) (ca_token auth));
  _ ← attempt (control_non_empty "owner" (cpq_owner payload));
  _ ← attempt (control_non_empty "repo" (cpq_repo payload));
  _ ← attempt (control_non_empty "head" (cpq_head payload));
  _ ← attempt (control_non_empty "base" (cpq_base payload));
  _ ← attempt (control_non_empty "title" (cpq_title payload));
  pull ← on_forgejo (create_pull_request forgejo (cpq_owner payload) (cpq_repo payload)
    (mkForgejoCreatePullRequest (cpq_head payload) (cpq_base payload) (cpq_title payload) (cpq_body payload)));
  mret (ControlPullResponse_from pull).

Definition apply_control_action (now : Z) (instants : nat → Z) (action : ControlAction) : handler ControlEventResponse :=
  match action with
  | ActCreateUser username email password _ must_change_password =>
      user ← on_forgejo (create_user forgejo (mkForgejoCreateUser username email password None must_change_password None));
      mret (EvCreateUser (ControlUserResponse_from user))
  | ActCreateOrg name full_name description =>
      org ← on_forgejo (create_org forgejo (fj_owner forgejo) (mkForgejoCreateOrg name full_name description None));
      mret (EvCreateOrg (ControlOrgResponse_from org))
  | ActCreateRepo name owner identifier description private pubkey privkey =>
      repo ← create_repo_with_announcement now instants
        (mkCreateRepoInput owner name identifier description private None pubkey privkey);
      mret (EvCreateRepo repo)
  | ActCreatePullRequest owner repo head base title body _ =>
      pull ← on_forgejo (create_pull_request forgejo owner repo (mkForgejoCreatePullRequest head base title body));
      mret (EvCreatePullRequest (ControlPullResponse_from pull))
  end.

(** The [u64] kind of the request must be a [u32]. *)
Definition control_event_handler (now : Z) (instants : nat → Z) (q : HttpRequest) (payload : ControlEventRequest)
    : handler ControlEventResponse :=
  _ ← attempt (authorize (hq_headers q) (ca_token auth));
  _ ← attempt (control_non_empty "pubkey" (ceq_pubkey payload));
  _ ← attempt (control_non_empty "content" (ceq_content payload));
  _ ← attempt (authorize_admin_pubkey (ceq_pubkey payload) auth);
  _ ← attempt (fail_if (bool_decide (u32_max < ceq_kind payload)%Z) (CtBadRequest "invalid kind"));
  action ← attempt (map_err (λ err, CtBadRequest (CoreError_display err))
    (ControlAction_parse (ceq_kind payload) (ceq_content payload) KIND_GITTREE_CONTROL));
  _ ← attempt (ensure_action_pubkey_matches (ceq_pubkey payload) action);
  apply_control_action now instants action.

(** ** The routes: the decoded segments of the path; [get] also serves [HEAD] *)

Inductive ControlReply :=
| CrHealth
| CrRejected (status : Z) (message : string)
| CrTenant (r : ControlCreateTenantResponse)
| CrRepoCreated (r : RepoCreateResponse)
| CrUser (r : ControlUserResponse)
| CrOrg (r : ControlOrgResponse)
| CrRepo (r : ControlRepoResponse)
| CrPull (r : ControlPullResponse)
| CrEvent (r : ControlEventResponse).

Definition replied {X} (f : X → ControlReply) (c : handler X) : handler ControlReply := x ← c; mret (f x).
(** A handler behind a JSON extractor. *)
Definition extracted {P X} (extract : HttpRequest → result (Z * string) P) (f : X → ControlReply) (c : P → handler X)
    (q : HttpRequest) : handler ControlReply :=
  match extract q with
  | Ok payload => replied f (c payload)
  | Err (status, message) => mret (CrRejected status message)
  end.

Definition build_router (now : Z) (instants : nat → Z) (secret_key : SecretKey) (nonce : bytes) (path : list string)
    (q : HttpRequest) : option (handler ControlReply) :=
  if bool_decide (path = ["health"]) then
    if bool_decide (hq_method q ∈ ["GET"; "HEAD"]) then Some (mret CrHealth) else None
  else if negb (hq_method q == "POST") then None
  else if bool_decide (path = ["v1"; "relay"; "tenants"]) then Some (replied CrTenant (create_tenant_handler now secret_key nonce q))
  else if bool_decide (path = ["v1"; "repos"]) then Some (replied CrRepoCreated (create_repo_nostr_handler now instants q))
  else if bool_decide (path = ["control"; "users"]) then Some (extracted extract_user CrUser (create_user_handler q) q)
  else if bool_decide (path = ["control"; "orgs"]) then Some (extracted extract_org CrOrg (create_org_handler q) q)
  else if bool_decide (path = ["control"; "repos"]) then Some (extracted extract_repo CrRepo (create_repo_handler now instants q) q)
  else if bool_decide (path = ["control"; "pulls"]) then Some (extracted extract_pull CrPull (create_pull_handler q) q)
  else if bool_decide (path = ["control"; "events"]) then Some (extracted extract_event CrEvent (control_event_handler now instants q) q)
  else None.
End Service.

(** ** What a request may change *)

Section Facts.
Context {A O N M T : Type} `{AccountLaws A} `{HexLaws} `{!RelayPublishRepository O} `{!OutboxLaws O} `{TenantLaws N}.
Context `{RelayMembershipRepository M} `{ForgejoTransport T} `{ForgejoCodec}.
Context `{HttpLib} `{Base64Lib} `{Nip98Codec} `{JsonLib} `{SchnorrSlices} `{!CryptoLaws} `{SignerKeys} `{!SecretBytes}.
Context `{Bech32Encode} `{Bech32Lib} `{UrlLib} `{ControlActionCodec} `{!ControlExtract}.
Context (auth : ControlAuthConfig) (forgejo : ForgejoConfig) (relay_urls : list string) (public_git_url : string).

Abbreviation state := (ControlAppState A O N M T).
Abbreviation accounts := (gmap bytes string).
Abbreviation tenants := (gmap string RelayTenantRecord).

(** The repositories hold [va], [vo] and [vn], the memberships are [m] and the forge is in [τ]. *)
Record control_view (va : accounts) (vo : outbox) (vn : tenants) (m : M) (τ : T → Prop) (s : state) : Prop := {
  view_accounts : account_holds (ct_accounts s) va;
  view_outbox : outbox_holds (ct_outbox s) vo;
  view_tenants : tenant_holds (ct_tenants s) vn;
  view_memberships : ct_memberships s = m;
  view_forge : τ (ct_transport s)
}.

(** The forge after one of the requests the service makes of it. *)
Inductive forge_asked (t : T) : T → Prop :=
| asked_user request : forge_asked t (create_user forgejo request t).2
| asked_org owner request : forge_asked t (create_org forgejo owner request t).2
| asked_repo owner request : forge_asked t (create_repo_for_owner forgejo owner request t).2
| asked_pull owner repo request : forge_asked t (create_pull_request forgejo owner repo request t).2.

(** One new entry per URL, in their order, each under a greater id than there was. *)
Inductive queued (request : string → RelayPublishRequest) : list string → outbox → outbox → Prop :=
| queued_nil v : queued request [] v v
| queued_cons url urls v now entry id v' :
    RelayPublishRequest_decode (request url) = Ok entry → (∀ id', is_Some (v !! id') → (id' < id)%Z) →
    queued request urls (<[id := new_entry id entry now]> v) v' → queued request (url :: urls) v v'.

Lemma queued_grows request urls v v' : queued request urls v v' → v ⊆ v'.
Proof.
  induction 1 as [|url urls v now entry id v' _ Hid _ IH]; [done|]. etrans; [|exact IH].
  apply insert_subseteq. destruct (v !! id) eqn:E; [|done]. assert (id < id)%Z by (apply Hid; eauto). lia.
Qed.

Section Steps.
Context (va : accounts) (vo : outbox) (vn : tenants) (m : M).

Lemma account_step p τ :
  ensures (control_view va vo vn m τ) (on_accounts (account_by_pubkey p))
    (λ o s, control_view va vo vn m τ s ∧ o = mkAccountRecord p <$> va !! p) (λ _, control_view va vo vn m τ).
Proof.
  intros s r s' [Ha Ho Hn Hm Ht]. unfold on_accounts. destruct (account_by_pubkey p (ct_accounts s)) as [r0 a] eqn:E.
  destruct (account_by_pubkey_law p _ _ _ _ Ha E) as [Ha' Hr]. intros [= <- <-]. destruct r0 as [o|e]; simpl; [|done].
  split; [done|]. by apply Hr.
Qed.

Lemma tenant_step h τ :
  ensures (control_view va vo vn m τ) (on_tenants (tenant_by_host h))
    (λ o s, control_view va vo vn m τ s ∧
       match o with
       | Some r => vn !! tn_id r = Some r ∧ tn_host r = h
       | None => ∀ i r, vn !! i = Some r → tn_host r ≠ h
       end) (λ _, control_view va vo vn m τ).
Proof.
  intros s r s' [Ha Ho Hn Hm Ht]. unfold on_tenants. destruct (tenant_by_host h (ct_tenants s)) as [r0 n] eqn:E.
  destruct (tenant_by_host_law h _ _ _ _ Hn E) as [Hn' Hr]. intros [= <- <-]. destruct r0 as [o|e]; simpl; [|done].
  split; [done|]. by apply (Hr o).
Qed.

Lemma tenant_write r τ :
  ensures (control_view va vo vn m τ) (on_tenants (upsert_tenant r))
    (λ _, control_view va vo (<[tn_id r := r]> vn) m τ)
    (λ _ s, control_view va vo vn m τ s ∨ control_view va vo (<[tn_id r := r]> vn) m τ s).
Proof.
  intros s res s' [Ha Ho Hn Hm Ht]. unfold on_tenants. destruct (upsert_tenant r (ct_tenants s)) as [r0 n] eqn:E.
  pose proof (upsert_tenant_law r _ _ _ _ Hn E) as Hr. intros [= <- <-]. destruct r0 as [[]|e]; simpl in *.
  - by destruct Hr.
  - destruct Hr; [left|right]; done.
Qed.

Lemma membership_step {X} (c : M → result StorageError X * M) τ :
  ensures (control_view va vo vn m τ) (on_memberships c) (λ _, control_view va vo vn (c m).2 τ)
    (λ _, control_view va vo vn (c m).2 τ).
Proof.
  intros s r s' [Ha Ho Hn <- Ht]. unfold on_memberships. destruct (c (ct_memberships s)) as [r0 m'] eqn:E.
  intros [= <- <-]. by destruct r0.
Qed.

Lemma forge_step {X} (c : stateful T ForgejoError X) t :
  ensures (control_view va vo vn m (eq t)) (on_forgejo c)
    (λ x, control_view va vo vn m (λ t', c t = (Ok x, t')))
    (λ _, control_view va vo vn m (λ t', ∃ err, c t = (Err err, t'))).
Proof.
  intros s r s' [Ha Ho Hn Hm Ht]. unfold on_forgejo. destruct (c (ct_transport s)) as [r0 t0] eqn:E. rewrite <-Ht in E.
  intros [= <- <-]. destruct r0; split; simpl; eauto.
Qed.
End Steps.

Lemma queue_all_step va vn m τ instants request urls i vo :
  (∀ url, u32 (rq_kind (request url))) →
  ensures (control_view va vo vn m τ) (queue_all instants i request urls)
    (λ _ s, ∃ vo', queued request urls vo vo' ∧ control_view va vo' vn m τ s)
    (λ _ s, ∃ k vo', queued request (take k urls) vo vo' ∧ control_view va vo' vn m τ s).
Proof.
  intros Hk. revert i vo. induction urls as [|url urls IH]; intros i vo.
  { apply ensures_ret. intros s Hs. exists vo. split; [constructor|done]. }
  intros s r s' Hs. cbn [queue_all]. unfold mbind at 1, stateful_bind at 1, on_outbox at 1.
  destruct (enqueue_relay_publish (instants i) (request url) (ct_outbox s)) as [r0 o] eqn:E.
  destruct Hs as [Ha Ho Hn Hm Ht]. destruct (enqueue_spec _ _ _ _ _ _ Ho (Hk url) E) as [[Hr Ho']|(entry & id & Hd & Hid & Ho')].
  - destruct r0; [done|]. intros [= <- <-]. exists 0, vo. split; [constructor|done].
  - destruct r0 as [[]|err]; simpl.
    + intros E'. refine (_ (IH (S i) (<[id := new_entry id entry (instants i)]> vo) _ _ _ _ E')); [|done].
      destruct r as [[]|e].
      * intros (vo' & Hq & Hs'). exists vo'. split; [by econstructor|done].
      * intros (k & vo' & Hq & Hs'). exists (S k), vo'. split; [by econstructor|done].
    + intros [= <- <-]. exists 1, (<[id := new_entry id entry (instants i)]> vo). split; [|done].
      econstructor; [done|done|constructor].
Qed.

(** *** The token *)

Definition bears_token (q : HttpRequest) : Prop :=
  ∃ value, header_str AUTH_HEADER (hq_headers q) = Some value ∧ strip_prefix "Bearer " (trim value) = Some (ca_token auth).

Lemma authorize_Ok q : authorize (hq_headers q) (ca_token auth) = Ok tt ↔ bears_token q.
Proof.
  unfold authorize, bears_token. split.
  - intros (value & Hv%ok_or_Ok & (rest & Hr%ok_or_Ok & Hf)%bind_Ok)%bind_Ok. exists value. split; [done|].
    unfold fail_if in Hf. destruct (String.eqb_spec rest (ca_token auth)) as [->|]; [done|done].
  - intros (value & Hv & Hr). apply bind_Ok. exists value. split; [by apply ok_or_Ok|].
    apply bind_Ok. exists (ca_token auth). split; [by apply ok_or_Ok|]. apply fail_if_Ok. by rewrite String.eqb_refl.
Qed.

(** ** Who signed an event *)

(** The event carries the hash of its content as its id and a signature of it by [pk]. *)
Definition event_authentic (event : SignedNostrEvent) (pk : bytes) : Prop :=
  sn_id event = control_event_id event ∧ hex_decode (sn_pubkey event) = Some pk ∧
  ∃ digest sig_bytes sig key, hex_decode (sn_id event) = Some digest ∧ hex_decode (sn_sig event) = Some sig_bytes ∧
    signature_from_slice sig_bytes = Some sig ∧ xonly_from_slice pk = Some key ∧ verify_schnorr sig digest key = true.

Lemma array_32_Ok message b b' : array_32 message b = Ok b' → b' = b.
Proof. unfold array_32. case_bool_decide; [|done]. by intros [= ->]. Qed.

Lemma verify_signed_event_Ok event pk : verify_signed_event event = Ok pk → event_authentic event pk.
Proof.
  unfold verify_signed_event. intros (digest & Hid%ok_or_Ok & Hr)%bind_Ok.
  apply bind_Ok in Hr as (digest' & Hd%array_32_Ok & Hr). subst digest'. apply bind_Ok_unit in Hr as [He%fail_if_Ok Hr].
  apply bind_Ok in Hr as (sig_bytes & Hs%ok_or_Ok & Hr). apply bind_Ok in Hr as (sig & Hsig%ok_or_Ok & Hr).
  apply bind_Ok in Hr as (pk' & Hpk%ok_or_Ok & Hr). apply bind_Ok in Hr as (pk2 & Hp2%array_32_Ok & Hr). subst pk2.
  apply bind_Ok in Hr as (key & Hkey%ok_or_Ok & Hr). apply bind_Ok_unit in Hr as [Hv%fail_if_Ok [= <-]].
  apply negb_false_iff, String.eqb_eq in He. apply negb_false_iff in Hv.
  split; [done|]. split; [done|]. by exists digest, sig_bytes, sig, key.
Qed.

(** ** Effects *)

Section Effects.
Context (now : Z) (q : HttpRequest) (va : accounts) (vo : outbox) (vn : tenants) (m : M) (t : T).

Definition control_signed : Nip98Event → bytes → Prop :=
  request_signed uri_full_path MAX_SKEW_SECONDS now (nip98_payload_hash (hq_body q)) q.

Definition unchanged : state → Prop := control_view va vo vn m (eq t).

(** Events were queued for some of the relays, and the forge is in [τ]. *)
Definition queued_some (τ : T → Prop) (request : string → RelayPublishRequest) (s : state) : Prop :=
  ∃ k vo', queued request (take k relay_urls) vo vo' ∧ control_view va vo' vn m τ s.

(** The forge was asked for something, and events were queued. *)
Definition by_token (s : state) : Prop := bears_token q ∧ ∃ request, queued_some (forge_asked t) request s.

(** The repository that the announcement [a] of a request asks of the forge. *)
Definition asks_repo (payload : RepoCreateRequest) (a : RepoAnnouncement) (owner : string) : stateful T ForgejoError ForgejoRepo :=
  create_repo_for_owner forgejo owner (mkForgejoCreateRepo (normalize_identifier (an_identifier a)) (an_description a)
    (Some (default (fj_repo_private forgejo) (rcq_private payload))) None).

(** The forge was asked for the announced repository of the caller's account, and, when it
    made one, the caller's own event was queued for it. *)
Definition by_repo (s : state) : Prop :=
  ∃ signature pk payload owner a, control_signed signature pk ∧ repo_create_from_slice (hq_body q) = Ok payload ∧
    event_authentic (rcq_event payload) pk ∧ va !! pk = Some owner ∧
    RepoAnnouncement_from_tags (sn_tags (rcq_event payload)) = Ok a ∧
    (control_view va vo vn m (λ t', ∃ err, asks_repo payload a owner t = (Err err, t')) s ∨
     ∃ repo, queued_some (λ t', asks_repo payload a owner t = (Ok repo, t'))
       (publish_request (rcq_event payload) owner (fo_name repo) (normalize_identifier (an_identifier a))) s).

(** The tenant that the request names was entered under an id that is the host of no
    tenant, with the caller as its owner. *)
Definition by_tenant (s : state) : Prop :=
  ∃ signature pk payload tenant, control_signed signature pk ∧ tenant_create_from_slice (hq_body q) = Ok payload ∧
    normalize_host (ctq_host payload) = Ok (tn_id tenant) ∧ (∀ i r, vn !! i = Some r → tn_host r ≠ tn_id tenant) ∧
    let vn' := <[tn_id tenant := tenant]> vn in
    (control_view va vo vn' m (eq t) s ∨
     control_view va vo vn'
       (upsert_membership m (mkRelayMembershipRecord (tn_id tenant) pk "owner" "active" now now)).2 (eq t) s).

Definition control_effect (s : state) : Prop := unchanged s ∨ by_token s ∨ by_repo s ∨ by_tenant s.

Lemma unchanged_effect s : unchanged s → control_effect s.
Proof. by left. Qed.

Lemma token_first {X} (c : stateful state (fault ControlHttpError) X) :
  (bears_token q → ensures unchanged c (λ _, control_effect) (λ _, control_effect)) →
  ensures unchanged (attempt (authorize (hq_headers q) (ca_token auth)) ≫= λ _, c) (λ _, control_effect) (λ _, control_effect).
Proof.
  intros Hc. apply ensures_attempt; [|intros e s; apply unchanged_effect]. intros [] Ha%authorize_Ok. auto.
Qed.

(** A call of the forge that ends the handler. *)
Lemma forge_last {X Y} (c : stateful T ForgejoError X) (f : X → Y) :
  bears_token q → forge_asked t (c t).2 →
  ensures unchanged (x ← on_forgejo c; mret (f x)) (λ _, control_effect) (λ _, control_effect).
Proof.
  intros Hq Hc. assert (∀ τ s, (∀ t', τ t' → t' = (c t).2) → control_view va vo vn m τ s → control_effect s) as Hs.
  { intros τ s Ht [? ? ? ? Hx%Ht]. right. left. split; [done|]. exists (λ _, mkRelayPublishRequest "" "" "" 0 0 [] "" "" "" "" "").
    exists 0, vo. split; [constructor|]. split; [done..|]. by rewrite Hx. }
  eapply ensures_bind; [eapply ensures_conseq; [apply forge_step|intros x s Hv; exact Hv|]|].
  - intros e s. apply Hs. by intros t' [err ->].
  - intros x. apply ensures_ret. intros s. apply Hs. by intros t' ->.
Qed.

Lemma from_announcement_kind a key created_at e :
  from_announcement a key created_at = Ok e → sn_kind e = KIND_GIT_REPO_ANNOUNCEMENT.
Proof.
  unfold from_announcement, signed, signed_with. intros (_ & E)%bind_Ok_unit.
  do 2 apply bind_Ok in E as (? & _ & E). by injection E as <-.
Qed.

(** Queueing an event, of which the kind fits, after the forge was asked. *)
Lemma queue_last instants event owner repo identifier τ :
  sn_kind event = KIND_GIT_REPO_ANNOUNCEMENT →
  let request := publish_request event owner repo identifier in
  ensures (control_view va vo vn m τ) (queue_all instants 0 request relay_urls)
    (λ _ s, ∃ vo', queued request relay_urls vo vo' ∧ control_view va vo' vn m τ s) (λ _, queued_some τ request).
Proof. intros Hk request. apply queue_all_step. intros url. simpl. rewrite Hk. by vm_compute. Qed.

Lemma queued_some_nil τ request s : control_view va vo vn m τ s → queued_some τ request s.
Proof. intros Hs. exists 0, vo. split; [constructor|done]. Qed.

Lemma queued_some_all τ request s :
  (∃ vo', queued request relay_urls vo vo' ∧ control_view va vo' vn m τ s) → queued_some τ request s.
Proof. intros (vo' & Hq & Hs). exists (length relay_urls), vo'. by rewrite firstn_all. Qed.

Lemma queued_some_mono (τ τ' : T → Prop) request s :
  (∀ t', τ t' → τ' t') → queued_some τ request s → queued_some τ' request s.
Proof. intros Ht (k & vo' & Hq & [? ? ? ? ?]). exists k, vo'. split; [done|]. split; auto. Qed.

Lemma create_repo_with_announcement_effect instants input :
  bears_token q →
  ensures unchanged (create_repo_with_announcement forgejo relay_urls public_git_url now instants input)
    (λ _, control_effect) (λ _, control_effect).
Proof.
  intros Hq.
  unfold create_repo_with_announcement.
  do 5 (apply ensures_attempt; [intros _ _|intros e s; apply unchanged_effect]).
  apply ensures_lift; [intros npub _|intros e s _; apply unchanged_effect].
  do 2 (apply ensures_attempt; [intros ? _|intros e s; apply unchanged_effect]).
  apply ensures_attempt; [intros event He%map_err_Ok%from_announcement_kind|intros e s; apply unchanged_effect].
  apply ensures_attempt; [intros _ _|intros e s; apply unchanged_effect].
  set (c := create_repo_for_owner _ _ _).
  assert (∀ τ request s, (∀ t', τ t' → t' = (c t).2) → queued_some τ request s → control_effect s) as Hs.
  { intros τ request s Ht Hs. right. left. split; [done|]. exists request. eapply queued_some_mono; [|exact Hs].
    intros t' ->%Ht. constructor. }
  eapply ensures_bind; [eapply ensures_conseq; [apply forge_step|intros x s Hv; exact Hv|]|].
  { intros e s Hv. eapply (Hs _ (publish_request event "" "" "")); [|apply queued_some_nil, Hv]. intros t' [err E]. by rewrite E. }
  intros repo. assert (∀ t', c t = (Ok repo, t') → t' = (c t).2) as Hr by (by intros t' E; rewrite E).
  eapply ensures_bind; [eapply ensures_conseq; [by apply queue_last|intros x s Hv; exact Hv|intros e s; by apply Hs]|].
  intros []. apply ensures_ret. intros s Hv. eapply Hs; [exact Hr|]. by apply queued_some_all.
Qed.

Lemma validate_repo_announcement_event_Ok event pubkey a identifier npub pk :
  validate_repo_announcement_event event pubkey relay_urls public_git_url = Ok (a, identifier, npub, pk) →
  sn_kind event = KIND_GIT_REPO_ANNOUNCEMENT ∧ sn_pubkey event = pubkey ∧ event_authentic event pk ∧
  RepoAnnouncement_from_tags (sn_tags event) = Ok a ∧ sn_pubkey event ∈ an_maintainers a ∧
  identifier = normalize_identifier (an_identifier a) ∧ (∀ url, url ∈ relay_urls → url ∈ an_relays a).
Proof.
  unfold validate_repo_announcement_event. intros E.
  apply bind_Ok_unit in E as [Hkind%fail_if_Ok E]. apply bind_Ok_unit in E as [Hpub%fail_if_Ok E].
  apply bind_Ok in E as (? & _ & E). apply bind_Ok in E as (pk' & Hv%map_err_Ok%verify_signed_event_Ok & E).
  apply bind_Ok in E as (a' & Ha%map_err_Ok & E). apply bind_Ok_unit in E as [_ E].
  apply bind_Ok_unit in E as [Hm%fail_if_Ok E]. apply bind_Ok_unit in E as [_ E].
  apply bind_Ok in E as (? & _ & E). apply bind_Ok_unit in E as [_ E]. apply bind_Ok_unit in E as [Hr%check_each_Ok E].
  injection E as -> <- _ ->. apply negb_false_iff, bool_decide_eq_true_1 in Hkind.
  apply negb_false_iff, String.eqb_eq in Hpub. apply negb_false_iff, existsb_true in Hm as (k & Hk & ->%String.eqb_eq).
  split_and!; try done. intros url Hurl. rewrite Forall_forall in Hr. apply Hr in Hurl.
  by apply negb_false_iff, existsb_true in Hurl as (u & Hu & ->%String.eqb_eq).
Qed.

(** What a success of [create_repo_from_signed_event] has done. *)
Definition repo_queued (pk : bytes) (payload : RepoCreateRequest) (response : RepoCreateResponse) (s : state) : Prop :=
  event_authentic (rcq_event payload) pk ∧
  ∃ owner a repo vo', va !! pk = Some owner ∧
    RepoAnnouncement_from_tags (sn_tags (rcq_event payload)) = Ok a ∧
    sn_pubkey (rcq_event payload) ∈ an_maintainers a ∧ (∀ url, url ∈ relay_urls → url ∈ an_relays a) ∧
    response = mkRepoCreateResponse owner (fo_name repo) (fo_html_url repo) ∧
    queued (publish_request (rcq_event payload) owner (fo_name repo) (normalize_identifier (an_identifier a)))
      relay_urls vo vo' ∧
    control_view va vo' vn m (λ t', asks_repo payload a owner t = (Ok repo, t')) s.

Lemma create_repo_from_signed_event_spec instants signature pk payload :
  control_signed signature pk → repo_create_from_slice (hq_body q) = Ok payload →
  ensures unchanged (create_repo_from_signed_event forgejo relay_urls public_git_url instants (ne_pubkey signature) payload)
    (repo_queued pk payload) (λ _, control_effect).
Proof.
  intros Hsig Hbody. destruct (request_signed_key Hsig) as [_ Hkey]. unfold create_repo_from_signed_event.
  apply ensures_lift; [|intros e s _; apply unchanged_effect]. intros [[[a identifier] npub] pk'] Hv.
  apply validate_repo_announcement_event_Ok in Hv as (Hk & Hp & Hauth & Ha & Hm & -> & Hr).
  assert (pk' = pk) as -> by (destruct Hauth as (_ & Hd & _); congruence).
  eapply ensures_bind; [eapply ensures_conseq; [apply account_step|intros x s Hs; exact Hs|intros e s; apply unchanged_effect]|].
  intros account. apply ensures_attempt; [|intros e s [Hs _]; by apply unchanged_effect].
  intros account' ->%ok_or_Ok. fold (asks_repo payload a (ac_forgejo_username account')).
  set (owner := ac_forgejo_username account').
  apply ensures_bind with (M := λ repo s,
    control_view va vo vn m (λ t', asks_repo payload a owner t = (Ok repo, t')) s ∧ va !! pk = Some owner).
  { intros s r s' [Hs Hacc]. assert (va !! pk = Some owner) as Hown.
    { destruct (va !! pk); [|done]. simpl in Hacc. unfold owner. by injection Hacc as ->. }
    intros E. apply (forge_step _ _ _ _ _ _ _ _ _ Hs) in E. destruct r as [repo|e]; [done|].
    right. right. left. exists signature, pk, payload, owner, a. split_and!; [done..|by left]. }
  intros repo. set (request := publish_request _ _ _ _).
  apply ensures_bind with (M := λ _ s, va !! pk = Some owner ∧ ∃ vo', queued request relay_urls vo vo' ∧
    control_view va vo' vn m (λ t', asks_repo payload a owner t = (Ok repo, t')) s).
  { intros s r s' [Hs Hown] E. apply (queue_last _ _ _ _ _ _ Hk _ _ _ Hs) in E. destruct r; [done|].
    right. right. left. exists signature, pk, payload, owner, a. split_and!; [done..|]. right. by exists repo. }
  intros []. apply ensures_ret. intros s [Hown (vo' & Hq & Hs)]. split; [done|].
  exists owner, a, repo, vo'. by split_and!.
Qed.

Lemma signed_from_parts event url a :
  control_nostr_auth (hq_headers q) = Ok event → control_request_url (hq_headers q) (hq_uri q) = Ok url →
  validate_nip98 event (mkNip98Request (hq_method q) url (nip98_payload_hash (hq_body q)) now MAX_SKEW_SECONDS) = Ok a →
  control_signed event (na_pubkey_bytes a).
Proof.
  intros He Hu Hv. assert (authenticate_as CtUnauthorized CtBadRequest uri_full_path MAX_SKEW_SECONDS now
    (nip98_payload_hash (hq_body q)) q = Ok a) as (event' & Hs & _)%authenticate_Ok.
  { apply bind_Ok. exists event. split; [done|]. apply bind_Ok. exists url. split; [done|]. by rewrite Hv. }
  by rewrite (request_signed_event CtUnauthorized _ _ _ _ _ _ _ _ Hs He).
Qed.

Lemma RelayTenantRecord_new_id id host pk secret nonce kid n d i b c ar pr pw ct ut r :
  RelayTenantRecord_new id host pk secret nonce kid n d i b c ar pr pw ct ut = Ok r → tn_id r = id.
Proof.
  unfold RelayTenantRecord_new. intros E. do 6 apply bind_Ok_unit in E as [_ E]. do 6 apply bind_Ok in E as (? & _ & E).
  by injection E as <-.
Qed.

Lemma create_tenant_effect secret_key nonce :
  ensures unchanged (create_tenant_handler now secret_key nonce q) (λ _, control_effect) (λ _, control_effect).
Proof.
  unfold create_tenant_handler.
  apply ensures_attempt; [intros event He|intros e s; apply unchanged_effect].
  apply ensures_attempt; [intros pk Hpk%map_err_Ok%ok_or_Ok|intros e s; apply unchanged_effect].
  apply ensures_attempt; [intros url Hu|intros e s; apply unchanged_effect].
  apply ensures_attempt; [intros a Ha%map_err_Ok|intros e s; apply unchanged_effect].
  pose proof (signed_from_parts _ _ _ He Hu Ha) as Hsig.
  assert (na_pubkey_bytes a = pk) as Hak by (destruct (request_signed_key Hsig) as [_ ?]; congruence). rewrite Hak in Hsig.
  apply ensures_attempt; [intros _ _|intros e s; apply unchanged_effect].
  apply ensures_attempt; [intros payload Hpay%map_err_Ok|intros e s; apply unchanged_effect].
  apply ensures_attempt; [intros host Hhost|intros e s; apply unchanged_effect].
  eapply ensures_bind; [eapply ensures_conseq; [apply tenant_step|intros x s Hs; exact Hs|intros e s; apply unchanged_effect]|].
  intros existing. apply ensures_attempt; [intros [] Hex%fail_if_Ok|intros e s [Hs _]; by apply unchanged_effect].
  destruct existing as [r0|]; [done|].
  apply ensures_attempt; [intros record Hrec%map_err_Ok%RelayTenantRecord_new_id|intros e s [Hs _]; by apply unchanged_effect].
  intros s r s' [Hs Hfree]. revert s r s' Hs. rewrite <-Hrec in *.
  change (ensures unchanged (_ ← on_tenants (upsert_tenant record);
    _ ← on_memberships (λ m, upsert_membership m (mkRelayMembershipRecord (tn_id record) pk "owner" "active" now now));
    mret (mkControlCreateTenantResponse (tn_id record) (tn_id record) (hex_encode (xonly_public secret_key)) ("wss://" +:+ tn_id record)
      (ne_pubkey event) "created")) (λ _, control_effect) (λ _, control_effect)).
  assert (∀ s, by_tenant s → control_effect s) as Hby by (intros s Hs; right; right; by right).
  apply ensures_bind with (M := λ _, control_view va vo (<[tn_id record := record]> vn) m (eq t)).
  { eapply ensures_conseq; [apply tenant_write|by intros x s Hs|]. intros e s [Hs|Hs]; [by apply unchanged_effect|].
    apply Hby. exists event, pk, payload, record. auto 6. }
  intros []. set (m' := (upsert_membership m (mkRelayMembershipRecord (tn_id record) pk "owner" "active" now now)).2).
  apply ensures_bind with (M := λ _, control_view va vo (<[tn_id record := record]> vn) m' (eq t)).
  - eapply ensures_conseq; [apply membership_step|by intros x s Hs|]. intros e s Hs. apply Hby. exists event, pk, payload, record. auto 6.
  - intros []. apply ensures_ret. intros s Hs. apply Hby. exists event, pk, payload, record. auto 6.
Qed.

Lemma create_repo_nostr_spec instants :
  ensures unchanged (create_repo_nostr_handler forgejo relay_urls public_git_url now instants q)
    (λ response s, ∃ signature pk payload, control_signed signature pk ∧
       repo_create_from_slice (hq_body q) = Ok payload ∧ repo_queued pk payload response s)
    (λ _, control_effect).
Proof.
  unfold create_repo_nostr_handler, control_authenticate.
  apply ensures_attempt; [intros caller (signature & Hsig & Hc)%authenticate_Ok|intros e s; apply unchanged_effect].
  apply ensures_attempt; [intros _ _|intros e s; apply unchanged_effect].
  apply ensures_attempt; [intros payload Hp%map_err_Ok|intros e s; apply unchanged_effect].
  rewrite Hc. cbn [na_pubkey]. eapply ensures_weaken; [by apply create_repo_from_signed_event_spec|done|].
  intros response s Hs. by exists signature, (na_pubkey_bytes caller), payload.
Qed.

Lemma repo_queued_effect signature pk payload response s :
  control_signed signature pk → repo_create_from_slice (hq_body q) = Ok payload →
  repo_queued pk payload response s → control_effect s.
Proof.
  intros Hsig Hbody (Hauth & owner & a & repo & vo' & Hown & Ha & _ & _ & _ & Hq & Hs). right. right. left.
  exists signature, pk, payload, owner, a. split_and!; [done..|]. right. exists repo. apply queued_some_all. by exists vo'.
Qed.

Lemma replied_effect {X} (f : X → ControlReply) c (Q : X → state → Prop) :
  ensures unchanged c Q (λ _, control_effect) → (∀ x s, Q x s → control_effect s) →
  ensures unchanged (replied f c) (λ _, control_effect) (λ _, control_effect).
Proof. intros Hc HQ. eapply ensures_bind; [exact Hc|]. intros x. apply ensures_ret. apply HQ. Qed.

Lemma extracted_effect {P X} (extract : HttpRequest → result (Z * string) P) (f : X → ControlReply) c :
  (∀ payload, ensures unchanged (c payload) (λ _, control_effect) (λ _, control_effect)) →
  ensures unchanged (extracted extract f c q) (λ _, control_effect) (λ _, control_effect).
Proof.
  intros Hc. unfold extracted. destruct (extract q) as [payload|[status message]].
  - eapply replied_effect; [apply Hc|done].
  - apply ensures_ret. intros s. apply unchanged_effect.
Qed.

Lemma apply_control_action_effect instants action :
  bears_token q →
  ensures unchanged (apply_control_action forgejo relay_urls public_git_url now instants action)
    (λ _, control_effect) (λ _, control_effect).
Proof.
  intros Hq. destruct action; [apply forge_last; [done|constructor]|apply forge_last; [done|constructor]| |apply forge_last; [done|constructor]].
  eapply ensures_bind; [by apply create_repo_with_announcement_effect|]. intros repo. by apply ensures_ret.
Qed.

(** A check that answers an error. *)
Lemma check_first {X Y} (x : result ControlHttpError X) (c : X → stateful state (fault ControlHttpError) Y) :
  (∀ a, ensures unchanged (c a) (λ _, control_effect) (λ _, control_effect)) →
  ensures unchanged (attempt x ≫= c) (λ _, control_effect) (λ _, control_effect).
Proof. intros Hc. apply ensures_attempt; [auto|intros e s; apply unchanged_effect]. Qed.

Lemma router_effect instants secret_key nonce path h :
  build_router auth forgejo relay_urls public_git_url now instants secret_key nonce path q = Some h →
  ensures unchanged h (λ _, control_effect) (λ _, control_effect).
Proof.
  unfold build_router. intros E. repeat case_bool_decide; simplify_eq.
  { apply ensures_ret. intros s. apply unchanged_effect. }
  all: destruct (hq_method q == "POST"); simplify_eq/=.
  - eapply replied_effect; [apply create_tenant_effect|done].
  - eapply replied_effect; [apply create_repo_nostr_spec|]. intros x s (signature & pk & payload & Hsig & Hp & Hq).
    by eapply repo_queued_effect.
  - apply extracted_effect. intros payload. apply token_first. intros Hq. repeat (apply check_first; intros _). apply forge_last; [done|constructor].
  - apply extracted_effect. intros payload. apply token_first. intros Hq. repeat (apply check_first; intros _). apply forge_last; [done|constructor].
  - apply extracted_effect. intros payload. apply token_first. intros Hq. do 8 (apply check_first; intros _).
    by apply create_repo_with_announcement_effect.
  - apply extracted_effect. intros payload. apply token_first. intros Hq. repeat (apply check_first; intros _). apply forge_last; [done|constructor].
  - apply extracted_effect. intros payload. apply token_first. intros Hq. do 4 (apply check_first; intros _).
    apply check_first. intros action. apply check_first. intros _. by apply apply_control_action_effect.
Qed.
End Effects.

(** C3: nothing changes without authority: a request to the service leaves accounts, outbox,
    tenants, memberships and forge as they were, unless it bears the token of the
    service, or is signed, in time and over its body, by a key.  A signed request asks the
    forge for the repository that its event announces, under the key's own account, and, if
    the forge makes one, queues that event, whose signature by the key holds, for relays; or
    it enters the tenant it names with the key as owner, under an id that is the host of no
    tenant (which may replace a tenant of that id with another host, C37), and changes nothing else.
    A request with the token asks the forge once, for a user, an organisation, a repository
    or a pull request, and may queue events; it never touches tenants and memberships.  No
    request removes or changes entries of the outbox. *)
Theorem control_requests_authorised now instants secret_key nonce path q h s va vo vn r s' :
  account_holds (ct_accounts s) va → outbox_holds (ct_outbox s) vo → tenant_holds (ct_tenants s) vn →
  build_router auth forgejo relay_urls public_git_url now instants secret_key nonce path q = Some h →
  h s = (r, s') → control_effect now q va vo vn (ct_memberships s) (ct_transport s) s'.
Proof.
  intros Ha Ho Hn Hh E. pose proof (router_effect now q va vo vn (ct_memberships s) (ct_transport s) _ _ _ _ _ Hh) as Hr.
  specialize (Hr s r s'). destruct r; by apply Hr.
Qed.

(** C24: a repository that is created is announced everywhere: when a signed request for a
    repository succeeds, the forge made a repository, which the answer names, for the
    account of the caller, with the identifier, description and privacy of the announcement
    that the caller sent; and the outbox has gained one pending entry per relay, in order,
    each with exactly the event the caller sent and under that account and repository.  The
    event is signed by the caller, names the caller as maintainer and every relay as its own. *)
Theorem repo_request_queued now instants q (s : state) va vo vn response (s' : state) :
  account_holds (ct_accounts s) va → outbox_holds (ct_outbox s) vo → tenant_holds (ct_tenants s) vn →
  create_repo_nostr_handler forgejo relay_urls public_git_url now instants q s = (Ok response, s') →
  ∃ signature pk payload owner a repo vo',
    control_signed now q signature pk ∧ repo_create_from_slice (hq_body q) = Ok payload ∧
    let event := rcq_event payload in
    event_authentic event pk ∧ va !! pk = Some owner ∧
    RepoAnnouncement_from_tags (sn_tags event) = Ok a ∧ sn_pubkey event ∈ an_maintainers a ∧
    (∀ url, url ∈ relay_urls → url ∈ an_relays a) ∧
    create_repo_for_owner forgejo owner (mkForgejoCreateRepo (normalize_identifier (an_identifier a)) (an_description a)
      (Some (default (fj_repo_private forgejo) (rcq_private payload))) None) (ct_transport s) = (Ok repo, ct_transport s') ∧
    response = mkRepoCreateResponse owner (fo_name repo) (fo_html_url repo) ∧
    queued (publish_request event owner (fo_name repo) (normalize_identifier (an_identifier a))) relay_urls vo vo' ∧
    account_holds (ct_accounts s') va ∧ outbox_holds (ct_outbox s') vo' ∧ tenant_holds (ct_tenants s') vn ∧
    ct_memberships s' = ct_memberships s.
Proof.
  intros Ha Ho Hn E.
  destruct (create_repo_nostr_spec now q va vo vn (ct_memberships s) (ct_transport s) instants s (Ok response) s')
    as (signature & pk & payload & Hsig & Hp & Hauth & owner & a & repo & vo' & Hown & Htags & Hm & Hr & Hresp & Hq & [? ? ? ? Hf]);
    [done|done|].
  by exists signature, pk, payload, owner, a, repo, vo'.
Qed.
End Facts.

(** ** Tenants whose host is not trimmed *)

Section Takeover.
Context {A O M T : Type} `{AccountRepository A} `{RelayPublishRepository O} `{RelayMembershipRepository M} `{ForgejoTransport T}.
Context `{HexLaws} `{TimeLib} `{JsonbLib} `{RowOrder} `{HttpLib} `{Base64Lib} `{Nip98Codec} `{JsonLib}.
Context `{SchnorrSlices} `{!CryptoLaws} `{SignerKeys} `{!SecretBytes} `{!ControlExtract}.

Abbreviation state := (ControlAppState A O (Database RepoTables) M T).
Abbreviation tenants_of s := (t_tenants (db_tables (ct_tenants (s : state)))).

(** The parts of the authentication of a request. *)
Lemma signed_parts now q event pk :
  control_signed now q event pk → ∃ url a,
    control_nostr_auth (hq_headers q) = Ok event ∧ parse_pubkey_bytes (ne_pubkey event) = Ok pk ∧
    control_request_url (hq_headers q) (hq_uri q) = Ok url ∧
    validate_nip98 event (mkNip98Request (hq_method q) url (nip98_payload_hash (hq_body q)) now MAX_SKEW_SECONDS) = Ok a.
Proof.
  intros Hs. destruct (request_signed_key Hs) as [_ Hk].
  assert (authenticate_as CtUnauthorized CtBadRequest uri_full_path MAX_SKEW_SECONDS now (nip98_payload_hash (hq_body q)) q
    = Ok (mkNip98Auth (ne_pubkey event) pk (ne_id event))) as Ha by (apply authenticate_Ok; by exists event).
  apply bind_Ok in Ha as (event' & He & Ha). apply bind_Ok in Ha as (url & Hu & Ha%map_err_Ok).
  pose proof (request_signed_event CtUnauthorized _ _ _ _ _ _ _ _ Hs He) as ->.
  exists url, (mkNip98Auth (ne_pubkey event) pk (ne_id event)). split_and!; [done|by apply ok_or_Ok|done|done].
Qed.

(** C37: a tenant can be taken from its owner: a host is normalised before its port is cut off,
    so a host with blanks before the port keeps them; the tenant's id then has the
    blanks and its stored host does not, and the check for an existing tenant, by host, misses it.
    Any other key that asks for the host in the same spelling gets the
    answer that the tenant was created: the tenant's relay key is replaced by a new one,
    and the caller is entered as its owner. *)
Theorem tenant_taken_over now secret_key nonce q event pk payload host old record (s : state) :
  db_outcomes (ct_tenants s) = [] → control_signed now q event pk → hq_body q ≠ "" →
  tenant_create_from_slice (hq_body q) = Ok payload → normalize_host (ctq_host payload) = Ok host →
  tenants_of s !! host = Some old → tn_host old = tn_host record →
  (∀ i r, tenants_of s !! i = Some r → tn_host r ≠ host ∧ (tn_host r = tn_host old → i = host)) →
  RelayTenantRecord_new host host (hex_encode (xonly_public secret_key)) (secret_bytes secret_key) nonce "local"
    (ctq_name payload) (ctq_description payload) (ctq_icon payload) (ctq_banner payload) (ctq_contact payload)
    (default true (ctq_auth_required payload)) (default false (ctq_public_read payload))
    (default false (ctq_public_write payload)) now now = Ok record →
  let membership := upsert_membership (ct_memberships s) (mkRelayMembershipRecord host pk "owner" "active" now now) in
  membership.1 = Ok tt →
  ∃ response s', create_tenant_handler now secret_key nonce q s = (Ok response, s') ∧
    ctr_status response = "created" ∧ ctr_owner_pubkey response = ne_pubkey event ∧
    tenants_of s' !! host = Some record ∧ tn_relay_secret record = secret_bytes secret_key ∧
    ct_memberships s' = membership.2.
Proof.
  intros Hout Hsig Hbody Hpay Hhost Hold Heq Huniq Hrec membership Hm.
  destruct (signed_parts _ _ _ _ Hsig) as (url & a & He & Hpk & Hu & Hv).
  destruct s as [sa so [tb os] sm st]. cbn [ct_tenants db_outcomes db_tables ct_memberships] in *. subst os.
  pose proof (RelayTenantRecord_new_id _ _ _ _ _ _ _ _ _ _ _ _ _ _ _ _ _ Hrec) as Hid.
  assert (pg_tenant_by_host host (mkDatabase tb []) = (Ok None, mkDatabase tb [])) as Hfind.
  { unfold pg_tenant_by_host, statement. cbn [db_tables db_outcomes]. do 2 f_equal.
    destruct (List.filter _ _) as [|r l] eqn:E; [done|]. exfalso.
    assert (In r (List.filter (λ r, tn_host r == host) (row_iter (map_to_list (t_tenants tb)).*2))) as Hin by (rewrite E; by left).
    apply filter_In in Hin as [Hin Hh%String.eqb_eq]. apply list_elem_of_In in Hin. rewrite row_iter_perm in Hin.
    apply list_elem_of_fmap in Hin as ([i r'] & -> & Hin%elem_of_map_to_list). by destruct (Huniq _ _ Hin). }
  assert (pg_upsert_tenant record (mkDatabase tb []) = (Ok tt, mkDatabase (put_tenants tb (<[host := record]> (t_tenants tb))) [])) as Hput.
  { unfold pg_upsert_tenant, try_statement. cbn [db_tables db_outcomes]. rewrite Hid.
    assert (clashes tn_host host (tn_host record) (t_tenants tb) = false) as ->; [|done].
    apply clashes_false. intros i r Hr Hh. apply (Huniq _ _ Hr). congruence. }
  unfold create_tenant_handler, attempt, on_tenants, on_memberships, mbind, stateful_bind, lift.
  rewrite He. cbn [map_err]. rewrite Hpk. cbn [map_err]. rewrite Hu. cbn [map_err]. rewrite Hv. cbn [map_err].
  unfold fail_if. rewrite (proj2 (bool_decide_eq_false _) Hbody : is_empty (hq_body q) = false). cbn [map_err].
  rewrite Hpay. cbn [map_err]. rewrite Hhost. cbn [map_err ct_tenants tenant_by_host Postgres_tenants].
  rewrite Hfind. cbn [map_err is_some ct_tenants ct_accounts ct_outbox ct_memberships ct_transport]. rewrite Hrec.
  cbn [map_err upsert_tenant Postgres_tenants ct_tenants]. rewrite Hput. cbn [map_err ct_memberships].
  fold membership. destruct membership as [rm m'] eqn:Em. simpl in Hm. subst rm. cbn [map_err].
  eexists _, _. split; [reflexivity|]. cbn. split_and!; [done|done|by rewrite lookup_insert_eq| |done].
  unfold RelayTenantRecord_new in Hrec. do 6 apply bind_Ok_unit in Hrec as [_ Hrec].
  do 6 apply bind_Ok in Hrec as (? & _ & Hrec). by injection Hrec as <-.
Qed.
End Takeover.

(** ** A service for two keys *)

Module ControlSample.
#[local] Existing Instances json_model hex_model hex_model_laws crypto_model slices_model crypto_model_laws k256_model.
#[local] Existing Instances http_model base64_model time_model time_model_laws sample_url_lib.
#[local] Instance jsonbs : JsonbLib := {| jsonb := string; jsonb_in s := Some s; jsonb_out s := s |}.
#[local] Instance rows : RowOrder := {| row_iter A l := l; row_iter_perm A l := reflexivity l |}.
#[local] Instance hashes : HashOrder := sample_hash_order.
#[local] Instance signer : SignerLib :=
  {| SecretKey := string; secret_from_slice b := Some b; sign_schnorr k m := m +:+ digest_model k |}.
#[local] Instance keys : SignerKeys := {| xonly_public k := digest_model k; secret_key_error _ := "malformed" |}.
#[local] Instance secrets : SecretBytes := {| secret_bytes k := k |}.
#[local] Instance npubs : Bech32Encode := {| bech32_encode _ _ := Some "npub1abc" |}.
#[local] Instance npub_reader : Bech32Lib := sample_bech32_lib.
#[local] Instance actions : ControlActionCodec := {| control_action_from_str _ := None |}.
#[local] Instance transport : ForgejoTransport unit := {| send _ := λ s, (Ok (mkForgejoResponse 201 "repo"), s) |}.
#[local] Instance forge_codec : ForgejoCodec := {|
  repo_from_str _ := Ok (mkForgejoRepoResponse "gt_ada/r" "r" "gt_ada" None); user_from_str _ := Err "json";
  org_from_str _ := Err "json"; pull_request_from_str _ := Err "json"; hooks_from_str _ := Err "json"
|}.

Definition ada : bytes := sample_secret.
Definition eve : bytes := "fedcba9876543210fedcba9876543210".
Definition sign_with (secret : bytes) (path body : string) : Nip98Event :=
  match nip98_sign_event secret "POST" ("https://control" +:+ path) (nip98_payload_hash body) 100 with
  | Ok event => event
  | Err _ => mkNip98Event "" "" 0 0 [] "" ""
  end.
#[local] Instance codec : Nip98Codec := {|
  nip98_from_slice b :=
    if b == "ada-tenant" then Some (sign_with ada "/v1/relay/tenants" "tenant")
    else if b == "eve-tenant" then Some (sign_with eve "/v1/relay/tenants" "tenant")
    else if b == "ada-plain" then Some (sign_with ada "/v1/relay/tenants" "plain")
    else if b == "ada-repo" then Some (sign_with ada "/v1/repos" "repo") else None
|}.

(** The announcement of a repository that the first key signed. *)
Definition pubkey : string := hex_encode ada.
Definition tags : tag_list :=
  [["d"; "r"]; ["clone"; "https://git/npub1abc/r.git"]; ["relays"; "wss://one"; "wss://two"]; ["maintainers"; pubkey]].
Definition event : SignedNostrEvent :=
  let e := mkSignedNostrEvent "" pubkey 90 KIND_GIT_REPO_ANNOUNCEMENT tags "" "" in
  mkSignedNostrEvent (control_event_id e) pubkey 90 KIND_GIT_REPO_ANNOUNCEMENT tags ""
    (hex_encode (default "" (hex_decode (control_event_id e)) +:+ ada)).
#[local] Instance extractors : ControlExtract := {|
  extract_user _ := Err (415%Z, "json"); extract_org _ := Err (415%Z, "json"); extract_repo _ := Err (415%Z, "json");
  extract_pull _ := Err (415%Z, "json"); extract_event _ := Err (415%Z, "json");
  repo_create_from_slice b := if b == "repo" then Ok (mkRepoCreateRequest event None) else Err "json";
  tenant_create_from_slice b :=
    if b == "tenant" then Ok (mkControlCreateTenantRequest "relay.example :443" None None None None None None None None)
    else if b == "plain" then Ok (mkControlCreateTenantRequest "Relay.Example:443" None None None None None None None None)
    else Err "json"
|}.

Definition auth : ControlAuthConfig := mkControlAuthConfig "token" [].
Definition forgejo : ForgejoConfig := mkForgejoConfig "http://forge" "token" "gittree" "http://hook" "secret" false.
Definition relays : list string := ["wss://one"; "wss://two"].
Definition request (token path body : string) : HttpRequest :=
  mkHttpRequest http_model "POST" (mkUri path None (Some path))
    [("authorization", "Nostr " +:+ token); ("host", "control"); ("x-forwarded-proto", "https")] body.
Abbreviation sample_state := (ControlAppState MemoryAccounts MemoryOutbox (Database RepoTables) MemoryMembership unit).
Definition start : sample_state :=
  mkControlAppState (upsert_account_mem (mkAccountRecord ada "gt_ada") (mkMemoryAccounts ∅ ∅)).2
    (mkMemoryOutbox 0 ∅) (mkDatabase (mkRepoTables [] [] ∅ ∅ ∅ ∅ ∅) []) (mkMemoryMembership ∅ ∅) tt.

Definition accounts : gmap bytes string := {[ada := "gt_ada"]}.

Lemma start_accounts : account_holds (ct_accounts start) accounts.
Proof.
  pose proof (upsert_account_mem_spec (mkAccountRecord ada "gt_ada") (mkMemoryAccounts ∅ ∅) ∅) as Hs.
  cbn [start ct_accounts]. destruct (upsert_account_mem _ _) as [[[]|e] m] eqn:E; [|by vm_compute in E]. apply Hs. by split.
Qed.
Lemma start_outbox : outbox_holds (ct_outbox start) ∅.
Proof. split; [done|]. by intros id e ?%lookup_empty_Some. Qed.
Lemma start_tenants : tenant_holds (ct_tenants start) ∅.
Proof. split; [done|]. split; [by intros i r ?%lookup_empty_Some|by intros i j r r' ?%lookup_empty_Some]. Qed.

Definition repo_request : HttpRequest := request "ada-repo" "/v1/repos" "repo".

Lemma control_requests_authorised_witness :
  ∃ h : stateful sample_state (fault ControlHttpError) ControlReply,
    build_router (A:=MemoryAccounts) (O:=MemoryOutbox) (N:=Database RepoTables) (M:=MemoryMembership) (T:=unit)
      auth forgejo relays "https://git" 120 Z.of_nat "key" "nonce" ["v1"; "repos"] repo_request = Some h ∧
    is_ok (h start).1 = true ∧ control_effect auth forgejo relays 120 repo_request accounts ∅ ∅ (mkMemoryMembership ∅ ∅) tt (h start).2.
Proof.
  eexists. split; [reflexivity|]. split; [by vm_compute|].
  match goal with |- control_effect _ _ _ _ _ _ _ _ _ _ (?h start).2 => destruct (h start) as [r s'] eqn:E; simpl;
    exact (control_requests_authorised (A:=MemoryAccounts) (O:=MemoryOutbox) (N:=Database RepoTables) (M:=MemoryMembership) (T:=unit) auth forgejo relays "https://git" 120 Z.of_nat "key" "nonce" ["v1"; "repos"]
      repo_request h start accounts ∅ ∅ r s' start_accounts start_outbox start_tenants eq_refl E) end.
Defined.

Lemma repo_request_queued_witness :
  ∃ response s' a vo', create_repo_nostr_handler forgejo relays "https://git" 120 Z.of_nat repo_request start = (Ok response, s') ∧
    rcs_owner response = "gt_ada" ∧
    queued (publish_request event "gt_ada" (rcs_name response) (normalize_identifier (an_identifier a)))
      relays ∅ vo'.
Proof.
  assert (is_ok (create_repo_nostr_handler forgejo relays "https://git" 120 Z.of_nat repo_request start).1 = true) as Hok
    by (vm_compute; reflexivity).
  destruct (create_repo_nostr_handler forgejo relays "https://git" 120 Z.of_nat repo_request start) as [[response|e] s'] eqn:E;
    [clear Hok|discriminate Hok].
  destruct (repo_request_queued (A:=MemoryAccounts) (O:=MemoryOutbox) (N:=Database RepoTables) (M:=MemoryMembership) (T:=unit) auth forgejo relays "https://git" 120 Z.of_nat repo_request start accounts ∅ ∅ response s'
    start_accounts start_outbox start_tenants E) as (signature & pk & payload & owner & a & repo & vo' & _ & Hp & _ & Hown & _ & _ & _ & _ & -> & Hq & _).
  injection Hp as <-. unfold accounts in Hown. apply lookup_singleton_Some in Hown as [<- <-]. eexists _, s', a, vo'. split; [reflexivity|].
  split; [reflexivity|exact Hq].
Defined.

(** The first key's tenant, and the second key's request. *)
Definition ada_tenant : HttpRequest := request "ada-tenant" "/v1/relay/tenants" "tenant".
Definition eve_tenant : HttpRequest := request "eve-tenant" "/v1/relay/tenants" "tenant".
Definition tenant (secret : bytes) (now : Z) : RelayTenantRecord :=
  mkRelayTenantRecord "relay.example " "relay.example" secret secret "nonce" "local" None None None None None true false false now now.
Definition after_ada : sample_state :=
  (create_tenant_handler 110 ada "nonce" ada_tenant start).2.

Lemma eve_signed : ∃ event pk, control_signed 120 eve_tenant event pk ∧ pk = eve.
Proof.
  destruct (authenticate_as id id uri_full_path MAX_SKEW_SECONDS 120 (nip98_payload_hash (hq_body eve_tenant)) eve_tenant)
    as [a|] eqn:E; [|by vm_compute in E].
  pose proof E as (event' & Hs & _)%authenticate_Ok. exists event', (na_pubkey_bytes a). split; [exact Hs|].
  vm_compute in E. by injection E as <-.
Qed.

Lemma tenant_taken_over_witness :
  t_tenants (db_tables (ct_tenants after_ada)) !! "relay.example " = Some (tenant ada 110) ∧
  ∃ response s', create_tenant_handler 120 eve "nonce" eve_tenant after_ada = (Ok response, s') ∧
    ctr_status response = "created" ∧ t_tenants (db_tables (ct_tenants s')) !! "relay.example " = Some (tenant eve 120).
Proof.
  split; [by vm_compute|]. destruct eve_signed as (event' & pk & Hsig & ->).
  destruct (tenant_taken_over 120 (eve : @SecretKey signer) "nonce" eve_tenant event' eve
    (mkControlCreateTenantRequest "relay.example :443" None None None None None None None None) "relay.example "
    (tenant ada 110) (tenant eve 120) after_ada) as (response & s' & E & Hst & _ & Ht & _).
  - by vm_compute.
  - exact Hsig.
  - discriminate.
  - reflexivity.
  - by vm_compute.
  - by vm_compute.
  - reflexivity.
  - intros i r Hi.
    assert (t_tenants (db_tables (ct_tenants after_ada)) = {["relay.example " := tenant ada 110]}) as Eq by (by vm_compute).
    rewrite Eq in Hi. apply lookup_singleton_Some in Hi as [<- <-]. split; [discriminate|done].
  - by vm_compute.
  - by vm_compute.
  - exists response, s'. split; [exact E|]. split; [exact Hst|exact Ht].
Defined.
End ControlSample.
