(* ===== verification/Coordinator.v ===== *)
(** * [Coordinator]: provisioning repositories and publishing the outbox

    Models [services/coordinator/src/lib.rs]: an announcement of a repository
    leads to a record of it, a repository and a webhook at the forge
    ([Forgejo]), a mapping between both, and a bare repository with its hooks on
    disk; a loop publishes the events of the outbox ([Outbox]) to relays and
    finalises the announcements that are published everywhere.  The file system
    and git are a class, the publication of an event is an argument as in the
    code, where [publish_to_relay] is passed.  The theorems are about the loop, against [OutboxLaws], and about where
    repositories are created. *)

From S2P Require Import Prelude RustStr CoreTypes Externals HexModel Nip34Common Grasp Nip34Repo Nip34Events.
From S2P Require Import Membership NostrAuth Database HttpAuth RelayAdapter Dispatch Config Repositories StateService Outbox Forgejo.

(** ** Paths and files *)

(** [Path::join] of a path that is UTF-8, on Unix. *)
Definition path_join (base path : string) : string :=
  if starts_with "/" path then path
  else if is_empty base || ends_with "/" base then base +:+ path
  else base +:+ "/" +:+ path.

(** The components of a path, the last one first, where [..] has no name; a
    leading [/] or [.] has none either and nothing comes before it. *)
Definition path_components (path : string) : list (option string) :=
  (λ c, if c == ".." then None else Some c) <$>
    rev (List.filter (λ c, negb (is_empty c) && negb (c == ".")) (split "/" path)).

(** [std::fs] and [git], which prints to its standard error. *)
Class FileSystem (F : Type) := {
  path_exists : string → F → bool;
  path_is_dir : string → F → bool;
  create_dir_all : string → stateful F string unit;
  copy_file : string → string → stateful F string unit;
  read_mode : string → stateful F string Z;
  set_mode : string → Z → stateful F string unit;
  run_git : list string → stateful F string (bool * string)
}.

(** ** Configuration *)

Record HookInstallConfig := mkHookInstallConfig { hi_pre_receive_source : string; hi_post_receive_source : string }.
Record CoordinatorConfig := mkCoordinatorConfig {
  co_bind : string; co_storage : StorageConfig; co_relay_urls : list string; co_repo_root : string;
  co_hooks : HookInstallConfig; co_forgejo : ForgejoConfig
}.

Inductive CoordinatorConfigError :=
| CcConfig (err : ConfigError)
| CcStorage (err : StorageConfigError)
| CcMissingEnv (key : string)
| CcInvalidEnv (key value : string).

Definition CoordinatorConfigError_display (e : CoordinatorConfigError) : string :=
  match e with
  | CcConfig err => "coordinator config error: " +:+ ConfigError_display err
  | CcStorage err => "coordinator storage config error: " +:+ StorageConfigError_display err
  | CcMissingEnv key => "missing env " +:+ key
  | CcInvalidEnv key value => "invalid env " +:+ key +:+ ": " +:+ value
  end.

(** [storage_from_env], [env_u32] and [env_u64] read the variables the way the
    state service does. *)
Definition coordinator_storage_from_env (get_var : environment) : result CoordinatorConfigError StorageConfig :=
  map_err CcStorage (state_storage_from_env get_var).

Definition coordinator_env_path (get_var : environment) (key : string) : result CoordinatorConfigError string :=
  value ← ok_or (CcMissingEnv key) (get_var key);
  if is_blank value then Err (CcInvalidEnv key value) else Ok value.

Definition CoordinatorConfig_from_env `{UrlLib} (get_var : environment) : result CoordinatorConfigError CoordinatorConfig :=
  services ← map_err CcConfig (ServicesConfig_from_env_validated_with get_var);
  storage ← coordinator_storage_from_env get_var;
  relay_targets ← map_err CcConfig (RelayTargetsConfig_from_env_validated get_var);
  repo_root ← coordinator_env_path get_var "GITTREE_COORDINATOR_REPO_ROOT";
  pre_receive_source ← coordinator_env_path get_var "GITTREE_COORDINATOR_PRE_RECEIVE_HOOK";
  post_receive_source ← coordinator_env_path get_var "GITTREE_COORDINATOR_POST_RECEIVE_HOOK";
  forgejo ← map_err CcConfig (ForgejoConfig_from_env_with get_var);
  Ok (mkCoordinatorConfig (sv_coordinator services) storage (rt_relay_urls relay_targets) repo_root
        (mkHookInstallConfig pre_receive_source post_receive_source) forgejo).

(** ** Provisioning on disk *)

Record GitConfigEntry := mkGitConfigEntry { gc_key : string; gc_value : string }.
Record RepoProvisionPlan := mkRepoProvisionPlan {
  pp_npub : string; pp_identifier : string; pp_repo_path : string; pp_hooks_dir : string;
  pp_pre_receive_hook : string; pp_post_receive_hook : string; pp_git_config : list GitConfigEntry
}.
Inductive ProvisionPlanError := PpInvalidRepo (message : string).
Definition ProvisionPlanError_display (e : ProvisionPlanError) : string :=
  match e with PpInvalidRepo message => message end.

Definition default_repo_config : list GitConfigEntry :=
  [mkGitConfigEntry "core.bare" "true"; mkGitConfigEntry "receive.advertisePushOptions" "true"].

Definition build_provision_plan `{Bech32Lib} (root npub : string) (a : RepoAnnouncement)
    : result ProvisionPlanError RepoProvisionPlan :=
  let repo_path := path_join (path_join root npub) (an_identifier a +:+ ".git") in
  _ ← map_err (λ err, PpInvalidRepo (CoreError_display err)) (parse_repo_path (path_components repo_path));
  let hooks_dir := path_join repo_path "hooks" in
  Ok (mkRepoProvisionPlan npub (an_identifier a) repo_path hooks_dir (path_join hooks_dir "pre-receive")
        (path_join hooks_dir "post-receive") default_repo_config).

Record RepoInitReport := mkRepoInitReport { ri_created : bool; ri_configured : nat }.
Inductive RepoInitError := RiIo (err : string) | RiInvalidRepo (message : string)
| RiInvalidPath (message : string) | RiGit (message : string).
Definition RepoInitError_display (e : RepoInitError) : string :=
  match e with
  | RiIo err => "repo init io error: " +:+ err
  | RiInvalidRepo message | RiInvalidPath message | RiGit message => message
  end.

Inductive HookInstallError := HiIo (err : string) | HiMissingSource (path : string).
Definition HookInstallError_display (e : HookInstallError) : string :=
  match e with
  | HiIo err => "hook install io error: " +:+ err
  | HiMissingSource path => "missing hook source: " +:+ path
  end.

Section Provision.
Context {F : Type} `{FileSystem F}.

Definition git_command (failure : string) (args : list string) : stateful F RepoInitError unit :=
  output ← map_err_st RiIo (run_git args);
  lift (fail_if (negb output.1) (RiGit (failure +:+ output.2))).

Definition create_bare_repo (path : string) : stateful F RepoInitError unit :=
  git_command "git init failed: " ["init"; "--bare"; path].
Definition apply_git_config (path : string) (entry : GitConfigEntry) : stateful F RepoInitError unit :=
  git_command "git config failed: " ["-C"; path; "config"; gc_key entry; gc_value entry].

Definition init_repo (plan : RepoProvisionPlan) : stateful F RepoInitError RepoInitReport := λ f,
  (created ← (if path_exists (pp_repo_path plan) f then
                _ ← lift (fail_if (negb (path_is_dir (pp_repo_path plan) f))
                            (RiInvalidRepo ("repo path is not a directory: " +:+ pp_repo_path plan)));
                _ ← lift (fail_if (negb (path_exists (path_join (pp_repo_path plan) "HEAD") f))
                            (RiInvalidRepo ("repo path missing HEAD: " +:+ pp_repo_path plan)));
                lift (Ok false)
              else
                _ ← create_bare_repo (pp_repo_path plan);
                lift (Ok true));
   _ ← for_each (apply_git_config (pp_repo_path plan)) (pp_git_config plan);
   lift (Ok (mkRepoInitReport created (length (pp_git_config plan))))) f.

Definition ensure_source_exists (path : string) : stateful F HookInstallError unit := λ f,
  (fail_if (negb (path_exists path f)) (HiMissingSource path), f).

Definition ensure_executable (path : string) : stateful F HookInstallError unit :=
  _ ← map_err_st HiIo (read_mode path);
  map_err_st HiIo (set_mode path 493).   (* 0o755 *)

Definition install_hook (source destination : string) : stateful F HookInstallError unit :=
  _ ← map_err_st HiIo (copy_file source destination);
  ensure_executable destination.

Definition install_hooks (plan : RepoProvisionPlan) (config : HookInstallConfig)
    : stateful F HookInstallError nat :=
  _ ← ensure_source_exists (hi_pre_receive_source config);
  _ ← ensure_source_exists (hi_post_receive_source config);
  _ ← map_err_st HiIo (create_dir_all (pp_hooks_dir plan));
  _ ← install_hook (hi_pre_receive_source config) (pp_pre_receive_hook plan);
  _ ← install_hook (hi_post_receive_source config) (pp_post_receive_hook plan);
  lift (Ok 2).
End Provision.

(** ** Events *)

Record RelayEvent := mkRelayEvent {
  re_kind : Z; re_event_id : string; re_pubkey : string; re_created_at : Z; re_tags : tag_list
}.

Definition signed_event_from_job `{HexLib} (job : RelayPublishJob) : SignedNostrEvent :=
  let e := jb_entry job in
  mkSignedNostrEvent (hex_encode (en_event_id e)) (hex_encode (en_pubkey e)) (en_created_at e) (en_kind e)
    (en_tags e) (en_content e) (hex_encode (en_sig e)).
Definition relay_event_from_job `{HexLib} (job : RelayPublishJob) : RelayEvent :=
  let e := jb_entry job in
  mkRelayEvent (en_kind e) (hex_encode (en_event_id e)) (hex_encode (en_pubkey e)) (en_created_at e) (en_tags e).

Definition OUTBOX_RETRY_BASE_SECS : Z := 30.
Definition OUTBOX_RETRY_MAX_SECS : Z := 30 * 60.
(** Nanoseconds, as the instants of the outbox. *)
Definition nanos (seconds : Z) : Z := (seconds * 1000000000)%Z.
Definition retry_after (now attempt_count : Z) : Z :=
  let attempt := Z.max attempt_count 1 in
  let delay := Z.min (saturate_i64 (OUTBOX_RETRY_BASE_SECS * attempt)) OUTBOX_RETRY_MAX_SECS in
  (now + nanos delay)%Z.

Inductive CoordinatorAction := Provisioned (repo_path : string) | SkippedExisting (repo_path : string) | Ignored.

Inductive CoordinatorEventError :=
| CeParse (message : string)
| CeMissingNpub
| CePlan (err : ProvisionPlanError)
| CeInit (err : RepoInitError)
| CeHooks (err : HookInstallError)
| CeStorage (err : StorageError)
| CeForgejo (err : ForgejoError)
| CeMapping (err : CoreError).

Definition CoordinatorEventError_display (e : CoordinatorEventError) : string :=
  match e with
  | CeParse message => message
  | CeMissingNpub => "missing npub in clone urls"
  | CePlan err => ProvisionPlanError_display err
  | CeInit err => RepoInitError_display err
  | CeHooks err => HookInstallError_display err
  | CeStorage err => "storage error: " +:+ StorageError_display err
  | CeForgejo err => ForgejoError_display err
  | CeMapping err => CoreError_display err
  end.

(** The announcement that an event is, [None] for another event. *)
Definition announcement_of `{UrlLib} `{HashOrder} (event : RelayEvent) : result CoordinatorEventError (option RepoAnnouncement) :=
  parsed ← map_err (λ err, CeParse (CoreError_display err)) (parse_validated (re_kind event) (re_tags event));
  Ok (match parsed with ERepoAnnouncement a => Some a | _ => None end).

Section Handle.
Context {F : Type} `{FileSystem F} `{UrlLib} `{HashOrder} `{Bech32Lib}.

Definition carry_out (plan : RepoProvisionPlan) (hooks : HookInstallConfig)
    : stateful F CoordinatorEventError CoordinatorAction := λ f,
  if path_exists (pp_repo_path plan) f then (Ok (SkippedExisting (pp_repo_path plan)), f)
  else
    (_ ← map_err_st CeInit (init_repo plan);
     _ ← map_err_st CeHooks (install_hooks plan hooks);
     lift (Ok (Provisioned (pp_repo_path plan)))) f.

Definition handle_announcement_event (root : string) (hooks : HookInstallConfig) (event : RelayEvent)
    : stateful F CoordinatorEventError CoordinatorAction :=
  announcement ← lift (announcement_of event);
  match announcement with
  | None => lift (Ok Ignored)
  | Some a =>
      npub ← lift (ok_or CeMissingNpub (find_map (λ url, ok (extract_npub url)) (an_clone a)));
      plan ← lift (map_err CePlan (build_provision_plan root npub a));
      carry_out plan hooks
  end.
End Handle.

(** The first eight bytes, unless the key is shorter or they end inside a character. *)
Definition forgejo_repo_name (identifier pubkey : string) : string :=
  identifier +:+ "--" +:+ default pubkey (slice_to 8 pubkey).

(** ** The service *)

(** What the service acts on. *)
Record CoordinatorState (O R T F : Type) := mkCoordinatorState {
  cs_outbox : O; cs_repositories : R; cs_transport : T; cs_files : F
}.
Arguments mkCoordinatorState {O R T F} _ _ _ _.
Arguments cs_outbox {O R T F} _.
Arguments cs_repositories {O R T F} _.
Arguments cs_transport {O R T F} _.
Arguments cs_files {O R T F} _.

(** What does not change. *)
Record CoordinatorAppState := mkCoordinatorAppState {
  ca_repo_root : string; ca_hooks : HookInstallConfig; ca_forgejo : ForgejoConfig
}.

Record CoordinatorEventPayload := mkCoordinatorEventPayload {
  ce_kind : Z; ce_event_id : string; ce_pubkey : string; ce_created_at : Z; ce_tags : tag_list
}.
Inductive CoordinatorActionPayload :=
| ProvisionedPayload (repo_path : string)
| SkippedExistingPayload (repo_path : string)
| IgnoredPayload.
Definition CoordinatorActionPayload_from (action : CoordinatorAction) : CoordinatorActionPayload :=
  match action with
  | Provisioned repo_path => ProvisionedPayload repo_path
  | SkippedExisting repo_path => SkippedExistingPayload repo_path
  | Ignored => IgnoredPayload
  end.

Inductive CoordinatorHttpError := ChBadRequest (message : string) | ChInternal (message : string).
Definition CoordinatorHttpError_from (err : CoordinatorEventError) : CoordinatorHttpError :=
  match err with
  | CeParse message => ChBadRequest message
  | CeMissingNpub => ChBadRequest "missing npub"
  | CePlan err => ChInternal (ProvisionPlanError_display err)
  | CeInit err => ChInternal (RepoInitError_display err)
  | CeHooks err => ChInternal (HookInstallError_display err)
  | CeStorage err => ChInternal (StorageError_display err)
  | CeForgejo err => ChInternal (ForgejoError_display err)
  | CeMapping err => ChInternal (CoreError_display err)
  end.
Definition CoordinatorHttpError_into_response (e : CoordinatorHttpError) : Z * string :=
  match e with ChBadRequest message => (400, message)%Z | ChInternal message => (500, message)%Z end.

(** The publication of an event with the adapter's default timeout; [None] while it waits,
    and when it panics there is no answer either. *)
Definition publish_to_relay `{JsonLib} `{JsonErrors} `{HexLib} `{CryptoLib} `{SignerKeys} `{UrlScheme}
    (w : Surroundings) (relay_url : string) (event : SignedNostrEvent) : option (result string unit) :=
  match (publish_event (mkWebsocketRelayAdapter (RelayAdapterConfig_new relay_url)) event w).1 with
  | Ok None => None
  | Ok (Some _) => Some (Ok tt)
  | Err (Raised err) => Some (Err (RelayAdapterError_display err))
  | Err Panicked => None
  end.

Lemma publish_acknowledged `{JsonLib} `{JsonErrors} `{HexLib} `{CryptoLib} `{SignerKeys} `{UrlScheme} w relay_url event :
  publish_to_relay w relay_url event = Some (Ok tt) → relay_acknowledged (RelayAdapterConfig_new relay_url) event w.
Proof.
  unfold publish_to_relay. intros Hp. apply publish_Ok.
  by destruct (publish_event _ _ _).1 as [[[]|]|[]].
Qed.

(** One turn of the loop: the time, and what relays answer. *)
Record Turn := mkTurn { tn_now : Z; tn_publish : string → SignedNostrEvent → result string unit }.

Section Service.
Context {O R T F : Type} `{RelayPublishRepository O} `{AnnouncementRepository R} `{RepoMappingRepository R}.
Context `{ForgejoTransport T} `{FileSystem F} `{HexLib} `{UrlLib} `{HashOrder} `{Bech32Lib} `{ForgejoCodec} `{JsonLib}.
Context (app : CoordinatorAppState).

Abbreviation state := (CoordinatorState O R T F).
Abbreviation run := (stateful state CoordinatorEventError).

Definition on_repositories {A} (c : stateful R StorageError A) : run A := λ s,
  let '(r, repositories) := c (cs_repositories s) in
  (map_err CeStorage r, mkCoordinatorState (cs_outbox s) repositories (cs_transport s) (cs_files s)).
Definition on_forgejo {A} (c : stateful T ForgejoError A) : run A := λ s,
  let '(r, transport) := c (cs_transport s) in
  (map_err CeForgejo r, mkCoordinatorState (cs_outbox s) (cs_repositories s) transport (cs_files s)).
Definition on_files {A} (c : stateful F CoordinatorEventError A) : run A := λ s,
  let '(r, files) := c (cs_files s) in
  (r, mkCoordinatorState (cs_outbox s) (cs_repositories s) (cs_transport s) files).
(** The outbox never fails the loop: a turn looks at the result. *)
Definition on_outbox {A} (c : stateful O StorageError A) (s : state) : result StorageError A * state :=
  let '(r, outbox) := c (cs_outbox s) in
  (r, mkCoordinatorState outbox (cs_repositories s) (cs_transport s) (cs_files s)).

(** What both ways of handling an announcement share: it is recorded, the forge
    is set up by [setup_repo] and [setup_webhook], the mapping is stored and the
    repository is provisioned. *)
Definition provision (event : RelayEvent) (a : RepoAnnouncement)
    (setup_repo : stateful T ForgejoError ForgejoRepo) (setup_webhook : string → stateful T ForgejoError unit)
    : run CoordinatorAction :=
  record ← lift (map_err CeStorage
    (RepoAnnouncementRecord_new (re_event_id event) (re_pubkey event) (re_created_at event) a));
  let mapping_pubkey := ra_rec_pubkey record in
  _ ← on_repositories (insert_announcement record);
  repo ← on_forgejo setup_repo;
  _ ← on_forgejo (setup_webhook (fo_name repo));
  mapping ← lift (map_err CeMapping
    (RepoMapping_new (fo_owner repo) (fo_name repo) (re_pubkey event) (an_identifier a)));
  _ ← on_repositories (upsert_mapping (mkRepoMappingRecord (fr_owner (rm_forgejo mapping))
        (fr_name (rm_forgejo mapping)) mapping_pubkey (rm_identifier mapping)));
  on_files (handle_announcement_event (ca_repo_root app) (ca_hooks app) event).

Definition finalize_outbox_job (job : RelayPublishJob) : run unit :=
  let event := relay_event_from_job job in
  let owner := en_forgejo_owner (jb_entry job) in
  announcement ← lift (announcement_of event);
  match announcement with
  | None => lift (Ok tt)
  | Some a =>
      _ ← provision event a
        (ensure_repo_for_owner (ca_forgejo app) owner (en_forgejo_repo (jb_entry job)) (an_description a))
        (ensure_webhook_for_owner (ca_forgejo app) owner);
      lift (Ok tt)
  end.

Definition handle_announcement_event_with_storage (event : RelayEvent) : run CoordinatorAction :=
  announcement ← lift (announcement_of event);
  match announcement with
  | None => lift (Ok Ignored)
  | Some a =>
      provision event a
        (ensure_repo (ca_forgejo app) (forgejo_repo_name (an_identifier a) (re_pubkey event)) (an_description a))
        (ensure_webhook (ca_forgejo app))
  end.

(** The [u64] kind of the payload must be a [u32]. *)
Definition announcement_handler (payload : CoordinatorEventPayload)
    : stateful state CoordinatorHttpError CoordinatorActionPayload :=
  _ ← lift (fail_if (bool_decide (u32_max < ce_kind payload)%Z) (ChBadRequest "invalid kind"));
  let event := mkRelayEvent (ce_kind payload) (ce_event_id payload) (ce_pubkey payload) (ce_created_at payload)
                 (ce_tags payload) in
  action ← map_err_st CoordinatorHttpError_from (handle_announcement_event_with_storage event);
  lift (Ok (CoordinatorActionPayload_from action)).

(** One turn of [publish_outbox_loop_with_delay_and_publish]; a wait before the
    next turn shows in its time only. *)
Definition publish_turn (t : Turn) (s : state) : state :=
  let '(job, s) := on_outbox (claim_relay_publish (tn_now t)) s in
  match job with
  | Err _ => s
  | Ok None => s
  | Ok (Some job) =>
      match tn_publish t (en_relay_url (jb_entry job)) (signed_event_from_job job) with
      | Ok _ =>
          let '(marked, s) := on_outbox (mark_relay_publish_succeeded (jb_id job)) s in
          match marked with
          | Err _ => s
          | Ok _ =>
              let '(pending, s) := on_outbox (pending_relay_publishes (en_pubkey (jb_entry job))
                                     (en_identifier (jb_entry job)) (en_kind (jb_entry job))) s in
              match pending with
              | Ok n => if bool_decide (n = 0)%Z then (finalize_outbox_job job s).2 else s
              | Err _ => s
              end
          end
      | Err err =>
          (on_outbox (mark_relay_publish_failed (jb_id job) err
             (retry_after (tn_now t) (jb_attempt_count job))) s).2
      end
  end.

Definition publish_outbox_loop (turns : list Turn) (s : state) : state := foldl (λ s t, publish_turn t s) s turns.
End Service.
