(* ===== verification/CoordinatorFacts.v ===== *)
(** * [CoordinatorFacts]: the publishing loop and where repositories go

    Theorems about [Coordinator], against the laws of the outbox that both its
    implementations satisfy ([Outbox]).  A turn of the loop is related to a step
    on the entries of the outbox ([turn_step]); the theorems follow by induction
    over the turns. *)

From S2P Require Import Prelude RustStr CoreTypes Externals HexModel Nip34Common Grasp Nip34Repo Nip34Events.
From S2P Require Import Membership Database RelayAdapter Config Repositories Outbox Forgejo Coordinator.

(** ** Steps of the outbox *)

Section Steps.
Context {O R T F : Type} `{RelayPublishRepository O} `{AnnouncementRepository R} `{RepoMappingRepository R}.
Context `{ForgejoTransport T} `{FileSystem F} `{HexLib} `{UrlLib} `{HashOrder} `{Bech32Lib} `{ForgejoCodec} `{JsonLib}.
Context `{!OutboxLaws O} (app : CoordinatorAppState).

Abbreviation state := (CoordinatorState O R T F).
Abbreviation holds s v := (outbox_holds (cs_outbox s) v).

(** What relays answer to the publication of an entry. *)
Definition answer (t : Turn) (e : OutboxEntry) : result string unit :=
  tn_publish t (en_relay_url (jb_entry (oe_job e))) (signed_event_from_job (oe_job e)).

(** What becomes of a claimed entry, unless storage fails. *)
Definition settled (t : Turn) (e : OutboxEntry) : OutboxEntry :=
  match answer t e with
  | Ok _ => entry_succeeded e
  | Err err => entry_failed err (retry_after (tn_now t) (jb_attempt_count (oe_job e))) e
  end.

(** The least due entry is taken. *)
Definition takes (t : Turn) (v : outbox) (id : Z) (e : OutboxEntry) : Prop :=
  v !! id = Some e ∧ due (tn_now t) v id ∧ ∀ id', due (tn_now t) v id' → (id ≤ id')%Z.

Definition turn_step (t : Turn) (v v' : outbox) : Prop :=
  v' = v ∨ ∃ id e pa, takes t v id e ∧
    (v' = <[id := claimed e pa]> v ∨ v' = <[id := settled t (claimed e pa)]> v).

Lemma finalize_outbox job (s : state) : cs_outbox (finalize_outbox_job app job s).2 = cs_outbox s.
Proof.
  unfold finalize_outbox_job, provision, mbind, stateful_bind, lift, on_repositories, on_forgejo, on_files.
  repeat (case_match; simpl in *; simplify_eq; try done).
Qed.

Lemma alter_inserted (f : OutboxEntry → OutboxEntry) (id : Z) e (v : outbox) :
  alter f id (<[id := e]> v) = <[id := f e]> v.
Proof.
  apply map_eq. intros k. destruct (decide (id = k)) as [<-|Hne].
  - by rewrite lookup_alter_eq, !lookup_insert_eq.
  - by rewrite lookup_alter_ne, !lookup_insert_ne.
Qed.

Lemma settle_claimed t id e pa (v : outbox) (s s' : O) :
  jb_id (oe_job e) = id → outbox_holds s (<[id := claimed e pa]> v) →
  (∃ r, answer t (claimed e pa) = Ok tt ∧ mark_relay_publish_succeeded id s = (r, s')) ∨
  (∃ r err, answer t (claimed e pa) = Err err ∧
     mark_relay_publish_failed id err (retry_after (tn_now t) (jb_attempt_count (oe_job (claimed e pa)))) s = (r, s')) →
  outbox_holds s' (<[id := claimed e pa]> v) ∨ outbox_holds s' (<[id := settled t (claimed e pa)]> v).
Proof.
  intros Hid Hs Hm. unfold settled. destruct Hm as [(r & Ha & E)|(r & err & Ha & E)]; rewrite Ha.
  - destruct (succeeded_spec _ _ _ _ _ Hs E) as [[_ ?]|Hs']; [by left|right]. by rewrite alter_inserted in Hs'.
  - destruct (failed_spec _ _ _ _ _ _ _ Hs E) as [[_ ?]|Hs']; [by left|right]. by rewrite alter_inserted in Hs'.
Qed.

Lemma publish_turn_step t (s : state) v :
  holds s v → ∃ v', holds (publish_turn app t s) v' ∧ turn_step t v v'.
Proof.
  intros Hs. unfold publish_turn, on_outbox.
  destruct (claim_relay_publish (tn_now t) (cs_outbox s)) as [r o] eqn:Ec.
  destruct (claim_spec _ _ _ _ _ Hs Ec) as [[Hr Ho]|(job & v1 & Ho & Hc & Hr)].
  { destruct r; [done|]. exists v. split; [done|by left]. }
  destruct r as [job'|err0]; cycle 1.
  { exists v1. split; [done|]. destruct job as [job|]; [|destruct Hc as [-> _]; by left].
    destruct Hc as (id & e & pa & Hd & Hmin & He & _ & ->). right. exists id, e, pa. split; [done|by left]. }
  destruct Hr as [[= ->]|Hr]; [|done].
  destruct job as [job|]; [|destruct Hc as [-> _]; exists v; split; [done|by left]].
  destruct Hc as (id & e & pa & Hd & Hmin & He & -> & ->).
  pose proof (outbox_ids _ _ _ _ Hs He) as Hid.
  assert (∀ o', outbox_holds o' (<[id := claimed e pa]> v) ∨ outbox_holds o' (<[id := settled t (claimed e pa)]> v) →
    ∃ v', outbox_holds o' v' ∧ turn_step t v v') as Hend.
  { intros o' [?|?]; eexists; (split; [done|]); right; exists id, e, pa; (split; [done|]); [by left|by right]. }
  pose proof (settle_claimed t id e pa v o) as Hsettle. unfold answer in Hsettle.
  cbn [oe_job claimed jb_id jb_entry cs_outbox] in *. rewrite Hid.
  destruct (tn_publish _ _ _) as [[]|err] eqn:Ep.
  - destruct (mark_relay_publish_succeeded id o) as [m o1] eqn:Em.
    specialize (Hend o1 (Hsettle o1 Hid Ho (or_introl (ex_intro _ m (conj eq_refl eq_refl))))).
    destruct m as [|]; [|exact Hend]. cbn [cs_outbox].
    destruct Hend as (v' & Hv' & Hst). exists v'. split; [|done].
    destruct (pending_relay_publishes _ _ _ o1) as [n o2] eqn:Epn.
    destruct (pending_spec _ _ _ _ _ _ _ Hv' Epn) as [Hv2 _].
    destruct n as [n|]; [|done]. case_bool_decide; [by rewrite finalize_outbox|done].
  - destruct (mark_relay_publish_failed id err _ o) as [m o1] eqn:Em.
    apply Hend, (Hsettle o1 Hid Ho). right. by exists m, err.
Qed.

Fixpoint turn_steps (ts : list Turn) (v v' : outbox) : Prop :=
  match ts with
  | [] => v' = v
  | t :: ts => ∃ v1, turn_step t v v1 ∧ turn_steps ts v1 v'
  end.

Lemma loop_steps ts (s : state) v :
  holds s v → ∃ v', holds (publish_outbox_loop app ts s) v' ∧ turn_steps ts v v'.
Proof.
  revert s v. induction ts as [|t ts IH]; intros s v Hs; [by exists v|].
  destruct (publish_turn_step t s v Hs) as (v1 & Hs1 & Hst).
  destruct (IH _ _ Hs1) as (v' & Hs' & Hsts). exists v'. split; [done|by exists v1].
Qed.

Lemma answer_entry t e e' : jb_entry (oe_job e) = jb_entry (oe_job e') → answer t e = answer t e'.
Proof. unfold answer, signed_event_from_job. by intros ->. Qed.

Lemma settled_entry t e : jb_entry (oe_job (settled t e)) = jb_entry (oe_job e).
Proof. unfold settled. by destruct (answer t e). Qed.

Lemma settled_published t e : oe_status (settled t e) = RpPublished → answer t e = Ok tt.
Proof. unfold settled. by destruct (answer t e) as [[]|]. Qed.

(** What a step does to one entry. *)
Lemma turn_step_entry t v v' id e :
  turn_step t v v' → v !! id = Some e →
  v' !! id = Some e ∨
  (oe_status e = RpPending ∧ ∃ pa e', v' !! id = Some e' ∧ (e' = claimed e pa ∨ e' = settled t (claimed e pa))).
Proof.
  intros [->|(id' & e' & pa & (He' & (e2 & He2 & Hp & _) & _) & Hv)] He; [by left|].
  destruct (decide (id' = id)) as [->|Hne].
  - right. assert (e2 = e) as -> by congruence. assert (e' = e) as -> by congruence. split; [done|].
    exists pa. destruct Hv as [-> | ->]; eexists; rewrite lookup_insert_eq; auto.
  - left. destruct Hv as [-> | ->]; by rewrite lookup_insert_ne.
Qed.

(** An entry keeps its event; one that is published since was accepted by its relay. *)
Lemma turn_steps_entry ts v v' id e :
  turn_steps ts v v' → v !! id = Some e →
  ∃ e', v' !! id = Some e' ∧ jb_entry (oe_job e') = jb_entry (oe_job e) ∧
    (oe_status e' = RpPublished → oe_status e = RpPublished ∨ ∃ t, t ∈ ts ∧ answer t e = Ok tt).
Proof.
  revert v e. induction ts as [|t ts IH]; intros v e Hst He.
  { simpl in Hst. subst. exists e. auto. }
  destruct Hst as (v1 & Hst & Hsts). destruct (turn_step_entry _ _ _ _ _ Hst He) as [He1|(_ & pa & e1 & He1 & Hc)].
  - destruct (IH _ _ Hsts He1) as (e' & He' & Hj & Hp). exists e'. split_and!; [done|done|].
    intros [?|(t' & ? & ?)]%Hp; [by left|right]. exists t'. split; [by right|done].
  - destruct (IH _ _ Hsts He1) as (e' & He' & Hj & Hp).
    assert (jb_entry (oe_job e1) = jb_entry (oe_job e)) as Hj1
      by (destruct Hc as [-> | ->]; [done|by rewrite settled_entry]).
    exists e'. split_and!; [done|by rewrite Hj|]. intros [Hp1|(t' & ? & Ha)]%Hp; right.
    + exists t. split; [left|]. destruct Hc as [-> | ->]; [done|]. by apply settled_published in Hp1.
    + exists t'. split; [by right|]. by rewrite <-(answer_entry _ _ _ Hj1).
Qed.

Lemma turn_steps_publishing ts v v' id e :
  turn_steps ts v v' → v !! id = Some e → oe_status e = RpPublishing → v' !! id = Some e.
Proof.
  revert v. induction ts as [|t ts IH]; intros v Hst He Hp; [by simpl in Hst; subst|].
  destruct Hst as (v1 & Hst & Hsts). destruct (turn_step_entry _ _ _ _ _ Hst He) as [He1|(Hp' & _)]; [eauto|congruence].
Qed.

Lemma count_unpublished_pos (v : outbox) (id : Z) e :
  v !! id = Some e → oe_status e ≠ RpPublished →
  (0 < count_unpublished (en_pubkey (jb_entry (oe_job e))) (en_identifier (jb_entry (oe_job e)))
         (en_kind (jb_entry (oe_job e))) v)%Z.
Proof.
  intros He Hp. unfold count_unpublished. apply elem_of_map_to_list in He.
  assert (e ∈ (map_to_list v).*2) as Hin by (apply list_elem_of_fmap; by exists (id, e)).
  revert Hin. generalize ((map_to_list v).*2) as l. intros l Hin.
  assert (e ∈ List.filter (unpublished (en_pubkey (jb_entry (oe_job e))) (en_identifier (jb_entry (oe_job e)))
    (en_kind (jb_entry (oe_job e)))) l) as Hf.
  { apply list_elem_of_In, filter_In. split; [by apply list_elem_of_In|]. unfold unpublished.
    rewrite bool_decide_eq_false_2 by done. rewrite bool_decide_eq_true_2 by done.
    by rewrite !(proj2 (String.eqb_eq _ _) eq_refl). }
  destruct (List.filter _ l); [by apply not_elem_of_nil in Hf|]. simpl. lia.
Qed.

(** The publications of the turn are runs of the relay adapter in [w]. *)
Definition published_in `{JsonErrors} `{CryptoLib} `{SignerKeys} `{!UrlScheme} (t : Turn) (w : Surroundings) : Prop :=
  ∀ relay_url event, publish_to_relay w relay_url event = Some (tn_publish t relay_url event).

(** The message a relay gets for an entry: every field of the event that the entry holds. *)
Definition entry_message (entry : RelayPublishEntry) : string :=
  "[" +:+ quoted "EVENT" +:+ "," +:+ json_to_string (JObject
    [("content", JString (en_content entry)); ("created_at", json_int (en_created_at entry));
     ("id", JString (hex_encode (en_event_id entry))); ("kind", json_int (en_kind entry));
     ("pubkey", JString (hex_encode (en_pubkey entry))); ("sig", JString (hex_encode (en_sig entry)));
     ("tags", JArray ((λ t : tag, JArray (JString <$> t)) <$> en_tags entry))]) +:+ "]".

(** In [w], the relay of the entry is reached, [job] is published on the connection: exactly
    the message of the entry is sent, without a failure, and the first answer about its id,
    before the deadline, accepts it. *)
Definition delivered `{JsonErrors} `{CryptoLib} `{SignerKeys} `{!UrlScheme}
    (entry : RelayPublishEntry) (job : RelayPublishJob) (w : Surroundings) : Prop :=
  let config := RelayAdapterConfig_new (en_relay_url entry) in
  ∃ url c, normalize_ws_url (en_relay_url entry) = Ok url ∧ su_connect w url = Ok c ∧
    (publish_event (mkWebsocketRelayAdapter config) (signed_event_from_job job) w).2 =
      cn_sent c ++ [entry_message entry] ∧
    default (Ok tt) (head (cn_sends c)) = Ok tt ∧
    acknowledged (default 0 (head (cn_starts c)) + rac_timeout config)%Z (hex_encode (en_event_id entry)) (cn_rounds c).

(** C23: an event of the outbox that the publishing loop leaves as published was
    delivered to its relay and acknowledged: in some turn the message with every field of the
    event that the entry holds, and nothing else, was sent to the relay that the entry names,
    and the relay's first answer about the event's id, within the timeout, accepts it;
    whatever the failures of storage and relays on the way.  The turns are runs of the relay
    adapter that come to an end.  An entry keeps its relay and its event through the loop and
    is never lost. *)
Theorem published_was_acknowledged `{JsonErrors} `{CryptoLib} `{SignerKeys} `{!UrlScheme}
    ts (surroundings : Turn → Surroundings) (s : state) v id e :
  holds s v → v !! id = Some e → oe_status e ≠ RpPublished →
  Forall (λ t, published_in t (surroundings t)) ts →
  ∃ v' e', holds (publish_outbox_loop app ts s) v' ∧ v' !! id = Some e' ∧
    jb_entry (oe_job e') = jb_entry (oe_job e) ∧
    (oe_status e' = RpPublished → ∃ t, t ∈ ts ∧
       delivered (jb_entry (oe_job e)) (oe_job e) (surroundings t)).
Proof.
  intros Hs He Hp Hts. destruct (loop_steps ts s v Hs) as (v' & Hs' & Hsts).
  destruct (turn_steps_entry _ _ _ _ _ Hsts He) as (e' & He' & Hj & Ha). exists v', e'.
  split_and!; [done..|]. intros [?|(t & Ht & Hans)]%Ha; [done|]. exists t. split; [done|].
  rewrite Forall_forall in Hts.
  destruct (publish_acknowledged (surroundings t) (en_relay_url (jb_entry (oe_job e))) (signed_event_from_job (oe_job e)))
    as (url & c & Hu & Hc & Hsend & Hack).
  { unfold answer in Hans. by rewrite (Hts t Ht), Hans. }
  exists url, c. split_and!; [done|done| |done|done].
  rewrite (publish_sent (RelayAdapterConfig_new (en_relay_url (jb_entry (oe_job e)))) _ _ url c) by done. done.
Qed.

(** Two entries for relays of the same announcement. *)
Definition same_announcement (x y : RelayPublishEntry) : Prop :=
  en_pubkey x = en_pubkey y ∧ en_identifier x = en_identifier y ∧ en_kind x = en_kind y.

(** A turn that takes an entry of an announcement with another unpublished entry, which it
    does not take, finalises nothing. *)
Lemma turn_not_finalised t (s : state) v id e :
  holds s v → v !! id = Some e → oe_status e = RpPublishing → u32 (en_kind (jb_entry (oe_job e))) →
  (∃ job o, claim_relay_publish (tn_now t) (cs_outbox s) = (Ok (Some job), o) ∧
     ¬ same_announcement (jb_entry job) (jb_entry (oe_job e))) ∨
  let s' := publish_turn app t s in
  cs_repositories s' = cs_repositories s ∧ cs_transport s' = cs_transport s ∧ cs_files s' = cs_files s.
Proof.
  intros Hs He Hst Hk. unfold publish_turn, on_outbox.
  destruct (claim_relay_publish (tn_now t) (cs_outbox s)) as [r o] eqn:Ec.
  destruct r as [[job|]|]; [|by right..].
  destruct (claim_spec _ _ _ _ _ Hs Ec) as [[? _]|(o' & v1 & Ho & Hc & [[= <-]|?])]; [done| |done].
  destruct Hc as (id' & e' & pa & (e2 & He2 & Hp & _) & Hmin & He' & -> & ->).
  assert (e2 = e') as -> by congruence.
  assert (id' ≠ id) as Hne by congruence.
  pose proof (outbox_ids _ _ _ _ Hs He') as Hid.
  destruct (decide (en_pubkey (jb_entry (oe_job e')) = en_pubkey (jb_entry (oe_job e)) ∧
    en_identifier (jb_entry (oe_job e')) = en_identifier (jb_entry (oe_job e)) ∧
    en_kind (jb_entry (oe_job e')) = en_kind (jb_entry (oe_job e)))) as [Hsame|Hdiff]; [right|left; by eauto].
  pose proof (settle_claimed t id' e' pa v o) as Hsettle. unfold answer in Hsettle.
  cbn [oe_job claimed jb_id jb_entry cs_outbox] in *. rewrite Hid.
  destruct (tn_publish _ _ _) as [[]|err] eqn:Ep.
  2: { by destruct (mark_relay_publish_failed _ _ _ _). }
  destruct (mark_relay_publish_succeeded id' o) as [m o1] eqn:Em.
  specialize (Hsettle o1 Hid Ho (or_introl (ex_intro _ m (conj eq_refl eq_refl)))).
  destruct m as [|]; [|done]. cbn [cs_outbox].
  destruct (pending_relay_publishes _ _ _ o1) as [n o2] eqn:Epn. destruct n as [n|]; [|done].
  destruct Hsame as (E1 & E2 & E3). rewrite E1, E2, E3 in Epn.
  assert (0 < n)%Z as Hn.
  { destruct Hsettle as [Hv|Hv]; destruct (pending_spec _ _ _ _ _ _ _ Hv Epn) as [_ Hn];
      rewrite (Hn n eq_refl Hk); apply (count_unpublished_pos _ id); try congruence; by rewrite lookup_insert_ne. }
  rewrite bool_decide_eq_false_2 by lia. done.
Qed.

(** C36: an entry that was left as being published (the service stopped, or storage
    failed, between its claim and its end) is never taken again by the loop and counts
    forever as not published.  So its announcement is never finalised: whatever the turns
    before, a turn that does not take an entry of another announcement leaves the
    repositories, the forge and the files as they are.  Kinds are of 32 bits. *)
Theorem publishing_stuck ts (s : state) v id e :
  holds s v → v !! id = Some e → oe_status e = RpPublishing → u32 (en_kind (jb_entry (oe_job e))) →
  let s' := publish_outbox_loop app ts s in
  ∃ v', holds s' v' ∧ v' !! id = Some e ∧
    (0 < count_unpublished (en_pubkey (jb_entry (oe_job e))) (en_identifier (jb_entry (oe_job e)))
           (en_kind (jb_entry (oe_job e))) v')%Z ∧
    ∀ t,
      (∃ job o, claim_relay_publish (tn_now t) (cs_outbox s') = (Ok (Some job), o) ∧
         ¬ same_announcement (jb_entry job) (jb_entry (oe_job e))) ∨
      let s'' := publish_turn app t s' in
      cs_repositories s'' = cs_repositories s' ∧ cs_transport s'' = cs_transport s' ∧ cs_files s'' = cs_files s'.
Proof.
  intros Hs He Hp Hk s'. destruct (loop_steps ts s v Hs) as (v' & Hs' & Hsts).
  pose proof (turn_steps_publishing _ _ _ _ _ Hsts He Hp) as He'. exists v'. split_and!; [done|done| |].
  - apply (count_unpublished_pos _ id); [done|congruence].
  - intros t. by apply (turn_not_finalised t s' v' id e).
Qed.
End Steps.

(** ** The outbox drains *)

Lemma retry_after_bounds now n :
  (now + nanos OUTBOX_RETRY_BASE_SECS ≤ retry_after now n ≤ now + nanos OUTBOX_RETRY_MAX_SECS)%Z.
Proof.
  unfold retry_after, nanos, OUTBOX_RETRY_BASE_SECS, OUTBOX_RETRY_MAX_SECS, saturate_i64, i64_min, i64_max. lia.
Qed.

Definition is_pending (e : OutboxEntry) : bool := bool_decide (oe_status e = RpPending).
Definition pending_count (v : outbox) : nat := length (List.filter is_pending (map_to_list v).*2).

Lemma pending_count_insert (v : outbox) (id : Z) e e' :
  v !! id = Some e → pending_count (<[id := e']> v) + Nat.b2n (is_pending e) = pending_count v + Nat.b2n (is_pending e').
Proof.
  intros He. unfold pending_count.
  rewrite <-(insert_delete_id v id e He) at 2. rewrite <-insert_delete_eq.
  rewrite !map_to_list_insert by apply lookup_delete_eq. rewrite !fmap_cons. cbn [fst snd List.filter].
  destruct (is_pending e), (is_pending e'); simpl; lia.
Qed.

Lemma pending_count_zero (v : outbox) (id : Z) e : pending_count v = 0 → v !! id = Some e → oe_status e ≠ RpPending.
Proof.
  intros Hz He Hp. pose proof (pending_count_insert v id e (entry_succeeded e) He) as Hc.
  unfold is_pending at 1 in Hc. rewrite bool_decide_eq_true_2 in Hc by done. simpl in Hc. lia.
Qed.

Section Drain.
Context {O R T F : Type} `{RelayPublishRepository O} `{AnnouncementRepository R} `{RepoMappingRepository R}.
Context `{ForgejoTransport T} `{FileSystem F} `{HexLib} `{UrlLib} `{HashOrder} `{Bech32Lib} `{ForgejoCodec} `{JsonLib}.
Context `{!OutboxLaws O} `{!OutboxReliability O} (app : CoordinatorAppState).

Abbreviation state := (CoordinatorState O R T F).
Abbreviation holds s v := (outbox_holds (cs_outbox s) v).

(** A turn without failures of storage settles the entry it takes. *)
Definition reliable_step (t : Turn) (v v' : outbox) : Prop :=
  (v' = v ∧ ∀ id, ¬ due (tn_now t) v id) ∨
  ∃ id e pa, takes t v id e ∧ v' = <[id := settled t (claimed e pa)]> v.

Lemma publish_turn_reliable t (s : state) v :
  holds s v → outbox_reliable (cs_outbox s) → attempts_fit 1 v →
  ∃ v', holds (publish_turn app t s) v' ∧ outbox_reliable (cs_outbox (publish_turn app t s)) ∧ reliable_step t v v'.
Proof.
  intros Hs Hrel Hfit. unfold publish_turn, on_outbox.
  destruct (claim_reliable (tn_now t) _ _ Hs Hrel Hfit) as (job & o & v1 & -> & Hrel1 & Ho & Hc).
  destruct job as [job|]; [|destruct Hc as [-> Hd]; exists v; split_and!; [done|done|by left]].
  destruct Hc as (id & e & pa & Hd & Hmin & He & -> & ->).
  pose proof (outbox_ids _ _ _ _ Hs He) as Hid.
  assert (is_Some ((<[id := claimed e pa]> v : outbox) !! id)) as Hin by (rewrite lookup_insert_eq; by eexists).
  cbn [oe_job claimed jb_id jb_entry cs_outbox]. rewrite Hid.
  exists (<[id := settled t (claimed e pa)]> v). rewrite (assoc (A := Prop) and). split; [|right; by exists id, e, pa].
  unfold settled, answer. cbn [oe_job claimed jb_entry].
  destruct (tn_publish _ _ _) as [[]|err].
  - destruct (succeeded_reliable id _ _ Ho Hrel1 Hin) as (o1 & -> & Hrel2 & Ho1). cbn [cs_outbox].
    rewrite alter_inserted in Ho1.
    destruct (pending_reliable (en_pubkey (jb_entry (oe_job e))) (en_identifier (jb_entry (oe_job e)))
      (en_kind (jb_entry (oe_job e))) _ _ Ho1 Hrel2) as (n & o2 & -> & Hrel3 & Ho2).
    case_bool_decide; [by rewrite finalize_outbox|done].
  - destruct (failed_reliable id err (retry_after (tn_now t) (wrap_i32 (jb_attempt_count (oe_job e) + 1))) _ _ Ho Hrel1 Hin)
      as (o1 & E1 & Hrel2 & Ho1). cbn [jb_attempt_count]. rewrite E1. cbn [snd cs_outbox].
    by rewrite alter_inserted in Ho1.
Qed.

Lemma settled_attempts t e : jb_attempt_count (oe_job (settled t e)) = jb_attempt_count (oe_job e).
Proof. unfold settled. by destruct (answer t e). Qed.

Lemma reliable_step_fit t v v' n : reliable_step t v v' → attempts_fit (S n) v → attempts_fit n v'.
Proof.
  intros [[-> _]|(id & e & pa & (He & _) & ->)] Hfit id' e' He'.
  - specialize (Hfit _ _ He'). lia.
  - apply lookup_insert_Some in He' as [[<- <-]|[_ He']]; [|specialize (Hfit _ _ He'); lia].
    specialize (Hfit _ _ He). rewrite settled_attempts. simpl. unfold i32_max in *.
    rewrite wrap_i32_id by (unfold i32_min, i32_max; lia). lia.
Qed.

(** Of the entries that were pending, none is being published, and each that is
    still pending is due by [bound]. *)
Definition on_track (bound : Z) (v0 v : outbox) : Prop :=
  ∀ id e, v !! id = Some e →
    (oe_status e = RpPending → (jb_publish_after (oe_job e) ≤ bound)%Z) ∧
    ∀ e0, v0 !! id = Some e0 → oe_status e0 = RpPending →
      oe_status e ≠ RpPublishing ∧ jb_entry (oe_job e) = jb_entry (oe_job e0).

Lemma on_track_step t bound v0 v v' :
  reliable_step t v v' → on_track bound v0 v →
  (tn_now t + nanos OUTBOX_RETRY_MAX_SECS ≤ bound)%Z ∨ (∀ url event, tn_publish t url event = Ok tt) →
  on_track bound v0 v'.
Proof.
  intros [[-> _]|(id & e & pa & (He & _) & ->)] Hon Ht; [done|]. intros id' e' He'.
  apply lookup_insert_Some in He' as [[<- <-]|[_ He']]; [|by apply Hon]. split.
  - unfold settled. destruct (answer t _) as [[]|err] eqn:Ea; [done|]. intros _. simpl.
    destruct Ht as [Ht|Ht]; [|unfold answer in Ea; by rewrite Ht in Ea].
    pose proof (retry_after_bounds (tn_now t) (wrap_i32 (jb_attempt_count (oe_job e) + 1))). lia.
  - intros e0 He0 Hp. destruct (Hon _ _ He) as [_ Hj]. destruct (Hj _ He0 Hp) as [_ Hj'].
    split; [unfold settled; by destruct (answer t _)|by rewrite settled_entry].
Qed.

(** An accepting turn publishes one more entry, as long as one is pending. *)
Lemma accepting_step t bound v0 v v' :
  reliable_step t v v' → on_track bound v0 v → (bound ≤ tn_now t)%Z →
  (∀ url event, tn_publish t url event = Ok tt) → pending_count v' ≤ pending_count v - 1.
Proof.
  intros Hst Hon Hnow Ht. destruct Hst as [[-> Hd]|(id & e & pa & (He & (e2 & He2 & Hp & _) & _) & ->)].
  - destruct (pending_count v) as [|n] eqn:En; [lia|]. exfalso.
    assert (∃ id e, v !! id = Some e ∧ oe_status e = RpPending) as (id & e & He & Hp).
    { unfold pending_count in En. destruct (List.filter _ _) as [|e l] eqn:Ef; [done|].
      assert (e ∈ List.filter is_pending (map_to_list v).*2) as Hin by (rewrite Ef; left).
      apply list_elem_of_In, filter_In in Hin as [Hin Hp]. apply list_elem_of_In, list_elem_of_fmap in Hin as ([id e'] & -> & Hin).
      apply elem_of_map_to_list in Hin. apply bool_decide_eq_true in Hp. eauto. }
    apply (Hd id). exists e. split_and!; [done|done|]. apply Hon in He as [He _]. specialize (He Hp). lia.
  - assert (e2 = e) as -> by congruence. pose proof (pending_count_insert v id e (settled t (claimed e pa)) He) as Hc.
    unfold is_pending, settled, answer in Hc. rewrite Ht in Hc. simpl in Hc.
    rewrite bool_decide_eq_true_2 in Hc by done. unfold settled, answer. rewrite Ht. simpl in *. lia.
Qed.

Lemma loop_cons t ts (s : state) :
  publish_outbox_loop app (t :: ts) s = publish_outbox_loop app ts (publish_turn app t s).
Proof. done. Qed.

(** Turns that leave the entries on track, with any answers. *)
Lemma loop_on_track ts bound v0 (s : state) v n :
  holds s v → outbox_reliable (cs_outbox s) → attempts_fit (length ts + n) v → on_track bound v0 v →
  Forall (λ t, (tn_now t + nanos OUTBOX_RETRY_MAX_SECS ≤ bound)%Z) ts →
  ∃ v', holds (publish_outbox_loop app ts s) v' ∧ outbox_reliable (cs_outbox (publish_outbox_loop app ts s)) ∧
    attempts_fit n v' ∧ on_track bound v0 v' ∧ pending_count v' ≤ pending_count v ∧
    (∀ id, is_Some (v !! id) → is_Some (v' !! id)).
Proof.
  revert s v. induction ts as [|t ts IH]; intros s v Hs Hrel Hfit Hon Hts; [by exists v|].
  apply Forall_cons in Hts as [Ht Hts]. rewrite loop_cons.
  assert (attempts_fit 1 v) as Hfit1 by (intros id e He; specialize (Hfit _ _ He); simpl in Hfit; lia).
  destruct (publish_turn_reliable t s v Hs Hrel Hfit1) as (v1 & Hs1 & Hrel1 & Hst).
  destruct (IH _ v1 Hs1 Hrel1) as (v' & Hs' & Hrel' & Hfit' & Hon' & Hc & Hdom); auto.
  - by eapply reliable_step_fit.
  - eapply on_track_step; [done|done|by left].
  - exists v'. split_and!; [done..| |].
    + destruct Hst as [[-> _]|(id & e & pa & (He & (e2 & He2 & Hp & _) & _) & ->)]; [done|].
      pose proof (pending_count_insert v id e (settled t (claimed e pa)) He) as Hi.
      assert (e2 = e) as -> by congruence. unfold is_pending at 1 in Hi.
      rewrite bool_decide_eq_true_2 in Hi by done. destruct (is_pending (settled t _)); simpl in Hi; lia.
    + intros id Hid. apply Hdom. destruct Hst as [[-> _]|(id' & e & pa & _ & ->)]; [done|].
      apply lookup_insert_is_Some. destruct (decide (id' = id)); auto.
Qed.

(** Turns in which relays accept everything that is due. *)
Lemma loop_accepting ts bound v0 (s : state) v :
  holds s v → outbox_reliable (cs_outbox s) → attempts_fit (length ts) v → on_track bound v0 v →
  Forall (λ t, (bound ≤ tn_now t)%Z ∧ ∀ url event, tn_publish t url event = Ok tt) ts →
  ∃ v', holds (publish_outbox_loop app ts s) v' ∧ on_track bound v0 v' ∧
    pending_count v' ≤ pending_count v - length ts ∧ (∀ id, is_Some (v !! id) → is_Some (v' !! id)).
Proof.
  revert s v. induction ts as [|t ts IH]; intros s v Hs Hrel Hfit Hon Hts.
  { exists v. split_and!; [done|done|simpl; lia|done]. }
  apply Forall_cons in Hts as [[Hb Ht] Hts]. rewrite loop_cons.
  assert (attempts_fit 1 v) as Hfit1 by (intros id e He; specialize (Hfit _ _ He); simpl in Hfit; lia).
  destruct (publish_turn_reliable t s v Hs Hrel Hfit1) as (v1 & Hs1 & Hrel1 & Hst).
  pose proof (accepting_step _ _ _ _ _ Hst Hon Hb Ht) as Hstep.
  destruct (IH _ v1 Hs1 Hrel1) as (v' & Hs' & Hon' & Hc & Hdom); auto.
  - by eapply reliable_step_fit.
  - eapply on_track_step; [done|done|by right].
  - exists v'. split_and!; [done|done|simpl; lia|].
    intros id Hid. apply Hdom. destruct Hst as [[-> _]|(id' & e & pa & _ & ->)]; [done|].
    apply lookup_insert_is_Some. destruct (decide (id' = id)); auto.
Qed.

(** C9: the outbox drains after an outage.  While storage is reliable, let relays
    answer as they like in turns up to a time, and accept what they are sent in the
    turns that start half an hour later or after; then as many of the latter turns
    as there are pending entries suffice for every entry that was pending, due at
    the latest half an hour after that time, to be published to its relay with its
    event unchanged. *)
Theorem outbox_drains outage ts1 ts2 (s : state) v :
  holds s v → outbox_reliable (cs_outbox s) → attempts_fit (length ts1 + length ts2) v →
  (∀ id e, v !! id = Some e → oe_status e = RpPending →
     (jb_publish_after (oe_job e) ≤ outage + nanos OUTBOX_RETRY_MAX_SECS)%Z) →
  Forall (λ t, (tn_now t ≤ outage)%Z) ts1 →
  Forall (λ t, (outage + nanos OUTBOX_RETRY_MAX_SECS ≤ tn_now t)%Z ∧
                ∀ url event, tn_publish t url event = Ok tt) ts2 →
  pending_count v ≤ length ts2 →
  ∃ v', holds (publish_outbox_loop app (ts1 ++ ts2) s) v' ∧
    ∀ id e, v !! id = Some e → oe_status e = RpPending →
      ∃ e', v' !! id = Some e' ∧ oe_status e' = RpPublished ∧ jb_entry (oe_job e') = jb_entry (oe_job e).
Proof.
  intros Hs Hrel Hfit Hdue Ht1 Ht2 Hlen. set (bound := (outage + nanos OUTBOX_RETRY_MAX_SECS)%Z) in *.
  assert (on_track bound v v) as Hon.
  { intros id e He. split; [eauto|]. intros e0 He0 Hp. assert (e0 = e) as -> by congruence. by rewrite Hp. }
  destruct (loop_on_track ts1 bound v s v (length ts2) Hs Hrel Hfit Hon) as (v1 & Hs1 & Hrel1 & Hfit1 & Hon1 & Hc1 & Hdom1).
  { eapply Forall_impl; [exact Ht1|]. simpl. unfold bound. lia. }
  destruct (loop_accepting ts2 bound v _ v1 Hs1 Hrel1 Hfit1 Hon1 Ht2) as (v' & Hs' & Hon' & Hc' & Hdom').
  exists v'. split; [by unfold publish_outbox_loop in *; rewrite foldl_app|].
  intros id e He Hp. destruct (Hdom' id (Hdom1 id (mk_is_Some _ _ He))) as [e' He']. exists e'. split; [done|].
  destruct (Hon' _ _ He') as [_ Hj]. destruct (Hj _ He Hp) as [Hpub Hent]. split; [|done].
  assert (oe_status e' ≠ RpPending) as Hne by (eapply pending_count_zero; [|exact He']; lia).
  by destruct (oe_status e').
Qed.
End Drain.

(** ** Where repositories are created *)

Section Location.
Context {F : Type} `{FileSystem F} `{UrlLib} `{HashOrder} `{Bech32Lib}.

Lemma starts_with_extend p s t : starts_with p s = true → starts_with p (s +:+ t) = true.
Proof.
  unfold starts_with. destruct (strip_prefix p s) as [r|] eqn:E; [|done]. intros _.
  apply strip_prefix_Some in E as ->. by rewrite str_app_assoc, strip_prefix_app.
Qed.

Lemma path_join_absolute base p : starts_with "/" p = true → path_join base p = p.
Proof. unfold path_join. by intros ->. Qed.

Lemma str_span_fst g s : str_all g (str_span g s).1 = true.
Proof.
  induction s as [|c s IH]; [done|]. simpl. destruct (g c) eqn:E; [|done].
  destruct (str_span g s) as [u w]; simpl in *. by rewrite E.
Qed.

Lemma relative_no_slash s : contains_char "/" s = false → starts_with "/" s = false.
Proof.
  intros Hs. unfold starts_with. destruct (strip_prefix "/" s) as [r|] eqn:E; [|done].
  apply strip_prefix_Some in E as ->. by rewrite contains_char_app in Hs.
Qed.

Lemma ends_with_no_slash x s : s ≠ "" → contains_char "/" s = false → ends_with "/" (x +:+ s) = false.
Proof.
  intros Hne Hs. unfold ends_with. destruct (strip_suffix "/" (x +:+ s)) as [r|] eqn:E; [|done].
  apply strip_suffix_Some in E. apply str_app_split in E as [(t & _ & Ht)|(c & t & _ & Ht)].
  - destruct t as [|c t]; simpl in Ht; [|destruct s; [done|]; injection Ht as _ Ht; by destruct t].
    rewrite str_app_nil_l in Ht. by subst s.
  - subst s. rewrite contains_char_app in Hs. by apply orb_false_iff in Hs as [_ Hs].
Qed.

Lemma no_slash_relative s : contains_char "/" s = false → starts_with "/" (s +:+ ".git") = false.
Proof.
  intros Hs. apply relative_no_slash. by rewrite contains_char_app, Hs.
Qed.

Lemma carry_out_Provisioned plan hooks (f : F) p f' :
  carry_out plan hooks f = (Ok (Provisioned p), f') → p = pp_repo_path plan ∧ path_exists p f = false.
Proof.
  unfold carry_out. destruct (path_exists (pp_repo_path plan) f) eqn:E; [done|].
  unfold mbind, stateful_bind, lift, map_err_st. repeat case_match; intros; simplify_eq; done.
Qed.

Lemma found_npub urls npub :
  find_map (λ url, ok (extract_npub url)) urls = Some npub →
  npub ≠ "" ∧ contains_char "/" npub = false.
Proof.
  intros Hf. apply find_map_Some in Hf as (l1 & url & l2 & _ & _ & Hx). unfold extract_npub in Hx.
  destruct (find_split "npub1" url) as [[u w]|]; [|done]. destruct (validate_npub _); [|done].
  injection Hx as <-. split; [done|]. rewrite contains_char_app. change (contains_char "/" "npub1") with false.
  eapply str_all_not_contains; [|apply str_span_fst]. done.
Qed.

Lemma plan_path root npub a :
  npub ≠ "" ∧ contains_char "/" npub = false → contains_char "/" (an_identifier a) = false →
  path_join (path_join root npub) (an_identifier a +:+ ".git") =
    (if is_empty root || ends_with "/" root then root else root +:+ "/") +:+ npub +:+ "/" +:+ an_identifier a +:+ ".git".
Proof.
  intros [Hne Hn] Hid. unfold path_join at 1. rewrite no_slash_relative by done.
  assert (path_join root npub = (if is_empty root || ends_with "/" root then root else root +:+ "/") +:+ npub) as Hj.
  { unfold path_join. rewrite relative_no_slash by done. destruct (is_empty root || _); [done|].
    by rewrite str_app_assoc. }
  rewrite Hj, ends_with_no_slash by done.
  set (base := if is_empty root || ends_with "/" root then root else root +:+ "/").
  assert (is_empty (base +:+ npub) = false) as ->; [|simpl; by rewrite str_app_assoc].
  apply bool_decide_eq_false_2. intros Hz. destruct npub as [|c npub]; [done|].
  apply (f_equal String.length) in Hz. rewrite str_length_app in Hz. simpl in Hz. lia.
Qed.

(** An announcement whose identifier contains no slash is provisioned, if at
    all, where nothing was before and as [<root>/<npub>/<identifier>.git], with
    the first npub of its clone URLs; but the configured root has no influence on
    where an announcement whose identifier starts with a slash is provisioned: the
    identifier is not checked, and an absolute one replaces the root. *)
Lemma repository_location root hooks event a (f : F) :
  announcement_of event = Ok (Some a) →
  (contains_char "/" (an_identifier a) = false →
   ∀ p f', handle_announcement_event root hooks event f = (Ok (Provisioned p), f') →
     path_exists p f = false ∧
     ∃ npub, find_map (λ url, ok (extract_npub url)) (an_clone a) = Some npub ∧
       p = (if is_empty root || ends_with "/" root then root else root +:+ "/")
             +:+ npub +:+ "/" +:+ an_identifier a +:+ ".git") ∧
  (starts_with "/" (an_identifier a) = true →
   ∀ root', handle_announcement_event root' hooks event f = handle_announcement_event root hooks event f).
Proof.
  intros Ha. unfold handle_announcement_event, mbind, stateful_bind, lift. rewrite Ha. split.
  - intros Hid p f'. destruct (find_map _ (an_clone a)) as [npub|] eqn:En; [|done]. simpl.
    unfold build_provision_plan. rewrite (plan_path root npub a) by eauto using found_npub.
    destruct (parse_repo_path _); [|done]. simpl. intros [-> Hex]%carry_out_Provisioned. eauto.
  - intros Habs root'. destruct (find_map _ (an_clone a)) as [npub|]; [|done]. simpl.
    unfold build_provision_plan. by rewrite !(path_join_absolute _ (an_identifier a +:+ _)) by by apply starts_with_extend.
Qed.
End Location.

(** ** Witnesses *)

Module Samples.
Definition row_order : RowOrder := {| row_iter A l := l; row_iter_perm A l := reflexivity l |}.
Definition url_lib : UrlLib := {|
  Url := unit; url_parse s := if s == "wss://relay" then Some tt else None; url_scheme _ := "wss";
  url_host_str _ := None; url_port _ := None; url_path _ := ""
|}.
Definition npub_lib : Bech32Lib := {| bech32_decode s := (λ r, ("npub", r)) <$> strip_prefix "npub1" s |}.
Definition json_lib : JsonLib := {|
  json_from_str s := if s == "accepted" then Some (JArray [JString "OK"; JString "69"; JBool true]) else None;
  json_to_string _ := ""
|}.
Definition codec : ForgejoCodec := {|
  repo_from_str _ := Err "down"; user_from_str _ := Err "down"; org_from_str _ := Err "down";
  pull_request_from_str _ := Err "down"; hooks_from_str _ := Err "down"
|}.
(** A forge that is down, and files none of which exist. *)
Definition transport : ForgejoTransport unit := {| send _ := λ s, (Err (FeRequest "down"), s) |}.
Definition files : FileSystem unit := {|
  path_exists p _ := starts_with "/hooks" p; path_is_dir _ _ := false;
  create_dir_all _ := λ s, (Ok tt, s); copy_file _ _ := λ s, (Ok tt, s);
  read_mode _ := λ s, (Ok 0%Z, s); set_mode _ _ := λ s, (Ok tt, s);
  run_git _ := λ s, (Ok (true, ""), s)
|}.
Definition announcements : AnnouncementRepository unit := {|
  insert_announcement _ := λ s, (Ok tt, s); list_announcements _ _ := λ s, (Ok [], s);
  latest_announcement _ _ := λ s, (Ok None, s)
|}.
Definition mappings : RepoMappingRepository unit := {|
  upsert_mapping _ := λ s, (Ok tt, s); mapping_by_forgejo _ _ := λ s, (Ok None, s);
  mapping_by_repo _ _ := λ s, (Ok None, s); list_mappings := λ s, (Ok [], s)
|}.

Definition app : CoordinatorAppState :=
  mkCoordinatorAppState "/srv/git" (mkHookInstallConfig "/hooks/pre" "/hooks/post")
    (mkForgejoConfig "http://forge" "t" "o" "http://hook" "s" true).
Definition entry (status : RelayPublishStatus) : OutboxEntry :=
  mkOutboxEntry (mkRelayPublishJob 1 (mkRelayPublishEntry "wss://relay" "i" "p" 0 30617 [] "" "s" "o" "r" "id") 0 0)
    status None.
Definition outbox_with (status : RelayPublishStatus) : MemoryOutbox := mkMemoryOutbox 1 {[ 1%Z := entry status ]}.
Definition start (status : RelayPublishStatus) : CoordinatorState MemoryOutbox unit unit unit :=
  mkCoordinatorState (outbox_with status) tt tt tt.

(** A relay that is down, and then one that accepts the entry. *)
Definition json_errors : JsonErrors := {| json_error _ := "expected value" |}.
Definition crypto : CryptoLib := {|
  Signature := string; XOnlyPublicKey := string; sha256 s := s; signature_from_str s := Some s;
  xonly_from_str s := Some s; verify_schnorr _ _ _ := true
|}.
Definition signer : SignerLib := {| SecretKey := string; secret_from_slice b := Some b; sign_schnorr k _ := k |}.
Definition signer_keys : @SignerKeys signer := @Build_SignerKeys signer (λ k, k) (λ _, "malformed").
Definition schemes : @UrlScheme url_lib := @Build_UrlScheme url_lib (λ _ u, Some u).
Definition surroundings_at (now : Z) : @Surroundings signer url_lib :=
  @mkSurroundings signer url_lib (λ _,
    if bool_decide (now = 0)%Z then Err "connection refused"
    else Ok (mkConnection [] [] [] [mkRound 0 (RdMessage (WsText "accepted")); mkRound (nanos 5) RdClosed])) "key" 0.
Definition surroundings (t : Turn) : @Surroundings signer url_lib := surroundings_at (tn_now t).
Definition publishes (now : Z) (relay_url : string) (event : SignedNostrEvent) : result string unit :=
  let _ := json_lib in let _ := json_errors in let _ := hex_model in let _ := crypto in let _ := signer_keys in
  let _ := schemes in
  default (Err "") (publish_to_relay (surroundings_at now) relay_url event).
Definition down : Turn := mkTurn 0 (publishes 0).
Definition up : Turn := mkTurn (nanos 1800) (publishes (nanos 1800)).

(** A relay that accepts everything. *)
Definition accepting : Turn := mkTurn (nanos 1800) (λ _ _, Ok tt).

Lemma publishes_in t : t ∈ [down; up] →
  let _ := json_lib in let _ := json_errors in let _ := hex_model in let _ := crypto in let _ := signer_keys in
  let _ := schemes in published_in t (surroundings t).
Proof.
  intros Ht. cbv zeta. intros relay_url event.
  assert (is_Some (@publish_to_relay json_lib json_errors hex_model crypto signer signer_keys url_lib schemes
    (surroundings t) relay_url event)) as [r Hr].
  { unfold publish_to_relay. match goal with |- is_Some (match (publish_event ?a event ?w).1 with _ => _ end) =>
      pose proof (@publish_ends json_lib json_errors hex_model crypto signer signer_keys url_lib schemes (wsa_config a) event w) as Hend; cbn [wsa_config] in Hend; destruct (publish_event a event w).1 as [[[]|]|[]] end;
      try by eexists.
    all: exfalso; apply Hend; intros [] c _; cbn [su_connect surroundings surroundings_at]; case_bool_decide; [done|];
      intros [= <-]; exists (mkRound (nanos 5) RdClosed); (split; [set_solver|done]). }
  rewrite Hr. apply elem_of_cons in Ht as [->|[->|[]%not_elem_of_nil]%elem_of_cons]; cbn [tn_publish down up];
    unfold publishes; cbv zeta; unfold surroundings in Hr; cbn [tn_now down up] in Hr; by rewrite Hr.
Qed.

Lemma start_holds `{HexLib} `{RowOrder} status : memory_holds (outbox_with status) {[ 1%Z := entry status ]}.
Proof.
  split; [done|]. intros id e [<- <-]%lookup_singleton_Some. simpl. lia.
Qed.
End Samples.

Lemma published_was_acknowledged_witness :
  let _ := hex_model in let _ := Samples.row_order in let _ := Samples.url_lib in let _ := Samples.npub_lib in
  let _ := Samples.json_lib in let _ := Samples.codec in let _ := Samples.transport in let _ := Samples.files in
  let _ := Samples.announcements in let _ := Samples.mappings in let _ := sample_hash_order in
  let _ := Samples.json_errors in let _ := Samples.crypto in let _ := Samples.signer in let _ := Samples.signer_keys in
  let _ := Samples.schemes in
  ∃ v' e', outbox_holds (cs_outbox (publish_outbox_loop Samples.app [Samples.down; Samples.up] (Samples.start RpPending))) v' ∧
    v' !! 1%Z = Some e' ∧ oe_status e' = RpPublished ∧
    ∃ t, t ∈ [Samples.down; Samples.up] ∧
      delivered (jb_entry (oe_job (Samples.entry RpPending))) (oe_job (Samples.entry RpPending))
        (Samples.surroundings t).
Proof.
  intros hx ro ul nl jl cd tr fs an mp ho je cr sg sk sc.
  destruct (published_was_acknowledged (OutboxLaws0:=Memory_outbox_laws) Samples.app [Samples.down; Samples.up]
    Samples.surroundings (Samples.start RpPending) _ 1
    (Samples.entry RpPending) (Samples.start_holds RpPending)) as (v' & e' & Hs & He & _ & Hp).
  - reflexivity.
  - discriminate.
  - apply Forall_forall. intros t Ht. by apply Samples.publishes_in.
  - exists v', e'. assert (oe_status e' = RpPublished) as Hst.
    { destruct Hs as [Hv _]. rewrite <-Hv in He. vm_compute in He. injection He as <-. reflexivity. }
    split; [exact Hs|]. split; [exact He|]. split; [exact Hst|]. exact (Hp Hst).
Defined.

Lemma publishing_stuck_witness :
  let _ := hex_model in let _ := Samples.row_order in let _ := Samples.url_lib in let _ := Samples.npub_lib in
  let _ := Samples.json_lib in let _ := Samples.codec in let _ := Samples.transport in let _ := Samples.files in
  let _ := Samples.announcements in let _ := Samples.mappings in let _ := sample_hash_order in
  ∃ v', outbox_holds (cs_outbox (publish_outbox_loop Samples.app [Samples.accepting; Samples.accepting] (Samples.start RpPublishing))) v' ∧
    v' !! 1%Z = Some (Samples.entry RpPublishing).
Proof.
  intros hx ro ul nl jl cd tr fs an mp ho.
  destruct (publishing_stuck (OutboxLaws0:=Memory_outbox_laws) Samples.app [Samples.accepting; Samples.accepting] (Samples.start RpPublishing) _ 1
    (Samples.entry RpPublishing) (Samples.start_holds RpPublishing)) as (v' & Hs & He & _).
  - reflexivity.
  - reflexivity.
  - vm_compute. split; discriminate.
  - exists v'. split; [exact Hs|exact He].
Defined.

Lemma outbox_drains_witness :
  let _ := hex_model in let _ := Samples.row_order in let _ := Samples.url_lib in let _ := Samples.npub_lib in
  let _ := Samples.json_lib in let _ := Samples.codec in let _ := Samples.transport in let _ := Samples.files in
  let _ := Samples.announcements in let _ := Samples.mappings in let _ := sample_hash_order in
  ∃ v' e', outbox_holds (cs_outbox (publish_outbox_loop Samples.app [Samples.down; Samples.accepting] (Samples.start RpPending))) v' ∧
    v' !! 1%Z = Some e' ∧ oe_status e' = RpPublished.
Proof.
  intros hx ro ul nl jl cd tr fs an mp ho.
  destruct (outbox_drains (OutboxLaws0:=Memory_outbox_laws) (OutboxReliability0:=Memory_outbox_reliable) Samples.app 0 [Samples.down] [Samples.accepting] (Samples.start RpPending) _
    (Samples.start_holds RpPending) I) as (v' & Hs & Hd).
  - intros id e [<- <-]%lookup_singleton_Some. simpl. unfold i32_max. lia.
  - intros id e [<- <-]%lookup_singleton_Some _. vm_compute. discriminate.
  - repeat constructor; vm_compute; discriminate.
  - repeat constructor; vm_compute; discriminate.
  - vm_compute. lia.
  - destruct (Hd 1%Z (Samples.entry RpPending) (lookup_singleton_eq _ _) eq_refl) as (e' & He & Hp & _).
    exists v', e'. split; [exact Hs|]. split; [exact He|exact Hp].
Defined.

Definition sample_npub : string := "npub1abcdefabcdefabcdefabcdefabcdefab".
Definition sample_announcement (identifier : string) : RelayEvent :=
  mkRelayEvent 30617 "" "" 0 [["d"; identifier]; ["clone"; "https://host/" +:+ sample_npub +:+ "/x.git"];
                              ["relays"; "wss://relay"]].

Lemma repository_location_witness :
  let _ := Samples.url_lib in let _ := Samples.npub_lib in let _ := Samples.files in let _ := sample_hash_order in
  let hooks := ca_hooks Samples.app in
  let evil := "/home/user/" +:+ sample_npub +:+ "/evil" in
  handle_announcement_event "/srv/git" hooks (sample_announcement evil) tt =
    (Ok (Provisioned (evil +:+ ".git")), tt) ∧
  ∀ root, handle_announcement_event root hooks (sample_announcement evil) tt =
    handle_announcement_event "/srv/git" hooks (sample_announcement evil) tt.
Proof.
  intros ul nl fs ho hooks evil. split; [vm_compute; reflexivity|]. intros root.
  destruct (announcement_of (sample_announcement evil)) as [[a|]|] eqn:Ea;
    [|vm_compute in Ea; discriminate Ea|vm_compute in Ea; discriminate Ea].
  apply (proj2 (repository_location "/srv/git" hooks (sample_announcement evil) a tt Ea)).
  vm_compute in Ea. injection Ea as <-. vm_compute. reflexivity.
Defined.
