(* ===== verification/GitHttp.v ===== *)
(** * [GitHttp]: the gate in front of the forge's git

    Models [services/git-http/src/lib.rs]: the configuration, the routes of git's
    smart HTTP protocol, the repository of the forge that a path stands for, who may
    push to it, and the request that is passed on.  The forge is an argument, any
    implementation of [UpstreamClient]; the clock is an argument too.  Serving and
    metrics are not modelled. *)

From S2P Require Import Prelude RustStr CoreTypes Externals HexModel Nip34Common NostrAuth Membership Database HttpAuth.
From S2P Require Import Dispatch Config Repositories PostgresRepos Cache StateService Coordinator.

(** ** Configuration *)

Record GitHttpConfig := mkGitHttpConfig {
  gh_bind : string; gh_upstream_url : string; gh_timeout_secs : Z; gh_auth : AuthConfig; gh_storage : StorageConfig
}.

Inductive GitHttpConfigError :=
| GcConfig (err : ConfigError)
| GcMissingEnv (key : string)
| GcInvalidEnv (key value : string)
| GcStorage (err : StorageConfigError).

Definition GitHttpConfigError_display (e : GitHttpConfigError) : string :=
  match e with
  | GcConfig err => "git-http config error: " +:+ ConfigError_display err
  | GcMissingEnv key => "missing env " +:+ key
  | GcInvalidEnv key value => "invalid env " +:+ key +:+ ": " +:+ value
  | GcStorage err => "git-http storage config error: " +:+ StorageConfigError_display err
  end.

Definition git_env_u64 (get_var : environment) (key : string) : result GitHttpConfigError (option Z) :=
  match get_var key with
  | None => Ok None
  | Some value => if is_blank value then Ok None else ok_or (GcInvalidEnv key value) (Some <$> parse_u64 value)
  end.

(** [storage_from_env], [storage_env_u32] and [storage_env_u64] read the variables the
    way the state service does. *)
Definition git_storage_from_env (get_var : environment) : result GitHttpConfigError StorageConfig :=
  map_err GcStorage (state_storage_from_env get_var).

Definition GitHttpConfig_from_env `{UrlLib} (get_var : environment) : result GitHttpConfigError GitHttpConfig :=
  services ← map_err GcConfig (ServicesConfig_from_env_validated_with get_var);
  auth ← map_err GcConfig (AuthConfig_from_env_with get_var);
  upstream_url ← ok_or (GcMissingEnv "GITTREE_GIT_HTTP_UPSTREAM_URL") (get_var "GITTREE_GIT_HTTP_UPSTREAM_URL");
  _ ← fail_if (is_none (url_parse upstream_url)) (GcInvalidEnv "GITTREE_GIT_HTTP_UPSTREAM_URL" upstream_url);
  timeout ← git_env_u64 get_var "GITTREE_GIT_HTTP_TIMEOUT_SECS";
  storage ← git_storage_from_env get_var;
  Ok (mkGitHttpConfig (sv_git_http services) upstream_url (default 10%Z timeout) auth storage).

(** ** Routes *)

Record GitHttpRequest := mkGitHttpRequest { gr_method : string; gr_path : string; gr_query : option string }.
Inductive GitHttpService := SvcUploadPack | SvcReceivePack.
Record NormalizedRepo := mkNormalizedRepo {
  nr_npub : string; nr_identifier : string; nr_canonical_path : string; nr_pubkey : string
}.
Inductive GitHttpRoute :=
| InfoRefs (repo : NormalizedRepo) (service : GitHttpService)
| UploadPack (repo : NormalizedRepo)
| ReceivePack (repo : NormalizedRepo)
| RouteNotFound.
Inductive GitHttpRouteError :=
| GrInvalidRepo (message : string)
| GrMissingService
| GrInvalidService (value : string).

Definition is_get (method : string) : bool := eq_ignore_ascii_case method "GET".
Definition is_post (method : string) : bool := eq_ignore_ascii_case method "POST".

Definition split_repo_segments (path : string) : option (string * string * list string) :=
  let trimmed := trim_start_matches_char "/" path in
  match List.filter (λ segment, negb (is_empty segment)) (split "/" trimmed) with
  | npub :: repo :: rest => if is_nil rest then None else Some (npub, repo, rest)
  | _ => None
  end.

Definition canonical_path (npub identifier : string) : string := "/" +:+ npub +:+ "/" +:+ identifier +:+ ".git".

Definition normalize_repo_path `{Bech32Lib} (npub repo_segment : string) : result GitHttpRouteError NormalizedRepo :=
  let path := path_join (path_join "/" npub) repo_segment in
  parsed ← map_err (λ err, GrInvalidRepo (CoreError_display err)) (parse_repo_path (path_components path));
  Ok (mkNormalizedRepo (rp_npub parsed) (rp_identifier parsed)
        (canonical_path (rp_npub parsed) (rp_identifier parsed)) (rp_pubkey parsed)).

(** The first pair named [service] decides. *)
Fixpoint parse_service_pairs (pairs : list string) : result GitHttpRouteError GitHttpService :=
  match pairs with
  | [] => Err GrMissingService
  | entry :: pairs =>
      let parts := splitn 2 "=" entry in
      if negb (bool_decide (head parts = Some "service")) then parse_service_pairs pairs
      else
        let value := default "" (parts !! 1) in
        if value == "git-upload-pack" then Ok SvcUploadPack
        else if value == "git-receive-pack" then Ok SvcReceivePack
        else Err (GrInvalidService value)
  end.
Definition parse_service (query : option string) : result GitHttpRouteError GitHttpService :=
  query ← ok_or GrMissingService query;
  parse_service_pairs (split "&" query).

Definition route_request `{Bech32Lib} (request : GitHttpRequest) : GitHttpRoute :=
  match split_repo_segments (gr_path request) with
  | None => RouteNotFound
  | Some (npub, repo_segment, rest) =>
      if negb (ends_with ".git" repo_segment) then RouteNotFound
      else
        match normalize_repo_path npub repo_segment with
        | Err _ => RouteNotFound
        | Ok repo =>
            if bool_decide (rest = ["info"; "refs"]) && is_get (gr_method request) then
              match parse_service (gr_query request) with
              | Ok service => InfoRefs repo service
              | Err _ => RouteNotFound
              end
            else if bool_decide (rest = ["git-upload-pack"]) && is_post (gr_method request) then UploadPack repo
            else if bool_decide (rest = ["git-receive-pack"]) && is_post (gr_method request) then ReceivePack repo
            else RouteNotFound
        end
  end.

Definition route_label (route : GitHttpRoute) : string :=
  match route with
  | InfoRefs _ _ => "info_refs"
  | UploadPack _ => "upload_pack"
  | ReceivePack _ => "receive_pack"
  | RouteNotFound => "not_found"
  end.

(** ** Errors and the forge *)

Inductive GitHttpHttpError :=
| GeNotFound (message : string)
| GeBadRequest (message : string)
| GeUnauthorized (message : string)
| GeStorage (message : string)
| GeUpstream (message : string)
| GeInternal (message : string).

Definition GitHttpHttpError_into_response (e : GitHttpHttpError) : Z * string :=
  match e with
  | GeNotFound message => (404%Z, message)
  | GeBadRequest message => (400%Z, message)
  | GeUnauthorized message => (401%Z, message)
  | GeStorage message => (500%Z, message)
  | GeUpstream message => (502%Z, message)
  | GeInternal message => (500%Z, message)
  end.

Record UpstreamRequest `{HttpLib} := mkUpstreamRequest {
  ur_method : string; ur_url : string; ur_headers : HeaderMap; ur_body : bytes
}.
Record UpstreamResponse `{HttpLib} := mkUpstreamResponse {
  us_status : Z; us_headers : HeaderMap; us_body : bytes
}.
Inductive UpstreamError := UpRequest (message : string).
Definition UpstreamError_display (e : UpstreamError) : string := match e with UpRequest message => message end.

Class UpstreamClient (U : Type) `{HttpLib} := {
  upstream_send : UpstreamRequest → stateful U UpstreamError UpstreamResponse
}.

(** A request whose body is still to be read. *)
Record IncomingRequest `{HttpLib} := mkIncomingRequest {
  iq_method : string; iq_uri : Uri; iq_headers : HeaderMap; iq_body : result string bytes
}.

(** ** The handlers *)

Section Service.
Context {R U : Type} `{AnnouncementRepository R} `{RepoMappingRepository R} `{HttpLib} `{!UpstreamClient U}.
Context `{Base64Lib} `{Nip98Codec} `{JsonLib} `{HexLib} `{SchnorrSlices} `{UnicodeTables}.

Abbreviation reading := (stateful R GitHttpHttpError).

Definition storage_error (err : StorageError) : GitHttpHttpError := GeStorage (StorageError_display err).

Definition resolve_mapping (repo : NormalizedRepo) : reading RepoMappingRecord :=
  pubkey ← lift (ok_or (GeInternal "invalid repo pubkey") (hex_decode (nr_pubkey repo)));
  record ← map_err_st storage_error (mapping_by_repo pubkey (nr_identifier repo));
  lift (ok_or (GeNotFound "missing repo mapping") record).

(** [while let Some(pubkey) = pending.pop() { … }]; the top of the stack is the
    head of the list.  [None] when the fuel runs out. *)
Fixpoint maintainers_loop (fuel : nat) (identifier : string) (pending : list string) (seen : gset string)
    : reading (option (gset string)) :=
  match fuel with
  | 0 => mret None
  | S fuel =>
      match pending with
      | [] => mret (Some seen)
      | pubkey :: pending =>
          if bool_decide (pubkey ∈ seen) then maintainers_loop fuel identifier pending seen
          else
            let seen := {[pubkey]} ∪ seen in
            pubkey_bytes ← lift (ok_or (GeInternal "invalid maintainer pubkey") (hex_decode pubkey));
            announcement ← map_err_st storage_error (latest_announcement pubkey_bytes identifier);
            match announcement with
            | None => maintainers_loop fuel identifier pending seen
            | Some announcement =>
                maintainers_loop fuel identifier
                  (foldl (λ pending maintainer,
                     let maintainer := to_lowercase maintainer in
                     if bool_decide (maintainer ∈ seen) then pending else maintainer :: pending)
                     pending (ra_maintainers announcement)) seen
            end
      end
  end.

Definition resolve_maintainers (fuel : nat) (repo : NormalizedRepo) : reading (option (list string)) :=
  seen ← maintainers_loop fuel (nr_identifier repo) [to_lowercase (nr_pubkey repo)] ∅;
  mret ((λ seen : gset string, merge_sort String.le (elements seen)) <$> seen).

(** [uri.path()] with [?] and the query, if there is one. *)
Definition git_uri_path (uri : Uri) : string :=
  match uri_query uri with
  | Some query => uri_path uri +:+ "?" +:+ query
  | None => uri_path uri
  end.
Definition payload_hash (body : bytes) : option string :=
  if is_empty body then None else Some (hex_encode (sha256 body)).
(** [parse_nostr_auth], [build_request_url] and [validate_nip98] in turn. *)
Definition git_authenticate (auth : AuthConfig) (now : Z) (q : HttpRequest) : result GitHttpHttpError Nip98Auth :=
  authenticate_as GeUnauthorized GeBadRequest git_uri_path (as_i64 (au_max_skew_seconds auth)) now
    (payload_hash (hq_body q)) q.

Definition authorize_receive_pack (fuel : nat) (auth : AuthConfig) (now : Z) (repo : NormalizedRepo)
    (q : HttpRequest) : reading (option unit) :=
  caller ← lift (git_authenticate auth now q);
  maintainers ← resolve_maintainers fuel repo;
  match maintainers with
  | None => mret None
  | Some maintainers =>
      _ ← lift (fail_if (negb (existsb (λ pubkey, eq_ignore_ascii_case pubkey (na_pubkey caller)) maintainers))
                  (GeUnauthorized "pubkey not authorized"));
      mret (Some tt)
  end.

(** The state of the service; [auth] and [upstream_url] never change. *)
Record GitHttpAppState := mkGitHttpAppState { ga_repositories : R; ga_upstream : U }.
Abbreviation handler := (stateful GitHttpAppState GitHttpHttpError).

Definition on_repositories {X} (c : reading X) : handler X := λ s,
  let '(r, repositories) := c (ga_repositories s) in (r, mkGitHttpAppState repositories (ga_upstream s)).
Definition on_upstream {X} (c : stateful U UpstreamError X) : handler X := λ s,
  let '(r, upstream) := c (ga_upstream s) in
  (map_err (λ err, GeUpstream (UpstreamError_display err)) r, mkGitHttpAppState (ga_repositories s) upstream).

Definition upstream_base (config : GitHttpConfig) : string := trim_end_matches "/" (gh_upstream_url config).

(** The repository, the suffix of the forge's path, and the query that is passed on. *)
Definition route_target (route : GitHttpRoute) (uri : Uri) : option (NormalizedRepo * string * option string) :=
  match route with
  | InfoRefs repo _ => Some (repo, "/info/refs", uri_query uri)
  | UploadPack repo => Some (repo, "/git-upload-pack", None)
  | ReceivePack repo => Some (repo, "/git-receive-pack", None)
  | RouteNotFound => None
  end.

Definition upstream_target (base : string) (mapping : RepoMappingRecord) (suffix : string) (query : option string) : string :=
  base +:+ "/" +:+ mp_forgejo_owner mapping +:+ "/" +:+ mp_forgejo_repo mapping +:+ ".git" +:+ suffix +:+
  match query with Some query => "?" +:+ query | None => "" end.

Definition passed_headers (headers : HeaderMap) : HeaderMap :=
  headers_remove AUTH_HEADER (headers_remove "host" headers).

Definition is_receive_pack (route : GitHttpRoute) : bool :=
  match route with ReceivePack _ => true | _ => false end.

Definition handle_git_route (fuel : nat) (auth : AuthConfig) (base : string) (now : Z) (route : GitHttpRoute)
    (q : IncomingRequest) : handler (option UpstreamResponse) :=
  target ← lift (ok_or (GeNotFound "not found") (route_target route (iq_uri q)));
  let '(repo, suffix, query) := target in
  mapping ← on_repositories (resolve_mapping repo);
  let url := upstream_target base mapping suffix query in
  let headers := passed_headers (iq_headers q) in
  body ← lift (map_err GeInternal (iq_body q));
  allowed ← (if is_receive_pack route
             then on_repositories (authorize_receive_pack fuel auth now repo
                    (mkHttpRequest _ (iq_method q) (iq_uri q) (iq_headers q) body))
             else mret (Some tt));
  match allowed with
  | None => mret None
  | Some _ =>
      response ← on_upstream (upstream_send (mkUpstreamRequest _ (iq_method q) url headers body));
      mret (Some response)
  end.

(** What the client gets: the forge's response or an error. *)
Inductive GitReply := Passed (response : UpstreamResponse) | Failed (status : Z) (message : string).

Definition git_handler `{Bech32Lib} (fuel : nat) (auth : AuthConfig) (base : string) (now : Z) (q : IncomingRequest)
    (s : GitHttpAppState) : option GitReply * GitHttpAppState :=
  let route := route_request (mkGitHttpRequest (iq_method q) (uri_path (iq_uri q)) (uri_query (iq_uri q))) in
  let '(r, s) := handle_git_route fuel auth base now route q s in
  (match r with
   | Ok response => Passed <$> response
   | Err err => let '(status, message) := GitHttpHttpError_into_response err in Some (Failed status message)
   end, s).
End Service.

(** ** Keys in hexadecimal *)

Lemma hexdigit_ascii a : is_ascii_hexdigit (ascii_lower a) = true → is_ascii a = true.
Proof. by destruct a as [[] [] [] [] [] [] [] []]. Qed.

Lemma hex_decode_ascii `{HexLaws} s b : hex_decode s = Some b → str_all is_ascii s = true.
Proof.
  intros Hb%hex_encode_decode. pose proof (hex_encode_digits b) as Hd. rewrite Hb in Hd. clear Hb.
  unfold all_hexdigit, to_ascii_lowercase in Hd. induction s as [|a s IH]; [done|]. simpl in *.
  apply andb_true_iff in Hd as [Ha Hs]. by rewrite (hexdigit_ascii a Ha), IH.
Qed.

Lemma hex_decode_lowercase `{HexLaws} `{UnicodeTables} s b :
  hex_decode s = Some b → hex_decode (to_lowercase s) = Some b.
Proof. intros Hb. unfold to_lowercase. by rewrite (hex_decode_ascii _ _ Hb), hex_decode_case. Qed.

(** Two spellings of a key are the same but for the case of letters. *)
Lemma hex_decode_same `{HexLaws} s t b :
  hex_decode s = Some b → hex_decode t = Some b → eq_ignore_ascii_case s t = true.
Proof.
  intros Hs%hex_encode_decode Ht%hex_encode_decode. unfold eq_ignore_ascii_case. apply bool_decide_eq_true. congruence.
Qed.

(** ** Who may push *)

Section Trust.
Context `{HexLib} `{UnicodeTables} (l : list RepoAnnouncementRecord) (identifier : string).

(** [r] is the latest announcement of the repository by [p]. *)
Definition latest_by (p : bytes) (r : RepoAnnouncementRecord) : Prop :=
  latest_of ra_created_at (List.filter (ann_of p identifier) l) (Some r).

(** The owner, and every key that the latest announcement of a trusted key names. *)
Inductive trusted (owner : bytes) : bytes → Prop :=
| trusted_owner : trusted owner owner
| trusted_named p r m q : trusted owner p → latest_by p r → m ∈ ra_maintainers r →
    hex_decode (to_lowercase m) = Some q → trusted owner q.

(** The announcements as the loop reads them. *)
Definition lower_ann (r : RepoAnnouncementRecord) : RepoAnnouncementRecord :=
  mkRepoAnnouncementRecord (ra_event_id r) (ra_rec_pubkey r) (ra_rec_identifier r) (ra_name r) (ra_description r)
    (ra_root_commit r) (ra_clone_urls r) (ra_web_urls r) (ra_relays r) (ra_blossoms r) (ra_hashtags r)
    (to_lowercase <$> ra_maintainers r) (ra_created_at r).
Definition lowered : list RepoAnnouncementRecord := lower_ann <$> l.

Lemma filter_lowered p : List.filter (ann_of p identifier) lowered = lower_ann <$> List.filter (ann_of p identifier) l.
Proof.
  unfold lowered. induction l as [|r l' IH]; [done|]. cbn [fmap list_fmap List.filter].
  change (ann_of p identifier (lower_ann r)) with (ann_of p identifier r). destruct (ann_of p identifier r); [|exact IH].
  by rewrite fmap_cons, <-IH.
Qed.

Lemma listed_lowered c r' :
  listed lowered identifier c r' ↔ ∃ p r, hex_decode c = Some p ∧ latest_by p r ∧ r' = lower_ann r.
Proof.
  unfold listed, latest_by. setoid_rewrite filter_lowered. split.
  - intros (p & Hp & (r & -> & Hr)%list_elem_of_fmap & Hmax). exists p, r. split_and!; [done| |done]. split; [done|].
    intros x Hx. apply (Hmax (lower_ann x)), list_elem_of_fmap. eauto.
  - intros (p & r & Hp & [Hr Hmax] & ->). exists p. split; [done|]. split; [apply list_elem_of_fmap; eauto|].
    intros x (y & -> & Hy)%list_elem_of_fmap. simpl. by apply Hmax.
Qed.

(** The keys as the loop meets them. *)
Inductive met (root : string) : string → Prop :=
| met_root : met root root
| met_step c r m : met root c → listed lowered identifier c r → m ∈ ra_maintainers r → met root m.

Lemma met_trusted root owner p :
  hex_decode root = Some owner → trusted owner p ↔ ∃ c, met root c ∧ hex_decode c = Some p.
Proof.
  intros Hroot. split.
  - induction 1 as [|p r m q _ (c & Hc & Hp) Hr Hm Hq]; [by exists root; split; [constructor|]|].
    exists (to_lowercase m). split; [|done]. apply (met_step _ c (lower_ann r)); [done| |].
    + apply listed_lowered. eauto 6.
    + simpl. apply list_elem_of_fmap. eauto.
  - intros (c & Hc & Hp). revert p Hp. induction Hc as [|c r m _ IH Hl Hm]; intros q Hq; [simplify_eq; constructor|].
    apply listed_lowered in Hl as (p & r0 & Hp & Hr0 & ->). simpl in Hm.
    apply list_elem_of_fmap in Hm as (m0 & -> & Hm0). apply (trusted_named _ p r0 m0); auto.
Qed.

Lemma met_universe root c : met root c → c ∈ universe lowered root.
Proof. destruct 1 as [|c r m _ Hl Hm]; [left|]. by eapply listed_maintainers. Qed.

Lemma listed_unique c r r' :
  untied l identifier → listed lowered identifier c r → listed lowered identifier c r' → r = r'.
Proof.
  intros Hu (p & x & Hp & Hx & ->)%listed_lowered (p' & x' & Hp' & Hx' & ->)%listed_lowered. simplify_eq.
  f_equal. by eapply Hu.
Qed.

(** The state of the loop. *)
Record visiting (root : string) (pending : list string) (seen : gset string) : Prop := {
  visit_met : ∀ c, c ∈ pending ∨ c ∈ seen → met root c;
  visit_root : root ∈ seen ∨ root ∈ pending;
  visit_closed : untied l identifier → ∀ c r m, c ∈ seen → listed lowered identifier c r →
    m ∈ ra_maintainers r → m ∈ seen ∨ m ∈ pending
}.

Lemma visiting_start root : visiting root [root] ∅.
Proof. split; [|right; left|set_solver]. intros c [->%list_elem_of_singleton|]; [constructor|set_solver]. Qed.

Lemma visiting_end root seen c : untied l identifier → visiting root [] seen → met root c → c ∈ seen.
Proof.
  intros Hu [Hm Hr Hc]. induction 1 as [|c r m _ IH Hl Hin].
  - destruct Hr as [|Hn]; [done|by apply not_elem_of_nil in Hn].
  - destruct (Hc Hu c r m IH Hl Hin) as [|Hn]; [done|by apply not_elem_of_nil in Hn].
Qed.

Lemma visiting_skip root c pending seen : visiting root (c :: pending) seen → c ∈ seen → visiting root pending seen.
Proof.
  intros [Hm Hr Hc] Hseen. split; [set_solver| |].
  - destruct Hr as [|[->|]%elem_of_cons]; auto.
  - intros Hu c' r m Hc' Hl Hin. destruct (Hc Hu c' r m Hc' Hl Hin) as [|[->|]%elem_of_cons]; auto.
Qed.

(** Visiting a key whose latest announcement names [ms]. *)
Lemma visiting_add root c ms pending seen :
  visiting root (c :: pending) seen →
  (∀ m, m ∈ ms → ∃ r, listed lowered identifier c r ∧ m ∈ ra_maintainers r) →
  (∀ r, untied l identifier → listed lowered identifier c r → ra_maintainers r = ms) →
  visiting root (push_maintainers ({[c]} ∪ seen) pending ms) ({[c]} ∪ seen).
Proof.
  intros [Hm Hr Hc] Hms Hall. split.
  - intros m [[Hp|[Hin _]]%elem_of_push|[->%elem_of_singleton|Hs]%elem_of_union];
      [apply Hm; set_solver| |apply Hm; set_solver|auto].
    destruct (Hms m Hin) as (r & Hl & Hr'). apply (met_step _ c r); [apply Hm; set_solver|done|done].
  - rewrite elem_of_push. destruct Hr as [|[->|]%elem_of_cons]; set_solver.
  - intros Hu c' r m [->%elem_of_singleton|Hs]%elem_of_union Hl Hin; rewrite elem_of_push.
    + rewrite (Hall _ Hu Hl) in Hin. destruct (decide (m ∈ ({[c]} ∪ seen : gset string))); auto.
    + destruct (Hc Hu c' r m Hs Hl Hin) as [|[->|]%elem_of_cons]; set_solver.
Qed.

End Trust.

(** ** The loop over maintainers *)

Section Resolution.
Context {R : Type} `{AnnouncementRepository R} `{HexLaws} `{UnicodeTables}.
(** A repository that stands for a list of announcements, as it is read. *)
Context (holds : R → list RepoAnnouncementRecord → Prop).
Context (reads_latest : ∀ p i, answers holds (latest_announcement p i)
  (λ l o, latest_of ra_created_at (List.filter (ann_of p i) l) o)).

(** Why the maintainers cannot be resolved: a key that is met is not hexadecimal, or a
    read fails. *)
Inductive unresolved (l : list RepoAnnouncementRecord) (identifier root : string) : GitHttpHttpError → Prop :=
| unresolved_key c : met l identifier root c → hex_decode c = None →
    unresolved l identifier root (GeInternal "invalid maintainer pubkey")
| unresolved_read p s s' err : holds s l → latest_announcement p identifier s = (Err err, s') →
    unresolved l identifier root (storage_error err).

Lemma push_lower seen pending ms :
  foldl (λ pending m, let m := to_lowercase m in if bool_decide (m ∈ seen) then pending else m :: pending) pending ms
  = push_maintainers seen pending (to_lowercase <$> ms).
Proof. revert pending. induction ms as [|m ms IH]; intros pending; [done|]. rewrite fmap_cons, push_cons. apply IH. Qed.

Definition maintainers_outcome (l : list RepoAnnouncementRecord) (identifier root : string)
    (r : result GitHttpHttpError (option (gset string))) : Prop :=
  match r with
  | Ok (Some seen) => (∀ c, c ∈ seen → met l identifier root c ∧ is_Some (hex_decode c)) ∧
      (untied l identifier → ∀ c, met l identifier root c → c ∈ seen)
  | Ok None => False
  | Err e => unresolved l identifier root e
  end.

Lemma maintainers_loop_spec l identifier root fuel pending seen s r s' :
  holds s l → visiting l identifier root pending seen → (∀ c, c ∈ seen → is_Some (hex_decode c)) →
  work (lowered l) root pending seen < fuel →
  maintainers_loop fuel identifier pending seen s = (r, s') → holds s' l ∧ maintainers_outcome l identifier root r.
Proof.
  revert pending seen s. induction fuel as [|fuel IH]; intros pending seen s Hs Hv Hk Hw; [lia|].
  destruct pending as [|c pending]; cbn [maintainers_loop].
  { intros [= <- <-]. split; [done|]. split; [|by intros; eapply visiting_end].
    intros c Hc. split; [apply Hv; by right|auto]. }
  pose proof (work_skip (lowered l) root c pending seen) as Hskip.
  case_bool_decide as Hseen; [apply IH; [done|by eapply visiting_skip|done|lia]|].
  unfold mbind, stateful_bind, lift, map_err_st. destruct (hex_decode c) as [p|] eqn:Ep; cbn [ok_or].
  2:{ intros [= <- <-]. split; [done|]. eapply unresolved_key; [|done]. apply Hv. left. left. }
  destruct (latest_announcement p identifier s) as [[o|err] s1] eqn:El;
    destruct (reads_latest p identifier _ _ _ _ Hs El) as [Hs1 Ho]; cbn [map_err].
  2:{ intros [= <- <-]. split; [done|]. exact (unresolved_read _ _ _ _ _ _ _ Hs El). }
  specialize (Ho _ eq_refl).
  assert (∀ x, x ∈ ({[c]} ∪ seen : gset string) → is_Some (hex_decode x)) as Hk'.
  { intros x [->%elem_of_singleton|?]%elem_of_union; eauto. }
  assert (c ∈ universe (lowered l) root) as Huniv by (eapply met_universe, Hv; left; left).
  destruct o as [a|].
  - assert (listed (lowered l) identifier c (lower_ann a)) as Hl by (apply listed_lowered; eauto 6).
    rewrite push_lower. apply IH; [done| |done|].
    + apply visiting_add; [done| |].
      * intros m Hm. by exists (lower_ann a).
      * intros r0 Hu Hl0. by rewrite (listed_unique _ _ _ _ _ Hu Hl0 Hl).
    + eapply Nat.lt_le_trans; [|apply Nat.lt_succ_r, Hw].
      apply work_push; [apply (listed_length _ _ root _ _ Hl)|done|done].
  - change pending with (push_maintainers ({[c]} ∪ seen) pending []). apply IH; [done| |done|].
    + apply visiting_add; [done|set_solver|]. intros r0 _ (p' & a & Hp' & [Hin _] & ->)%listed_lowered.
      simplify_eq. simpl in Ho. rewrite Ho in Hin. by apply not_elem_of_nil in Hin.
    + eapply Nat.lt_le_trans; [|apply Nat.lt_succ_r, Hw]. apply work_push; [simpl; lia|done|done].
Qed.

(** The fuel that is enough, for every repository: it depends on the number of maintainers. *)
Definition maintainers_fuel (l : list RepoAnnouncementRecord) : nat := resolve_fuel (lowered l) "".

Lemma resolve_maintainers_spec l fuel repo s r s' :
  holds s l → maintainers_fuel l ≤ fuel → resolve_maintainers fuel repo s = (r, s') →
  holds s' l ∧
  match r with
  | Ok (Some ms) => (∀ c, c ∈ ms → met l (nr_identifier repo) (to_lowercase (nr_pubkey repo)) c ∧ is_Some (hex_decode c)) ∧
      (untied l (nr_identifier repo) → ∀ c, met l (nr_identifier repo) (to_lowercase (nr_pubkey repo)) c → c ∈ ms)
  | Ok None => False
  | Err e => unresolved l (nr_identifier repo) (to_lowercase (nr_pubkey repo)) e
  end.
Proof.
  intros Hs Hf. unfold resolve_maintainers, mbind, stateful_bind.
  destruct (maintainers_loop _ _ _ _ s) as [r0 s0] eqn:El. intros E.
  destruct (maintainers_loop_spec _ _ _ _ _ _ _ _ _ Hs (visiting_start _ _ _) ltac:(set_solver)
    (resolve_fuel_work _ (to_lowercase (nr_pubkey repo)) _ Hf) El) as [Hs0 Ho].
  destruct r0 as [[seen|]|e]; injection E as <- <-; [|done|done]. split; [done|].
  destruct Ho as [Ho Ho']. setoid_rewrite merge_sort_Permutation. setoid_rewrite elem_of_elements. done.
Qed.

End Resolution.

(** ** The gate *)

Section Gate.
Context {R U : Type} `{AnnouncementRepository R} `{RepoMappingRepository R} `{HttpLib} `{!HttpLaws} `{!UpstreamClient U}.
Context `{Base64Lib} `{Nip98Codec} `{JsonLib} `{HexLaws} `{SchnorrSlices} `{!CryptoLaws} `{UnicodeTables}.
Context (holds : R → list RepoAnnouncementRecord → Prop).
Context (reads_latest : ∀ p i, answers holds (latest_announcement p i)
  (λ l o, latest_of ra_created_at (List.filter (ann_of p i) l) o)).
Context (reads_mapping : ∀ p i, answers holds (mapping_by_repo p i) (λ _ _, True)).

(** The request carries an event that authorises it, signed by [pk]. *)
Definition push_signed (auth : AuthConfig) (now : Z) (q : HttpRequest) : Nip98Event → bytes → Prop :=
  request_signed git_uri_path (as_i64 (au_max_skew_seconds auth)) now (payload_hash (hq_body q)) q.

Lemma authorize_spec l fuel auth now repo owner q s r s' :
  hex_decode (nr_pubkey repo) = Some owner → holds s l → maintainers_fuel l ≤ fuel →
  authorize_receive_pack fuel auth now repo q s = (r, s') →
  holds s' l ∧
  match r with
  | Ok (Some _) => ∃ event pk, push_signed auth now q event pk ∧ trusted l (nr_identifier repo) owner pk
  | Ok None => False
  | Err e => unresolved holds l (nr_identifier repo) (to_lowercase (nr_pubkey repo)) e ∨
      (untied l (nr_identifier repo) → ∀ event pk, push_signed auth now q event pk → ¬ trusted l (nr_identifier repo) owner pk)
  end.
Proof.
  intros Hown%hex_decode_lowercase Hs Hf. pose proof (λ p, met_trusted l (nr_identifier repo) _ _ p Hown) as Htr.
  unfold authorize_receive_pack, mbind, stateful_bind, lift.
  destruct (git_authenticate auth now q) as [caller|e] eqn:Ea.
  2:{ intros [= <- <-]. split; [done|]. right. intros _ event pk Hsig _.
      assert (git_authenticate auth now q = Ok (mkNip98Auth (ne_pubkey event) pk (ne_id event))) as E.
      { apply authenticate_Ok. by exists event. }
      by rewrite E in Ea. }
  apply authenticate_Ok in Ea as (event & Hsig & ->). set (pk := na_pubkey_bytes caller) in *.
  destruct (request_signed_key Hsig) as [_ Hpk].
  destruct (resolve_maintainers fuel repo s) as [r0 s0] eqn:Er.
  destruct (resolve_maintainers_spec holds reads_latest _ _ _ _ _ _ Hs Hf Er) as [Hs0 Ho].
  destruct r0 as [[ms|]|e]; [|done|intros [= <- <-]; auto]. destruct Ho as [Hin Hall].
  destruct (existsb _ ms) eqn:Ex; cbn [negb fail_if]; intros [= <- <-]; (split; [done|]).
  - apply existsb_true in Ex as (c & Hc & Heq). destruct (Hin c Hc) as [Hm [b Hb]].
    exists event, pk. split; [done|]. apply Htr. exists c. split; [done|].
    by rewrite (hex_decode_ignore_case _ _ Heq).
  - right. intros Hu event' pk' Hsig' Ht. destruct (request_signed_fun _ _ _ _ _ _ _ _ _ _ _ _ _ Hsig Hsig') as [-> ->].
    apply Htr in Ht as (c & Hc%(Hall Hu) & Hd). rewrite existsb_false in Ex.
    specialize (Ex c Hc). cbn [na_pubkey] in Ex. by rewrite (hex_decode_same _ _ _ Hd Hpk) in Ex.
Qed.

Context `{Bech32Lib}.

Definition route_of (q : IncomingRequest) : GitHttpRoute :=
  route_request (mkGitHttpRequest (iq_method q) (uri_path (iq_uri q)) (uri_query (iq_uri q))).
Definition with_body (q : IncomingRequest) (body : bytes) : HttpRequest :=
  mkHttpRequest _ (iq_method q) (iq_uri q) (iq_headers q) body.

(** [u] is the request for the forge that [q] becomes: to the repository that its path is mapped to. *)
Definition becomes (base : string) (q : IncomingRequest) (repositories : R) (repo : NormalizedRepo) (owner : bytes)
    (body : bytes) (u : UpstreamRequest) : Prop :=
  ∃ suffix query mapping,
    route_target (route_of q) (iq_uri q) = Some (repo, suffix, query) ∧ hex_decode (nr_pubkey repo) = Some owner ∧
    (mapping_by_repo owner (nr_identifier repo) repositories).1 = Ok (Some mapping) ∧ iq_body q = Ok body ∧
    u = mkUpstreamRequest _ (iq_method q) (upstream_target base mapping suffix query) (passed_headers (iq_headers q)) body.

Lemma becomes_unique base q repositories repo owner body u repo' owner' body' u' :
  becomes base q repositories repo owner body u → becomes base q repositories repo' owner' body' u' → u = u'.
Proof.
  intros (? & ? & ? & ? & ? & Hm & ? & ->) (? & ? & ? & ? & ? & Hm' & ? & ->). simplify_eq. rewrite Hm in Hm'.
  simplify_eq. by replace body' with body by congruence.
Qed.

(** A push is allowed to who signed it. *)
Definition allowed (auth : AuthConfig) (now : Z) (q : IncomingRequest) (l : list RepoAnnouncementRecord)
    (repo : NormalizedRepo) (owner body : bytes) : Prop :=
  is_receive_pack (route_of q) = true →
  ∃ event pk, push_signed auth now (with_body q body) event pk ∧ trusted l (nr_identifier repo) owner pk.

(** Why a request that would become one for the forge is not passed on. *)
Definition refused (auth : AuthConfig) (now : Z) (q : IncomingRequest) (l : list RepoAnnouncementRecord)
    (repo : NormalizedRepo) (owner body : bytes) : Prop :=
  is_receive_pack (route_of q) = true ∧
  ((∃ e, unresolved holds l (nr_identifier repo) (to_lowercase (nr_pubkey repo)) e) ∨
   (untied l (nr_identifier repo) → ¬ allowed auth now q l repo owner body)).

Inductive gate_outcome (auth : AuthConfig) (base : string) (now : Z) (q : IncomingRequest)
    (l : list RepoAnnouncementRecord) (s : GitHttpAppState) :
    result GitHttpHttpError (option UpstreamResponse) → GitHttpAppState → Prop :=
| gate_refused e s' : holds (ga_repositories s') l → ga_upstream s' = ga_upstream s →
    (∀ repo owner body u, becomes base q (ga_repositories s) repo owner body u → refused auth now q l repo owner body) →
    gate_outcome auth base now q l s (Err e) s'
| gate_passed repo owner body u r up s' : holds (ga_repositories s') l →
    becomes base q (ga_repositories s) repo owner body u → allowed auth now q l repo owner body →
    upstream_send u (ga_upstream s) = (r, up) → ga_upstream s' = up →
    gate_outcome auth base now q l s
      (Some <$> map_err (λ err, GeUpstream (UpstreamError_display err)) r) s'.

Lemma handle_git_route_outcome l fuel auth base now q s r s' :
  holds (ga_repositories s) l → maintainers_fuel l ≤ fuel →
  handle_git_route fuel auth base now (route_of q) q s = (r, s') → gate_outcome auth base now q l s r s'.
Proof.
  intros Hs Hf. unfold handle_git_route, mbind, stateful_bind, lift, on_repositories, resolve_mapping, map_err_st.
  destruct (route_target (route_of q) (iq_uri q)) as [[[repo suffix] query]|] eqn:Et; cbn [ok_or].
  2:{ intros [= <- <-]. constructor; [done|done|]. intros ???? (? & ? & ? & ? & _). congruence. }
  unfold mbind, stateful_bind, lift. destruct (hex_decode (nr_pubkey repo)) as [owner|] eqn:Eo; cbn [ok_or].
  2:{ intros [= <- <-]. constructor; [done|done|]. intros ???? (? & ? & ? & ? & ? & _). congruence. }
  destruct (mapping_by_repo owner (nr_identifier repo) (ga_repositories s)) as [m s1] eqn:Em.
  destruct (reads_mapping _ _ _ _ _ _ Hs Em) as [Hs1 _].
  assert (∀ repo' owner' body u, becomes base q (ga_repositories s) repo' owner' body u →
    repo' = repo ∧ owner' = owner ∧ iq_body q = Ok body ∧ is_Some (mjoin (ok m))) as Hbec.
  { intros ???? (suffix' & query' & mapping & Ht & Ho & Hm & Hb & _). simplify_eq. rewrite Em in Hm. simpl in Hm.
    simplify_eq. eauto. }
  destruct m as [[mapping|]|err]; cbn [map_err ok_or].
  2,3: intros [= <- <-]; constructor; [done|done|]; intros ???? (_ & _ & _ & [? ?])%Hbec; done.
  destruct (iq_body q) as [body|berr] eqn:Eb; cbn [map_err].
  2:{ intros [= <- <-]. constructor; [done|done|]. by intros ???? (_ & _ & ? & _)%Hbec. }
  set (u := mkUpstreamRequest _ _ _ _ _).
  assert (becomes base q (ga_repositories s) repo owner body u) as Hu.
  { exists suffix, query, mapping. split_and!; [done|done| |done|done]. by rewrite Em. }
  unfold on_upstream. destruct (is_receive_pack (route_of q)) eqn:Er; cbn [ga_repositories ga_upstream].
  - destruct (authorize_receive_pack fuel auth now repo _ s1) as [a s2] eqn:Ea.
    destruct (authorize_spec _ _ _ _ _ _ _ _ _ _ Eo Hs1 Hf Ea) as [Hs2 Ho].
    destruct a as [[[]|]|e]; [|done|].
    + cbn [ga_upstream]. destruct (upstream_send u (ga_upstream s)) as [res up] eqn:Eu.
      destruct res; intros [= <- <-];
        exact (gate_passed _ _ _ _ _ _ repo owner body u _ up (mkGitHttpAppState s2 up) Hs2 Hu (λ _, Ho) Eu eq_refl).
    + intros [= <- <-]. constructor; [done|done|]. intros ???? (-> & -> & [= <-] & _)%Hbec.
      split; [done|]. destruct Ho as [Ho|Ho]; [left; eauto|right]. intros Hun Hal. destruct (Hal Er) as (event & pk & Hsig & Ht).
      by apply (Ho Hun event pk).
  - cbn [mret stateful_ret ga_repositories ga_upstream].
    destruct (upstream_send u (ga_upstream s)) as [res up] eqn:Eu.
    assert (allowed auth now q l repo owner body) as Hal by (intros Hr; congruence).
    destruct res; intros [= <- <-];
      exact (gate_passed _ _ _ _ _ _ repo owner body u _ up (mkGitHttpAppState s1 up) Hs1 Hu Hal Eu eq_refl).
Qed.

Lemma passed_headers_stripped headers :
  headers_get AUTH_HEADER (passed_headers headers) = None ∧ headers_get "host" (passed_headers headers) = None.
Proof.
  unfold passed_headers. split; [apply headers_get_removed|].
  rewrite headers_get_other by done. apply headers_get_removed.
Qed.

(** C4: nothing reaches the forge that is not allowed: a request leaves the forge alone, or is
    passed on once, to the repository that its path is mapped to and without the caller's
    credentials; and then, if it is a push, it carries an event for exactly this
    request, in time and over the body, signed by the owner of the repository or by a key that
    announcements name as maintainer, starting from the owner's. *)
Theorem pushes_by_maintainers l fuel auth base now q s reply s' :
  holds (ga_repositories s) l → maintainers_fuel l ≤ fuel →
  git_handler fuel auth base now q s = (reply, s') →
  holds (ga_repositories s') l ∧
  (ga_upstream s' = ga_upstream s ∨
   ∃ repo owner body u, becomes base q (ga_repositories s) repo owner body u ∧
     ga_upstream s' = (upstream_send u (ga_upstream s)).2 ∧
     headers_get AUTH_HEADER (ur_headers u) = None ∧ headers_get "host" (ur_headers u) = None ∧
     (is_receive_pack (route_of q) = true → ∃ event pk,
        push_signed auth now (with_body q body) event pk ∧ trusted l (nr_identifier repo) owner pk)).
Proof.
  intros Hs Hf. unfold git_handler. destruct (handle_git_route _ _ _ _ _ q s) as [r s1] eqn:E. intros [= <- <-].
  destruct (handle_git_route_outcome _ _ _ _ _ _ _ _ _ Hs Hf E)
    as [e s2 Hs2 Hup _|repo owner body u r up s2 Hs2 Hb Hal Hsend Hup]; (split; [done|]); [by left|right].
  exists repo, owner, body, u. rewrite Hsend. split_and!; [done|done| | |done];
    destruct Hb as (? & ? & ? & _ & _ & _ & _ & ->); apply passed_headers_stripped.
Qed.

End Gate.

(** What the answer of the forge becomes. *)
Definition forge_reply `{HttpLib} (res : result UpstreamError UpstreamResponse) : GitReply :=
  match res with Ok response => Passed response | Err err => Failed 502 (UpstreamError_display err) end.

(** A request for a repository whose mapping is read is passed to the mapped name, unless it
    is a push that is not authorised. *)
Lemma mapped_request_passed {R U : Type} `{AnnouncementRepository R} `{RepoMappingRepository R} `{HttpLib} `{!UpstreamClient U}
    `{Base64Lib} `{Nip98Codec} `{JsonLib} `{HexLib} `{SchnorrSlices} `{UnicodeTables} `{Bech32Lib}
    fuel auth base now q (s s' : GitHttpAppState (R:=R) (U:=U)) reply repo suffix query owner body mapping s1 :
  route_target (route_of q) (iq_uri q) = Some (repo, suffix, query) → hex_decode (nr_pubkey repo) = Some owner →
  mapping_by_repo owner (nr_identifier repo) (ga_repositories s) = (Ok (Some mapping), s1) → iq_body q = Ok body →
  git_handler fuel auth base now q s = (reply, s') →
  (∃ res, upstream_send (mkUpstreamRequest _ (iq_method q) (upstream_target base mapping suffix query)
        (passed_headers (iq_headers q)) body) (ga_upstream s) = (res, ga_upstream s') ∧ reply = Some (forge_reply res)) ∨
  ga_upstream s' = ga_upstream s ∧ is_receive_pack (route_of q) = true ∧
    (authorize_receive_pack fuel auth now repo (with_body q body) s1).1 ≠ Ok (Some tt).
Proof.
  intros Ht Ho Hm Hb. unfold git_handler. fold (route_of q).
  unfold handle_git_route, mbind, stateful_bind, lift, on_repositories, resolve_mapping, map_err_st.
  rewrite Ht. cbn [ok_or]. unfold mbind, stateful_bind, lift. rewrite Ho. cbn [ok_or]. rewrite Hm. cbn [map_err ok_or].
  rewrite Hb. cbn [map_err]. set (u := mkUpstreamRequest _ _ _ _ _). unfold on_upstream. cbn [ga_repositories ga_upstream].
  destruct (is_receive_pack (route_of q)) eqn:Er.
  - unfold with_body. cbn [ga_repositories ga_upstream]. destruct (authorize_receive_pack fuel auth now repo _ s1) as [a s2].
    destruct a as [[[]|]|e].
    + cbn [ga_upstream]. destruct (upstream_send u (ga_upstream s)) as [res up].
      destruct res as [response|err]; intros [= <- <-]; left; [by exists (Ok response)|by exists (Err err)].
    + intros [= <- <-]. by right.
    + destruct (GitHttpHttpError_into_response e). intros [= <- <-]. by right.
  - cbn [mret stateful_ret ga_repositories ga_upstream]. destruct (upstream_send u (ga_upstream s)) as [res up].
    destruct res as [response|err]; intros [= <- <-]; left; [by exists (Ok response)|by exists (Err err)].
Qed.

Section Pushing.
Context {R U : Type} `{AnnouncementRepository R} `{RepoMappingRepository R} `{HttpLib} `{!HttpLaws} `{!UpstreamClient U}.
Context `{Base64Lib} `{Nip98Codec} `{JsonLib} `{HexLaws} `{SchnorrSlices} `{!CryptoLaws} `{UnicodeTables} `{Bech32Lib}.
Context (holds : R → list RepoAnnouncementRecord → Prop).
Context (reads_latest : ∀ p i, answers holds (latest_announcement p i)
  (λ l o, latest_of ra_created_at (List.filter (ann_of p i) l) o)).
Context (reads_mapping : ∀ p i, answers holds (mapping_by_repo p i) (λ _ _, True)).
(** A repository whose reads do not fail. *)
Context (good : R → Prop) (reads_good : ∀ p i s, good s → ∃ o s', latest_announcement p i s = (Ok o, s') ∧ good s').
Context (mapping_good : ∀ p i s, good s → good (mapping_by_repo p i s).2).

Lemma good_reads_mapping p i : answers (λ s l, holds s l ∧ good s) (mapping_by_repo p i) (λ _ _, True).
Proof.
  intros s l r s' [Hs Hg] E. destruct (reads_mapping p i _ _ _ _ Hs E) as [Hs' _].
  specialize (mapping_good p i s Hg). rewrite E in mapping_good. auto.
Qed.

(** C18: a maintainer can push, and anyone can fetch.  While the reads of announcements do
    not fail, a request for a mapped repository whose body arrives is passed on to the
    repository's place at the forge, and the client gets the forge's response, or 502 if the
    forge fails; if it is a push, provided that it is signed by the owner or by a key that the
    announcements name, that the latest announcement of each key is unique, and that the
    announcements do not lead to a key that is not hexadecimal. *)
Theorem maintainers_may_push l fuel auth base now q s reply s' repo owner body u :
  holds (ga_repositories s) l → good (ga_repositories s) → maintainers_fuel l ≤ fuel →
  becomes base q (ga_repositories s) repo owner body u → allowed auth now q l repo owner body →
  (is_receive_pack (route_of q) = true → untied l (nr_identifier repo) ∧
     ∀ c, met l (nr_identifier repo) (to_lowercase (nr_pubkey repo)) c → is_Some (hex_decode c)) →
  git_handler fuel auth base now q s = (reply, s') →
  ga_upstream s' = (upstream_send u (ga_upstream s)).2 ∧
  reply = Some (match (upstream_send u (ga_upstream s)).1 with
                | Ok response => Passed response
                | Err err => Failed 502 (UpstreamError_display err)
                end).
Proof.
  intros Hs Hg Hf Hb Hal Hpush. unfold git_handler. destruct (handle_git_route _ _ _ _ _ q s) as [r s1] eqn:E. intros [= <- <-].
  destruct (handle_git_route_outcome _ (good_reads_latest holds reads_latest good reads_good) good_reads_mapping
    l fuel auth base now q s r s1 (conj Hs Hg) Hf E)
    as [e s2 Hs2 Hup Href|repo' owner' body' u' r up s2 Hs2 Hb' _ Hsend Hup].
  { destruct (Href _ _ _ _ Hb) as [Hr [[e' He]|Hn]]; destruct (Hpush Hr) as [Hu Hhex]; [|by destruct (Hn Hu Hal)].
    destruct He as [c Hc Hnone|p s3 s4 err [_ Hg3] Hread].
    - destruct (Hhex c Hc). congruence.
    - destruct (reads_good p (nr_identifier repo) s3 Hg3) as (o & s5 & E5 & _). congruence. }
  rewrite <-(becomes_unique _ _ _ _ _ _ _ _ _ _ _ Hb' Hb), Hsend. split; [done|]. by destruct r.
Qed.
End Pushing.

(** ** The canonical path *)

Section Canonical.
Context `{Bech32Lib}.

(** A segment of a path. *)
Definition segment (s : string) : Prop := contains_char "/" s = false ∧ s ≠ "".

Lemma split_segments c s : Forall (λ x, contains_char c x = false) (split c s).
Proof.
  induction s as [|a s IH]; simpl; [by repeat constructor|].
  case_bool_decide as Ha; [by constructor|]. inversion IH as [|x xs Hx Hxs E];
    (constructor; [|done]); rewrite contains_char_cons, bool_decide_eq_false_2 by done; [done|exact Hx].
Qed.

Lemma split_repo_segments_Some path npub repo rest :
  split_repo_segments path = Some (npub, repo, rest) → segment npub ∧ segment repo ∧ Forall segment rest ∧ rest ≠ [].
Proof.
  unfold split_repo_segments. set (segs := List.filter _ _).
  assert (Forall segment segs) as Hall.
  { apply Forall_forall. intros x [Hx He]%list_elem_of_In%filter_In. apply list_elem_of_In in Hx.
    pose proof (split_segments "/" (trim_start_matches_char "/" path)) as Hs. rewrite Forall_forall in Hs.
    split; [auto|]. intros ->. done. }
  destruct segs as [|a [|b r]]; [done|done|]. destruct r as [|x r']; [done|]. intros [= <- <- <-].
  apply Forall_cons in Hall as [? [? ?]%Forall_cons]. done.
Qed.

Lemma trim_start_segment s t : segment s → trim_start_matches_char "/" (s +:+ t) = s +:+ t.
Proof.
  intros [Hs Hne]. destruct s as [|a s]; [done|]. rewrite contains_char_cons in Hs.
  apply orb_false_iff in Hs as [Ha _]. apply bool_decide_eq_false_1 in Ha. unfold trim_start_matches_char.
  rewrite str_app_cons. simpl. by rewrite bool_decide_eq_false_2 by congruence.
Qed.

Lemma segments_of npub repo tail rest :
  segment npub → segment repo → List.filter (λ s, negb (is_empty s)) (split "/" tail) = rest → rest ≠ [] →
  split_repo_segments ("/" +:+ npub +:+ "/" +:+ repo +:+ "/" +:+ tail) = Some (npub, repo, rest).
Proof.
  intros Hn Hr Hrest Hne. unfold split_repo_segments.
  change (trim_start_matches_char "/" ("/" +:+ npub +:+ "/" +:+ repo +:+ "/" +:+ tail))
    with (trim_start_matches_char "/" (npub +:+ "/" +:+ repo +:+ "/" +:+ tail)).
  rewrite trim_start_segment by done. destruct Hn as [Hn Hn'], Hr as [Hr Hr'].
  change ("/" +:+ repo +:+ "/" +:+ tail) with (String "/" (repo +:+ String "/" tail)).
  rewrite !split_app by done. cbn [List.filter]. unfold is_empty at 1 2.
  rewrite !bool_decide_eq_false_2 by done. cbn [negb]. rewrite Hrest. by destruct rest.
Qed.

(** The names in the path of a repository. *)
Lemma path_components_of npub repo : segment npub → segment repo → repo ≠ "." → repo ≠ ".." →
  path_components (path_join (path_join "/" npub) repo) =
  Some repo :: (if npub == "." then [] else if npub == ".." then [None] else [Some npub]).
Proof.
  intros [Hn Hn'] [Hr Hr'] Hd Hdd.
  assert (∀ s, contains_char "/" s = false → starts_with "/" s = false) as Hslash.
  { intros [|a s]; [done|]. rewrite contains_char_cons. intros [Ha _]%orb_false_iff.
    apply not_true_iff_false. intros (r & E)%starts_with_true. rewrite str_app_cons in E. injection E as -> _. done. }
  assert (ends_with "/" ("/" +:+ npub) = false) as Hend.
  { apply not_true_iff_false. unfold ends_with. destruct (strip_suffix "/" ("/" +:+ npub)) as [r|] eqn:E; [|done].
    apply strip_suffix_Some in E. destruct r as [|a r]; [by destruct npub|].
    rewrite !str_app_cons in E. injection E as _ E. rewrite str_app_nil_l in E.
    rewrite E, contains_char_app, orb_true_r in Hn. done. }
  unfold path_join. rewrite !Hslash by done. cbn [orb]. change (is_empty "/" || ends_with "/" "/") with true. cbn iota.
  change (is_empty ("/" +:+ npub)) with false. rewrite Hend. cbn [orb]. unfold path_components.
  change ("/" +:+ npub) with (String "/" npub). rewrite str_app_cons. change ("/" +:+ repo) with (String "/" repo).
  change (String "/" (npub +:+ String "/" repo)) with ("" +:+ String "/" (npub +:+ String "/" repo)).
  rewrite !split_app by done. rewrite split_no_sep by done. cbn [List.filter].
  assert (is_empty npub = false) as -> by (by apply bool_decide_eq_false_2).
  assert (is_empty repo = false) as -> by (by apply bool_decide_eq_false_2).
  assert (repo == "." = false) as -> by (by apply String.eqb_neq). change (is_empty "") with true. cbn [negb andb].
  apply String.eqb_neq in Hdd. destruct (npub == "."); cbn [negb rev app fmap list_fmap]; rewrite Hdd; [done|].
  by destruct (npub == "..").
Qed.

Lemma normalize_repo_path_Ok npub seg repo :
  segment npub → segment seg → ends_with ".git" seg = true → normalize_repo_path npub seg = Ok repo →
  nr_canonical_path repo = "/" +:+ npub +:+ "/" +:+ seg.
Proof.
  intros Hn Hs Hgit. unfold ends_with in Hgit. destruct (strip_suffix ".git" seg) as [id|] eqn:Eid; [|done].
  pose proof Eid as Hseg. apply strip_suffix_Some in Hseg.
  assert (seg ≠ "." ∧ seg ≠ "..") as [Hd Hdd].
  { split; intros ->; by destruct id as [|? [|? [|? ?]]]. }
  unfold normalize_repo_path. rewrite path_components_of by done. unfold parse_repo_path. simpl. rewrite Eid. simpl.
  unfold fail_if. destruct (is_blank id); simpl; [done|].
  destruct (npub == "."); simpl; [done|]. destruct (npub == ".."); simpl; [done|].
  destruct (decode_npub_pubkey npub); simpl; [|done]. intros [= <-]. simpl. unfold canonical_path. by rewrite Hseg.
Qed.

(** A repository has one address: the canonical path of the repository that a request is
    routed to, followed by what the request asks of it, is routed the same way; so paths with
    doubled slashes all lead to the canonical one. *)
Lemma canonical_path_routes request uri repo suffix query :
  route_target (route_request request) uri = Some (repo, suffix, query) →
  route_request (mkGitHttpRequest (gr_method request) (nr_canonical_path repo +:+ suffix) (gr_query request))
  = route_request request.
Proof.
  intros Ht. unfold route_request in Ht at 1. unfold route_request at 2.
  destruct (split_repo_segments (gr_path request)) as [[[npub seg] rest]|] eqn:Es; [|done].
  apply split_repo_segments_Some in Es as (Hn & Hs & _ & _).
  destruct (ends_with ".git" seg) eqn:Eg; simpl in *; [|done].
  destruct (normalize_repo_path npub seg) as [repo0|] eqn:En; simpl in *; [|done].
  pose proof (normalize_repo_path_Ok _ _ _ Hn Hs Eg En) as Hc.
  assert (∀ tail rest', List.filter (λ s, negb (is_empty s)) (split "/" tail) = rest' → rest' ≠ [] →
    suffix = String "/" tail → repo = repo0 →
    split_repo_segments (nr_canonical_path repo +:+ suffix) = Some (npub, seg, rest')) as Hcanon.
  { intros tail rest' Hr Hne -> ->. rewrite Hc. rewrite !str_app_assoc.
    change (String "/" tail) with ("/" +:+ tail). by apply segments_of. }
  unfold route_request. cbn [gr_path gr_method gr_query].
  destruct (bool_decide (rest = ["info"; "refs"]) && is_get (gr_method request)) eqn:E1.
  { destruct (parse_service (gr_query request)) eqn:E2; simpl in Ht; [|done]. injection Ht as <- <- <-.
    rewrite (Hcanon "info/refs" ["info"; "refs"]) by done. simpl. rewrite Eg, En. simpl.
    by apply andb_true_iff in E1 as [_ ->]. }
  destruct (bool_decide (rest = ["git-upload-pack"]) && is_post (gr_method request)) eqn:E2.
  { injection Ht as <- <- <-. rewrite (Hcanon "git-upload-pack" ["git-upload-pack"]) by done. simpl. rewrite Eg, En. simpl.
    by apply andb_true_iff in E2 as [_ ->]. }
  destruct (bool_decide (rest = ["git-receive-pack"]) && is_post (gr_method request)) eqn:E3; [|done].
  injection Ht as <- <- <-. rewrite (Hcanon "git-receive-pack" ["git-receive-pack"]) by done. simpl. rewrite Eg, En. simpl.
  by apply andb_true_iff in E3 as [_ ->].
Qed.
End Canonical.

(** ** The maintainers the state service lists *)

Section Listed.
Context {R : Type} `{AnnouncementRepository R} `{HexLaws} `{UnicodeTables}.
Context (holds : R → list RepoAnnouncementRecord → Prop).
Context (reads_latest : ∀ p i, answers holds (latest_announcement p i)
  (λ l o, latest_of ra_created_at (List.filter (ann_of p i) l) o)).

Lemma listed_lower l identifier c r :
  listed l identifier c r → listed (lowered l) identifier (to_lowercase c) (lower_ann r).
Proof. intros (p & Hp & Hr). apply listed_lowered. exists p, r. by rewrite (hex_decode_lowercase _ _ Hp). Qed.

Lemma reaches_met l identifier root c :
  reaches l identifier root c → met l identifier (to_lowercase root) (to_lowercase c).
Proof.
  induction 1 as [r _|m r m' r' _ IH Hl Hm _]; [constructor|].
  apply (met_step _ _ _ _ _ _ IH (listed_lower _ _ _ _ Hl)). simpl. apply list_elem_of_fmap. eauto.
Qed.

(** All maintainers are spelled in ASCII. *)
Definition ascii_maintainers (l : list RepoAnnouncementRecord) : Prop :=
  ∀ r m, r ∈ l → m ∈ ra_maintainers r → str_all is_ascii m = true.

Lemma met_candidate l identifier root c :
  ascii_maintainers l → str_all is_ascii root = true →
  met l identifier (to_lowercase root) c → ∃ c', c = to_lowercase c' ∧ candidate l identifier root c'.
Proof.
  intros Hl Hroot Hm.
  enough (∃ c', c = to_lowercase c' ∧ candidate l identifier root c' ∧ str_all is_ascii c' = true) by naive_solver.
  induction Hm as [|c r m _ (c' & -> & Hc & Ha) Hr Hin]; [exists root; split_and!; [done|by left|done]|].
  apply listed_lowered in Hr as (p & r0 & Hp & Hr0 & ->). unfold to_lowercase in Hp. rewrite Ha, hex_decode_case in Hp.
  simpl in Hin. apply list_elem_of_fmap in Hin as (m0 & -> & Hm0). exists m0.
  assert (listed l identifier c' r0) as Hlist by (by exists p).
  split_and!; [done| |by eapply Hl; [eapply listed_in|]]. right. exists c', r0. split_and!; [|done|done].
  destruct Hc as [->|(m1 & r1 & Hm1 & Hr1 & Hin1)]; [by eapply reaches_root|by eapply reaches_step].
Qed.

(** The two services agree on maintainers up to those that have not announced the
    repository themselves: of the same announcements, every key that the state service lists may push,
    and every key that may push is listed, or is named by the announcement of
    one that is listed, or is the owner. *)
Lemma listed_may_push l fuel fuel' repo s seen s1 ms s2 :
  holds s l → untied l (nr_identifier repo) → ascii_maintainers l → str_all is_ascii (nr_pubkey repo) = true →
  resolve_fuel l (nr_pubkey repo) ≤ fuel → maintainers_fuel l ≤ fuel' →
  StateService.resolve_maintainers fuel (nr_pubkey repo) (nr_identifier repo) s = (Ok (Some seen), s1) →
  resolve_maintainers fuel' repo s = (Ok (Some ms), s2) →
  (∀ c, c ∈ mr_maintainers seen → to_lowercase c ∈ ms) ∧
  (∀ c, c ∈ ms → ∃ c', c = to_lowercase c' ∧
     (c' = nr_pubkey repo ∨ ∃ m r, m ∈ mr_maintainers seen ∧ listed l (nr_identifier repo) m r ∧ c' ∈ ra_maintainers r)).
Proof.
  intros Hs Hu Hasc Hroot Hf Hf' Hst Hgit.
  destruct (resolve_maintainers_spec holds reads_latest l fuel' repo s _ s2 Hs Hf' Hgit) as (_ & Hin & Hall).
  assert (∀ c, c ∈ mr_maintainers seen ↔ reaches l (nr_identifier repo) (nr_pubkey repo) c) as Hseen.
  { revert Hst. unfold StateService.resolve_maintainers, mbind, stateful_bind, lift, fail_if.
    destruct (is_blank _); [done|]. destruct (resolve_loop _ _ _ _ s) as [r0 s0] eqn:El.
    destruct (resolve_loop_spec holds reads_latest l _ (nr_pubkey repo) fuel [nr_pubkey repo] ∅ s r0 s0 Hs (resolving_start l (nr_identifier repo) (nr_pubkey repo))) as [_ Ho];
      [by apply resolve_fuel_work|done|].
    destruct r0 as [[x|]|]; [|done|done]. intros [= <- _] c. simpl. rewrite merge_sort_Permutation, elem_of_elements.
    split; [apply Ho|by apply Ho]. }
  split.
  - intros c Hc%Hseen. by apply (Hall Hu), reaches_met.
  - intros c [Hm _]%Hin. destruct (met_candidate _ _ _ _ Hasc Hroot Hm) as (c' & -> & [->|(m & r & Hm' & Hr & Hc')]);
      eexists; (split; [done|]); [by left|right]. exists m, r. split_and!; [by apply Hseen|done|done].
Qed.
End Listed.

(** ** A repository whose owner names one maintainer *)

Module GitSample.
#[local] Existing Instances json_model hex_model hex_model_laws crypto_model slices_model crypto_model_laws.
#[local] Existing Instances http_model http_model_laws base64_model.
Definition owner : bytes := "ownerownerownerownerownerownerow".
Definition target : string := "https://git/npub1/r.git/git-receive-pack".
#[local] Instance codec : Nip98Codec := nip98_codec_model (sample_event "POST" target "pack" 100).
#[local] Instance bech32 : Bech32Lib := {| bech32_decode s := if s == "npub1" then Some ("npub", owner) else None |}.
#[local] Instance unicode : UnicodeTables := {| unicode_lowercase s := s |}.
#[local] Instance mappings : RepoMappingRepository MemoryAnnouncements := {|
  upsert_mapping _ := mret tt;
  mapping_by_forgejo _ _ := mret None;
  mapping_by_repo _ _ := mret (Some (mkRepoMappingRecord "gt_owner" "r" owner "r"));
  list_mappings := mret []
|}.
(** The forge keeps the addresses it is asked for. *)
#[local] Instance forge : UpstreamClient (list string) := {|
  upstream_send u := λ log, (Ok (mkUpstreamResponse _ 200 [] "done"), log ++ [ur_url u])
|}.

Definition auth : AuthConfig := mkAuthConfig "local.test" 60.
Definition announced : list RepoAnnouncementRecord :=
  [mkRepoAnnouncementRecord "e" owner "r" None None None [] [] [] [] [] [hex_encode sample_secret] 5].
Definition store : MemoryAnnouncements :=
  mkMemoryAnnouncements (push_record (repo_key owner "r") (hd (sample_ann_by "" "") announced) ∅).
Definition state := mkGitHttpAppState store ([] : list string).
Definition repo : NormalizedRepo := mkNormalizedRepo "npub1" "r" "/npub1/r.git" (bytes_to_hex owner).
Definition path : string := "/npub1/r.git/git-receive-pack".
(** The push, its path written with a doubled slash. *)
Definition push (path : string) : IncomingRequest :=
  mkIncomingRequest _ "POST" (mkUri path None (Some path))
    [("authorization", "Nostr event"); ("host", "git"); ("x-forwarded-proto", "https")] (Ok "pack").

Lemma store_holds : ann_holds store announced.
Proof.
  cbn [store ann_holds Memory_announcement_laws ma_announcements].
  apply (grouped_push ra_rec_pubkey ra_rec_identifier ∅ [] (hd (sample_ann_by "" "") announced)). by intros p i.
Qed.

Lemma announced_untied : untied announced "r".
Proof.
  intros p r r' [Hr _] [Hr' _]. apply list_elem_of_In, filter_In in Hr as [Hr _], Hr' as [Hr' _].
  simpl in *. destruct Hr as [<-|[]], Hr' as [<-|[]]. done.
Qed.

Lemma secret_trusted : trusted announced "r" owner sample_secret.
Proof.
  apply (trusted_named _ _ _ owner (hd (sample_ann_by "" "") announced) (hex_encode sample_secret)).
  - constructor.
  - split; [left|]. intros r [<-|[]]%list_elem_of_In. done.
  - left.
  - by vm_compute.
Qed.

Lemma push_becomes : ∃ u, becomes "http://forge" (push path) store repo owner "pack" u.
Proof. eexists. exists "/git-receive-pack", None, (mkRepoMappingRecord "gt_owner" "r" owner "r"). by split_and!. Qed.

Lemma push_allowed : allowed auth 130 (push path) announced repo owner "pack".
Proof.
  intros _. destruct (git_authenticate auth 130 (with_body (push path) "pack")) as [a|] eqn:E; [|by vm_compute in E].
  pose proof E as (event & Hs & _)%authenticate_Ok. exists event, (na_pubkey_bytes a). split; [exact Hs|].
  assert (na_pubkey_bytes a = sample_secret) as -> by (vm_compute in E; by injection E as <-). exact secret_trusted.
Qed.

Lemma reads_nothing_else p i : answers ann_holds (mapping_by_repo (R:=MemoryAnnouncements) p i) (λ _ _, True).
Proof. intros s v r s' Hs [= <- <-]. done. Qed.

Lemma pushes_by_maintainers_witness :
  ∃ event pk, (git_handler 20 auth "http://forge" 130 (push path) state).2
      = mkGitHttpAppState store ["http://forge/gt_owner/r.git/git-receive-pack"] ∧
    push_signed auth 130 (with_body (push path) "pack") event pk ∧ trusted announced "r" owner pk.
Proof.
  destruct (git_handler 20 auth "http://forge" 130 (push path) state) as [reply s'] eqn:E.
  destruct (pushes_by_maintainers ann_holds latest_announcement_spec reads_nothing_else announced 20 auth
    "http://forge" 130 (push path) state reply s' store_holds ltac:(vm_compute; lia) E) as [_ [Hn|Hy]].
  { vm_compute in E. injection E as <- <-. discriminate Hn. }
  destruct Hy as (repo' & owner' & body & u & Hb & _ & _ & _ & Hp). destruct (Hp eq_refl) as (event & pk & Hs & Ht).
  exists event, pk. split; [vm_compute in E; injection E as <- <-; reflexivity|].
  destruct Hb as (? & ? & ? & Hroute & Ho & _ & Hbody & _). vm_compute in Hroute. injection Hroute as <- _ _.
  injection Hbody as <-. vm_compute in Ho. injection Ho as <-. split; [exact Hs|exact Ht].
Defined.

Lemma announced_hex c : met announced "r" (to_lowercase (bytes_to_hex owner)) c → is_Some (hex_decode c).
Proof.
  destruct 1 as [|c r m _ (p & r0 & _ & [Hin _] & ->)%listed_lowered Hm]; [vm_compute; by eexists|].
  apply list_elem_of_In, filter_In in Hin as [[<-|[]] _]. simpl in Hm.
  apply list_elem_of_singleton in Hm as ->. vm_compute. by eexists.
Qed.

Lemma maintainers_may_push_witness :
  (git_handler 20 auth "http://forge" 130 (push path) state).1 = Some (Passed (mkUpstreamResponse _ 200 [] "done")) ∧
  ∃ u, becomes "http://forge" (push path) store repo owner "pack" u ∧
    (git_handler 20 auth "http://forge" 130 (push path) state).2 = mkGitHttpAppState store [ur_url u].
Proof.
  split; [by vm_compute|]. destruct push_becomes as [u Hu]. exists u. split; [exact Hu|].
  destruct (git_handler 20 auth "http://forge" 130 (push path) state) as [reply s'] eqn:E.
  destruct (maintainers_may_push ann_holds latest_announcement_spec reads_nothing_else (λ _, True) memory_latest_good
    (λ _ _ _ _, I) announced 20 auth
    "http://forge" 130 (push path) state reply s' repo owner "pack" u store_holds I ltac:(vm_compute; lia)
    Hu push_allowed (λ _, conj announced_untied announced_hex) E) as [Hup _].
  destruct s' as [rs us]. simpl in *. rewrite Hup. f_equal. vm_compute in E. injection E as _ <- _. reflexivity.
Defined.

Lemma canonical_path_routes_witness :
  route_request (mkGitHttpRequest "POST" "//npub1//r.git/git-receive-pack" None) = ReceivePack repo ∧
  route_request (mkGitHttpRequest "POST" path None) = ReceivePack repo.
Proof.
  split; [by vm_compute|].
  exact (canonical_path_routes (mkGitHttpRequest "POST" "//npub1//r.git/git-receive-pack" None) (mkUri "" None None)
    repo "/git-receive-pack" None ltac:(by vm_compute)).
Defined.

(** The maintainer may push and is not listed. *)
Lemma listed_may_push_witness :
  (StateService.resolve_maintainers 20 (bytes_to_hex owner) "r" store).1
    = Ok (Some (mkMaintainersResponse "r" [bytes_to_hex owner])) ∧
  (resolve_maintainers 20 repo store).1 = Ok (Some [hex_encode sample_secret; bytes_to_hex owner]) ∧
  to_lowercase (bytes_to_hex owner) ∈ [hex_encode sample_secret; bytes_to_hex owner].
Proof.
  split; [by vm_compute|]. split; [by vm_compute|].
  apply (listed_may_push ann_holds latest_announcement_spec announced 20 20 repo store
    (mkMaintainersResponse "r" [bytes_to_hex owner]) store _ store store_holds announced_untied).
  - intros r m [<-|[]]%list_elem_of_In [->|[]%not_elem_of_nil]%elem_of_cons. by vm_compute.
  - by vm_compute.
  - vm_compute. lia.
  - vm_compute. lia.
  - by vm_compute.
  - by vm_compute.
  - left.
Defined.
End GitSample.
