(* ===== verification/SyncService.v ===== *)
(** * [SyncService]: bringing a repository in line with its state

    Models [services/sync/src/lib.rs]: the notification of a push, the relays and the
    remotes to read from, the plan of the references to change, its execution by [git]
    with a timeout, and the scheduler.  [git] is a parameter: the processes it starts,
    polled as the code polls them.  Durations and the clock are in nanoseconds; [f64] is
    [SpecFloat] of the Standard Library.  Serving is not modelled. *)

From S2P Require Import Prelude RustStr CoreTypes Externals HexModel Nip34Common Nip34Repo RepoEvents GitReceive.
From S2P Require Import Membership NostrAuth Database HttpAuth Dispatch Config Repositories PostgresRepos StateService GitHook Outbox Coordinator.
From Stdlib Require Import Floats.SpecFloat.

(** ** Configuration *)

Record SyncConfig := mkSyncConfig {
  sy_bind : string; sy_storage : StorageConfig; sy_relay_urls : list string; sy_repo_root : string
}.

Inductive SyncConfigError :=
| SyConfig (err : ConfigError)
| SyStorage (err : StorageConfigError)
| SyMissingEnv (key : string)
| SyInvalidEnv (key value : string).

Definition SyncConfigError_display (e : SyncConfigError) : string :=
  match e with
  | SyConfig err => "sync config error: " +:+ ConfigError_display err
  | SyStorage err => "sync storage config error: " +:+ StorageConfigError_display err
  | SyMissingEnv key => "missing env " +:+ key
  | SyInvalidEnv key value => "invalid env " +:+ key +:+ ": " +:+ value
  end.

(** [storage_from_env], [env_u32] and [env_u64] read the variables the way the state
    service does. *)
Definition sync_storage_from_env (get_var : environment) : result SyncConfigError StorageConfig :=
  map_err SyStorage (state_storage_from_env get_var).

Definition env_path (get_var : environment) (key : string) : result SyncConfigError string :=
  value ← ok_or (SyMissingEnv key) (get_var key);
  _ ← fail_if (is_blank value) (SyInvalidEnv key value);
  Ok value.

Definition SyncConfig_from_env `{UrlLib} (get_var : environment) : result SyncConfigError SyncConfig :=
  services ← map_err SyConfig (ServicesConfig_from_env_validated_with get_var);
  storage ← sync_storage_from_env get_var;
  relay_targets ← map_err SyConfig (RelayTargetsConfig_from_env_validated get_var);
  repo_root ← env_path get_var "GITTREE_SYNC_REPO_ROOT";
  Ok (mkSyncConfig (sv_sync services) storage (rt_relay_urls relay_targets) repo_root).

(** ** The notification of a push *)

Record SyncAckPayload := mkSyncAckPayload { ack_repo_path : string; ack_updates : nat }.

Inductive SyncHttpError :=
| SyBadRequest (message : string)
| SyInternal (message : string).
Definition SyncHttpError_into_response (e : SyncHttpError) : Z * string :=
  match e with
  | SyBadRequest message => (400%Z, message)
  | SyInternal message => (500%Z, message)
  end.

(** [encode_npub_bytes] with the bech32 encoder. *)
Definition encode_npub_bytes `{Bech32Encode} (b : bytes) : result SyncHttpError string :=
  ok_or (SyInternal "npub encode failed") (bech32_encode "npub" b).

Definition sync_npub_from_hex `{HexLib} `{Bech32Encode} (pubkey : string) : result SyncHttpError string :=
  _ ← fail_if (negb (bool_decide (String.length pubkey = 64))) (SyBadRequest "invalid pubkey");
  b ← ok_or (SyBadRequest "invalid pubkey") (hex_decode pubkey);
  encode_npub_bytes b.

Definition post_receive_handler `{HexLib} `{Bech32Encode} (repo_root : string) (payload : PostReceivePayload)
    : result (fault SyncHttpError) SyncAckPayload :=
  address ← map_err (λ err, Raised (SyBadRequest ("invalid repo address: " +:+ CoreError_display err)))
    (RepoAddress_new (pr_pubkey payload) (pr_identifier payload));
  npub ← map_err (λ _, Panicked) (sync_npub_from_hex (ra_pubkey address));
  let repo_path := path_join (path_join repo_root npub) (ra_identifier address +:+ ".git") in
  Ok (mkSyncAckPayload repo_path (length (pr_updates payload))).

(** ** The plan *)

Record RefUpdatePlan := mkRefUpdatePlan { rup_reference : string; rup_target : string }.
Record SyncPlan := mkSyncPlan {
  sp_identifier : string; sp_clone_urls : list string; sp_updates : list RefUpdatePlan; sp_deletions : list string
}.
Record RelaySelection := mkRelaySelection { rs_relays : list string; rs_warnings : list string }.

Definition select_relay_urls (configured : list string) (compatibility : list RelayCompatibilityRecord) : RelaySelection :=
  let compatible := List.filter (λ url,
    existsb (λ record, (rcr_relay_url record == url) && rcr_compatible record) compatibility) configured in
  if negb (is_nil compatible) then mkRelaySelection compatible []
  else mkRelaySelection configured
    [if is_nil configured then "no relay urls configured"
     else "no compatible relays found; using configured list"].

Section Plan.
Context `{HashOrder}.

(** The loop over [desired]: what is already there stays. *)
Definition plan_updates (local_refs desired : gmap string string) : list RefUpdatePlan :=
  omap (λ '(reference, target),
    if bool_decide (local_refs !! reference = Some target) then None
    else Some (mkRefUpdatePlan reference target)) (hash_iter desired).

(** The loop over [local_refs.keys()]. *)
Definition plan_deletions (local_refs desired : gmap string string) : list string :=
  List.filter (λ reference, negb (reference == "HEAD") && negb (is_some (desired !! reference)))
    (hash_iter local_refs).*1.

Definition build_sync_plan (state : RepoState) (local_refs : gmap string string) (events : list CoreNostrEvent)
    (maintainers : list string) : SyncPlan :=
  let desired := ref_map state in
  mkSyncPlan (st_identifier state) (collect_clone_urls events maintainers (st_identifier state))
    (plan_updates local_refs desired) (plan_deletions local_refs desired).
End Plan.

(** ** Running [git] *)

Inductive GitExecError :=
| GeIo (err : string)
| GeTimeout
| GeInvalidPath (message : string)
| GeCommandFailed (message : string).

Definition GitExecError_display (e : GitExecError) : string :=
  match e with
  | GeIo err => "git io error: " +:+ err
  | GeTimeout => "git command timed out"
  | GeInvalidPath message => message
  | GeCommandFailed message => message
  end.

(** The trait, for an executor that works on repositories in a state [S]. *)
Class GitExecutor (S : Type) := {
  git_fetch : string → string → Z → stateful S GitExecError unit;
  git_update_ref : string → string → string → stateful S GitExecError unit;
  git_delete_ref : string → string → stateful S GitExecError unit
}.

Record ExitStatus := mkExitStatus { ex_success : bool; ex_display : string }.

(** A process: what its [n]th poll answers, the time since the start then, and the
    state of the file system then; the file system stays that way once the process is
    waited for. *)
Record GitRun (S : Type) := mkGitRun {
  gn_poll : nat → result string (option ExitStatus);
  gn_elapsed : nat → Z;
  gn_world : nat → S
}.
Arguments mkGitRun {S}.
Arguments gn_poll {S}.
Arguments gn_elapsed {S}.
Arguments gn_world {S}.

(** Starting [git] with these arguments. *)
Class GitCommand (S : Type) := { git_spawn : list string → S → result string (GitRun S) }.

Definition POLL_INTERVAL : Z := 20000000.

(** The loop of [run_with_timeout_with], from its [n]th round on. *)
Fixpoint poll_rounds {S} (run : GitRun S) (timeout : Z) (fuel n : nat) : option (result GitExecError unit * S) :=
  match fuel with
  | O => None
  | Datatypes.S fuel =>
      match gn_poll run n with
      | Err err => Some (Err (GeIo err), gn_world run n)
      | Ok (Some status) =>
          Some (if ex_success status then Ok tt
                else Err (GeCommandFailed ("git command failed with status " +:+ ex_display status)), gn_world run n)
      | Ok None =>
          if bool_decide (timeout ≤ gn_elapsed run n)%Z then Some (Err GeTimeout, gn_world run n)
          else poll_rounds run timeout fuel (Datatypes.S n)
      end
  end.

(** Rounds enough for a clock that sees each round sleep. *)
Definition poll_fuel (timeout : Z) : nat := Datatypes.S (Datatypes.S (Z.to_nat (timeout / POLL_INTERVAL))).

(** The rounds do not run out ([poll_rounds_end]). *)
Definition run_with_timeout {S} `{GitCommand S} (args : list string) (timeout : Z) : stateful S GitExecError unit := λ s,
  match git_spawn args s with
  | Err err => (Err (GeIo err), s)
  | Ok run => default (Err GeTimeout, s) (poll_rounds run timeout (poll_fuel timeout) 0)
  end.

(** Paths are UTF-8 here, so [path_to_str] succeeds. *)
Definition path_to_str (path : string) : result GitExecError string := Ok path.

Definition git_io_timeout : Z := 5000000000.
#[export] Instance CommandGitExecutor {S} `{GitCommand S} : GitExecutor S := {|
  git_fetch repo_path remote timeout :=
    repo_path ← lift (path_to_str repo_path);
    run_with_timeout ["-C"; repo_path; "fetch"; remote; "--prune"] timeout;
  git_update_ref repo_path reference target :=
    repo_path ← lift (path_to_str repo_path);
    run_with_timeout ["-C"; repo_path; "update-ref"; reference; target] git_io_timeout;
  git_delete_ref repo_path reference :=
    repo_path ← lift (path_to_str repo_path);
    run_with_timeout ["-C"; repo_path; "update-ref"; "-d"; reference] git_io_timeout
|}.

(** ** Executing a plan *)

Record RemoteFetchResult := mkRemoteFetchResult { rf_url : string; rf_success : bool; rf_error : option string }.
Record RefChangeResult := mkRefChangeResult { rr_reference : string; rr_success : bool; rr_error : option string }.
Record SyncReport := mkSyncReport {
  sr_remote_results : list RemoteFetchResult; sr_update_results : list RefChangeResult;
  sr_delete_results : list RefChangeResult
}.

Section Execute.
Context {S : Type} `{GitExecutor S}.

(** Each of the three loops: an operation per element, its outcome reported, whatever
    the ones before it did. *)
Fixpoint perform {A B} (operation : A → stateful S GitExecError unit) (report : A → bool → option string → B)
    (l : list A) (s : S) : list B * S :=
  match l with
  | [] => ([], s)
  | x :: l =>
      let '(r, s) := operation x s in
      let result := match r with
                    | Ok _ => report x true None
                    | Err err => report x false (Some (GitExecError_display err))
                    end in
      let '(results, s) := perform operation report l s in
      (result :: results, s)
  end.

Definition execute_sync_plan (repo_path : string) (plan : SyncPlan) (timeout : Z) (s : S) : SyncReport * S :=
  let '(remote_results, s) := perform (λ remote, git_fetch repo_path remote timeout) mkRemoteFetchResult (sp_clone_urls plan) s in
  let '(update_results, s) := perform (λ update, git_update_ref repo_path (rup_reference update) (rup_target update))
    (λ update, mkRefChangeResult (rup_reference update)) (sp_updates plan) s in
  let '(delete_results, s) := perform (git_delete_ref repo_path) mkRefChangeResult (sp_deletions plan) s in
  (mkSyncReport remote_results update_results delete_results, s).
End Execute.

(** ** The scheduler *)

Record SyncScheduleConfig := mkSyncScheduleConfig { sd_interval : Z; sd_max_backoff : Z; sd_max_concurrent : nat }.
Definition SyncScheduleConfig_default : SyncScheduleConfig := mkSyncScheduleConfig 60000000000 300000000000 4.

Record SyncLimiter := mkSyncLimiter { sl_max_concurrent : nat; sl_active : gset string }.
Definition SyncLimiter_new (max_concurrent : nat) : SyncLimiter := mkSyncLimiter (max_concurrent `max` 1) ∅.
Definition SyncLimiter_try_start (l : SyncLimiter) (repo_key : string) : bool * SyncLimiter :=
  if bool_decide (repo_key ∈ sl_active l) then (false, l)
  else if bool_decide (sl_max_concurrent l ≤ size (sl_active l)) then (false, l)
  else (true, mkSyncLimiter (sl_max_concurrent l) ({[repo_key]} ∪ sl_active l)).
Definition SyncLimiter_finish (l : SyncLimiter) (repo_key : string) : SyncLimiter :=
  mkSyncLimiter (sl_max_concurrent l) (sl_active l ∖ {[repo_key]}).

Record SyncScheduler := mkSyncScheduler { sh_config : SyncScheduleConfig; sh_failure_streak : Z; sh_limiter : SyncLimiter }.
Definition SyncScheduler_new (config : SyncScheduleConfig) : SyncScheduler :=
  mkSyncScheduler config 0 (SyncLimiter_new (sd_max_concurrent config)).

(** [f64]: its 53 digits and exponents below 1024. *)
Definition f64_of_int (z : Z) : spec_float := binary_normalize 53 1024 z 0 false.
Definition f64_mul : spec_float → spec_float → spec_float := SFmul 53 1024.
Definition f64_add : spec_float → spec_float → spec_float := SFadd 53 1024.
Definition f64_div : spec_float → spec_float → spec_float := SFdiv 53 1024.
(** [f64::min]: the other operand when one is not a number. *)
Definition f64_min (a b : spec_float) : spec_float :=
  match a, b with
  | S754_nan, _ => b
  | _, S754_nan => a
  | _, _ => if SFltb a b then a else b
  end.
(** [2f64.powi(n)] *)
Definition f64_pow2 (n : Z) : spec_float :=
  let power := SFldexp 53 1024 (f64_of_int 1) (Z.abs n) in
  if (0 <=? n)%Z then power else f64_div (f64_of_int 1) power.

Definition NANOS_PER_SEC : Z := 1000000000.
Definition as_secs_f64 (d : Z) : spec_float :=
  f64_add (f64_of_int (d / NANOS_PER_SEC)) (f64_div (f64_of_int (d mod NANOS_PER_SEC)) (f64_of_int NANOS_PER_SEC)).

(** The quotient rounded to the nearest integer, halves to the even one. *)
Definition div_nearest_even (a b : Z) : Z :=
  let q := (a / b)%Z in let r := (a mod b)%Z in
  if (2 * r <? b)%Z then q else if (b <? 2 * r)%Z then (q + 1)%Z else if Z.even q then q else (q + 1)%Z.
(** [Duration::from_secs_f64], which panics on what a duration cannot hold. *)
Definition from_secs_f64 (f : spec_float) : option Z :=
  match f with
  | S754_zero _ => Some 0%Z
  | S754_finite false m e =>
      let d := div_nearest_even (Z.pos m * 2 ^ Z.max 0 e * NANOS_PER_SEC) (2 ^ Z.max 0 (- e)) in
      if (d / NANOS_PER_SEC <? 2 ^ 64)%Z then Some d else None
  | _ => None
  end.

Definition next_delay (last_success : bool) (s : SyncScheduler) : option Z * SyncScheduler :=
  if last_success then (Some (sd_interval (sh_config s)), mkSyncScheduler (sh_config s) 0 (sh_limiter s))
  else
    let streak := Z.min (sh_failure_streak s + 1) (2 ^ 32 - 1) in
    let backoff := f64_mul (as_secs_f64 (sd_interval (sh_config s))) (f64_pow2 (as_i32 streak)) in
    let capped := f64_min backoff (as_secs_f64 (sd_max_backoff (sh_config s))) in
    (from_secs_f64 capped, mkSyncScheduler (sh_config s) streak (sh_limiter s)).
Definition try_start_repo (s : SyncScheduler) (repo_key : string) : bool * SyncScheduler :=
  let '(started, limiter) := SyncLimiter_try_start (sh_limiter s) repo_key in
  (started, mkSyncScheduler (sh_config s) (sh_failure_streak s) limiter).
Definition finish_repo (s : SyncScheduler) (repo_key : string) : SyncScheduler :=
  mkSyncScheduler (sh_config s) (sh_failure_streak s) (SyncLimiter_finish (sh_limiter s) repo_key).

(** ** What [git] promises

    The references of a repository are their names and what is stored under them.  A
    change is described for a name below [refs/] that does not hold a symbolic
    reference; a target is an object when it is forty small hexadecimal digits that are
    not all zero (zeros ask [update-ref] to delete).  A fetch without refspecs from a
    remote that is given as a URL goes to [FETCH_HEAD] and has nothing to prune.  What is
    given is a URL only when it is not an option and the repository does not configure it
    as a remote or a group of remotes: those have refspecs of their own, which may update
    and prune references, and [clone] tags may hold any string. *)

Definition ZERO_OBJECT : string := "0000000000000000000000000000000000000000".
Definition object_name (v : string) : Prop :=
  is_hex40 v = true ∧ to_ascii_lowercase v = v ∧ v ≠ ZERO_OBJECT.
Definition direct_ref (refs : gmap string string) (r : string) : Prop :=
  starts_with "refs/" r = true ∧ ∀ v, refs !! r = Some v → starts_with "ref: " v = false.

(** At most [r] differs. *)
Definition only_changes (r : string) (refs refs' : gmap string string) : Prop :=
  ∀ r', r' ≠ r → refs' !! r' = refs !! r'.

Definition plain_remote (configured : gset string) (remote : string) : Prop :=
  starts_with "-" remote = false ∧ remote ∉ configured.

Class GitRefsLaws (S : Type) `{GitExecutor S} := {
  git_refs : S → string → gmap string string;
  (** The names a repository configures as remotes or groups of remotes. *)
  git_remotes : S → string → gset string;
  git_fetch_keeps : ∀ path remote timeout s s', (git_fetch path remote timeout s).2 = s' →
    git_remotes s' path = git_remotes s path ∧
    (plain_remote (git_remotes s path) remote → git_refs s' path = git_refs s path);
  git_update_ref_law : ∀ path r target s res s', git_update_ref path r target s = (res, s') →
    direct_ref (git_refs s path) r →
    only_changes r (git_refs s path) (git_refs s' path) ∧
    (object_name target → git_refs s' path !! r = Some target ∨
       res ≠ Ok tt ∧ git_refs s' path !! r = git_refs s path !! r);
  git_delete_ref_law : ∀ path r s res s', git_delete_ref path r s = (res, s') →
    direct_ref (git_refs s path) r →
    only_changes r (git_refs s path) (git_refs s' path) ∧
    (git_refs s' path !! r = None ∨ res ≠ Ok tt ∧ git_refs s' path !! r = git_refs s path !! r)
}.

(** The same of the processes, while they run: an unfinished change is not seen, and a
    process that exits with success has made it.  [sleep] sleeps. *)
Class GitProcessLaws (S : Type) `{GitCommand S} := {
  process_refs : S → string → gmap string string;
  process_remotes : S → string → gset string;
  process_clock : ∀ args s run n, git_spawn args s = Ok run →
    (0 ≤ gn_elapsed run 0 ∧ gn_elapsed run n + POLL_INTERVAL ≤ gn_elapsed run (Datatypes.S n))%Z;
  process_fetch : ∀ path remote s run n,
    git_spawn ["-C"; path; "fetch"; remote; "--prune"] s = Ok run →
    process_remotes (gn_world run n) path = process_remotes s path ∧
    (plain_remote (process_remotes s path) remote → process_refs (gn_world run n) path = process_refs s path);
  process_update : ∀ path r target s run n, git_spawn ["-C"; path; "update-ref"; r; target] s = Ok run →
    direct_ref (process_refs s path) r →
    only_changes r (process_refs s path) (process_refs (gn_world run n) path) ∧
    (object_name target → process_refs (gn_world run n) path !! r = Some target ∨
      process_refs (gn_world run n) path !! r = process_refs s path !! r ∧
      ∀ status, gn_poll run n = Ok (Some status) → ex_success status = false);
  process_delete : ∀ path r s run n, git_spawn ["-C"; path; "update-ref"; "-d"; r] s = Ok run →
    direct_ref (process_refs s path) r →
    only_changes r (process_refs s path) (process_refs (gn_world run n) path) ∧
    (process_refs (gn_world run n) path !! r = None ∨
      process_refs (gn_world run n) path !! r = process_refs s path !! r ∧
      ∀ status, gn_poll run n = Ok (Some status) → ex_success status = false)
}.

Section Processes.
Context {S : Type} `{GitCommand S} `{!GitProcessLaws S}.

Lemma elapsed_after args s run n : git_spawn args s = Ok run → (Z.of_nat n * POLL_INTERVAL ≤ gn_elapsed run n)%Z.
Proof.
  intros Hs. induction n as [|n IH]; [destruct (process_clock _ _ _ 0 Hs); lia|].
  destruct (process_clock _ _ _ n Hs). unfold POLL_INTERVAL in *. lia.
Qed.

(** The loop stops, at the latest at the first poll past the timeout. *)
Lemma poll_rounds_end args s run timeout : git_spawn args s = Ok run →
  ∀ fuel n, (timeout < (Z.of_nat (n + fuel) - 1) * POLL_INTERVAL)%Z → fuel ≠ 0 →
  is_Some (poll_rounds run timeout fuel n).
Proof.
  intros Hs. induction fuel as [|fuel IH]; intros n Hn Hf; [done|]. cbn [poll_rounds].
  destruct (gn_poll run n) as [[status|]|]; [by eexists| |by eexists].
  case_bool_decide as Ht; [by eexists|]. apply IH; [by replace (Datatypes.S n + fuel) with (n + Datatypes.S fuel) by lia|].
  intros ->. pose proof (elapsed_after _ _ _ n Hs). unfold POLL_INTERVAL in *. lia.
Qed.

Lemma poll_rounds_Some (run : GitRun S) timeout fuel : ∀ n res s',
  poll_rounds run timeout fuel n = Some (res, s') →
  ∃ k, s' = gn_world run k ∧ (res = Ok tt → ∃ status, gn_poll run k = Ok (Some status) ∧ ex_success status = true).
Proof.
  induction fuel as [|fuel IH]; intros n res s'; [done|]. cbn [poll_rounds].
  destruct (gn_poll run n) as [[status|]|err] eqn:Ep.
  - intros [= <- <-]. exists n. split; [done|]. destruct (ex_success status) eqn:Es; [by eauto|done].
  - case_bool_decide; [intros [= <- <-]; by exists n|apply IH].
  - intros [= <- <-]. by exists n.
Qed.

(** A command leaves what its process had done at some poll; without a process, nothing. *)
Lemma run_with_timeout_spec args timeout s res s' : run_with_timeout args timeout s = (res, s') →
  (∃ err, git_spawn args s = Err err ∧ res = Err (GeIo err) ∧ s' = s) ∨
  ∃ run k, git_spawn args s = Ok run ∧ s' = gn_world run k ∧
    (res = Ok tt → ∃ status, gn_poll run k = Ok (Some status) ∧ ex_success status = true).
Proof.
  unfold run_with_timeout. destruct (git_spawn args s) as [run|err] eqn:Es; [|intros [= <- <-]; by left; eexists].
  destruct (poll_rounds_end _ _ _ timeout Es (poll_fuel timeout) 0) as [[res0 s0] Hp].
  - unfold poll_fuel, POLL_INTERVAL. rewrite !Nat.add_0_l, !Nat2Z.inj_succ.
    pose proof (Z_div_mod_eq_full timeout 20000000). pose proof (Z.mod_pos_bound timeout 20000000 ltac:(lia)). lia.
  - done.
  - rewrite Hp. simpl. intros [= <- <-]. right. apply poll_rounds_Some in Hp as (k & -> & Hk). eauto 6.
Qed.

#[export] Program Instance command_git_refs : GitRefsLaws S := {| git_refs := process_refs; git_remotes := process_remotes |}.
Next Obligation.
  intros path remote timeout s s0 <-. simpl. unfold mbind, stateful_bind, lift, path_to_str.
  destruct (run_with_timeout _ timeout s) as [res s'] eqn:E.
  apply run_with_timeout_spec in E as [(err & _ & _ & ->)|(run & k & Hs & -> & _)]; [done|].
  by eapply process_fetch.
Qed.
Next Obligation.
  intros path r target s res s' E Hd. simpl in E. unfold mbind, stateful_bind, lift, path_to_str in E.
  apply run_with_timeout_spec in E as [(err & _ & -> & ->)|(run & k & Hs & -> & Hok)].
  - split; [done|]. by right.
  - destruct (process_update _ _ _ _ _ k Hs Hd) as [Ho Ht]. split; [done|]. intros Hob.
    destruct (Ht Hob) as [?|[? Hf]]; [by left|]. right. split; [|done]. intros (status & Hp & Hst)%Hok.
    by rewrite (Hf _ Hp) in Hst.
Qed.
Next Obligation.
  intros path r s res s' E Hd. simpl in E. unfold mbind, stateful_bind, lift, path_to_str in E.
  apply run_with_timeout_spec in E as [(err & _ & -> & ->)|(run & k & Hs & -> & Hok)].
  - split; [done|]. by right.
  - destruct (process_delete _ _ _ _ k Hs Hd) as [Ho Ht]. split; [done|].
    destruct Ht as [?|[? Hf]]; [by left|]. right. split; [|done]. intros (status & Hp & Hst)%Hok.
    by rewrite (Hf _ Hp) in Hst.
Qed.
End Processes.

(** ** The plan brings the references in line *)

Section Facts.
Context {S : Type} `{GitExecutor S} `{!GitRefsLaws S} `{HashOrder}.
Abbreviation refs := (gmap string string).





(** *** The plan *)










End Facts.

(** ** Syncs in progress *)

Inductive SchedulerOp := OpStart (repo_key : string) | OpFinish (repo_key : string) | OpDelay (last_success : bool).

(** A sequence of calls: the scheduler and the syncs that are in progress, a key for each
    call of [try_start_repo] that said yes and was not followed by a [finish_repo]. *)
Definition scheduler_step (w : SyncScheduler * list string) (op : SchedulerOp) : SyncScheduler * list string :=
  let '(s, in_progress) := w in
  match op with
  | OpStart k => let '(started, s) := try_start_repo s k in (s, if started then k :: in_progress else in_progress)
  | OpFinish k => (finish_repo s k, List.filter (λ k', negb (k' == k)) in_progress)
  | OpDelay b => ((next_delay b s).2, in_progress)
  end.

(** No repository is synced twice at a time, and no more of them than the configuration
    allows, or one, at a time. *)
Lemma syncs_in_progress config ops :
  let '(s, in_progress) := foldl scheduler_step (SyncScheduler_new config, []) ops in
  NoDup in_progress ∧ length in_progress ≤ sd_max_concurrent config `max` 1.
Proof.
  assert (∀ w, let inv := λ '(s, in_progress),
    NoDup in_progress ∧ list_to_set in_progress = sl_active (sh_limiter s) ∧
    length in_progress ≤ sl_max_concurrent (sh_limiter s) ∧
    sl_max_concurrent (sh_limiter s) = sd_max_concurrent config `max` 1 in inv w → inv (foldl scheduler_step w ops)) as Hall.
  { induction ops as [|op ops IH]; intros w inv Hw; [done|]. apply IH. clear IH. destruct w as [s l].
    destruct Hw as (Hn & Hs & Hle & Hm). destruct op as [k|k|b]; simpl.
    - unfold try_start_repo, SyncLimiter_try_start. rewrite <-Hs.
      case_bool_decide as Hk; [done|]. case_bool_decide as Hz; [done|]. simpl. rewrite elem_of_list_to_set in Hk.
      rewrite size_list_to_set in Hz by done. rewrite NoDup_cons. split_and!; [done..|lia|done].
    - split_and!; [by apply base.NoDup_ListNoDup, List.NoDup_filter, base.NoDup_ListNoDup| | |done].
      + apply set_eq. intros x. rewrite <-Hs, elem_of_list_to_set, elem_of_difference, elem_of_list_to_set,
          list_elem_of_In, filter_In, <-list_elem_of_In, negb_true_iff, String.eqb_neq. set_solver.
      + etrans; [apply filter_length_le|done].
    - by destruct b. }
  specialize (Hall (SyncScheduler_new config, [])). simpl in Hall.
  destruct (foldl scheduler_step _ ops) as [s l]. destruct Hall as (? & ? & ? & ?); [|split; [done|lia]].
  split_and!; [constructor|done|simpl; lia|done].
Qed.

(** The delays of the default configuration after failures: 120, 240, 300, 300 seconds. *)
Example default_backoff :
  let fail := λ s, (next_delay false s).2 in let s := SyncScheduler_new SyncScheduleConfig_default in
  (λ s, (next_delay false s).1) <$> [s; fail s; fail (fail s); fail (fail (fail s))] =
  Some <$> [120000000000; 240000000000; 300000000000; 300000000000]%Z.
Proof. by vm_compute. Qed.

(** ** A sample: a branch that moves below its old name

    A [git] that knows one repository and refuses, as [git] does, a reference that would
    be a directory of another or below another.  The repository configures one remote,
    [mirror], whose refspec makes a fetch from it replace every reference. *)

Module SyncSample.
Definition c1 : string := "9fceb02d0ae598e95dc970b74767f19372d61af8".
Definition below (r r' : string) : bool := starts_with (r +:+ "/") r'.
Definition conflicts (refs : gmap string string) (r : string) : bool :=
  existsb (λ '(r', _), below r r' || below r' r) (map_to_list refs).

Definition run_at (ok : bool) (refs : gmap string string) : GitRun (gmap string string) :=
  mkGitRun (λ _, Ok (Some (mkExitStatus ok "exit status: 1"))) (λ n, Z.of_nat n * POLL_INTERVAL)%Z (λ _, refs).
#[local] Instance git : GitCommand (gmap string string) := {| git_spawn args refs :=
  match args with
  | [_; _; "update-ref"; "-d"; r] => Ok (run_at true (delete r refs))
  | [_; _; "update-ref"; r; target] =>
      if is_hex40 target && negb (conflicts refs r) then Ok (run_at true (<[r := target]> refs)) else Ok (run_at false refs)
  | [_; _; "fetch"; remote; _] => if remote == "mirror" then Ok (run_at true ∅) else Ok (run_at true refs)
  | _ => Err "no such command"
  end |}.

Lemma run_at_clock ok refs n : (0 ≤ gn_elapsed (run_at ok refs) 0 ∧
  gn_elapsed (run_at ok refs) n + POLL_INTERVAL ≤ gn_elapsed (run_at ok refs) (S n))%Z.
Proof. cbn [run_at gn_elapsed]. unfold POLL_INTERVAL. lia. Qed.

#[local] Program Instance git_laws : GitProcessLaws (gmap string string) := {|
  process_refs refs _ := refs; process_remotes _ _ := {[ "mirror" ]}
|}.
Next Obligation.
  intros args s run n E. assert (∃ ok refs, run = run_at ok refs) as (ok & refs & ->); [|apply run_at_clock].
  unfold git_spawn, git in E. repeat case_match; simplify_eq; eauto.
Qed.
Next Obligation.
  intros path remote s run n E. split; [done|]. intros [_ Hr%not_elem_of_singleton]. cbn [git_spawn git] in E.
  destruct (String.eqb_spec remote "mirror"); [done|]. by injection E as <-.
Qed.
Next Obligation.
  intros path r target s run n E Hd.
  assert (git_spawn ["-C"; path; "update-ref"; r; target] s =
    if is_hex40 target && negb (conflicts s r) then Ok (run_at true (<[r := target]> s)) else Ok (run_at false s)) as E'.
  { destruct Hd as [Hp _]. apply starts_with_true in Hp as [rest ->]. reflexivity. }
  rewrite E' in E. destruct (_ && _); injection E as <-; simpl.
  - split; [intros r' Hr; by rewrite lookup_insert_ne|]. left. by rewrite lookup_insert_eq.
  - split; [done|]. right. split; [done|]. by intros status [= <-].
Qed.
Next Obligation.
  intros path r s run n [= <-] Hd. simpl.
  split; [intros r' Hr; by rewrite lookup_delete_ne|]. left. apply lookup_delete_eq.
Qed.

#[local] Existing Instance sample_hash_order.
Definition local : gmap string string := {[ "HEAD" := "ref: refs/heads/a"; "refs/heads/a" := c1 ]}.
Definition wanted : RepoState := mkRepoState "r" {[ "HEAD" := "ref: refs/heads/a/b"; "refs/heads/a/b" := c1 ]}.
(** An announcement of a maintainer, with a clone URL. *)
Definition announced (url : string) : CoreNostrEvent :=
  mkCoreNostrEvent 30617 "ada" 1 [["d"; "r"]; ["name"; "r"]; ["clone"; url]; ["relays"; "wss://r"]; ["maintainers"; "ada"]].
Definition sync_from (url : string) (refs : gmap string string) : SyncReport * gmap string string :=
  execute_sync_plan "/srv/r.git" (build_sync_plan wanted refs [announced url] ["ada"]) 1000000000 refs.


(** The clone URLs of announcements are not checked: one that is an option, and one that
    is the name of a remote, reach the command; the latter clears the repository here. *)
Lemma clone_url_unchecked :
  sp_clone_urls (build_sync_plan wanted local [announced "--upload-pack=sh"] ["ada"]) = ["--upload-pack=sh"] ∧
  (sync_from "mirror" local).2 = {[ "refs/heads/a/b" := c1 ]}.
Proof. by vm_compute. Qed.



End SyncSample.
