(* ===== verification/Migrations.v ===== *)
(** * [Migrations]: bringing the schema of the database up to date

    Models [crates/storage/src/migrations.rs].  A script of [migrations/] is the
    list of the objects it creates, in order; as one simple query it runs in one
    transaction.  The schema is the list of the objects there are (a column is
    named with its table).  Executing a script and recording its version are two
    statements, each of which may fail. *)

From S2P Require Import Prelude RustStr CoreTypes Membership Database.

(** ** Scripts *)

(** The creation of a table, or of an index or a column of a table. *)
Record Create := mkCreate { cr_if_not_exists : bool; cr_on : option string; cr_object : string }.
Abbreviation script := (list Create).

Definition table (name : string) : Create := mkCreate false None name.
Definition index (on name : string) : Create := mkCreate false (Some on) name.
Definition column (on name : string) : Create := mkCreate false (Some on) (on +:+ "." +:+ name).
Definition table' (name : string) : Create := mkCreate true None name.
Definition index' (on name : string) : Create := mkCreate true (Some on) name.

(** The objects there are, the latest first. *)
Abbreviation schema := (list string).
Definition has_object (name : string) (s : schema) : bool := existsb (String.eqb name) s.

Definition create (c : Create) (s : schema) : option schema :=
  if match cr_on c with Some t => negb (has_object t s) | None => false end then None
  else if has_object (cr_object c) s then (if cr_if_not_exists c then Some s else None)
  else Some (cr_object c :: s).
Fixpoint run_script (sql : script) (s : schema) : option schema :=
  match sql with [] => Some s | c :: sql => s ← create c s; run_script sql s end.

(** ** The migrations *)

Record Migration := mkMigration { mg_version : Z; mg_description : string; mg_sql : script }.

Definition migration_repo_init : Migration := mkMigration 1 "repo announcements and state"
  [table "repo_announcement"; index "repo_announcement" "repo_announcement_lookup_idx";
   table "repo_state"; index "repo_state" "repo_state_lookup_idx"].
Definition migration_repo_mapping : Migration := mkMigration 2 "forgejo repo mapping"
  [table "repo_mapping"; index "repo_mapping" "repo_mapping_lookup_idx"; index "repo_mapping" "repo_mapping_nostr_idx"].
Definition migration_relay_compatibility : Migration := mkMigration 3 "relay compatibility cache"
  [table "relay_compatibility"].
Definition migration_relay_compatibility_metadata : Migration := mkMigration 4 "relay compatibility metadata"
  [column "relay_compatibility" "nip11_url"; column "relay_compatibility" "nip11_available";
   column "relay_compatibility" "active_probe_ok"; column "relay_compatibility" "active_probe_error"].
Definition migration_nostr_events : Migration := mkMigration 5 "nostr event store"
  [table "nostr_event"; index "nostr_event" "nostr_event_created_at_idx"; index "nostr_event" "nostr_event_pubkey_idx";
   table "nostr_tag"; index "nostr_tag" "nostr_tag_event_idx"; index "nostr_tag" "nostr_tag_value_idx"].
Definition migration_nostr_event_indexes : Migration := mkMigration 6 "nostr event indexes"
  [index "nostr_event" "nostr_event_kind_created_at_idx"; index "nostr_event" "nostr_event_pubkey_kind_created_at_idx";
   index "nostr_tag" "nostr_tag_name_value_event_idx"].
Definition migration_relay_publish_outbox : Migration := mkMigration 7 "relay publish outbox"
  [table "relay_publish_outbox"; index "relay_publish_outbox" "relay_publish_outbox_status_idx";
   index "relay_publish_outbox" "relay_publish_outbox_repo_idx"].
Definition migration_gittree_accounts : Migration := mkMigration 8 "gittree accounts" [table "gittree_account"].
Definition migration_gittree_profiles : Migration := mkMigration 9 "gittree profiles" [table "gittree_profile"].
Definition migration_relay_tenants : Migration := mkMigration 10 "relay tenants"
  [table "relay_tenant"; index "relay_tenant" "relay_tenant_host_idx"].
Definition migration_nostr_event_tenant : Migration := mkMigration 11 "nostr event tenants"
  [column "nostr_event" "tenant_id"; column "nostr_tag" "tenant_id";
   index "nostr_event" "nostr_event_tenant_idx"; index "nostr_tag" "nostr_tag_tenant_idx"].
Definition migration_relay_membership : Migration := mkMigration 12 "relay memberships"
  [table "relay_membership"; index "relay_membership" "relay_membership_tenant_idx";
   table "relay_invite"; index "relay_invite" "relay_invite_tenant_idx"].
Definition migration_v1_command_state : Migration := mkMigration 13 "v1 command and projection state"
  [table' "v1_command_log"; table' "v1_account_state"; table' "v1_profile_state"; table' "v1_repo_state";
   table' "v1_repo_maintainer"; index' "v1_command_log" "idx_v1_command_log_pubkey_created_at";
   index' "v1_repo_maintainer" "idx_v1_repo_maintainer_lookup"].

Definition core_migrations : list Migration :=
  [migration_repo_init; migration_repo_mapping; migration_relay_compatibility;
   migration_relay_compatibility_metadata; migration_nostr_events; migration_nostr_event_indexes;
   migration_relay_publish_outbox; migration_gittree_accounts; migration_gittree_profiles;
   migration_relay_tenants; migration_nostr_event_tenant; migration_relay_membership;
   migration_v1_command_state].

(** ** The runner *)

Record MigrationRunner := mkMigrationRunner { mr_migrations : list Migration }.

Definition version_le (a b : Migration) : Prop := (mg_version a ≤ mg_version b)%Z.
#[export] Instance version_le_dec : RelDecision version_le.
Proof. intros a b. unfold version_le. apply _. Defined.

Fixpoint check_versions (seen : gset Z) (ms : list Migration) : result StorageError unit :=
  match ms with
  | [] => Ok tt
  | m :: ms =>
      _ ← fail_if (bool_decide (mg_version m ≤ 0)%Z)
            (StMigration ("invalid migration version: " +:+ pretty (mg_version m)));
      _ ← fail_if (bool_decide (mg_version m ∈ seen))
            (StMigration ("duplicate migration version: " +:+ pretty (mg_version m)));
      check_versions ({[ mg_version m ]} ∪ seen) ms
  end.

Definition MigrationRunner_new (migrations : list Migration) : result StorageError MigrationRunner :=
  let migrations := merge_sort version_le migrations in
  _ ← check_versions ∅ migrations;
  Ok (mkMigrationRunner migrations).

Definition latest_version (r : MigrationRunner) : Z :=
  match last (mr_migrations r) with Some m => mg_version m | None => 0%Z end.

Class MigrationBackend (B : Type) := {
  ensure_migrations_table : stateful B StorageError unit;
  current_version : stateful B StorageError Z;
  execute_sql : script → stateful B StorageError unit;
  record_version : Z → stateful B StorageError unit
}.

Section Run.
Context {B : Type} `{MigrationBackend B}.

(** The loop over the migrations; [applied] is its variable. *)
Fixpoint apply_migrations (current applied : Z) (ms : list Migration) : stateful B StorageError Z :=
  match ms with
  | [] => lift (Ok applied)
  | m :: ms =>
      if bool_decide (mg_version m ≤ current)%Z then apply_migrations current applied ms
      else
        _ ← execute_sql (mg_sql m);
        _ ← record_version (mg_version m);
        apply_migrations current (mg_version m) ms
  end.

Definition run_with_backend (r : MigrationRunner) : stateful B StorageError Z :=
  _ ← ensure_migrations_table;
  current ← current_version;
  apply_migrations current current (mr_migrations r).
End Run.

(** ** The database *)

(** The schema, and the versions recorded unless their table is missing. *)
Record MigrationTables := mkMigrationTables { mt_schema : schema; mt_versions : option (gset Z) }.

Definition pg_ensure_migrations_table : stateful (Database MigrationTables) StorageError unit :=
  statement (λ t, (tt, mkMigrationTables (mt_schema t) (Some (default ∅ (mt_versions t))))).
Definition pg_current_version : stateful (Database MigrationTables) StorageError Z :=
  try_statement "relation does not exist" (λ t,
    versions ← mt_versions t;
    Some (match elements versions with [] => 0%Z | v :: vs => foldr Z.max v vs end, t)).
Definition pg_execute_sql (sql : script) : stateful (Database MigrationTables) StorageError unit :=
  try_statement "relation already exists" (λ t,
    s ← run_script sql (mt_schema t); Some (tt, mkMigrationTables s (mt_versions t))).
Definition pg_record_version (version : Z) : stateful (Database MigrationTables) StorageError unit :=
  try_statement "duplicate key value" (λ t,
    versions ← mt_versions t;
    if bool_decide (version ∈ versions) then None
    else Some (tt, mkMigrationTables (mt_schema t) (Some ({[ version ]} ∪ versions)))).

#[export] Instance PgMigrationBackend : MigrationBackend (Database MigrationTables) := {|
  ensure_migrations_table := pg_ensure_migrations_table;
  current_version := pg_current_version;
  execute_sql := pg_execute_sql;
  record_version := pg_record_version
|}.

(** ** Histories of runs *)

(** The versions and the schema after the first [k] migrations. *)
Definition recorded (k : nat) : gset Z := list_to_set (Z.of_nat <$> seq 1 k).
Definition schema_at (k : nat) : schema := default [] (run_script (concat (mg_sql <$> take k core_migrations)) []).

Definition at_version (k : nat) (t : MigrationTables) : Prop :=
  mt_schema t = schema_at k ∧ default ∅ (mt_versions t) = recorded k.
(** The next script was executed, its version was not recorded. *)
Definition interrupted (k : nat) (t : MigrationTables) : Prop :=
  k < 13 ∧ mt_schema t = schema_at (S k) ∧ default ∅ (mt_versions t) = recorded k.

Definition core_runner : MigrationRunner := mkMigrationRunner core_migrations.

Lemma core_runner_new : MigrationRunner_new core_migrations = Ok core_runner.
Proof. vm_compute. reflexivity. Qed.

Lemma script_next k m :
  core_migrations !! k = Some m → run_script (mg_sql m) (schema_at k) = Some (schema_at (S k)).
Proof. intros Hm. do 13 (destruct k as [|k]; [injection Hm as <-; vm_compute; reflexivity|]). done. Qed.

(** Executing a script twice fails, but for the last one. *)
Lemma script_again k m :
  core_migrations !! k = Some m → k < 12 → run_script (mg_sql m) (schema_at (S k)) = None.
Proof. intros Hm Hk. do 12 (destruct k as [|k]; [injection Hm as <-; vm_compute; reflexivity|]). lia. Qed.

Lemma version_at k m : core_migrations !! k = Some m → mg_version m = Z.of_nat (S k).
Proof. intros Hm. do 13 (destruct k as [|k]; [by injection Hm as <-|]). done. Qed.

Lemma current_recorded k :
  k ≤ 13 → match elements (recorded k) with [] => 0%Z | v :: vs => foldr Z.max v vs end = Z.of_nat k.
Proof. intros Hk. do 14 (destruct k as [|k]; [vm_compute; reflexivity|]). lia. Qed.

Lemma recorded_next k : recorded (S k) = {[ Z.of_nat (S k) ]} ∪ recorded k.
Proof.
  unfold recorded. rewrite seq_S, fmap_app, list_to_set_app_L. simpl. rewrite union_empty_r_L. set_solver.
Qed.

Lemma next_not_recorded k : Z.of_nat (S k) ∉ recorded k.
Proof.
  unfold recorded. rewrite elem_of_list_to_set, list_elem_of_fmap. intros (n & Hn & Hin%elem_of_seq). lia.
Qed.

Abbreviation db := (Database MigrationTables).
Abbreviation tables_at s k := (mkMigrationTables (schema_at s) (Some (recorded k))).

Lemma execute_next k m (d : db) r d' :
  core_migrations !! k = Some m → db_tables d = tables_at k k → pg_execute_sql (mg_sql m) d = (r, d') →
  (r = Ok tt ∧ db_tables d' = tables_at (S k) k ∨
   is_ok r = false ∧ (db_tables d' = tables_at k k ∨ db_tables d' = tables_at (S k) k)) ∧
  (reliable d → is_ok r = true ∧ reliable d').
Proof.
  intros Hm Ht. unfold pg_execute_sql, try_statement, statement, reliable. rewrite Ht. simpl.
  rewrite (script_next _ _ Hm). simpl.
  destruct (db_outcomes d) as [|[|source []] os]; intros [= <- <-]; simpl; auto; split; auto; done.
Qed.

Lemma record_next k (d : db) r d' :
  db_tables d = tables_at (S k) k → pg_record_version (Z.of_nat (S k)) d = (r, d') →
  (r = Ok tt ∧ db_tables d' = tables_at (S k) (S k) ∨
   is_ok r = false ∧ (db_tables d' = tables_at (S k) k ∨ db_tables d' = tables_at (S k) (S k))) ∧
  (reliable d → is_ok r = true ∧ reliable d').
Proof.
  intros Ht. unfold pg_record_version, try_statement, statement, reliable. rewrite Ht. cbn [mt_versions mt_schema mbind option_bind].
  rewrite bool_decide_eq_false_2 by apply next_not_recorded. rewrite <-recorded_next.
  destruct (db_outcomes d) as [|[|source []] os]; intros [= <- <-]; simpl; auto; split; auto; done.
Qed.

(** Where a run may leave the database. *)
Definition left_at (k : nat) (t : MigrationTables) : Prop := ∃ k', k ≤ k' ≤ 13 ∧ (at_version k' t ∨ interrupted k' t).

Lemma left_at_weaken k t : left_at (S k) t → left_at k t.
Proof. intros (k' & ? & ?). exists k'. split; [lia|done]. Qed.
Lemma tables_at_version k t : k ≤ 13 → t = tables_at k k → left_at k t.
Proof. intros Hk ->. exists k. split; [lia|left; done]. Qed.
Lemma tables_interrupted k t : k < 13 → t = tables_at (S k) k → left_at k t.
Proof. intros Hk ->. exists k. split; [lia|right; done]. Qed.

Lemma drop_core k : k < 13 → ∃ m, core_migrations !! k = Some m ∧ drop k core_migrations = m :: drop (S k) core_migrations.
Proof.
  intros Hk. destruct (core_migrations !! k) as [m|] eqn:Hm.
  - exists m. split; [done|]. by apply drop_S.
  - apply lookup_ge_None in Hm. change (length core_migrations) with 13 in Hm. lia.
Qed.

Lemma apply_progress n current k (d : db) r d' :
  n = 13 - k → k ≤ 13 → (current ≤ Z.of_nat k)%Z → db_tables d = tables_at k k →
  apply_migrations current (Z.of_nat k) (drop k core_migrations) d = (r, d') →
  left_at k (db_tables d') ∧ (∀ v, r = Ok v → v = 13%Z ∧ at_version 13 (db_tables d')) ∧
  (reliable d → is_ok r = true ∧ reliable d').
Proof.
  revert k d. induction n as [|n IH]; intros k d Hn Hk Hc Ht.
  { assert (k = 13) as -> by lia. change (drop 13 core_migrations) with (@nil Migration).
    cbn [apply_migrations]. unfold lift. intros [= <- <-].
    split_and!; [by apply tables_at_version|intros v [= <-]; split; [done|by rewrite Ht]|done]. }
  destruct (drop_core k) as (m & Hm & ->); [lia|]. cbn [apply_migrations]. rewrite (version_at _ _ Hm).
  rewrite bool_decide_eq_false_2 by lia. unfold mbind, stateful_bind.
  destruct (execute_sql (mg_sql m) d) as [r1 d1] eqn:E1.
  destruct (execute_next _ _ _ _ _ Hm Ht E1) as [[[-> Ht1]|[Hr1 Ht1]] Hrel1].
  2: { destruct r1; [done|]. intros [= <- <-]. split_and!; [|done|intros Hrel; by destruct (Hrel1 Hrel)].
       destruct Ht1; [apply tables_at_version|apply tables_interrupted]; (done || lia). }
  destruct (record_version (Z.of_nat (S k)) d1) as [r2 d2] eqn:E2.
  destruct (record_next _ _ _ _ Ht1 E2) as [[[-> Ht2]|[Hr2 Ht2]] Hrel2].
  - intros E3. destruct (IH (S k) d2 ltac:(lia) ltac:(lia) ltac:(lia) Ht2 E3) as (Hl & Hok & Hrel3).
    split_and!; [by apply left_at_weaken|done|]. intros Hrel. apply Hrel3, Hrel2, Hrel1, Hrel.
  - destruct r2; [done|]. intros [= <- <-].
    split_and!; [|done|intros Hrel; destruct (Hrel1 Hrel) as [_ Hd1]; by destruct (Hrel2 Hd1)].
    destruct Ht2; [apply tables_interrupted|apply left_at_weaken, tables_at_version]; (done || lia).
Qed.

Lemma apply_skip j k applied (d : db) :
  j ≤ k ≤ 13 →
  apply_migrations (Z.of_nat k) applied (drop j core_migrations) d =
  apply_migrations (Z.of_nat k) applied (drop k core_migrations) d.
Proof.
  intros [Hj Hk]. remember (k - j) as n eqn:Hn. revert j Hj Hn. induction n as [|n IH]; intros j Hj Hn.
  { by assert (j = k) as -> by lia. }
  destruct (drop_core j) as (m & Hm & ->); [lia|]. cbn [apply_migrations]. rewrite (version_at _ _ Hm).
  rewrite bool_decide_eq_true_2 by lia. apply IH; lia.
Qed.

Lemma ensure_table (d : db) r d' :
  pg_ensure_migrations_table d = (r, d') →
  (r = Ok tt ∧ mt_versions (db_tables d') = Some (default ∅ (mt_versions (db_tables d))) ∨ is_ok r = false) ∧
  mt_schema (db_tables d') = mt_schema (db_tables d) ∧
  default ∅ (mt_versions (db_tables d')) = default ∅ (mt_versions (db_tables d)) ∧
  (reliable d → is_ok r = true ∧ reliable d').
Proof.
  unfold pg_ensure_migrations_table, statement, reliable.
  destruct (db_outcomes d) as [|[|source []] os]; intros [= <- <-]; simpl; auto; split_and!; auto; done.
Qed.

Lemma read_version (d : db) k s r d' :
  k ≤ 13 → db_tables d = mkMigrationTables s (Some (recorded k)) → pg_current_version d = (r, d') →
  (r = Ok (Z.of_nat k) ∨ is_ok r = false) ∧ db_tables d' = db_tables d ∧ (reliable d → is_ok r = true ∧ reliable d').
Proof.
  intros Hk Ht. unfold pg_current_version, try_statement, statement, reliable. rewrite Ht. cbn [mt_versions mbind option_bind].
  rewrite current_recorded by done.
  destruct (db_outcomes d) as [|[|source []] os]; intros [= <- <-]; cbn [db_tables]; split_and!; auto; done.
Qed.

(** A run reaches its loop with the version that is recorded, or fails before. *)
Lemma run_start k s (d : db) r d' :
  k ≤ 13 → mt_schema (db_tables d) = s → default ∅ (mt_versions (db_tables d)) = recorded k →
  run_with_backend core_runner d = (r, d') →
  (is_ok r = false ∧ ¬ reliable d ∧ mt_schema (db_tables d') = s ∧ default ∅ (mt_versions (db_tables d')) = recorded k) ∨
  ∃ d0, db_tables d0 = mkMigrationTables s (Some (recorded k)) ∧ (reliable d → reliable d0) ∧
    apply_migrations (Z.of_nat k) (Z.of_nat k) (drop k core_migrations) d0 = (r, d').
Proof.
  intros Hk Hs Hv. unfold run_with_backend, mbind, stateful_bind.
  destruct (ensure_migrations_table d) as [r1 d1] eqn:E1.
  destruct (ensure_table _ _ _ E1) as (Hr1 & Hs1 & Hv1 & Hrel1). destruct Hr1 as [[-> Hv1']|Hr1].
  2: { destruct r1; [done|]. intros [= <- <-]. left. rewrite Hs1, Hv1. split_and!; [done| |done|done].
       intros Hrel. by destruct (Hrel1 Hrel). }
  assert (db_tables d1 = mkMigrationTables s (Some (recorded k))) as Ht1.
  { destruct (db_tables d1); simpl in *. by rewrite Hs1, Hv1', Hs, Hv. }
  destruct (current_version d1) as [r2 d2] eqn:E2.
  destruct (read_version _ _ _ _ _ Hk Ht1 E2) as ([->|Hr2] & Ht2 & Hrel2).
  - intros E3. right. exists d2. rewrite Ht2. split_and!; [done| |].
    + intros Hrel. by apply Hrel2, Hrel1.
    + by rewrite <-(apply_skip 0 k) by lia.
  - destruct r2; [done|]. intros [= <- <-]. left. rewrite Ht2, Ht1. split_and!; [done| |done|done].
    intros Hrel. destruct (Hrel1 Hrel) as [_ Hrel']. by destruct (Hrel2 Hrel').
Qed.

(** A run of the migrations on a database that is at some version leaves it at
    that version or a later one, or there with the next script executed but not
    recorded, whatever statements fail; it reports success only with every
    migration applied and recorded, once each and in order, and it does succeed
    when no statement fails. *)
Lemma migrations_progress k (d : db) r d' :
  k ≤ 13 → at_version k (db_tables d) → run_with_backend core_runner d = (r, d') →
  left_at k (db_tables d') ∧ (∀ v, r = Ok v → v = latest_version core_runner ∧ at_version 13 (db_tables d')) ∧
  (reliable d → is_ok r = true).
Proof.
  intros Hk [Hs Hv] E. destruct (run_start k _ _ _ _ Hk Hs Hv E) as [(Hr & Hrel & Hs' & Hv')|(d0 & Ht & Hrel & E')].
  - destruct r; [done|]. split_and!; [|done|done]. exists k. split; [lia|by left].
  - destruct (apply_progress (13 - k) (Z.of_nat k) k _ _ _ eq_refl Hk ltac:(lia) Ht E') as (Hl & Hok & Hrel').
    split_and!; [done|done|]. intros Hd. by apply Hrel', Hrel.
Qed.

(** Runs one after the other. *)
Definition runs (n : nat) (d : db) : db := Nat.iter n (λ d, (run_with_backend core_runner d).2) d.

Lemma interrupted_run k (d : db) r d' :
  interrupted k (db_tables d) → k < 12 → run_with_backend core_runner d = (r, d') →
  is_ok r = false ∧ interrupted k (db_tables d').
Proof.
  intros (Hk & Hs & Hv) Hk' E. destruct (run_start k _ _ _ _ ltac:(lia) Hs Hv E) as [(Hr & _ & Hs' & Hv')|(d0 & Ht & _ & E')].
  { split; [done|by split_and!]. }
  destruct (drop_core k) as (m & Hm & Hd); [lia|]. rewrite Hd in E'. cbn [apply_migrations] in E'.
  rewrite (version_at _ _ Hm), bool_decide_eq_false_2 in E' by lia. revert E'.
  unfold mbind, stateful_bind. cbn [execute_sql PgMigrationBackend]. unfold pg_execute_sql, try_statement.
  rewrite Ht. cbn [mt_schema]. rewrite (script_again _ _ Hm Hk'). cbn [mbind option_bind].
  intros [= <- <-]. split; [done|]. cbn [db_tables]. split_and!; [lia|done|done].
Qed.

(** When a run ends between the execution of one of the first twelve scripts and
    the recording of its version, every later run fails, with or without failures of
    the database, and changes nothing: the script cannot be executed twice, and only
    a repair by hand helps. *)
Lemma interrupted_migration_stuck k (d : db) n :
  interrupted k (db_tables d) → k < 12 →
  is_ok (run_with_backend core_runner (runs n d)).1 = false ∧ interrupted k (db_tables (runs n d)).
Proof.
  intros Hi Hk. assert (interrupted k (db_tables (runs n d))) as Hn.
  { induction n as [|n IH]; [done|]. change (runs (S n) d) with (run_with_backend core_runner (runs n d)).2.
    destruct (run_with_backend core_runner (runs n d)) as [r d'] eqn:E. by eapply interrupted_run in E as [_ ?]. }
  split; [|done]. destruct (run_with_backend core_runner (runs n d)) as [r d'] eqn:E. by eapply interrupted_run in E as [? _].
Qed.

(** ** Witnesses *)

(** A fresh database, and the connection breaking before the first version is recorded. *)
Definition fresh (outcomes : list StatementOutcome) : db := mkDatabase (mkMigrationTables [] None) outcomes.
Definition broken : list StatementOutcome := [Executed; Executed; Executed; Failed "connection closed" false].

Lemma migrations_progress_witness :
  at_version 13 (db_tables (run_with_backend core_runner (fresh [])).2) ∧
  left_at 0 (db_tables (run_with_backend core_runner (fresh broken)).2).
Proof.
  split.
  - destruct (migrations_progress 0 (fresh []) (run_with_backend core_runner (fresh [])).1
      (run_with_backend core_runner (fresh [])).2) as (_ & Hok & _).
    + lia.
    + split; vm_compute; reflexivity.
    + by destruct (run_with_backend core_runner (fresh [])).
    + apply (Hok 13%Z). vm_compute. reflexivity.
  - apply (migrations_progress 0 (fresh broken) (run_with_backend core_runner (fresh broken)).1
      (run_with_backend core_runner (fresh broken)).2).
    + lia.
    + split; vm_compute; reflexivity.
    + by destruct (run_with_backend core_runner (fresh broken)).
Defined.

Lemma interrupted_migration_stuck_witness :
  let d := (run_with_backend core_runner (fresh broken)).2 in
  interrupted 0 (db_tables d) ∧ is_ok (run_with_backend core_runner (runs 2 d)).1 = false.
Proof.
  intros d. assert (interrupted 0 (db_tables d)) as Hi.
  { split; [lia|]. split; vm_compute; reflexivity. }
  split; [exact Hi|]. exact (proj1 (interrupted_migration_stuck 0 d 2 Hi ltac:(lia))).
Defined.
