(* ===== verification/Observability.v ===== *)
(** * [Observability]: logs, traces and metrics of a process

    Models [crates/observability/src/lib.rs]: the configuration from the environment and [init],
    as the layers of the subscriber that is installed and the effects before and after it, in
    order.  The crates that write are the class [TelemetryLib]; the filter of levels they read
    from [RUST_LOG] is not modelled. *)

From S2P Require Import Prelude RustStr CoreTypes Config Membership Database HttpAuth Dispatch Coordinator.

(** ** Configuration *)

Record ObservabilityConfig := mkObservabilityConfig {
  oc_service_name : string; oc_otlp_endpoint : option string; oc_log_json : bool; oc_log_dir : option string;
  oc_log_stdout : bool; oc_metrics_enabled : bool
}.
Definition ObservabilityConfig_default : ObservabilityConfig :=
  mkObservabilityConfig "gittree" None false (Some "logs") true true.

Inductive ObservabilityConfigError := ObInvalidEnv (key value : string).
Definition ObservabilityConfigError_display (e : ObservabilityConfigError) : string :=
  match e with ObInvalidEnv key value => "invalid env " +:+ key +:+ ": " +:+ value end.

Definition log_parse_bool (value : string) : option bool :=
  let value := to_ascii_lowercase (trim value) in
  if bool_decide (value ∈ ["true"; "1"; "yes"]) then Some true
  else if bool_decide (value ∈ ["false"; "0"; "no"]) then Some false
  else None.

Section Environment.
Context (get_var : environment).

Definition log_env_bool (key : string) : result ObservabilityConfigError (option bool) :=
  match get_var key with
  | Some value => if is_blank value then Ok None else ok_or (ObInvalidEnv key value) (Some <$> log_parse_bool value)
  | None => Ok None
  end.
Definition log_env_string (key : string) : option string :=
  match get_var key with Some value => if is_blank value then None else Some value | None => None end.
(** A directory that is blank turns the log file off. *)
Definition env_log_dir (key : string) : option (option string) :=
  match get_var key with Some value => Some (if is_blank value then None else Some value) | None => None end.

Definition ObservabilityConfig_from_env (service_name : string) : result ObservabilityConfigError ObservabilityConfig :=
  let config := ObservabilityConfig_default in
  let otlp_endpoint := log_env_string "GITTREE_OTLP_ENDPOINT" in
  log_json ← log_env_bool "GITTREE_LOG_JSON";
  log_stdout ← log_env_bool "GITTREE_LOG_STDOUT";
  metrics_enabled ← log_env_bool "GITTREE_METRICS_ENABLED";
  Ok (mkObservabilityConfig service_name otlp_endpoint (default (oc_log_json config) log_json)
        (default (oc_log_dir config) (env_log_dir "GITTREE_LOG_DIR"))
        (default (oc_log_stdout config) log_stdout) (default (oc_metrics_enabled config) metrics_enabled)).
End Environment.

(** ** The set-up of a process *)

Inductive ObservabilityError :=
| ObTraceInit (message : string) | ObMetricsInit (message : string) | ObSubscriberInit (message : string)
| ObLogInit (message : string).
Definition ObservabilityError_display (e : ObservabilityError) : string :=
  match e with
  | ObTraceInit message => "observability trace init failed: " +:+ message
  | ObMetricsInit message => "observability metrics init failed: " +:+ message
  | ObSubscriberInit message => "observability subscriber init failed: " +:+ message
  | ObLogInit message => "observability log init failed: " +:+ message
  end.

(** A subscriber by its layers: lines on standard output and in a file, as JSON or not, and
    traces sent to an endpoint. *)
Record Subscriber := mkSubscriber { sb_stdout : option bool; sb_file : option (string * bool); sb_otel : option string }.

(** Directories, the batch exporter of traces, the subscriber of the process and the provider
    of its meters. *)
Class TelemetryLib (P : Type) := {
  create_dir_all : string → stateful P string unit;
  install_batch : string → string → stateful P string unit;
  set_global_default : Subscriber → stateful P string unit;
  set_meter_provider : string → P → P
}.

(** The file that the log guard keeps open, and whether there is a registry of metrics. *)
Record ObservabilityHandle := mkObservabilityHandle { oh_registry : bool; oh_log_guard : option string }.

Section Init.
Context {P : Type} `{TelemetryLib P}.

(** The name of the file; a date is appended each day. *)
Definition build_file_writer (config : ObservabilityConfig) : stateful P ObservabilityError (option string) :=
  match oc_log_dir config with
  | None => mret None
  | Some base_dir =>
      let service_dir := path_join base_dir (oc_service_name config) in
      _ ← map_err_st ObLogInit (create_dir_all service_dir);
      let file_name := oc_service_name config +:+ ".log" in
      mret (Some (path_join service_dir file_name))
  end.

(** The subscriber, after the exporter of traces when there is an endpoint. *)
Definition install_subscriber (config : ObservabilityConfig) (file_writer : option string) : stateful P ObservabilityError unit :=
  let subscriber otel :=
    mkSubscriber (if oc_log_stdout config then Some (oc_log_json config) else None)
      ((λ file, (file, oc_log_json config)) <$> file_writer) otel in
  match oc_otlp_endpoint config with
  | Some endpoint =>
      _ ← map_err_st ObTraceInit (install_batch endpoint (oc_service_name config));
      map_err_st ObSubscriberInit (set_global_default (subscriber (Some endpoint)))
  | None => map_err_st ObSubscriberInit (set_global_default (subscriber None))
  end.

Definition install_metrics (config : ObservabilityConfig) : stateful P ObservabilityError bool := λ p,
  (Ok (oc_metrics_enabled config), if oc_metrics_enabled config then set_meter_provider (oc_service_name config) p else p).

Definition init (config : ObservabilityConfig) : stateful P ObservabilityError ObservabilityHandle :=
  file_writer ← build_file_writer config;
  _ ← install_subscriber config file_writer;
  registry ← install_metrics config;
  mret (mkObservabilityHandle registry file_writer).

(** [init_observability] of a command. *)
Definition init_observability (get_var : environment) (service_name : string) : stateful P string ObservabilityHandle :=
  config ← lift (map_err ObservabilityConfigError_display (ObservabilityConfig_from_env get_var service_name));
  map_err_st ObservabilityError_display (init config).
End Init.

(** Only a switch that is neither blank nor a known word is refused, by its name. *)
Lemma from_env_refuses get_var service_name key value :
  ObservabilityConfig_from_env get_var service_name = Err (ObInvalidEnv key value) →
  key ∈ ["GITTREE_LOG_JSON"; "GITTREE_LOG_STDOUT"; "GITTREE_METRICS_ENABLED"] ∧ get_var key = Some value ∧
  is_blank value = false ∧ log_parse_bool value = None.
Proof.
  assert (∀ k r, log_env_bool get_var k = Err r → ∃ v, r = ObInvalidEnv k v ∧ get_var k = Some v ∧ is_blank v = false ∧
    log_parse_bool v = None) as Hb.
  { intros k r. unfold log_env_bool. destruct (get_var k) as [v|]; [|done]. destruct (is_blank v) eqn:Ev; [done|].
    destruct (log_parse_bool v) eqn:Ep; [done|]. intros [= <-]. by exists v. }
  unfold ObservabilityConfig_from_env. cbv zeta.
  destruct (log_env_bool get_var "GITTREE_LOG_JSON") eqn:E1; simpl; [|intros [= ->]; apply Hb in E1 as (? & [= <- <-] & ?); set_solver].
  destruct (log_env_bool get_var "GITTREE_LOG_STDOUT") eqn:E2; simpl; [|intros [= ->]; apply Hb in E2 as (? & [= <- <-] & ?); set_solver].
  destruct (log_env_bool get_var "GITTREE_METRICS_ENABLED") eqn:E3; simpl; [done|].
  intros [= ->]; apply Hb in E3 as (? & [= <- <-] & ?); set_solver.
Qed.
