(* ===== verification/Migrate.v ===== *)
(** * [Migrate]: the command that brings the schema up to date

    Models [crates/migrate/src/lib.rs] and [crates/migrate/src/main.rs]: the configuration
    from the environment, the connection, the run of the migrations of [Migrations.v], and the
    lines and the exit code of the process, after the set-up of
    [Observability.v].  Connecting to the database is a parameter. *)

From S2P Require Import Prelude RustStr CoreTypes Config Membership Database HttpAuth Dispatch StateService Migrations Observability.

(** ** Configuration and errors *)

Inductive MigrationConfigError :=
| MgMissingEnv (key : string)
| MgInvalidEnv (key value : string)
| MgInvalidConfig (message : string).
Definition MigrationConfigError_display (e : MigrationConfigError) : string :=
  match e with
  | MgMissingEnv key => "missing env " +:+ key
  | MgInvalidEnv key value => "invalid env " +:+ key +:+ ": " +:+ value
  | MgInvalidConfig message => message
  end.

Record MigrationConfig := mkMigrationConfig { mc_storage : StorageConfig }.

(** [env_u32] and [env_u64], by the parser they call. *)
Definition migrate_env_number (parse : string → option Z) (get_var : environment) (key : string)
    : result MigrationConfigError (option Z) :=
  match get_var key with
  | Some value => if is_blank value then Ok None else ok_or (MgInvalidEnv key value) (Some <$> parse value)
  | None => Ok None
  end.

Definition migrate_storage_from_env (get_var : environment) : result MigrationConfigError StorageConfig :=
  read_connection ← ok_or (MgMissingEnv "GITTREE_STORAGE_READ_URL") (get_var "GITTREE_STORAGE_READ_URL");
  let write_connection := get_var "GITTREE_STORAGE_WRITE_URL" in
  max_connections ← migrate_env_number parse_u32 get_var "GITTREE_STORAGE_MAX_CONNECTIONS";
  min_connections ← migrate_env_number parse_u32 get_var "GITTREE_STORAGE_MIN_CONNECTIONS";
  idle_timeout_secs ← migrate_env_number parse_u64 get_var "GITTREE_STORAGE_IDLE_TIMEOUT_SECS";
  max_lifetime_secs ← migrate_env_number parse_u64 get_var "GITTREE_STORAGE_MAX_LIFETIME_SECS";
  let application_name := get_var "GITTREE_STORAGE_APP_NAME" in
  let config := mkStorageConfig read_connection write_connection (default 10%Z max_connections)
    (default 2%Z min_connections) idle_timeout_secs max_lifetime_secs application_name in
  _ ← map_err (λ err, MgInvalidConfig (StorageError_display err)) (StorageConfig_validate config);
  Ok config.

Definition MigrationConfig_from_env (get_var : environment) : result MigrationConfigError MigrationConfig :=
  storage ← migrate_storage_from_env get_var;
  Ok (mkMigrationConfig storage).

Inductive MigrationError := MgConfig (err : MigrationConfigError) | MgStorage (err : StorageError).
Definition MigrationError_display (e : MigrationError) : string :=
  match e with
  | MgConfig err => "migration config error: " +:+ MigrationConfigError_display err
  | MgStorage err => "migration storage error: " +:+ StorageError_display err
  end.

Inductive MainError := MnObservability (message : string) | MnMigration (message : string).
Definition MainError_display (e : MainError) : string :=
  match e with MnObservability message => message | MnMigration message => message end.

(** What the process writes, and its exit code. *)
Record Outcome := mkOutcome { oc_stdout : list string; oc_stderr : list string; oc_code : Z }.

Definition handle_main_outcome (result : result MainError Z) : Outcome :=
  match result with
  | Ok version => mkOutcome ["migrations complete: version " +:+ pretty version] [] 0
  | Err (MnObservability _ as err) => mkOutcome [] ["migration observability failed: " +:+ MainError_display err] 1
  | Err (MnMigration _ as err) => mkOutcome [] ["migration failed: " +:+ MainError_display err] 1
  end.

(** ** The run *)

Section Run.
Context `{PgOptions}.
(** What connecting to the database with these options fails with, if it does, and what
    setting up the traces returns. *)
Context (connect_error : PgConnectOptions → option string) (init_observability : result string unit).

Abbreviation db := (Database MigrationTables).

Definition connect_and_run_core_migrations (options : PgConnectOptions) : stateful db (fault MigrationError) Z :=
  _ ← lift (map_err Raised (match connect_error options with Some source => Err (MgStorage (StDatabase source)) | None => Ok tt end));
  runner ← lift (map_err (λ _, Panicked) (MigrationRunner_new core_migrations));
  map_err_st (λ err, Raised (MgStorage err)) (run_with_backend runner).

Definition run_with_config (config : MigrationConfig) : stateful db (fault MigrationError) Z :=
  options ← lift (map_err (λ err, Raised (MgStorage err)) (write_connect_options (mc_storage config)));
  connect_and_run_core_migrations options.

Definition migrate_run (get_var : environment) : stateful db (fault MigrationError) Z :=
  config ← lift (map_err (λ err, Raised (MgConfig err)) (MigrationConfig_from_env get_var));
  run_with_config config.

Definition run_migrations (get_var : environment) : stateful db (fault MainError) Z :=
  _ ← lift (map_err (λ message, Raised (MnObservability message)) init_observability);
  map_err_st (λ err, match err with Raised err => Raised (MnMigration (MigrationError_display err)) | Panicked => Panicked end)
    (migrate_run get_var).

(** [main_impl_with]: [None] is a panic, after which the process writes no line of its own. *)
Definition main_impl (get_var : environment) (d : db) : option Outcome * db :=
  match run_migrations get_var d with
  | (Ok version, d') => (Some (handle_main_outcome (Ok version)), d')
  | (Err (Raised err), d') => (Some (handle_main_outcome (Err err)), d')
  | (Err Panicked, d') => (None, d')
  end.
End Run.

(** [main_result] hands [init_observability] and [run] to [run_migrations]: what the process
    [p] is left with, what it writes, and the database. *)
Definition migrate_main {P} `{TelemetryLib P} `{PgOptions} (connect_error : PgConnectOptions → option string)
    (get_var : environment) (p : P) (d : Database MigrationTables) : option Outcome * (P * Database MigrationTables) :=
  let '(handle, p) := init_observability get_var "gittree-migrate" p in
  let '(o, d) := main_impl connect_error (_ ← handle; Ok tt) get_var d in
  (o, (p, d)).

(** ** What the process reports *)

Section Facts.
Context `{PgOptions} (connect_error : PgConnectOptions → option string) (init_observability : result string unit).

(** The database can be reached with the settings of the environment. *)
Definition reachable (get_var : environment) : Prop := ∃ config options,
  MigrationConfig_from_env get_var = Ok config ∧ write_connect_options (mc_storage config) = Ok options ∧
  connect_error options = None.

Lemma migrate_run_spec get_var k (d : Database MigrationTables) r d' :
  k ≤ 13 → at_version k (db_tables d) → migrate_run connect_error get_var d = (r, d') →
  r ≠ Err Panicked ∧ left_at k (db_tables d') ∧ (∀ v, r = Ok v → v = 13%Z ∧ at_version 13 (db_tables d')) ∧
  (reachable get_var → reliable d → is_ok r = true).
Proof.
  intros Hk Hd. assert (left_at k (db_tables d)) as Hl by (exists k; split; [lia|by left]).
  unfold migrate_run, run_with_config, connect_and_run_core_migrations, reachable, mbind, stateful_bind, lift.
  destruct (MigrationConfig_from_env get_var) as [config|]; simpl.
  2: { intros [= <- <-]. split_and!; try done. by intros (? & ? & ? & _). }
  destruct (write_connect_options (mc_storage config)) as [options|] eqn:Ew; simpl.
  2: { intros [= <- <-]. split_and!; try done. intros (? & ? & [= <-] & ? & _). congruence. }
  destruct (connect_error options) eqn:Ec; simpl.
  { intros [= <- <-]. split_and!; try done. intros (? & ? & [= <-] & ? & ?). congruence. }
  rewrite core_runner_new. cbn [map_err]. unfold map_err_st. destruct (run_with_backend core_runner d) as [r0 d0] eqn:E.
  intros [= <- <-]. destruct (migrations_progress _ _ _ _ Hk Hd E) as (Hl' & Hok & Hrel).
  split_and!; [by destruct r0|done| |].
  - intros v Hv. destruct r0 as [v0|]; [|done]. injection Hv as ->. exact (Hok v eq_refl).
  - intros _ Hd'. specialize (Hrel Hd'). by destruct r0.
Qed.

(** The migration command, started on a database that is at some version, always
    ends with one line and an exit code: with code 0 and the line that names version 13
    only when every migration is applied and recorded, and else with code 1 and one line of
    error, the database then at that version or a later one, or there with the next script
    executed but not recorded.  It ends with code 0 when the traces are set up, the
    database is reached with the settings of the environment and no statement fails. *)
Lemma migration_command_reports get_var k (d : Database MigrationTables) o d' :
  k ≤ 13 → at_version k (db_tables d) → main_impl connect_error init_observability get_var d = (o, d') →
  ∃ stdout stderr code, o = Some (mkOutcome stdout stderr code) ∧
    (code = 0%Z ∧ stdout = ["migrations complete: version 13"] ∧ stderr = [] ∧ at_version 13 (db_tables d') ∨
     code = 1%Z ∧ stdout = [] ∧ (∃ line, stderr = [line]) ∧ left_at k (db_tables d')) ∧
    (init_observability = Ok tt → reachable get_var → reliable d → code = 0%Z).
Proof.
  intros Hk Hd. unfold main_impl, run_migrations, mbind, stateful_bind, lift.
  assert (left_at k (db_tables d)) as Hl by (exists k; split; [lia|by left]).
  destruct init_observability as [[]|message]; cbn [map_err].
  2: { intros [= <- <-]. do 3 eexists. split; [done|]. split; [right; by split_and!; eauto|done]. }
  unfold map_err_st. destruct (migrate_run connect_error get_var d) as [r d0] eqn:E.
  destruct (migrate_run_spec _ _ _ _ _ Hk Hd E) as (Hp & Hl' & Hok & Hrel).
  destruct r as [v|[err|]]; [| |done]; intros [= <- <-].
  - destruct (Hok v eq_refl) as [-> H13]. do 3 eexists. split; [done|]. split; [left; by split_and!|done].
  - do 3 eexists. split; [done|]. split; [right; by split_and!; eauto|].
    intros _ Hre Hr. by specialize (Hrel Hre Hr).
Qed.
End Facts.

(** ** A fresh database *)

Module MigrateSample.
#[local] Instance options : PgOptions := {| PgConnectOptions := string; parse_connect_options s := Ok s; application_name _ o := o |}.
Definition get_var (key : string) : option string := if key == "GITTREE_STORAGE_READ_URL" then Some "postgres://db" else None.
Definition no_error (_ : PgConnectOptions) : option string := None.

Lemma migration_command_reports_witness :
  (main_impl no_error (Ok tt) get_var (fresh [])).1 = Some (mkOutcome ["migrations complete: version 13"] [] 0).
Proof.
  destruct (main_impl no_error (Ok tt) get_var (fresh [])) as [o d'] eqn:E.
  destruct (migration_command_reports no_error (Ok tt) get_var 0 (fresh []) o d') as (out & err & code & Ho & Hc & Hr).
  - lia.
  - split; vm_compute; reflexivity.
  - exact E.
  - cbn [fst]. rewrite Ho. destruct Hc as [(Hc & Hout & Herr & _)|(Hc & _)]; [by rewrite Hc, Hout, Herr|].
    exfalso. rewrite Hc in Hr. discriminate Hr; [reflexivity| |vm_compute; reflexivity].
    eexists _, _. split_and!; vm_compute; reflexivity.
Defined.
End MigrateSample.
