(* ===== verification/EventRepo.v ===== *)
(** * [EventRepo]: stored event records and the event repository

    Models [crates/storage/src/event.rs], and the [EventRepository] trait of
    [crates/storage/src/repositories.rs] with its in-memory implementation.
    The trait is a class of operations; [EventRepositoryLaws] says that an
    implementation keeps a table of records by event id, whatever tenant they
    belong to, and the in-memory one is proved to meet it. *)

From S2P Require Import Prelude RustStr CoreTypes Externals HexModel Membership RelayEvent.

(** ** [event.rs] *)

Definition HEX_64_LEN : nat := 128.

Record TagRecord := mkTagRecord { tr_name : string; tr_value : string }.

#[export] Instance TagRecord_eq_dec : EqDecision TagRecord.
Proof. solve_decision. Defined.

Record EventRecord := mkEventRecord {
  er_tenant_id : string;
  er_id : bytes;
  er_pubkey : bytes;
  er_created_at : Z;   (* i64 *)
  er_kind : Z;         (* u32 *)
  er_content : string;
  er_sig : bytes;
  er_tags : list TagRecord
}.

#[export] Instance EventRecord_eq_dec : EqDecision EventRecord.
Proof. solve_decision. Defined.

Record EventQuery := mkEventQuery {
  eq_tenant_id : option string;
  eq_ids : list string;
  eq_authors : list string;
  eq_kinds : list Z;
  eq_since : option Z;
  eq_until : option Z;
  eq_tags : list TagRecord;
  eq_limit : option Z
}.

Definition EventQuery_default : EventQuery := mkEventQuery None [] [] [] None None [] None.
Definition for_tenant (tenant_id : string) : EventQuery :=
  mkEventQuery (Some tenant_id) [] [] [] None None [] None.
Definition for_ids (ids : list string) : EventQuery :=
  mkEventQuery None ids [] [] None None [] None.
Definition for_authors (authors : list string) : EventQuery :=
  mkEventQuery None [] authors [] None None [] None.
Definition for_kinds (kinds : list Z) : EventQuery :=
  mkEventQuery None [] [] kinds None None [] None.
Definition for_tag (name : string) (values : list string) : EventQuery :=
  mkEventQuery None [] [] [] None None (mkTagRecord name <$> values) None.

(** The values of one tag, appended to the records so far. *)
Fixpoint flatten_values (name : string) (values : list string) (records : list TagRecord)
    : result StorageError (list TagRecord) :=
  match values with
  | [] => Ok records
  | value :: values =>
      if is_empty value then Err (StInvalidField "tags" "empty tag value")
      else flatten_values name values (records ++ [mkTagRecord name value])
  end.

Definition flatten_tag (records : list TagRecord) (t : tag) : result StorageError (list TagRecord) :=
  match t with
  | [] => Err (StInvalidField "tags" "empty tag")
  | name :: values =>
      if is_empty name then Err (StInvalidField "tags" "empty tag name")
      else flatten_values name values records
  end.

Definition flatten_tags (tags : tag_list) : result StorageError (list TagRecord) :=
  try_fold flatten_tag [] tags.

Section Record_new.
Context `{HexLib}.

Definition decode_hex (field value : string) (expected_len : nat) : result StorageError bytes :=
  if negb (bool_decide (String.length value = expected_len)) then Err (StInvalidHex field value)
  else ok_or (StInvalidHex field value) (hex_decode value).

Definition EventRecord_new (tenant_id id pubkey : string) (created_at kind : Z)
    (content sig : string) (tags : tag_list) : result StorageError EventRecord :=
  tags ← flatten_tags tags;
  _ ← fail_if (is_blank tenant_id) (StInvalidField "tenant_id" tenant_id);
  id ← decode_hex "id" id HEX_32_LEN;
  pubkey ← decode_hex "pubkey" pubkey HEX_32_LEN;
  sig ← decode_hex "sig" sig HEX_64_LEN;
  Ok (mkEventRecord tenant_id id pubkey created_at kind content sig tags).
End Record_new.

(** [entry(name).or_default().push(value)] for each record: the values by name. *)
Definition group_by_name (tags : list TagRecord) : gmap string (list string) :=
  foldl (λ m t, <[tr_name t := default [] (m !! tr_name t) ++ [tr_value t]]> m) ∅ tags.

(** ** What a query asks of a record *)

Section Matching.
Context `{HexLib} `{HashOrder}.

Definition hex_names (names : list string) (b : bytes) : bool :=
  existsb (λ name, match hex_decode name with Some decoded => decoded == b | None => false end) names.

Definition tags_wanted (wanted : gmap string (list string)) (tags : list TagRecord) : bool :=
  let by_name := group_by_name tags in
  forallb (λ entry : string * list string,
    match by_name !! entry.1 with
    | None => false
    | Some values => existsb (λ value, existsb (λ w, w == value) entry.2) values
    end) (hash_iter wanted).

Definition record_matches (q : EventQuery) (r : EventRecord) : bool :=
  if match eq_tenant_id q with Some t => negb (er_tenant_id r == t) | None => false end then false
  else if negb (is_nil (eq_ids q)) && negb (hex_names (eq_ids q) (er_id r)) then false
  else if negb (is_nil (eq_authors q)) && negb (hex_names (eq_authors q) (er_pubkey r)) then false
  else if negb (is_nil (eq_kinds q))
          && negb (existsb (λ kind, bool_decide (kind = er_kind r)) (eq_kinds q)) then false
  else if match eq_since q with Some s => bool_decide (er_created_at r < s)%Z | None => false end
  then false
  else if match eq_until q with Some u => bool_decide (er_created_at r > u)%Z | None => false end
  then false
  else
    let tag_filters := group_by_name (eq_tags q) in
    if bool_decide (tag_filters = ∅) then true else tags_wanted tag_filters (er_tags r).
End Matching.

(** Newest first, then by id. *)
Definition record_before (l r : EventRecord) : Prop :=
  (er_created_at r < er_created_at l)%Z ∨
  er_created_at l = er_created_at r ∧ String.le (er_id l) (er_id r).
#[export] Instance record_before_dec : RelDecision record_before.
Proof. intros l r. unfold record_before. apply _. Defined.

(** [results.truncate(limit as usize)] *)
Definition truncate_to (limit : option Z) (l : list EventRecord) : list EventRecord :=
  match limit with Some n => take (Z.to_nat n) l | None => l end.

(** ** The trait [EventRepository] *)

Class EventRepository (R : Type) := {
  insert_event : R → EventRecord → result StorageError unit * R;
  get_event : R → string → bytes → result StorageError (option EventRecord);
  delete_event : R → string → bytes → result StorageError bool * R;
  query_events : R → EventQuery → result StorageError (list EventRecord)
}.

(** ** The in-memory repository *)

Record MemoryEvents := mkMemoryEvents { me_events : gmap string EventRecord }.

Section InMemory.
Context `{HexLib} `{HashOrder}.

Definition event_key (event_id : bytes) : string := hex_encode event_id.

#[export] Instance MemoryEvents_repository : EventRepository MemoryEvents := {|
  insert_event m r :=
    (Ok tt, match me_events m !! event_key (er_id r) with
            | Some _ => m
            | None => mkMemoryEvents (<[event_key (er_id r) := r]> (me_events m))
            end);
  get_event m t id :=
    Ok (r ← me_events m !! event_key id; if er_tenant_id r == t then Some r else None);
  delete_event m t id :=
    match me_events m !! event_key id with
    | Some r =>
        if er_tenant_id r == t
        then (Ok true, mkMemoryEvents (delete (event_key id) (me_events m))) else (Ok false, m)
    | None => (Ok false, m)
    end;
  query_events m q :=
    Ok (truncate_to (eq_limit q)
      (merge_sort record_before (List.filter (record_matches q) (hash_iter (me_events m)).*2)))
|}.
End InMemory.

(** ** Grouped tags *)

Definition values_of (name : string) (tags : list TagRecord) : list string :=
  tr_value <$> List.filter (λ t, tr_name t == name) tags.

Lemma elem_of_values_of name tags v : v ∈ values_of name tags ↔ mkTagRecord name v ∈ tags.
Proof.
  unfold values_of. rewrite list_elem_of_fmap. setoid_rewrite list_elem_of_In.
  setoid_rewrite filter_In. setoid_rewrite String.eqb_eq. split.
  - by intros ([n x] & -> & Hin & <-).
  - intros Hin. by exists (mkTagRecord name v).
Qed.

Lemma group_by_name_snoc tags t :
  group_by_name (tags ++ [t]) =
  <[tr_name t := default [] (group_by_name tags !! tr_name t) ++ [tr_value t]]> (group_by_name tags).
Proof. unfold group_by_name. by rewrite foldl_app. Qed.

Lemma group_by_name_values tags name : default [] (group_by_name tags !! name) = values_of name tags.
Proof.
  induction tags as [|t tags IH] using rev_ind.
  { unfold group_by_name. simpl. by rewrite lookup_empty. }
  rewrite group_by_name_snoc. unfold values_of. rewrite List.filter_app, fmap_app. fold (values_of name tags).
  simpl. destruct (String.eqb_spec (tr_name t) name) as [<-|Hne].
  - by rewrite lookup_insert_eq, IH.
  - rewrite lookup_insert_ne by done. by rewrite IH, app_nil_r.
Qed.

Lemma group_by_name_nonempty tags name vs : group_by_name tags !! name = Some vs → vs ≠ [].
Proof.
  induction tags as [|t tags IH] using rev_ind.
  { unfold group_by_name. simpl. by rewrite lookup_empty. }
  rewrite group_by_name_snoc. intros [[_ <-]|[_ ?]]%lookup_insert_Some; [|auto].
  by destruct (default [] _).
Qed.

Lemma group_by_name_Some tags name vs :
  group_by_name tags !! name = Some vs ↔ vs = values_of name tags ∧ vs ≠ [].
Proof.
  pose proof (group_by_name_values tags name) as Hv.
  destruct (group_by_name tags !! name) as [ws|] eqn:E; simpl in Hv.
  - apply group_by_name_nonempty in E. naive_solver.
  - split; [done|]. intros [-> Hne]. by rewrite <-Hv in Hne.
Qed.

Lemma group_by_name_empty tags : group_by_name tags = ∅ ↔ tags = [].
Proof.
  split; [|by intros ->]. destruct tags as [|[n v] tags]; [done|]. intros He.
  pose proof (group_by_name_values ([mkTagRecord n v] ++ tags) n) as Hv. simpl app in Hv.
  rewrite He, lookup_empty in Hv. unfold values_of in Hv. simpl in Hv.
  by rewrite String.eqb_refl in Hv.
Qed.

(** ** What a query selects, in terms of the record *)

Section Selected.
Context `{HexLib} `{HashOrder}.

Definition record_selected (q : EventQuery) (r : EventRecord) : Prop :=
  (∀ t, eq_tenant_id q = Some t → er_tenant_id r = t) ∧
  (eq_ids q = [] ∨ ∃ n, n ∈ eq_ids q ∧ hex_decode n = Some (er_id r)) ∧
  (eq_authors q = [] ∨ ∃ n, n ∈ eq_authors q ∧ hex_decode n = Some (er_pubkey r)) ∧
  (eq_kinds q = [] ∨ er_kind r ∈ eq_kinds q) ∧
  (∀ since, eq_since q = Some since → (since ≤ er_created_at r)%Z) ∧
  (∀ until, eq_until q = Some until → (er_created_at r ≤ until)%Z) ∧
  (∀ name v, mkTagRecord name v ∈ eq_tags q →
     ∃ w, mkTagRecord name w ∈ eq_tags q ∧ mkTagRecord name w ∈ er_tags r).

Lemma hex_names_true names b : hex_names names b = true ↔ ∃ n, n ∈ names ∧ hex_decode n = Some b.
Proof.
  unfold hex_names. rewrite existsb_true. f_equiv. intros n. f_equiv.
  destruct (hex_decode n) as [d|]; [|done]. rewrite String.eqb_eq. split; congruence.
Qed.

Lemma grouped_entry wanted name v :
  mkTagRecord name v ∈ wanted → (name, values_of name wanted) ∈ hash_iter (group_by_name wanted).
Proof.
  intros Hin%elem_of_values_of. apply elem_of_hash_iter, group_by_name_Some. split; [done|].
  intros Hnil. rewrite Hnil in Hin. by apply not_elem_of_nil in Hin.
Qed.

(** Some value is both wanted and present. *)
Lemma wanted_value wanted tags name :
  match group_by_name tags !! name with
  | None => false
  | Some values => existsb (λ value, existsb (λ w, w == value) (values_of name wanted)) values
  end = true ↔ ∃ w, mkTagRecord name w ∈ wanted ∧ mkTagRecord name w ∈ tags.
Proof.
  setoid_rewrite <-elem_of_values_of. rewrite <-(group_by_name_values tags name).
  destruct (group_by_name tags !! name) as [vs|]; simpl.
  - rewrite existsb_true. setoid_rewrite existsb_true. setoid_rewrite String.eqb_eq. naive_solver.
  - split; [done|]. by intros (w & _ & ?%not_elem_of_nil).
Qed.

Lemma tags_wanted_true wanted tags :
  tags_wanted (group_by_name wanted) tags = true ↔
  ∀ name v, mkTagRecord name v ∈ wanted →
    ∃ w, mkTagRecord name w ∈ wanted ∧ mkTagRecord name w ∈ tags.
Proof.
  unfold tags_wanted. rewrite forallb_true. split.
  - intros Hall name v Hin. by apply wanted_value, (Hall (name, _)), (grouped_entry _ _ v).
  - intros Hall [name vs] Hin%elem_of_hash_iter. simpl.
    apply group_by_name_Some in Hin as [-> Hne]. apply wanted_value.
    destruct (values_of name wanted) as [|v vs] eqn:Ev; [done|].
    apply (Hall name v), elem_of_values_of. rewrite Ev. left.
Qed.

Lemma record_matches_true q r : record_matches q r = true ↔ record_selected q r.
Proof.
  unfold record_matches, record_selected.
  rewrite !if_false_true, !gate_false, !hex_names_true, existsb_true.
  setoid_rewrite bool_decide_eq_true.
  assert ((∃ x, x ∈ eq_kinds q ∧ x = er_kind r) ↔ er_kind r ∈ eq_kinds q) as -> by naive_solver.
  assert ((if bool_decide (group_by_name (eq_tags q) = ∅) then true
           else tags_wanted (group_by_name (eq_tags q)) (er_tags r)) = true ↔
    ∀ name v, mkTagRecord name v ∈ eq_tags q →
     ∃ w, mkTagRecord name w ∈ eq_tags q ∧ mkTagRecord name w ∈ er_tags r) as ->.
  { rewrite <-tags_wanted_true. case_bool_decide as He; [|done]. rewrite He. unfold tags_wanted.
    rewrite forallb_true. split; [|done]. intros _ [n vs] Hin%elem_of_hash_iter.
    by rewrite lookup_empty in Hin. }
  f_equiv.
  - destruct (eq_tenant_id q) as [t|]; [|naive_solver].
    rewrite negb_false_iff, String.eqb_eq. naive_solver.
  - do 3 f_equiv. f_equiv; [|f_equiv].
    + destruct (eq_since q); [|naive_solver]. rewrite bool_decide_eq_false.
      split; [intros ? ? [= <-]; lia|]. intros Hs. specialize (Hs _ eq_refl). lia.
    + destruct (eq_until q); [|naive_solver]. rewrite bool_decide_eq_false.
      split; [intros ? ? [= <-]; lia|]. intros Hs. specialize (Hs _ eq_refl). lia.
Qed.
End Selected.

(** ** What an event repository promises

    A repository keeps a table of records by event id.  The key has no tenant:
    [nostr_event] has the id alone as its primary key, and so does the
    in-memory map; an insertion of an id that is present, under whatever
    tenant, does nothing.  A failed operation leaves the table alone. *)

Section Table.
Context `{HexLib} `{HashOrder}.

Abbreviation table := (gmap bytes EventRecord).

Definition table_insert (r : EventRecord) (tbl : table) : table :=
  match tbl !! er_id r with Some _ => tbl | None => <[er_id r := r]> tbl end.

Definition table_get (t : string) (id : bytes) (tbl : table) : option EventRecord :=
  r ← tbl !! id; if er_tenant_id r == t then Some r else None.

Definition table_delete (t : string) (id : bytes) (tbl : table) : table :=
  match table_get t id tbl with Some _ => delete id tbl | None => tbl end.

Definition table_query (q : EventQuery) (tbl : table) : list EventRecord :=
  truncate_to (eq_limit q)
    (merge_sort record_before (List.filter (record_matches q) (map_to_list tbl).*2)).

(** Records are filed under their own ids. *)
Definition table_wf (tbl : table) : Prop := ∀ id r, tbl !! id = Some r → er_id r = id.
End Table.

(** A write has been made, or it failed and has been made or not: a statement that fails may
    have taken effect. *)
Definition written {A} (res : result StorageError A) (before after tbl' : gmap bytes EventRecord) : Prop :=
  tbl' = after ∨ is_ok res = false ∧ tbl' = before.

Class EventRepositoryLaws (R : Type) `{HexLib} `{HashOrder} `{EventRepository R} := {
  represents : R → gmap bytes EventRecord → Prop;
  represents_wf : ∀ m tbl, represents m tbl → table_wf tbl;
  insert_event_table : ∀ m tbl r res m', represents m tbl → insert_event m r = (res, m') →
    ∃ tbl', represents m' tbl' ∧ written res tbl (table_insert r tbl) tbl';
  get_event_table : ∀ m tbl t id o, represents m tbl → get_event m t id = Ok o → o = table_get t id tbl;
  delete_event_table : ∀ m tbl t id res m', represents m tbl → delete_event m t id = (res, m') →
    (∃ tbl', represents m' tbl' ∧ written res tbl (table_delete t id tbl) tbl') ∧
    ∀ b, res = Ok b → b = is_some (table_get t id tbl);
  query_events_table : ∀ m tbl q l, represents m tbl → query_events m q = Ok l → l = table_query q tbl
}.

#[export] Instance record_before_trans : Transitive record_before.
Proof.
  intros x y z [Hxy|[Hxy Hxy']] [Hyz|[Hyz Hyz']]; unfold record_before; [lia..|].
  right. split; [congruence|]. by etrans.
Qed.
#[export] Instance record_before_total : Total record_before.
Proof.
  intros x y. unfold record_before.
  destruct (Z.lt_trichotomy (er_created_at x) (er_created_at y)) as [?|[?|?]]; [auto..| |auto].
  destruct (total String.le (er_id x) (er_id y)); auto.
Qed.

Lemma record_before_antisym x y : record_before x y → record_before y x → er_id x = er_id y.
Proof. intros [?|[??]] [?|[??]]; try lia. by apply (anti_symm String.le). Qed.

(** Sorting forgets the order of the input, for records with distinct ids. *)
Lemma sort_records_perm l k :
  (∀ x y, x ∈ l → y ∈ l → er_id x = er_id y → x = y) → l ≡ₚ k →
  merge_sort record_before l = merge_sort record_before k.
Proof.
  intros Hid Hp. apply (StronglySorted_unique_strong record_before).
  - intros x1 x2. rewrite !merge_sort_Permutation, <-Hp. intros H1 H2 H12 H21.
    apply Hid; [done..|]. by apply record_before_antisym.
  - apply StronglySorted_merge_sort; apply _.
  - apply StronglySorted_merge_sort; apply _.
  - by rewrite !merge_sort_Permutation.
Qed.

Lemma elem_of_values {K V} `{Countable K} (m : gmap K V) v :
  v ∈ (map_to_list m).*2 ↔ ∃ k, m !! k = Some v.
Proof.
  rewrite list_elem_of_fmap. split.
  - intros ([k x] & -> & ?%elem_of_map_to_list). by exists k.
  - intros [k Hk]. exists (k, v). by rewrite elem_of_map_to_list.
Qed.

Lemma NoDup_values {K V} `{Countable K} (key : V → K) (m : gmap K V) :
  (∀ k v, m !! k = Some v → key v = k) → NoDup (map_to_list m).*2.
Proof.
  intros Hk. apply (NoDup_fmap_1 key). rewrite <-list_fmap_compose.
  assert (key ∘ snd <$> map_to_list m = (map_to_list m).*1) as ->; [|apply NoDup_fst_map_to_list].
  apply list_fmap_ext. intros i [k v] Hi%list_elem_of_lookup_2%elem_of_map_to_list. simpl. auto.
Qed.

Lemma filter_Permutation' {A} (f : A → bool) l k : l ≡ₚ k → List.filter f l ≡ₚ List.filter f k.
Proof. induction 1; simpl; repeat case_match; try done; [by f_equiv|apply perm_swap|by etrans]. Qed.

Section MemoryLaws.
Context `{HexLaws} `{HashOrder}.

(** The in-memory map holds the records of the table under the hex of their ids. *)
Definition memory_represents (m : MemoryEvents) (tbl : gmap bytes EventRecord) : Prop :=
  (∀ id, me_events m !! event_key id = tbl !! id) ∧
  (∀ key r, me_events m !! key = Some r → key = event_key (er_id r)).

Lemma memory_represents_wf m tbl : memory_represents m tbl → table_wf tbl.
Proof.
  intros [Hl Hk] id r Hr. rewrite <-Hl in Hr. apply Hk in Hr. by apply (inj hex_encode) in Hr.
Qed.

Lemma memory_values m tbl :
  memory_represents m tbl → (hash_iter (me_events m)).*2 ≡ₚ (map_to_list tbl).*2.
Proof.
  intros Hm. pose proof (memory_represents_wf _ _ Hm) as Hwf. destruct Hm as [Hl Hk].
  apply NoDup_Permutation.
  - rewrite hash_iter_perm. apply (NoDup_values (event_key ∘ er_id)). intros k r Hr. symmetry. by apply Hk.
  - by apply (NoDup_values er_id).
  - intros r. rewrite hash_iter_perm, !elem_of_values. split.
    + intros [k Hr]. exists (er_id r). by rewrite <-Hl, <-(Hk _ _ Hr).
    + intros [id Hr]. exists (event_key id). by rewrite Hl.
Qed.

Lemma memory_insert_event m tbl r res m' :
  memory_represents m tbl → insert_event m r = (res, m') →
  memory_represents m' (if is_ok res then table_insert r tbl else tbl).
Proof.
  intros [Hl Hk] [= <- <-]. simpl. unfold table_insert. rewrite <-Hl.
  destruct (me_events m !! event_key (er_id r)) eqn:E; [done|]. split; simpl.
  - intros id. destruct (decide (er_id r = id)) as [->|Hne]; [by rewrite !lookup_insert_eq|].
    rewrite !lookup_insert_ne; [done..|]. intros Heq%(inj hex_encode). done.
  - intros key x [[<- <-]|[_ Hx]]%lookup_insert_Some; auto.
Qed.

Lemma memory_get_event m tbl t id o :
  memory_represents m tbl → get_event m t id = Ok o → o = table_get t id tbl.
Proof. intros [Hl Hk] [= <-]. unfold table_get. by rewrite Hl. Qed.

Lemma memory_delete_event m tbl t id res m' :
  memory_represents m tbl → delete_event m t id = (res, m') →
  memory_represents m' (if is_ok res then table_delete t id tbl else tbl) ∧
  ∀ b, res = Ok b → b = is_some (table_get t id tbl).
Proof.
  intros [Hl Hk]. simpl. unfold table_delete, table_get. rewrite <-Hl.
  destruct (me_events m !! event_key id) as [r|] eqn:E; simpl;
    [|intros [= <- <-]; split; [done|by intros b [= <-]]].
  destruct (er_tenant_id r == t); intros [= <- <-]; simpl; [|split; [done|by intros b [= <-]]].
  split; [split; simpl|by intros b [= <-]].
  - intros id'. destruct (decide (id = id')) as [->|Hne]; [by rewrite !lookup_delete_eq|].
    rewrite !lookup_delete_ne; [done..|]. intros Heq%(inj hex_encode). done.
  - intros key x [_ Hx]%lookup_delete_Some. auto.
Qed.

Lemma memory_query_events m tbl q l :
  memory_represents m tbl → query_events m q = Ok l → l = table_query q tbl.
Proof.
  intros Hm [= <-]. unfold table_query. f_equal.
  pose proof (memory_represents_wf _ _ Hm) as Hwf. apply sort_records_perm.
  - intros x y Hx Hy Hxy. apply list_elem_of_In, filter_In in Hx as [Hx _], Hy as [Hy _].
    apply list_elem_of_In in Hx, Hy. rewrite (memory_values _ _ Hm) in Hx, Hy.
    apply elem_of_values in Hx as [i Hi], Hy as [j Hj].
    pose proof (Hwf _ _ Hi). pose proof (Hwf _ _ Hj). congruence.
  - by apply filter_Permutation', memory_values.
Qed.

#[export] Program Instance MemoryEvents_laws : EventRepositoryLaws MemoryEvents := {|
  represents := memory_represents;
  represents_wf := memory_represents_wf;
  get_event_table := memory_get_event;
  query_events_table := memory_query_events
|}.
Next Obligation.
  intros m tbl r res m' Hm E. pose proof (memory_insert_event _ _ _ _ _ Hm E) as Ht. eexists. split; [exact Ht|].
  unfold written. destruct (is_ok res); auto.
Qed.
Next Obligation.
  intros m tbl t id res m' Hm E. destruct (memory_delete_event _ _ _ _ _ _ Hm E) as [Ht Hb]. split; [|done].
  eexists. split; [exact Ht|]. unfold written. destruct (is_ok res); auto.
Qed.
End MemoryLaws.
