(* ===== verification/PostgresEvents.v ===== *)
(** * [PostgresEvents]: events and memberships in the database

    Models the implementations that [PostgresRepositories] of
    [crates/storage/src/postgres.rs] gives of [EventRepository] and of
    [RelayMembershipRepository], on the tables [nostr_event] and [nostr_tag] of
    [migrations/0005] and [0011] and the tables of [migrations/0012].  An event
    and its tags are written in one transaction; its tags are read with a
    statement of their own.  The methods on events carry out the operations on
    tables of records of [EventRepo], whatever statement fails, and answer as
    the in-memory repository does; the tables of memberships meet
    [RelayMembershipLaws]. *)

From S2P Require Import Prelude RustStr CoreTypes Externals HexModel Nip34Repo Membership Database Outbox EventRepo.

(** ** Transactions and parameters *)

(** [pool.begin()], the statements of [body], [tx.commit()].  A transaction
    that is dropped is rolled back; a commit whose acknowledgement is lost may
    have taken effect. *)
Definition transaction {T A} (body : stateful (Database T) StorageError A)
    : stateful (Database T) StorageError A := λ db,
  match statement (λ t, (tt, t)) db with
  | (Err e, db) => (Err e, db)
  | (Ok _, db) =>
      match body db with
      | (Err e, db') => (Err e, mkDatabase (db_tables db) (db_outcomes db'))
      | (Ok a, db') => statement (λ _, (a, db_tables db')) (mkDatabase (db_tables db) (db_outcomes db'))
      end
  end.

(** A text of the database has no character of code zero. *)
Definition storable (s : string) : bool := negb (contains_char "000"%char s).

(** A statement with texts among its parameters. *)
Definition text_statement {T A} (texts : list string) (f : T → option (A * T))
    : stateful (Database T) StorageError A :=
  try_statement "statement refused" (λ t, if forallb storable texts then f t else None).

(** ** The tables of events *)

Record EventRow := mkEventRow {
  evr_tenant_id : string; evr_pubkey : bytes; evr_created_at : Z; evr_kind : Z; (* integer *)
  evr_content : string; evr_sig : bytes
}.
Record TagRow := mkTagRow {
  tgr_tenant_id : string; tgr_event_id : bytes; tgr_name : string; tgr_value : string
}.

(** [nostr_event] by its primary key; the rows of [nostr_tag] in the order of
    their serial key. *)
Record EventTables := mkEventTables { t_events : gmap bytes EventRow; t_tags : list TagRow }.

Abbreviation event_sql := (stateful (Database EventTables) StorageError).

Definition event_row (r : EventRecord) : EventRow :=
  mkEventRow (er_tenant_id r) (er_pubkey r) (er_created_at r) (as_i32 (er_kind r)) (er_content r)
    (er_sig r).
Definition event_from_row (id : bytes) (row : EventRow) (tags : list TagRecord) : EventRecord :=
  mkEventRecord (evr_tenant_id row) id (evr_pubkey row) (evr_created_at row) (as_u32 (evr_kind row))
    (evr_content row) (evr_sig row) tags.

Definition tag_of_event (tenant_id : string) (event_id : bytes) (row : TagRow) : bool :=
  (tgr_tenant_id row == tenant_id) && (tgr_event_id row == event_id).
Definition select_tags (tenant_id : string) (event_id : bytes) (t : EventTables) : list TagRecord :=
  (λ row, mkTagRecord (tgr_name row) (tgr_value row)) <$>
    List.filter (tag_of_event tenant_id event_id) (t_tags t).

Definition fetch_tags (tenant_id : string) (event_id : bytes) : event_sql (list TagRecord) :=
  text_statement [tenant_id] (λ t, Some (select_tags tenant_id event_id t, t)).

(** The number of rows [INSERT INTO nostr_event ... ON CONFLICT DO NOTHING] inserts. *)
Definition insert_event_row (r : EventRecord) : event_sql Z :=
  text_statement [er_tenant_id r; er_content r] (λ t, Some
    match t_events t !! er_id r with
    | Some _ => (0%Z, t)
    | None => (1%Z, mkEventTables (<[er_id r := event_row r]> (t_events t)) (t_tags t))
    end).

(** The foreign key wants the event. *)
Definition insert_tag_row (r : EventRecord) (tag : TagRecord) : event_sql unit :=
  text_statement [er_tenant_id r; tr_name tag; tr_value tag] (λ t,
    if is_some (t_events t !! er_id r)
    then Some (tt, mkEventTables (t_events t)
           (t_tags t ++ [mkTagRow (er_tenant_id r) (er_id r) (tr_name tag) (tr_value tag)]))
    else None).

Definition pg_insert_event (r : EventRecord) : event_sql unit :=
  transaction (
    affected ← insert_event_row r;
    if bool_decide (affected = 0%Z) then mret tt else for_each (insert_tag_row r) (er_tags r)).

Definition select_event (tenant_id : string) (event_id : bytes) : event_sql (option (bytes * EventRow)) :=
  text_statement [tenant_id] (λ t, Some
    (row ← t_events t !! event_id; if evr_tenant_id row == tenant_id then Some (event_id, row) else None,
     t)).

Definition pg_get_event (tenant_id : string) (event_id : bytes) : event_sql (option EventRecord) :=
  row ← select_event tenant_id event_id;
  match row with
  | None => mret None
  | Some (id, row) =>
      tags ← fetch_tags tenant_id id;
      mret (Some (event_from_row id row tags))
  end.

(** The tags of a deleted event are deleted with it. *)
Definition pg_delete_event (tenant_id : string) (event_id : bytes) : event_sql bool :=
  text_statement [tenant_id] (λ t, Some
    match t_events t !! event_id with
    | Some row =>
        if evr_tenant_id row == tenant_id
        then (true, mkEventTables (delete event_id (t_events t))
                (List.filter (λ tag, negb (tgr_event_id tag == event_id)) (t_tags t)))
        else (false, t)
    | None => (false, t)
    end).

Section Query.
Context `{HexLib} `{HashOrder} `{RowOrder}.

Definition pg_decode_hex (field value : string) : result StorageError bytes :=
  ok_or (StInvalidHex field value) (hex_decode value).

(** The conditions of the [WHERE] clause, which a list adds when it is not empty. *)
Definition in_list {A} `{EqDecision A} (l : list A) (x : A) : bool :=
  is_nil l || existsb (λ y, bool_decide (y = x)) l.

Definition tag_exists (t : EventTables) (id : bytes) (row : EventRow) (entry : string * list string) : bool :=
  existsb (λ tag, (tgr_event_id tag == id) && (tgr_tenant_id tag == evr_tenant_id row)
                  && (tgr_name tag == entry.1) && existsb (λ v, v == tgr_value tag) entry.2) (t_tags t).

Definition row_wanted (q : EventQuery) (ids authors : list bytes) (t : EventTables)
    (entry : bytes * EventRow) : bool :=
  let '(id, row) := entry in
  match eq_tenant_id q with Some tenant => evr_tenant_id row == tenant | None => true end
  && in_list ids id && in_list authors (evr_pubkey row)
  && in_list (as_i32 <$> eq_kinds q) (evr_kind row)
  && match eq_since q with Some since => bool_decide (since ≤ evr_created_at row)%Z | None => true end
  && match eq_until q with Some until => bool_decide (evr_created_at row ≤ until)%Z | None => true end
  && forallb (tag_exists t id row) (hash_iter (group_by_name (eq_tags q))).

(** [ORDER BY created_at DESC, id] *)
Definition row_before (a b : bytes * EventRow) : Prop :=
  (evr_created_at b.2 < evr_created_at a.2)%Z ∨
  evr_created_at a.2 = evr_created_at b.2 ∧ String.le a.1 b.1.
#[export] Instance row_before_dec : RelDecision row_before.
Proof. intros a b. unfold row_before. apply _. Defined.

(** [limit as i64]: a limit that is negative there is refused. *)
Definition limit_refused (limit : option Z) : bool :=
  match limit with Some n => bool_decide (i64_max < n)%Z | None => false end.
Definition limited {A} (limit : option Z) (l : list A) : list A :=
  match limit with Some n => take (Z.to_nat n) l | None => l end.

Definition query_texts (q : EventQuery) : list string :=
  match eq_tenant_id q with Some tenant => [tenant] | None => [] end
  ++ (tr_name <$> eq_tags q) ++ (tr_value <$> eq_tags q).

Definition select_events (q : EventQuery) (ids authors : list bytes) : event_sql (list (bytes * EventRow)) :=
  text_statement (query_texts q) (λ t,
    if limit_refused (eq_limit q) then None
    else Some (limited (eq_limit q)
           (merge_sort row_before
              (List.filter (row_wanted q ids authors t) (row_iter (map_to_list (t_events t))))), t)).

Fixpoint fetch_events (rows : list (bytes * EventRow)) (records : list EventRecord)
    : event_sql (list EventRecord) :=
  match rows with
  | [] => mret records
  | (id, row) :: rows =>
      tags ← fetch_tags (evr_tenant_id row) id;
      fetch_events rows (records ++ [event_from_row id row tags])
  end.

Definition pg_query_events (q : EventQuery) : event_sql (list EventRecord) :=
  ids ← lift (try_map (pg_decode_hex "ids") (eq_ids q));
  authors ← lift (try_map (pg_decode_hex "authors") (eq_authors q));
  rows ← select_events q ids authors;
  fetch_events rows [].
End Query.

(** ** The tables of memberships and invitations *)

Record MembershipTables := mkMembershipTables {
  t_memberships : gmap (string * bytes) RelayMembershipRecord;
  t_invites : gmap string RelayInviteRecord  (* by the unique [invite_code] *)
}.

Abbreviation member_sql := (stateful (Database MembershipTables) StorageError).

Definition pg_upsert_membership (r : RelayMembershipRecord) : member_sql unit :=
  text_statement [mr_tenant_id r; mr_role r; mr_status r] (λ t,
    Some (tt, mkMembershipTables (<[(mr_tenant_id r, mr_pubkey r) := r]> (t_memberships t)) (t_invites t))).

Definition pg_membership_by_pubkey (tenant_id : string) (pubkey : bytes)
    : member_sql (option RelayMembershipRecord) :=
  text_statement [tenant_id] (λ t, Some (t_memberships t !! (tenant_id, pubkey), t)).

(** [ORDER BY pubkey] *)
Definition pubkey_before (a b : RelayMembershipRecord) : Prop := String.le (mr_pubkey a) (mr_pubkey b).
#[export] Instance pubkey_before_dec : RelDecision pubkey_before.
Proof. intros a b. unfold pubkey_before. apply _. Defined.

Definition pg_list_memberships `{RowOrder} (tenant_id : string) : member_sql (list RelayMembershipRecord) :=
  text_statement [tenant_id] (λ t,
    Some (merge_sort pubkey_before
            (List.filter (λ r, mr_tenant_id r == tenant_id) (row_iter (map_to_list (t_memberships t)).*2)), t)).

Definition pg_remove_membership (tenant_id : string) (pubkey : bytes) : member_sql bool :=
  text_statement [tenant_id] (λ t,
    Some (is_some (t_memberships t !! (tenant_id, pubkey)),
          mkMembershipTables (delete (tenant_id, pubkey) (t_memberships t)) (t_invites t))).

(** The code is unique over all tenants. *)
Definition pg_insert_invite (r : RelayInviteRecord) : member_sql unit :=
  text_statement [iv_tenant_id r; iv_invite_code r; iv_role r] (λ t,
    if is_some (t_invites t !! iv_invite_code r) then None
    else Some (tt, mkMembershipTables (t_memberships t) (<[iv_invite_code r := r]> (t_invites t)))).

Definition pg_invite_by_code (tenant_id invite_code : string) : member_sql (option RelayInviteRecord) :=
  text_statement [tenant_id; invite_code] (λ t, Some
    (r ← t_invites t !! invite_code; if iv_tenant_id r == tenant_id then Some r else None, t)).

Definition pg_delete_invite (tenant_id invite_code : string) : member_sql unit :=
  text_statement [tenant_id; invite_code] (λ t, Some (tt,
    match t_invites t !! invite_code with
    | Some r =>
        if iv_tenant_id r == tenant_id
        then mkMembershipTables (t_memberships t) (delete invite_code (t_invites t)) else t
    | None => t
    end)).

(** ** Rules for statements with texts and for transactions *)

Section Rules.
Context {T V : Type} (rep : T → V → Prop).

Lemma realises_text {A} texts (f : T → option (A * T)) (spec : V → A * V) :
  (∀ t v a t', rep t v → forallb storable texts = true → f t = Some (a, t') →
     a = (spec v).1 ∧ rep t' (spec v).2) →
  realises (db_holds rep) (text_statement texts f) spec.
Proof.
  intros Hf. apply realises_try. intros t v a t' Hr. destruct (forallb storable texts) eqn:E; [|done].
  by apply Hf.
Qed.

Lemma answers_realises {A} (c : stateful (Database T) StorageError A) (spec : V → A) :
  answers (db_holds rep) c (λ v a, a = spec v) → realises (db_holds rep) c (λ v, (spec v, v)).
Proof. intros Hc s v r s' Hs E. destruct (Hc _ _ _ _ Hs E) as [Hs' Ha]. destruct r; auto. Qed.

Lemma answers_text {A} texts (f : T → option (A * T)) (P : V → A → Prop) :
  (∀ t v a t', rep t v → f t = Some (a, t') → t' = t ∧ P v a) →
  answers (db_holds rep) (text_statement texts f) P.
Proof.
  intros Hf db v r db' Hr. unfold text_statement, try_statement, statement, db_holds in *.
  destruct (forallb storable texts); [|intros [= <- <-]; by split].
  destruct (f (db_tables db)) as [[a t']|] eqn:E; [|intros [= <- <-]; by split].
  destruct (Hf _ _ _ _ Hr E) as [-> Ha].
  destruct (db_outcomes db) as [|[|source []] os]; intros [= <- <-]; split; try done; intros ? [= <-]; done.
Qed.

Lemma triple_text {A} texts (f : T → option (A * T)) (P : Database T → Prop) Q :
  (∀ t os a t' os', P (mkDatabase t os) → forallb storable texts = true → f t = Some (a, t') →
     Q a (mkDatabase t' os')) →
  triple P (text_statement texts f) Q (λ _, True).
Proof.
  intros Hf [t os] r db' Hr. unfold text_statement, try_statement, statement. simpl.
  destruct (forallb storable texts) eqn:Et; [|by intros [= <- <-]].
  destruct (f t) as [[a t']|] eqn:E; [|by intros [= <- <-]].
  destruct os as [|[|source []] os]; intros [= <- <-]; try done; by eapply Hf.
Qed.

Lemma realises_transaction {A} (body : stateful (Database T) StorageError A) (spec : V → A * V) :
  (∀ v, triple (λ db, db_holds rep db v) body
          (λ a db, a = (spec v).1 ∧ db_holds rep db (spec v).2) (λ _, True)) →
  realises (db_holds rep) (transaction body) spec.
Proof.
  intros Hbody db v r db' Hr. unfold transaction.
  destruct (statement (λ t, (tt, t)) db) as [r0 db0] eqn:E0.
  assert (db_holds rep db0 v) as Hr0.
  { unfold statement in E0. destruct (db_outcomes db) as [|[|source []] os]; by simplify_eq. }
  destruct r0 as [u|e]; [|intros [= <- <-]; by left].
  destruct (body db0) as [r1 db1] eqn:E1. specialize (Hbody _ _ _ _ Hr0 E1).
  destruct r1 as [a|e]; [|intros [= <- <-]; by left].
  destruct Hbody as [-> Hr1]. unfold statement, db_holds in *. simpl.
  destruct (db_outcomes db1) as [|[|source []] os]; intros [= <- <-]; simpl; auto.
Qed.

(** Without failures to come. *)
Lemma text_reliable {A} texts (f : T → option (A * T)) t a t' :
  forallb storable texts = true → f t = Some (a, t') →
  text_statement texts f (mkDatabase t []) = (Ok a, mkDatabase t' []).
Proof. intros Ht Hf. unfold text_statement, try_statement. simpl. by rewrite Ht, Hf. Qed.

Lemma transaction_reliable {A} (body : stateful (Database T) StorageError A) t a t' :
  body (mkDatabase t []) = (Ok a, mkDatabase t' []) →
  transaction body (mkDatabase t []) = (Ok a, mkDatabase t' []).
Proof. intros Hb. unfold transaction, statement. simpl. by rewrite Hb. Qed.
End Rules.

(** The loop of a [for] over [l], with an invariant of the elements done. *)
Lemma triple_for_each {S E A} (body : A → stateful S E unit) (I : list A → S → Prop) F pre l :
  (∀ pre x, x ∈ l → triple (I pre) (body x) (λ _, I (pre ++ [x])) F) →
  triple (I pre) (for_each body l) (λ _, I (pre ++ l)) F.
Proof.
  revert pre. induction l as [|x l IH]; intros pre Hb; simpl.
  - rewrite app_nil_r. by apply triple_ret.
  - apply triple_bind with (λ _, I (pre ++ [x])); [apply Hb; left|]. intros _.
    specialize (IH (pre ++ [x])). rewrite <-app_assoc in IH. simpl in IH. apply IH.
    intros pre' y Hy. apply Hb. by right.
Qed.

(** ** What the tables stand for *)

Definition events_rep (t : EventTables) (tbl : gmap bytes EventRecord) : Prop :=
  (∀ id, tbl !! id =
     (λ row, event_from_row id row (select_tags (evr_tenant_id row) id t)) <$> t_events t !! id) ∧
  (∀ id row, t_events t !! id = Some row →
     storable (evr_tenant_id row) = true ∧ ∃ k, u32 k ∧ evr_kind row = as_i32 k) ∧
  (∀ tag, tag ∈ t_tags t →
     ∃ row, t_events t !! tgr_event_id tag = Some row ∧ evr_tenant_id row = tgr_tenant_id tag).

(** Every tag in the table of an event carries the tenant of the event. *)
Lemma select_tags_absent t tbl tenant id :
  events_rep t tbl → t_events t !! id = None → select_tags tenant id t = [].
Proof.
  intros (_ & _ & Htags) Hid. unfold select_tags.
  assert (List.filter (tag_of_event tenant id) (t_tags t) = []) as ->; [|done].
  apply elem_of_nil_inv. intros tag [Hin Ht]%list_elem_of_In%filter_In.
  apply list_elem_of_In, Htags in Hin as (row & Hrow & _).
  unfold tag_of_event in Ht. apply andb_true_iff in Ht as [_ Ht%String.eqb_eq]. congruence.
Qed.

Definition with_tags (r : EventRecord) (tags : list TagRecord) : EventRecord :=
  mkEventRecord (er_tenant_id r) (er_id r) (er_pubkey r) (er_created_at r) (er_kind r) (er_content r)
    (er_sig r) tags.

Lemma rep_insert_row t tbl r :
  events_rep t tbl → t_events t !! er_id r = None → u32 (er_kind r) → storable (er_tenant_id r) = true →
  events_rep (mkEventTables (<[er_id r := event_row r]> (t_events t)) (t_tags t))
    (<[er_id r := with_tags r []]> tbl).
Proof.
  intros Hr Hid Hk Hs. pose proof (select_tags_absent t tbl (er_tenant_id r) _ Hr Hid) as Hnil.
  destruct Hr as (Hl & Hrow & Htags). split_and!; simpl.
  - intros id. destruct (decide (er_id r = id)) as [<-|Hne].
    + rewrite !lookup_insert_eq. simpl. unfold event_from_row, with_tags. simpl.
      rewrite kind_roundtrip by done. unfold select_tags in *. simpl in *. by rewrite Hnil.
    + rewrite !lookup_insert_ne by done. apply Hl.
  - intros id row [[<- <-]|[_ Hin]]%lookup_insert_Some; simpl; eauto.
  - intros tag Hin. destruct (Htags _ Hin) as (row & Hrow' & Ht). exists row. split; [|done].
    rewrite lookup_insert_ne; [done|]. congruence.
Qed.

Lemma rep_insert_tag t tbl r pre tag :
  events_rep t (<[er_id r := with_tags r pre]> tbl) →
  events_rep (mkEventTables (t_events t)
                (t_tags t ++ [mkTagRow (er_tenant_id r) (er_id r) (tr_name tag) (tr_value tag)]))
    (<[er_id r := with_tags r (pre ++ [tag])]> tbl).
Proof.
  intros (Hl & Hrow & Htags). pose proof (Hl (er_id r)) as Hr. rewrite lookup_insert_eq in Hr.
  destruct (t_events t !! er_id r) as [row0|] eqn:E0; simplify_eq/=.
  unfold with_tags, event_from_row in Hr. injection Hr as Ht Hp Hc Hk Hco Hsig Htg.
  split_and!; simpl.
  - intros id. destruct (decide (er_id r = id)) as [<-|Hne].
    + rewrite lookup_insert_eq, E0. simpl. unfold with_tags, event_from_row, select_tags in *. simpl.
      rewrite List.filter_app, fmap_app, <-Ht. simpl. unfold tag_of_event at 2. simpl.
      rewrite !String.eqb_refl. simpl. rewrite <-Ht in Htg.
      destruct tag as [n v]. simpl. congruence.
    + specialize (Hl id). rewrite lookup_insert_ne in Hl by done. rewrite lookup_insert_ne by done.
      rewrite Hl. destruct (t_events t !! id) as [row|]; [|done]. simpl. do 2 f_equal.
      unfold select_tags. simpl. rewrite List.filter_app, fmap_app. simpl. unfold tag_of_event at 3. simpl.
      apply String.eqb_neq in Hne. rewrite Hne, andb_false_r. by rewrite app_nil_r.
  - done.
  - intros x [Hin|Hx%list_elem_of_singleton]%elem_of_app; [by apply Htags|]. subst x. simpl. eauto.
Qed.

Lemma rep_delete t tbl id :
  events_rep t tbl →
  events_rep (mkEventTables (delete id (t_events t))
                (List.filter (λ tag, negb (tgr_event_id tag == id)) (t_tags t))) (delete id tbl).
Proof.
  intros (Hl & Hrow & Htags). split_and!; simpl.
  - intros id'. destruct (decide (id = id')) as [<-|Hne]; [by rewrite !lookup_delete_eq|].
    rewrite !lookup_delete_ne, Hl by done. destruct (t_events t !! id') as [row|]; [|done]. simpl.
    do 2 f_equal. unfold select_tags. simpl. f_equal.
    clear Htags. induction (t_tags t) as [|tag tags IH]; [done|]. simpl.
    destruct (String.eqb_spec (tgr_event_id tag) id) as [E|_]; simpl.
    + rewrite <-IH. assert (tag_of_event (evr_tenant_id row) id' tag = false) as ->; [|done].
      unfold tag_of_event. rewrite E. apply String.eqb_neq in Hne. by rewrite Hne, andb_false_r.
    + by rewrite IH.
  - intros id' row [_ Hin]%lookup_delete_Some. eauto.
  - intros tag [Hin Ht]%list_elem_of_In%filter_In. apply list_elem_of_In, Htags in Hin as (row & Hr & E).
    exists row. split; [|done]. apply negb_true_iff, String.eqb_neq in Ht. by rewrite lookup_delete_ne.
Qed.

Lemma rep_get t tbl tenant id :
  events_rep t tbl →
  table_get tenant id tbl =
  (row ← t_events t !! id; if evr_tenant_id row == tenant then Some (event_from_row id row (select_tags tenant id t))
                           else None).
Proof.
  intros (Hl & _). unfold table_get. rewrite Hl. destruct (t_events t !! id) as [row|]; [|done]. simpl.
  by destruct (String.eqb_spec (evr_tenant_id row) tenant) as [<-|_].
Qed.

Lemma with_tags_id r : with_tags r (er_tags r) = r.
Proof. by destruct r. Qed.

Lemma insert_event_realises r :
  u32 (er_kind r) →
  realises (db_holds events_rep) (pg_insert_event r) (λ tbl, (tt, table_insert r tbl)).
Proof.
  intros Hk. apply realises_transaction. intros tbl. simpl.
  apply triple_bind with (λ n db,
    if bool_decide (n = 0%Z) then db_holds events_rep db (table_insert r tbl)
    else db_holds events_rep db (<[er_id r := with_tags r []]> tbl) ∧ tbl !! er_id r = None).
  - apply triple_text. unfold db_holds. simpl. intros t _ a t' _ Hr Hs [= E].
    apply andb_true_iff in Hs as [Hs _]. pose proof Hr as (Hl & _). specialize (Hl (er_id r)).
    unfold table_insert. destruct (t_events t !! er_id r) eqn:Eid; simplify_eq/=; [by rewrite Hl|].
    split; [|done]. by apply rep_insert_row.
  - intros n. case_bool_decide; [by apply triple_ret|]. apply triple_pure. intros Hnone.
    eapply triple_weaken; [apply (triple_for_each (insert_tag_row r)
      (λ pre db, db_holds events_rep db (<[er_id r := with_tags r pre]> tbl)) (λ _, True) [])|done| |done].
    2: { intros [] db. simpl. unfold table_insert. by rewrite Hnone, with_tags_id. }
    intros pre tag _. apply triple_text. unfold db_holds. simpl. intros t _ a t' _ Hr _.
    destruct (t_events t !! er_id r); [|done]. intros [= _ <-]. by apply rep_insert_tag.
Qed.

Lemma delete_event_realises tenant id :
  realises (db_holds events_rep) (pg_delete_event tenant id)
    (λ tbl, (is_some (table_get tenant id tbl), table_delete tenant id tbl)).
Proof.
  apply realises_text. intros t tbl a t' Hr _. simpl. unfold table_delete. rewrite (rep_get _ _ _ _ Hr).
  destruct (t_events t !! id) as [row|]; simpl; [|by intros [= <- <-]].
  destruct (evr_tenant_id row == tenant); intros [= <- <-]; [|done]. split; [done|]. by apply rep_delete.
Qed.

(** A row of the table and the record it is the row of, tags apart. *)
Definition row_of (tbl : gmap bytes EventRecord) (entry : bytes * EventRow) (r : EventRecord) : Prop :=
  tbl !! entry.1 = Some r ∧ ∀ tags, event_from_row entry.1 entry.2 tags = with_tags r tags.

Lemma row_of_tenant tbl id row r : row_of tbl (id, row) r → evr_tenant_id row = er_tenant_id r.
Proof. intros [_ Hf]. exact (f_equal er_tenant_id (Hf [])). Qed.

Definition record_at (t : EventTables) (entry : bytes * EventRow) : EventRecord :=
  event_from_row entry.1 entry.2 (select_tags (evr_tenant_id entry.2) entry.1 t).

Lemma row_of_at t tbl id row :
  events_rep t tbl → t_events t !! id = Some row → row_of tbl (id, row) (record_at t (id, row)).
Proof. intros (Hl & _) Hid. split; [|done]. simpl. by rewrite Hl, Hid. Qed.

Lemma fetch_tags_answers tenant id :
  answers (db_holds events_rep) (fetch_tags tenant id)
    (λ tbl tags, ∀ r, tbl !! id = Some r → er_tenant_id r = tenant → tags = er_tags r).
Proof.
  apply answers_text. intros t tbl a t' (Hl & _) [= <- <-]. split; [done|]. intros r Hr Ht. rewrite Hl in Hr. apply fmap_Some in Hr as (row & _ & ->).
  simpl in *. by rewrite Ht.
Qed.

(** Fetching the tags of a row completes its record. *)
Lemma fetch_record {A} tbl id row r (k : EventRecord → event_sql A) Q :
  row_of tbl (id, row) r →
  triple (λ db, db_holds events_rep db tbl) (k r) Q (λ db, db_holds events_rep db tbl) →
  triple (λ db, db_holds events_rep db tbl)
    (tags ← fetch_tags (evr_tenant_id row) id; k (event_from_row id row tags)) Q
    (λ db, db_holds events_rep db tbl).
Proof.
  intros Hrow Hk. eapply triple_bind; [apply answers_triple, fetch_tags_answers|].
  intros tags. apply triple_pure. intros Htags.
  rewrite (Htags r (proj1 Hrow)) by (symmetry; by eapply row_of_tenant).
  destruct Hrow as [_ Hf]. simpl in Hf. by rewrite Hf, with_tags_id.
Qed.

Lemma get_event_answers tenant id :
  answers (db_holds events_rep) (pg_get_event tenant id) (λ tbl o, o = table_get tenant id tbl).
Proof.
  apply triple_answers. intros tbl. unfold pg_get_event.
  eapply triple_bind.
  - apply (answers_triple _ _ (λ tbl o, match o with
      | None => table_get tenant id tbl = None
      | Some (i, row) => evr_tenant_id row = tenant ∧
          ∃ r, row_of tbl (i, row) r ∧ table_get tenant id tbl = Some r
      end)).
    apply answers_text. intros t v a t' Hr [= <- <-]. split; [done|]. rewrite (rep_get _ _ _ _ Hr).
    destruct (t_events t !! id) as [row|] eqn:E; [|done]. simpl.
    destruct (String.eqb_spec (evr_tenant_id row) tenant) as [<-|_]; [|done].
    split; [done|]. eexists. split; [by eapply row_of_at|done].
  - intros o. apply triple_pure. destruct o as [[i row]|].
    + intros (<- & r & Hrow & ->).
      apply (fetch_record tbl i row r (λ x, mret (Some x))); [done|]. by apply triple_ret.
    + intros ->. by apply triple_ret.
Qed.

Lemma fetch_events_triple rows rs done tbl :
  Forall2 (row_of tbl) rows rs →
  triple (λ db, db_holds events_rep db tbl) (fetch_events rows done)
    (λ l db, db_holds events_rep db tbl ∧ l = done ++ rs) (λ db, db_holds events_rep db tbl).
Proof.
  intros Hrows. revert done. induction Hrows as [|[id row] r rows rs Hrow _ IH]; intros done; simpl.
  - apply triple_ret. by rewrite app_nil_r.
  - apply (fetch_record tbl id row r (λ x, fetch_events rows (done ++ [x]))); [done|].
    eapply triple_weaken; [apply IH|done| |done]. intros l db. by rewrite <-app_assoc.
Qed.

(** ** The [WHERE] clause selects the records a query matches *)

Lemma in_list_true {A} `{EqDecision A} (l : list A) x : in_list l x = true ↔ l = [] ∨ x ∈ l.
Proof.
  unfold in_list. rewrite orb_true_iff, existsb_true. setoid_rewrite bool_decide_eq_true.
  destruct l; naive_solver.
Qed.

Lemma elem_of_select_tags t tenant id n v :
  mkTagRecord n v ∈ select_tags tenant id t ↔ mkTagRow tenant id n v ∈ t_tags t.
Proof.
  unfold select_tags. rewrite list_elem_of_fmap. setoid_rewrite list_elem_of_In.
  setoid_rewrite filter_In. unfold tag_of_event. setoid_rewrite andb_true_iff.
  setoid_rewrite String.eqb_eq. split.
  - intros ([a b c d] & [= -> ->] & Hin & <- & <-). done.
  - intros Hin. by exists (mkTagRow tenant id n v).
Qed.

Lemma as_i32_inj k k' : u32 k → u32 k' → as_i32 k = as_i32 k' → k = k'.
Proof. intros Hk Hk' E. by rewrite <-(kind_roundtrip k), <-(kind_roundtrip k'), E. Qed.

Section Wanted.
Context `{HexLib} `{HashOrder} `{RowOrder}.

Lemma decoded_names field names l b :
  try_map (pg_decode_hex field) names = Ok l →
  (l = [] ∨ b ∈ l) ↔ (names = [] ∨ ∃ n, n ∈ names ∧ hex_decode n = Some b).
Proof.
  rewrite try_map_Ok. intros Hall.
  assert (b ∈ l ↔ ∃ n, n ∈ names ∧ hex_decode n = Some b) as ->.
  { induction Hall as [|n d names l Hn%ok_or_Ok _ IH]; [by split; [intros ?%not_elem_of_nil|intros (?&?%not_elem_of_nil&_)]|].
    setoid_rewrite elem_of_cons. rewrite IH. naive_solver congruence. }
  destruct Hall; naive_solver.
Qed.

Lemma kinds_wanted q k :
  Forall u32 (eq_kinds q) → u32 k → in_list (as_i32 <$> eq_kinds q) (as_i32 k) = true ↔
  eq_kinds q = [] ∨ k ∈ eq_kinds q.
Proof.
  intros Hq Hk. rewrite in_list_true, list_elem_of_fmap. f_equiv; [by destruct (eq_kinds q)|].
  rewrite Forall_forall in Hq. split; [|by eauto].
  intros (k' & E & Hin). by rewrite (as_i32_inj k k') by auto.
Qed.

Lemma tag_exists_true t id row wanted name :
  tag_exists t id row (name, values_of name wanted) = true ↔
  ∃ w, mkTagRecord name w ∈ wanted ∧ mkTagRecord name w ∈ select_tags (evr_tenant_id row) id t.
Proof.
  unfold tag_exists. rewrite existsb_true. simpl. setoid_rewrite elem_of_select_tags.
  setoid_rewrite <-elem_of_values_of. split.
  - intros ([a b c d] & Hin & Hb). simpl in Hb. rewrite !andb_true_iff, !String.eqb_eq, existsb_true in Hb.
    destruct Hb as [[[-> ->] ->] (w & Hw & ->%String.eqb_eq)]. eauto.
  - intros (w & Hw & Hin). eexists. split; [done|]. simpl. rewrite !String.eqb_refl. simpl.
    apply existsb_true. exists w. by rewrite String.eqb_refl.
Qed.

Lemma tags_exist_true t id row wanted :
  forallb (tag_exists t id row) (hash_iter (group_by_name wanted)) = true ↔
  ∀ name v, mkTagRecord name v ∈ wanted → ∃ w, mkTagRecord name w ∈ wanted ∧
    mkTagRecord name w ∈ select_tags (evr_tenant_id row) id t.
Proof.
  rewrite forallb_true. split.
  - intros Hall name v Hin. by apply tag_exists_true, Hall, (grouped_entry _ _ v).
  - intros Hall [name vs] Hin%elem_of_hash_iter.
    apply group_by_name_Some in Hin as [-> Hne]. apply tag_exists_true.
    destruct (values_of name wanted) as [|v vs] eqn:Ev; [done|].
    apply (Hall name v), elem_of_values_of. rewrite Ev. left.
Qed.

Lemma row_wanted_matches t tbl q ids authors id row :
  events_rep t tbl → t_events t !! id = Some row → Forall u32 (eq_kinds q) →
  try_map (pg_decode_hex "ids") (eq_ids q) = Ok ids →
  try_map (pg_decode_hex "authors") (eq_authors q) = Ok authors →
  row_wanted q ids authors t (id, row) = record_matches q (record_at t (id, row)).
Proof.
  intros (_ & Hrow & _) Hid Hq Hids Hauth. destruct (Hrow _ _ Hid) as (_ & k & Hk & Ek).
  apply Bool.eq_iff_eq_true. rewrite record_matches_true. unfold row_wanted, record_selected.
  rewrite !andb_true_iff, Ek, kinds_wanted, tags_exist_true, !in_list_true by done.
  rewrite (decoded_names _ _ _ _ Hids), (decoded_names _ _ _ _ Hauth). simpl.
  rewrite Ek, kind_roundtrip by done.
  assert (match eq_tenant_id q with Some tenant => evr_tenant_id row == tenant | None => true end = true ↔
    ∀ tn, eq_tenant_id q = Some tn → evr_tenant_id row = tn) as ->.
  { destruct (eq_tenant_id q); [rewrite String.eqb_eq|]; naive_solver. }
  assert (match eq_since q with Some z => bool_decide (z ≤ evr_created_at row)%Z | None => true end = true ↔
    ∀ z, eq_since q = Some z → (z ≤ evr_created_at row)%Z) as ->.
  { destruct (eq_since q); [rewrite bool_decide_eq_true|]; naive_solver. }
  assert (match eq_until q with Some z => bool_decide (evr_created_at row ≤ z)%Z | None => true end = true ↔
    ∀ z, eq_until q = Some z → (evr_created_at row ≤ z)%Z) as ->.
  { destruct (eq_until q); [rewrite bool_decide_eq_true|]; naive_solver. }
  tauto.
Qed.
End Wanted.

(** ** The rows of a query are the rows of the records of the table *)

Lemma row_before_at t a b : row_before a b ↔ record_before (record_at t a) (record_at t b).
Proof. done. Qed.

#[export] Instance row_before_trans : Transitive row_before.
Proof.
  intros x y z. rewrite !(row_before_at (mkEventTables ∅ [])). apply record_before_trans.
Qed.
#[export] Instance row_before_total : Total row_before.
Proof. intros x y. rewrite !(row_before_at (mkEventTables ∅ [])). apply record_before_total. Qed.

Lemma rep_wf t tbl : events_rep t tbl → table_wf tbl.
Proof. intros (Hl & _) id r Hr. rewrite Hl in Hr. by apply fmap_Some in Hr as (row & _ & ->). Qed.

Lemma records_at t tbl :
  events_rep t tbl → record_at t <$> map_to_list (t_events t) ≡ₚ (map_to_list tbl).*2.
Proof.
  intros Hr. apply NoDup_Permutation.
  - apply (NoDup_fmap_1 er_id). rewrite <-list_fmap_compose.
    change (er_id ∘ record_at t) with (@fst bytes EventRow). apply NoDup_fst_map_to_list.
  - apply (NoDup_values er_id), (rep_wf t tbl Hr).
  - intros r. rewrite elem_of_values, list_elem_of_fmap. destruct Hr as (Hl & _). split.
    + intros ([id row] & -> & Hin%elem_of_map_to_list). exists id. by rewrite Hl, Hin.
    + intros [id Hid]. rewrite Hl in Hid. apply fmap_Some in Hid as (row & Hrow & ->).
      exists (id, row). split; [done|]. by apply elem_of_map_to_list.
Qed.

Lemma filter_fmap_bool {A B} (g : A → B) (f : A → bool) (h : B → bool) l :
  (∀ x, x ∈ l → f x = h (g x)) → g <$> List.filter f l = List.filter h (g <$> l).
Proof.
  induction l as [|x l IH]; intros Hf; simpl; [done|].
  rewrite (Hf x) by left. specialize (IH (λ y Hy, Hf y (list_elem_of_further _ _ _ Hy))).
  destruct (h (g x)); simpl; [by f_equal|done].
Qed.

Lemma truncate_limited limit t l : truncate_to limit (record_at t <$> l) = record_at t <$> limited limit l.
Proof. destruct limit; [|done]. simpl. by rewrite fmap_take. Qed.

Lemma limited_subset {A} limit (l : list A) : limited limit l ⊆ l.
Proof. destruct limit; [|done]. intros x Hx. by eapply elem_of_take in Hx as (i & ?%list_elem_of_lookup_2 & _). Qed.

Lemma rows_of_records t tbl l :
  events_rep t tbl → (∀ id row, (id, row) ∈ l → t_events t !! id = Some row) →
  Forall2 (row_of tbl) l (record_at t <$> l).
Proof.
  intros Hr Hl. apply Forall2_fmap_r, Forall_Forall2_diag, Forall_forall. intros [id row] Hin.
  apply row_of_at; auto.
Qed.

Section QueryRows.
Context `{HexLib} `{HashOrder} `{RowOrder}.

Lemma queried_rows t tbl q ids authors :
  events_rep t tbl → Forall u32 (eq_kinds q) →
  try_map (pg_decode_hex "ids") (eq_ids q) = Ok ids →
  try_map (pg_decode_hex "authors") (eq_authors q) = Ok authors →
  record_at t <$> merge_sort row_before
    (List.filter (row_wanted q ids authors t) (row_iter (map_to_list (t_events t)))) =
  merge_sort record_before (List.filter (record_matches q) (map_to_list tbl).*2).
Proof.
  intros Hr Hq Hids Hauth.
  assert (record_at t <$> List.filter (row_wanted q ids authors t) (row_iter (map_to_list (t_events t)))
          ≡ₚ List.filter (record_matches q) (map_to_list tbl).*2) as Hperm.
  { rewrite (row_iter_perm (map_to_list (t_events t))), <-(records_at t tbl Hr).
    erewrite filter_fmap_bool; [done|]. intros [id row] Hin%elem_of_map_to_list.
    by eapply row_wanted_matches. }
  apply (StronglySorted_unique_strong record_before).
  - intros x1 x2. rewrite !merge_sort_Permutation, Hperm. intros Hx1 Hx2 H12 H21.
    apply list_elem_of_In, filter_In in Hx1 as [Hx1%list_elem_of_In _], Hx2 as [Hx2%list_elem_of_In _].
    apply elem_of_values in Hx1 as [i Hi], Hx2 as [j Hj].
    pose proof (rep_wf _ _ Hr _ _ Hi). pose proof (rep_wf _ _ Hr _ _ Hj).
    pose proof (record_before_antisym _ _ H12 H21). congruence.
  - apply (StronglySorted_fmap (record_at t) row_before); [done|]. apply StronglySorted_merge_sort; apply _.
  - apply StronglySorted_merge_sort; apply _.
  - by rewrite !merge_sort_Permutation.
Qed.

Lemma query_events_answers q :
  Forall u32 (eq_kinds q) →
  answers (db_holds events_rep) (pg_query_events q) (λ tbl l, l = table_query q tbl).
Proof.
  intros Hq. apply triple_answers. intros tbl. unfold pg_query_events.
  destruct (try_map (pg_decode_hex "ids") (eq_ids q)) as [ids|] eqn:Hids;
    [|by intros db r db' Hdb [= <- <-]].
  destruct (try_map (pg_decode_hex "authors") (eq_authors q)) as [authors|] eqn:Hauth;
    [|by intros db r db' Hdb [= <- <-]].
  eapply (triple_bind _ _ _ _ (λ rows db, db_holds events_rep db tbl ∧ Forall2 (row_of tbl) rows (table_query q tbl))).
  - apply (answers_triple _ _ (λ tbl rows, Forall2 (row_of tbl) rows (table_query q tbl))), answers_text.
    intros t v a t' Hr. destruct (limit_refused (eq_limit q)); [done|]. intros [= <- <-]. split; [done|].
    unfold table_query. rewrite <-(queried_rows t v q ids authors) by done.
    rewrite truncate_limited. apply rows_of_records; [done|]. intros id row Hin%limited_subset.
    rewrite merge_sort_Permutation in Hin. apply list_elem_of_In, filter_In in Hin as [Hin%list_elem_of_In _].
    rewrite row_iter_perm in Hin. by apply elem_of_map_to_list in Hin.
  - intros rows. apply triple_pure. apply fetch_events_triple.
Qed.
End QueryRows.

(** ** Sequences of operations *)

Inductive EventOp :=
| OpInsert (r : EventRecord)
| OpGet (tenant_id : string) (event_id : bytes)
| OpDelete (tenant_id : string) (event_id : bytes)
| OpQuery (q : EventQuery).

Inductive EventAnswer :=
| AnsInserted
| AnsEvent (o : option EventRecord)
| AnsDeleted (b : bool)
| AnsEvents (l : list EventRecord).

Fixpoint run_ops {S E A} (run : EventOp → stateful S E A) (ops : list EventOp) (s : S)
    : list (result E A) * S :=
  match ops with
  | [] => ([], s)
  | op :: ops =>
      let '(r, s) := run op s in
      let '(rs, s) := run_ops run ops s in (r :: rs, s)
  end.

(** Kinds are of type [u32]. *)
Definition op_typed (op : EventOp) : Prop :=
  match op with
  | OpInsert r => u32 (er_kind r)
  | OpQuery q => Forall u32 (eq_kinds q)
  | _ => True
  end.

Section Runs.
Context `{HexLib} `{HashOrder} `{RowOrder}.

Definition pg_run (op : EventOp) : event_sql EventAnswer :=
  match op with
  | OpInsert r => _ ← pg_insert_event r; mret AnsInserted
  | OpGet t id => o ← pg_get_event t id; mret (AnsEvent o)
  | OpDelete t id => b ← pg_delete_event t id; mret (AnsDeleted b)
  | OpQuery q => l ← pg_query_events q; mret (AnsEvents l)
  end.

Definition memory_run (op : EventOp) : stateful MemoryEvents StorageError EventAnswer := λ m,
  match op with
  | OpInsert r => let '(res, m) := insert_event m r in ((λ _, AnsInserted) <$> res, m)
  | OpGet t id => (AnsEvent <$> get_event m t id, m)
  | OpDelete t id => let '(res, m) := delete_event m t id in (AnsDeleted <$> res, m)
  | OpQuery q => (AnsEvents <$> query_events m q, m)
  end.

Definition table_run (op : EventOp) (tbl : gmap bytes EventRecord)
    : EventAnswer * gmap bytes EventRecord :=
  match op with
  | OpInsert r => (AnsInserted, table_insert r tbl)
  | OpGet t id => (AnsEvent (table_get t id tbl), tbl)
  | OpDelete t id => (AnsDeleted (is_some (table_get t id tbl)), table_delete t id tbl)
  | OpQuery q => (AnsEvents (table_query q tbl), tbl)
  end.

(** What may be observed of a table: an operation that succeeds takes effect
    and answers from the table; one that fails takes effect or does not. *)
Inductive table_trace : gmap bytes EventRecord → list (EventOp * result StorageError EventAnswer) →
    gmap bytes EventRecord → Prop :=
| trace_nil tbl : table_trace tbl [] tbl
| trace_ok tbl op trace tbl' :
    table_trace (table_run op tbl).2 trace tbl' →
    table_trace tbl ((op, Ok (table_run op tbl).1) :: trace) tbl'
| trace_failed tbl op e trace tbl' :
    table_trace tbl trace tbl' → table_trace tbl ((op, Err e) :: trace) tbl'
| trace_unacknowledged tbl op e trace tbl' :
    table_trace (table_run op tbl).2 trace tbl' → table_trace tbl ((op, Err e) :: trace) tbl'.

(** The database accepts the parameters. *)
Definition op_accepted (op : EventOp) : Prop :=
  match op with
  | OpInsert r => Forall (λ s, storable s = true)
      (er_tenant_id r :: er_content r :: (tr_name <$> er_tags r) ++ (tr_value <$> er_tags r))
  | OpGet t _ | OpDelete t _ => storable t = true
  | OpQuery q => Forall (λ s, storable s = true) (query_texts q) ∧
      Forall (λ n, is_Some (hex_decode n)) (eq_ids q ++ eq_authors q) ∧
      limit_refused (eq_limit q) = false
  end.

Lemma realises_ret {S V E A B} (holds : S → V → Prop) (c : stateful S E A) (g : A → B) spec :
  realises holds c spec → realises holds (a ← c; mret (g a)) (λ v, (g (spec v).1, (spec v).2)).
Proof.
  intros Hc s v r s' Hs. unfold mbind, stateful_bind. destruct (c s) as [r0 s0] eqn:E0.
  specialize (Hc _ _ _ _ Hs E0). destruct r0 as [a|e]; intros [= <- <-]; [|done]. simpl.
  by destruct Hc as [-> ?].
Qed.

Lemma pg_run_realises op : op_typed op → realises (db_holds events_rep) (pg_run op) (table_run op).
Proof.
  destruct op as [r|t id|t id|q]; simpl; intros Ht.
  - apply (realises_ret _ _ (λ _, AnsInserted) _ (insert_event_realises r Ht)).
  - apply (realises_ret _ _ AnsEvent (λ v, (table_get t id v, v))), answers_realises, get_event_answers.
  - apply (realises_ret _ _ AnsDeleted _ (delete_event_realises t id)).
  - apply (realises_ret _ _ AnsEvents (λ v, (table_query q v, v))), answers_realises, query_events_answers, Ht.
Qed.

Lemma pg_run_trace ops db tbl rs db' :
  Forall op_typed ops → db_holds events_rep db tbl → run_ops pg_run ops db = (rs, db') →
  ∃ tbl', table_trace tbl (zip ops rs) tbl' ∧ db_holds events_rep db' tbl'.
Proof.
  revert db tbl rs. induction ops as [|op ops IH]; intros db tbl rs Hops Hdb; simpl.
  { intros [= <- <-]. exists tbl. split; [constructor|done]. }
  apply Forall_cons in Hops as [Hop Hops]. destruct (pg_run op db) as [r db1] eqn:E1.
  destruct (run_ops pg_run ops db1) as [rs' db2] eqn:E2. intros [= <- <-].
  pose proof (pg_run_realises op Hop _ _ _ _ Hdb E1) as Hr. destruct r as [a|e].
  - destruct Hr as [-> Hr]. destruct (IH _ _ _ Hops Hr E2) as (tbl' & Ht & Hh).
    exists tbl'. split; [by constructor|done].
  - destruct Hr as [Hr|Hr]; destruct (IH _ _ _ Hops Hr E2) as (tbl' & Ht & Hh); exists tbl';
      (split; [|done]); [by apply trace_failed|by apply trace_unacknowledged].
Qed.
End Runs.

(** ** Without failures: every accepted operation succeeds *)

Definition succeeds {A} (c : event_sql A) (t : EventTables) : Prop :=
  ∃ a t', c (mkDatabase t []) = (Ok a, mkDatabase t' []).

Lemma succeeds_ret {A B} (c : event_sql A) (g : A → B) t : succeeds c t → succeeds (a ← c; mret (g a)) t.
Proof. intros (a & t' & Hc). exists (g a), t'. unfold mbind, stateful_bind. by rewrite Hc. Qed.

Lemma forallb_storable l : Forall (λ s, storable s = true) l → forallb storable l = true.
Proof. rewrite forallb_true, Forall_forall. done. Qed.

Lemma fetch_tags_reliable tenant id t :
  storable tenant = true →
  fetch_tags tenant id (mkDatabase t []) = (Ok (select_tags tenant id t), mkDatabase t []).
Proof. intros Hs. apply text_reliable; [simpl; by rewrite Hs|done]. Qed.

Lemma insert_tags_succeed r tags t :
  is_Some (t_events t !! er_id r) → storable (er_tenant_id r) = true →
  Forall (λ s, storable s = true) (tr_name <$> tags) → Forall (λ s, storable s = true) (tr_value <$> tags) →
  succeeds (for_each (insert_tag_row r) tags) t.
Proof.
  intros Hid Hs. revert t Hid. induction tags as [|tag tags IH]; intros t [row Hid] Hn Hv; [by exists tt, t|].
  rewrite fmap_cons in Hn, Hv. apply Forall_cons in Hn as [Hn Hns], Hv as [Hv Hvs].
  simpl. unfold succeeds, mbind, stateful_bind. unfold insert_tag_row at 1.
  erewrite text_reliable; [|simpl; by rewrite Hs, Hn, Hv|by rewrite Hid].
  apply IH; [by exists row|done..].
Qed.

Section Succeeds.
Context `{HexLib} `{HashOrder} `{RowOrder}.

Lemma insert_event_succeeds r t : op_accepted (OpInsert r) → succeeds (pg_insert_event r) t.
Proof.
  simpl. rewrite !Forall_cons, Forall_app. intros (Ht & Hc & Hn & Hv).
  assert (succeeds (affected ← insert_event_row r;
    if bool_decide (affected = 0%Z) then mret tt else for_each (insert_tag_row r) (er_tags r)) t)
    as (a & t' & Hb); [|exists a, t'; by apply transaction_reliable].
  unfold succeeds, mbind, stateful_bind, insert_event_row.
  destruct (t_events t !! er_id r) eqn:E;
    (erewrite text_reliable; [|simpl; by rewrite Ht, Hc|by rewrite E]); simpl; [by exists tt, t|].
  apply insert_tags_succeed; [|done..]. simpl. rewrite lookup_insert_eq. by eexists.
Qed.

Lemma get_event_succeeds tenant id t : storable tenant = true → succeeds (pg_get_event tenant id) t.
Proof.
  intros Hs. unfold succeeds, pg_get_event, mbind, stateful_bind, select_event.
  erewrite text_reliable; [|simpl; by rewrite Hs|done].
  destruct (row ← t_events t !! id; _) as [[i row]|]; [|by do 2 eexists].
  rewrite fetch_tags_reliable by done. by do 2 eexists.
Qed.

Lemma delete_event_succeeds tenant id t : storable tenant = true → succeeds (pg_delete_event tenant id) t.
Proof.
  intros Hs. unfold succeeds, pg_delete_event.
  destruct (t_events t !! id) as [row|] eqn:E; [destruct (evr_tenant_id row == tenant) eqn:Et|];
    (erewrite text_reliable; [by do 2 eexists|simpl; by rewrite Hs|by rewrite E, ?Et]).
Qed.

Lemma decode_succeeds field names :
  Forall (λ n, is_Some (hex_decode n)) names → ∃ l, try_map (pg_decode_hex field) names = Ok l.
Proof.
  induction 1 as [|n names [b Hn] _ [l IH]]; [by exists []|]. exists (b :: l). simpl.
  unfold pg_decode_hex at 1. by rewrite Hn, IH.
Qed.

Lemma fetch_events_succeed rows done t :
  Forall (λ entry, storable (evr_tenant_id entry.2) = true) rows → succeeds (fetch_events rows done) t.
Proof.
  intros Hrows. revert done. induction Hrows as [|[id row] rows Hs _ IH]; intros done; [by exists done, t|].
  simpl. unfold succeeds, mbind, stateful_bind. rewrite fetch_tags_reliable by done. apply IH.
Qed.

Lemma query_events_succeeds q t tbl :
  events_rep t tbl → op_accepted (OpQuery q) → succeeds (pg_query_events q) t.
Proof.
  intros (_ & Hrow & _) (Ht & [Hids Hauth]%Forall_app & Hlim).
  destruct (decode_succeeds "ids" _ Hids) as [ids Eids].
  destruct (decode_succeeds "authors" _ Hauth) as [authors Eauth].
  unfold succeeds, pg_query_events, mbind, stateful_bind, lift, select_events.
  rewrite Eids, Eauth. erewrite text_reliable; [|by apply forallb_storable|by rewrite Hlim].
  apply fetch_events_succeed, Forall_forall. intros [id row] Hin%limited_subset.
  rewrite merge_sort_Permutation in Hin. apply list_elem_of_In, filter_In in Hin as [Hin%list_elem_of_In _].
  rewrite row_iter_perm in Hin. apply elem_of_map_to_list, Hrow in Hin as [Hin _]. done.
Qed.

Lemma pg_run_succeeds op t tbl : events_rep t tbl → op_accepted op → succeeds (pg_run op) t.
Proof.
  intros Hr Hop. destruct op as [r|tn id|tn id|q]; simpl; apply succeeds_ret.
  - by apply insert_event_succeeds.
  - by apply get_event_succeeds.
  - by apply delete_event_succeeds.
  - by eapply query_events_succeeds.
Qed.

Lemma memory_run_table `{!HexLaws} op m tbl :
  memory_represents m tbl →
  ∃ m', memory_run op m = (Ok (table_run op tbl).1, m') ∧ memory_represents m' (table_run op tbl).2.
Proof.
  intros Hm. destruct op as [r|tn id|tn id|q]; simpl.
  - eexists. split; [done|]. by apply (memory_insert_event m tbl r (Ok tt)).
  - exists m. split; [|done]. do 3 f_equal. by apply (memory_get_event m tbl).
  - destruct (delete_event m tn id) as [res m'] eqn:E.
    destruct (memory_delete_event m tbl tn id res m' Hm E) as [Hm' Hb].
    assert (∃ b, res = Ok b) as [b ->].
    { simpl in E. repeat case_match; simplify_eq; eauto. }
    simpl in E. rewrite E. exists m'. simpl. by rewrite <-(Hb b eq_refl).
  - exists m. split; [|done]. do 3 f_equal. by apply (memory_query_events m tbl).
Qed.

Lemma pg_agrees `{!HexLaws} ops t tbl m :
  Forall op_typed ops → Forall op_accepted ops → events_rep t tbl → memory_represents m tbl →
  (run_ops pg_run ops (mkDatabase t [])).1 = (run_ops memory_run ops m).1.
Proof.
  intros Hty Hacc. revert t tbl m. induction ops as [|op ops IH]; intros t tbl m Hr Hm; [done|]. simpl.
  apply Forall_cons in Hty as [Hty Htys], Hacc as [Hacc Haccs].
  destruct (pg_run_succeeds op t tbl Hr Hacc) as (a & t' & E1). rewrite E1.
  destruct (pg_run_realises op Hty (mkDatabase t []) tbl _ _ Hr E1) as [-> Hr'].
  destruct (memory_run_table op m tbl Hm) as (m' & E2 & Hm'). rewrite E2.
  specialize (IH Htys Haccs t' _ m' Hr' Hm').
  destruct (run_ops pg_run ops _) as [rs1 db1], (run_ops memory_run ops m') as [rs2 m2].
  simpl in *. by f_equal.
Qed.
End Succeeds.

Section Refinement.
Context `{HexLaws} `{HashOrder} `{RowOrder}.

(** C30: The events in PostgreSQL refine a table of records by event id.  In a
    run of insertions, reads, deletions and queries in which any statement
    may fail, and a commit may take effect without being acknowledged, every
    operation that succeeds answers from the table and takes effect on it as
    a whole, event and tags, and every operation that fails has taken effect
    as a whole or not at all.  When no statement fails and the parameters are
    ones the database accepts, each answer is the one the in-memory
    repository gives. *)
Theorem postgres_events_refine (ops : list EventOp) (t : EventTables) (os : list StatementOutcome)
    (tbl : gmap bytes EventRecord) (m : MemoryEvents) rs db' :
  Forall op_typed ops → events_rep t tbl → memory_represents m tbl →
  run_ops pg_run ops (mkDatabase t os) = (rs, db') →
  (∃ tbl', table_trace tbl (zip ops rs) tbl' ∧ events_rep (db_tables db') tbl') ∧
  (os = [] → Forall op_accepted ops → rs = (run_ops memory_run ops m).1).
Proof.
  intros Hty Hr Hm Hrun. split; [exact (pg_run_trace ops (mkDatabase t os) tbl rs db' Hty Hr Hrun)|].
  intros -> Hacc.
  rewrite <-(pg_agrees ops t tbl m) by done. by rewrite Hrun.
Qed.
End Refinement.

(** ** Reading an event is not one transaction *)

(** The row of an event is read, the event is deleted, its tags are read: the
    answer is an event that never was in the table, without its tags. *)
Lemma torn_read tenant id row t tbl :
  events_rep t tbl → storable tenant = true → t_events t !! id = Some row → evr_tenant_id row = tenant →
  ∃ t', pg_delete_event tenant id (mkDatabase t []) = (Ok true, mkDatabase t' []) ∧
    fetch_tags tenant id (mkDatabase t' []) = (Ok [], mkDatabase t' []).
Proof.
  intros Hr Hs Hid <-. eexists. split.
  - apply text_reliable; [simpl; by rewrite Hs|]. by rewrite Hid, String.eqb_refl.
  - rewrite fetch_tags_reliable by done. do 2 f_equal.
    eapply select_tags_absent; [by apply rep_delete|]. simpl. apply lookup_delete_eq.
Qed.

(** ** Memberships in the database, while no statement fails *)

(** The result of a method on tables whose statements do not fail. *)
Definition reliably {T A} (c : stateful (Database T) StorageError A) (t : T) : result StorageError A * T :=
  let '(r, db) := c (mkDatabase t []) in (r, db_tables db).

Lemma reliably_text {T A} texts (f : T → option (A * T)) t a t' :
  reliably (text_statement texts f) t = (Ok a, t') ↔ forallb storable texts = true ∧ f t = Some (a, t').
Proof.
  unfold reliably, text_statement, try_statement. simpl.
  destruct (forallb storable texts); [|naive_solver]. destruct (f t) as [[]|]; simpl; naive_solver.
Qed.

Section MembershipsInDatabase.
Context `{RowOrder}.

#[export] Instance MembershipTables_repository : RelayMembershipRepository MembershipTables := {|
  upsert_membership t r := reliably (pg_upsert_membership r) t;
  membership_by_pubkey t tenant_id pubkey := (reliably (pg_membership_by_pubkey tenant_id pubkey) t).1;
  list_memberships t tenant_id := (reliably (pg_list_memberships tenant_id) t).1;
  remove_membership t tenant_id pubkey := reliably (pg_remove_membership tenant_id pubkey) t;
  insert_invite t r := reliably (pg_insert_invite r) t;
  invite_by_code t tenant_id invite_code := (reliably (pg_invite_by_code tenant_id invite_code) t).1;
  delete_invite t tenant_id invite_code := reliably (pg_delete_invite tenant_id invite_code) t
|}.

(** What the reads depend on. *)
Lemma pg_membership_read t tenant pubkey :
  membership_by_pubkey t tenant pubkey =
  if storable tenant then Ok (t_memberships t !! (tenant, pubkey)) else Err (StDatabase "statement refused").
Proof. simpl. unfold reliably, pg_membership_by_pubkey, text_statement, try_statement. simpl. by destruct (storable tenant). Qed.

Lemma pg_invite_read t tenant code :
  invite_by_code t tenant code =
  if storable tenant && storable code
  then Ok (r ← t_invites t !! code; if iv_tenant_id r == tenant then Some r else None)
  else Err (StDatabase "statement refused").
Proof.
  simpl. unfold reliably, pg_invite_by_code, text_statement, try_statement. simpl.
  by destruct (storable tenant), (storable code).
Qed.

#[export] Instance MembershipTables_laws : RelayMembershipLaws MembershipTables.
Proof.
  constructor; intros *; cbn [upsert_membership delete_invite insert_invite MembershipTables_repository];
    unfold pg_upsert_membership, pg_delete_invite, pg_insert_invite;
    rewrite reliably_text; intros [Hs Hf]; rewrite ?pg_membership_read, ?pg_invite_read;
    cbn [forallb] in Hs; repeat match type of Hs with _ && _ = true => apply andb_true_iff in Hs as [?Hs Hs] end.
  - injection Hf as <-. simpl. case_bool_decide as Hk.
    + destruct Hk as [-> ->]. rewrite lookup_insert_eq, Hs0. naive_solver.
    + rewrite lookup_insert_ne; [done|]. naive_solver.
  - by injection Hf as <-.
  - injection Hf as <-. rewrite Hs0, Hs1. simpl. f_equal.
    destruct (t_invites m !! c) as [r|] eqn:E; [|by rewrite E].
    destruct (iv_tenant_id r == t) eqn:Et; simpl; [by rewrite lookup_delete_eq|].
    rewrite E. simpl. by rewrite Et.
  - injection Hf as <-. by repeat case_match.
  - destruct (is_some _); [done|]. injection Hf as <-. rewrite Hs0, Hs1. simpl.
    rewrite lookup_insert_eq. simpl. by rewrite String.eqb_refl.
  - destruct (is_some _); [done|]. by injection Hf as <-.
Qed.

(** An invitation whose code another invitation has, of whatever tenant, is refused. *)
Lemma duplicate_invite_refused t r r' :
  t_invites t !! iv_invite_code r = Some r' →
  insert_invite t r = (Err (StDatabase "statement refused"), t).
Proof.
  intros Hr. simpl. unfold reliably, pg_insert_invite, text_statement, try_statement. simpl.
  rewrite Hr. simpl. by destruct (_ && _).
Qed.
End MembershipsInDatabase.

(** ** Witnesses *)

Module PgSample.
#[local] Existing Instance hex_model.
#[local] Existing Instance hex_model_laws.
#[local] Existing Instance sample_hash_order.
#[local] Instance rows : RowOrder := {| row_iter A l := l; row_iter_perm A l := reflexivity l |}.

(** A kind that is negative as an [i32]. *)
Definition note : EventRecord :=
  mkEventRecord "t" "A" "P" 7 4294967295 "hi" "S" [mkTagRecord "e" "x"; mkTagRecord "p" "y"].
Definition older : EventRecord := mkEventRecord "t" "B" "P" 5 1 "ho" "S" [mkTagRecord "e" "x"].

Definition by_tag : EventQuery :=
  mkEventQuery (Some "t") [] [hex_encode "P"] [] None None [mkTagRecord "e" "z"; mkTagRecord "e" "x"] (Some 1%Z).

Definition ops : list EventOp :=
  [OpInsert older; OpInsert note; OpInsert note; OpGet "t" "A"; OpGet "u" "A"; OpQuery by_tag;
   OpDelete "t" "A"; OpQuery by_tag].

Definition no_tables : EventTables := mkEventTables ∅ [].

Lemma no_tables_rep : events_rep no_tables ∅.
Proof.
  split_and!; simpl.
  - intros id. by rewrite !lookup_empty.
  - intros id row. by rewrite lookup_empty.
  - intros tag Hin. by apply not_elem_of_nil in Hin.
Qed.

Lemma no_memory : memory_represents (mkMemoryEvents ∅) ∅.
Proof. split; intros; simpl in *; [by rewrite !lookup_empty|]. by rewrite lookup_empty in H. Qed.

(** The commit of the second insertion takes effect and is not acknowledged:
    [BEGIN], the event, its tag and [COMMIT] of the first, then [BEGIN], the
    event and its two tags. *)
Example unacknowledged :
  (run_ops pg_run [OpInsert older; OpInsert note; OpGet "t" "A"]
     (mkDatabase no_tables (replicate 8 Executed ++ [Failed "connection reset" true]))).1 =
  [Ok AnsInserted; Err (StDatabase "connection reset"); Ok (AnsEvent (Some note))].
Proof. vm_compute. reflexivity. Qed.

(** A failure inside the transaction rolls the event back. *)
Example rolled_back :
  (run_ops pg_run [OpInsert older; OpInsert note; OpGet "t" "A"]
     (mkDatabase no_tables (replicate 7 Executed ++ [Failed "connection reset" true]))).1 =
  [Ok AnsInserted; Err (StDatabase "connection reset"); Ok (AnsEvent None)].
Proof. vm_compute. reflexivity. Qed.

Lemma postgres_events_refine_witness :
  (run_ops memory_run ops (mkMemoryEvents ∅)).1 =
  [Ok AnsInserted; Ok AnsInserted; Ok AnsInserted; Ok (AnsEvent (Some note)); Ok (AnsEvent None);
   Ok (AnsEvents [note]); Ok (AnsDeleted true); Ok (AnsEvents [older])] ∧
  ∃ tbl', table_trace ∅ (zip ops (run_ops pg_run ops (mkDatabase no_tables [])).1) tbl'.
Proof.
  destruct (postgres_events_refine ops no_tables [] ∅ (mkMemoryEvents ∅)
    (run_ops pg_run ops (mkDatabase no_tables [])).1 (run_ops pg_run ops (mkDatabase no_tables [])).2)
    as [(tbl' & Ht & _) Hag].
  - repeat constructor; vm_compute; intros; discriminate.
  - apply no_tables_rep.
  - apply no_memory.
  - by destruct (run_ops pg_run ops (mkDatabase no_tables [])).
  - split; [|by exists tbl']. rewrite <-Hag; [vm_compute; reflexivity|done|].
    repeat constructor; vm_compute; try reflexivity; by eexists.
Defined.
End PgSample.
