(* ===== verification/RepositoryStore.v ===== *)
(** * [RepositoryStore]: the relay's store over an event repository

    Models [RepositoryStore] of [services/relay/src/store.rs]: the [EventStore]
    of one tenant on top of an [EventRepository].  Each [await] of a repository
    call is a step of a [stateful] computation on the repository; the theorems
    are about one store at a time and any repository that meets
    [EventRepositoryLaws]. *)

From S2P Require Import Prelude RustStr CoreTypes Externals HexModel Membership.
From S2P Require Import Nip34Repo RelayEvent RelayStore EventRepo.

Definition DEFAULT_TENANT_ID : string := "default".

Record RepositoryStore (R : Type) := mkRepositoryStore { rs_repo : R; rs_tenant_id : string }.
Arguments mkRepositoryStore {R} _ _.
Arguments rs_repo {R} _.
Arguments rs_tenant_id {R} _.

Definition RepositoryStore_new {R} (repo : R) : RepositoryStore R :=
  mkRepositoryStore repo DEFAULT_TENANT_ID.
Definition RepositoryStore_with_tenant {R} (repo : R) (tenant_id : string) : RepositoryStore R :=
  mkRepositoryStore repo tenant_id.

Definition map_repo_err (err : StorageError) : StoreError := Backend (StorageError_display err).

(** ** Records and events *)

Section Conversions.
Context `{HexLib}.

Definition decode_hex_id (value : string) : result StoreError bytes :=
  ok_or (Backend "invalid event id") (hex_decode value).
Definition decode_hex_pubkey (value : string) : result StoreError bytes :=
  ok_or (Backend "invalid pubkey") (hex_decode value).

Definition event_to_record (event : NostrEvent) (tenant_id : string) : result StoreError EventRecord :=
  map_err map_repo_err
    (EventRecord_new tenant_id (ev_id event) (ev_pubkey event) (ev_created_at event) (ev_kind event)
       (ev_content event) (ev_sig event) (ev_tags event)).

Definition group_tags (tags : list TagRecord) : tag_list :=
  (λ entry : string * list string, entry.1 :: entry.2) <$> btree_iter (group_by_name tags).

Definition record_to_event (record : EventRecord) : NostrEvent :=
  mkNostrEvent (hex_encode (er_id record)) (hex_encode (er_pubkey record)) (er_created_at record)
    (er_kind record) (group_tags (er_tags record)) (er_content record) (hex_encode (er_sig record)).

(** ** Query plans *)

Definition exact_hex_filters (values : list string) : list string * bool :=
  if is_nil values then ([], false)
  else if forallb (λ value, bool_decide (String.length value = HEX_32_LEN)
                            && is_some (hex_decode value)) values
  then (values, false) else ([], true).

Record QueryPlan := mkQueryPlan { qp_query : EventQuery; qp_needs_post_filter : bool }.

Definition build_query_plan (f : Filter) : QueryPlan :=
  let '(ids, ids_need_post) := exact_hex_filters (f_ids f) in
  let '(authors, authors_need_post) := exact_hex_filters (f_authors f) in
  let needs_post_filter := ids_need_post || authors_need_post in
  let tags := (btree_iter (f_tags f)) ≫= λ entry : string * list string,
                mkTagRecord entry.1 <$> entry.2 in
  mkQueryPlan
    (mkEventQuery None ids authors (f_kinds f) (f_since f) (f_until f) tags
       (if needs_post_filter then None else f_limit f))
    needs_post_filter.

(** [query.tenant_id = Some(self.tenant_id.clone())] *)
Definition set_tenant (t : string) (q : EventQuery) : EventQuery :=
  mkEventQuery (Some t) (eq_ids q) (eq_authors q) (eq_kinds q) (eq_since q) (eq_until q) (eq_tags q)
    (eq_limit q).

(** The records of a replaceable key or of an address. *)
Definition key_query (t : string) (key : ReplaceableKey) : EventQuery :=
  mkEventQuery (Some t) [] [rk_pubkey key] [rk_kind key] None None
    (match rk_identifier key with Some identifier => [mkTagRecord "d" identifier] | None => [] end)
    None.

(** The loop over the records of one filter. *)
Fixpoint scan_records (f : Filter) (post : bool) (records : list EventRecord) (remaining : Z)
    (q : query_state) : result StoreError query_state :=
  match records with
  | [] => Ok q
  | record :: records =>
      if bool_decide (remaining = 0%Z) then Ok q
      else
        let event := record_to_event record in
        if bool_decide (ev_id event ∈ q_seen q) then scan_records f post records remaining q
        else
          hit ← (if post then
                   tags ← map_err (λ err, Backend (TagError_display err))
                            (TagIndex_from_tags (ev_tags event));
                   Ok (matches f event tags)
                 else Ok true);
          if hit : bool then
            scan_records f post records (Z.max 0 (remaining - 1))
              (mkQueryState ({[ ev_id event ]} ∪ q_seen q) (q_results q ++ [event]))
          else scan_records f post records remaining q
  end.
End Conversions.

(** ** The operations *)

Section Operations.
Context {R : Type} `{EventRepository R} `{HexLib}.

Definition repo_op {A} (op : R → result StorageError A * R) : stateful R StoreError A :=
  λ repo, let '(res, repo) := op repo in (map_err map_repo_err res, repo).
Definition repo_read {A} (op : R → result StorageError A) : stateful R StoreError A :=
  λ repo, (map_err map_repo_err (op repo), repo).
Definition repo_delete (t : string) (record : EventRecord) : stateful R StoreError unit :=
  _ ← repo_op (λ repo, delete_event repo t (er_id record)); mret tt.

Definition delete_repo_target (t : string) (event : NostrEvent) (author : bytes) (target : string)
    : stateful R StoreError unit :=
  match hex_decode target with
  | None => mret tt
  | Some bytes =>
      record ← repo_read (λ repo, get_event repo t bytes);
      match record with
      | None => mret tt
      | Some record =>
          if (er_pubkey record == author)
             && bool_decide (er_created_at record ≤ ev_created_at event)%Z
          then repo_delete t record else mret tt
      end
  end.

Definition delete_repo_address (t : string) (event : NostrEvent) (address : string)
    : stateful R StoreError unit :=
  match parse_address address with
  | None => mret tt
  | Some key =>
      if negb (rk_pubkey key == ev_pubkey event) then mret tt
      else
        records ← repo_read (λ repo, query_events repo (key_query t key));
        for_each (λ record,
          if bool_decide (er_created_at record ≤ ev_created_at event)%Z
          then repo_delete t record else mret tt) records
  end.

Definition apply_delete_repo (t : string) (event : NostrEvent) : stateful R StoreError unit :=
  author ← lift (decode_hex_pubkey (ev_pubkey event));
  _ ← for_each (delete_repo_target t event author) (collect_tag_values (ev_tags event) "e");
  for_each (delete_repo_address t event) (collect_tag_values (ev_tags event) "a").

(** [true] when a stored event is as new. *)
Definition apply_replaceable_repo (t : string) (event : NostrEvent) (key : ReplaceableKey)
    : stateful R StoreError bool :=
  records ← repo_read (λ repo, query_events repo (key_query t key));
  if existsb (λ record, bool_decide (ev_created_at event ≤ er_created_at record)%Z) records
  then mret true
  else _ ← for_each (repo_delete t) records; mret false.

(** [insert], once the record of the event is built. *)
Definition insert_record (t : string) (event : NostrEvent) (record : EventRecord)
    : stateful R StoreError StoreOutcome :=
  stored ← repo_read (λ repo, get_event repo t (er_id record));
  if is_some stored then mret Duplicate
  else
    _ ← (if bool_decide (ev_kind event = KIND_DELETE) then apply_delete_repo t event else mret tt);
    kept ← match replaceable_key event with
           | Some key => apply_replaceable_repo t event key
           | None => mret false
           end;
    if kept : bool then mret Duplicate
    else _ ← repo_op (λ repo, insert_event repo record); mret Inserted.

Definition insert_repo (t : string) (event : NostrEvent) : stateful R StoreError StoreOutcome :=
  record ← lift (event_to_record event t); insert_record t event record.

Definition repository_insert (s : RepositoryStore R) (event : NostrEvent)
    : result StoreError StoreOutcome * RepositoryStore R :=
  let '(res, repo) := insert_repo (rs_tenant_id s) event (rs_repo s) in
  (res, mkRepositoryStore repo (rs_tenant_id s)).

Definition repository_get (s : RepositoryStore R) (id : string)
    : result StoreError (option NostrEvent) :=
  bytes ← decode_hex_id id;
  record ← map_err map_repo_err (get_event (rs_repo s) (rs_tenant_id s) bytes);
  Ok (option_map record_to_event record).

Definition repository_delete (s : RepositoryStore R) (id : string)
    : result StoreError bool * RepositoryStore R :=
  match decode_hex_id id with
  | Err err => (Err err, s)
  | Ok bytes =>
      let '(res, repo) := delete_event (rs_repo s) (rs_tenant_id s) bytes in
      (map_err map_repo_err res, mkRepositoryStore repo (rs_tenant_id s))
  end.

Definition query_one (s : RepositoryStore R) (q : query_state) (f : Filter)
    : result StoreError query_state :=
  let plan := build_query_plan f in
  records ← map_err map_repo_err
    (query_events (rs_repo s) (set_tenant (rs_tenant_id s) (qp_query plan)));
  scan_records f (qp_needs_post_filter plan) records (default u64_max (f_limit f)) q.

Definition repository_query (s : RepositoryStore R) (filters : list Filter)
    : result StoreError (list NostrEvent) :=
  match filters with
  | [] => Ok []
  | _ => q ← try_fold (query_one s) (mkQueryState ∅ []) filters; Ok (sort_events (q_results q))
  end.
End Operations.

#[export] Instance RepositoryStore_EventStore {R} `{EventRepository R} `{HexLib}
    : EventStore (RepositoryStore R) := {|
  store_insert := repository_insert;
  store_get := repository_get;
  store_delete := repository_delete;
  store_query := repository_query
|}.

(** ** Reasoning about computations on a repository

    [goes I J c P]: from a table that meets [I], whatever [c] returns, it leaves
    one that meets [J], and a value it returns meets [P]. *)

Abbreviation table := (gmap bytes EventRecord).

Section Logic.
Context {R : Type} `{EventRepositoryLaws R}.
Implicit Types (tbl : table) (t : string).

Definition goes {A} (I J : table → Prop) (c : stateful R StoreError A) (P : A → Prop) : Prop :=
  ∀ repo tbl res repo', represents repo tbl → I tbl → c repo = (res, repo') →
  ∃ tbl', represents repo' tbl' ∧ J tbl' ∧ ∀ a, res = Ok a → P a.

Lemma goes_lift {A} (I J : table → Prop) (r : result StoreError A) (P : A → Prop) :
  (∀ tbl, I tbl → J tbl) → (∀ a, r = Ok a → P a) → goes I J (lift r) P.
Proof. intros HIJ HP repo tbl res repo' Hr HI [= <- <-]. eauto. Qed.

Lemma goes_ret {A} (I J : table → Prop) (a : A) (P : A → Prop) :
  (∀ tbl, I tbl → J tbl) → P a → goes I J (mret a) P.
Proof. intros HIJ HP. apply (goes_lift I J (Ok a)); [done|]. by intros ? [= <-]. Qed.

Lemma goes_read {A} (I : table → Prop) (op : R → result StorageError A) (P : A → Prop) :
  (∀ repo tbl a, represents repo tbl → I tbl → op repo = Ok a → P a) → goes I I (repo_read op) P.
Proof.
  intros HP repo tbl res repo' Hr HI [= <- <-]. exists tbl. split_and!; [done..|].
  intros a Ha. destruct (op repo) eqn:E; simplify_eq/=. eauto.
Qed.

Lemma goes_bind {A B} (I J : table → Prop) (c : stateful R StoreError A)
    (k : A → stateful R StoreError B) (P : A → Prop) (Q : B → Prop) :
  (∀ tbl, I tbl → J tbl) → goes I I c P → (∀ a, P a → goes I J (k a) Q) → goes I J (c ≫= k) Q.
Proof.
  intros HIJ Hc Hk repo tbl res repo' Hr HI. unfold mbind, stateful_bind.
  destruct (c repo) as [[a|e] repo1] eqn:E; destruct (Hc _ _ _ _ Hr HI E) as (tbl1 & Hr1 & HI1 & Ha).
  - by apply (Hk a (Ha a eq_refl) _ _ _ _ Hr1).
  - intros [= <- <-]. exists tbl1. split_and!; [done|auto|done].
Qed.

Lemma goes_for_each {A} (I : table → Prop) (body : A → stateful R StoreError unit) l :
  (∀ x, x ∈ l → goes I I (body x) (λ _, True)) → goes I I (for_each body l) (λ _, True).
Proof.
  induction l as [|x l IH]; intros Hb; simpl; [by apply goes_ret|].
  apply (goes_bind I I _ _ (λ _, True)); [done|apply Hb; left|]. intros _ _. apply IH.
  intros y Hy. apply Hb. by right.
Qed.

Lemma table_delete_lookup t id tbl id' x :
  table_delete t id tbl !! id' = Some x ↔
  tbl !! id' = Some x ∧ ¬ (id' = id ∧ er_tenant_id x = t).
Proof.
  unfold table_delete, table_get. destruct (tbl !! id) as [r|] eqn:E; simpl.
  - destruct (String.eqb_spec (er_tenant_id r) t) as [Ht|Ht].
    + rewrite lookup_delete_Some. split; [intros [? ?]; split; [done|by intros [-> _]]|].
      intros [Hx Hn]. split; [|done]. intros <-. apply Hn. split; congruence.
    + split; [|by intros [? _]]. intros Hx. split; [done|]. intros [-> ?]. congruence.
  - split; [|by intros [? _]]. intros Hx. split; [done|]. intros [-> _]. congruence.
Qed.

Lemma goes_delete (I : table → Prop) t r :
  (∀ tbl, I tbl → I (table_delete t (er_id r) tbl)) → goes I I (repo_delete t r) (λ _, True).
Proof.
  intros HI repo tbl res repo' Hr HIt. unfold repo_delete, repo_op, mbind, stateful_bind.
  destruct (delete_event repo t (er_id r)) as [res' repo1] eqn:E.
  apply (delete_event_table _ _ _ _ _ _ Hr) in E as [(tbl' & Hr1 & Hw) _].
  intros Hres. assert (repo' = repo1) as -> by (destruct res'; by injection Hres).
  eexists. split; [exact Hr1|]. split; [destruct Hw as [->|[_ ->]]; auto|done].
Qed.

Lemma repo_read_Ok {A} (op : R → result StorageError A) repo a repo' :
  repo_read op repo = (Ok a, repo') ↔ op repo = Ok a ∧ repo' = repo.
Proof. unfold repo_read. destruct (op repo); simpl; naive_solver. Qed.

Lemma repo_op_Ok {A} (op : R → result StorageError A * R) repo a repo' :
  repo_op op repo = (Ok a, repo') ↔ op repo = (Ok a, repo').
Proof. unfold repo_op. destruct (op repo) as [[x|e] repo1]; simpl; naive_solver. Qed.

Lemma repo_delete_Ok t r repo repo' :
  repo_delete t r repo = (Ok tt, repo') ↔ ∃ b, delete_event repo t (er_id r) = (Ok b, repo').
Proof.
  unfold repo_delete. rewrite stateful_bind_Ok. setoid_rewrite repo_op_Ok. split.
  - intros (b & repo1 & Hd & [= <-]). eauto.
  - intros [b Hd]. eauto.
Qed.

Lemma for_each_delete_table t l : ∀ repo tbl repo',
  represents repo tbl → for_each (repo_delete t) l repo = (Ok tt, repo') →
  ∃ tbl', represents repo' tbl' ∧
    ∀ id x, tbl' !! id = Some x ↔
      tbl !! id = Some x ∧ ¬ (er_tenant_id x = t ∧ id ∈ er_id <$> l).
Proof.
  induction l as [|r l IH]; intros repo tbl repo' Hr; cbn [for_each].
  { intros [= <-]. exists tbl. split; [done|]. intros id x. rewrite elem_of_nil. tauto. }
  intros ([] & repo1 & (b & E)%repo_delete_Ok & Hf)%stateful_bind_Ok.
  apply (delete_event_table _ _ _ _ _ _ Hr) in E as [(tbl1 & Hr1 & [->|[? _]]) _]; [|done].
  destruct (IH _ _ _ Hr1 Hf) as (tbl' & Hr' & Hl). exists tbl'. split; [done|].
  intros id x. rewrite Hl, table_delete_lookup, fmap_cons, elem_of_cons. tauto.
Qed.

Lemma event_to_record_Ok e t r :
  event_to_record e t = Ok r →
  er_tenant_id r = t ∧ hex_decode (ev_id e) = Some (er_id r) ∧ String.length (ev_id e) = 64 ∧
  hex_decode (ev_pubkey e) = Some (er_pubkey r) ∧ String.length (ev_pubkey e) = 64 ∧
  hex_decode (ev_sig e) = Some (er_sig r) ∧ flatten_tags (ev_tags e) = Ok (er_tags r) ∧
  er_created_at r = ev_created_at e ∧ er_kind r = ev_kind e ∧ er_content r = ev_content e.
Proof.
  unfold event_to_record, EventRecord_new. intros Hr.
  destruct (flatten_tags (ev_tags e)) as [tags|]; [|done]. cbn [mbind result_bind map_err] in Hr.
  destruct (is_blank t); [done|]. cbn [fail_if mbind result_bind] in Hr.
  assert (∀ field v n b, decode_hex field v n = Ok b → hex_decode v = Some b ∧ String.length v = n) as Hd.
  { intros field v n b. unfold decode_hex. case_bool_decide; [|done]. simpl.
    by intros ?%ok_or_Ok. }
  destruct (decode_hex "id" _ _) as [id|] eqn:E1; [|done].
  destruct (decode_hex "pubkey" _ _) as [pk|] eqn:E2; [|done].
  destruct (decode_hex "sig" _ _) as [sig|] eqn:E3; [|done].
  apply Hd in E1 as [-> ->], E2 as [-> ->], E3 as [-> _]. injection Hr as <-. done.
Qed.

(** *** What an insertion may remove

    Records of the tenant by the author of the event that are not newer. *)

Definition own t (e : NostrEvent) (r : EventRecord) : Prop :=
  er_tenant_id r = t ∧ hex_decode (ev_pubkey e) = Some (er_pubkey r) ∧
  (er_created_at r ≤ ev_created_at e)%Z.

(** From [tbl0] to [tbl] only own records were removed. *)
Definition removed_own t e tbl0 tbl : Prop :=
  ∀ id r, (tbl !! id = Some r → tbl0 !! id = Some r) ∧
          (tbl0 !! id = Some r → tbl !! id = Some r ∨ own t e r).

(** ... and only the record of the event was added. *)
Definition insert_effect t e tbl0 tbl : Prop :=
  ∀ id r, (tbl !! id = Some r → tbl0 !! id = Some r ∨ event_to_record e t = Ok r ∧ id = er_id r) ∧
          (tbl0 !! id = Some r → tbl !! id = Some r ∨ own t e r).

Lemma removed_own_refl t e tbl : removed_own t e tbl tbl.
Proof. intros id r. tauto. Qed.

Lemma removed_own_effect t e tbl0 tbl : removed_own t e tbl0 tbl → insert_effect t e tbl0 tbl.
Proof. intros Hr id r. specialize (Hr id r). tauto. Qed.

(** Removing an own record that was there at the start. *)
Lemma removed_own_delete t e tbl0 tbl r :
  tbl0 !! er_id r = Some r → own t e r → removed_own t e tbl0 tbl →
  removed_own t e tbl0 (table_delete t (er_id r) tbl).
Proof.
  intros H0r Hown Hrm id x. rewrite table_delete_lookup. specialize (Hrm id x) as [Hrm1 Hrm2].
  split; [tauto|]. intros Hx. destruct (Hrm2 Hx) as [?|?]; [|by right].
  destruct (decide (id = er_id r)) as [->|]; [|left; tauto].
  right. by assert (x = r) as -> by congruence.
Qed.

Lemma goes_delete_own t e tbl0 r :
  tbl0 !! er_id r = Some r → own t e r →
  goes (removed_own t e tbl0) (removed_own t e tbl0) (repo_delete t r) (λ _, True).
Proof. intros. apply goes_delete. intros tbl. by apply removed_own_delete. Qed.

(** *** What queries return *)

Lemma elem_of_truncate limit (l : list EventRecord) r : r ∈ truncate_to limit l → r ∈ l.
Proof.
  destruct limit as [n|]; [|done]. simpl. intros (i & Hi & _)%elem_of_take.
  by eapply list_elem_of_lookup_2.
Qed.

Lemma elem_of_sorted_matching q tbl r :
  r ∈ merge_sort record_before (List.filter (record_matches q) (map_to_list tbl).*2) ↔
  (∃ id, tbl !! id = Some r) ∧ record_selected q r.
Proof.
  rewrite merge_sort_Permutation, list_elem_of_In, filter_In, <-list_elem_of_In, elem_of_values.
  by rewrite record_matches_true.
Qed.

Lemma table_query_sound q tbl r :
  r ∈ table_query q tbl → (∃ id, tbl !! id = Some r) ∧ record_selected q r.
Proof. by intros ?%elem_of_truncate%elem_of_sorted_matching. Qed.

Lemma table_query_all q tbl r :
  eq_limit q = None → r ∈ table_query q tbl ↔ (∃ id, tbl !! id = Some r) ∧ record_selected q r.
Proof. intros Hl. unfold table_query. rewrite Hl. simpl. apply elem_of_sorted_matching. Qed.

Lemma scan_records_sound f post records : ∀ rem q q',
  scan_records f post records rem q = Ok q' →
  ∀ e, e ∈ q_results q' → e ∈ q_results q ∨ ∃ r, r ∈ records ∧ e = record_to_event r.
Proof.
  induction records as [|r records IH]; intros rem q q'; cbn [scan_records].
  { intros [= <-]. by left. }
  case_bool_decide; [intros [= <-]; by left|].
  case_bool_decide; [intros Hs e He; destruct (IH _ _ _ Hs e He) as [?|(x & ? & ?)]; eauto using list_elem_of_further|].
  intros (hit & _ & Hs)%bind_Ok e He. destruct hit.
  - destruct (IH _ _ _ Hs e He) as [Hin|(x & ? & ?)]; simpl in *.
    + apply elem_of_app in Hin as [?| ->%list_elem_of_singleton]; [by left|].
      right. exists r. split; [left|done].
    + right. exists x. split; [by right|done].
  - destruct (IH _ _ _ Hs e He) as [?|(x & ? & ?)]; [by left|].
    right. exists x. split; [by right|done].
Qed.

(** An event of a tenant's records. *)
Definition owned t tbl (e : NostrEvent) : Prop :=
  ∃ id r, tbl !! id = Some r ∧ er_tenant_id r = t ∧ e = record_to_event r.

Lemma query_one_owned s tbl f q q' :
  represents (rs_repo s) tbl → query_one s q f = Ok q' →
  (∀ e, e ∈ q_results q → owned (rs_tenant_id s) tbl e) →
  ∀ e, e ∈ q_results q' → owned (rs_tenant_id s) tbl e.
Proof.
  intros Hr. unfold query_one. intros (records & Hq & Hs)%bind_Ok Hold e He.
  destruct (query_events _ _) as [l|] eqn:E; [|done]. injection Hq as <-.
  apply (query_events_table _ _ _ _ Hr) in E as ->.
  destruct (scan_records_sound _ _ _ _ _ _ Hs e He) as [?|(r & Hin & ->)]; [auto|].
  apply table_query_sound in Hin as [[id Hid] (Ht & _)]. exists id, r. eauto.
Qed.

(** *** What an insertion leaves *)

(** The records a replaceable key or an address stands for. *)
Definition under_key t (author : bytes) (k : ReplaceableKey) (x : EventRecord) : Prop :=
  er_tenant_id x = t ∧ er_kind x = rk_kind k ∧ er_pubkey x = author ∧
  ∀ i, rk_identifier k = Some i → mkTagRecord "d" i ∈ er_tags x.

Lemma key_query_selected t author k x :
  hex_decode (rk_pubkey k) = Some author → record_selected (key_query t k) x ↔ under_key t author k x.
Proof.
  intros Hpk. unfold record_selected, under_key. simpl. split.
  - intros (Ht & _ & [?|(n & ->%list_elem_of_singleton & Hn)] & [?|Hk%list_elem_of_singleton] & _ & _ & Hd);
      try done. split_and!; [by apply Ht|done|congruence|].
    intros i Hi. rewrite Hi in Hd. destruct (Hd "d" i) as (w & Hw & Hin); [left|].
    apply list_elem_of_singleton in Hw as [= ->]. done.
  - intros (Ht & Hk & Ha & Hd). split_and!; try done; [by intros ? [= <-]|by left|..].
    + right. exists (rk_pubkey k). split; [left|congruence].
    + right. rewrite Hk. left.
    + intros name v. destruct (rk_identifier k) as [i|]; [|by intros ?%not_elem_of_nil].
      intros [= -> ->]%list_elem_of_singleton. exists i. split; [left|auto].
Qed.

Lemma replaceable_key_pubkey e k : replaceable_key e = Some k → rk_pubkey k = ev_pubkey e.
Proof. unfold replaceable_key. intros Hk. repeat case_match; by simplify_eq/=. Qed.

Lemma read_record t e tbl0 id :
  goes (removed_own t e tbl0) (removed_own t e tbl0) (repo_read (λ repo, get_event repo t id))
    (λ o, ∀ r, o = Some r → tbl0 !! er_id r = Some r ∧ er_tenant_id r = t).
Proof.
  apply goes_read. intros repo tbl o Hr HI Hg r ->.
  apply (get_event_table _ _ _ _ _ Hr) in Hg. unfold table_get in Hg.
  destruct (tbl !! id) as [x|] eqn:E; simpl in Hg; [|done].
  destruct (String.eqb_spec (er_tenant_id x) t); [|done]. injection Hg as <-.
  rewrite (represents_wf _ _ Hr _ _ E). split; [by apply HI|done].
Qed.

Lemma read_key t e tbl0 key :
  rk_pubkey key = ev_pubkey e →
  goes (removed_own t e tbl0) (removed_own t e tbl0)
    (repo_read (λ repo, query_events repo (key_query t key)))
    (λ l, ∀ r, r ∈ l → tbl0 !! er_id r = Some r ∧ er_tenant_id r = t ∧
                       hex_decode (ev_pubkey e) = Some (er_pubkey r)).
Proof.
  intros Hpk. apply goes_read. intros repo tbl l Hr HI Hq r Hin.
  apply (query_events_table _ _ _ _ Hr) in Hq as ->.
  apply table_query_sound in Hin as [[id Hid] Hsel].
  rewrite (represents_wf _ _ Hr _ _ Hid). split; [by apply HI|].
  destruct Hsel as (Ht & _ & [?|(n & ->%list_elem_of_singleton & Hn)] & _); [done|].
  rewrite <-Hpk. auto.
Qed.

Lemma apply_delete_repo_goes t e tbl0 :
  goes (removed_own t e tbl0) (removed_own t e tbl0) (apply_delete_repo t e) (λ _, True).
Proof.
  unfold apply_delete_repo.
  apply (goes_bind _ _ _ _ (λ a, hex_decode (ev_pubkey e) = Some a)); [done| |].
  { apply goes_lift; [done|]. by intros a ?%ok_or_Ok. }
  intros author Ha. apply (goes_bind _ _ _ _ (λ _, True)); [done|..].
  - apply goes_for_each. intros target _. unfold delete_repo_target.
    destruct (hex_decode target) as [id|]; [|by apply goes_ret].
    eapply goes_bind; [done|apply read_record|]. intros [r|] Hr; [|by apply goes_ret].
    destruct (Hr r eq_refl) as [H0r Ht].
    destruct ((_ == _) && _) eqn:Eb; [|by apply goes_ret].
    apply andb_true_iff in Eb as [<-%String.eqb_eq Hle%bool_decide_eq_true].
    apply goes_delete_own; [done|]. split; [done|]. by split.
  - intros _ _. apply goes_for_each. intros address _. unfold delete_repo_address.
    destruct (parse_address address) as [key|]; [|by apply goes_ret].
    destruct (String.eqb_spec (rk_pubkey key) (ev_pubkey e)) as [Hk|]; [|by apply goes_ret].
    eapply goes_bind; [done|by apply read_key|]. intros records Hrec.
    apply goes_for_each. intros r (H0r & Ht & Hpk)%Hrec.
    case_bool_decide; [|by apply goes_ret]. apply goes_delete_own; [done|]. by split_and!.
Qed.

Lemma apply_replaceable_repo_goes t e key tbl0 :
  rk_pubkey key = ev_pubkey e →
  goes (removed_own t e tbl0) (removed_own t e tbl0) (apply_replaceable_repo t e key) (λ _, True).
Proof.
  intros Hk. unfold apply_replaceable_repo. eapply goes_bind; [done|by apply read_key|].
  intros records Hrec. destruct (existsb _ _) eqn:Ex; [by apply goes_ret|].
  apply (goes_bind _ _ _ _ (λ _, True)); [done| |intros _ _; by apply goes_ret].
  apply goes_for_each. intros r Hin. pose proof (Hrec r Hin) as (H0r & Ht & Hpk).
  apply (proj1 (existsb_false _ _) Ex) in Hin. apply bool_decide_eq_false in Hin.
  apply goes_delete_own; [done|]. split_and!; [done..|lia].
Qed.

Lemma insert_event_goes t e tbl0 r :
  event_to_record e t = Ok r →
  goes (removed_own t e tbl0) (insert_effect t e tbl0) (repo_op (λ repo, insert_event repo r))
    (λ _, True).
Proof.
  intros Er repo tbl res repo' Hr HI. unfold repo_op.
  destruct (insert_event repo r) as [res' repo1] eqn:E. intros [= _ <-].
  apply (insert_event_table _ _ _ _ _ Hr) in E as (tbl1 & E & Hw). eexists. split; [exact E|]. split; [|done].
  destruct Hw as [->|[_ ->]]; [|by apply removed_own_effect]. unfold table_insert.
  destruct (tbl !! er_id r) as [y|] eqn:Ey; [by apply removed_own_effect|]. intros id x.
  destruct (HI id x) as [HI1 HI2]. rewrite lookup_insert_Some. split.
  - intros [[<- <-]|[_ ?]]; [by right|left; auto].
  - intros Hx. destruct (HI2 Hx) as [Hx'|?]; [|by right]. left. right. split; [|done].
    intros <-. congruence.
Qed.

Lemma insert_repo_goes t e tbl0 :
  goes (removed_own t e tbl0) (insert_effect t e tbl0) (insert_repo t e) (λ _, True).
Proof.
  pose proof (removed_own_effect t e tbl0) as Hw.
  unfold insert_repo. apply (goes_bind _ _ _ _ (λ r, event_to_record e t = Ok r)); [done| |].
  { by apply goes_lift. }
  intros r Er. unfold insert_record. eapply goes_bind; [done|apply read_record|].
  intros stored _. destruct (is_some stored); [by apply goes_ret|].
  apply (goes_bind _ _ _ _ (λ _, True)); [done| |intros _ _].
  { case_bool_decide; [apply apply_delete_repo_goes|by apply goes_ret]. }
  apply (goes_bind _ _ _ _ (λ _, True)); [done| |intros kept _].
  { destruct (replaceable_key e) as [key|] eqn:Ek; [|by apply goes_ret].
    by apply apply_replaceable_repo_goes, replaceable_key_pubkey. }
  destruct kept; [by apply goes_ret|].
  intros repo tbl res repo' Hr HI. unfold mbind, stateful_bind.
  destruct (repo_op _ repo) as [res1 repo1] eqn:E.
  destruct (insert_event_goes t e tbl0 r Er _ _ _ _ Hr HI E) as (tbl' & Hr' & He & _).
  destruct res1; intros [= _ <-]; eauto.
Qed.

Lemma apply_replaceable_clears t e k author repo tbl repo' :
  represents repo tbl → rk_pubkey k = ev_pubkey e → hex_decode (ev_pubkey e) = Some author →
  apply_replaceable_repo t e k repo = (Ok false, repo') →
  ∃ tbl', represents repo' tbl' ∧ removed_own t e tbl tbl' ∧
    (∀ id x, tbl !! id = Some x → under_key t author k x → (er_created_at x < ev_created_at e)%Z) ∧
    ∀ id x, tbl' !! id = Some x → ¬ under_key t author k x.
Proof.
  intros Hr Hk Hpk. unfold apply_replaceable_repo.
  intros (records & repo1 & [E ->]%repo_read_Ok & Hrest)%stateful_bind_Ok.
  apply (query_events_table _ _ _ _ Hr) in E as ->.
  destruct (existsb _ _) eqn:Ex; [done|].
  apply stateful_bind_Ok in Hrest as ([] & repo2 & Hf & [= ->]).
  destruct (for_each_delete_table t _ _ _ _ Hr Hf) as (tbl' & Hr' & Hl). exists tbl'.
  assert (∀ x, x ∈ table_query (key_query t k) tbl ↔
    tbl !! er_id x = Some x ∧ under_key t author k x) as Hall.
  { intros x. rewrite table_query_all, (key_query_selected t author) by (done || congruence).
    split; [|naive_solver]. intros [[id Hid] ?]. by rewrite (represents_wf _ _ Hr _ _ Hid). }
  assert (∀ x, x ∈ table_query (key_query t k) tbl → (er_created_at x < ev_created_at e)%Z) as Hold.
  { intros x Hx%(proj1 (existsb_false _ _) Ex). apply bool_decide_eq_false in Hx. lia. }
  split; [done|]. split; [|split].
  - intros id x. rewrite Hl. split; [tauto|]. intros Hx.
    destruct (decide (er_tenant_id x = t ∧ id ∈ er_id <$> table_query (key_query t k) tbl))
      as [[Ht (y & -> & Hy)%list_elem_of_fmap]|]; [right|by left].
    pose proof (proj1 (Hall y) Hy) as [Hy0 (_ & _ & Ha & _)]. assert (x = y) as -> by congruence.
    apply Hold in Hy. split_and!; [done|congruence|lia].
  - intros id x Hx Hu. apply Hold, Hall. by rewrite (represents_wf _ _ Hr _ _ Hx).
  - intros id x [Hx Hn]%Hl Hu. apply Hn. split; [apply Hu|].
    pose proof (represents_wf _ _ Hr _ _ Hx) as <-. apply list_elem_of_fmap_2. by apply Hall.
Qed.

(** The two steps before the record is written. *)
Lemma insert_prepare t e k author repo tbl repo' :
  represents repo tbl → replaceable_key e = k → hex_decode (ev_pubkey e) = Some author →
  (_ ← (if bool_decide (ev_kind e = KIND_DELETE) then apply_delete_repo t e else mret tt);
   match k with Some key => apply_replaceable_repo t e key | None => mret false end) repo
  = (Ok false, repo') →
  ∃ tbl', represents repo' tbl' ∧ removed_own t e tbl tbl' ∧
    ∀ key, k = Some key →
      (∀ id x, tbl !! id = Some x → under_key t author key x → (er_created_at x < ev_created_at e)%Z) ∧
      ∀ id x, tbl' !! id = Some x → ¬ under_key t author key x.
Proof.
  intros Hr Hk Hpk ([] & repo1 & Hd & Hkept)%stateful_bind_Ok. destruct k as [key|].
  - rewrite bool_decide_eq_false_2 in Hd.
    2:{ intros Hdel%delete_kind_not_replaceable. congruence. }
    injection Hd as <-.
    destruct (apply_replaceable_clears t e key author repo tbl repo' Hr
      (replaceable_key_pubkey _ _ Hk) Hpk Hkept)
      as (tbl' & Hr' & Hs & Hold & Hnew).
    exists tbl'. split; [done|]. split; [done|]. intros ? [= <-]. done.
  - injection Hkept as <-.
    case_bool_decide; [|injection Hd as <-; exists tbl; by split_and!; [|apply removed_own_refl|]].
    destruct (apply_delete_repo_goes t e tbl _ _ _ _ Hr (removed_own_refl t e tbl) Hd)
      as (tbl' & ? & ? & _). by exists tbl'.
Qed.

Lemma insert_repo_Inserted t e repo tbl repo' :
  represents repo tbl → insert_repo t e repo = (Ok Inserted, repo') →
  ∃ r tbl1, event_to_record e t = Ok r ∧ table_get t (er_id r) tbl = None ∧
    represents repo' (table_insert r tbl1) ∧ removed_own t e tbl tbl1 ∧
    ∀ k, replaceable_key e = Some k →
      (∀ id x, tbl !! id = Some x → under_key t (er_pubkey r) k x →
         (er_created_at x < ev_created_at e)%Z) ∧
      ∀ id x, tbl1 !! id = Some x → ¬ under_key t (er_pubkey r) k x.
Proof.
  intros Hr. unfold insert_repo, insert_record.
  intros (r & ? & [Er ->]%lift_Ok & (stored & ? & [Hg ->]%repo_read_Ok & Hrest)%stateful_bind_Ok)%stateful_bind_Ok.
  apply (get_event_table _ _ _ _ _ Hr) in Hg as ->.
  pose proof (event_to_record_Ok _ _ _ Er) as (_ & _ & _ & Hpk & _).
  destruct (table_get t (er_id r) tbl) eqn:Eg; simpl in Hrest; [done|].
  apply stateful_bind_Ok in Hrest as ([] & repo1 & Hd & (kept & repo2 & Hk & Hrest)%stateful_bind_Ok).
  destruct kept; [done|].
  destruct (insert_prepare t e _ _ repo tbl repo2 Hr eq_refl Hpk) as (tbl1 & Hr1 & Hs & Hkey).
  { apply stateful_bind_Ok. by exists tt, repo1. }
  apply stateful_bind_Ok in Hrest as ([] & repo3 & Hi%repo_op_Ok & [= ->]).
  apply (insert_event_table _ _ _ _ _ Hr1) in Hi as (tbl2 & Hi & [->|[? _]]); [|done]. by exists r, tbl1.
Qed.
End Logic.

(** ** Records and events: what survives *)

Definition tag_records (t : tag) : list TagRecord :=
  match t with [] => [] | name :: values => mkTagRecord name <$> values end.

Lemma flatten_values_Ok name values : ∀ recs recs',
  flatten_values name values recs = Ok recs' → recs' = recs ++ (mkTagRecord name <$> values).
Proof.
  induction values as [|v values IH]; intros recs recs'; simpl.
  { intros [= <-]. by rewrite app_nil_r. }
  destruct (is_empty v); [done|]. intros ->%IH. by rewrite <-app_assoc.
Qed.

Lemma flatten_tags_Ok tags recs : flatten_tags tags = Ok recs → recs = tags ≫= tag_records.
Proof.
  unfold flatten_tags. enough (∀ acc, try_fold flatten_tag acc tags = Ok recs →
    recs = acc ++ (tags ≫= tag_records)) as Hx by apply Hx.
  induction tags as [|t tags IH]; intros acc; simpl.
  { intros [= <-]. by rewrite app_nil_r. }
  destruct (flatten_tag acc t) as [acc'|] eqn:E; [|done]. intros ->%IH. rewrite app_assoc. f_equal.
  destruct t as [|name values]; [done|]. simpl in E. destruct (is_empty name); [done|].
  by apply flatten_values_Ok in E as ->.
Qed.

(** Tags a record keeps: each has a value, and the names increase strictly. *)
Definition tags_normal (tags : tag_list) : Prop :=
  ∃ entries : list (string * list string),
    tags = (λ e, e.1 :: e.2) <$> entries ∧ Forall (λ e, e.2 ≠ []) entries ∧
    NoDup entries.*1 ∧ StronglySorted key_le entries.

Lemma values_of_app name l k : values_of name (l ++ k) = values_of name l ++ values_of name k.
Proof. unfold values_of. by rewrite List.filter_app, fmap_app. Qed.

Lemma values_of_tag name n vs : values_of name (mkTagRecord n <$> vs) = if n == name then vs else [].
Proof.
  unfold values_of. destruct (n == name) eqn:E; induction vs as [|v vs IH]; simpl; [done| |done|];
    rewrite E; simpl; [by f_equal|done].
Qed.

Abbreviation entry_records entries := (((λ e, e.1 :: e.2) <$> entries) ≫= tag_records).

Lemma values_of_entries (entries : list (string * list string)) name :
  (name ∉ entries.*1 → values_of name (entry_records entries) = []) ∧
  ∀ vs, NoDup entries.*1 → (name, vs) ∈ entries → values_of name (entry_records entries) = vs.
Proof.
  induction entries as [|[n us] entries [IHn IH]]; csimpl.
  { split; [done|]. by intros vs _ ?%not_elem_of_nil. }
  setoid_rewrite values_of_app. setoid_rewrite values_of_tag. split.
  - intros [Hn Hnot]%not_elem_of_cons. rewrite IHn by done.
    by destruct (String.eqb_spec n name).
  - intros vs [Hn Hnd]%NoDup_cons [[= <- <-]|Hin]%elem_of_cons.
    + rewrite String.eqb_refl, IHn by done. by rewrite app_nil_r.
    + rewrite (IH vs) by done. destruct (String.eqb_spec n name) as [<-|]; [|done].
      destruct Hn. by apply (list_elem_of_fmap_2 fst) in Hin.
Qed.

(** Grouping the records of normal tags gives the tags back. *)
Lemma group_tags_id tags : tags_normal tags → group_tags (tags ≫= tag_records) = tags.
Proof.
  intros (entries & -> & Hne & Hnd & Hs). unfold group_tags. f_equal.
  apply (StronglySorted_unique_strong key_le); [|apply btree_iter_sorted|done|].
  - intros [n1 v1] [n2 v2] Hin1 Hin2 Hle1 Hle2.
    assert (n1 = n2) as -> by by apply (anti_symm String.le).
    apply elem_of_btree_iter, group_by_name_Some in Hin1 as [-> _].
    by rewrite (proj2 (values_of_entries entries n2) v2).
  - apply NoDup_Permutation.
    + rewrite btree_iter_perm. apply NoDup_map_to_list.
    + by eapply NoDup_fmap_1.
    + intros [n vs]. rewrite elem_of_btree_iter, group_by_name_Some. split.
      * intros [Hvs Hnn]. destruct (decide (n ∈ entries.*1)) as [Hin|Hout].
        -- apply list_elem_of_fmap in Hin as ([n' us] & -> & Hin). simpl in *.
           by rewrite (proj2 (values_of_entries entries n') us) in Hvs; subst.
        -- by rewrite (proj1 (values_of_entries entries n)) in Hvs.
      * intros Hin. rewrite (proj2 (values_of_entries entries n) vs) by done. split; [done|].
        by apply (proj1 (Forall_forall _ _) Hne) in Hin.
Qed.

Lemma group_tags_normal recs : tags_normal (group_tags recs).
Proof.
  exists (btree_iter (group_by_name recs)). split; [done|]. split_and!.
  - apply Forall_forall. intros [n vs] Hin%elem_of_btree_iter. by eapply group_by_name_nonempty.
  - rewrite btree_iter_perm. apply NoDup_fst_map_to_list.
  - apply btree_iter_sorted.
Qed.

(** ** Queries with one filter *)

Section Query.
Context {R : Type} `{EventRepositoryLaws R} `{!HexLaws}.
Implicit Types (tbl : table) (t : string).

(** A record a relay writes: 32-byte ids, tag names without surrounding space, no blank value. *)
Definition record_clean (r : EventRecord) : Prop :=
  String.length (er_id r) = 32 ∧ String.length (er_pubkey r) = 32 ∧
  Forall (λ g, trim (tr_name g) = tr_name g ∧ is_blank (tr_name g) = false ∧
               is_blank (tr_value g) = false) (er_tags r).

(** A filter whose full-length ids and authors are in lower case and whose tag
    conditions have values. *)
Definition filter_plain (f : Filter) : Prop :=
  (∀ p b, p ∈ f_ids f ∨ p ∈ f_authors f → String.length p = HEX_32_LEN →
     hex_decode p = Some b → p = hex_encode b) ∧
  (∀ name vs, f_tags f !! name = Some vs → vs ≠ []).

Lemma exact_hex_filters_cases vs :
  (exact_hex_filters vs = (vs, false) ∧
   Forall (λ v, String.length v = HEX_32_LEN ∧ is_Some (hex_decode v)) vs) ∨
  exact_hex_filters vs = ([], true).
Proof.
  unfold exact_hex_filters. destruct vs as [|v vs]; [by left|]. simpl is_nil.
  destruct (forallb _ (v :: vs)) eqn:E; [left|by right]. split; [done|].
  rewrite forallb_true in E. apply Forall_forall. intros x Hx%E.
  apply andb_true_iff in Hx as [Hl%bool_decide_eq_true Hd%is_some_true]. done.
Qed.

(** Pushing the names down to the repository selects the same records. *)
Lemma exact_names vs b l post :
  exact_hex_filters vs = (l, post) → String.length b = 32 →
  (∀ p c, p ∈ vs → String.length p = HEX_32_LEN → hex_decode p = Some c → p = hex_encode c) →
  ((vs = [] ∨ ∃ p, p ∈ vs ∧ starts_with p (hex_encode b) = true) →
   l = [] ∨ ∃ n, n ∈ l ∧ hex_decode n = Some b) ∧
  (post = false → (l = [] ∨ ∃ n, n ∈ l ∧ hex_decode n = Some b) →
   vs = [] ∨ ∃ p, p ∈ vs ∧ starts_with p (hex_encode b) = true).
Proof.
  intros He Hb Hlow.
  destruct (exact_hex_filters_cases vs) as [[E Hall]|E]; rewrite E in He; injection He as <- <-;
    [|split; [by left|done]].
  split; [|intros _]; (intros [?|(n & Hn & Hx)]; [by left|right; exists n; split; [done|]]).
  - apply starts_with_true in Hx as [rest Hx].
    apply (proj1 (Forall_forall _ _) Hall) in Hn as [Hl _].
    pose proof (hex_encode_length b) as Hlen. rewrite Hx, str_length_app, Hl, Hb in Hlen.
    destruct rest; [|simpl in Hlen; unfold HEX_32_LEN in Hlen; lia].
    rewrite str_app_nil_r in Hx. by rewrite <-Hx, hex_decode_encode.
  - pose proof (proj1 (Forall_forall _ _) Hall _ Hn) as [Hl _].
    rewrite (Hlow n b Hn Hl Hx). apply starts_with_true. exists "". by rewrite str_app_nil_r.
Qed.

Lemma indexed_group_tags recs name v :
  Forall (λ g, trim (tr_name g) = tr_name g) recs →
  indexed (group_tags recs) name v ↔ mkTagRecord name v ∈ recs.
Proof.
  intros Hc. unfold indexed, group_tags. setoid_rewrite list_elem_of_fmap.
  rewrite <-elem_of_values_of. split.
  - intros (n & vs & ([n' us] & [= -> ->] & Hin%elem_of_btree_iter) & Ht & Hv). simpl in *.
    apply group_by_name_Some in Hin as [-> _].
    assert (mkTagRecord n' v ∈ recs) as Hr by by apply elem_of_values_of.
    apply (proj1 (Forall_forall _ _) Hc) in Hr. simpl in Hr. congruence.
  - intros Hv. exists name, (values_of name recs). split_and!; [| |done].
    + exists (name, values_of name recs). split; [done|].
      apply elem_of_btree_iter, group_by_name_Some. split; [done|].
      intros Hnil. rewrite Hnil in Hv. by apply not_elem_of_nil in Hv.
    + apply elem_of_values_of, (proj1 (Forall_forall _ _) Hc) in Hv. done.
Qed.

Lemma elem_of_plan_tags f name v :
  mkTagRecord name v ∈ eq_tags (qp_query (build_query_plan f)) ↔
  ∃ vs, f_tags f !! name = Some vs ∧ v ∈ vs.
Proof.
  unfold build_query_plan. destruct (exact_hex_filters (f_ids f)), (exact_hex_filters (f_authors f)).
  simpl. rewrite list_elem_of_bind. split.
  - intros ([n vs] & (w & [= <- <-] & Hw)%list_elem_of_fmap & Hin%elem_of_btree_iter). eauto.
  - intros (vs & Hl & Hv). exists (name, vs). rewrite elem_of_btree_iter. split; [|done].
    by apply (list_elem_of_fmap_2 (mkTagRecord name)).
Qed.

(** A plan asks the repository for what the filter selects, or for more when
    the result is filtered again. *)
Lemma plan_selected f t r :
  filter_plain f → record_clean r → er_tenant_id r = t →
  let plan := build_query_plan f in
  (selects f (record_to_event r) → record_selected (set_tenant t (qp_query plan)) r) ∧
  (qp_needs_post_filter plan = false →
   record_selected (set_tenant t (qp_query plan)) r → selects f (record_to_event r)).
Proof.
  intros [Hlow Hne] (Hid & Hpk & Hg) Ht plan.
  pose proof (elem_of_plan_tags f) as Htags. fold plan in Htags. unfold build_query_plan in plan.
  destruct (exact_hex_filters (f_ids f)) as [ids ids_post] eqn:Ei,
    (exact_hex_filters (f_authors f)) as [authors authors_post] eqn:Ea.
  pose proof (exact_names _ _ _ _ Ei Hid (λ p c Hp, Hlow p c (or_introl Hp))) as [Hi1 Hi2].
  pose proof (exact_names _ _ _ _ Ea Hpk (λ p c Hp, Hlow p c (or_intror Hp))) as [Ha1 Ha2].
  assert (∀ name v, indexed (group_tags (er_tags r)) name v ↔ mkTagRecord name v ∈ er_tags r) as Hix.
  { intros name v. apply indexed_group_tags. eapply Forall_impl; [exact Hg|]. by intros g [? _]. }
  unfold selects, record_selected. simpl. setoid_rewrite Hix. split.
  - intros (Si & Sa & Sk & Ss & Su & St). split_and!; [by intros ? [= <-]|auto..|].
    intros name v (vs & Hl & Hv)%Htags. destruct (St _ _ Hl) as (w & Hw & ?).
    exists w. split; [apply Htags; eauto|done].
  - intros [Hpi Hpa]%orb_false_iff (_ & Si & Sa & Sk & Ss & Su & St). split_and!; [auto..|].
    intros name [|v vs] Hl; [by apply Hne in Hl|].
    destruct (St name v) as (w & (us & Hus & Hw)%Htags & Hin).
    { apply Htags. exists (v :: vs). split; [done|left]. }
    exists w. split; [congruence|done].
Qed.

Lemma clean_indexable r : record_clean r → Forall indexable (ev_tags (record_to_event r)).
Proof.
  intros (_ & _ & Hg). simpl. unfold group_tags. apply Forall_fmap, Forall_forall.
  intros [n vs] [-> Hne]%elem_of_btree_iter%group_by_name_Some. simpl.
  assert (∀ v, v ∈ values_of n (er_tags r) → is_blank n = false ∧ is_blank v = false) as Hv.
  { intros v Hv%elem_of_values_of. apply (proj1 (Forall_forall _ _) Hg) in Hv. tauto. }
  exists n, (values_of n (er_tags r)). split_and!; [done| |apply Forall_forall; naive_solver].
  destruct (values_of n (er_tags r)) as [|v vs]; [done|]. by apply (Hv v); left.
Qed.

(** The events one filter adds. *)
Definition hits f (post : bool) (records : list EventRecord) : list NostrEvent :=
  List.filter (λ e, negb post || sel f e) (record_to_event <$> records).

Lemma scan_records_hits f post records : ∀ rem q,
  (0 ≤ rem)%Z → NoDup (er_id <$> records) → Forall record_clean records →
  (∀ r, r ∈ records → hex_encode (er_id r) ∉ q_seen q) →
  ∃ q', scan_records f post records rem q = Ok q' ∧
    q_results q' = q_results q ++ take (Z.to_nat rem) (hits f post records).
Proof.
  induction records as [|r records IH]; intros rem q Hrem Hnd Hc Hseen; cbn [scan_records].
  { exists q. unfold hits. simpl. by rewrite take_nil, app_nil_r. }
  apply NoDup_cons in Hnd as [Hni Hnd]. apply Forall_cons in Hc as [Hr Hc].
  case_bool_decide as H0'; [exists q; rewrite H0'; simpl; by rewrite app_nil_r|].
  rewrite bool_decide_eq_false_2 by (apply Hseen; left).
  assert (∃ hit, (if post then tags ← map_err (λ err, Backend (TagError_display err))
      (TagIndex_from_tags (ev_tags (record_to_event r))); Ok (matches f (record_to_event r) tags)
      else Ok true) = Ok hit ∧ hit = negb post || sel f (record_to_event r)) as (hit & -> & Hhit).
  { apply clean_indexable, from_tags_indexable in Hr. unfold sel. destruct post; [|by exists true].
    destruct (TagIndex_from_tags _); [|done]. simpl. eauto. }
  cbn [mbind result_bind]. unfold hits. rewrite fmap_cons. cbn [List.filter]. rewrite <-Hhit.
  fold (hits f post records). destruct hit.
  - destruct (IH (Z.max 0 (rem - 1)) (mkQueryState ({[ev_id (record_to_event r)]} ∪ q_seen q)
      (q_results q ++ [record_to_event r]))) as (q' & Hq & Hres); [lia|done..| |].
    { intros x Hx. simpl. apply not_elem_of_union. split; [|apply Hseen; by right].
      intros Heq%elem_of_singleton%(inj hex_encode). apply Hni. rewrite <-Heq.
      by apply list_elem_of_fmap_2. }
    exists q'. split; [done|]. rewrite Hres. simpl. rewrite <-app_assoc. f_equal.
    replace (Z.to_nat rem) with (S (Z.to_nat (Z.max 0 (rem - 1)))) by lia. done.
  - apply IH; [done..|]. intros x Hx. apply Hseen. by right.
Qed.

(** The records of a plan, before any limit. *)
Definition plan_records t f tbl : list EventRecord :=
  merge_sort record_before
    (List.filter (record_matches (set_tenant t (qp_query (build_query_plan f)))) (map_to_list tbl).*2).

Lemma plan_limit f :
  eq_limit (qp_query (build_query_plan f)) =
  if qp_needs_post_filter (build_query_plan f) then None else f_limit f.
Proof.
  unfold build_query_plan. by destruct (exact_hex_filters (f_ids f)), (exact_hex_filters (f_authors f)).
Qed.

(** A limit pushed down to the repository leaves the first hits. *)
Lemma take_hits f post l :
  take (Z.to_nat (default u64_max (f_limit f)))
    (hits f post (truncate_to (if post then None else f_limit f) l))
  = take (Z.to_nat (default u64_max (f_limit f))) (hits f post l).
Proof.
  destruct post; [done|]. destruct (f_limit f) as [n|]; [|done].
  assert (∀ k, hits f false k = record_to_event <$> k) as Hall.
  { intros k. unfold hits. simpl. by induction k; csimpl; f_equal. }
  cbn [default truncate_to from_option id]. by rewrite !Hall, fmap_take, take_take, Nat.min_id.
Qed.

Lemma NoDup_fmap_filter {A B} (g : A → B) (p : A → bool) l :
  NoDup (g <$> l) → NoDup (g <$> List.filter p l).
Proof.
  induction l as [|x l IH]; csimpl; [done|]. intros [Hn Hnd]%NoDup_cons.
  destruct (p x); csimpl; [|auto]. apply NoDup_cons. split; [|auto].
  intros (y & Hy & [Hin _]%list_elem_of_In%filter_In)%list_elem_of_fmap. apply Hn. rewrite Hy.
  by apply list_elem_of_fmap_2, list_elem_of_In.
Qed.

Lemma plan_records_distinct t f tbl : table_wf tbl → NoDup (er_id <$> plan_records t f tbl).
Proof.
  intros Hwf. unfold plan_records. rewrite merge_sort_Permutation.
  apply NoDup_fmap_filter. rewrite <-list_fmap_compose.
  assert (er_id ∘ snd <$> map_to_list tbl = (map_to_list tbl).*1) as ->; [|apply NoDup_fst_map_to_list].
  apply list_fmap_ext. intros i [k x] Hi%list_elem_of_lookup_2%elem_of_map_to_list. simpl. auto.
Qed.

Definition tenant_clean t tbl : Prop :=
  ∀ id r, tbl !! id = Some r → er_tenant_id r = t → record_clean r.

Lemma elem_of_plan_records t f tbl r :
  r ∈ plan_records t f tbl ↔
  (∃ id, tbl !! id = Some r) ∧ record_selected (set_tenant t (qp_query (build_query_plan f))) r.
Proof. apply elem_of_sorted_matching. Qed.

Lemma query_single_hits (s : RepositoryStore R) tbl f :
  represents (rs_repo s) tbl → tenant_clean (rs_tenant_id s) tbl → limits_ok [f] →
  (∀ q, is_ok (query_events (rs_repo s) q) = true) →
  repository_query s [f] =
    Ok (sort_events (take (Z.to_nat (default u64_max (f_limit f)))
      (hits f (qp_needs_post_filter (build_query_plan f)) (plan_records (rs_tenant_id s) f tbl)))).
Proof.
  intros Hr Hc Hl Hok. cbn [repository_query try_fold]. unfold query_one.
  specialize (Hok (set_tenant (rs_tenant_id s) (qp_query (build_query_plan f)))).
  destruct (query_events _ _) as [records|] eqn:E; [|done].
  apply (query_events_table _ _ _ _ Hr) in E as ->. cbn [map_err mbind result_bind].
  unfold table_query. fold (plan_records (rs_tenant_id s) f tbl).
  change (eq_limit (set_tenant ?t ?q)) with (eq_limit q). rewrite plan_limit.
  destruct (scan_records_hits f (qp_needs_post_filter (build_query_plan f))
    (truncate_to (if qp_needs_post_filter (build_query_plan f) then None else f_limit f)
      (plan_records (rs_tenant_id s) f tbl)) (default u64_max (f_limit f)) (mkQueryState ∅ []))
    as (q & -> & Hres).
  - apply Forall_cons in Hl as [Hl _]. destruct (f_limit f); simpl; [by apply Hl|by compute].
  - pose proof (plan_records_distinct (rs_tenant_id s) f tbl (represents_wf _ _ Hr)) as Hnd.
    destruct (if qp_needs_post_filter _ then None else f_limit f) as [n|]; [|done]. simpl.
    rewrite fmap_take. eapply sublist_NoDup; [exact Hnd|apply sublist_take].
  - apply Forall_forall. intros r [[id Hid] (Ht & _)]%elem_of_truncate%elem_of_plan_records. eauto.
  - intros r _. apply not_elem_of_empty.
  - cbn [mbind result_bind]. rewrite Hres. simpl app. by rewrite take_hits.
Qed.
End Query.

(** ** Sorted hits *)

Section Hits.
Context {R : Type} `{EventRepositoryLaws R} `{!HexLaws}.
Implicit Types (tbl : table) (t : string).

Definition newer_first (x y : NostrEvent) : Prop := (ev_created_at y ≤ ev_created_at x)%Z.

Lemma StronglySorted_list_filter {A} (Q : relation A) (p : A → bool) l :
  StronglySorted Q l → StronglySorted Q (List.filter p l).
Proof.
  induction 1 as [|x l Hl IH Hx]; simpl; [constructor|]. destruct (p x); [|done].
  constructor; [done|]. apply Forall_forall. intros y [Hy _]%list_elem_of_In%filter_In.
  by apply (proj1 (Forall_forall _ _) Hx), list_elem_of_In.
Qed.

Lemma hits_sorted f post t tbl : StronglySorted newer_first (hits f post (plan_records t f tbl)).
Proof.
  apply StronglySorted_list_filter.
  assert (StronglySorted record_before (plan_records t f tbl)) as Hs
    by (apply StronglySorted_merge_sort; apply _).
  induction Hs as [|r l Hl IH Hr]; csimpl; constructor; [done|]. apply Forall_fmap.
  eapply Forall_impl; [exact Hr|]. intros x [?|[? _]]; unfold newer_first; simpl; lia.
Qed.

Lemma elem_of_hits f t tbl e :
  filter_plain f → tenant_clean t tbl →
  e ∈ hits f (qp_needs_post_filter (build_query_plan f)) (plan_records t f tbl) ↔
  owned t tbl e ∧ selects f e.
Proof.
  intros Hf Hc. unfold hits. rewrite list_elem_of_In, filter_In, <-list_elem_of_In, list_elem_of_fmap.
  split.
  - intros [(r & -> & [[id Hid] Hs]%elem_of_plan_records) Hsel].
    pose proof (proj1 Hs _ eq_refl) as Ht. pose proof (Hc _ _ Hid Ht) as Hr.
    split; [by exists id, r|].
    destruct (qp_needs_post_filter _) eqn:Hp; simpl in Hsel.
    + by apply sel_selects, Hsel; apply clean_indexable.
    + by apply (plan_selected f t r Hf Hr Ht).
  - intros [(id & r & Hid & Ht & ->) Hs]. pose proof (Hc _ _ Hid Ht) as Hr. split.
    + exists r. split; [done|]. apply elem_of_plan_records. split; [eauto|].
      by apply (plan_selected f t r Hf Hr Ht).
    + apply orb_true_iff. right. by apply sel_selects; [apply clean_indexable|].
Qed.

Lemma hits_distinct f post t tbl :
  table_wf tbl → NoDup (ev_id <$> hits f post (plan_records t f tbl)).
Proof.
  intros Hwf. apply NoDup_fmap_filter. rewrite <-list_fmap_compose.
  change (ev_id ∘ record_to_event) with (hex_encode ∘ er_id). rewrite list_fmap_compose.
  apply NoDup_fmap_2; [apply _|]. by apply plan_records_distinct.
Qed.

(** What is left out by a limit is no newer than what is kept. *)
Lemma take_newest (l : list NostrEvent) n e :
  StronglySorted newer_first l → e ∈ l →
  e ∈ take n l ∨ length (take n l) = n ∧ ∀ x, x ∈ take n l → newer_first x e.
Proof.
  intros Hs He. rewrite <-(take_drop n l) in Hs, He. apply elem_of_app in He as [?|He]; [by left|right].
  split.
  - rewrite length_take. apply list_elem_of_lookup in He as [i Hi]. apply lookup_lt_Some in Hi.
    rewrite length_drop in Hi. lia.
  - intros x Hx. by eapply StronglySorted_app_1_elem_of.
Qed.
End Hits.

(** ** Properties *)

Section Properties.
Context {R : Type} `{EventRepositoryLaws R}.

Lemma insert_isolated (s : RepositoryStore R) tbl e res s' :
  represents (rs_repo s) tbl → store_insert s e = (res, s') →
  rs_tenant_id s' = rs_tenant_id s ∧
  ∃ tbl', represents (rs_repo s') tbl' ∧ insert_effect (rs_tenant_id s) e tbl tbl'.
Proof.
  intros Hr. simpl. unfold repository_insert.
  destruct (insert_repo _ e (rs_repo s)) as [res' repo'] eqn:E. intros [= _ <-]. split; [done|].
  destruct (insert_repo_goes _ e tbl _ _ _ _ Hr (removed_own_refl _ _ _) E) as (tbl' & ? & ? & _). eauto.
Qed.

Lemma delete_isolated (s : RepositoryStore R) tbl id res s' :
  represents (rs_repo s) tbl → store_delete s id = (res, s') →
  rs_tenant_id s' = rs_tenant_id s ∧
  ∃ tbl', represents (rs_repo s') tbl' ∧
    ∀ i r, er_tenant_id r ≠ rs_tenant_id s → tbl' !! i = Some r ↔ tbl !! i = Some r.
Proof.
  intros Hr. simpl. unfold repository_delete.
  destruct (decode_hex_id id) as [b|]; [|intros [= _ <-]; split; [done|by exists tbl]].
  destruct (delete_event _ _ b) as [res' repo'] eqn:E. intros [= _ <-]. split; [done|].
  apply (delete_event_table _ _ _ _ _ _ Hr) in E as [(tbl' & Hr' & Hw) _]. eexists. split; [exact Hr'|].
  destruct Hw as [->|[_ ->]]; [|done]. intros i r Ht. rewrite table_delete_lookup. tauto.
Qed.

(** A store works for its tenant only: whatever its operations return, a
    deletion leaves the records of other tenants as they are, and so does an
    insertion, which removes only records of the inserted event's author that
    are not newer than it and adds only the record of the event; every event
    that [get] or [query] returns is a record of the store's own tenant. *)
Lemma tenant_isolation (s : RepositoryStore R) tbl :
  represents (rs_repo s) tbl →
  (∀ e res s', store_insert s e = (res, s') →
     rs_tenant_id s' = rs_tenant_id s ∧
     ∃ tbl', represents (rs_repo s') tbl' ∧ insert_effect (rs_tenant_id s) e tbl tbl') ∧
  (∀ id res s', store_delete s id = (res, s') →
     rs_tenant_id s' = rs_tenant_id s ∧
     ∃ tbl', represents (rs_repo s') tbl' ∧
       ∀ i r, er_tenant_id r ≠ rs_tenant_id s → tbl' !! i = Some r ↔ tbl !! i = Some r) ∧
  (∀ id e, store_get s id = Ok (Some e) → owned (rs_tenant_id s) tbl e) ∧
  (∀ fs l, store_query s fs = Ok l → Forall (owned (rs_tenant_id s) tbl) l).
Proof.
  intros Hr. split_and!; [intros e res s'; by apply insert_isolated|intros id res s'; by apply delete_isolated|..]; simpl.
  - intros id e. unfold repository_get. intros (b & _ & (o & Ho & [= He])%bind_Ok)%bind_Ok.
    destruct (get_event _ _ b) as [o'|] eqn:E; [|done]. injection Ho as <-.
    apply (get_event_table _ _ _ _ _ Hr) in E as ->. unfold table_get in He.
    destruct (tbl !! b) as [r|] eqn:Eb; [|done]. simpl in He.
    destruct (String.eqb_spec (er_tenant_id r) (rs_tenant_id s)); [|done].
    exists b, r. by simplify_eq/=.
  - intros [|f fs] l; [by intros [= <-]|]. unfold repository_query.
    intros (q & Hq & [= <-])%bind_Ok. unfold sort_events. rewrite merge_sort_Permutation.
    apply Forall_forall. revert Hq.
    apply (try_fold_inv (λ q, ∀ e, e ∈ q_results q → owned (rs_tenant_id s) tbl e)).
    + intros q1 f' q2 Hold Hone. by apply (query_one_owned _ _ _ _ _ Hr Hone).
    + by intros e ?%not_elem_of_nil.
Qed.

(** When an insertion reports [Inserted], the event was decoded to a record
    of the tenant and every record under its replaceable key was older and is
    gone; but the record is stored only if its id was free: an id that another
    tenant holds keeps that tenant's record, and the event is lost although it
    was reported as saved. *)
Lemma repository_insert_saved (s : RepositoryStore R) tbl e s' :
  represents (rs_repo s) tbl → store_insert s e = (Ok Inserted, s') →
  ∃ r tbl', event_to_record e (rs_tenant_id s) = Ok r ∧ represents (rs_repo s') tbl' ∧
    match tbl !! er_id r with
    | None => tbl' !! er_id r = Some r
    | Some other => er_tenant_id other ≠ rs_tenant_id s ∧ tbl' !! er_id r = Some other
    end ∧
    ∀ k, replaceable_key e = Some k →
      (∀ id x, tbl !! id = Some x → under_key (rs_tenant_id s) (er_pubkey r) k x →
         (er_created_at x < ev_created_at e)%Z) ∧
      (∀ id x, tbl' !! id = Some x → under_key (rs_tenant_id s) (er_pubkey r) k x → x = r).
Proof.
  intros Hr. simpl. unfold repository_insert.
  destruct (insert_repo _ e (rs_repo s)) as [res repo'] eqn:E. intros [= -> <-].
  destruct (insert_repo_Inserted _ _ _ _ _ Hr E) as (r & tbl1 & Er & Hg & Hr' & Hs & Hk).
  exists r, (table_insert r tbl1). split; [done|]. split; [done|]. unfold table_insert. split.
  - unfold table_get in Hg. destruct (tbl !! er_id r) as [other|] eqn:Eo; simpl in Hg.
    + destruct (String.eqb_spec (er_tenant_id other) (rs_tenant_id s)) as [?|Hne]; [done|].
      split; [done|]. destruct (proj2 (Hs _ _) Eo) as [Hs1|[? _]]; [by rewrite Hs1|done].
    + destruct (tbl1 !! er_id r) eqn:E1; [|by rewrite lookup_insert_eq].
      apply Hs in E1. congruence.
  - intros k Hkey. destruct (Hk k Hkey) as [Hold Hnew]. split; [done|]. intros id x Hx Hu.
    destruct (tbl1 !! er_id r); [by apply Hnew in Hx|].
    apply lookup_insert_Some in Hx as [[_ <-]|[_ Hx]]; [done|by apply Hnew in Hx].
Qed.

(** A query with one filter returns, newest first and without repetition,
    only events of the tenant that the filter selects, at most as many as its
    limit, and all of them unless the limit is reached, when every returned
    event is at least as new as any that is left out.  The names the repository
    compares exactly must be written in lower case and tag conditions must not
    be empty; [selects] is the specification of the in-memory store's queries,
    so both stores answer such a query alike. *)
Lemma repository_query_single `{!HexLaws} (s : RepositoryStore R) tbl f :
  represents (rs_repo s) tbl → tenant_clean (rs_tenant_id s) tbl → filter_plain f → limits_ok [f] →
  (∀ q, is_ok (query_events (rs_repo s) q) = true) →
  ∃ l, store_query s [f] = Ok l ∧ NoDup (ev_id <$> l) ∧ StronglySorted event_before l ∧
    (Z.of_nat (length l) ≤ default u64_max (f_limit f))%Z ∧
    (∀ e, e ∈ l → owned (rs_tenant_id s) tbl e ∧ selects f e) ∧
    (∀ e, owned (rs_tenant_id s) tbl e → selects f e →
       e ∈ l ∨ Z.of_nat (length l) = default u64_max (f_limit f) ∧
               ∀ x, x ∈ l → (ev_created_at e ≤ ev_created_at x)%Z).
Proof.
  intros Hr Hc Hf Hl Hok. change (store_query s [f]) with (repository_query s [f]).
  rewrite (query_single_hits s tbl f) by done.
  pose proof (hits_distinct f (qp_needs_post_filter (build_query_plan f)) (rs_tenant_id s) tbl
    (represents_wf _ _ Hr)) as Hnd.
  pose proof (λ e, elem_of_hits f (rs_tenant_id s) tbl e Hf Hc) as Hin.
  pose proof (hits_sorted f (qp_needs_post_filter (build_query_plan f)) (rs_tenant_id s) tbl) as Hs.
  set (h := hits _ _ _) in *.
  assert (0 ≤ default u64_max (f_limit f))%Z as Hlim.
  { apply Forall_cons in Hl as [Hl _]. destruct (f_limit f); simpl; [by apply Hl|by compute]. }
  eexists. split; [done|]. unfold sort_events. split_and!.
  - rewrite merge_sort_Permutation, fmap_take. eapply sublist_NoDup; [exact Hnd|apply sublist_take].
  - apply StronglySorted_merge_sort; apply _.
  - rewrite merge_sort_Permutation, length_take. lia.
  - intros e. rewrite merge_sort_Permutation. intros (i & Hi & _)%elem_of_take.
    by apply Hin, (list_elem_of_lookup_2 _ i).
  - intros e Ho Hse. setoid_rewrite merge_sort_Permutation.
    destruct (take_newest h (Z.to_nat (default u64_max (f_limit f))) e Hs) as [?|[Hlen Hnew]];
      [by apply Hin|by left|right]. split; [lia|done].
Qed.
End Properties.

(** Storing an event and reading it back returns the same event exactly
    when its id, key and signature are in lower case, each of its tags has a
    value and the tag names increase strictly.  Any other event comes back with
    its tags regrouped, so the event that is served is not the one that was signed. *)
Lemma event_record_roundtrip `{HexLaws} e t r :
  event_to_record e t = Ok r →
  record_to_event r = e ↔
    (∃ b, ev_id e = hex_encode b) ∧ (∃ b, ev_pubkey e = hex_encode b) ∧
    (∃ b, ev_sig e = hex_encode b) ∧ tags_normal (ev_tags e).
Proof.
  intros (_ & Hid & _ & Hpk & _ & Hsig & Htags%flatten_tags_Ok & Hat & Hkind & Hcontent)%event_to_record_Ok.
  split.
  - intros <-. simpl. split_and!; eauto using group_tags_normal.
  - intros ([b1 E1] & [b2 E2] & [b3 E3] & Hn). destruct e as [id pk at' kind tags content sig].
    simpl in *. subst. rewrite !hex_decode_encode in *. simplify_eq. unfold record_to_event.
    rewrite Htags, group_tags_id by done. congruence.
Qed.

(** ** Witnesses: a store of tenant [t] beside a record of tenant [u] *)

Section Samples.
#[local] Existing Instance hex_model.
#[local] Existing Instance hex_model_laws.
#[local] Existing Instance sample_hash_order.

Fixpoint digits (n : nat) (d : string) : string :=
  match n with 0 => "" | S n => d +:+ digits n d end.

Definition sample_note : NostrEvent :=
  mkNostrEvent (digits 64 "a") (digits 64 "b") 7 1 [["e"; "x"]; ["p"; "y"; "z"]] "hi" (digits 128 "c").

Definition sample_record (t : string) : EventRecord :=
  mkEventRecord t (default "" (hex_decode (digits 64 "a"))) (default "" (hex_decode (digits 64 "b")))
    7 1 "hi" (default "" (hex_decode (digits 128 "c")))
    [mkTagRecord "e" "x"; mkTagRecord "p" "y"; mkTagRecord "p" "z"].

Definition sample_table (t : string) : table := table_insert (sample_record t) ∅.

Definition sample_repo (t : string) : MemoryEvents :=
  (insert_event (mkMemoryEvents ∅) (sample_record t)).2.

Definition sample_store (t : string) : RepositoryStore MemoryEvents :=
  RepositoryStore_with_tenant (sample_repo t) "t".

Lemma sample_represents t : represents (rs_repo (sample_store t)) (sample_table t).
Proof.
  apply (memory_insert_event (mkMemoryEvents ∅) ∅ (sample_record t) (Ok tt)); [|reflexivity].
  change (memory_represents (mkMemoryEvents ∅) ∅).
  split; [intros id; simpl; by rewrite !lookup_empty|]. intros key r. simpl. by rewrite lookup_empty.
Defined.

Lemma sample_clean : tenant_clean "t" (sample_table "t").
Proof.
  intros id r Hr _. change ((<[er_id (sample_record "t") := sample_record "t"]> ∅ : table) !! id = Some r) in Hr.
  apply lookup_insert_Some in Hr as [[_ <-]|[_ Hr]]; [|by rewrite lookup_empty in Hr].
  split; [reflexivity|]. split; [reflexivity|].
  repeat (constructor; [vm_compute; split_and!; reflexivity|]). constructor.
Qed.

Lemma tenant_isolation_witness :
  ∃ tbl', represents (rs_repo (store_insert (sample_store "u") sample_note).2) tbl' ∧
    insert_effect "t" sample_note (sample_table "u") tbl'.
Proof.
  destruct (tenant_isolation (sample_store "u") (sample_table "u") (sample_represents "u")) as [Hi _].
  destruct (Hi sample_note (store_insert (sample_store "u") sample_note).1
    (store_insert (sample_store "u") sample_note).2) as [_ Hx].
  - vm_compute. reflexivity.
  - exact Hx.
Defined.

Lemma repository_insert_saved_witness :
  ∃ r tbl', event_to_record sample_note "t" = Ok r ∧
    represents (rs_repo (store_insert (sample_store "u") sample_note).2) tbl' ∧
    tbl' !! er_id r = Some (sample_record "u").
Proof.
  destruct (repository_insert_saved (sample_store "u") (sample_table "u") sample_note
    (store_insert (sample_store "u") sample_note).2 (sample_represents "u"))
    as (r & tbl' & Hr & Hrep & Hm & _).
  - vm_compute. reflexivity.
  - exists r, tbl'. split; [exact Hr|]. split; [exact Hrep|].
    assert (r = sample_record "t") as ->
      by (vm_compute in Hr; injection Hr as <-; vm_compute; reflexivity).
    destruct (sample_table "u" !! er_id (sample_record "t")) as [x|] eqn:E; vm_compute in E;
      [|discriminate]. injection E as <-. exact (proj2 Hm).
Defined.

Lemma repository_query_single_witness :
  ∃ l, store_query (sample_store "t") [empty_filter] = Ok l ∧
    record_to_event (sample_record "t") ∈ l.
Proof.
  destruct (repository_query_single (sample_store "t") (sample_table "t") empty_filter
    (sample_represents "t") sample_clean) as (l & Hl & _ & _ & _ & _ & Hall).
  - split; [|intros name vs Hn; vm_compute in Hn; discriminate].
    intros p b [Hp|Hp]; apply not_elem_of_nil in Hp; destruct Hp.
  - constructor; [intros n Hn; discriminate|constructor].
  - reflexivity.
  - exists l. split; [exact Hl|].
    assert (l = [record_to_event (sample_record "t")]) as ->.
    { vm_compute in Hl. injection Hl as <-. vm_compute. reflexivity. }
    left.
Defined.

Lemma event_record_roundtrip_witness :
  record_to_event (sample_record "t") = sample_note ↔
    (∃ b, ev_id sample_note = hex_encode b) ∧ (∃ b, ev_pubkey sample_note = hex_encode b) ∧
    (∃ b, ev_sig sample_note = hex_encode b) ∧ tags_normal (ev_tags sample_note).
Proof.
  apply (event_record_roundtrip sample_note "t" (sample_record "t")). vm_compute. reflexivity.
Defined.
End Samples.
