(* ===== verification/RelayProtocol.v ===== *)
(** * [RelayProtocol]: the relay's wire protocol and its admission hook

    Models [services/relay/src/protocol.rs], [notice.rs],
    [admission_client.rs] and the encoding part of [driver.rs].  The HTTP
    transport of the hook is a parameter. *)

From S2P Require Import Prelude RustStr CoreTypes Externals EventFilters RelayEvent RelayStore.

(** ** [protocol.rs] *)

Inductive ClientMessage :=
| CmEvent (event : json)
| CmReq (subscription_id : string) (filters : list json)
| CmClose (subscription_id : string)
| CmAuth (event : json)
| CmCount (subscription_id : string) (filters : list json).

Inductive ServerMessage :=
| SmEvent (subscription_id : string) (event : json)
| SmNotice (message : string)
| SmEose (subscription_id : string)
| SmOk (event_id : string) (accepted : bool) (message : string)
| SmClosed (subscription_id message : string)
| SmAuth (challenge : string)
| SmCount (subscription_id : string) (count : Z).

Inductive ProtocolError :=
| PeInvalidJson
| PeInvalidFrame
| PeMissingField (field : string)
| PeInvalidField (field : string)
| PeUnknownMessageType (kind : string).

Definition ProtocolError_display (e : ProtocolError) : string :=
  match e with
  | PeInvalidJson => "invalid json"
  | PeInvalidFrame => "invalid frame"
  | PeMissingField field => "missing field " +:+ field
  | PeInvalidField field => "invalid field " +:+ field
  | PeUnknownMessageType kind => "unknown message type " +:+ kind
  end.

Section Protocol.
Context `{JsonLib}.

(** The subscription id and the filters of a [REQ] or [COUNT] frame. *)
Definition decode_filters (items : list json) : result ProtocolError (string * list json) :=
  subscription_id ← ok_or (PeMissingField "subscription_id") ((items !! 1) ≫= as_str);
  _ ← fail_if (length items <? 3) (PeMissingField "filters");
  Ok (subscription_id, drop 2 items).

Definition decode_client_message (input : string) : result ProtocolError ClientMessage :=
  value ← ok_or PeInvalidJson (json_from_str input);
  items ← ok_or PeInvalidFrame (as_array value);
  kind ← ok_or (PeMissingField "type") (head items ≫= as_str);
  if kind == "EVENT" then CmEvent <$> ok_or (PeMissingField "event") (items !! 1)
  else if kind == "REQ" then (λ p, CmReq p.1 p.2) <$> decode_filters items
  else if kind == "CLOSE" then
    CmClose <$> ok_or (PeMissingField "subscription_id") ((items !! 1) ≫= as_str)
  else if kind == "AUTH" then CmAuth <$> ok_or (PeMissingField "event") (items !! 1)
  else if kind == "COUNT" then (λ p, CmCount p.1 p.2) <$> decode_filters items
  else Err (PeUnknownMessageType kind).

Definition server_message_json (message : ServerMessage) : json :=
  match message with
  | SmEvent subscription_id event => JArray [JString "EVENT"; JString subscription_id; event]
  | SmNotice message => JArray [JString "NOTICE"; JString message]
  | SmEose subscription_id => JArray [JString "EOSE"; JString subscription_id]
  | SmOk event_id accepted message =>
      JArray [JString "OK"; JString event_id; JBool accepted; JString message]
  | SmClosed subscription_id message =>
      JArray [JString "CLOSED"; JString subscription_id; JString message]
  | SmAuth challenge => JArray [JString "AUTH"; JString challenge]
  | SmCount subscription_id count =>
      JArray [JString "COUNT"; JString subscription_id; JObject [("count", json_int count)]]
  end.

(** Printing a [Value] does not fail. *)
Definition encode_server_message (message : ServerMessage) : result ProtocolError string :=
  Ok (json_to_string (server_message_json message)).

(** ** [driver.rs] *)

Definition encode_response (message : ServerMessage) : string :=
  match encode_server_message message with
  | Ok serialized => serialized
  | Err _ => "[" +:+ byte_str [34] +:+ "NOTICE" +:+ byte_str [34] +:+ "," +:+ byte_str [34]
             +:+ "failed to encode response" +:+ byte_str [34] +:+ "]"
  end.
End Protocol.

(** ** [notice.rs] *)

Definition notice_from_protocol (err : ProtocolError) : ServerMessage :=
  SmNotice ("invalid message: " +:+ ProtocolError_display err).
Definition notice_from_event (err : EventError) : ServerMessage :=
  SmNotice ("invalid event: " +:+ EventError_display err).
Definition notice_from_filter (err : FilterError) : ServerMessage :=
  SmNotice ("invalid filter: " +:+ FilterError_display err).
Definition notice_from_store (err : StoreError) : ServerMessage :=
  SmNotice (StoreError_display err).

(** ** [admission_client.rs] *)

Inductive AdmissionFallback := FallbackAccept | FallbackReject.

Record RelayEvent := mkRelayEvent {
  re_kind : Z;
  re_pubkey : string;
  re_event_id : string;
  re_tags : tag_list;
  re_relay_url : option string;
  re_source_ip : option string
}.

(** [AdmissionRequestPayload] has the fields of [RelayEvent]. *)
Record AdmissionRequestPayload := mkAdmissionRequestPayload {
  rq_kind : Z;
  rq_pubkey : string;
  rq_event_id : string;
  rq_tags : tag_list;
  rq_relay_url : option string;
  rq_source_ip : option string
}.

Inductive AdmissionRequestError :=
| ArMissingField (field : string)
| ArInvalidTag
| ArInvalidKind (kind : Z).

Definition AdmissionRequestError_display (e : AdmissionRequestError) : string :=
  match e with
  | ArMissingField field => "missing admission field " +:+ field
  | ArInvalidTag => "invalid admission tag"
  | ArInvalidKind kind => "invalid admission kind " +:+ pretty kind
  end.

Definition AdmissionRequestPayload_try_from (event : RelayEvent)
    : result AdmissionRequestError AdmissionRequestPayload :=
  _ ← fail_if (is_empty (re_pubkey event)) (ArMissingField "pubkey");
  _ ← fail_if (is_empty (re_event_id event)) (ArMissingField "event_id");
  _ ← fail_if (existsb is_nil (re_tags event)) ArInvalidTag;
  Ok (mkAdmissionRequestPayload (re_kind event) (re_pubkey event) (re_event_id event)
        (re_tags event) (re_relay_url event) (re_source_ip event)).

(** [AdmissionFilter] has the fields of the core's [EventFilter]. *)
Record AdmissionFilter := mkAdmissionFilter {
  af_ids : list string;
  af_kinds : list Z;
  af_authors : list string;
  af_tags : gmap string (list string);
  af_limit : option Z
}.

Definition EventFilter_from_admission (f : AdmissionFilter) : EventFilter :=
  mkEventFilter (af_ids f) (af_kinds f) (af_authors f) (af_tags f) (af_limit f).
Definition AdmissionFilter_from_event (f : EventFilter) : AdmissionFilter :=
  mkAdmissionFilter (ef_ids f) (ef_kinds f) (ef_authors f) (ef_tags f) (ef_limit f).

Inductive AdmissionDecisionPayload :=
| PlAccept
| PlReject (reason : string)
| PlRequiresRelatedEvents (filters : list AdmissionFilter).

Inductive AdmissionHookError :=
| HkRequest (err : AdmissionRequestError)
| HkSerialize (err : string)
| HkDecode (err : string)
| HkTransport (err : string)
| HkInvalidDecision (err : string).

Definition AdmissionHookError_display (e : AdmissionHookError) : string :=
  match e with
  | HkRequest err => "invalid request: " +:+ AdmissionRequestError_display err
  | HkSerialize err => "serialize error: " +:+ err
  | HkDecode err => "decode error: " +:+ err
  | HkTransport err => "transport error: " +:+ err
  | HkInvalidDecision err => "invalid decision: " +:+ err
  end.

Definition fallback_decision (f : AdmissionFallback) (error : AdmissionHookError)
    : AdmissionDecision :=
  match f with
  | FallbackAccept => AdmAccept
  | FallbackReject => AdmReject ("admission unavailable: " +:+ AdmissionHookError_display error)
  end.

Definition admission_decision_from_payload (payload : AdmissionDecisionPayload)
    : result AdmissionHookError AdmissionDecision :=
  match payload with
  | PlAccept => Ok AdmAccept
  | PlReject reason =>
      if is_blank reason then Err (HkInvalidDecision "missing reject reason")
      else Ok (AdmReject reason)
  | PlRequiresRelatedEvents filters =>
      if is_nil filters then Err (HkInvalidDecision "missing related filters")
      else Ok (AdmRequiresRelatedEvents (EventFilter_from_admission <$> filters))
  end.

(** The [AdmissionTransport] trait: the endpoint and the request. *)
Class AdmissionTransport := {
  transport_send : string → AdmissionRequestPayload →
    result AdmissionHookError AdmissionDecisionPayload
}.

Definition hook_decide `{AdmissionTransport} (endpoint : string) (fallback : AdmissionFallback)
    (event : RelayEvent) : AdmissionDecision :=
  match AdmissionRequestPayload_try_from event with
  | Err err => fallback_decision fallback (HkRequest err)
  | Ok request =>
      match transport_send endpoint request with
      | Ok payload =>
          match admission_decision_from_payload payload with
          | Ok decision => decision
          | Err err => fallback_decision fallback err
          end
      | Err err => fallback_decision fallback err
      end
  end.

(** ** Specifications and lemmas *)

(** The frames of each client message; what follows is ignored, except for the
    filters, which take the rest of the frame. *)
Inductive frame : list json → ClientMessage → Prop :=
| frame_event e rest : frame (JString "EVENT" :: e :: rest) (CmEvent e)
| frame_req sub f fs : frame (JString "REQ" :: JString sub :: f :: fs) (CmReq sub (f :: fs))
| frame_close sub rest : frame (JString "CLOSE" :: JString sub :: rest) (CmClose sub)
| frame_auth e rest : frame (JString "AUTH" :: e :: rest) (CmAuth e)
| frame_count sub f fs : frame (JString "COUNT" :: JString sub :: f :: fs) (CmCount sub (f :: fs)).

Lemma as_str_Some v s : as_str v = Some s ↔ v = JString s.
Proof. destruct v; simpl; split; congruence. Qed.

Lemma decode_filters_Ok k items sub fs :
  decode_filters (k :: items) = Ok (sub, fs) ↔
  ∃ f rest, items = JString sub :: f :: rest ∧ fs = f :: rest.
Proof.
  unfold decode_filters. split.
  - intros (x & Hx%ok_or_Ok & (Hl & [= <- <-])%bind_Ok_unit)%bind_Ok.
    apply fail_if_Ok, Nat.ltb_ge in Hl. destruct items as [|v [|f rest]]; simpl in *; try lia; try done.
    apply as_str_Some in Hx as ->. eauto.
  - intros (f & rest & -> & ->). done.
Qed.

(** ** Properties *)

(** A text decodes to a client message exactly when it is a JSON array
    that is a frame of that message. *)
Lemma decode_client_message_iff `{JsonLib} input m :
  decode_client_message input = Ok m ↔
  ∃ items, json_from_str input = Some (JArray items) ∧ frame items m.
Proof.
  unfold decode_client_message. rewrite bind_Ok. setoid_rewrite ok_or_Ok. split.
  - intros (v & Hv & (items & Hi%ok_or_Ok & (kind & Hk%ok_or_Ok & Hm)%bind_Ok)%bind_Ok).
    destruct v; simplify_eq/=. exists items. split; [done|].
    destruct items as [|k items]; [done|]. simpl in Hk. apply as_str_Some in Hk as ->.
    repeat (match goal with H : context [String.eqb kind ?s] |- _ =>
      destruct (String.eqb_spec kind s) as [->|] in H end; [|]).
    + apply fmap_Ok in Hm as (e & He%ok_or_Ok & ->).
      destruct items; simplify_eq/=. constructor.
    + apply fmap_Ok in Hm as ([sub fs] & (f & rest & -> & ->)%decode_filters_Ok & ->). constructor.
    + apply fmap_Ok in Hm as (sub & Hs%ok_or_Ok & ->).
      destruct items; simplify_eq/=. apply as_str_Some in Hs as ->. constructor.
    + apply fmap_Ok in Hm as (e & He%ok_or_Ok & ->).
      destruct items; simplify_eq/=. constructor.
    + apply fmap_Ok in Hm as ([sub fs] & (f & rest & -> & ->)%decode_filters_Ok & ->). constructor.
    + done.
  - intros (items & -> & Hf). eexists. split; [done|]. by destruct Hf.
Qed.

(** The admission hook answers with the service's decision whenever the
    request can be built and the service gives a well-formed decision, and
    with the configured fallback in every other case.  In particular an event
    with an empty tag never reaches the service: when the fallback is to
    accept, it is admitted whatever the service would say. *)
Lemma admission_hook_spec `{AdmissionTransport} endpoint fallback event :
  (∀ request payload decision,
     AdmissionRequestPayload_try_from event = Ok request →
     transport_send endpoint request = Ok payload →
     admission_decision_from_payload payload = Ok decision →
     hook_decide endpoint fallback event = decision) ∧
  (¬ (∃ request payload decision,
     AdmissionRequestPayload_try_from event = Ok request ∧
     transport_send endpoint request = Ok payload ∧
     admission_decision_from_payload payload = Ok decision) →
   ∃ err, hook_decide endpoint fallback event = fallback_decision fallback err) ∧
  ([] ∈ re_tags event → ∃ err, hook_decide endpoint fallback event = fallback_decision fallback (HkRequest err)).
Proof.
  unfold hook_decide. split_and!.
  - by intros request payload decision -> -> ->.
  - intros Hno. destruct (AdmissionRequestPayload_try_from event) as [request|]; [|by eexists].
    destruct (transport_send endpoint request) as [payload|] eqn:Ht; [|by eexists].
    destruct (admission_decision_from_payload payload) as [decision|] eqn:Hd; [|by eexists].
    exfalso. apply Hno. eauto 10.
  - intros Hin. destruct (AdmissionRequestPayload_try_from event) as [request|] eqn:E; [|by eexists].
    exfalso. unfold AdmissionRequestPayload_try_from in E.
    rewrite !bind_Ok_unit, !fail_if_Ok in E. destruct E as (_ & _ & Hf & _).
    apply (proj1 (existsb_false _ _) Hf) in Hin. done.
Qed.
