(* ===== verification/AdmissionService.v ===== *)
(** * [AdmissionService]: which events a relay may store

    Models [services/admission/src/lib.rs]: the configuration, requests, the decision
    with and without storage, the cache of decisions, the rate limiter and the
    handlers.  The wire types are those of the client in [RelayProtocol]; the service's
    enum of decisions has the variants of the core's [AdmissionDecision].  The clock is
    an argument.  Serving, metrics and logging are not modelled. *)

From S2P Require Import Prelude RustStr CoreTypes Externals HexModel Nip34Common Nip34Repo Grasp EventFilters.
From S2P Require Import RelayCompat Membership Database Dispatch Config Repositories PostgresRepos Cache StateService.
From S2P Require Import RelayEvent RelayStore RelayProtocol.

(** ** Configuration *)

Record AdmissionConfig := mkAdmissionConfig {
  amc_bind : string; amc_compatibility : RelayCompatibilityMode; amc_storage : StorageConfig;
  amc_control_admin_keys : list string
}.

Inductive AdmissionConfigError := AmConfig (err : ConfigError) | AmStorageConfig (err : StorageConfigError).
Definition AdmissionConfigError_display (e : AdmissionConfigError) : string :=
  match e with
  | AmConfig err => "admission config error: " +:+ ConfigError_display err
  | AmStorageConfig err => "admission storage config error: " +:+ StorageConfigError_display err
  end.

(** [storage_from_env], [env_u32] and [env_u64] read the variables the way the state
    service does. *)
Definition admission_storage_from_env (get_var : environment) : result AdmissionConfigError StorageConfig :=
  map_err AmStorageConfig (state_storage_from_env get_var).

Definition parse_csv_values (raw : string) : list string :=
  List.filter (λ entry, negb (is_empty entry)) (trim <$> split "," raw).

Definition admin_keys_from_env (get_var : environment) : list string :=
  match get_var "GITTREE_CONTROL_ADMIN_KEYS" with Some value => parse_csv_values value | None => [] end.

Definition AdmissionConfig_from_env (get_var : environment) : result AdmissionConfigError AdmissionConfig :=
  services ← map_err AmConfig (ServicesConfig_from_env_validated_with get_var);
  compatibility ← map_err AmConfig (RelayCompatibilityConfig_from_env get_var);
  storage ← admission_storage_from_env get_var;
  Ok (mkAdmissionConfig (sv_admission services) compatibility storage (admin_keys_from_env get_var)).

(** ** Requests and decisions *)

Record AdmissionRequest := mkAdmissionRequest {
  aq_kind : Z; aq_pubkey : string; aq_event_id : string; aq_tags : tag_list;
  aq_relay_url : option string; aq_source_ip : option string
}.

Inductive AdmissionRequestError :=
| AqMissingField (field : string)
| AqInvalidTag
| AqInvalidKind (kind : Z)
| AqInvalidRelayUrl.

Definition AdmissionRequestError_display (e : AdmissionRequestError) : string :=
  match e with
  | AqMissingField field => "missing admission field " +:+ field
  | AqInvalidTag => "invalid admission tag"
  | AqInvalidKind kind => "invalid admission kind " +:+ pretty kind
  | AqInvalidRelayUrl => "invalid admission relay url"
  end.

Definition AdmissionRequest_new (kind : Z) (pubkey event_id : string) (tags : tag_list)
    (relay_url source_ip : option string) : result AdmissionRequestError AdmissionRequest :=
  _ ← fail_if (is_empty pubkey) (AqMissingField "pubkey");
  _ ← fail_if (is_empty event_id) (AqMissingField "event_id");
  _ ← fail_if (existsb is_nil tags) AqInvalidTag;
  _ ← fail_if (match relay_url with Some value => is_blank value | None => false end) AqInvalidRelayUrl;
  Ok (mkAdmissionRequest kind pubkey event_id tags relay_url source_ip).

Definition kind_u32 (r : AdmissionRequest) : result AdmissionRequestError Z :=
  if in_range 0 u32_max (aq_kind r) then Ok (aq_kind r) else Err (AqInvalidKind (aq_kind r)).

Inductive AdmissionDecisionError := AdMissingReason | AdMissingFilters.
Definition AdmissionDecisionError_display (e : AdmissionDecisionError) : string :=
  match e with
  | AdMissingReason => "missing admission rejection reason"
  | AdMissingFilters => "missing related event filters"
  end.
Definition decision_reject (reason : string) : result AdmissionDecisionError AdmissionDecision :=
  if is_blank reason then Err AdMissingReason else Ok (AdmReject reason).
Definition decision_requires_related (filters : list EventFilter) : result AdmissionDecisionError AdmissionDecision :=
  if is_nil filters then Err AdMissingFilters else Ok (AdmRequiresRelatedEvents filters).

Inductive AdmissionError :=
| AeConfig (err : AdmissionConfigError)
| AeRequest (err : AdmissionRequestError)
| AeCore (err : CoreError)
| AeObservabilityConfig (message : string)
| AeObservability (message : string)
| AeStorage (err : StorageError)
| AeServe (message : string).

Definition AdmissionError_display (e : AdmissionError) : string :=
  match e with
  | AeConfig err => "admission config error: " +:+ AdmissionConfigError_display err
  | AeRequest err => "admission request error: " +:+ AdmissionRequestError_display err
  | AeCore err => "admission core error: " +:+ CoreError_display err
  | AeObservabilityConfig err => "admission observability config error: " +:+ err
  | AeObservability err => "admission observability error: " +:+ err
  | AeStorage err => "admission storage error: " +:+ StorageError_display err
  | AeServe err => "admission serve error: " +:+ err
  end.

Definition is_control_admin (pubkey : string) (admin_keys : list string) : bool :=
  existsb (λ key, eq_ignore_ascii_case key pubkey) admin_keys.

Section Decide.
Context `{UrlLib} `{Bech32Lib}.

Definition evaluate_request_with_admin_keys (r : AdmissionRequest) (admin_keys : list string)
    : result AdmissionError AdmissionDecision :=
  kind ← map_err AeRequest (kind_u32 r);
  if bool_decide (kind = KIND_GITTREE_CONTROL) then
    if is_control_admin (aq_pubkey r) admin_keys then Ok AdmAccept
    else Ok (AdmReject "control event not authorized")
  else
    map_err AeCore (evaluate_admission kind (aq_pubkey r) (aq_event_id r) (aq_tags r) (aq_relay_url r)).

Definition evaluate_request (r : AdmissionRequest) : result AdmissionError AdmissionDecision :=
  evaluate_request_with_admin_keys r [].

Fixpoint repo_address_from_tags (tags : tag_list) : result CoreError RepoAddress :=
  match tags with
  | [] => Err (MissingField "a")
  | [] :: tags => repo_address_from_tags tags
  | (kind :: rest) :: tags =>
      if (kind == "a") || (kind == "A") then
        match rest with
        | [] => Err (InvalidTag "a" "")
        | value :: _ => RepoAddress_parse value
        end
      else repo_address_from_tags tags
  end.

Definition repo_address_from_filters (filters : list EventFilter) : option RepoAddress :=
  find_map (λ f, find_map (λ value, ok (RepoAddress_parse value)) (default [] (ef_tags f !! "a"))) filters.

Context {R : Type} `{AnnouncementRepository R} `{RelayCompatibilityRepository R} `{StateRepository R} `{HexLib}.

Definition repo_exists (address : RepoAddress) : stateful R StorageError bool :=
  pubkey ← lift (ok_or (StInvalidHex "pubkey" (ra_pubkey address)) (hex_decode (ra_pubkey address)));
  announcement ← latest_announcement pubkey (ra_identifier address);
  if is_some announcement then mret true
  else
    state ← repo_latest_state pubkey (ra_identifier address);
    mret (is_some state).

(** What becomes of a decision when the relay is not known to be compatible. *)
Definition incompatible (mode : RelayCompatibilityMode) (reason : string) (decision : AdmissionDecision)
    : AdmissionDecision :=
  match mode with CompatStrict => AdmReject reason | CompatWarn | CompatAllow => decision end.

(** The part that looks for the repository of the related events. *)
Definition check_related (r : AdmissionRequest) (decision : AdmissionDecision)
    : stateful R AdmissionError AdmissionDecision := λ s,
  match decision with
  | AdmRequiresRelatedEvents filters =>
      let address := match repo_address_from_filters filters with
                     | Some a => Some a
                     | None => ok (repo_address_from_tags (aq_tags r))
                     end in
      match address with
      | None => (Ok (AdmReject "missing repo address for related event checks"), s)
      | Some address =>
          let '(found, s) := repo_exists address s in
          (Ok (match found with
               | Ok true => AdmRequiresRelatedEvents filters
               | Ok false => AdmReject "repository not found for related event checks"
               | Err err => AdmReject ("storage error: " +:+ StorageError_display err)
               end), s)
      end
  | _ => (Ok decision, s)
  end.

(** The part that looks up the relay, then [check_related]. *)
Definition check_relay (r : AdmissionRequest) (mode : RelayCompatibilityMode) (decision : AdmissionDecision)
    : stateful R AdmissionError AdmissionDecision := λ s,
  match aq_relay_url r with
  | None => check_related r decision s
  | Some relay_url =>
      let '(found, s) := relay_compatibility relay_url s in
      match found with
      | Ok (Some record) =>
          if rcr_compatible record then check_related r decision s
          else (Ok (incompatible mode ("relay incompatible: " +:+ relay_url) decision), s)
      | Ok None => (Ok (incompatible mode ("relay compatibility missing: " +:+ relay_url) decision), s)
      | Err err => (Ok (incompatible mode ("storage error: " +:+ StorageError_display err) decision), s)
      end
  end.

Definition evaluate_request_with_storage_mode (r : AdmissionRequest) (mode : RelayCompatibilityMode)
    (admin_keys : list string) : stateful R AdmissionError AdmissionDecision :=
  decision ← lift (evaluate_request_with_admin_keys r admin_keys);
  check_relay r mode decision.

Definition evaluate_request_with_storage (r : AdmissionRequest) : stateful R AdmissionError AdmissionDecision :=
  evaluate_request_with_storage_mode r CompatStrict [].
End Decide.

(** ** The cache of decisions *)

(** [AdmissionCacheConfig] has the fields of [CacheConfig]; the entries are behind a lock. *)
Record AdmissionCache := mkAdmissionCache {
  adc_config : CacheConfig;
  adc_poisoned : bool;
  adc_entries : gmap string (CacheEntry AdmissionDecision)
}.
Definition AdmissionCacheConfig_default : CacheConfig := mkCacheConfig (Some 30000000000%N) 1024.
Definition AdmissionCache_new (config : CacheConfig) : AdmissionCache := mkAdmissionCache config false ∅.

Definition admission_cache_key (r : AdmissionRequest) : string :=
  pretty (aq_kind r) +:+ ":" +:+ aq_pubkey r +:+ ":" +:+ aq_event_id r.

(** [entry.stored_at.elapsed() < ttl]; [elapsed] does not go below zero. *)
Definition admission_is_fresh (c : AdmissionCache) (now : N) (e : CacheEntry AdmissionDecision) : bool :=
  match cc_ttl (adc_config c) with Some ttl => (now - ce_stored_at e <? ttl)%N | None => true end.

Definition stored_le {T} (a b : string * CacheEntry T) : Prop := (ce_stored_at a.2 ≤ ce_stored_at b.2)%N.
#[export] Instance stored_le_dec {T} : RelDecision (@stored_le T).
Proof. intros a b. unfold stored_le. apply _. Defined.

Section Cache.
Context `{HashOrder}.

Definition admission_evict_if_needed (config : CacheConfig) (m : gmap string (CacheEntry AdmissionDecision))
    : gmap string (CacheEntry AdmissionDecision) :=
  let max_entries := cc_max_entries config in
  if max_entries =? 0 then ∅
  else if size m <=? max_entries then m
  else
    let oldest := merge_sort stored_le (hash_iter m) in
    foldl (λ m p, delete p.1 m) m (take (size m - max_entries) oldest).

Definition admission_cache_get (key : string) (now : N) (c : AdmissionCache) : option AdmissionDecision * AdmissionCache :=
  if negb (cache_enabled (adc_config c)) || adc_poisoned c then (None, c)
  else
    match adc_entries c !! key with
    | Some e =>
        if admission_is_fresh c now e then (Some (ce_value e), c)
        else (None, mkAdmissionCache (adc_config c) (adc_poisoned c) (delete key (adc_entries c)))
    | None => (None, c)
    end.

Definition admission_cache_insert (key : string) (decision : AdmissionDecision) (now : N) (c : AdmissionCache)
    : AdmissionCache :=
  if negb (cache_enabled (adc_config c)) || adc_poisoned c then c
  else mkAdmissionCache (adc_config c) (adc_poisoned c)
         (admission_evict_if_needed (adc_config c) (<[key := mkCacheEntry decision now]> (adc_entries c))).

Context `{UrlLib} `{Bech32Lib} {R : Type} `{AnnouncementRepository R} `{RelayCompatibilityRepository R}.
Context `{StateRepository R} `{HexLib}.

(** The cache is read at [now] and written at [later]. *)
Definition evaluate_request_cached_mode (r : AdmissionRequest) (mode : RelayCompatibilityMode)
    (admin_keys : list string) (now later : N)
    : stateful (R * AdmissionCache) AdmissionError AdmissionDecision := λ s,
  let key := admission_cache_key r in
  let '(cached, c) := admission_cache_get key now s.2 in
  match cached with
  | Some decision => (Ok decision, (s.1, c))
  | None =>
      match evaluate_request_with_storage_mode r mode admin_keys s.1 with
      | (Ok decision, repos) => (Ok decision, (repos, admission_cache_insert key decision later c))
      | (Err e, repos) => (Err e, (repos, c))
      end
  end.

Definition evaluate_request_cached (r : AdmissionRequest) (now later : N)
    : stateful (R * AdmissionCache) AdmissionError AdmissionDecision :=
  evaluate_request_cached_mode r CompatStrict [] now later.

(** ** The handlers *)

Inductive AdmissionHttpError := AmBadRequest (message : string) | AmInternal (message : string).

Definition AdmissionHttpError_from (e : AdmissionError) : AdmissionHttpError :=
  match e with
  | AeRequest err => AmBadRequest (AdmissionRequestError_display err)
  | AeCore err => AmBadRequest (CoreError_display err)
  | AeStorage err => AmInternal (StorageError_display err)
  | AeConfig err => AmInternal (AdmissionConfigError_display err)
  | AeObservabilityConfig err | AeObservability err | AeServe err => AmInternal err
  end.
Definition AdmissionHttpError_into_response (e : AdmissionHttpError) : Z * string :=
  match e with AmBadRequest message => (400%Z, message) | AmInternal message => (500%Z, message) end.

Definition payload_from_decision (d : AdmissionDecision) : AdmissionDecisionPayload :=
  match d with
  | AdmAccept => PlAccept
  | AdmReject reason => PlReject reason
  | AdmRequiresRelatedEvents filters => PlRequiresRelatedEvents (AdmissionFilter_from_event <$> filters)
  end.

Definition decide_handler (mode : RelayCompatibilityMode) (admin_keys : list string) (now later : N)
    (p : AdmissionRequestPayload) : stateful (R * AdmissionCache) AdmissionHttpError AdmissionDecisionPayload :=
  request ← lift (map_err (λ err, AmBadRequest (AdmissionRequestError_display err))
    (AdmissionRequest_new (rq_kind p) (rq_pubkey p) (rq_event_id p) (rq_tags p) (rq_relay_url p) (rq_source_ip p)));
  decision ← map_err_st AdmissionHttpError_from (evaluate_request_cached_mode request mode admin_keys now later);
  mret (payload_from_decision decision).
End Cache.

(** ** The rate limiter *)

Record RateLimitConfig := mkRateLimitConfig { rl_per_ip : Z; rl_per_pubkey : Z; rl_window : N }.
Definition RateLimitConfig_default : RateLimitConfig := mkRateLimitConfig 120 60 60000000000.
Record RateLimitCounter := mkRateLimitCounter { rlc_count : Z; rlc_window_start : N }.
Record AdmissionRateLimiter := mkAdmissionRateLimiter {
  arl_config : RateLimitConfig;
  arl_ip_counters : gmap string RateLimitCounter;
  arl_pubkey_counters : gmap string RateLimitCounter
}.
Definition AdmissionRateLimiter_new (config : RateLimitConfig) : AdmissionRateLimiter :=
  mkAdmissionRateLimiter config ∅ ∅.

(** A poisoned lock is used as it is.  [count += 1] cannot overflow below the limit. *)
Definition admission_hit_limit (window : N) (counters : gmap string RateLimitCounter) (key : string) (limit : Z)
    (now : N) : bool * gmap string RateLimitCounter :=
  if bool_decide (limit = 0)%Z then (false, counters)
  else
    let entry := default (mkRateLimitCounter 0 now) (counters !! key) in
    let entry := if (window <=? now - rlc_window_start entry)%N then mkRateLimitCounter 0 now else entry in
    if bool_decide (limit ≤ rlc_count entry)%Z then (true, <[key := entry]> counters)
    else (false, <[key := mkRateLimitCounter (rlc_count entry + 1) (rlc_window_start entry)]> counters).

(** The instants are those of the two readings of the clock. *)
Definition RateLimiter_check (r : AdmissionRequest) (ip_now pubkey_now : N) (l : AdmissionRateLimiter)
    : option AdmissionDecision * AdmissionRateLimiter :=
  let c := arl_config l in
  let '(ip_hit, ips) :=
    match aq_source_ip r with
    | Some ip => admission_hit_limit (rl_window c) (arl_ip_counters l) ip (rl_per_ip c) ip_now
    | None => (false, arl_ip_counters l)
    end in
  if ip_hit then (Some (AdmReject "rate limit exceeded for ip"), mkAdmissionRateLimiter c ips (arl_pubkey_counters l))
  else
    let '(hit, pubkeys) :=
      admission_hit_limit (rl_window c) (arl_pubkey_counters l) (aq_pubkey r) (rl_per_pubkey c) pubkey_now in
    (if hit then Some (AdmReject "rate limit exceeded for pubkey") else None, mkAdmissionRateLimiter c ips pubkeys).

(** ** The decision in strict mode *)

Definition admitted (d : AdmissionDecision) : Prop := ∀ reason, d ≠ AdmReject reason.

Section Strict.
Context `{UrlLib} `{Bech32Lib} {R : Type} `{AnnouncementRepository R} `{RelayCompatibilityRepository R}.
Context `{StateRepository R} `{HexLib}.

(** What the policy says of a request, apart from relay and repository: the kind fits, a
    control event is that of an administrator, whose key may be written in another case,
    and the core decides on other events. *)
Definition policy (r : AdmissionRequest) (keys : list string) (d : AdmissionDecision) : Prop :=
  (0 ≤ aq_kind r ≤ u32_max)%Z ∧
  if decide (aq_kind r = KIND_GITTREE_CONTROL)
  then d = AdmAccept ∧ ∃ key, key ∈ keys ∧ to_ascii_lowercase key = to_ascii_lowercase (aq_pubkey r)
  else evaluate_admission (aq_kind r) (aq_pubkey r) (aq_event_id r) (aq_tags r) (aq_relay_url r) = Ok d.

(** The values of the filters for the tag [a], in order. *)
Definition filter_addresses (filters : list EventFilter) : list string :=
  filters ≫= λ f, default [] (ef_tags f !! "a").
Definition no_address (value : string) : Prop := ∀ address, RepoAddress_parse value ≠ Ok address.
Definition address_tag (tag : list string) : Prop := ∃ name rest, tag = name :: rest ∧ (name = "a" ∨ name = "A").

(** The repository that related events belong to: the first address that the filters name,
    and without one the address in the first tag [a] or [A] of the event. *)
Definition related_address (r : AdmissionRequest) (filters : list EventFilter) (address : RepoAddress) : Prop :=
  (∃ before value after, filter_addresses filters = before ++ value :: after ∧ Forall no_address before ∧
     RepoAddress_parse value = Ok address) ∨
  Forall no_address (filter_addresses filters) ∧
  ∃ before name value rest after, aq_tags r = before ++ (name :: value :: rest) :: after ∧
    (name = "a" ∨ name = "A") ∧ Forall (λ tag, ¬ address_tag tag) before ∧ RepoAddress_parse value = Ok address.

(** What a decision that admits stands on: the record of the relay, and an announcement or
    else a state of the repository, as the storage answers for them. *)
Definition relay_known (r : AdmissionRequest) (s s1 : R) : Prop :=
  match aq_relay_url r with
  | None => s1 = s
  | Some url => ∃ record, relay_compatibility url s = (Ok (Some record), s1) ∧ rcr_compatible record = true
  end.
Definition announced_or_stated (address : RepoAddress) (s s1 : R) : Prop :=
  ∃ pubkey, hex_decode (ra_pubkey address) = Some pubkey ∧
    ((∃ a, latest_announcement pubkey (ra_identifier address) s = (Ok (Some a), s1)) ∨
     (∃ s0 st, latest_announcement pubkey (ra_identifier address) s = (Ok None, s0) ∧
        repo_latest_state pubkey (ra_identifier address) s0 = (Ok (Some st), s1))).
Definition repository_known (r : AdmissionRequest) (d : AdmissionDecision) (s s1 : R) : Prop :=
  match d with
  | AdmRequiresRelatedEvents filters =>
      ∃ address, related_address r filters address ∧ announced_or_stated address s s1
  | _ => s1 = s
  end.

Lemma is_control_admin_true pubkey keys :
  is_control_admin pubkey keys = true ↔ ∃ key, key ∈ keys ∧ to_ascii_lowercase key = to_ascii_lowercase pubkey.
Proof.
  unfold is_control_admin. rewrite existsb_true. unfold eq_ignore_ascii_case. by setoid_rewrite bool_decide_eq_true.
Qed.

Lemma policy_decided r keys d :
  admitted d → evaluate_request_with_admin_keys r keys = Ok d ↔ policy r keys d.
Proof.
  intros Ha. unfold evaluate_request_with_admin_keys, policy, kind_u32.
  destruct (in_range 0 u32_max (aq_kind r)) eqn:Er; [apply in_range_true in Er|]; simpl.
  2: { split; [done|]. intros [Hk%in_range_true _]. congruence. }
  case_bool_decide; [rewrite decide_True by done|rewrite decide_False by done; rewrite map_err_Ok; naive_solver].
  rewrite <-is_control_admin_true. destruct (is_control_admin _ _); split; try naive_solver.
  intros [= <-]. by edestruct Ha.
Qed.

Lemma filters_searched filters :
  repo_address_from_filters filters = find_map (λ value, ok (RepoAddress_parse value)) (filter_addresses filters).
Proof.
  unfold repo_address_from_filters, filter_addresses. induction filters as [|f filters IH]; simpl; [done|].
  rewrite find_map_app. by destruct (find_map _ (default [] _)).
Qed.

Lemma unparsed value : ok (RepoAddress_parse value) = None ↔ no_address value.
Proof. unfold no_address. destruct (RepoAddress_parse value); naive_solver. Qed.

Lemma first_tag_address tags address : repo_address_from_tags tags = Ok address ↔
  ∃ before name value rest after, tags = before ++ (name :: value :: rest) :: after ∧
    (name = "a" ∨ name = "A") ∧ Forall (λ tag, ¬ address_tag tag) before ∧ RepoAddress_parse value = Ok address.
Proof.
  split.
  - induction tags as [|[|name rest] tags IH]; simpl; [done| |].
    + intros (before & n & v & rest & after & -> & Hn & Hb & Hv)%IH. exists ([] :: before), n, v, rest, after.
      split_and!; [done|done| |done]. constructor; [|done]. by intros (? & ? & ? & _).
    + destruct (orb _ _) eqn:En.
      * destruct rest as [|value rest]; [done|]. intros Hv. exists [], name, value, rest, tags.
        apply orb_true_iff in En. rewrite !String.eqb_eq in En. by split_and!.
      * intros (before & n & v & rest' & after & -> & Hn & Hb & Hv)%IH. exists ((name :: rest) :: before), n, v, rest', after.
        apply orb_false_iff in En. rewrite !String.eqb_neq in En. split_and!; [done|done| |done]. constructor; [|done].
        intros (n' & ? & [= <- <-] & ?). naive_solver.
  - intros (before & name & value & rest & after & -> & Hn & Hb & Hv). induction Hb as [|tag before Ht Hb IH]; simpl.
    + by destruct Hn as [-> | ->].
    + destruct tag as [|n l]; [done|]. destruct (orb _ _) eqn:En; [|done]. exfalso. apply Ht. exists n, l.
      apply orb_true_iff in En. rewrite !String.eqb_eq in En. done.
Qed.

Lemma related_address_found r filters address : related_address r filters address ↔
  match repo_address_from_filters filters with
  | Some a => Some a
  | None => ok (repo_address_from_tags (aq_tags r))
  end = Some address.
Proof.
  unfold related_address. rewrite <-first_tag_address, filters_searched.
  assert (∀ l, Forall (λ value, ok (RepoAddress_parse value) = None) l ↔ Forall no_address l) as Hn
    by (intros l; apply Forall_iff; apply unparsed).
  rewrite <-Hn. setoid_rewrite <-Hn. setoid_rewrite <-ok_Some. rewrite <-find_map_None, <-find_map_Some.
  destruct (find_map _ _); naive_solver.
Qed.

Lemma repo_exists_true address s s1 : repo_exists address s = (Ok true, s1) ↔ announced_or_stated address s s1.
Proof.
  unfold repo_exists, announced_or_stated, mbind, stateful_bind, lift.
  destruct (hex_decode (ra_pubkey address)) as [pubkey|]; simpl; [|naive_solver].
  destruct (latest_announcement pubkey (ra_identifier address) s) as [[[a|]|] s0] eqn:Ea; simpl.
  - split.
    + intros [= <-]. exists pubkey. rewrite Ea. eauto.
    + intros (? & [= <-] & [(? & E)|(? & ? & E & _)]); rewrite Ea in E; by simplify_eq.
  - destruct (repo_latest_state pubkey (ra_identifier address) s0) as [[[st|]|] s2] eqn:Es; simpl.
    1: split; [intros [= <-]; exists pubkey; eauto 8|].
    all: try (split; [done|]); intros (? & [= <-] & [(? & E)|(? & ? & E & E')]); rewrite Ea in E; simplify_eq; try rewrite Es in *; by simplify_eq.
  - split; [done|]. intros (? & [= <-] & [(? & E)|(? & ? & E & _)]); rewrite Ea in E; by simplify_eq.
Qed.

Lemma check_related_Ok r d s d' s' :
  check_related r d s = (Ok d', s') → admitted d' → d' = d ∧ repository_known r d s s'.
Proof.
  unfold check_related, repository_known. intros E Ha.
  destruct d as [|reason|filters]; [by injection E as <- <-..|].
  setoid_rewrite related_address_found. setoid_rewrite <-repo_exists_true.
  destruct (match repo_address_from_filters filters with Some _ => _ | None => _ end) as [a|];
    [|injection E as <- <-; by edestruct Ha].
  destruct (repo_exists a s) as [[[]|] s1] eqn:Er; injection E as <- <-; try by edestruct Ha.
  split; [done|]. by exists a.
Qed.

Lemma check_related_known r d s s' : repository_known r d s s' → check_related r d s = (Ok d, s').
Proof.
  unfold check_related, repository_known. destruct d as [|reason|filters]; try by intros ->.
  setoid_rewrite related_address_found. setoid_rewrite <-repo_exists_true. intros (a & -> & Hr). by rewrite Hr.
Qed.

(** The decision of an evaluation that admits. *)
Lemma strict_evaluation r keys s d s' :
  admitted d →
  evaluate_request_with_storage_mode r CompatStrict keys s = (Ok d, s') ↔
  policy r keys d ∧ ∃ s1, relay_known r s s1 ∧ repository_known r d s1 s'.
Proof.
  intros Ha. rewrite <-policy_decided by done.
  unfold evaluate_request_with_storage_mode, mbind, stateful_bind, lift, check_relay, relay_known. split.
  - destruct (evaluate_request_with_admin_keys r keys) as [d0|]; [|done]. intros E.
    destruct (aq_relay_url r) as [url|].
    + destruct (relay_compatibility url s) as [[[record|]|] s1] eqn:Er;
        [destruct (rcr_compatible record) eqn:Ec|..]; try (injection E as <- <-; by edestruct Ha).
      apply check_related_Ok in E as [-> Hk]; [|done]. split; [done|]. exists s1. eauto.
    + apply check_related_Ok in E as [-> Hk]; [|done]. split; [done|]. by exists s.
  - intros [-> (s1 & Hr & Hk)]. destruct (aq_relay_url r) as [url|].
    + destruct Hr as (record & -> & ->). by apply check_related_known.
    + subst. by apply check_related_known.
Qed.

(** A request that the cache has no answer for is evaluated. *)
Lemma cache_missed `{HashOrder} r mode keys now later s c :
  (admission_cache_get (admission_cache_key r) now c).1 = None →
  ∀ d s', (∃ c', evaluate_request_cached_mode r mode keys now later (s, c) = (Ok d, (s', c'))) ↔
    evaluate_request_with_storage_mode r mode keys s = (Ok d, s').
Proof.
  intros Hc d s'. unfold evaluate_request_cached_mode. simpl.
  destruct (admission_cache_get _ now c) as [o c1]. simpl in Hc. subst o.
  destruct (evaluate_request_with_storage_mode r mode keys s) as [[d0|] s0]; split; naive_solver.
Qed.

(** C12: what the service decides in strict mode, unless it repeats a decision of its cache
    (which it does for the time to live, also for another relay: [cached_across_relays]):
    it admits an event exactly when its kind fits in 32 bits; a control event is by one of
    the administrators, and any other event is admitted by the policy of the core; the
    relay that asks, if it is named, is on record as compatible; and for an event that
    needs related events, the repository that the filters of the core or else the tags name
    is announced, or has a state, under the key of its address.  The decision is then the
    core's, or that to accept; a read that fails rejects. *)
Theorem strict_admission `{HashOrder} r keys now later s c d s' :
  admitted d → (admission_cache_get (admission_cache_key r) now c).1 = None →
  (∃ c', evaluate_request_cached_mode r CompatStrict keys now later (s, c) = (Ok d, (s', c'))) ↔
  policy r keys d ∧ ∃ s1, relay_known r s s1 ∧ repository_known r d s1 s'.
Proof.
  intros Ha Hc. rewrite <-strict_evaluation by done. by apply cache_missed.
Qed.

(** Whatever the mode, a control event is admitted for an administrator only. *)
Lemma control_evaluated r mode keys s d s' :
  evaluate_request_with_storage_mode r mode keys s = (Ok d, s') → admitted d →
  aq_kind r = KIND_GITTREE_CONTROL → is_control_admin (aq_pubkey r) keys = true.
Proof.
  intros (d0 & s0 & [Hd ->]%lift_Ok & E)%stateful_bind_Ok Ha Hk.
  unfold evaluate_request_with_admin_keys, kind_u32 in Hd. rewrite Hk in Hd. simpl in Hd.
  destruct (is_control_admin (aq_pubkey r) keys); [done|]. injection Hd as <-.
  exfalso. unfold check_relay in E.
  assert (∃ reason, d = AdmReject reason) as [reason ->]; [|by eapply Ha].
  destruct (aq_relay_url r); [|injection E as <- <-; eauto].
  destruct (relay_compatibility _ s) as [[[record|]|] s1]; [destruct (rcr_compatible record)|..];
    injection E as <- <-; destruct mode; eauto.
Qed.
End Strict.

(** ** The cache over a history of requests *)

Section History.
Context `{HashOrder} `{UrlLib} `{Bech32Lib} {R : Type} `{AnnouncementRepository R} `{RelayCompatibilityRepository R}.
Context `{StateRepository R} `{HexLib}.
Context (mode : RelayCompatibilityMode) (keys : list string).

(** [d] was decided for a request with the key [key], and stored at [t]. *)
Inductive evaluated (key : string) (d : AdmissionDecision) : Prop :=
| evaluated_intro r (s s' : R) : admission_cache_key r = key →
    contains_char ":" (aq_pubkey r) = false → (0 ≤ aq_kind r)%Z →
    evaluate_request_with_storage_mode r mode keys s = (Ok d, s') → evaluated key d.

(** The states of a service that started with an empty cache.  Between requests the
    repositories change in any way.  Public keys have no colon, kinds are unsigned. *)
Inductive reachable : R * AdmissionCache → Prop :=
| reachable_start s config : reachable (s, AdmissionCache_new config)
| reachable_repos s s' c : reachable (s, c) → reachable (s', c)
| reachable_decide s r now later res s' : reachable s →
    contains_char ":" (aq_pubkey r) = false → (0 ≤ aq_kind r)%Z →
    evaluate_request_cached_mode r mode keys now later s = (res, s') → reachable s'.

Definition entries_evaluated (c : AdmissionCache) : Prop :=
  ∀ key e, adc_entries c !! key = Some e → evaluated key (ce_value e).

Lemma foldl_delete_Some {T} (l : list (string * CacheEntry T)) m key e :
  foldl (λ m p, delete p.1 m) m l !! key = Some e → (m : gmap string (CacheEntry T)) !! key = Some e.
Proof.
  revert m. induction l as [|p l IH]; intros m; simpl; [done|]. intros Hk%IH.
  by apply lookup_delete_Some in Hk as [_ ?].
Qed.

Lemma evict_Some config m key e : admission_evict_if_needed config m !! key = Some e → m !! key = Some e.
Proof.
  unfold admission_evict_if_needed. destruct (_ =? 0); [done|]. destruct (_ <=? _); [done|]. apply foldl_delete_Some.
Qed.

Lemma cache_get_evaluated key now c o c' :
  admission_cache_get key now c = (o, c') → entries_evaluated c →
  entries_evaluated c' ∧ ∀ d, o = Some d → evaluated key d.
Proof.
  unfold admission_cache_get. intros E Hc. destruct (_ || _); [by injection E as <- <-|].
  destruct (adc_entries c !! key) as [e|] eqn:Ek; [|by injection E as <- <-].
  destruct (admission_is_fresh c now e); injection E as <- <-.
  - split; [done|]. intros d [= <-]. by apply Hc.
  - split; [|done]. intros k x Hk. simpl in Hk. apply lookup_delete_Some in Hk as [_ Hk]. by apply Hc.
Qed.

Lemma decided_evaluated r now later s d s' :
  evaluate_request_cached_mode r mode keys now later s = (d, s') →
  contains_char ":" (aq_pubkey r) = false → (0 ≤ aq_kind r)%Z → entries_evaluated s.2 →
  entries_evaluated s'.2 ∧ ∀ x, d = Ok x → evaluated (admission_cache_key r) x.
Proof.
  unfold evaluate_request_cached_mode. intros E Hcol Hkind Hc.
  destruct (admission_cache_get _ now s.2) as [o c] eqn:Eg.
  destruct (cache_get_evaluated _ _ _ _ _ Eg Hc) as [Hc' Ho]. destruct o as [d0|].
  { injection E as <- <-. split; [done|]. intros x [= <-]. by apply Ho. }
  destruct (evaluate_request_with_storage_mode r mode keys s.1) as [[d0|e] repos] eqn:Ee; injection E as <- <-; [|by split].
  assert (evaluated (admission_cache_key r) d0) as He by (by econstructor).
  split; [|by intros x [= <-]]. simpl. unfold admission_cache_insert. destruct (_ || _); [done|].
  intros key x Hx%evict_Some. simpl in Hx. rewrite lookup_insert in Hx.
  case_decide; [subst; by injection Hx as <-|by apply Hc'].
Qed.

Lemma reachable_evaluated s : reachable s → entries_evaluated s.2.
Proof.
  induction 1 as [s config|s s' c _ IH|s r now later res s' _ IH Hcol Hk E]; [done|exact IH|].
  by eapply decided_evaluated.
Qed.

(** A decision is found again for the same kind, author and event only. *)
Lemma cache_key_inj r r' :
  contains_char ":" (aq_pubkey r) = false → contains_char ":" (aq_pubkey r') = false →
  (0 ≤ aq_kind r)%Z → (0 ≤ aq_kind r')%Z → admission_cache_key r = admission_cache_key r' →
  aq_kind r = aq_kind r' ∧ aq_pubkey r = aq_pubkey r' ∧ aq_event_id r = aq_event_id r'.
Proof.
  intros Hp Hp' Hk Hk' E. unfold admission_cache_key in E.
  assert (∀ x, ":" +:+ x = String ":" x) as Hs by done. rewrite !Hs in E.
  apply (f_equal (split_once ":")) in E. rewrite !split_once_app in E by (by apply pretty_no_colon).
  injection E as E1 E2. apply (inj pretty) in E1. apply (f_equal (split_once ":")) in E2.
  rewrite !split_once_app in E2 by done. by injection E2 as -> ->.
Qed.

(** Whatever the history of a service, its cache and its mode, a control event that it
    does not reject has an administrator for author. *)
Lemma control_admins_only s r now later d s' :
  reachable s → contains_char ":" (aq_pubkey r) = false → aq_kind r = KIND_GITTREE_CONTROL →
  evaluate_request_cached_mode r mode keys now later s = (Ok d, s') → admitted d →
  is_control_admin (aq_pubkey r) keys = true.
Proof.
  intros Hs Hcol Hk E Ha.
  destruct (decided_evaluated _ _ _ _ _ _ E Hcol ltac:(by rewrite Hk) (reachable_evaluated _ Hs)) as [_ He].
  destruct (He _ eq_refl) as [r0 s0 s1 Hkey Hcol0 Hk0 E0].
  destruct (cache_key_inj r0 r) as (Hkk & Hpp & _); [done|done|done|by rewrite Hk|done|].
  rewrite <-Hpp. eapply control_evaluated; [done|done|congruence].
Qed.

Lemma cache_insert_lookup key d now c :
  cache_enabled (adc_config c) = true → adc_poisoned c = false →
  size (adc_entries c) < cc_max_entries (adc_config c) →
  adc_entries (admission_cache_insert key d now c) !! key = Some (mkCacheEntry d now).
Proof.
  intros He Hp Hsize. unfold admission_cache_insert, admission_evict_if_needed. rewrite He, Hp. simpl.
  unfold cache_enabled in He. apply Nat.ltb_lt in He.
  rewrite (proj2 (Nat.eqb_neq _ _)) by lia.
  rewrite (proj2 (Nat.leb_le _ _)); [by rewrite lookup_insert_eq|].
  destruct (adc_entries c !! key) as [x|] eqn:Ek.
  - rewrite map_size_insert_Some; [lia|by rewrite Ek].
  - rewrite map_size_insert_None; [lia|done].
Qed.

(** A decision is reused for another relay: once an event was decided for the relay that
    asked first, the answer is the same for every relay that asks within the time to live,
    whatever its compatibility record and the repositories say; the key of the cache has
    the kind, the author and the event, and not the relay. *)
Lemma cached_across_relays r r' now later now' later' s c d s1 ttl (repos : R) :
  aq_kind r' = aq_kind r → aq_pubkey r' = aq_pubkey r → aq_event_id r' = aq_event_id r →
  cc_ttl (adc_config c) = Some ttl → adc_poisoned c = false →
  size (adc_entries c) < cc_max_entries (adc_config c) → adc_entries c !! admission_cache_key r = None →
  evaluate_request_cached_mode r mode keys now later (s, c) = (Ok d, s1) →
  (now' - later < ttl)%N →
  evaluate_request_cached_mode r' mode keys now' later' (repos, s1.2) = (Ok d, (repos, s1.2)).
Proof.
  intros Hk Hp Hi Httl Hpoison Hsize Hmiss E Hfresh.
  assert (cache_enabled (adc_config c) = true) as Hen by (apply Nat.ltb_lt; lia).
  assert (admission_cache_key r' = admission_cache_key r) as Hkey by (unfold admission_cache_key; congruence).
  unfold evaluate_request_cached_mode in *. simpl in E. unfold admission_cache_get in E at 1.
  rewrite Hen, Hpoison, Hmiss in E. simpl in E.
  destruct (evaluate_request_with_storage_mode r mode keys s) as [[d0|] repos0]; [|done].
  injection E as <- <-. simpl. rewrite Hkey.
  pose proof (cache_insert_lookup (admission_cache_key r) d0 later c Hen Hpoison Hsize) as Hl.
  assert (adc_config (admission_cache_insert (admission_cache_key r) d0 later c) = adc_config c ∧
          adc_poisoned (admission_cache_insert (admission_cache_key r) d0 later c) = adc_poisoned c) as [Hc1 Hc2]
    by (unfold admission_cache_insert; by destruct (_ || _)).
  unfold admission_cache_get at 1. rewrite Hc1, Hc2, Hen, Hpoison, Hl. simpl.
  unfold admission_is_fresh. rewrite Hc1, Httl. simpl. by rewrite (proj2 (N.ltb_lt _ _) Hfresh).
Qed.
End History.

(** ** Two relays, one of them compatible *)

Module AdmissionSample.
#[local] Existing Instances sample_hash_order sample_url_lib sample_bech32_lib hex_model.
#[local] Instance announcements : AnnouncementRepository (gmap string RelayCompatibilityRecord) := {|
  insert_announcement _ := read_mem (λ _, tt);
  list_announcements _ _ := read_mem (λ _, []);
  latest_announcement pubkey identifier := read_mem (λ _, None)
|}.
#[local] Instance states : StateRepository (gmap string RelayCompatibilityRecord) := {|
  insert_state _ := read_mem (λ _, tt);
  repo_latest_state pubkey identifier := read_mem (λ _,
    if bool_decide (identifier = "r") then Some (mkRepoStateRecord "id" pubkey identifier 1 "") else None)
|}.
#[local] Instance relays : RelayCompatibilityRepository (gmap string RelayCompatibilityRecord) := {|
  upsert_relay_compatibility r := write_mem (<[rcr_relay_url r := r]>);
  relay_compatibility u := read_mem (lookup u)
|}.
Definition record (url : string) (compatible : bool) : RelayCompatibilityRecord :=
  mkRelayCompatibilityRecord url compatible [] [] [] "" None true None None 0.
Definition repos : gmap string RelayCompatibilityRecord :=
  {["wss://a" := record "wss://a" true; "wss://b" := record "wss://b" false]}.
Definition request (kind : Z) (url : string) : AdmissionRequest :=
  mkAdmissionRequest kind "ab" "e1" [] (Some url) None.
Definition cache : AdmissionCache := AdmissionCache_new AdmissionCacheConfig_default.

(** An issue of a repository that has a state. *)
Definition owner_hex : string := "aaaaaaaaaaaaaaaaaaaaaaaaaaaaaaaaaaaaaaaaaaaaaaaaaaaaaaaaaaaaaaaa".
Definition issue : AdmissionRequest :=
  mkAdmissionRequest 1621 "ab" "e1" [["a"; "30617:" +:+ owner_hex +:+ ":r"]; ["p"; owner_hex]; ["subject"; "s"]] (Some "wss://a") None.

Lemma strict_admission_witness :
  is_ok (evaluate_request_cached_mode issue CompatStrict [] 1 2 (repos, cache)).1 = true ∧
  ∃ d s1 s', admitted d ∧ d ≠ AdmAccept ∧ policy issue [] d ∧ relay_known issue repos s1 ∧ repository_known issue d s1 s'.
Proof.
  destruct (evaluate_request_cached_mode issue CompatStrict [] 1 2 (repos, cache))
    as [r [s' c']] eqn:E.
  assert (∃ f, r = Ok (AdmRequiresRelatedEvents f)) as [f ->] by (vm_compute in E; injection E as <- _; by eexists).
  split; [done|].
  destruct (proj1 (strict_admission issue [] 1 2 repos cache (AdmRequiresRelatedEvents f) s' ltac:(done) ltac:(by vm_compute))
    (ex_intro _ c' E)) as (Hp & s1 & Hr & Hk).
  by exists (AdmRequiresRelatedEvents f), s1, s'.
Defined.

Lemma control_admins_only_witness :
  is_ok (evaluate_request_cached_mode (request KIND_GITTREE_CONTROL "wss://a") CompatStrict ["AB"] 1 2 (repos, cache)).1 = true ∧
  is_control_admin "ab" ["AB"] = true.
Proof.
  destruct (evaluate_request_cached_mode (request KIND_GITTREE_CONTROL "wss://a") CompatStrict ["AB"] 1 2 (repos, cache))
    as [r s'] eqn:E.
  assert (r = Ok AdmAccept) as -> by (vm_compute in E; congruence). split; [done|].
  apply (control_admins_only CompatStrict ["AB"] (repos, cache) (request KIND_GITTREE_CONTROL "wss://a") 1 2 AdmAccept s');
    [constructor|done|done|done|done].
Defined.

Lemma cached_across_relays_witness :
  ∃ s1, evaluate_request_cached_mode (request KIND_GIT_REPO_STATE "wss://a") CompatStrict [] 1 2 (repos, cache) =
      (Ok AdmAccept, s1) ∧
    evaluate_request_cached_mode (request KIND_GIT_REPO_STATE "wss://b") CompatStrict [] 5 6 (repos, s1.2) =
      (Ok AdmAccept, (repos, s1.2)) ∧
    (evaluate_request_with_storage_mode (request KIND_GIT_REPO_STATE "wss://b") CompatStrict [] repos).1 =
      Ok (AdmReject "relay incompatible: wss://b").
Proof.
  destruct (evaluate_request_cached_mode (request KIND_GIT_REPO_STATE "wss://a") CompatStrict [] 1 2 (repos, cache))
    as [r s1] eqn:E.
  assert (r = Ok AdmAccept) as -> by (vm_compute in E; congruence). exists s1. split; [done|]. split.
  - apply (cached_across_relays CompatStrict [] (request KIND_GIT_REPO_STATE "wss://a") (request KIND_GIT_REPO_STATE "wss://b")
      1 2 5 6 repos cache AdmAccept s1 30000000000 repos); try done.
    by apply Nat.ltb_lt; vm_compute.
  - by vm_compute.
Defined.
End AdmissionSample.
