(* ===== verification/RelaySession.v ===== *)
(** * [RelaySession]: a client session of the relay

    Models [services/relay/src/session.rs]: the session state and every message
    handler.  The store and the membership repository are any types with the
    operations of [EventStore] and [RelayMembershipRepository]; the handlers
    return the messages they send and the state they leave.

    What a handler reads from outside is its [Env]: the clock, the monotonic
    instant of the rate limiter and the random bytes of an invitation code; each
    handler reads each of them at most once.  The events sent to the broadcast
    channel are appended to a list.  Metrics counters are not modelled.

    The retention loop repeats until a query is empty; it takes fuel, and a
    handler that runs it returns [None] when the fuel runs out. *)

From S2P Require Import Prelude RustStr CoreTypes Externals EventFilters RelayEvent RelayStore.
From S2P Require Import Membership RelayProtocol.

(** The codec serde derives for [NostrEvent]. *)
Class EventCodec := {
  event_from_value : json → option NostrEvent;
  event_to_value : NostrEvent → json
}.

Definition AUTH_KIND : Z := 22242.
Definition AUTH_REQUIRED_REASON : string := "auth-required".
Definition AUTH_PUBKEY_MISMATCH_REASON : string := "auth-pubkey-mismatch".
Definition AUTH_MAX_SKEW_SECS : Z := 600.
Definition NIP43_MEMBERSHIP_KIND : Z := 13534.
Definition NIP43_JOIN_KIND : Z := 28934.
Definition NIP43_INVITE_KIND : Z := 28935.
Definition NIP43_LEAVE_KIND : Z := 28936.
Definition MEMBERSHIP_STATUS_ACTIVE : string := "active".
Definition MEMBERSHIP_STATUS_LEFT : string := "left".
Definition DEFAULT_INVITE_ROLE : string := "member".
Definition INVITE_TTL_SECS : Z := 86400.
Definition restricted (s : string) : string := "restricted: " +:+ s.
Definition duplicate (s : string) : string := "duplicate: " +:+ s.
Definition info (s : string) : string := "info: " +:+ s.

(** ** The parts of a session *)

Record AuthState := mkAuthState { au_challenge : string; au_pubkey : option string }.

Record RateLimitConfig := mkRateLimitConfig {
  rl_max_events_per_min : option Z;
  rl_max_requests_per_min : option Z;
  rl_window : Z   (* nanoseconds *)
}.

Definition RateLimitConfig_from_policy (p : Policy) : option RateLimitConfig :=
  if is_none (p_max_events_per_min p) && is_none (p_max_requests_per_min p) then None
  else Some (mkRateLimitConfig (p_max_events_per_min p) (p_max_requests_per_min p) 60000000000).

Record RateLimitCounter := mkRateLimitCounter { ctr_count : Z; ctr_window_start : Z }.

Record RateLimiter := mkRateLimiter {
  lim_config : RateLimitConfig;
  lim_events : RateLimitCounter;
  lim_requests : RateLimitCounter
}.

Definition RateLimiter_new (config : RateLimitConfig) (now : Z) : RateLimiter :=
  mkRateLimiter config (mkRateLimitCounter 0 now) (mkRateLimitCounter 0 now).

(** [duration_since] is zero when the instant is earlier. *)
Definition hit_limit (counter : RateLimitCounter) (limit : option Z) (window now : Z)
    : bool * RateLimitCounter :=
  match limit with
  | None => (false, counter)
  | Some limit =>
      if bool_decide (limit = 0%Z) then (false, counter)
      else
        let counter :=
          if bool_decide (window ≤ Z.max 0 (now - ctr_window_start counter))%Z
          then mkRateLimitCounter 0 now else counter in
        if bool_decide (limit ≤ ctr_count counter)%Z then (true, counter)
        else (false, mkRateLimitCounter (ctr_count counter + 1) (ctr_window_start counter))
  end.

Definition check_event (l : RateLimiter) (now : Z) : bool * RateLimiter :=
  let '(hit, c) := hit_limit (lim_events l) (rl_max_events_per_min (lim_config l))
                     (rl_window (lim_config l)) now in
  (hit, mkRateLimiter (lim_config l) c (lim_requests l)).
Definition check_request (l : RateLimiter) (now : Z) : bool * RateLimiter :=
  let '(hit, c) := hit_limit (lim_requests l) (rl_max_requests_per_min (lim_config l))
                     (rl_window (lim_config l)) now in
  (hit, mkRateLimiter (lim_config l) (lim_events l) c).

(** What a handler reads from its environment. *)
Record Env := mkEnv { env_now : Z; env_instant : Z; env_random : bytes }.

(** ** Helpers on tags and URLs *)

Definition find_tag_value (tags : tag_list) (name : string) : option string :=
  match List.find (has_name name) tags with Some t => t !! 1 | None => None end.

Definition has_tag (tags : tag_list) (name : string) : bool := existsb (has_name name) tags.

Definition relay_host_from_url (value : string) : option string :=
  let value := trim value in
  if is_empty value then None
  else
    let without_scheme :=
      match strip_prefix "ws://" value with
      | Some r => r
      | None =>
          match strip_prefix "wss://" value with
          | Some r => r
          | None =>
              match strip_prefix "http://" value with
              | Some r => r
              | None => default value (strip_prefix "https://" value)
              end
          end
      end in
    let host := default "" (head (split "/" without_scheme)) in
    if is_empty host then None
    else
      let host := trim_end_matches "." host in
      match strip_prefix "[" host ≫= λ inner, split_once "]" inner with
      | Some (inner, _) => Some (to_ascii_lowercase inner)
      | None => Some (to_ascii_lowercase (default host (head (split ":" host))))
      end.

Definition filters_request_kind (filters : list Filter) (kind : Z) : bool :=
  existsb (λ f, bool_decide (kind ∈ f_kinds f)) filters.

Definition event_matches_filters (event : NostrEvent) (filters : list Filter) : bool :=
  match filters with
  | [] => true
  | _ =>
      match TagIndex_from_tags (ev_tags event) with
      | Err _ => false
      | Ok tags => existsb (λ f, matches f event tags) filters
      end
  end.

Definition membership_response (event_id : string) (accepted : bool) (message : string)
    : list ServerMessage := [SmOk event_id accepted message].

Definition parse_filters (filters : list json) : result FilterError (list Filter) :=
  try_map Filter_from_json filters.

Definition filter_from_event_filter (f : EventFilter) : Filter :=
  mkFilter (ef_ids f) (ef_authors f) (ef_kinds f) None None (ef_limit f) (ef_tags f).

Section Session.
Context {S M : Type} `{EventStore S} `{RelayMembershipRepository M}.
Context `{JsonLib} `{HexLib} `{CryptoLib} `{SignerLib} `{EventCodec}.

Record TenantSigner := mkTenantSigner { ts_pubkey : string; ts_secret_key : SecretKey }.

Definition TenantSigner_new (relay_pubkey relay_secret : bytes) : option TenantSigner :=
  if negb (bool_decide (String.length relay_pubkey = 32)) then None
  else
    secret_key ← secret_from_slice relay_secret;
    Some (mkTenantSigner (hex_encode relay_pubkey) secret_key).

Record Session := mkSession {
  s_registry : SubscriptionRegistry;
  s_store : S;
  s_policy : Policy;
  s_admission : option (RelayEvent → AdmissionDecision);
  s_broadcast : option (list NostrEvent);
  s_auth : option AuthState;
  s_tenant_id : option string;
  s_membership : option M;
  s_tenant_signer : option TenantSigner;
  s_relay_url : option string;
  s_read_auth_required : bool;
  s_write_auth_required : bool;
  s_read_membership_required : bool;
  s_write_membership_required : bool;
  s_rate_limiter : option RateLimiter
}.

(** Assignments to the mutable fields. *)
Definition set_registry (r : SubscriptionRegistry) (s : Session) : Session :=
  mkSession r (s_store s) (s_policy s) (s_admission s) (s_broadcast s) (s_auth s) (s_tenant_id s)
    (s_membership s) (s_tenant_signer s) (s_relay_url s) (s_read_auth_required s)
    (s_write_auth_required s) (s_read_membership_required s) (s_write_membership_required s)
    (s_rate_limiter s).
Definition set_store (st : S) (s : Session) : Session :=
  mkSession (s_registry s) st (s_policy s) (s_admission s) (s_broadcast s) (s_auth s)
    (s_tenant_id s) (s_membership s) (s_tenant_signer s) (s_relay_url s) (s_read_auth_required s)
    (s_write_auth_required s) (s_read_membership_required s) (s_write_membership_required s)
    (s_rate_limiter s).
Definition set_broadcast (b : option (list NostrEvent)) (s : Session) : Session :=
  mkSession (s_registry s) (s_store s) (s_policy s) (s_admission s) b (s_auth s)
    (s_tenant_id s) (s_membership s) (s_tenant_signer s) (s_relay_url s) (s_read_auth_required s)
    (s_write_auth_required s) (s_read_membership_required s) (s_write_membership_required s)
    (s_rate_limiter s).
Definition set_auth (a : option AuthState) (s : Session) : Session :=
  mkSession (s_registry s) (s_store s) (s_policy s) (s_admission s) (s_broadcast s) a
    (s_tenant_id s) (s_membership s) (s_tenant_signer s) (s_relay_url s) (s_read_auth_required s)
    (s_write_auth_required s) (s_read_membership_required s) (s_write_membership_required s)
    (s_rate_limiter s).
Definition set_membership (m : option M) (s : Session) : Session :=
  mkSession (s_registry s) (s_store s) (s_policy s) (s_admission s) (s_broadcast s) (s_auth s)
    (s_tenant_id s) m (s_tenant_signer s) (s_relay_url s) (s_read_auth_required s)
    (s_write_auth_required s) (s_read_membership_required s) (s_write_membership_required s)
    (s_rate_limiter s).
Definition set_rate_limiter (l : option RateLimiter) (s : Session) : Session :=
  mkSession (s_registry s) (s_store s) (s_policy s) (s_admission s) (s_broadcast s) (s_auth s)
    (s_tenant_id s) (s_membership s) (s_tenant_signer s) (s_relay_url s) (s_read_auth_required s)
    (s_write_auth_required s) (s_read_membership_required s) (s_write_membership_required s) l.

(** [generate_challenge]: the hex of 32 random bytes, when authentication is on. *)
Definition auth_state (required : bool) (random : bytes) : option AuthState :=
  if required then Some (mkAuthState (hex_encode random) None) else None.

Definition rate_limiter_of (p : Policy) (instant : Z) : option RateLimiter :=
  (λ c, RateLimiter_new c instant) <$> RateLimitConfig_from_policy p.

(** *** The constructors and builders

    [Instant::now()] of the limiter and the random bytes of the challenge are
    arguments.  The broadcast channel is the list of the events sent on it. *)

Definition Session_with_policy (store : S) (policy : Policy) (instant : Z) : Session :=
  mkSession ∅ store policy None None None None None None None false false false false
    (rate_limiter_of policy instant).

Definition Session_new (store : S) (instant : Z) : Session :=
  mkSession ∅ store Policy_default None None None None None None None false false false false
    (rate_limiter_of Policy_default instant).

Definition Session_with_admission (store : S) (admission : RelayEvent → AdmissionDecision)
    (instant : Z) : Session :=
  mkSession ∅ store Policy_default (Some admission) None None None None None None
    false false false false (rate_limiter_of Policy_default instant).

Definition Session_with_policy_and_admission (store : S) (policy : Policy)
    (admission : RelayEvent → AdmissionDecision) (instant : Z) : Session :=
  mkSession ∅ store policy (Some admission) None None None None None None
    false false false false (rate_limiter_of policy instant).

Definition Session_with_policy_and_auth (store : S) (policy : Policy) (auth_required : bool)
    (instant : Z) (random : bytes) : Session :=
  mkSession ∅ store policy None None (auth_state auth_required random) None None None None
    auth_required auth_required false false (rate_limiter_of policy instant).

Definition Session_with_broadcast (store : S) (policy : Policy)
    (admission : option (RelayEvent → AdmissionDecision)) (broadcast : list NostrEvent)
    (read_auth_required write_auth_required : bool) (instant : Z) (random : bytes) : Session :=
  mkSession ∅ store policy admission (Some broadcast)
    (auth_state (read_auth_required || write_auth_required) random)
    None None None None read_auth_required write_auth_required false false
    (rate_limiter_of policy instant).

Definition with_membership (s : Session) (tenant_id : option string) (membership : option M)
    : Session :=
  mkSession (s_registry s) (s_store s) (s_policy s) (s_admission s) (s_broadcast s) (s_auth s)
    tenant_id membership (s_tenant_signer s) (s_relay_url s) (s_read_auth_required s)
    (s_write_auth_required s) (s_read_membership_required s) (s_write_membership_required s)
    (s_rate_limiter s).

Definition with_membership_requirements (s : Session) (read_required write_required : bool)
    : Session :=
  mkSession (s_registry s) (s_store s) (s_policy s) (s_admission s) (s_broadcast s) (s_auth s)
    (s_tenant_id s) (s_membership s) (s_tenant_signer s) (s_relay_url s) (s_read_auth_required s)
    (s_write_auth_required s) read_required write_required (s_rate_limiter s).

Definition with_relay_signer (s : Session) (relay_pubkey relay_secret : bytes) : Session :=
  mkSession (s_registry s) (s_store s) (s_policy s) (s_admission s) (s_broadcast s) (s_auth s)
    (s_tenant_id s) (s_membership s) (TenantSigner_new relay_pubkey relay_secret) (s_relay_url s)
    (s_read_auth_required s) (s_write_auth_required s) (s_read_membership_required s)
    (s_write_membership_required s) (s_rate_limiter s).

Definition with_relay_url (s : Session) (relay_url : option string) : Session :=
  mkSession (s_registry s) (s_store s) (s_policy s) (s_admission s) (s_broadcast s) (s_auth s)
    (s_tenant_id s) (s_membership s) (s_tenant_signer s) relay_url (s_read_auth_required s)
    (s_write_auth_required s) (s_read_membership_required s) (s_write_membership_required s)
    (s_rate_limiter s).

(** ** Authentication and membership state *)

Definition is_authenticated (s : Session) : bool :=
  match s_auth s with Some state => is_some (au_pubkey state) | None => false end.

Definition authenticated_pubkey (s : Session) : option string :=
  match s_auth s with Some state => au_pubkey state | None => None end.

Definition decode_pubkey_hex (pubkey : string) : result string bytes :=
  ok_or (restricted "invalid pubkey") (hex_decode pubkey).

Definition membership_by_pubkey_bytes (m : M) (tenant_id : string) (pubkey : bytes)
    : result string (option RelayMembershipRecord) :=
  map_err StorageError_display (membership_by_pubkey m tenant_id pubkey).

(** The member record must exist and be active. *)
Definition require_active (m : M) (tenant_id : string) (pubkey : bytes) : result string unit :=
  member ← membership_by_pubkey_bytes m tenant_id pubkey;
  match member with
  | None => Err (restricted "membership required")
  | Some member =>
      fail_if (negb (mr_status member == MEMBERSHIP_STATUS_ACTIVE)) (restricted "membership required")
  end.

Definition require_membership (s : Session) : result string unit :=
  membership ← ok_or (restricted "relay does not support membership") (s_membership s);
  tenant_id ← ok_or (restricted "relay does not support membership") (s_tenant_id s);
  pubkey ← ok_or AUTH_REQUIRED_REASON (authenticated_pubkey s);
  pubkey_bytes ← decode_pubkey_hex pubkey;
  require_active membership tenant_id pubkey_bytes.

Definition ensure_read_membership (s : Session) : result string unit :=
  if negb (s_read_membership_required s) then Ok tt else require_membership s.

Definition ensure_write_membership (s : Session) : result string unit :=
  if negb (s_write_membership_required s) then Ok tt else require_membership s.

Definition initial_messages (s : Session) : list ServerMessage :=
  match s_auth s with Some state => [SmAuth (au_challenge state)] | None => [] end.

(** ** Delivery to subscriptions *)

Definition dispatch_event (s : Session) (event : NostrEvent) : list ServerMessage :=
  match TagIndex_from_tags (ev_tags event) with
  | Err _ => [SmNotice "invalid event tags"]
  | Ok tags =>
      omap (λ '(sub_id, filters),
        match filters with
        | [] => None
        | _ =>
            if existsb (λ f, matches f event tags) filters
            then Some (SmEvent sub_id (event_to_value event)) else None
        end) (registry_iter (s_registry s))
  end.

(** ** Events the relay signs itself

    The two [expect]s of [sign_event] cannot fail on a computed id
    ([sign_event_digest]). *)

Definition sign_event (event : NostrEvent) (signer : TenantSigner) : NostrEvent :=
  let id := compute_id event in
  let id_bytes := default "" (hex_decode id) in
  mkNostrEvent id (ev_pubkey event) (ev_created_at event) (ev_kind event) (ev_tags event)
    (ev_content event) (hex_encode (sign_schnorr (ts_secret_key signer) id_bytes)).

Definition build_membership_list_event (s : Session) (now : Z)
    : result string (option NostrEvent) :=
  match s_membership s, s_tenant_id s, s_tenant_signer s with
  | Some membership, Some tenant_id, Some signer =>
      records ← map_err StorageError_display (list_memberships membership tenant_id);
      let members := List.filter (λ r, mr_status r == MEMBERSHIP_STATUS_ACTIVE) records in
      let tags := ["-"] :: ((λ r, ["member"; hex_encode (mr_pubkey r)]) <$> members) in
      Ok (Some (sign_event
        (mkNostrEvent "" (ts_pubkey signer) now NIP43_MEMBERSHIP_KIND tags "" "") signer))
  | _, _, _ => Ok None
  end.

Definition build_invite_event (s : Session) (now : Z) (random : bytes)
    : result string NostrEvent * Session :=
  match s_membership s, s_tenant_id s, s_tenant_signer s with
  | Some membership, Some tenant_id, Some signer =>
      match authenticated_pubkey s with
      | None => (Err AUTH_REQUIRED_REASON, s)
      | Some pubkey =>
          match (pubkey_bytes ← decode_pubkey_hex pubkey;
                 _ ← require_active membership tenant_id pubkey_bytes;
                 Ok pubkey_bytes) with
          | Err message => (Err message, s)
          | Ok pubkey_bytes =>
              let invite_code := hex_encode random in
              let invite := mkRelayInviteRecord tenant_id invite_code DEFAULT_INVITE_ROLE
                pubkey_bytes None (Some (saturate_i64 (now + INVITE_TTL_SECS))) now in
              let '(res, membership) := insert_invite membership invite in
              let s := set_membership (Some membership) s in
              match res with
              | Err err => (Err (StorageError_display err), s)
              | Ok _ =>
                  (Ok (sign_event (mkNostrEvent "" (ts_pubkey signer) now NIP43_INVITE_KIND
                     [["-"]; ["claim"; invite_code]] "" "") signer), s)
              end
          end
      end
  | _, _, _ => (Err (restricted "relay does not support invites"), s)
  end.

Definition virtual_events (s : Session) (filters : list Filter) (env : Env)
    : result string (list NostrEvent) * Session :=
  let keep (e : NostrEvent) := if event_matches_filters e filters then [e] else [] in
  let listed :=
    if filters_request_kind filters NIP43_MEMBERSHIP_KIND then
      event ← build_membership_list_event s (env_now env);
      Ok (match event with Some e => keep e | None => [] end)
    else Ok [] in
  match listed with
  | Err message => (Err message, s)
  | Ok events =>
      if filters_request_kind filters NIP43_INVITE_KIND then
        let '(res, s) := build_invite_event s (env_now env) (env_random env) in
        match res with
        | Err message => (Err message, s)
        | Ok e => (Ok (events ++ keep e), s)
        end
      else (Ok events, s)
  end.

(** ** Limits *)

Definition validate_filter_limits (s : Session) (filters : list Filter) : option ServerMessage :=
  match p_max_limit (s_policy s) with
  | None => None
  | Some max_limit =>
      if existsb (λ f, match f_limit f with
                       | Some limit => bool_decide (max_limit < limit)%Z
                       | None => false
                       end) filters
      then Some (SmNotice "limit too large") else None
  end.

Definition rate_limit_event (s : Session) (instant : Z) : option ServerMessage * Session :=
  match s_rate_limiter s with
  | None => (None, s)
  | Some limiter =>
      let '(hit, limiter) := check_event limiter instant in
      (if (hit : bool) then Some (SmNotice "rate limited") else None,
       set_rate_limiter (Some limiter) s)
  end.
Definition rate_limit_request (s : Session) (instant : Z) : option ServerMessage * Session :=
  match s_rate_limiter s with
  | None => (None, s)
  | Some limiter =>
      let '(hit, limiter) := check_request limiter instant in
      (if (hit : bool) then Some (SmNotice "rate limited") else None,
       set_rate_limiter (Some limiter) s)
  end.

(** ** Retention *)

Definition retention_filter (cutoff : Z) : Filter := mkFilter [] [] [] None (Some cutoff) (Some 100%Z) ∅.

(** [for event in events { self.store.delete(&event.id).await?; }] *)
Fixpoint delete_all (st : S) (events : list NostrEvent) : result StoreError unit * S :=
  match events with
  | [] => (Ok tt, st)
  | event :: events =>
      let '(res, st) := store_delete st (ev_id event) in
      match res with Err err => (Err err, st) | Ok _ => delete_all st events end
  end.

Fixpoint retention_loop (fuel : nat) (cutoff : Z) (st : S) : option (result StoreError unit * S) :=
  match fuel with
  | 0 => None
  | Datatypes.S fuel =>
      match store_query st [retention_filter cutoff] with
      | Err err => Some (Err err, st)
      | Ok [] => Some (Ok tt, st)
      | Ok events =>
          let '(res, st) := delete_all st events in
          match res with Err err => Some (Err err, st) | Ok _ => retention_loop fuel cutoff st end
      end
  end.

Definition apply_retention (fuel : nat) (p : Policy) (now : Z) (st : S)
    : option (result StoreError unit * S) :=
  match p_retention_max_age_seconds p with
  | None => Some (Ok tt, st)
  | Some max_age =>
      if bool_decide (max_age ≤ 0)%Z then Some (Ok tt, st)
      else retention_loop fuel (saturate_i64 (now - max_age)) st
  end.
(** ** [REQ], [COUNT] and [CLOSE] *)

(** The checks common to [REQ] and [COUNT]: the filters, or the answer. *)
Definition read_gate (s : Session) (subscription_id : string) (filters : list json)
    : result ServerMessage (list Filter) :=
  _ ← fail_if (s_read_auth_required s && negb (is_authenticated s))
        (SmClosed subscription_id AUTH_REQUIRED_REASON);
  _ ← map_err (SmClosed subscription_id) (ensure_read_membership s);
  parsed ← map_err notice_from_filter (parse_filters filters);
  _ ← match validate_filter_limits s parsed with Some notice => Err notice | None => Ok tt end;
  Ok parsed.

Definition too_many_subscriptions (s : Session) (sub_id : string) : bool :=
  match p_max_subscriptions (s_policy s) with
  | Some max =>
      negb (registry_contains (s_registry s) sub_id)
      && bool_decide (max ≤ Z.of_nat (registry_len (s_registry s)))%Z
  | None => false
  end.

Definition handle_req (s : Session) (subscription_id : string) (filters : list json) (env : Env)
    : list ServerMessage * Session :=
  let '(limited, s) := rate_limit_request s (env_instant env) in
  match limited with
  | Some notice => ([notice], s)
  | None =>
      match read_gate s subscription_id filters with
      | Err answer => ([answer], s)
      | Ok parsed =>
          if too_many_subscriptions s subscription_id then ([SmNotice "too many subscriptions"], s)
          else
            match store_query (s_store s) parsed with
            | Err err => ([notice_from_store err], s)
            | Ok events =>
                let '(extra, s) := virtual_events s parsed env in
                match extra with
                | Err message => ([SmClosed subscription_id message], s)
                | Ok extra =>
                    let registry := (registry_insert (s_registry s) subscription_id parsed).2 in
                    let registry := (mark_eose registry subscription_id).2 in
                    (((λ e, SmEvent subscription_id (event_to_value e)) <$> events ++ extra)
                       ++ [SmEose subscription_id],
                     set_registry registry s)
                end
            end
      end
  end.

Definition handle_count (s : Session) (subscription_id : string) (filters : list json) (env : Env)
    : list ServerMessage * Session :=
  let '(limited, s) := rate_limit_request s (env_instant env) in
  match limited with
  | Some notice => ([notice], s)
  | None =>
      match read_gate s subscription_id filters with
      | Err answer => ([answer], s)
      | Ok parsed =>
          match store_query (s_store s) parsed with
          | Err err => ([notice_from_store err], s)
          | Ok events => ([SmCount subscription_id (Z.of_nat (length events))], s)
          end
      end
  end.

Definition handle_close (s : Session) (subscription_id : string) : list ServerMessage * Session :=
  ([], set_registry (registry_remove (s_registry s) subscription_id).2 s).

(** ** Joining and leaving *)

Definition handle_join (s : Session) (m : M) (tenant_id : string) (event : NostrEvent)
    (pubkey : bytes) (now : Z) : list ServerMessage * Session :=
  let reject message := (membership_response (ev_id event) false (restricted message), s) in
  match find_tag_value (ev_tags event) "claim" with
  | None => reject "missing invite code"
  | Some invite_code =>
      match invite_by_code m tenant_id invite_code with
      | Err err => ([SmNotice (StorageError_display err)], s)
      | Ok None => reject "that is an invalid invite code."
      | Ok (Some invite) =>
          if match iv_expires_at invite with
             | Some expires_at => bool_decide (expires_at < now)%Z
             | None => false
             end
          then reject "that invite code is expired."
          else if match iv_invitee_pubkey invite with
                  | Some invitee => negb (invitee == pubkey)
                  | None => false
                  end
          then reject "invite code does not match pubkey."
          else
            match membership_by_pubkey_bytes m tenant_id pubkey with
            | Err err => ([SmNotice err], s)
            | Ok existing =>
                if match existing with
                   | Some record => mr_status record == MEMBERSHIP_STATUS_ACTIVE
                   | None => false
                   end
                then (membership_response (ev_id event) true
                        (duplicate "you are already a member of this relay."), s)
                else
                  let created_at :=
                    match existing with Some record => mr_created_at record | None => now end in
                  let record := mkRelayMembershipRecord tenant_id pubkey (iv_role invite)
                    MEMBERSHIP_STATUS_ACTIVE created_at now in
                  let '(res, m) := upsert_membership m record in
                  let s := set_membership (Some m) s in
                  match res with
                  | Err err => ([SmNotice (StorageError_display err)], s)
                  | Ok _ =>
                      let '(res, m) := delete_invite m tenant_id invite_code in
                      let s := set_membership (Some m) s in
                      match res with
                      | Err err => ([SmNotice (StorageError_display err)], s)
                      | Ok _ =>
                          (membership_response (ev_id event) true (info "welcome to the relay."), s)
                      end
                  end
            end
      end
  end.

Definition handle_leave (s : Session) (m : M) (tenant_id : string) (event : NostrEvent)
    (pubkey : bytes) (now : Z) : list ServerMessage * Session :=
  let reject message := (membership_response (ev_id event) false (restricted message), s) in
  match membership_by_pubkey_bytes m tenant_id pubkey with
  | Err err => ([SmNotice err], s)
  | Ok None => reject "not a member of this relay."
  | Ok (Some record) =>
      if negb (mr_status record == MEMBERSHIP_STATUS_ACTIVE) then reject "not a member of this relay."
      else
        let record := mkRelayMembershipRecord (mr_tenant_id record) (mr_pubkey record)
          (mr_role record) MEMBERSHIP_STATUS_LEFT (mr_created_at record) now in
        let '(res, m) := upsert_membership m record in
        let s := set_membership (Some m) s in
        match res with
        | Err err => ([SmNotice (StorageError_display err)], s)
        | Ok _ => (membership_response (ev_id event) true (info "access revoked."), s)
        end
  end.

(** [None] when the event is not a membership event. *)
Definition handle_membership_event (s : Session) (event : NostrEvent) (now : Z)
    : option (list ServerMessage * Session) :=
  if negb (bool_decide (ev_kind event = NIP43_JOIN_KIND))
     && negb (bool_decide (ev_kind event = NIP43_LEAVE_KIND)) then None
  else
    let reject message := (membership_response (ev_id event) false (restricted message), s) in
    Some
      match s_membership s, s_tenant_id s with
      | Some m, Some tenant_id =>
          if negb (has_tag (ev_tags event) "-") then reject "missing nip-70 tag"
          else
            match hex_decode (ev_pubkey event) with
            | None => reject "invalid pubkey"
            | Some pubkey =>
                if bool_decide (ev_kind event = NIP43_JOIN_KIND)
                then handle_join s m tenant_id event pubkey now
                else handle_leave s m tenant_id event pubkey now
            end
      | _, _ => reject "relay does not support membership"
      end.

(** ** [EVENT] *)

(** The author must be the authenticated key, when writing needs one. *)
Definition write_auth (s : Session) (event : NostrEvent) : result string unit :=
  if negb (s_write_auth_required s) then Ok tt
  else
    match s_auth s with
    | None => Err AUTH_REQUIRED_REASON
    | Some auth =>
        match au_pubkey auth with
        | None => Err AUTH_REQUIRED_REASON
        | Some pubkey =>
            if negb (pubkey == ev_pubkey event) then Err AUTH_PUBKEY_MISMATCH_REASON else Ok tt
        end
    end.

(** Every filter of the decision must find a stored event. *)
Fixpoint check_related (st : S) (event_id : string) (filters : list EventFilter)
    : result ServerMessage unit :=
  match filters with
  | [] => Ok tt
  | filter :: filters =>
      match store_query st [filter_from_event_filter filter] with
      | Err err => Err (notice_from_store err)
      | Ok [] => Err (SmOk event_id false "missing related events")
      | Ok _ => check_related st event_id filters
      end
  end.

Definition admission_gate (s : Session) (event : NostrEvent) : result ServerMessage unit :=
  match s_admission s with
  | None => Ok tt
  | Some decider =>
      match decider (mkRelayEvent (ev_kind event) (ev_pubkey event) (ev_id event) (ev_tags event)
                       (s_relay_url s) None) with
      | AdmAccept => Ok tt
      | AdmReject reason => Err (SmOk (ev_id event) false reason)
      | AdmRequiresRelatedEvents filters => check_related (s_store s) (ev_id event) filters
      end
  end.

(** The checks that precede the membership kinds. *)
Definition event_gate (s : Session) (event : NostrEvent) (now : Z) : result ServerMessage unit :=
  _ ← map_err (λ err, SmOk (ev_id event) false (EventError_display err)) (verify event);
  _ ← map_err (λ err, SmOk (ev_id event) false (PolicyError_display err))
        (validate_event (s_policy s) event now);
  fail_if (bool_decide (ev_kind event = AUTH_KIND))
    (SmOk (ev_id event) false "auth event must use AUTH").

(** The checks that follow them. *)
Definition write_gate (s : Session) (event : NostrEvent) : result ServerMessage unit :=
  _ ← map_err (SmOk (ev_id event) false) (write_auth s event);
  _ ← map_err (SmOk (ev_id event) false) (ensure_write_membership s);
  admission_gate s event.

(** Insertion, retention, the answer, the broadcast and the delivery. *)
Definition store_event (fuel : nat) (s : Session) (event : NostrEvent) (now : Z)
    : option (list ServerMessage * Session) :=
  let '(res, st) := store_insert (s_store s) event in
  let s := set_store st s in
  match res with
  | Err err => Some ([notice_from_store err], s)
  | Ok outcome =>
      s ← match outcome with
          | Inserted =>
              kept ← apply_retention fuel (s_policy s) now (s_store s);
              Some (set_store kept.2 s)
          | Duplicate => Some s
          end;
      let message := match outcome with Inserted => "saved" | Duplicate => "duplicate" end in
      let s := match outcome with
               | Inserted => set_broadcast ((λ sent, sent ++ [event]) <$> s_broadcast s) s
               | Duplicate => s
               end in
      Some (SmOk (ev_id event) true message :: dispatch_event s event, s)
  end.

Definition handle_event (fuel : nat) (s : Session) (value : json) (env : Env)
    : option (list ServerMessage * Session) :=
  match event_from_value value with
  | None => Some ([SmNotice "invalid event"], s)
  | Some event =>
      let '(limited, s) := rate_limit_event s (env_instant env) in
      match limited with
      | Some notice => Some ([notice], s)
      | None =>
          match event_gate s event (env_now env) with
          | Err answer => Some ([answer], s)
          | Ok _ =>
              match handle_membership_event s event (env_now env) with
              | Some responses => Some responses
              | None =>
                  match write_gate s event with
                  | Err answer => Some ([answer], s)
                  | Ok _ => store_event fuel s event (env_now env)
                  end
              end
          end
      end
  end.

(** ** [AUTH] *)

(** [(now - event.created_at).abs()], both steps wrapping in a release build. *)
Definition auth_skew (now created_at : Z) : Z := abs_i64 (wrap_i64 (now - created_at)).

Definition auth_checks (s : Session) (event : NostrEvent) (now : Z) : result string AuthState :=
  _ ← fail_if (negb (bool_decide (ev_kind event = AUTH_KIND))) "invalid auth kind";
  _ ← map_err EventError_display (verify event);
  auth ← ok_or "auth not enabled" (s_auth s);
  challenge ← ok_or "missing challenge tag" (find_tag_value (ev_tags event) "challenge");
  _ ← fail_if (negb (challenge == au_challenge auth)) "invalid challenge";
  relay_tag ← ok_or "missing relay tag" (find_tag_value (ev_tags event) "relay");
  _ ← match s_relay_url s ≫= relay_host_from_url with
      | None => Ok tt
      | Some expected =>
          actual ← ok_or "invalid relay tag" (relay_host_from_url relay_tag);
          fail_if (negb (actual == expected)) "relay tag mismatch"
      end;
  _ ← fail_if (bool_decide (AUTH_MAX_SKEW_SECS < auth_skew now (ev_created_at event))%Z)
        "auth event timestamp out of range";
  Ok auth.

Definition handle_auth (s : Session) (value : json) (env : Env) : list ServerMessage * Session :=
  match event_from_value value with
  | None => ([SmNotice "invalid auth event"], s)
  | Some event =>
      match auth_checks s event (env_now env) with
      | Err message => ([SmOk (ev_id event) false message], s)
      | Ok auth =>
          ([SmOk (ev_id event) true "authenticated"],
           set_auth (Some (mkAuthState (au_challenge auth) (Some (ev_pubkey event)))) s)
      end
  end.

(** ** Dispatch *)

Definition handle_message (fuel : nat) (s : Session) (message : ClientMessage) (env : Env)
    : option (list ServerMessage * Session) :=
  match message with
  | CmReq subscription_id filters => Some (handle_req s subscription_id filters env)
  | CmClose subscription_id => Some (handle_close s subscription_id)
  | CmEvent value => handle_event fuel s value env
  | CmAuth value => Some (handle_auth s value env)
  | CmCount subscription_id filters => Some (handle_count s subscription_id filters env)
  end.

Definition handle_raw (fuel : nat) (s : Session) (input : string) (env : Env)
    : option (list ServerMessage * Session) :=
  match decode_client_message input with
  | Ok message => handle_message fuel s message env
  | Err err => Some ([notice_from_protocol err], s)
  end.

(** [SessionDriver::handle_text] of [driver.rs]. *)
Definition handle_text (fuel : nat) (s : Session) (input : string) (env : Env)
    : option (list string * Session) :=
  if match p_max_message_bytes (s_policy s) with
     | Some limit => bool_decide (limit < len input)%Z
     | None => false
     end
  then Some ([encode_response (SmNotice "message too large")], s)
  else
    match handle_raw fuel s input env with
    | None => None
    | Some (responses, s) => Some (encode_response <$> responses, s)
    end.
End Session.

Arguments Session S M {_} : rename.
Arguments mkSession {S M _} _ _ _ _ _ _ _ _ _ _ _ _ _ _ _ : rename.
