(* ===== verification/Wire.v ===== *)
(** * [Wire]: an announcement on its way to a relay

    The adapter of [crates/relay-adapter] writes a signed event into a text
    ([event_message]), and the relay of [services/relay] reads that text
    ([decode_client_message], then the codec of [NostrEvent], then [verify]).  [serde_json]
    and the derived codec are parameters: what is documented of them is stated by the two
    classes below, and met by the instances of the sample. *)

From S2P Require Import Prelude RustStr CoreTypes Externals HexModel Nip34Common Nip34Repo EventFilters RelayEvent RelayStore.
From S2P Require Import Membership NostrAuth RelayAdapter RelayProtocol RelaySession.

(** ** What the crates promise *)





(** ** Written, sent and read *)



Section Journey.
Context `{JsonFrames} `{EventCodecLaws}.


Context `{HexLaws} `{CryptoLaws} `{SL : SignerLib} `{!SignerKeys} `{!SchnorrSlices} `{!SignerLaws} `{UrlScheme} `{JsonErrors}.

End Journey.

(** ** A crate that keeps the promises

    A value is printed as the binary digits of its number; the derived reader as it is
    generated, member by member. *)

Module WireSample.
#[local] Existing Instances hex_model hex_model_laws AdapterSample.keys AdapterSample.urls AdapterSample.schemes AdapterSample.errors.

Fixpoint json_tree (v : json) : gen_tree (bool + Z + string) :=
  match v with
  | JNull => GenNode 0 []
  | JBool b => GenNode 1 [GenLeaf (inl (inl b))]
  | JPosInt n => GenNode 2 [GenLeaf (inl (inr n))]
  | JNegInt n => GenNode 3 [GenLeaf (inl (inr n))]
  | JFloat => GenNode 4 []
  | JString s => GenNode 5 [GenLeaf (inr s)]
  | JArray l => GenNode 6 (json_tree <$> l)
  | JObject m => GenNode 7 ((λ p, GenNode 0 [GenLeaf (inr p.1); json_tree p.2]) <$> m)
  end.

Fixpoint tree_json (t : gen_tree (bool + Z + string)) : json :=
  match t with
  | GenNode 1 [GenLeaf (inl (inl b))] => JBool b
  | GenNode 2 [GenLeaf (inl (inr n))] => JPosInt n
  | GenNode 3 [GenLeaf (inl (inr n))] => JNegInt n
  | GenNode 4 _ => JFloat
  | GenNode 5 [GenLeaf (inr s)] => JString s
  | GenNode 6 l => JArray (tree_json <$> l)
  | GenNode 7 m => JObject ((λ t, match t with GenNode _ [GenLeaf (inr k); v] => (k, tree_json v) | _ => ("", JNull) end) <$> m)
  | _ => JNull
  end.


Fixpoint binary (p : positive) : string :=
  match p with xH => "" | xO p => String "0" (binary p) | xI p => String "1" (binary p) end.
Fixpoint of_binary (s : string) : positive :=
  match s with
  | EmptyString => xH
  | String c s => if bool_decide (c = "0"%char) then xO (of_binary s) else xI (of_binary s)
  end.

#[local] Instance json : JsonLib := {|
  json_to_string v := binary (encode (json_tree v));
  json_from_str s :=
    rest ← strip_prefix ("[" +:+ quoted "EVENT" +:+ ",") s;
    body ← strip_suffix "]" rest;
    tree ← decode (of_binary body);
    Some (JArray [JString "EVENT"; tree_json tree])
|}.



End WireSample.
