(* ===== verification/RelaySessionFacts.v ===== *)
(** * [RelaySessionFacts]: what a relay session guarantees

    Theorems on the handlers of [RelaySession]: who may write, how a client
    authenticates, what an unauthenticated client can read, how a key joins,
    that retention terminates and what it removes, and the rate limiter. *)

From S2P Require Import Prelude RustStr CoreTypes Externals HexModel EventFilters RelayEvent.
From S2P Require Import RelayStore Membership RelayProtocol RelaySession Nip34Repo.

(** ** Signing

    The two [expect]s of [sign_event], that the id it computed is hexadecimal
    and 32 bytes long, hold for every event, so the signature is one of the
    event's digest. *)
Lemma sign_event_digest `{JsonLib} `{HexLaws} `{CryptoLaws} `{SignerLib} e signer :
  hex_decode (compute_id e) = Some (sha256 (canonical_json e)) ∧
  String.length (sha256 (canonical_json e)) = 32 ∧
  ev_sig (sign_event e signer) =
    hex_encode (sign_schnorr (ts_secret_key signer) (sha256 (canonical_json e))) ∧
  ev_id (sign_event e signer) = compute_id (sign_event e signer).
Proof.
  unfold sign_event, compute_id. simpl. rewrite hex_decode_encode.
  by rewrite sha256_length.
Qed.

(** ** Writing *)

Section Facts.
Context {S M : Type} `{EventStore S} `{RelayMembershipRepository M}.
Context `{JsonLib} `{HexLib} `{CryptoLib} `{SignerLib} `{EventCodec}.
Implicit Types s : Session S M.


(** What the rate limiter leaves alone: everything but itself. *)
Definition same_but_limiter (s s' : Session S M) : Prop := ∃ l, s' = set_rate_limiter l s.

Lemma set_rate_limiter_id s : s = set_rate_limiter (s_rate_limiter s) s.
Proof. by destruct s. Qed.

Lemma rate_limit_event_same s i o s' : rate_limit_event s i = (o, s') → same_but_limiter s s'.
Proof.
  unfold rate_limit_event, same_but_limiter. destruct (s_rate_limiter s) as [l|].
  - destruct (check_event l i) as [hit l']. intros [= _ <-]. by exists (Some l').
  - intros [= _ <-]. eexists. apply set_rate_limiter_id.
Qed.

Lemma rate_limit_request_same s i o s' : rate_limit_request s i = (o, s') → same_but_limiter s s'.
Proof.
  unfold rate_limit_request, same_but_limiter. destruct (s_rate_limiter s) as [l|].
  - destruct (check_request l i) as [hit l']. intros [= _ <-]. by exists (Some l').
  - intros [= _ <-]. eexists. apply set_rate_limiter_id.
Qed.

(** The only field an invitation writes is the membership repository. *)
Lemma virtual_events_same s fs env r s' :
  virtual_events s fs env = (r, s') → ∃ m, s' = set_membership m s.
Proof.
  assert (∀ s, s = set_membership (s_membership s) s) as Hid by by intros [].
  assert (∀ now random r s', build_invite_event s now random = (r, s') →
    ∃ m, s' = set_membership m s) as Hinv.
  { intros now random r' s1. unfold build_invite_event.
    repeat case_match; intros [= _ <-]; eauto. }
  unfold virtual_events. intros Hv. split_in Hv; [|simplify_eq; eauto].
  destruct (filters_request_kind fs NIP43_INVITE_KIND); [|simplify_eq; eauto].
  destruct (build_invite_event _ _ _) as [res s1] eqn:Eb.
  apply Hinv in Eb as [m ->]. destruct res; simplify_eq; eauto.
Qed.

(** What [EVENT] requires before it touches the store. *)
Record may_write (s : Session S M) (e : NostrEvent) (now : Z) : Prop := {
  mw_verified : verify e = Ok tt;
  mw_policy : validate_event (s_policy s) e now = Ok tt;
  mw_kind : ev_kind e ≠ AUTH_KIND;
  mw_auth : s_write_auth_required s = true → authenticated_pubkey s = Some (ev_pubkey e);
  mw_member : s_write_membership_required s = true → require_membership s = Ok tt;
  mw_admitted : admission_gate s e = Ok tt
}.

Lemma event_gate_Ok s e now :
  event_gate s e now = Ok tt ↔
  verify e = Ok tt ∧ validate_event (s_policy s) e now = Ok tt ∧ ev_kind e ≠ AUTH_KIND.
Proof.
  unfold event_gate. by rewrite !bind_Ok_unit, !map_err_Ok, fail_if_Ok, bool_decide_eq_false.
Qed.

Lemma write_gate_Ok s e :
  write_gate s e = Ok tt →
  (s_write_auth_required s = true → authenticated_pubkey s = Some (ev_pubkey e)) ∧
  (s_write_membership_required s = true → require_membership s = Ok tt) ∧
  admission_gate s e = Ok tt.
Proof.
  unfold write_gate. rewrite !bind_Ok_unit, !map_err_Ok. intros (Ha & Hm & Hadm).
  split_and!; [..|done].
  - intros Hw. unfold write_auth in Ha. rewrite Hw in Ha. simpl in Ha.
    unfold authenticated_pubkey. destruct (s_auth s) as [a|]; [|done].
    destruct (au_pubkey a) as [pk|]; [|done].
    destruct (String.eqb_spec pk (ev_pubkey e)); [congruence|done].
  - intros Hw. unfold ensure_write_membership in Hm. by rewrite Hw in Hm.
Qed.

(** Membership events leave the store alone. *)
Lemma membership_event_store s e now out s' :
  handle_membership_event s e now = Some (out, s') → s_store s' = s_store s.
Proof.
  unfold handle_membership_event, handle_join, handle_leave. intros Hm.
  repeat (case_match; try done); simplify_eq; done.
Qed.

Lemma handle_event_store fuel s v env out s' :
  handle_event fuel s v env = Some (out, s') →
  s_store s' = s_store s ∨
  ∃ e, event_from_value v = Some e ∧ may_write s e (env_now env).
Proof.
  unfold handle_event. destruct (event_from_value v) as [e|]; [|intros [= _ <-]; by left].
  destruct (rate_limit_event s _) as [limited s1] eqn:El.
  apply rate_limit_event_same in El as [l ->].
  destruct limited; [intros [= _ <-]; by left|].
  destruct (event_gate _ e _) as [[]|] eqn:Eg; [|intros [= _ <-]; by left].
  destruct (handle_membership_event _ e _) as [[o s2]|] eqn:Em.
  { intros [= _ <-]. left. by apply membership_event_store in Em. }
  destruct (write_gate _ e) as [[]|] eqn:Ew; [|intros [= _ <-]; by left].
  intros _. right. exists e. split; [done|].
  apply event_gate_Ok in Eg as (? & ? & ?). apply write_gate_Ok in Ew as (? & ? & ?). by constructor.
Qed.

Lemma handle_req_keeps s sub fs env out s' :
  handle_req s sub fs env = (out, s') → s_store s' = s_store s ∧ s_auth s' = s_auth s.
Proof.
  unfold handle_req. destruct (rate_limit_request s _) as [limited s1] eqn:El.
  apply rate_limit_request_same in El as [l ->].
  destruct limited; [by intros [= _ <-]|].
  destruct (read_gate _ _ _); [|by intros [= _ <-]].
  destruct (too_many_subscriptions _ _); [by intros [= _ <-]|].
  destruct (store_query _ _); [|by intros [= _ <-]].
  destruct (virtual_events _ _ _) as [extra s2] eqn:Ev. apply virtual_events_same in Ev as [m ->].
  destruct extra; by intros [= _ <-].
Qed.

Lemma handle_count_keeps s sub fs env out s' :
  handle_count s sub fs env = (out, s') → same_but_limiter s s'.
Proof.
  unfold handle_count. destruct (rate_limit_request s _) as [limited s1] eqn:El.
  apply rate_limit_request_same in El. destruct limited; [by intros [= _ <-]|].
  destruct (read_gate _ _ _); [|by intros [= _ <-]].
  destruct (store_query _ _); by intros [= _ <-].
Qed.

(** ** Authentication *)

(** What [AUTH] requires before it records a key. *)
Record may_authenticate (s : Session S M) (e : NostrEvent) (now : Z) : Prop := {
  ma_kind : ev_kind e = AUTH_KIND;
  ma_verified : verify e = Ok tt;
  ma_challenge : ∃ a, s_auth s = Some a ∧
    find_tag_value (ev_tags e) "challenge" = Some (au_challenge a);
  ma_relay : ∃ relay, find_tag_value (ev_tags e) "relay" = Some relay ∧
    ∀ host, (s_relay_url s ≫= relay_host_from_url) = Some host → relay_host_from_url relay = Some host;
  ma_fresh : (auth_skew now (ev_created_at e) ≤ AUTH_MAX_SKEW_SECS)%Z
}.

Lemma auth_checks_Ok s e now a :
  auth_checks s e now = Ok a → s_auth s = Some a ∧ may_authenticate s e now.
Proof.
  unfold auth_checks. rewrite bind_Ok_unit, fail_if_Ok, negb_false_iff, bool_decide_eq_true.
  intros (Hk & (Hv%map_err_Ok & (a' & Ha%ok_or_Ok & (ch & Hch%ok_or_Ok & Hrest)%bind_Ok)%bind_Ok)%bind_Ok_unit).
  apply bind_Ok_unit in Hrest as (Hc%fail_if_Ok & (rt & Hrt%ok_or_Ok & Hrest)%bind_Ok).
  apply bind_Ok_unit in Hrest as (Hrel & (Hs%fail_if_Ok & [= <-])%bind_Ok_unit).
  apply negb_false_iff, String.eqb_eq in Hc. apply bool_decide_eq_false_1 in Hs.
  split; [done|]. constructor; try done.
  - exists a'. split; [done|]. congruence.
  - exists rt. split; [done|]. intros host Hh. rewrite Hh in Hrel.
    apply bind_Ok in Hrel as (actual & Hac%ok_or_Ok & Heq%fail_if_Ok).
    apply negb_false_iff, String.eqb_eq in Heq. congruence.
  - lia.
Qed.

(** The configuration never changes. *)
Definition same_config (s s' : Session S M) : Prop :=
  s_policy s' = s_policy s ∧ s_read_auth_required s' = s_read_auth_required s.

Lemma handle_event_auth fuel s v env out s' :
  handle_event fuel s v env = Some (out, s') →
  s_auth s' = s_auth s ∧ s_registry s' = s_registry s ∧ same_config s s'.
Proof.
  unfold handle_event. destruct (event_from_value v) as [e|]; [|by intros [= _ <-]].
  destruct (rate_limit_event s _) as [limited s1] eqn:El.
  apply rate_limit_event_same in El as [l ->].
  destruct limited; [by intros [= _ <-]|].
  destruct (event_gate _ e _) as [[]|]; [|by intros [= _ <-]].
  destruct (handle_membership_event _ e _) as [[o s2]|] eqn:Em.
  { intros [= _ <-]. unfold handle_membership_event, handle_join, handle_leave in Em.
    repeat (case_match; try done); simplify_eq; done. }
  destruct (write_gate _ e) as [[]|]; [|by intros [= _ <-]].
  unfold store_event. destruct (store_insert _ e) as [[[]|] st]; [..|by intros [= _ <-]].
  - destruct (apply_retention _ _ _ _) as [kept|]; [|done]. by intros [= _ <-].
  - by intros [= _ <-].
Qed.

(** ** Reading *)

Lemma read_gate_auth s sub fs parsed :
  read_gate s sub fs = Ok parsed → s_read_auth_required s = true → is_authenticated s = true.
Proof.
  unfold read_gate. intros (Hg%fail_if_Ok & _)%bind_Ok_unit Hr. rewrite Hr in Hg. simpl in Hg.
  by apply negb_false_iff in Hg.
Qed.

Lemma handle_message_config fuel s m env out s' :
  handle_message fuel s m env = Some (out, s') → same_config s s'.
Proof.
  destruct m as [v|sub fs|sub|v|sub fs]; cbn [handle_message].
  - intros (_ & _ & ?)%handle_event_auth. done.
  - intros [= Hm]. unfold handle_req in Hm.
    destruct (rate_limit_request s _) as [limited s1] eqn:El.
    apply rate_limit_request_same in El as [l ->].
    destruct limited; [by simplify_eq|]. destruct (read_gate _ _ _); [|by simplify_eq].
    destruct (too_many_subscriptions _ _); [by simplify_eq|].
    destruct (store_query _ _); [|by simplify_eq].
    destruct (virtual_events _ _ _) as [extra s2] eqn:Ev. apply virtual_events_same in Ev as [m' ->].
    destruct extra; by simplify_eq.
  - by intros [= _ <-].
  - intros [= Hm]. unfold handle_auth in Hm. by repeat case_match; simplify_eq.
  - intros [= [l ->]%handle_count_keeps]. done.
Qed.

(** ** The states of a session *)

Definition session_step (s s' : Session S M) : Prop :=
  ∃ fuel m env out, handle_message fuel s m env = Some (out, s').

(** Subscriptions are within the limit, and exist only for authenticated
    clients when reading needs authentication. *)
Definition session_inv (s : Session S M) : Prop :=
  (s_read_auth_required s = true → s_registry s = ∅ ∨ is_authenticated s = true) ∧
  (∀ max, p_max_subscriptions (s_policy s) = Some max → (0 ≤ max)%Z →
     (Z.of_nat (size (s_registry s)) ≤ max)%Z).

Lemma size_mark_eose r id : size (mark_eose r id).2 = size r.
Proof.
  unfold mark_eose. destruct (r !! id) eqn:E; [|done]. simpl. by rewrite map_size_insert, E.
Qed.

Lemma size_registry_insert s sub fs max :
  p_max_subscriptions (s_policy s) = Some max → too_many_subscriptions s sub = false →
  (Z.of_nat (size (s_registry s)) ≤ max)%Z →
  (Z.of_nat (size (registry_insert (s_registry s) sub fs).2) ≤ max)%Z.
Proof.
  intros Hm Ht Hs. unfold too_many_subscriptions, registry_contains, registry_len in Ht.
  rewrite Hm in Ht. simpl. rewrite map_size_insert.
  destruct (s_registry s !! sub); simpl in *; [lia|]. apply bool_decide_eq_false_1 in Ht. lia.
Qed.

Lemma handle_req_inv s sub fs env out s' :
  handle_req s sub fs env = (out, s') → session_inv s → session_inv s'.
Proof.
  unfold handle_req. destruct (rate_limit_request s _) as [limited s1] eqn:El.
  apply rate_limit_request_same in El as [l ->].
  intros Hr Hinv. assert (session_inv (set_rate_limiter l s)) as Hinv1 by done.
  revert Hr. set (s1 := set_rate_limiter l s) in *. clearbody s1. clear Hinv.
  destruct limited; [by intros [= _ <-]|].
  destruct (read_gate s1 sub fs) as [parsed|] eqn:Eg; [|by intros [= _ <-]].
  destruct (too_many_subscriptions s1 sub) eqn:Et; [by intros [= _ <-]|].
  destruct (store_query _ _); [|by intros [= _ <-]].
  destruct (virtual_events _ _ _) as [extra s2] eqn:Ev. apply virtual_events_same in Ev as [m ->].
  destruct extra; intros [= _ <-]; [|done].
  destruct Hinv1 as [Ha Hs]. split.
  - intros Hr. right. by apply (read_gate_auth s1 sub fs parsed).
  - intros max Hm Hmax. cbn [s_registry set_registry set_membership]. rewrite size_mark_eose.
    by apply size_registry_insert; [..|apply Hs].
Qed.

Lemma session_step_inv s s' : session_step s s' → session_inv s → session_inv s'.
Proof.
  intros (fuel & m & env & out & Hm) Hinv.
  destruct m as [v|sub fs|sub|v|sub fs]; cbn [handle_message] in Hm.
  - apply handle_event_auth in Hm as (Ha & Hr & Hp & Hra).
    unfold session_inv, is_authenticated. rewrite Ha, Hr, Hp, Hra. done.
  - injection Hm as Hm. by eapply handle_req_inv.
  - injection Hm as _ <-. destruct Hinv as [Ha Hs]. split; cbn.
    + intros Hr. destruct (Ha Hr) as [->|?]; [left; apply delete_empty|by right].
    + intros max Hmax H0'. etrans; [|by apply Hs]. apply inj_le. 
      rewrite map_size_delete. case_match; unfold id; lia.
  - injection Hm as Hm. unfold handle_auth in Hm.
    destruct (event_from_value v) as [e|]; [|by simplify_eq].
    destruct (auth_checks _ _ _) as [a|] eqn:Ea; [|by simplify_eq]. simplify_eq.
    destruct Hinv as [_ Hs]. split; [by right|done].
  - injection Hm as Hm. apply handle_count_keeps in Hm as [l ->]. done.
Qed.
End Facts.

(** ** Retention on the in-memory store *)

Lemma remove_event_size st id :
  size (ms_events (remove_event st id).2) =
  match ms_events st !! id with Some _ => Nat.pred | None => λ n, n end (size (ms_events st)).
Proof.
  unfold remove_event. destruct (ms_events st !! id) as [e|] eqn:E; simpl; [|done].
  by rewrite map_size_delete, E.
Qed.

Lemma delete_all_spec evs : ∀ st : MemoryStore,
  store_inv st →
  ∃ st', delete_all st evs = (Ok tt, st') ∧ store_inv st' ∧
    size (ms_events st') ≤ size (ms_events st) ∧
    (∀ e, e ∈ evs → is_Some (ms_events st !! ev_id e) → size (ms_events st') < size (ms_events st)) ∧
    ∀ id x, ms_events st' !! id = Some x ↔ ms_events st !! id = Some x ∧ id ∉ ev_id <$> evs.
Proof.
  induction evs as [|e evs IH]; intros st Hst.
  { exists st. split_and!; try done.
    - intros e ?%not_elem_of_nil. done.
    - intros id x. split; [|tauto]. intros ?. split; [done|]. apply not_elem_of_nil. }
  destruct (IH (remove_event st (ev_id e)).2) as (st' & Hd & Hi & Hsz & Hlt & Hx);
    [by apply remove_event_inv|].
  pose proof (remove_event_size st (ev_id e)) as Hsize.
  exists st'. cbn [delete_all store_delete MemoryStore_EventStore memory_delete]. split_and!; try done.
  - destruct (ms_events st !! ev_id e); lia.
  - intros x Hin [y Hy]. apply elem_of_cons in Hin as [->|Hin].
    + rewrite Hy in Hsize. assert (size (ms_events st) ≠ 0); [|lia].
      intros H0%map_size_empty_iff. rewrite H0, lookup_empty in Hy. done.
    + destruct (decide (ev_id x = ev_id e)) as [Heq|Hne].
      * rewrite Heq in Hy. rewrite Hy in Hsize. assert (size (ms_events st) ≠ 0); [|lia].
        intros H0%map_size_empty_iff. rewrite H0, lookup_empty in Hy. done.
      * eapply Nat.lt_le_trans; [apply (Hlt x Hin)|destruct (ms_events st !! ev_id e); lia].
        rewrite remove_event_lookup, bool_decide_eq_false_2 by done. by eexists.
  - intros id x. rewrite Hx, remove_event_lookup, fmap_cons, not_elem_of_cons.
    case_bool_decide; [split; [by intros [? _]|naive_solver]|tauto].
Qed.

Lemma matches_retention cutoff e idx : matches (retention_filter cutoff) e idx = true ↔ (ev_created_at e ≤ cutoff)%Z.
Proof.
  unfold matches, retention_filter. cbn. case_bool_decide; split; try done; lia.
Qed.

(** What a scan that succeeds adds, whether or not the tags of every event can be indexed. *)
Lemma scan_adds f evs : ∀ rem q q', scan f evs rem q = Ok q' → ∃ new, q_results q' = q_results q ++ new ∧
  (∀ e, e ∈ new → e ∈ evs ∧ ∃ idx, matches f e idx = true) ∧
  (new = [] → (0 < rem)%Z → ∀ e, e ∈ evs → ev_id e ∉ q_seen q → ∃ idx, matches f e idx = false).
Proof.
  induction evs as [|x evs IH]; intros rem q q'; cbn [scan].
  { intros [= <-]. exists []. rewrite app_nil_r. split_and!; [done|by intros e ?%not_elem_of_nil|by intros _ _ e ?%not_elem_of_nil]. }
  case_bool_decide as H0.
  { intros [= <-]. exists []. rewrite app_nil_r. split_and!; [done|by intros e ?%not_elem_of_nil|lia]. }
  case_bool_decide as Hx.
  { intros (new & Hr & Hs & Hn)%IH. exists new. split_and!; [done|intros e He; apply Hs in He as [? ?]; set_solver|].
    intros E Hrem e [->|He]%elem_of_cons Hseen; [done|eauto]. }
  destruct (TagIndex_from_tags (ev_tags x)) as [idx|]; [|done]. cbn [map_err mbind result_bind].
  destruct (matches f x idx) eqn:Em; intros (new & Hr & Hs & Hn)%IH.
  - exists (x :: new). cbn [q_results] in Hr. rewrite <-app_assoc in Hr. split_and!; [done| |done].
    intros e [->|He]%elem_of_cons; [split; [left|by exists idx]|]. apply Hs in He as [? ?]. split; [by right|done].
  - exists new. split_and!; [done|intros e He; apply Hs in He as [? ?]; split; [by right|done]|].
    intros E Hrem e [->|He]%elem_of_cons Hseen; [by exists idx|eauto].
Qed.

Lemma scan_fails f evs : ∀ rem q err, scan f evs rem q = Err err → ∃ e, e ∈ evs ∧ ¬ Forall indexable (ev_tags e).
Proof.
  induction evs as [|x evs IH]; intros rem q err; cbn [scan]; [done|].
  assert ((∃ e, e ∈ evs ∧ ¬ Forall indexable (ev_tags e)) → ∃ e, e ∈ x :: evs ∧ ¬ Forall indexable (ev_tags e)) as Hsub
    by set_solver.
  case_bool_decide; [done|]. case_bool_decide; [intros E%IH; auto|].
  destruct (TagIndex_from_tags (ev_tags x)) as [idx|] eqn:Ex; cbn [map_err mbind result_bind].
  - destruct (matches f x idx); intros E%IH; auto.
  - intros _. exists x. split; [left|]. intros Hi%from_tags_indexable. by rewrite Ex in Hi.
Qed.

(** A batch of the loop: events past their time, and all of them are gone when there is none;
    a batch fails only when the tags of some event cannot be indexed. *)
Lemma retention_batch cutoff (st : MemoryStore) : store_inv st →
  match memory_query st [retention_filter cutoff] with
  | Ok evs => (∀ e, e ∈ evs → ms_events st !! ev_id e = Some e ∧ (ev_created_at e ≤ cutoff)%Z) ∧
      (evs = [] → ∀ id e, ms_events st !! id = Some e → (cutoff < ev_created_at e)%Z)
  | Err _ => ∃ id e, ms_events st !! id = Some e ∧ ¬ Forall indexable (ev_tags e)
  end.
Proof.
  intros Hst. cbn [memory_query try_fold f_limit retention_filter]. fold (retention_filter cutoff).
  destruct (scan _ _ _ _) as [q|err] eqn:E; cbn [fmap result_fmap].
  - apply scan_adds in E as (new & Hr & Hs & Hn). cbn [q_results q_seen] in *. rewrite Hr. simpl. split.
    + intros e He. destruct (Hs e He) as [Hin [idx Hm%matches_retention]]. split; [by apply elem_of_ordered|done].
    + intros Hnil id e He. pose proof (inv_id _ Hst _ _ He) as <-.
      destruct (Hn Hnil ltac:(done) e) as [idx Hm]; [by apply elem_of_ordered|apply not_elem_of_empty|].
      destruct (decide (ev_created_at e ≤ cutoff)%Z) as [Hle%(matches_retention _ e idx)|]; [congruence|lia].
  - apply scan_fails in E as (e & He%elem_of_ordered & Hbad); [|done]. eauto.
Qed.

(** What the loop leaves: events of before, all that are in time, and after a success no
    others; an error comes of an event that was stored. *)
Definition retained (cutoff : Z) (st : MemoryStore) (r : result StoreError unit) (st' : MemoryStore) : Prop :=
  store_inv st' ∧ (∀ id e, ms_events st' !! id = Some e → ms_events st !! id = Some e) ∧
  (∀ id e, ms_events st !! id = Some e → (cutoff < ev_created_at e)%Z → ms_events st' !! id = Some e) ∧
  match r with
  | Ok _ => ∀ id e, ms_events st' !! id = Some e → (cutoff < ev_created_at e)%Z
  | Err _ => ∃ id e, ms_events st !! id = Some e ∧ ¬ Forall indexable (ev_tags e)
  end.

Lemma retention_loop_spec cutoff fuel : ∀ st : MemoryStore,
  store_inv st → size (ms_events st) < fuel →
  ∃ r st', retention_loop fuel cutoff st = Some (r, st') ∧ retained cutoff st r st'.
Proof.
  induction fuel as [|fuel IH]; intros st Hst Hf; [lia|].
  cbn [retention_loop store_query MemoryStore_EventStore].
  pose proof (retention_batch cutoff st Hst) as Hb.
  destruct (memory_query st [retention_filter cutoff]) as [[|h evs]|err]; [..|by eexists _, st].
  { destruct Hb as [_ Hb]. exists (Ok tt), st. split; [done|]. split_and!; eauto. }
  destruct Hb as [Hdel _]. destruct (delete_all_spec (h :: evs) st Hst) as (st1 & -> & Hst1 & _ & Hlt & Hx).
  destruct (IH st1) as (r & st' & Hl & Hst' & Hold & Hnew & Hr); [done|..].
  { assert (size (ms_events st1) < size (ms_events st)); [|lia].
    apply (Hlt h); [apply list_elem_of_here|]. destruct (Hdel h) as [Hh _]; [apply list_elem_of_here|]. by eexists. }
  exists r, st'. split; [done|]. split_and!; [done|intros id e He%Hold; by apply Hx in He as [? _]| |].
  - intros id e He Hc. apply Hnew; [|done]. apply Hx. split; [done|]. intros (x & -> & Hin)%list_elem_of_fmap.
    apply Hdel in Hin as [Hs Hle]. assert (x = e) as -> by congruence. lia.
  - destruct r as [|err]; [done|]. destruct Hr as (id & e & [He _]%Hx & Hbad). eauto.
Qed.

(** ** The rate limiter *)

(** Calls of [hit_limit] at a sequence of instants: how many pass. *)
Fixpoint passes (c : RateLimitCounter) (limit : option Z) (window : Z) (instants : list Z) : nat :=
  match instants with
  | [] => 0
  | now :: instants =>
      let '(hit, c) := hit_limit c limit window now in
      (if (hit : bool) then 0 else 1) + passes c limit window instants
  end.

Lemma passes_in_window limit window start instants : ∀ c,
  (0 < limit)%Z → (0 ≤ c ≤ limit)%Z →
  Forall (λ now, Z.max 0 (now - start) < window)%Z instants →
  Z.of_nat (passes (mkRateLimitCounter c start) (Some limit) window instants)
  = Z.min (limit - c) (Z.of_nat (length instants)).
Proof.
  induction instants as [|now instants IH]; intros c Hl Hc Hw; cbn [passes length]; [lia|].
  apply Forall_cons in Hw as [Hnow Hw]. unfold hit_limit.
  rewrite bool_decide_eq_false_2 by lia. cbn [ctr_window_start ctr_count].
  rewrite (bool_decide_eq_false_2 (window ≤ _)%Z) by lia. cbn [ctr_count ctr_window_start].
  case_bool_decide as Hfull.
  - rewrite Nat.add_0_l, IH by (done || lia). lia.
  - rewrite Nat2Z.inj_add, IH by (done || lia). lia.
Qed.

(** ** Lemmas on joining *)

Section Join.
Context {S M : Type} `{EventStore S} `{RelayMembershipLaws M}.
Context `{JsonLib} `{HexLib} `{CryptoLib} `{SignerLib} `{EventCodec}.

(** The invitation that a join used, and the record it left. *)
Lemma handle_join_welcome (s : Session S M) m t e pk now s' :
  handle_join s m t e pk now =
    (membership_response (ev_id e) true (info "welcome to the relay."), s') →
  ∃ code invite m' r,
    find_tag_value (ev_tags e) "claim" = Some code ∧
    invite_by_code m t code = Ok (Some invite) ∧
    (∀ x, iv_expires_at invite = Some x → (now ≤ x)%Z) ∧
    (∀ x, iv_invitee_pubkey invite = Some x → x = pk) ∧
    s' = set_membership (Some m') (set_membership (Some m') s) ∧
    membership_by_pubkey m' t pk = Ok (Some r) ∧
    mr_status r = MEMBERSHIP_STATUS_ACTIVE ∧ mr_role r = iv_role invite ∧
    invite_by_code m' t code = Ok None.
Proof.
  unfold handle_join. destruct (find_tag_value _ _) as [code|]; [|done].
  destruct (invite_by_code m t code) as [[invite|]|] eqn:Ei; [|done..].
  destruct (match iv_expires_at invite with Some x => bool_decide (x < now)%Z | None => false end) eqn:Ex;
    [done|].
  destruct (match iv_invitee_pubkey invite with Some x => negb (x == pk) | None => false end) eqn:Ev;
    [done|].
  destruct (membership_by_pubkey_bytes m t pk) as [existing|]; [|done].
  destruct (match existing with Some r => mr_status r == MEMBERSHIP_STATUS_ACTIVE | None => false end);
    [done|].
  set (r := mkRelayMembershipRecord t pk (iv_role invite) MEMBERSHIP_STATUS_ACTIVE _ now).
  destruct (upsert_membership m r) as [[[]|] m1] eqn:Eu; [|done].
  destruct (delete_invite m1 t code) as [[[]|] m2] eqn:Ed; [|done].
  intros [= <-]. exists code, invite, m2, r. split_and!; try done.
  - intros x Hx. rewrite Hx in Ex. apply bool_decide_eq_false_1 in Ex. lia.
  - intros x Hx. rewrite Hx in Ev. by apply negb_false_iff, String.eqb_eq in Ev.
  - rewrite (delete_invite_memberships m1 m2 t code) by done.
    apply (upsert_lookup m r m1); [done|]. by rewrite bool_decide_eq_true_2.
  - by apply (delete_invite_gone m1).
Qed.
End Join.

(** ** Sample parameters of a session *)

Definition sample_challenge : string := "0123".
Definition sample_auth_event : NostrEvent :=
  mkNostrEvent (@hex_encode hex_model sample_digest) "bb" 10 AUTH_KIND
    [["challenge"; @hex_encode hex_model sample_challenge]; ["relay"; "wss://relay.example/"]] "" "".
Definition sample_codec : EventCodec := {|
  event_from_value v :=
    match v with
    | JNull => Some sample_signed_event
    | JBool _ => Some sample_auth_event
    | _ => None
    end;
  event_to_value _ := JNull
|}.
Definition sample_signer_lib : SignerLib :=
  {| SecretKey := string; secret_from_slice s := Some s; sign_schnorr k _ := k |}.
Definition sample_env : Env := mkEnv 10 0 "abcd".

Section SampleSession.
#[local] Existing Instance hex_model.
#[local] Existing Instance sample_hash_order.
#[local] Existing Instance sample_signer_lib.

Definition sample_repository : RelayMembershipRepository MemoryMembership :=
  MemoryMembership_repository.
Definition sample_session (write_auth : bool) : Session MemoryStore MemoryMembership :=
  Session_with_broadcast MemoryStore_new Policy_default None [] write_auth write_auth 0
    sample_challenge.
End SampleSession.

(** ** Properties *)

Section Properties.
Context {S M : Type} `{EventStore S} `{RelayMembershipRepository M}.
Context `{JsonLib} `{HexLib} `{CryptoLib} `{SignerLib} `{EventCodec}.

(** C1: whatever a client sends, the store changes only for an [EVENT]
    message whose event passes every check: a valid id and signature, the
    policy, not an authentication event, the authenticated key as its author
    when writing needs authentication, an active membership when writing needs
    one, and the admission decision. *)
Theorem store_writes_authorised (fuel : nat) (s : Session S M) m env out s' :
  handle_message fuel s m env = Some (out, s') →
  s_store s' = s_store s ∨
  ∃ v e, m = CmEvent v ∧ event_from_value v = Some e ∧ may_write s e (env_now env).
Proof.
  destruct m as [v|sub fs|sub|v|sub fs]; cbn [handle_message].
  - intros [?|(e & ? & ?)]%handle_event_store; [by left|right; eauto].
  - intros [= [? _]%handle_req_keeps]. by left.
  - intros [= _ <-]. by left.
  - unfold handle_auth. intros [= Hm]. left. by repeat case_match; simplify_eq.
  - intros [= [l ->]%handle_count_keeps]. by left.
Qed.

(** C2: the authenticated key of a session changes only when the client sends
    an [AUTH] message with a signed authentication event for this session's
    challenge, naming a relay (this relay's host, when it is configured), with
    a timestamp the skew check accepts; the key is then that event's author. *)
Theorem authentication_sound (fuel : nat) (s : Session S M) m env out s' :
  handle_message fuel s m env = Some (out, s') →
  authenticated_pubkey s' = authenticated_pubkey s ∨
  ∃ v e, m = CmAuth v ∧ event_from_value v = Some e ∧ may_authenticate s e (env_now env) ∧
    authenticated_pubkey s' = Some (ev_pubkey e).
Proof.
  unfold authenticated_pubkey. destruct m as [v|sub fs|sub|v|sub fs]; cbn [handle_message].
  - intros (-> & _)%handle_event_auth. by left.
  - intros [= [_ ->]%handle_req_keeps]. by left.
  - intros [= _ <-]. by left.
  - unfold handle_auth. intros [= Hm]. destruct (event_from_value v) as [e|] eqn:Ev; [|simplify_eq; by left].
    destruct (auth_checks s e (env_now env)) as [a|] eqn:Ea; [|simplify_eq; by left].
    simplify_eq. apply auth_checks_Ok in Ea as [_ Hma]. right. by exists v, e.
  - intros [= [l ->]%handle_count_keeps]. by left.
Qed.

(** C34: when reading needs authentication, an unauthenticated client has no
    subscriptions in any reachable state of its session, so no live event is
    delivered to it; and a client never has more subscriptions than the policy
    allows. *)
Theorem unauthenticated_reads_nothing (s0 s : Session S M) :
  s_registry s0 = ∅ → rtc session_step s0 s →
  session_inv s ∧
  (s_read_auth_required s = true → is_authenticated s = false →
   ∀ e sub v, SmEvent sub v ∉ dispatch_event s e).
Proof.
  intros H0' Hr. assert (session_inv s) as Hinv.
  { refine (rtc_ind_r session_inv s0 _ _ s Hr); [|intros x y _; apply session_step_inv].
    split; rewrite H0'; [by left|]. intros. rewrite map_size_empty. lia. }
  split; [done|]. intros Hread Hauth e sub v. destruct Hinv as [Ha _].
  destruct (Ha Hread) as [Hnil|?]; [|congruence]. unfold dispatch_event.
  destruct (TagIndex_from_tags _).
  - rewrite Hnil. vm_compute (registry_iter ∅). apply not_elem_of_nil.
  - intros Hin%list_elem_of_singleton. done.
Qed.
End Properties.

Lemma store_writes_authorised_witness :
  let _ := sample_codec in let _ := sample_json_lib in let _ := hex_model in
  let _ := sample_crypto_lib in let _ := sample_signer_lib in let _ := sample_repository in
  ∃ v e, CmEvent JNull = CmEvent v ∧ event_from_value v = Some e ∧
    may_write (sample_session false) e 10.
Proof.
  intros E J X C G R.
  destruct (@store_writes_authorised MemoryStore MemoryMembership _ R J X C G E 1
    (sample_session false) (CmEvent JNull) sample_env
    [SmOk (ev_id sample_signed_event) true "saved"]
    (set_broadcast (Some [sample_signed_event])
       (set_store (memory_insert MemoryStore_new sample_signed_event).2 (sample_session false))))
    as [Hs|Hx].
  - vm_compute. reflexivity.
  - vm_compute in Hs. discriminate.
  - exact Hx.
Defined.

Lemma authentication_sound_witness :
  let _ := sample_codec in let _ := sample_json_lib in let _ := hex_model in
  let _ := sample_crypto_lib in let _ := sample_signer_lib in let _ := sample_repository in
  ∃ v e, CmAuth (JBool true) = CmAuth v ∧ event_from_value v = Some e ∧
    may_authenticate (sample_session true) e 10 ∧ Some "bb" = Some (ev_pubkey e).
Proof.
  intros E J X C G R.
  destruct (@authentication_sound MemoryStore MemoryMembership _ R J X C G E 1
    (sample_session true) (CmAuth (JBool true)) sample_env
    [SmOk (ev_id sample_auth_event) true "authenticated"]
    (set_auth (Some (mkAuthState (hex_encode sample_challenge) (Some "bb"))) (sample_session true)))
    as [Hs|Hx].
  - vm_compute. reflexivity.
  - vm_compute in Hs. discriminate.
  - exact Hx.
Defined.

Lemma unauthenticated_reads_nothing_witness :
  let _ := sample_codec in let _ := sample_json_lib in let _ := hex_model in
  let _ := sample_crypto_lib in let _ := sample_signer_lib in let _ := sample_repository in
  session_inv (sample_session true) ∧
  (s_read_auth_required (sample_session true) = true →
   is_authenticated (sample_session true) = false →
   ∀ e sub v, SmEvent sub v ∉ dispatch_event (sample_session true) e).
Proof.
  intros E J X C G R.
  apply (@unauthenticated_reads_nothing MemoryStore MemoryMembership _ R J X C G E
    (sample_session true) (sample_session true)); [reflexivity|apply rtc_refl].
Defined.

(** The skew check of [AUTH] bounds the age of an authentication event by
    ten minutes either way, but for one timestamp: 2^63 seconds before the
    clock the difference wraps to the least [i64], whose absolute value is
    negative, and the check passes. *)
Lemma auth_skew_bound now created_at :
  (0 ≤ now < 2 ^ 62)%Z → (i64_min ≤ created_at ≤ i64_max)%Z →
  (auth_skew now created_at ≤ AUTH_MAX_SKEW_SECS)%Z ↔
  (Z.abs (now - created_at) ≤ 600)%Z ∨ created_at = (now - 2 ^ 63)%Z.
Proof.
  unfold auth_skew, abs_i64, AUTH_MAX_SKEW_SECS, i64_min, i64_max. intros Hn Hc.
  remember (now - created_at)%Z as d eqn:Hdef.
  destruct (decide (d < 2 ^ 63)%Z) as [Hd|Hd].
  - rewrite (wrap_i64_id d) by (unfold i64_min, i64_max; lia).
    rewrite wrap_i64_id by (unfold i64_min, i64_max; lia). lia.
  - assert (wrap_i64 d = d - 2 ^ 64)%Z as ->.
    { unfold wrap_i64. rewrite <-(Z.mod_add _ (-1)) by lia. rewrite Z.mod_small; lia. }
    destruct (decide (d = 2 ^ 63)%Z) as [Heq|Hne].
    + split; [intros _; right; lia|]. intros _. rewrite Heq. vm_compute. discriminate.
    + rewrite wrap_i64_id by (unfold i64_min, i64_max; lia). lia.
Qed.

Lemma auth_skew_bound_witness :
  (auth_skew 1700000000 (1700000000 - 2 ^ 63) ≤ AUTH_MAX_SKEW_SECS)%Z.
Proof.
  apply (auth_skew_bound 1700000000 (1700000000 - 2 ^ 63)).
  - vm_compute. split; [discriminate|reflexivity].
  - vm_compute. split; discriminate.
  - right. reflexivity.
Defined.

(** A key becomes a member only with an invitation of this tenant that has
    not expired and is for this key when it names one; the new membership is
    active with the invited role, and the invitation cannot be used again.
    This holds for every repository that meets [RelayMembershipLaws]. *)
Lemma join_consumes_invite {S M : Type} `{EventStore S} `{RelayMembershipLaws M}
    `{JsonLib} `{HexLib} `{CryptoLib} `{SignerLib} `{EventCodec}
    (s : Session S M) e now s' m t :
  s_membership s = Some m → s_tenant_id s = Some t → ev_kind e = NIP43_JOIN_KIND →
  handle_membership_event s e now =
    Some (membership_response (ev_id e) true (info "welcome to the relay."), s') →
  ∃ pk code invite m' r,
    hex_decode (ev_pubkey e) = Some pk ∧ find_tag_value (ev_tags e) "claim" = Some code ∧
    invite_by_code m t code = Ok (Some invite) ∧
    (∀ x, iv_expires_at invite = Some x → (now ≤ x)%Z) ∧
    (∀ x, iv_invitee_pubkey invite = Some x → x = pk) ∧
    s_membership s' = Some m' ∧
    membership_by_pubkey m' t pk = Ok (Some r) ∧
    mr_status r = MEMBERSHIP_STATUS_ACTIVE ∧ mr_role r = iv_role invite ∧
    invite_by_code m' t code = Ok None.
Proof.
  intros Hm Ht Hk. unfold handle_membership_event. rewrite Hk, Hm, Ht. simpl.
  destruct (has_tag (ev_tags e) "-"); simpl; [|done].
  destruct (hex_decode (ev_pubkey e)) as [pk|]; [|done].
  intros [= (code & invite & m' & r & ? & ? & ? & ? & -> & ? & ? & ? & ?)%handle_join_welcome].
  exists pk, code, invite, m', r. by split_and!.
Qed.

Definition sample_invite : RelayInviteRecord :=
  mkRelayInviteRecord "t" "code" "member" "inviter" None (Some 20%Z) 1.
Definition sample_join : NostrEvent :=
  mkNostrEvent "id" "ab" 10 NIP43_JOIN_KIND [["-"]; ["claim"; "code"]] "" "".
Definition sample_members : MemoryMembership :=
  mkMemoryMembership ∅ {[ "code" := sample_invite ]}.
Definition sample_member_session : @Session MemoryStore MemoryMembership sample_signer_lib :=
  with_membership (@Session_new MemoryStore MemoryMembership sample_signer_lib MemoryStore_new 0)
    (Some "t") (Some sample_members).

Lemma join_consumes_invite_witness :
  let _ := sample_codec in let _ := sample_json_lib in let _ := hex_model in
  let _ := sample_crypto_lib in let _ := sample_signer_lib in let _ := sample_repository in
  ∃ pk code invite m' r,
    hex_decode "ab" = Some pk ∧ find_tag_value (ev_tags sample_join) "claim" = Some code ∧
    invite_by_code sample_members "t" code = Ok (Some invite) ∧
    (∀ x, iv_expires_at invite = Some x → (10 ≤ x)%Z) ∧
    (∀ x, iv_invitee_pubkey invite = Some x → x = pk) ∧
    s_membership (snd (default ([], sample_member_session)
      (handle_membership_event sample_member_session sample_join 10))) = Some m' ∧
    membership_by_pubkey m' "t" pk = Ok (Some r) ∧
    mr_status r = MEMBERSHIP_STATUS_ACTIVE ∧ mr_role r = iv_role invite ∧
    invite_by_code m' "t" code = Ok None.
Proof.
  intros E J X C G R.
  apply (@join_consumes_invite MemoryStore MemoryMembership _ R
    (@MemoryMembership_laws hex_model hex_model_laws sample_hash_order) J X C G E
    sample_member_session sample_join 10
    (snd (default ([], sample_member_session)
       (handle_membership_event sample_member_session sample_join 10))) sample_members "t");
    vm_compute; reflexivity.
Defined.

(** C35: retention on the in-memory store terminates: with more fuel than there are stored
    events its loop ends, however many batches of 100 that takes.  What it leaves are stored
    events, among them every one that is newer than the cutoff; when it ends without error, it
    leaves exactly those; and it ends with an error only when a stored event has a tag that
    cannot be indexed (which the store accepts), so never when every stored event can be. *)
Theorem retention_terminates fuel p now max_age st :
  store_reachable st → p_retention_max_age_seconds p = Some max_age → (0 < max_age)%Z →
  size (ms_events st) < fuel →
  ∃ r st', apply_retention fuel p now st = Some (r, st') ∧ store_inv st' ∧
    let cutoff := saturate_i64 (now - max_age) in
    (∀ id e, ms_events st' !! id = Some e → ms_events st !! id = Some e) ∧
    (∀ id e, ms_events st !! id = Some e → (cutoff < ev_created_at e)%Z → ms_events st' !! id = Some e) ∧
    match r with
    | Ok _ => ∀ id e, ms_events st' !! id = Some e → (cutoff < ev_created_at e)%Z
    | Err _ => ∃ id e, ms_events st !! id = Some e ∧ ¬ Forall indexable (ev_tags e)
    end.
Proof.
  intros Hst%reachable_inv Hp Hpos Hf. unfold apply_retention. rewrite Hp.
  rewrite bool_decide_eq_false_2 by lia. by apply retention_loop_spec.
Qed.

Definition sample_retention : Policy :=
  mkPolicy 8192 128 16 512 60 None None None None None (Some 5%Z).

(** An event within its time and one past it. *)
Definition two_events : MemoryStore :=
  (memory_insert (memory_insert MemoryStore_new (sample_state_event "a" 2)).2 (mkNostrEvent "b" "bob" 8 1 [] "" "")).2.

Lemma retention_terminates_witness :
  ∃ st', apply_retention 3 sample_retention 10 two_events = Some (Ok tt, st') ∧
    is_Some (ms_events two_events !! "a") ∧ ms_events st' !! "a" = None ∧ is_Some (ms_events st' !! "b").
Proof.
  destruct (retention_terminates 3 sample_retention 10 5 two_events) as (r & st' & E & _ & _ & Hnew & Hr).
  - eapply rtc_r; [eapply rtc_r; [apply rtc_refl|apply step_insert]|apply step_insert].
  - reflexivity.
  - reflexivity.
  - vm_compute. lia.
  - assert (r = Ok tt) as -> by (vm_compute in E; by injection E as <-). exists st'. split; [exact E|].
    split; [vm_compute; by eexists|]. split.
    + destruct (ms_events st' !! "a") as [e|] eqn:Ea; [|reflexivity]. exfalso.
      vm_compute in E. injection E as <-. vm_compute in Ea. discriminate Ea.
    + eexists. apply Hnew; vm_compute; reflexivity.
Defined.

(** C40: within one window of the rate limiter, of any sequence of messages
    exactly the first [limit] pass, for every positive limit. *)
Theorem rate_limit_bound limit window start instants :
  (0 < limit)%Z → Forall (λ now, Z.max 0 (now - start) < window)%Z instants →
  Z.of_nat (passes (mkRateLimitCounter 0 start) (Some limit) window instants)
  = Z.min limit (Z.of_nat (length instants)).
Proof. intros Hl Hw. rewrite passes_in_window by (done || lia). lia. Qed.

Lemma rate_limit_bound_witness :
  Z.of_nat (passes (mkRateLimitCounter 0 0) (Some 2%Z) 60 [1; 2; 3]%Z) = 2%Z.
Proof.
  apply (rate_limit_bound 2 60 0 [1; 2; 3]%Z); [reflexivity|].
  repeat (constructor; [vm_compute; reflexivity|]). constructor.
Defined.
