(* ===== verification/RelayServer.v ===== *)
(** * [RelayServer]: the relay and its connections

    Models [services/relay/src/lib.rs] (configuration, the relay information document),
    [cli.rs], [server.rs] (the tenant of a request, the session of a socket, the routes) and
    the loop of [driver.rs] that a session runs in.  The sessions of a relay share its event
    repository, its memberships and one broadcast channel: a step of the server is a message
    of a client, handled whole, or an event that a session takes from the channel.  The
    pump between a socket and its session is a function of its turns; metrics are not
    modelled. *)

From S2P Require Import Prelude RustStr CoreTypes Externals HexModel Nip34Repo EventFilters RelayCompat RelayEvent RelayStore.
From S2P Require Import Membership NostrAuth Database HttpAuth Dispatch Config Repositories Directory StateService.
From S2P Require Import EventRepo RepositoryStore RelayProtocol RelaySession RelaySessionFacts.

(** ** Configuration: [lib.rs] *)

Record AdmissionHookConfig := mkAdmissionHookConfig { ah_endpoint : string; ah_timeout : Z; ah_fallback : AdmissionFallback }.

Record RelayConfig := mkRelayConfig {
  rl_bind : string; rl_storage : StorageConfig; rl_policy : RelayPolicyConfig; rl_admission : option AdmissionHookConfig
}.

Inductive HookConfigurationError :=
| HcInvalidEndpoint (value : string)
| HcInvalidTimeout (value : string)
| HcInvalidFallback (value : string).
Definition HookConfigurationError_display (e : HookConfigurationError) : string :=
  match e with
  | HcInvalidEndpoint value => "invalid admission endpoint: " +:+ value
  | HcInvalidTimeout value => "invalid admission timeout: " +:+ value
  | HcInvalidFallback value => "invalid admission fallback: " +:+ value
  end.

Inductive RelayConfigError :=
| RlcConfig (err : ConfigError)
| RlcStorage (err : StorageConfigError)
| RlcAdmission (err : HookConfigurationError).
Definition RelayConfigError_display (e : RelayConfigError) : string :=
  match e with
  | RlcConfig err => "relay config error: " +:+ ConfigError_display err
  | RlcStorage err => "relay storage config error: " +:+ StorageConfigError_display err
  | RlcAdmission err => "relay admission config error: " +:+ HookConfigurationError_display err
  end.

(** [storage_from_env], [env_u32] and [env_u64] read the variables the way the state
    service does. *)
Definition relay_storage_from_env (get_var : environment) : result RelayConfigError StorageConfig :=
  map_err RlcStorage (state_storage_from_env get_var).

Definition parse_admission_fallback (value : string) : option AdmissionFallback :=
  let value := to_ascii_lowercase (trim value) in
  if value == "accept" then Some FallbackAccept else if value == "reject" then Some FallbackReject else None.

Definition DEFAULT_ADMISSION_TIMEOUT_SECS : Z := 5.

Definition admission_from_env (get_var : environment) : result RelayConfigError (option AdmissionHookConfig) :=
  match get_var "GITTREE_ADMISSION_URL" with
  | None => Ok None
  | Some value =>
      let endpoint := trim value in
      _ ← fail_if (is_empty endpoint) (RlcAdmission (HcInvalidEndpoint value));
      timeout_secs ← match get_var "GITTREE_ADMISSION_TIMEOUT_SECS" with
                     | Some value =>
                         if is_blank value then Ok DEFAULT_ADMISSION_TIMEOUT_SECS
                         else ok_or (RlcAdmission (HcInvalidTimeout value)) (parse_u64 value)
                     | None => Ok DEFAULT_ADMISSION_TIMEOUT_SECS
                     end;
      fallback ← match get_var "GITTREE_ADMISSION_FALLBACK" with
                 | Some value =>
                     if is_blank value then Ok FallbackReject
                     else ok_or (RlcAdmission (HcInvalidFallback value)) (parse_admission_fallback value)
                 | None => Ok FallbackReject
                 end;
      Ok (Some (mkAdmissionHookConfig endpoint timeout_secs fallback))
  end.

(** [from_env] and [from_toml_file] differ in where the services are read from. *)
Definition RelayConfig_of (services : result ConfigError ServicesConfig) (get_var : environment) : result RelayConfigError RelayConfig :=
  services ← map_err RlcConfig services;
  storage ← relay_storage_from_env get_var;
  policy ← map_err RlcConfig (RelayPolicyConfig_from_env get_var);
  admission ← admission_from_env get_var;
  Ok (mkRelayConfig (sv_relay services) storage policy admission).
Definition RelayConfig_from_env (get_var : environment) : result RelayConfigError RelayConfig :=
  RelayConfig_of (ServicesConfig_from_env_validated_with get_var) get_var.
Definition RelayConfig_from_toml_file (read : string → result string string)
    (parse : string → result string (option TomlServicesConfig)) (get_var : environment) (path : string)
    : result RelayConfigError RelayConfig :=
  RelayConfig_of (ServicesConfig_from_toml_file_validated read parse path) get_var.

(** ** The command line: [cli.rs] *)

Record RelayCli := mkRelayCli { cl_config_path : option string; cl_bind : option string; cl_help : bool }.
Inductive RelayCliError := UnknownFlag (flag : string) | MissingValue (flag : string).
Definition RelayCliError_display (e : RelayCliError) : string :=
  match e with
  | UnknownFlag flag => "unknown flag " +:+ flag
  | MissingValue flag => "missing value for " +:+ flag
  end.

(** The value of [--flag=value]; the prefix is removed as often as it is there. *)
Definition flag_value (prefix flag arg : string) : result RelayCliError string :=
  let value := trim_start_matches prefix arg in
  _ ← fail_if (is_empty value) (MissingValue flag);
  Ok value.

Fixpoint parse_args (args : list string) (cli : RelayCli) : result RelayCliError RelayCli :=
  match args with
  | [] => Ok cli
  | arg :: args =>
      if bool_decide (arg ∈ ["-h"; "--help"]) then parse_args args (mkRelayCli (cl_config_path cli) (cl_bind cli) true)
      else if bool_decide (arg ∈ ["-c"; "--config"]) then
        match args with
        | [] => Err (MissingValue "--config")
        | next :: args => parse_args args (mkRelayCli (Some next) (cl_bind cli) (cl_help cli))
        end
      else if bool_decide (arg ∈ ["-b"; "--bind"]) then
        match args with
        | [] => Err (MissingValue "--bind")
        | next :: args => parse_args args (mkRelayCli (cl_config_path cli) (Some next) (cl_help cli))
        end
      else if starts_with "--config=" arg then
        path ← flag_value "--config=" "--config" arg;
        parse_args args (mkRelayCli (Some path) (cl_bind cli) (cl_help cli))
      else if starts_with "--bind=" arg then
        addr ← flag_value "--bind=" "--bind" arg;
        parse_args args (mkRelayCli (cl_config_path cli) (Some addr) (cl_help cli))
      else Err (UnknownFlag arg)
  end.
(** The first argument is the name of the program. *)
Definition RelayCli_parse (args : list string) : result RelayCliError RelayCli :=
  parse_args (tail args) (mkRelayCli None None false).

(** ** The command: [main.rs], and what the server starts from *)

(** The errors of observability are given as texts. *)
Inductive RelayError :=
| ReCli (err : RelayCliError)
| ReConfig (err : RelayConfigError)
| ReAdmission (err : AdmissionHookError)
| ReObservabilityConfig (err : string)
| ReObservability (err : string)
| ReStorage (err : StorageError)
| ReServe (err : string).
Definition RelayError_display (e : RelayError) : string :=
  match e with
  | ReCli err => "relay cli error: " +:+ RelayCliError_display err
  | ReConfig err => "relay config error: " +:+ RelayConfigError_display err
  | ReAdmission err => "relay admission error: " +:+ AdmissionHookError_display err
  | ReObservabilityConfig err => "relay observability config error: " +:+ err
  | ReObservability err => "relay observability error: " +:+ err
  | ReStorage err => "relay storage error: " +:+ StorageError_display err
  | ReServe err => "relay serve error: " +:+ err
  end.

(** [None]: the help is shown; else what serving gives. *)
Definition run_with_args_and_serve (read : string → result string string)
    (parse : string → result string (option TomlServicesConfig)) (get_var : environment) (args : list string)
    (serve : RelayConfig → result RelayError unit) : result RelayError (option unit) :=
  cli ← map_err ReCli (RelayCli_parse args);
  if cl_help cli then Ok None
  else
    config ← map_err ReConfig (match cl_config_path cli with
      | Some path => RelayConfig_from_toml_file read parse get_var path
      | None => RelayConfig_from_env get_var
      end);
    let config := mkRelayConfig (default (rl_bind config) (cl_bind cli)) (rl_storage config) (rl_policy config) (rl_admission config) in
    Some <$> serve config.

(** The pool and the policy of [build_state]; the rest of the state is set up as
    [open_session] and [RelayServer] below have it. *)
Definition build_state `{PgOptions} (config : RelayConfig) : result RelayError (PoolOptions * PgConnectOptions * Policy) :=
  pool ← map_err ReStorage (pool_options (rl_storage config));
  connect ← map_err ReStorage (write_connect_options (rl_storage config));
  Ok (pool, connect, Policy_from_config (rl_policy config)).

(** ** Sockets: [server.rs] *)

(** What a receiver of an [axum] socket yields: texts, a close, the other frames. *)
Inductive SocketMessage := SmsText (text : string) | SmsClose | SmsOther.
Inductive InboundSocketAction := Forward (text : string) | Continue | Break.

Definition classify_inbound_message (msg : option (result string SocketMessage)) : InboundSocketAction :=
  match msg with
  | None => Break
  | Some (Ok (SmsText text)) => Forward text
  | Some (Ok SmsClose) | Some (Err _) => Break
  | Some (Ok SmsOther) => Continue
  end.

(** A turn of the pump: what the receiver yields and whether the session still takes it, or
    what the session has to send ([None] once it is gone) and whether the socket takes it. *)
Inductive Turn :=
| Inbound (msg : option (result string SocketMessage)) (taken : bool)
| Outbound (text : option string) (taken : bool).

(** The texts passed to the session and those passed to the socket. *)
Fixpoint pump_socket_io (turns : list Turn) : list string * list string :=
  match turns with
  | [] => ([], [])
  | Inbound msg taken :: turns =>
      match classify_inbound_message msg with
      | Forward text => if taken then let '(ins, outs) := pump_socket_io turns in (text :: ins, outs) else ([], [])
      | Continue => pump_socket_io turns
      | Break => ([], [])
      end
  | Outbound (Some text) taken :: turns =>
      if taken then let '(ins, outs) := pump_socket_io turns in (ins, text :: outs) else ([], [])
  | Outbound None _ :: _ => ([], [])
  end.

Definition inbound_text (t : Turn) : option string := match t with Inbound (Some (Ok (SmsText text))) _ => Some text | _ => None end.
Definition outbound_text (t : Turn) : option string := match t with Outbound text _ => text | _ => None end.

(** The pump loses nothing before it ends, and keeps both orders. *)
Lemma pump_in_order turns :
  ∃ n, (pump_socket_io turns).1 = omap inbound_text (take n turns) ∧
       (pump_socket_io turns).2 = omap outbound_text (take n turns).
Proof.
  induction turns as [|t turns [n [IHi IHo]]]; [by exists 0|].
  destruct t as [[[[text| |]|]|] []|[text|] []]; try (by exists 0); exists (S n); simpl;
    try destruct (pump_socket_io turns); simpl in *; subst; done.
Qed.

(** ** The relay information document *)

Definition build_nip11_document `{HexLib} (version : string) (config : RelayConfig) (policy : Policy)
    (tenant : option RelayTenantRecord) : RelayInfoDocument :=
  let name := match tenant ≫= tn_name with
              | Some name => Some name
              | None => Some (default "gittree" (st_application_name (rl_storage config)))
              end in
  let pubkey := (λ record, hex_encode (tn_relay_pubkey record)) <$> tenant in
  mkRelayInfoDocument name (tenant ≫= tn_description) (tenant ≫= tn_banner) (tenant ≫= tn_icon) pubkey pubkey
    (tenant ≫= tn_contact) (Some [1; 11; 34]%Z) (Some "https://github.com/triesap/gittree") (Some version) None None
    (Some (mkRelayLimitation (c_max_message_bytes (rl_policy config)) (c_max_subscriptions (rl_policy config))
       (c_max_limit (rl_policy config)) None (Some (p_max_tags policy)) (Some (p_max_content_len policy)) None
       (Some (default (c_auth_required (rl_policy config)) (tn_auth_required <$> tenant))) None
       (Some (default true ((λ record, negb (tn_public_write record)) <$> tenant))) None None None))
    None None None None None None None (Some ["GRASP-01"]) (Some "requires clone and relays tags") (Some "no additional curation").

(** ** Requests: [server.rs] *)

Definition normalize_host_header (value : string) : string :=
  let value := trim_end_matches "." (trim value) in
  match strip_prefix "[" value ≫= split_once "]" with
  | Some (host, _) => to_ascii_lowercase host
  | None => to_ascii_lowercase (trim_end_matches "." (default value (head (split ":" value))))
  end.

Definition relay_url_from_host (host : string) : string :=
  let host := trim host in
  if starts_with "ws://" host || starts_with "wss://" host then host else "wss://" +:+ host.

(** Whether reading and writing need authentication, then whether they need membership. *)
Definition tenant_auth_requirements (tenant : option RelayTenantRecord) (default_auth_required : bool)
    : bool * bool * bool * bool :=
  match tenant with
  | Some record =>
      let read_membership_required := negb (tn_public_read record) in
      let write_membership_required := negb (tn_public_write record) in
      (read_membership_required, tn_auth_required record || write_membership_required,
       read_membership_required, write_membership_required)
  | None => (default_auth_required, default_auth_required, false, false)
  end.

(** Its store is that of [tx_tenant_id] in either case. *)
Record TenantContext := mkTenantContext { tx_tenant_id : string; tx_tenant : option RelayTenantRecord }.

Section Requests.
Context {N : Type} `{RelayTenantRepository N} `{HttpLib} `{HexLib}.

Definition extract_host (headers : HeaderMap) : option string := normalize_host_header <$> header_str "host" headers.

(** An error is a status.  [build_state] always sets up repositories. *)
Definition resolve_tenant (has_repos : bool) (headers : HeaderMap) : stateful N Z TenantContext :=
  if negb has_repos then mret (mkTenantContext "default" None)
  else
    host ← lift (ok_or 400%Z (extract_host headers));
    tenant ← map_err_st (λ _, 500%Z) (tenant_by_host host);
    tenant ← lift (ok_or 404%Z tenant);
    mret (mkTenantContext (tn_id tenant) (Some tenant)).

Definition accepts_nostr_json (headers : HeaderMap) : bool :=
  default false (contains "application/nostr+json" <$> header_str "accept" headers).

Inductive RootReply := Upgraded (tenant : TenantContext) | Document (doc : RelayInfoDocument) | Status (status : Z).

Definition root_handler (version : string) (config : RelayConfig) (policy : Policy) (has_repos websocket : bool)
    (headers : HeaderMap) (n : N) : RootReply * N :=
  if websocket then
    let '(r, n) := resolve_tenant has_repos headers n in
    (match r with Ok tenant => Upgraded tenant | Err status => Status status end, n)
  else if accepts_nostr_json headers then
    let '(r, n) := resolve_tenant has_repos headers n in
    (match r with
     | Ok tenant => Document (build_nip11_document version config policy (tx_tenant tenant))
     | Err status => Status status
     end, n)
  else (Status 404, n).
End Requests.

(** ** Sessions and the loop they run in *)

Section Server.
Context {R M : Type} `{EventRepository R} `{RelayMembershipRepository M}.
Context `{JsonLib} `{HexLib} `{CryptoLib} `{SignerLib} `{EventCodec} `{HashOrder}.

(** What the sessions of a relay are set up with. *)
Context (config : RelayConfig) (admission : option (RelayEvent → AdmissionDecision)).

Abbreviation session := (Session (RepositoryStore R) M).

Definition tenant_store (repo : R) (tenant : TenantContext) : RepositoryStore R :=
  RepositoryStore_with_tenant repo (tx_tenant_id tenant).

(** The relay's own key is made an owner each time a socket is opened. *)
Definition seed_owner_membership (m : M) (tenant_id : string) (relay_pubkey : bytes) (now : Z) : result StorageError unit * M :=
  match membership_by_pubkey m tenant_id relay_pubkey with
  | Err err => (Err err, m)
  | Ok existing =>
      let created_at := default now (mr_created_at <$> existing) in
      upsert_membership m (mkRelayMembershipRecord tenant_id relay_pubkey "owner" "active" created_at now)
  end.

(** The session of a socket, as [handle_socket_with_pump] builds it, and the memberships. *)
Definition open_session (tenant : TenantContext) (repo : R) (m : M) (now instant : Z) (random : bytes) : session * M :=
  let '(read_auth, write_auth, read_membership, write_membership) :=
    tenant_auth_requirements (tx_tenant tenant) (c_auth_required (rl_policy config)) in
  let relay_url := (λ record, relay_url_from_host (tn_host record)) <$> tx_tenant tenant in
  let s := Session_with_broadcast (tenant_store repo tenant) (Policy_from_config (rl_policy config)) admission []
             read_auth write_auth instant random in
  let s := with_membership s (Some (tx_tenant_id tenant)) (Some m) in
  let s := with_membership_requirements s read_membership write_membership in
  let s := with_relay_url s relay_url in
  match tx_tenant tenant with
  | Some record =>
      (with_relay_signer s (tn_relay_pubkey record) (tn_relay_secret record),
       (seed_owner_membership m (tx_tenant_id tenant) (tn_relay_pubkey record) now).2)
  | None => (s, m)
  end.

(** A connection: its tenant, its session, the events it has yet to take from the channel,
    and what was sent to the client. *)
Record ClientConnection := mkClientConnection {
  co_tenant : TenantContext; co_session : session; co_events : list NostrEvent; co_sent : list string
}.
Record RelayServer := mkRelayServer { rly_repo : R; rly_members : M; rly_connections : gmap nat ClientConnection }.

(** [broadcast::channel(1024)]: a receiver that lags loses the oldest events. *)
Definition CHANNEL_CAPACITY : nat := 1024.
Definition keep_last {A} (n : nat) (l : list A) : list A := drop (length l - n) l.
Definition publish (events : list NostrEvent) (c : ClientConnection) : ClientConnection :=
  mkClientConnection (co_tenant c) (co_session c)
    (foldl (λ waiting e, keep_last CHANNEL_CAPACITY (waiting ++ [e])) (co_events c) events) (co_sent c).

(** A session works on the repository and the memberships that all sessions share. *)
Definition attach (s : RelayServer) (c : ClientConnection) : session :=
  set_store (tenant_store (rly_repo s) (co_tenant c))
    (set_membership (Some (rly_members s)) (set_broadcast (Some []) (co_session c))).

Inductive RelayOp :=
| OpConnect (id : nat) (tenant : TenantContext) (now instant : Z) (random : bytes)
| OpInput (id : nat) (input : string) (env : Env)
| OpBroadcast (id : nat)
| OpDisconnect (id : nat).

Definition connect (id : nat) (tenant : TenantContext) (now instant : Z) (random : bytes) (s : RelayServer) : RelayServer :=
  let '(session, members) := open_session tenant (rly_repo s) (rly_members s) now instant random in
  mkRelayServer (rly_repo s) members
    (<[id := mkClientConnection tenant session [] (encode_response <$> initial_messages session)]> (rly_connections s)).

(** The arm [input = inbound.recv()] of [run_with_broadcast]; [None] when the fuel of
    retention runs out. *)
Definition receive (fuel : nat) (id : nat) (input : string) (env : Env) (s : RelayServer) : option RelayServer :=
  match rly_connections s !! id with
  | None => Some s
  | Some c =>
      '(responses, session) ← handle_text fuel (attach s c) input env;
      let c := mkClientConnection (co_tenant c) session (co_events c) (co_sent c ++ responses) in
      Some (mkRelayServer (rs_repo (s_store session)) (default (rly_members s) (s_membership session))
              (publish (default [] (s_broadcast session)) <$> <[id := c]> (rly_connections s)))
  end.

(** The arm [recv = broadcast_rx.recv()]. *)
Definition take_broadcast (c : ClientConnection) : ClientConnection :=
  match co_events c with
  | [] => c
  | event :: events =>
      mkClientConnection (co_tenant c) (co_session c) events
        (co_sent c ++ (encode_response <$> dispatch_event (co_session c) event))
  end.

Definition relay_step (fuel : nat) (op : RelayOp) (s : RelayServer) : option RelayServer :=
  match op with
  | OpConnect id tenant now instant random =>
      Some (if is_some (rly_connections s !! id) then s else connect id tenant now instant random s)
  | OpInput id input env => receive fuel id input env s
  | OpBroadcast id =>
      Some (mkRelayServer (rly_repo s) (rly_members s) (alter take_broadcast id (rly_connections s)))
  | OpDisconnect id => Some (mkRelayServer (rly_repo s) (rly_members s) (delete id (rly_connections s)))
  end.

Fixpoint relay_run (fuel : nat) (ops : list RelayOp) (s : RelayServer) : option RelayServer :=
  match ops with
  | [] => Some s
  | op :: ops => relay_step fuel op s ≫= relay_run fuel ops
  end.
End Server.

(** ** What a session does to its store

    A property of stores that insertions and deletions keep is kept by every message. *)

Section SessionStore.
Context {S M : Type} `{EventStore S} `{RelayMembershipRepository M}.
Context `{JsonLib} `{HexLib} `{CryptoLib} `{SignerLib} `{EventCodec}.
Context (P : S → Prop) (insert_keeps : ∀ st e, P st → P (store_insert st e).2).
Context (delete_keeps : ∀ st id, P st → P (store_delete st id).2).

Lemma delete_all_keeps l : ∀ st, P st → P (delete_all st l).2.
Proof using delete_keeps.
  induction l as [|e l IH]; intros st Hst; [done|]. simpl. pose proof (delete_keeps st (ev_id e) Hst) as Hd.
  destruct (store_delete st (ev_id e)) as [[b|err] st1]; [by apply IH|done].
Qed.

Lemma retention_loop_keeps fuel cutoff : ∀ st res st', retention_loop fuel cutoff st = Some (res, st') → P st → P st'.
Proof using delete_keeps.
  induction fuel as [|fuel IH]; intros st res st'; [done|]. cbn [retention_loop].
  destruct (store_query st _) as [[|e l]|err]; [by intros [= _ <-]| |by intros [= _ <-]].
  intros Hl Hst. pose proof (delete_all_keeps (e :: l) st Hst) as Hd.
  destruct (delete_all st (e :: l)) as [[[]|err] st1]; [by eapply IH|by simplify_eq].
Qed.

Lemma store_event_keeps fuel (s : Session S M) e now out s' :
  store_event fuel s e now = Some (out, s') → P (s_store s) → P (s_store s').
Proof using insert_keeps delete_keeps.
  unfold store_event. intros Hs Hp. pose proof (insert_keeps _ e Hp) as Hi.
  destruct (store_insert (s_store s) e) as [[[]|err] st]; simpl in *; [|by simplify_eq|by simplify_eq].
  destruct (apply_retention fuel (s_policy s) now st) as [[res st']|] eqn:Er; [|done]. simplify_eq/=.
  unfold apply_retention in Er. destruct (p_retention_max_age_seconds _); [|by simplify_eq].
  case_bool_decide; [by simplify_eq|by eapply retention_loop_keeps].
Qed.

Lemma handle_event_keeps fuel (s : Session S M) v env out s' :
  handle_event fuel s v env = Some (out, s') → P (s_store s) → P (s_store s').
Proof using insert_keeps delete_keeps.
  unfold handle_event. destruct (event_from_value v) as [e|]; [|by intros [= _ <-]].
  destruct (rate_limit_event s _) as [limited s1] eqn:El. apply rate_limit_event_same in El as [l ->].
  destruct limited; [by intros [= _ <-]|]. destruct (event_gate _ e _) as [[]|]; [|by intros [= _ <-]].
  destruct (handle_membership_event _ e _) as [[o s2]|] eqn:Em.
  { intros [= _ <-]. by apply membership_event_store in Em as ->. }
  destruct (write_gate _ e) as [[]|]; [|by intros [= _ <-]]. intros Hs.
  exact (store_event_keeps _ (set_rate_limiter l s) _ _ _ _ Hs).
Qed.

Lemma handle_text_keeps fuel (s : Session S M) input env out s' :
  handle_text fuel s input env = Some (out, s') → P (s_store s) → P (s_store s').
Proof using insert_keeps delete_keeps.
  unfold handle_text, handle_raw. match goal with |- context [if ?b then _ else _] => destruct b end; [by intros [= _ <-]|].
  destruct (decode_client_message input) as [m|]; [|by intros [= _ <-]].
  destruct (handle_message fuel s m env) as [[o s1]|] eqn:Em; [|done]. intros [= _ <-].
  destruct m as [v|sub fs|sub|v|sub fs]; cbn [handle_message] in Em.
  - by eapply handle_event_keeps.
  - by injection Em as [-> _]%handle_req_keeps.
  - by injection Em as _ <-.
  - injection Em as Em. unfold handle_auth in Em. by repeat case_match; simplify_eq.
  - by injection Em as [l ->]%handle_count_keeps.
Qed.
End SessionStore.

(** ** The tenants of a relay *)

Section Facts.
Context {R M : Type} `{EventRepositoryLaws R} `{RelayMembershipRepository M}.
Context `{JsonLib} `{CryptoLib} `{SignerLib} `{EventCodec}.
Context (config : RelayConfig) (admission : option (RelayEvent → AdmissionDecision)).

Abbreviation server := (@RelayServer R M _).
Abbreviation table := (gmap bytes EventRecord).

(** Tables that agree on the records of tenants other than [t]. *)
Definition same_elsewhere (t : string) (tbl tbl' : table) : Prop :=
  ∀ i r, er_tenant_id r ≠ t → tbl' !! i = Some r ↔ tbl !! i = Some r.

(** A store of tenant [t] over a table that differs from [tbl] in records of [t] only. *)
Definition confined (t : string) (tbl : table) (st : RepositoryStore R) : Prop :=
  rs_tenant_id st = t ∧ ∃ tbl', represents (rs_repo st) tbl' ∧ same_elsewhere t tbl tbl'.

Lemma insert_confined t tbl st e : confined t tbl st → confined t tbl (store_insert st e).2.
Proof.
  intros (<- & tbl1 & Hr & Hs). destruct (store_insert st e) as [res st'] eqn:E.
  destruct (insert_isolated _ _ _ _ _ Hr E) as (Ht & tbl2 & Hr2 & Hi). split; [done|]. exists tbl2. split; [done|].
  intros i r Hne. rewrite <-(Hs i r Hne). destruct (Hi i r) as [Hto Hfrom]. split.
  - intros [?|[Her _]]%Hto; [done|]. by apply event_to_record_Ok in Her as (? & _).
  - intros [?|[? _]]%Hfrom; done.
Qed.

Lemma delete_confined t tbl st id : confined t tbl st → confined t tbl (store_delete st id).2.
Proof.
  intros (<- & tbl1 & Hr & Hs). destruct (store_delete st id) as [res st'] eqn:E.
  destruct (delete_isolated _ _ _ _ _ Hr E) as (Ht & tbl2 & Hr2 & Hd). split; [done|]. exists tbl2. split; [done|].
  intros i r Hne. by rewrite <-(Hs i r Hne), Hd.
Qed.

(** Whose message an operation handles. *)
Definition acts_for (s : server) (op : RelayOp) : option string :=
  match op with
  | OpInput id _ _ => (λ c, tx_tenant_id (co_tenant c)) <$> rly_connections s !! id
  | _ => None
  end.

Lemma relay_step_confined fuel op s s' tbl t :
  represents (rly_repo s) tbl → relay_step config admission fuel op s = Some s' → acts_for s op ≠ Some t →
  ∃ tbl', represents (rly_repo s') tbl' ∧ ∀ i r, er_tenant_id r = t → tbl' !! i = Some r ↔ tbl !! i = Some r.
Proof.
  intros Hr. destruct op as [id tenant now instant random|id input env|id|id]; cbn [relay_step acts_for].
  - intros [= <-] _. exists tbl. split; [|done]. destruct (is_some _); [done|]. unfold connect.
    by destruct (open_session _ _ _ _ _ _ _ _).
  - unfold receive. destruct (rly_connections s !! id) as [c|] eqn:Ec; [|intros [= <-] _; by exists tbl].
    destruct (handle_text fuel (attach s c) input env) as [[out session]|] eqn:Eh; [|done]. intros [= <-] Ht. simpl in *.
    destruct (handle_text_keeps (confined (tx_tenant_id (co_tenant c)) tbl) (insert_confined _ _) (delete_confined _ _)
      _ _ _ _ _ _ Eh) as (_ & tbl' & Hr' & Hs).
    { split; [done|]. by exists tbl. }
    exists tbl'. split; [done|]. intros i r <-. apply Hs. congruence.
  - intros [= <-] _. by exists tbl.
  - intros [= <-] _. by exists tbl.
Qed.

(** The steps in which no client of [t] sends a message. *)
Definition others_step (t : string) (s s' : server) : Prop :=
  ∃ fuel op, relay_step config admission fuel op s = Some s' ∧ acts_for s op ≠ Some t.

(** C21: tenants do not touch each other's events: however the messages of clients interleave, as
    long as no client of a tenant sends one, the records of that tenant stay as they are, and
    no record of that tenant appears. *)
Theorem tenants_keep_their_events t s s' tbl :
  represents (rly_repo s) tbl → rtc (others_step t) s s' →
  ∃ tbl', represents (rly_repo s') tbl' ∧ ∀ i r, er_tenant_id r = t → tbl' !! i = Some r ↔ tbl !! i = Some r.
Proof.
  intros Hr Hs. revert tbl Hr. induction Hs as [s|s s1 s2 (fuel & op & Hstep & Ht) _ IH]; intros tbl Hr; [by exists tbl|].
  destruct (relay_step_confined _ _ _ _ _ _ Hr Hstep Ht) as (tbl1 & Hr1 & Ht1).
  destruct (IH _ Hr1) as (tbl2 & Hr2 & Ht2). exists tbl2. split; [done|]. intros i r Hrt. by rewrite Ht2, Ht1.
Qed.

(** *** Delivery *)

(** The client has a subscription [sub] that selects [e]. *)
Definition subscribed (c : @ClientConnection R M _) (sub : string) (e : NostrEvent) : Prop :=
  ∃ tags filters f, TagIndex_from_tags (ev_tags e) = Ok tags ∧
    (sub, filters) ∈ registry_iter (s_registry (co_session c)) ∧ f ∈ filters ∧ matches f e tags = true.

Lemma dispatch_subscribed c sub e : subscribed c sub e → SmEvent sub (event_to_value e) ∈ dispatch_event (co_session c) e.
Proof.
  intros (tags & filters & f & Ht & Hr & Hf & Hm). unfold dispatch_event. rewrite Ht. apply list_elem_of_omap.
  exists (sub, filters). split; [done|]. destruct filters as [|f0 filters]; [by apply not_elem_of_nil in Hf|].
  assert (existsb (λ f, matches f e tags) (f0 :: filters) = true) as -> by (apply existsb_true; eauto). done.
Qed.

(** Taking what waits, one event after the other. *)
Lemma take_all n : ∀ fuel j s c, rly_connections s !! j = Some c → length (co_events c) = n →
  ∃ s' c', relay_run config admission fuel (replicate n (OpBroadcast j)) s = Some s' ∧
    rly_connections s' !! j = Some c' ∧ co_session c' = co_session c ∧
    (∀ e sub, e ∈ co_events c → subscribed c sub e →
       encode_response (SmEvent sub (event_to_value e)) ∈ co_sent c') ∧
    (∀ m, m ∈ co_sent c → m ∈ co_sent c').
Proof.
  induction n as [|n IH]; intros fuel j s c Hj Hn.
  { exists s, c. split_and!; try done. intros e sub He. destruct (co_events c); [by apply not_elem_of_nil in He|done]. }
  cbn [replicate relay_run relay_step]. unfold mbind, option_bind.
  destruct (co_events c) as [|e0 events] eqn:Ee; [done|].
  set (c1 := take_broadcast c). assert (co_events c1 = events ∧ co_session c1 = co_session c ∧
    co_sent c1 = co_sent c ++ (encode_response <$> dispatch_event (co_session c) e0)) as (He1 & Hs1 & Ho1).
  { unfold c1, take_broadcast. by rewrite Ee. }
  set (s1 := mkRelayServer _ _ _). assert (rly_connections s1 !! j = Some c1) as Hj1.
  { simpl. by rewrite lookup_alter_eq, Hj. }
  destruct (IH fuel j s1 c1 Hj1) as (s' & c' & Hrun & Hj' & Hs' & Hev & Hout).
  { rewrite He1. simpl in Hn. lia. }
  exists s', c'. split_and!; [done|done|by rewrite Hs'| |].
  - intros e sub [->|He]%elem_of_cons Hsub.
    + apply Hout. rewrite Ho1. apply elem_of_app. right. apply list_elem_of_fmap. eexists. split; [done|].
      by apply dispatch_subscribed.
    + apply Hev; [by rewrite He1|]. unfold subscribed. by rewrite Hs1.
  - intros m Hm. apply Hout. rewrite Ho1. apply elem_of_app. by left.
Qed.

Lemma keep_last_snoc {A} n (l : list A) x : n ≠ 0 → x ∈ keep_last n (l ++ [x]).
Proof.
  intros Hn. unfold keep_last. rewrite length_app. simpl. rewrite drop_app_le by lia. apply elem_of_app. right.
  apply list_elem_of_here.
Qed.

(** C32: an accepted event reaches the subscribers: when the message of a client makes the relay
    publish an event, every connection of the relay, of whichever tenant, has the event waiting, and
    once it has taken what waits for it, the event was sent for each of its subscriptions that
    selects it. *)
Theorem published_reaches_subscribers fuel id input env s c out session e s1 :
  rly_connections s !! id = Some c → handle_text fuel (attach s c) input env = Some (out, session) →
  s_broadcast session = Some [e] → relay_step config admission fuel (OpInput id input env) s = Some s1 →
  ∀ j cj, rly_connections s1 !! j = Some cj →
  ∃ s2 cj', relay_run config admission fuel (replicate (length (co_events cj)) (OpBroadcast j)) s1 = Some s2 ∧
    rly_connections s2 !! j = Some cj' ∧
    ∀ sub, subscribed cj sub e → encode_response (SmEvent sub (event_to_value e)) ∈ co_sent cj'.
Proof.
  intros Hc Hh Hb Hs j cj Hj. assert (e ∈ co_events cj) as He.
  { cbn [relay_step] in Hs. unfold receive, mbind, option_bind in Hs. rewrite Hc, Hh, Hb in Hs. injection Hs as <-.
    simpl in Hj. rewrite lookup_fmap in Hj. destruct (<[id := _]> (rly_connections s) !! j) as [c0|]; [|done].
    injection Hj as <-. by apply keep_last_snoc. }
  destruct (take_all _ fuel j s1 cj Hj eq_refl) as (s2 & cj' & Hrun & Hj' & _ & Hev & _). eauto 6.
Qed.
End Facts.

(** ** Two tenants

    Anyone may write to the first one, and only its members may read; anyone may read from the
    second.  A client of the second, without authentication, is sent what was written to the first. *)

Module ServerSample.
#[local] Existing Instances hex_model hex_model_laws sample_hash_order sample_signer_lib.
#[local] Instance json : JsonLib := {|
  json_from_str s :=
    if s == "req" then Some (JArray [JString "REQ"; JString "all"; JObject []])
    else if s == "event" then Some (JArray [JString "EVENT"; JNull]) else None;
  json_to_string v := match v with JArray (JString p :: _) => p | JArray (_ :: JString p :: _) => p | _ => "" end
|}.
#[local] Instance crypto : CryptoLib := {|
  Signature := bytes; XOnlyPublicKey := bytes; sha256 := digest_model; signature_from_str := hex_decode;
  xonly_from_str := hex_decode; verify_schnorr sig m pk := sig == (m +:+ pk)
|}.

Definition author : bytes := "0123456789abcdef0123456789abcdef".
Definition note : NostrEvent :=
  let e := mkNostrEvent "" (hex_encode author) 5 1 [] "hi" "" in
  mkNostrEvent (compute_id e) (hex_encode author) 5 1 [] "hi" (hex_encode (default "" (hex_decode (compute_id e)) +:+ author)).
#[local] Instance events : EventCodec := {| event_from_value _ := Some note; event_to_value _ := JNull |}.

Definition tenant (id : string) (public_read : bool) : TenantContext :=
  mkTenantContext id (Some (mkRelayTenantRecord id id author author "nonce" "local" None None None None None false public_read true 0 0)).
Definition config : RelayConfig :=
  mkRelayConfig "" (mkStorageConfig "" None 1 1 None None None)
    (mkRelayPolicyConfig 100 10 10 100 10 None None None None None None false) None.
Definition env : Env := mkEnv 10 0 "".
Definition run : list RelayOp → RelayServer → option (@RelayServer MemoryEvents MemoryMembership sample_signer_lib) :=
  relay_run config None 1.
Definition empty : @RelayServer MemoryEvents MemoryMembership sample_signer_lib :=
  mkRelayServer (mkMemoryEvents ∅) (mkMemoryMembership ∅ ∅) ∅.
Definition opened : option (@RelayServer MemoryEvents MemoryMembership sample_signer_lib) :=
  run [OpConnect 1 (tenant "private" false) 0 0 ""; OpConnect 2 (tenant "public" true) 0 0 ""; OpInput 2 "req" env] empty.

Definition before : @RelayServer MemoryEvents MemoryMembership sample_signer_lib := default empty opened.
Definition after : option (@RelayServer MemoryEvents MemoryMembership sample_signer_lib) :=
  relay_step config None 1 (OpInput 1 "event" env) before.
Definition published : option (list NostrEvent) :=
  c ← rly_connections before !! 1;
  '(_, session) ← handle_text 1 (attach before c) "event" env;
  s_broadcast session.
(** The tenant of a client, its subscriptions, and how many events wait for it. *)
Definition view (s : option (@RelayServer MemoryEvents MemoryMembership sample_signer_lib)) (id : nat)
    : option (string * list (string * list Filter) * nat) :=
  s ← s;
  (λ c, (tx_tenant_id (co_tenant c), registry_iter (s_registry (co_session c)), length (co_events c))) <$> rly_connections s !! id.

Lemma published_note : published = Some [note].
Proof. vm_compute. reflexivity. Qed.
Lemma after_views : view after 1 = Some ("private", [], 1) ∧ view after 2 = Some ("public", [("all", [empty_filter])], 1).
Proof. vm_compute. split; reflexivity. Qed.

(** The second client's own tenant has no event, and it is sent one. *)
Lemma published_reaches_subscribers_witness :
  ∃ s2 c2, (after ≫= run [OpBroadcast 2]) = Some s2 ∧ rly_connections s2 !! 2 = Some c2 ∧ "EVENT" ∈ co_sent c2.
Proof.
  pose proof published_note as Hp. unfold published in Hp. pose proof (proj2 after_views) as Hv.
  destruct (rly_connections before !! 1) as [c|] eqn:Ec; [|discriminate Hp]. unfold mbind, option_bind in Hp.
  destruct (handle_text 1 (attach before c) "event" env) as [[out session]|] eqn:Eh; [|discriminate Hp].
  destruct after as [s1|] eqn:Es; [|discriminate Hv]. unfold view, mbind, option_bind in Hv.
  destruct (rly_connections s1 !! 2) as [c1|] eqn:E1; [|discriminate Hv]. injection Hv as _ Hreg Hlen.
  destruct (published_reaches_subscribers config None 1 1 "event" env before c out session note s1 Ec Eh Hp Es 2 c1 E1)
    as (s2 & c2 & Hrun & H2 & Hsub).
  rewrite Hlen in Hrun. exists s2, c2. split; [exact Hrun|]. split; [exact H2|].
  assert (subscribed c1 "all" note) as Hs.
  { exists ∅, [empty_filter], empty_filter. split; [reflexivity|]. rewrite Hreg.
    split; [apply list_elem_of_here|]. split; [apply list_elem_of_here|reflexivity]. }
  exact (Hsub "all" Hs).
Defined.

Lemma before_represents : represents (rly_repo before) ∅.
Proof. split; [intros id; vm_compute; done|]. intros key r. vm_compute. done. Qed.

Lemma tenants_keep_their_events_witness :
  ∃ s1 tbl, after = Some s1 ∧ represents (rly_repo s1) tbl ∧ ∀ i r, er_tenant_id r = "public" → tbl !! i ≠ Some r.
Proof.
  destruct after as [s1|] eqn:Es; [|pose proof (proj2 after_views) as Hv; rewrite Es in Hv; discriminate Hv].
  destruct (tenants_keep_their_events config None "public" before s1 ∅ before_represents) as (tbl & Hr & Ht).
  - apply rtc_once. exists 1, (OpInput 1 "event" env). split; [exact Es|]. vm_compute. discriminate.
  - exists s1, tbl. split; [reflexivity|]. split; [exact Hr|]. intros i r Hi Hx. apply (Ht i r Hi) in Hx.
    by rewrite lookup_empty in Hx.
Defined.
End ServerSample.
