(* ===== verification/RelayProbe.v ===== *)
(** * [RelayProbe]: judging relays

    Models [crates/relay-probe/src/lib.rs] (the document of a relay is fetched and evaluated,
    and an active probe may add to it) and [main.rs] (the command line, the targets, and the
    records that [--store] leaves for the admission service).  The clock, the answers to HTTP
    requests and the connections of a visit are given with it; the setters of [Url], the
    codec of the document and the JSON of the output are classes. *)

From S2P Require Import Prelude RustStr CoreTypes Externals HexModel Grasp Nip34Repo EventFilters RelayCompat RelayEvent RelayStore.
From S2P Require Import Membership NostrAuth Database HttpAuth RelayAdapter Dispatch Config Repositories PostgresRepos Cache StateService GitHook.
From S2P Require Import AdmissionService RelayServer.

(** ** The crates *)

(** The setters of [Url] that the probe uses, and [to_string]. *)
Class UrlSetters `{UrlScheme} := {
  url_set_path : string → Url → Url;
  url_clear_query : Url → Url;
  url_clear_fragment : Url → Url;
  url_to_string : Url → string
}.
(** [serde_json] on the document of a relay, whose codec is derived. *)
Class DocumentCodec := {
  document_from_json : string → result string RelayInfoDocument;
  document_to_json : RelayInfoDocument → string
}.
(** What is written can be read back. *)
Class DocumentCodecLaws `{DocumentCodec} : Prop := {
  document_roundtrip : ∀ d, document_from_json (document_to_json d) = Ok d
}.

(** ** Results and errors: [lib.rs] *)

Inductive RelayProbeError :=
| RpInvalidRelayUrl (value : string)
| RpHttp (message : string)
| RpParse (message : string).

Definition RelayProbeError_display (e : RelayProbeError) : string :=
  match e with
  | RpInvalidRelayUrl value => "invalid relay url: " +:+ value
  | RpHttp message => "relay probe http error: " +:+ message
  | RpParse message => "relay probe parse error: " +:+ message
  end.

Record ActiveProbeResult := mkActiveProbeResult { apr_ok : bool; apr_error : option string }.

Record RelayProbeResult := mkRelayProbeResult {
  rpr_relay_url : string;
  rpr_nip11_url : option string;
  rpr_nip11_available : bool;
  rpr_report : RelayCompatibilityReport;
  rpr_observed_capabilities : list RelayCapability;
  rpr_nip11 : option RelayInfoDocument;
  rpr_active_probe : option ActiveProbeResult;
  rpr_warnings : list string
}.

(** [RelayProbeClient] *)
Class RelayProbeClient (T : Type) := {
  fetch_nip11 : T → string → result RelayProbeError (option string)
}.

(** The client over HTTP is what a GET with [Accept: application/nostr+json] gives. *)
Record HttpRelayProbeClient := mkHttpRelayProbeClient { hc_get : string → result string HttpResponse }.

Definition http_fetch_nip11 `{GitHook.HttpLib} (client : HttpRelayProbeClient) (url : string)
    : result RelayProbeError (option string) :=
  response ← map_err RpHttp (hc_get client url);
  if bool_decide (hr_status response = 404)%Z then Ok None
  else
    _ ← fail_if (negb (is_success response)) (RpHttp ("status " +:+ status_display (hr_status response)));
    map_err RpHttp (Some <$> hr_body response).
#[export] Instance Http_probe_client `{GitHook.HttpLib} : RelayProbeClient HttpRelayProbeClient :=
  {| fetch_nip11 := http_fetch_nip11 |}.

Section Probe.
Context `{UrlSetters} `{DocumentCodec} {C : Type} `{RelayProbeClient C}.

(** [let _ = url.set_scheme(…)]: a scheme that cannot be set stays. *)
Definition resolve_nip11_url (relay_url : string) : result RelayProbeError string :=
  url ← ok_or (RpInvalidRelayUrl relay_url) (url_parse relay_url);
  url ← (if url_scheme url == "wss" then Ok (default url (url_set_scheme "https" url))
         else if url_scheme url == "ws" then Ok (default url (url_set_scheme "http" url))
         else if bool_decide (url_scheme url ∈ ["https"; "http"]) then Ok url
         else Err (RpInvalidRelayUrl relay_url));
  Ok (url_to_string (url_clear_fragment (url_clear_query (url_set_path "/" url)))).

Definition probe_relay (relay_url : string) (client : C) : result RelayProbeError RelayProbeResult :=
  nip11_url ← resolve_nip11_url relay_url;
  body ← fetch_nip11 client nip11_url;
  '(nip11, warnings) ← match body with
    | Some body =>
        doc ← map_err RpParse (document_from_json body);
        Ok (Some doc, [])
    | None => Ok (None, ["nip-11 unavailable; falling back to active probes"])
    end;
  let supported := from_option capabilities_from_nip11 [] nip11 in
  Ok (mkRelayProbeResult relay_url (Some nip11_url) (is_some nip11)
        (evaluate RelayCapabilitySet_default relay_url supported) supported nip11 None warnings).
End Probe.

Definition with_evidence (result : RelayProbeResult) (report : RelayCompatibilityReport)
    (observed : list RelayCapability) (probe : ActiveProbeResult) : RelayProbeResult :=
  mkRelayProbeResult (rpr_relay_url result) (rpr_nip11_url result) (rpr_nip11_available result) report observed
    (rpr_nip11 result) (Some probe) (rpr_warnings result).

(** The report is evaluated again only after a success.  [None] while the probe waits. *)
Definition probe_relay_with_adapter_result `{RelayAdapter T} (result : RelayProbeResult) (adapter : T) (w : Surroundings)
    : Prelude.result (fault RelayProbeError) (option RelayProbeResult) :=
  match (probe_write_read adapter w).1 with
  | Ok None => Ok None
  | Ok (Some _) =>
      let supported := merge_active_probe_evidence (rpr_observed_capabilities result) (mkActiveProbeEvidence true) in
      Ok (Some (with_evidence result (evaluate RelayCapabilitySet_default (rpr_relay_url result) supported) supported
        (mkActiveProbeResult true None)))
  | Err (Raised err) =>
      Ok (Some (with_evidence result (rpr_report result)
        (merge_active_probe_evidence (rpr_observed_capabilities result) (mkActiveProbeEvidence false))
        (mkActiveProbeResult false (Some (RelayAdapterError_display err)))))
  | Err Panicked => Err Panicked
  end.

(** ** The command: [main.rs] *)

Record ProbeCli := mkProbeCli {
  pc_relay : option string;
  pc_all : bool;
  pc_json : bool;
  pc_store : bool;
  pc_active : option bool;
  pc_timeout_secs : option Z;
  pc_secret_key : option string
}.
Definition no_flags : ProbeCli := mkProbeCli None false false false None None None.

(** The flags, one after the other. *)
Fixpoint parse_flags (args : list string) (cli : ProbeCli) : result RelayProbeError ProbeCli :=
  let '(mkProbeCli relay all json store active timeout_secs secret_key) := cli in
  match args with
  | [] => Ok cli
  | value :: args =>
      if value == "--all" then parse_flags args (mkProbeCli relay true json store active timeout_secs secret_key)
      else if value == "--json" then parse_flags args (mkProbeCli relay all true store active timeout_secs secret_key)
      else if value == "--store" then parse_flags args (mkProbeCli relay all json true active timeout_secs secret_key)
      else if value == "--active" then parse_flags args (mkProbeCli relay all json store (Some true) timeout_secs secret_key)
      else if value == "--no-active" then parse_flags args (mkProbeCli relay all json store (Some false) timeout_secs secret_key)
      else if value == "--timeout-secs" then
        match args with
        | [] => Err (RpInvalidRelayUrl "missing timeout value")
        | next :: args =>
            parsed ← ok_or (RpInvalidRelayUrl "invalid timeout value") (parse_u64 next);
            parse_flags args (mkProbeCli relay all json store active (Some parsed) secret_key)
        end
      else if value == "--secret-key" then
        match args with
        | [] => Err (RpInvalidRelayUrl "missing secret key")
        | next :: args => parse_flags args (mkProbeCli relay all json store active timeout_secs (Some next))
        end
      else if value == "--relay" then
        match args with
        | [] => Err (RpInvalidRelayUrl "--relay")
        | next :: args => parse_flags args (mkProbeCli (Some next) all json store active timeout_secs secret_key)
        end
      else if starts_with "--relay=" value then
        parse_flags args (mkProbeCli (Some (trim_start_matches "--relay=" value)) all json store active timeout_secs secret_key)
      else Err (RpInvalidRelayUrl ("unknown flag " +:+ value))
  end.

Definition ProbeCli_parse (args : list string) : result RelayProbeError ProbeCli :=
  cli ← parse_flags (tail args) no_flags;
  _ ← fail_if (pc_all cli && is_some (pc_relay cli)) (RpInvalidRelayUrl "cannot combine --all with --relay");
  _ ← fail_if (negb (pc_all cli) && negb (is_some (pc_relay cli))) (RpInvalidRelayUrl "missing --relay or --all");
  Ok cli.

Inductive ProbeCommandError :=
| PceCli (err : RelayProbeError)
| PceConfig (err : ConfigError)
| PceMissingTargets (message : string)
| PceRuntime (message : string)
| PceStorageConfig (err : StorageConfigError)
| PceStorage (err : StorageError).

Definition ProbeCommandError_display (e : ProbeCommandError) : string :=
  match e with
  | PceCli err => RelayProbeError_display err
  | PceConfig err => "relay probe config error: " +:+ ConfigError_display err
  | PceMissingTargets message => message
  | PceRuntime message => "relay probe runtime error: " +:+ message
  | PceStorageConfig err => "relay probe storage config error: " +:+ StorageConfigError_display err
  | PceStorage err => "relay probe storage error: " +:+ StorageError_display err
  end.

Definition resolve_targets `{UrlLib} (cli : ProbeCli) (get_var : environment) : result ProbeCommandError (list string) :=
  if pc_all cli then
    config ← map_err PceConfig (RelayTargetsConfig_from_env_validated get_var);
    _ ← fail_if (is_nil (rt_relay_urls config)) (PceMissingTargets "GITTREE_RELAY_URLS is empty");
    Ok (rt_relay_urls config)
  else
    relay ← ok_or (PceMissingTargets "missing --relay value") (pc_relay cli);
    Ok [relay].

(** The configuration of the environment, overridden by the flags and validated again. *)
Definition probe_config (cli : ProbeCli) (get_var : environment) : result ProbeCommandError RelayProbeConfig :=
  config ← map_err PceConfig (RelayProbeConfig_from_env get_var);
  let config := mkRelayProbeConfig (default (rpc_active config) (pc_active cli))
    (default (rpc_timeout_secs config) (pc_timeout_secs cli))
    (match pc_secret_key cli with Some key => Some key | None => rpc_secret_key config end) in
  _ ← map_err PceConfig (RelayProbeConfig_validate config);
  Ok config.

Section Command.
Context `{JsonLib} `{JsonErrors} `{HexLib} `{CryptoLib} `{SL : SignerLib} `{!SignerKeys} `{UL : UrlLib} `{!UrlScheme} `{!UrlSetters}.
Context `{DocumentCodec} `{RecordCodec} `{PgOptions} {C : Type} `{RelayProbeClient C} {R : Type} `{RelayCompatibilityRepository R}.

Definition probe_metadata (result : RelayProbeResult) : RelayProbeMetadata :=
  mkRelayProbeMetadata (rpr_nip11_url result) (rpr_nip11_available result) (apr_ok <$> rpr_active_probe result)
    (rpr_active_probe result ≫= apr_error).

Definition store_probe_result_with_repo (result : RelayProbeResult) (checked_at : Z) : stateful R StorageError unit :=
  record ← lift (RelayCompatibilityRecord_new (rpr_report result) checked_at (probe_metadata result));
  upsert_relay_compatibility record.

(** The pool connects when it is first used. *)
Definition store_probe_result (get_var : environment) (result : RelayProbeResult) (now : Z)
    : stateful R ProbeCommandError unit :=
  storage ← lift (map_err PceStorageConfig (state_storage_from_env get_var));
  _ ← lift (map_err PceStorage (write_connect_options storage));
  map_err_st PceStorage (store_probe_result_with_repo result now).

(** The visit of a target: the client, what the adapter meets, and the clock when the result
    is stored. *)
Record Visit := mkVisit { vi_client : C; vi_surroundings : Surroundings; vi_now : Z }.

Definition adapter_config (config : RelayProbeConfig) (relay_url : string) : RelayAdapterConfig :=
  let adapter := with_timeout (rpc_timeout_secs config * 1000000000) (RelayAdapterConfig_new relay_url) in
  match rpc_secret_key config with Some key => with_secret_key key adapter | None => adapter end.

(** The result for a target, [None] while its probe waits. *)
Definition probe_target (config : RelayProbeConfig) (relay_url : string) (v : Visit)
    : result (fault ProbeCommandError) (option RelayProbeResult) :=
  probed ← map_err (λ err, Raised (PceCli err)) (probe_relay relay_url (vi_client v));
  if rpc_active config then
    match probe_relay_with_adapter_result probed (mkWebsocketRelayAdapter (adapter_config config relay_url)) (vi_surroundings v) with
    | Ok r => Ok r
    | Err (Raised err) => Err (Raised (PceCli err))
    | Err Panicked => Err Panicked
    end
  else Ok (Some probed).

(** The targets in turn: each is probed, then stored; the first error ends the command. *)
Fixpoint probe_targets (cli : ProbeCli) (config : RelayProbeConfig) (get_var : environment) (visits : list (string * Visit))
    : stateful R (fault ProbeCommandError) (option (list RelayProbeResult)) :=
  match visits with
  | [] => mret (Some [])
  | (relay_url, v) :: visits =>
      probed ← lift (probe_target config relay_url v);
      match probed with
      | None => mret None
      | Some probed =>
          _ ← (if pc_store cli then map_err_st Raised (store_probe_result get_var probed (vi_now v)) else mret tt);
          rest ← probe_targets cli config get_var visits;
          mret (cons probed <$> rest)
      end
  end.

(** [visit i] is the visit of the [i]-th target. *)
Definition execute_probe_with_client (cli : ProbeCli) (config : RelayProbeConfig) (get_var : environment) (visit : nat → Visit)
    : stateful R (fault ProbeCommandError) (option (list RelayProbeResult)) :=
  targets ← lift (map_err Raised (resolve_targets cli get_var));
  probe_targets cli config get_var (imap (λ i url, (url, visit i)) targets).

(** ** The output *)

Definition cap_debug (c : RelayCapability) : string :=
  match c with
  | CapNip01 => "Nip01" | CapNip11 => "Nip11" | CapNip34 => "Nip34" | CapNip65 => "Nip65" | CapGrasp => "Grasp"
  end.
Definition caps_debug (l : list RelayCapability) : string := "[" +:+ join ", " (cap_debug <$> l) +:+ "]".
Definition bool_display (b : bool) : string := if b then "true" else "false".
Definition newline : string := String (ascii_of_nat 10) "".

(** [serde_json::to_string_pretty] of one result and of a list. *)
Class ResultJson := {
  result_to_json : RelayProbeResult → option string;
  results_to_json : list RelayProbeResult → option string
}.

Definition render_result (result : RelayProbeResult) : string :=
  let report := rpr_report result in
  "relay: " +:+ rpr_relay_url result +:+ newline +:+ "compatible: " +:+ bool_display (is_compatible report) +:+ newline +:+
  (if is_nil (rc_missing_required report) then ""
   else "missing required: " +:+ caps_debug (rc_missing_required report) +:+ newline) +:+
  (if is_nil (rc_missing_optional report) then ""
   else "missing optional: " +:+ caps_debug (rc_missing_optional report) +:+ newline).

Definition render_probe_output `{ResultJson} (cli : ProbeCli) (results : list RelayProbeResult) : string :=
  if pc_json cli then
    if pc_all cli then default "[]" (results_to_json results) +:+ newline
    else match results with
         | result :: _ => default "{}" (result_to_json result) +:+ newline
         | [] => ""
         end
  else join "" (render_result <$> results).

(** Up to what is printed: the help, or the results; [None] while a probe waits.  A runtime
    that cannot be built is [runtime]. *)
Definition run_with_args `{ResultJson} (help : string) (runtime : result string unit) (args : list string)
    (get_var : environment) (visit : nat → Visit) : stateful R (fault ProbeCommandError) (option string) :=
  if existsb (λ arg, (arg == "--help") || (arg == "-h")) args then mret (Some help)
  else
    cli ← lift (map_err (λ err, Raised (PceCli err)) (ProbeCli_parse args));
    _ ← lift (map_err (λ err, Raised (PceRuntime err)) runtime);
    config ← lift (map_err Raised (probe_config cli get_var));
    results ← execute_probe_with_client cli config get_var visit;
    mret (render_probe_output cli <$> results).

(** The exit code and the line on the standard error. *)
Definition handle_main_result (r : result ProbeCommandError unit) : Z * option string :=
  match r with
  | Ok _ => (0%Z, None)
  | Err err => (1%Z, Some ("relay probe failed: " +:+ ProbeCommandError_display err))
  end.
End Command.

(** ** The verdict of a probe *)

(** What stands for the document of a relay that has none. *)
Definition no_document : RelayInfoDocument :=
  mkRelayInfoDocument None None None None None None None None None None None None None None None None None None None
    None None None None.

Lemma capabilities_of_none : capabilities_from_nip11 no_document = [].
Proof. done. Qed.

Section Verdict.
Context `{JsonLib} `{JsonErrors} `{HexLib} `{CryptoLib} `{SL : SignerLib} `{!SignerKeys} `{UL : UrlLib} `{!UrlScheme} `{!UrlSetters}.
Context `{DocumentCodec} {C : Type} `{RelayProbeClient C}.

(** The document that the relay serves at the visit. *)
Definition serves (relay_url : string) (v : Visit (C := C)) (doc : option RelayInfoDocument) : Prop :=
  ∃ url body, resolve_nip11_url relay_url = Ok url ∧ fetch_nip11 (vi_client v) url = Ok body ∧
    match body, doc with
    | Some body, Some doc => document_from_json body = Ok doc
    | None, None => True
    | _, _ => False
    end.

(** At the visit the relay acknowledged an announcement that it was sent, and, asked for it,
    sent it back. *)
Definition wrote_and_read (config : RelayProbeConfig) (relay_url : string) (v : Visit (C := C)) : Prop :=
  ∃ sent, relay_kept (adapter_config config relay_url) (vi_surroundings v) sent.

Lemma wrote_and_read_iff config relay_url v : wrote_and_read config relay_url v ↔
  (probe_write_read (mkWebsocketRelayAdapter (adapter_config config relay_url)) (vi_surroundings v)).1 = Ok (Some tt).
Proof.
  unfold wrote_and_read. setoid_rewrite <-probe_Ok. destruct (probe_write_read _ _) as [r sent]. simpl.
  split; [by intros [? [= -> _]]|intros ->; by exists sent].
Qed.

(** The relay is compatible: its document names NIPs 1 and 34, or it kept what the active
    probe wrote. *)
Definition fit (config : RelayProbeConfig) (relay_url : string) (v : Visit (C := C)) (doc : option RelayInfoDocument) : Prop :=
  (∃ d, doc = Some d ∧ supports_nip d 1 = true ∧ supports_nip d 34 = true) ∨
  rpc_active config = true ∧ wrote_and_read config relay_url v.

Lemma evaluated_fit url doc ok :
  is_compatible (evaluate RelayCapabilitySet_default url
    (merge_active_probe_evidence (from_option capabilities_from_nip11 [] doc) (mkActiveProbeEvidence ok))) = true ↔
  (∃ d, doc = Some d ∧ supports_nip d 1 = true ∧ supports_nip d 34 = true) ∨ ok = true.
Proof.
  assert (from_option capabilities_from_nip11 [] doc = capabilities_from_nip11 (default no_document doc)) as -> by (by destruct doc).
  rewrite (proj1 (compatible_iff_required_shown _ _ _ _)). unfold RelayCapabilitySet_default, cs_required.
  setoid_rewrite elem_of_cons. setoid_rewrite list_elem_of_singleton. split.
  - intros Hs. pose proof (Hs CapNip01 (or_introl eq_refl)) as Hn1. pose proof (Hs CapNip34 (or_intror eq_refl)) as Hn34.
    simpl in Hn1, Hn34. destruct doc as [d|]; [|by destruct Hn1; [|right]]. destruct Hn1; [|by right]. destruct Hn34; [|by right].
    left. by exists d.
  - intros [(d & -> & Hn1 & Hn34)| -> ] c [ -> | -> ]; simpl; auto.
Qed.

Lemma probe_relay_served relay_url (v : Visit (C := C)) r :
  probe_relay relay_url (vi_client v) = Ok r →
  ∃ doc, serves relay_url v doc ∧ rpr_relay_url r = relay_url ∧ rpr_nip11 r = doc ∧
    rpr_observed_capabilities r = from_option capabilities_from_nip11 [] doc ∧
    rpr_report r = evaluate RelayCapabilitySet_default relay_url (from_option capabilities_from_nip11 [] doc).
Proof.
  unfold probe_relay, serves. destruct (resolve_nip11_url relay_url) as [url|]; [|done]. simpl.
  destruct (fetch_nip11 (vi_client v) url) as [[body|]|] eqn:Ef; [| |done]; simpl.
  - destruct (document_from_json body) as [doc|] eqn:Ed; [|done]. simpl. intros [= <-]. exists (Some doc).
    split_and!; [|done..]. exists url, (Some body). split_and!; [done|done|]. exact Ed.
  - intros [= <-]. exists None. split_and!; [|done..]. by exists url, None.
Qed.

Lemma probe_target_fit config relay_url v r :
  probe_target config relay_url v = Ok (Some r) →
  ∃ doc, serves relay_url v doc ∧ rpr_relay_url r = relay_url ∧ rc_relay_url (rpr_report r) = relay_url ∧
    (is_compatible (rpr_report r) = true ↔ fit config relay_url v doc).
Proof.
  unfold probe_target. destruct (probe_relay relay_url (vi_client v)) as [p|] eqn:Ep; [|done]. simpl.
  apply probe_relay_served in Ep as (doc & Hs & Hu & _ & Ho & Hr). unfold fit.
  assert (is_compatible (rpr_report p) = true ↔
    ∃ d, doc = Some d ∧ supports_nip d 1 = true ∧ supports_nip d 34 = true) as Hp.
  { rewrite Hr. pose proof (evaluated_fit relay_url doc false) as Hf. simpl in Hf. rewrite Hf. naive_solver. }
  destruct (rpc_active config).
  - setoid_rewrite wrote_and_read_iff. unfold probe_relay_with_adapter_result.
    destruct (probe_write_read _ _).1 as [[[]|]|[err|]]; try done; intros [= <-]; exists doc; simpl.
    + split_and!; [done..|]. rewrite Ho, Hu, evaluated_fit. naive_solver.
    + rewrite Hr at 1. split_and!; [done..|]. rewrite Hp. naive_solver.
  - intros [= <-]. exists doc. rewrite Hr at 1. split_and!; [done..|]. rewrite Hp. naive_solver.
Qed.
End Verdict.

(** ** What the admission service reads *)

(** Stores that keep the compatibility record that was last upserted for a relay; [good]
    says of a store that its statements succeed. *)
Class CompatibilityLaws (R : Type) `{RelayCompatibilityRepository R} (good : R → Prop) : Prop := {
  upsert_good : ∀ r s res s', good s → upsert_relay_compatibility r s = (res, s') → good s';
  upsert_read : ∀ r s s', good s → upsert_relay_compatibility r s = (Ok tt, s') →
    ∃ r', relay_compatibility (rcr_relay_url r) s' = (Ok (Some r'), s') ∧ rcr_compatible r' = rcr_compatible r;
  upsert_other : ∀ r s res s' url, good s → upsert_relay_compatibility r s = (res, s') → url ≠ rcr_relay_url r →
    (relay_compatibility url s').1 = (relay_compatibility url s).1;
  read_same : ∀ url s, good s → (relay_compatibility url s).2 = s
}.

Section PostgresLaws.
Context `{TimeLib} `{JsonbLib} `{RowOrder}.

#[export] Instance postgres_compatibility_laws : CompatibilityLaws (Database RepoTables) reliable.
Proof.
  assert (∀ url (s : Database RepoTables), reliable s → (relay_compatibility url s).2 = s) as Hsame.
  { intros url [t os] Hs. unfold reliable in Hs. simpl in Hs. subst os. done. }
  split; [| | |exact Hsame]; cbn [upsert_relay_compatibility relay_compatibility Postgres_compatibility];
    unfold reliable, pg_upsert_relay_compatibility, pg_relay_compatibility, try_statement, statement, lift, mbind,
      stateful_bind; intros r [t os]; simpl.
  - intros res s' ->. destruct (to_offset_datetime _); simpl; [|by intros [= _ <-]].
    destruct (jsonb_in _); simpl; by intros [= _ <-].
  - intros s' ->. destruct (to_offset_datetime _); simpl; [|done]. destruct (jsonb_in _); simpl; [|done].
    intros [= <-]. simpl. rewrite lookup_insert_eq. simpl. by eexists.
  - intros res s' url -> E Hne. destruct (to_offset_datetime _); simpl in E; [|by injection E as <- <-].
    destruct (jsonb_in _); simpl in E; injection E as <- <-; simpl; [|done]. by rewrite lookup_insert_ne.
Qed.
End PostgresLaws.

Section Records.
Context `{JsonLib} `{JsonErrors} `{HexLib} `{CryptoLib} `{SL : SignerLib} `{!SignerKeys} `{UL : UrlLib} `{!UrlScheme} `{!UrlSetters}.
Context `{DocumentCodec} `{RecordCodec} `{PgOptions} {C : Type} `{RelayProbeClient C}.
Context {R : Type} `{RelayCompatibilityRepository R} (good : R → Prop) `{!CompatibilityLaws R good}.
Context (cli : ProbeCli) (config : RelayProbeConfig) (get_var : environment).

(** The store says whether the relay is compatible. *)
Definition on_record (url : string) (compatible : bool) (s : R) : Prop :=
  ∃ record, (relay_compatibility url s).1 = Ok (Some record) ∧ rcr_compatible record = compatible.

Lemma store_probe_result_Ok result now s res s' :
  good s → store_probe_result get_var result now s = (res, s') →
  good s' ∧ (∀ url, url ≠ rc_relay_url (rpr_report result) → (relay_compatibility url s').1 = (relay_compatibility url s).1) ∧
  (res = Ok tt → on_record (rc_relay_url (rpr_report result)) (is_compatible (rpr_report result)) s').
Proof.
  intros Hg. unfold store_probe_result, store_probe_result_with_repo, map_err_st, lift, mbind, stateful_bind.
  destruct (state_storage_from_env get_var) as [storage|]; simpl; [|by intros [= <- <-]].
  destruct (write_connect_options storage); simpl; [|by intros [= <- <-]].
  unfold RelayCompatibilityRecord_new. destruct (is_blank _); simpl; [by intros [= <- <-]|].
  set (record := mkRelayCompatibilityRecord _ _ _ _ _ _ _ _ _ _ _).
  destruct (upsert_relay_compatibility record s) as [u s1] eqn:Eu. simpl. intros [= <- <-]. split_and!.
  - by eapply upsert_good.
  - intros url Hne. by eapply upsert_other.
  - intros Hr. destruct u as [[]|]; [|done]. destruct (upsert_read record s s1 Hg Eu) as (r' & Hr' & Hc).
    exists r'. split; [|done]. change (rc_relay_url (rpr_report result)) with (rcr_relay_url record). by rewrite Hr'.
Qed.

Lemma probe_targets_cons url v visits s results s' :
  pc_store cli = true →
  probe_targets cli config get_var ((url, v) :: visits) s = (Ok (Some results), s') →
  ∃ probed rest s1, probe_target config url v = Ok (Some probed) ∧
    store_probe_result get_var probed (vi_now v) s = (Ok tt, s1) ∧
    probe_targets cli config get_var visits s1 = (Ok (Some rest), s') ∧ results = probed :: rest.
Proof.
  intros Hst. cbn [probe_targets]. rewrite Hst. unfold lift, mbind, stateful_bind, map_err_st, mret, stateful_ret.
  destruct (probe_target config url v) as [[probed|]|]; [|done..].
  destruct (store_probe_result get_var probed (vi_now v) s) as [[[]|] s1] eqn:Es; simpl; [|done].
  destruct (probe_targets cli config get_var visits s1) as [[[rest|]|] s2] eqn:Et; simpl; [|done..].
  intros [= <- <-]. by exists probed, rest, s1.
Qed.

(** The record of a relay is that of its last visit. *)
Lemma probe_targets_records visits : ∀ s results s',
  pc_store cli = true → good s → probe_targets cli config get_var visits s = (Ok (Some results), s') →
  good s' ∧
  (∀ url, url ∉ visits.*1 → (relay_compatibility url s').1 = (relay_compatibility url s).1) ∧
  (∀ i url v, visits !! i = Some (url, v) → (∀ j, i < j → visits.*1 !! j ≠ Some url) →
     ∃ doc compatible, serves url v doc ∧ on_record url compatible s' ∧ (compatible = true ↔ fit config url v doc)).
Proof.
  induction visits as [|[url0 v0] visits IH]; intros s results s' Hst Hg E.
  { injection E as <- <-. by split_and!. }
  apply probe_targets_cons in E as (probed & rest & s1 & Hp & Hs & Ht & ->); [|done].
  apply probe_target_fit in Hp as (doc & Hserves & _ & Hu & Hfit).
  destruct (store_probe_result_Ok _ _ _ _ _ Hg Hs) as (Hg1 & Hother & Hrec). rewrite Hu in Hother, Hrec.
  destruct (IH _ _ _ Hst Hg1 Ht) as (Hg' & Hkeep & Hvisits). split_and!; [done|..].
  - intros url Hnin. rewrite fmap_cons, not_elem_of_cons in Hnin. destruct Hnin. rewrite Hkeep by done. by apply Hother.
  - intros [|i] url v Hi Hlast; simpl in Hi.
    + injection Hi as <- <-. exists doc, (is_compatible (rpr_report probed)). split_and!; [done| |done].
      destruct (Hrec eq_refl) as (record & Hr & Hc). exists record. split; [|done]. rewrite Hkeep; [done|].
      intros [j Hj]%list_elem_of_lookup. by apply (Hlast (S j) ltac:(lia)).
    + apply (Hvisits i); [done|]. intros j Hj. apply (Hlast (S j)). lia.
Qed.
End Records.

(** ** Probing decides admission *)

Section Governs.
Context `{JsonLib} `{JsonErrors} `{HexLib} `{CryptoLib} `{SL : SignerLib} `{!SignerKeys} `{UL : UrlLib} `{!UrlScheme} `{!UrlSetters}.
Context `{DocumentCodec} `{RecordCodec} `{PgOptions} {C : Type} `{RelayProbeClient C} `{Bech32Lib}.
Context {R : Type} `{RelayCompatibilityRepository R} (good : R → Prop) `{!CompatibilityLaws R good}.
Context `{AnnouncementRepository R} `{StateRepository R}.

Context `{HashOrder}.

(** What a record on the relay that asks makes of a request that the policy admits. *)
Lemma on_record_decides r keys now later c url compatible (s : R) d :
  good s → aq_relay_url r = Some url → on_record url compatible s →
  (admission_cache_get (admission_cache_key r) now c).1 = None → admitted d → policy r keys d →
  if compatible then
    ∀ s', (∃ c', evaluate_request_cached_mode r CompatStrict keys now later (s, c) = (Ok d, (s', c'))) ↔
      repository_known r d s s'
  else ∃ c', evaluate_request_cached_mode r CompatStrict keys now later (s, c) =
      (Ok (AdmReject ("relay incompatible: " +:+ url)), (s, c')).
Proof.
  intros Hg Hu (record & Hr & Hc) Hm Ha Hp. pose proof (read_same url s Hg) as Hs.
  assert (relay_compatibility url s = (Ok (Some record), s)) as Hrel
    by (destruct (relay_compatibility url s); simpl in *; congruence).
  destruct compatible.
  - intros s'. rewrite cache_missed, strict_evaluation by done. unfold relay_known. rewrite Hu, Hrel. naive_solver.
  - apply cache_missed; [done|]. apply policy_decided in Hp; [|done].
    unfold evaluate_request_with_storage_mode, mbind, stateful_bind, lift. rewrite Hp. unfold check_relay.
    by rewrite Hu, Hrel, Hc.
Qed.

(** C14: the probe decides what the admission service lets in: after a run of the command with
    [--store] that came to an end, the last visit of a relay governs the requests that name it
    in strict mode and that the policy admits (an administrator's control events, and what the
    core admits).  If the relay's document named NIPs 1 and 34, or the active probe was on, sent
    the relay an announcement that the relay acknowledged in time, and, asking for it under a
    subscription, was sent the event with its id in time, then such a request is admitted
    exactly when it needs no related events or its repository is known; if not, it is
    rejected.  This is said of a store none of whose statements fails, during the run and at the
    decision, which is as the run left it, and of a decision that the service does not take
    from its cache (a cached one is repeated whatever the probe found). *)
Theorem probe_governs_admission cli config get_var visit targets (s : R) results s' i url :
  good s → pc_store cli = true → resolve_targets cli get_var = Ok targets →
  execute_probe_with_client cli config get_var visit s = (Ok (Some results), s') →
  targets !! i = Some url → (∀ j, i < j → targets !! j ≠ Some url) →
  ∃ doc, serves url (visit i) doc ∧
    ∀ r keys now later c d, aq_relay_url r = Some url →
      (admission_cache_get (admission_cache_key r) now c).1 = None → admitted d → policy r keys d →
      (fit config url (visit i) doc →
         ∀ s1, (∃ c', evaluate_request_cached_mode r CompatStrict keys now later (s', c) = (Ok d, (s1, c'))) ↔
           repository_known r d s' s1) ∧
      (¬ fit config url (visit i) doc →
         ∃ c', evaluate_request_cached_mode r CompatStrict keys now later (s', c) =
           (Ok (AdmReject ("relay incompatible: " +:+ url)), (s', c'))).
Proof.
  intros Hg Hst Ht E Hi Hlast. unfold execute_probe_with_client, lift, mbind, stateful_bind in E. rewrite Ht in E. simpl in E.
  destruct (probe_targets_records good cli config get_var _ _ _ _ Hst Hg E) as (Hg' & _ & Hv).
  destruct (Hv i url (visit i)) as (doc & compatible & Hserves & Hrec & Hfit).
  - by rewrite list_lookup_imap, Hi.
  - intros j Hj. rewrite list_lookup_fmap, list_lookup_imap. specialize (Hlast j Hj). by destruct (targets !! j).
  - exists doc. split; [done|]. intros r keys now later c d Hu Hm Ha Hp.
    pose proof (on_record_decides r keys now later c url compatible s' d Hg' Hu Hrec Hm Ha Hp) as Hd.
    split; intros Hf; [by rewrite (proj2 Hfit Hf) in Hd|]. destruct compatible; [by destruct Hf; apply Hfit|done].
Qed.
End Governs.

(** ** The relay of this repository *)

(** Every tenant's document passes the probe; NIP 65 alone is reported missing. *)
Lemma own_document_compatible `{JsonLib} `{HexLib} `{UL : UrlLib} `{!UrlScheme} `{!UrlSetters} `{DocumentCodecLaws} `{RelayProbeClient C}
    version config policy tenant relay_url nip11_url (client : C) :
  resolve_nip11_url relay_url = Ok nip11_url →
  fetch_nip11 client nip11_url = Ok (Some (document_to_json (build_nip11_document version config policy tenant))) →
  ∃ r, probe_relay relay_url client = Ok r ∧ is_compatible (rpr_report r) = true ∧
    rc_missing_optional (rpr_report r) = [CapNip65].
Proof.
  intros Hu Hf. unfold probe_relay. rewrite Hu. simpl. rewrite Hf. simpl. rewrite document_roundtrip. simpl.
  by eexists.
Qed.

(** ** Two relays, probed and stored *)

Module ProbeSample.
#[local] Existing Instances hex_model crypto_model sample_bech32_lib time_model codec_model.
(** The id of an event whose serialisation is empty, and the answers of a relay about it. *)
Definition event_id : string := hex_encode (sha256 "").
#[local] Instance json : JsonLib := {|
  json_from_str s :=
    if s == "ok" then Some (JArray [JString "OK"; JString event_id; JBool true])
    else if s == "event" then
      Some (JArray [JString "EVENT"; JString ("gittree-probe-" +:+ String.substring 0 8 event_id); JObject [("id", JString event_id)]])
    else None;
  json_to_string _ := ""
|}.
#[local] Instance errors : JsonErrors := {| json_error _ := "expected value" |}.
#[local] Instance signer : SignerLib :=
  {| SecretKey := string; secret_from_slice b := Some b; sign_schnorr k m := m |}.
#[local] Instance keys : SignerKeys := {| xonly_public k := k; secret_key_error _ := "malformed" |}.
(** A URL is its scheme and its host; one is read with the scheme [wss]. *)
#[local] Instance urls : UrlLib := {|
  Url := string * string; url_parse s := pair "wss" <$> strip_prefix "wss://" s; url_scheme := fst; url_host_str u := Some u.2;
  url_port _ := None; url_path _ := "/"
|}.
#[local] Instance schemes : UrlScheme := {| url_set_scheme s u := Some (s, u.2) |}.
#[local] Instance setters : UrlSetters :=
  {| url_set_path _ u := u; url_clear_query u := u; url_clear_fragment u := u; url_to_string u := u.1 +:+ "://" +:+ u.2 |}.
#[local] Instance documents : DocumentCodec := {|
  document_from_json s :=
    if s == "good" then Ok (mkRelayInfoDocument None None None None None None None (Some [1; 34]%Z) None None None None None None
      None None None None None None None None None)
    else if s == "bare" then Ok no_document else Err "expected value";
  document_to_json _ := ""
|}.
#[local] Instance options : PgOptions := {| PgConnectOptions := string; parse_connect_options s := Ok s; application_name _ o := o |}.
#[local] Instance jsonbs : JsonbLib := {| jsonb := string; jsonb_in s := Some s; jsonb_out s := s |}.
#[local] Instance rows : RowOrder := {| row_iter A l := l; row_iter_perm A l := reflexivity l |}.
#[local] Existing Instance http_lib_model.

Definition client : HttpRelayProbeClient :=
  mkHttpRelayProbeClient (λ url, Ok (if url == "https://a" then mkHttpResponse 200 (Ok "good")
                                     else if url == "https://b" then mkHttpResponse 200 (Ok "bare") else mkHttpResponse 404 (Ok ""))).
Definition visit (i : nat) : Visit (C := HttpRelayProbeClient) :=
  mkVisit client (mkSurroundings (λ url, if url.2 == "c"
    then Ok (mkConnection [] [] [] [mkRound 1 (RdMessage (RelayAdapter.WsText "ok")); mkRound 2 (RdMessage RelayAdapter.WsOther); mkRound 3 (RdMessage (RelayAdapter.WsText "event"))])
    else Err "refused") "key" 0) (Z.of_nat i).
Definition get_var (key : string) : option string :=
  if key == "GITTREE_RELAY_URLS" then Some "wss://a,wss://b,wss://c"
  else if key == "GITTREE_STORAGE_READ_URL" then Some "postgres://db" else None.
Definition cli : ProbeCli := mkProbeCli None true false true (Some true) None None.
Definition config : RelayProbeConfig := mkRelayProbeConfig true 5 None.
Definition store : Database RepoTables := mkDatabase (mkRepoTables [] [] ∅ ∅ ∅ ∅ ∅) [].
Definition run := execute_probe_with_client cli config get_var visit store.

Example sample_reports :
  ProbeCli_parse ["probe"; "--all"; "--store"; "--active"] = Ok cli ∧ probe_config cli get_var = Ok config ∧
  resolve_targets cli get_var = Ok ["wss://a"; "wss://b"; "wss://c"] ∧
  match run.1 with
  | Ok (Some results) =>
      (λ r, (rpr_relay_url r, is_compatible (rpr_report r), apr_ok <$> rpr_active_probe r)) <$> results =
        [("wss://a", true, Some false); ("wss://b", false, Some false); ("wss://c", true, Some true)]
  | _ => False
  end.
Proof. by vm_compute. Qed.

Definition request (url : string) : AdmissionRequest := mkAdmissionRequest KIND_GIT_REPO_STATE "ab" "e1" [] (Some url) None.

#[local] Existing Instance sample_hash_order.
Definition cache : AdmissionCache := AdmissionCache_new AdmissionCacheConfig_default.
Abbreviation decided url := (evaluate_request_cached_mode (request url) CompatStrict [] 1 2 (run.2, cache)).

Lemma request_policy url : policy (request url) [] AdmAccept.
Proof. split; [by vm_compute|]. by rewrite decide_False. Qed.

(** The first relay passes by its document, the third one by the active probe. *)
Lemma probe_governs_admission_witness :
  (∃ s c', decided "wss://a" = (Ok AdmAccept, (s, c'))) ∧ (∃ s c', decided "wss://c" = (Ok AdmAccept, (s, c'))) ∧
  ∃ c', decided "wss://b" = (Ok (AdmReject "relay incompatible: wss://b"), (run.2, c')).
Proof.
  destruct sample_reports as (_ & _ & Ht & Hrun). revert Hrun. destruct run as [[[results|]|] s'] eqn:E; [intros _|intros []..].
  assert (∀ i url, ["wss://a"; "wss://b"; "wss://c"] !! i = Some url →
    ∃ doc, serves url (visit i) doc ∧
      (fit config url (visit i) doc → ∃ s c', evaluate_request_cached_mode (request url) CompatStrict [] 1 2 (s', cache) = (Ok AdmAccept, (s, c'))) ∧
      (¬ fit config url (visit i) doc → ∃ c', evaluate_request_cached_mode (request url) CompatStrict [] 1 2 (s', cache) =
        (Ok (AdmReject ("relay incompatible: " +:+ url)), (s', c')))) as Hg.
  { intros i url Hi. destruct (probe_governs_admission reliable cli config get_var visit ["wss://a"; "wss://b"; "wss://c"]
      store results s' i url) as (doc & Hs & Hd); [reflexivity|reflexivity|exact Ht|exact E|exact Hi|..].
    { clear E. intros j Hj Hj'. assert (i = j) by (eapply NoDup_lookup; [|exact Hi|exact Hj']; by apply (bool_decide_unpack _); vm_compute).
      lia. }
    exists doc. split; [exact Hs|].
    destruct (Hd (request url) [] 1%N 2%N cache AdmAccept eq_refl eq_refl ltac:(discriminate) (request_policy url)) as [Hf Hn].
    split; [|exact Hn]. intros Hfit. exists s'. by apply (Hf Hfit). }
  clear E. split_and!.
  - destruct (Hg 0 "wss://a" eq_refl) as (doc & (u & body & Hu & Hf & Hd) & Hr & _).
    vm_compute in Hu. injection Hu as <-. vm_compute in Hf. injection Hf as <-. destruct doc as [doc|]; [|destruct Hd].
    vm_compute in Hd. injection Hd as <-. apply Hr. left. eexists. split; [reflexivity|]. split; reflexivity.
  - destruct (Hg 2 "wss://c" eq_refl) as (doc & _ & Hr & _). apply Hr. right. split; [reflexivity|].
    apply wrote_and_read_iff. by vm_compute.
  - destruct (Hg 1 "wss://b" eq_refl) as (doc & (u & body & Hu & Hf & Hd) & _ & Hr).
    vm_compute in Hu. injection Hu as <-. vm_compute in Hf. injection Hf as <-. destruct doc as [doc|]; [|destruct Hd].
    vm_compute in Hd. injection Hd as <-. apply Hr.
    intros [(d & [= <-] & H1 & _)|[_ Hw%wrote_and_read_iff]]; [done|by vm_compute in Hw].
Defined.
End ProbeSample.
