(* ===== verification/Tenants.v ===== *)
(** * [Tenants]: from the control service to the relay

    The tenant that [services/control] creates is the one that [services/relay] serves: the
    two services normalise hosts on their own ([normalize_host] of either) and share the
    repositories of tenants and memberships. *)

From S2P Require Import Prelude RustStr CoreTypes Externals HexModel Nip34Common Grasp Nip34Repo RelayEvent Membership NostrAuth Database HttpAuth RelayAdapter.
From S2P Require Import Dispatch Config Repositories PostgresRepos Directory Outbox Forgejo ControlService.
From S2P Require Import RelaySession RelaySessionFacts RelayServer.

Lemma attempt_Ok {S E A} (r : result E A) (s s' : S) a : attempt r s = (Ok a, s') ↔ r = Ok a ∧ s' = s.
Proof. unfold attempt. by rewrite lift_Ok, map_err_Ok. Qed.

Lemma tenant_record_fields `{HexLib} id host pk secret nonce kid n d i b c ar pr pw ct ut r :
  RelayTenantRecord_new id host pk secret nonce kid n d i b c ar pr pw ct ut = Ok r →
  tn_id r = id ∧ tn_host r = to_ascii_lowercase (trim host) ∧ hex_decode pk = Some (tn_relay_pubkey r).
Proof.
  unfold RelayTenantRecord_new. intros E. do 6 apply bind_Ok_unit in E as [_ E]. apply bind_Ok in E as (key & Hk & E).
  do 5 apply bind_Ok in E as (? & _ & E). injection E as <-. split_and!; [done|done|].
  unfold decode_hex_32 in Hk. cbn. destruct (negb _); [done|]. by apply ok_or_Ok in Hk.
Qed.

Section Journey.
Context {A O N M T : Type} `{AccountRepository A} `{HexLaws} `{!RelayPublishRepository O} `{TenantLaws N}.
Context `{RelayMembershipLaws M} `{ForgejoTransport T} `{ForgejoCodec}.
Context `{HttpLib} `{Base64Lib} `{Nip98Codec} `{JsonLib} `{SchnorrSlices} `{!CryptoLaws} `{SignerKeys} `{!SecretBytes}.
Context `{Bech32Encode} `{Bech32Lib} `{UrlLib} `{ControlActionCodec} `{!ControlExtract}.

Abbreviation state := (ControlAppState A O N M T).

(** What a created tenant is: it has the host that the request names, its record is stored,
    and the key that signed the request is its owner. *)
Lemma create_tenant_Ok now secret_key nonce q (s : state) vn response s' :
  tenant_holds (ct_tenants s) vn →
  create_tenant_handler (A:=A) (O:=O) (T:=T) now secret_key nonce q s = (Ok response, s') →
  ∃ record signature owner payload, control_signed now q signature owner ∧ ctr_owner_pubkey response = ne_pubkey signature ∧
    tenant_create_from_slice (hq_body q) = Ok payload ∧ normalize_host (ctq_host payload) = Ok (ctr_host response) ∧
    tn_id record = ctr_tenant_id response ∧ ctr_host response = ctr_tenant_id response ∧
    tn_host record = to_ascii_lowercase (trim (ctr_host response)) ∧
    tn_relay_pubkey record = xonly_public secret_key ∧ ctr_relay_pubkey response = hex_encode (xonly_public secret_key) ∧
    tenant_holds (ct_tenants s') (<[tn_id record := record]> vn) ∧
    membership_by_pubkey (ct_memberships s') (ctr_tenant_id response) owner =
      Ok (Some (mkRelayMembershipRecord (ctr_tenant_id response) owner "owner" "active" now now)).
Proof.
  intros Hn Hc. unfold create_tenant_handler in Hc.
  apply stateful_bind_Ok in Hc as (event & s1 & (Hevent & ->)%attempt_Ok & Hc).
  apply stateful_bind_Ok in Hc as (owner & s2 & (Hown%map_err_Ok & ->)%attempt_Ok & Hc).
  apply stateful_bind_Ok in Hc as (url & ? & (Hurl & ->)%attempt_Ok & Hc).
  apply stateful_bind_Ok in Hc as (signed & ? & (Hsigned%map_err_Ok & ->)%attempt_Ok & Hc).
  apply stateful_bind_Ok in Hc as (? & ? & (_ & ->)%attempt_Ok & Hc).
  apply stateful_bind_Ok in Hc as (payload & s3 & (Hpay%map_err_Ok & ->)%attempt_Ok & Hc).
  apply stateful_bind_Ok in Hc as (host & s4 & (Hnorm & ->)%attempt_Ok & Hc).
  apply ok_or_Ok in Hown. pose proof (signed_from_parts _ _ _ _ _ Hevent Hurl Hsigned) as Hsig.
  assert (na_pubkey_bytes signed = owner) as Heq by (destruct (request_signed_key Hsig) as [_ ?]; congruence). rewrite Heq in Hsig.
  apply stateful_bind_Ok in Hc as (existing & s5 & Hex & Hc).
  apply stateful_bind_Ok in Hc as (? & ? & (_ & ->)%attempt_Ok & Hc).
  apply stateful_bind_Ok in Hc as (record & ? & (Hrec%map_err_Ok & ->)%attempt_Ok & Hc).
  apply stateful_bind_Ok in Hc as (? & s6 & Hput & Hc). apply stateful_bind_Ok in Hc as ([] & s7 & Hmem & Hc).
  injection Hc as <- <-. cbn [ctr_tenant_id ctr_host ctr_relay_pubkey ctr_owner_pubkey].
  destruct (tenant_record_fields _ _ _ _ _ _ _ _ _ _ _ _ _ _ _ _ _ Hrec) as (Hid & Hhost & Hkey).
  rewrite hex_decode_encode in Hkey. injection Hkey as Hkey.
  unfold on_tenants in Hex, Hput. unfold on_memberships in Hmem.
  destruct (tenant_by_host host (ct_tenants s)) as [r0 n0] eqn:E0. injection Hex as _ <-.
  destruct (tenant_by_host_law host _ _ _ _ Hn E0) as [Hn0 _]. cbn [ct_tenants] in Hput.
  destruct (upsert_tenant record n0) as [r1 n1] eqn:E1. injection Hput as Hr1%map_err_Ok <-. subst r1.
  destruct (upsert_tenant_law record _ _ _ _ Hn0 E1) as [_ Hn1].
  cbn [ct_memberships ct_tenants] in Hmem. destruct (upsert_membership _ _) as [r2 m2] eqn:E2.
  injection Hmem as Hr2%map_err_Ok <-. subst r2.
  exists record, event, owner, payload. cbn [ct_tenants ct_memberships]. split_and!; try done.
  apply (upsert_lookup _ _ _ _ _ _ E2). by rewrite bool_decide_eq_true_2.
Qed.

(** C19: a tenant that was created is served: the answer names the host that the request asked
    for, normalised, and, unless that host kept blanks, a request whose Host header the relay
    normalises to it is a request of that tenant, with the relay key of the answer, or storage
    fails; and the key that signed the request for the tenant, which the answer names as owner,
    is an active member, so that a session of that key passes the check of membership. *)
Theorem created_tenant_served now secret_key nonce q (s : state) vn response s' headers value :
  tenant_holds (ct_tenants s) vn →
  create_tenant_handler (A:=A) (O:=O) (T:=T) now secret_key nonce q s = (Ok response, s') →
  to_ascii_lowercase (trim (ctr_host response)) = ctr_host response →
  header_str "host" headers = Some value → normalize_host_header value = ctr_host response →
  (∃ record, tn_id record = ctr_tenant_id response ∧ hex_encode (tn_relay_pubkey record) = ctr_relay_pubkey response ∧
     ((resolve_tenant true headers (ct_tenants s')).1 = Ok (mkTenantContext (ctr_tenant_id response) (Some record)) ∨
      (resolve_tenant true headers (ct_tenants s')).1 = Err 500%Z)) ∧
  ∃ signature owner payload, control_signed now q signature owner ∧ ctr_owner_pubkey response = ne_pubkey signature ∧
    tenant_create_from_slice (hq_body q) = Ok payload ∧ normalize_host (ctq_host payload) = Ok (ctr_host response) ∧
    require_active (ct_memberships s') (ctr_tenant_id response) owner = Ok tt.
Proof.
  intros Hn Hc Hplain Hval Hnorm.
  destruct (create_tenant_Ok _ _ _ _ _ _ _ _ Hn Hc) as (record & signature & owner & payload & Hsig & Hown & Hpay & Hasked & Hid & _ & Hhost & Hk & Hpk & Hn' & Hm).
  rewrite Hplain in Hhost. split.
  - exists record. split_and!; [done|congruence|]. unfold resolve_tenant, extract_host, mbind, stateful_bind, lift, map_err_st.
    rewrite Hval. simpl. rewrite Hnorm. destruct (tenant_by_host (ctr_host response) (ct_tenants s')) as [[o|e] n] eqn:E;
      [|by right]. destruct (tenant_by_host_law _ _ _ _ _ Hn' E) as [_ Ho]. specialize (Ho o eq_refl). simpl.
    destruct o as [r|].
    + destruct Ho as [Hr Hh]. left. simpl.
      pose proof (tenant_unique _ _ _ (tn_id record) _ record Hn' Hr (lookup_insert_eq _ _ _)) as Hu.
      rewrite Hu in Hr by congruence. rewrite lookup_insert_eq in Hr. by injection Hr as <-; rewrite Hid.
    + exfalso. by apply (Ho (tn_id record) record (lookup_insert_eq _ _ _)).
  - exists signature, owner, payload. split_and!; [done..|]. unfold require_active, membership_by_pubkey_bytes. by rewrite Hm.
Qed.
End Journey.

(** ** A tenant of the sample service *)

Module TenantSample.
Import ControlSample.
#[local] Existing Instances json_model hex_model hex_model_laws crypto_model slices_model k256_model http_model base64_model.
#[local] Existing Instances time_model time_model_laws sample_url_lib jsonbs rows hashes signer keys secrets npubs npub_reader.
#[local] Existing Instances actions transport forge_codec codec extractors.

Definition asked : HttpRequest := request "ada-plain" "/v1/relay/tenants" "plain".
Definition headers : list (string * string) := [("host", "RELAY.example.:8080")].

Definition answer : result (fault ControlHttpError) ControlCreateTenantResponse * sample_state :=
  create_tenant_handler 110 (ada : @SecretKey signer) "nonce" asked start.

Lemma created_tenant_served_witness :
  ∃ response s', answer = (Ok response, s') ∧ ctr_host response = "relay.example" ∧
    (∃ record, tn_id record = "relay.example" ∧
       (resolve_tenant true headers (ct_tenants s')).1 = Ok (mkTenantContext "relay.example" (Some record))) ∧
    require_active (ct_memberships s') "relay.example" ada = Ok tt.
Proof.
  assert ((λ r, (ctr_host r, ctr_tenant_id r, ctr_owner_pubkey r)) <$> ok answer.1 = Some ("relay.example", "relay.example", hex_encode ada))
    as Hok by (vm_compute; reflexivity).
  assert (is_ok (resolve_tenant true headers (ct_tenants answer.2)).1 = true) as Hres by (vm_compute; reflexivity).
  destruct answer as [[response|] s'] eqn:E; [|discriminate Hok]. injection Hok as Hh Ht Hp. cbn [snd] in Hres.
  exists response, s'. split; [reflexivity|]. unfold answer in E. split; [exact Hh|].
  destruct (created_tenant_served (N:=Database RepoTables) (M:=MemoryMembership) 110 (ada : @SecretKey signer) "nonce" asked start ∅
    response s' headers "RELAY.example.:8080" start_tenants E) as [(record & Hid & _ & Hr) (signature & owner & payload & Hsig & Ho & _ & _ & Hact)];
    [rewrite Hh; reflexivity|reflexivity|rewrite Hh; reflexivity|]. rewrite Ht in *. split.
  - exists record. split; [exact Hid|]. destruct Hr as [Hr|Hr]; [exact Hr|rewrite Hr in Hres; discriminate Hres].
  - rewrite Hp in Ho. destruct (request_signed_key Hsig) as [_ Hk]. rewrite <-Ho in Hk. injection Hk as <-. exact Hact.
Defined.
End TenantSample.
