(* ===== verification/Admin.v ===== *)
(** * [Admin]: the administration command

    Models [services/admin/src/cli.rs] (the command line) and [main.rs] (the commands: one
    writes a mapping to the database, the others are requests to the control service).  The
    control service is behind a class, [ControlPost]: what a POST of a JSON body gives; the
    section at the end puts the model of the service there. *)

From S2P Require Import Prelude RustStr CoreTypes Config Externals HexModel Nip34Common Grasp Nip34Repo Membership NostrAuth Database HttpAuth.
From S2P Require Import Dispatch Repositories PostgresRepos Directory StateService GitHook Forgejo RelayAdapter Outbox ControlService GitHttp.

(** ** The command line: [cli.rs] *)

Inductive AdminCommand :=
| AdMap (forgejo pubkey identifier : string)
| AdCreateUser (username email password : string) (full_name : option string) (must_change_password send_notify : option bool)
| AdCreateOrg (owner name : string) (full_name description visibility : option string)
| AdCreateRepo (owner name : string) (description : option string) (private auto_init : option bool)
| AdCreatePull (owner repo head base title : string) (body : option string).

Record AdminCli := mkAdminCli { ad_command : option AdminCommand; ad_help : bool }.

Inductive AdminCliError :=
| AdUnknownCommand (value : string)
| AdUnknownFlag (value : string)
| AdMissingValue (flag : string)
| AdMissingCommand.
Definition AdminCliError_display (e : AdminCliError) : string :=
  match e with
  | AdUnknownCommand value => "unknown command " +:+ value
  | AdUnknownFlag value => "unknown flag " +:+ value
  | AdMissingValue flag => "missing value for " +:+ flag
  | AdMissingCommand => "missing command"
  end.

(** The loop that all five commands have: [flags] take a value, as the next argument or after
    [=] (the prefix is removed as often as it is there), [switches] take none.  The result is
    the values and the switches that were given; the last value of a flag counts. *)
Fixpoint parse_command_flags (flags switches : list string) (args : list string) (values : gmap string string) (on : gset string)
    : result AdminCliError (gmap string string * gset string) :=
  match args with
  | [] => Ok (values, on)
  | value :: args =>
      if bool_decide (value ∈ flags) then
        match args with
        | [] => Err (AdMissingValue value)
        | next :: args => parse_command_flags flags switches args (<[value := next]> values) on
        end
      else if bool_decide (value ∈ switches) then parse_command_flags flags switches args values ({[value]} ∪ on)
      else
        match List.find (λ flag, starts_with (flag +:+ "=") value) flags with
        | Some flag =>
            let rest := trim_start_matches (flag +:+ "=") value in
            if is_empty rest then Err (AdMissingValue flag)
            else parse_command_flags flags switches args (<[flag := rest]> values) on
        | None => Err (AdUnknownFlag value)
        end
  end.

Definition required (values : gmap string string) (flag : string) : result AdminCliError string :=
  ok_or (AdMissingValue flag) (values !! flag).
Definition switch (on : gset string) (name : string) : option bool := if bool_decide (name ∈ on) then Some true else None.

Definition parse_map (args : list string) : result AdminCliError AdminCommand :=
  '(values, _) ← parse_command_flags ["--forgejo"; "--pubkey"; "--identifier"] [] args ∅ ∅;
  forgejo ← required values "--forgejo";
  pubkey ← required values "--pubkey";
  identifier ← required values "--identifier";
  Ok (AdMap forgejo pubkey identifier).

Definition parse_create_user (args : list string) : result AdminCliError AdminCommand :=
  '(values, on) ← parse_command_flags ["--username"; "--email"; "--password"; "--full-name"]
                   ["--must-change-password"; "--send-notify"] args ∅ ∅;
  username ← required values "--username";
  email ← required values "--email";
  password ← required values "--password";
  Ok (AdCreateUser username email password (values !! "--full-name") (switch on "--must-change-password")
        (switch on "--send-notify")).

Definition parse_create_org (args : list string) : result AdminCliError AdminCommand :=
  '(values, _) ← parse_command_flags ["--owner"; "--name"; "--full-name"; "--description"; "--visibility"] [] args ∅ ∅;
  owner ← required values "--owner";
  name ← required values "--name";
  Ok (AdCreateOrg owner name (values !! "--full-name") (values !! "--description") (values !! "--visibility")).

Definition parse_create_repo (args : list string) : result AdminCliError AdminCommand :=
  '(values, on) ← parse_command_flags ["--owner"; "--name"; "--description"] ["--private"; "--auto-init"] args ∅ ∅;
  owner ← required values "--owner";
  name ← required values "--name";
  Ok (AdCreateRepo owner name (values !! "--description") (switch on "--private") (switch on "--auto-init")).

Definition parse_create_pull (args : list string) : result AdminCliError AdminCommand :=
  '(values, _) ← parse_command_flags ["--owner"; "--repo"; "--head"; "--base"; "--title"; "--body"] [] args ∅ ∅;
  owner ← required values "--owner";
  repo ← required values "--repo";
  head ← required values "--head";
  base ← required values "--base";
  title ← required values "--title";
  Ok (AdCreatePull owner repo head base title (values !! "--body")).

(** A command takes all arguments after it. *)
Fixpoint parse_from_os (args : list string) (help : bool) : result AdminCliError AdminCli :=
  let taking (c : result AdminCliError AdminCommand) := command ← c; Ok (mkAdminCli (Some command) help) in
  match args with
  | [] => Ok (mkAdminCli None help)
  | value :: args =>
      if bool_decide (value ∈ ["-h"; "--help"]) then parse_from_os args true
      else if value == "map" then taking (parse_map args)
      else if value == "create-user" then taking (parse_create_user args)
      else if value == "create-org" then taking (parse_create_org args)
      else if value == "create-repo" then taking (parse_create_repo args)
      else if value == "create-pull" then taking (parse_create_pull args)
      else Err (AdUnknownCommand value)
  end.
Definition AdminCli_parse (args : list string) : result AdminCliError AdminCli := parse_from_os (tail args) false.

(** ** Errors and configuration: [main.rs] *)

(** The errors of [reqwest] are given as texts. *)
Inductive AdminError :=
| AeCli (err : AdminCliError)
| AeStorageConfig (err : StorageConfigError)
| AeStorage (err : StorageError)
| AeCore (err : CoreError)
| AeControlConfig (missing_env : string)
| AeControlRequest (err : string)
| AeControlResponse (err : string).
Definition AdminError_display (e : AdminError) : string :=
  match e with
  | AeCli err => "admin cli error: " +:+ AdminCliError_display err
  | AeStorageConfig err => "admin storage config error: " +:+ StorageConfigError_display err
  | AeStorage err => "admin storage error: " +:+ StorageError_display err
  | AeCore err => "admin mapping error: " +:+ CoreError_display err
  | AeControlConfig key => "admin control config error: missing env " +:+ key
  | AeControlRequest err => "admin control request error: " +:+ err
  | AeControlResponse err => "admin control response error: " +:+ err
  end.

Record ControlClientConfig := mkControlClientConfig { clc_base_url : string; clc_token : string }.
Definition DEFAULT_CONTROL_URL : string := "http://127.0.0.1:8088".

Definition ControlClientConfig_from_env (get_var : environment) : result AdminError ControlClientConfig :=
  let base_url := match get_var "GITTREE_CONTROL_URL" with
                  | Some value => if is_blank value then DEFAULT_CONTROL_URL else value
                  | None => DEFAULT_CONTROL_URL
                  end in
  token ← ok_or (AeControlConfig "GITTREE_CONTROL_TOKEN") (get_var "GITTREE_CONTROL_TOKEN");
  _ ← fail_if (is_blank token) (AeControlConfig "GITTREE_CONTROL_TOKEN");
  Ok (mkControlClientConfig base_url token).

Definition endpoint (config : ControlClientConfig) (path : string) : string :=
  trim_end_matches "/" (clc_base_url config) +:+ path.

(** ** Payloads and answers *)

Definition json_string (o : option string) : json := from_option JString JNull o.
Definition json_bool (o : option bool) : json := from_option JBool JNull o.

(** What the derived serialisers of [ControlCreateUser], [ControlCreateOrg],
    [ControlCreateRepo] and [ControlCreatePull] write. *)
Definition admin_user_payload (username email password : string) (full_name : option string) (must_change_password send_notify : option bool) : json :=
  JObject [("username", JString username); ("email", JString email); ("password", JString password);
           ("full_name", json_string full_name); ("must_change_password", json_bool must_change_password);
           ("send_notify", json_bool send_notify)].
Definition admin_org_payload (owner name : string) (full_name description visibility : option string) : json :=
  JObject [("owner", JString owner); ("name", JString name); ("full_name", json_string full_name);
           ("description", json_string description); ("visibility", json_string visibility)].
Definition admin_repo_payload (owner name : string) (description : option string) (private auto_init : option bool) : json :=
  JObject [("owner", JString owner); ("name", JString name); ("description", json_string description);
           ("private", json_bool private); ("auto_init", json_bool auto_init)].
Definition admin_pull_payload (owner repo head base title : string) (body : option string) : json :=
  JObject [("owner", JString owner); ("repo", JString repo); ("head", JString head); ("base", JString base);
           ("title", JString title); ("body", json_string body)].

Record ControlUser := mkControlUser { cu_username : string; cu_email : option string }.
Record ControlOrg := mkControlOrg { cg_name : string; cg_full_name : option string }.
Record ControlRepo := mkControlRepo { co_owner : string; co_name : string; co_html_url : option string }.
Record ControlPull := mkControlPull { cp_number : Z; cp_url : string; cp_html_url : option string }.

(** [response.json()] of the answers. *)
Class AdminCodec := {
  control_user_from_str : string → result string ControlUser;
  control_org_from_str : string → result string ControlOrg;
  control_repo_from_str : string → result string ControlRepo;
  control_pull_from_str : string → result string ControlPull
}.

(** What a POST to a URL, with a bearer token and a body, gives. *)
Class ControlPost (T : Type) := {
  post_json : string → string → json → stateful T string HttpResponse
}.

Section Commands.
Context `{HexLib} `{PgOptions} `{GitHook.HttpLib} `{AdminCodec} {T R : Type} `{ControlPost T} `{RepoMappingRepository R}.

(** What a command works on: the control service and the database. *)
Abbreviation command := (stateful (T * R) (fault AdminError)).

Definition admin_post {X} (config : ControlClientConfig) (path : string) (payload : json) (decode : string → result string X)
    : command X := λ s,
  let '(r, t) := post_json (endpoint config path) (clc_token config) payload s.1 in
  (match r with
   | Err err => Err (Raised (AeControlRequest err))
   | Ok response =>
       if negb (is_success response) then
         Err (Raised (AeControlResponse ("control request failed: " +:+ status_display (hr_status response) +:+ " " +:+
           text_or_default response)))
       else map_err (λ err, Raised (AeControlRequest err)) (hr_body response ≫= decode)
   end, (t, s.2)).

Definition upsert_mapping_command (record : RepoMappingRecord) : command unit := λ s,
  let '(r, store) := upsert_mapping record s.2 in (map_err (λ err, Raised (AeStorage err)) r, (s.1, store)).

Definition after (prefix : string) (o : option string) (suffix : string) : string :=
  from_option (λ x, prefix +:+ x +:+ suffix) "" o.

(** The line that is printed; nothing is printed for a mapping. *)
Definition run_command (get_var : environment) (c : AdminCommand) : command (option string) :=
  match c with
  | AdMap forgejo pubkey identifier =>
      forgejo ← attempt (map_err AeCore (ForgejoRepo_parse forgejo));
      mapping ← attempt (map_err AeCore (RepoMapping_new (fr_owner forgejo) (fr_name forgejo) pubkey identifier));
      record ← expect (ok (RepoMappingRecord_new mapping));
      storage ← attempt (map_err AeStorageConfig (state_storage_from_env get_var));
      _ ← attempt (map_err AeStorage (write_connect_options storage));
      _ ← expect (ok (pool_options storage));
      _ ← upsert_mapping_command record;
      mret None
  | AdCreateUser username email password full_name must_change_password send_notify =>
      config ← attempt (ControlClientConfig_from_env get_var);
      user ← admin_post config "/control/users" (admin_user_payload username email password full_name must_change_password send_notify)
               control_user_from_str;
      mret (Some ("created user " +:+ cu_username user +:+ after " (" (cu_email user) ")"))
  | AdCreateOrg owner name full_name description visibility =>
      config ← attempt (ControlClientConfig_from_env get_var);
      org ← admin_post config "/control/orgs" (admin_org_payload owner name full_name description visibility) control_org_from_str;
      mret (Some ("created org " +:+ cg_name org +:+ after " (" (cg_full_name org) ")"))
  | AdCreateRepo owner name description private auto_init =>
      config ← attempt (ControlClientConfig_from_env get_var);
      repo ← admin_post config "/control/repos" (admin_repo_payload owner name description private auto_init) control_repo_from_str;
      mret (Some ("created repo " +:+ co_name repo +:+ " (" +:+ co_owner repo +:+ ")" +:+ after " " (co_html_url repo) ""))
  | AdCreatePull owner repo head base title body =>
      config ← attempt (ControlClientConfig_from_env get_var);
      pull ← admin_post config "/control/pulls" (admin_pull_payload owner repo head base title body) control_pull_from_str;
      mret (Some ("created pull #" +:+ pretty (cp_number pull) +:+ " (" +:+ cp_url pull +:+ ")" +:+ after " " (cp_html_url pull) ""))
  end.

Definition run (help : string) (args : list string) (get_var : environment) : command (option string) :=
  cli ← attempt (map_err AeCli (AdminCli_parse args));
  if ad_help cli then mret (Some help)
  else
    c ← attempt (ok_or (AeCli AdMissingCommand) (ad_command cli));
    run_command get_var c.
End Commands.

(** ** Commands written and read *)

Definition flag (name value : string) : list string := [name; value].
Definition opt_flag (name : string) (value : option string) : list string := from_option (flag name) [] value.
Definition opt_switch (name : string) (value : option bool) : list string := if is_some value then [name] else [].

(** The arguments of a command, as the help describes them. *)
Definition command_args (c : AdminCommand) : list string :=
  match c with
  | AdMap forgejo pubkey identifier =>
      "map" :: flag "--forgejo" forgejo ++ flag "--pubkey" pubkey ++ flag "--identifier" identifier
  | AdCreateUser username email password full_name must_change_password send_notify =>
      "create-user" :: flag "--username" username ++ flag "--email" email ++ flag "--password" password ++
        opt_flag "--full-name" full_name ++ opt_switch "--must-change-password" must_change_password ++
        opt_switch "--send-notify" send_notify
  | AdCreateOrg owner name full_name description visibility =>
      "create-org" :: flag "--owner" owner ++ flag "--name" name ++ opt_flag "--full-name" full_name ++
        opt_flag "--description" description ++ opt_flag "--visibility" visibility
  | AdCreateRepo owner name description private auto_init =>
      "create-repo" :: flag "--owner" owner ++ flag "--name" name ++ opt_flag "--description" description ++
        opt_switch "--private" private ++ opt_switch "--auto-init" auto_init
  | AdCreatePull owner repo head base title body =>
      "create-pull" :: flag "--owner" owner ++ flag "--repo" repo ++ flag "--head" head ++ flag "--base" base ++
        flag "--title" title ++ opt_flag "--body" body
  end.

(** A switch can be given or left out, not turned off. *)
Definition expressible (c : AdminCommand) : Prop :=
  match c with
  | AdCreateUser _ _ _ _ must_change_password send_notify => must_change_password ≠ Some false ∧ send_notify ≠ Some false
  | AdCreateRepo _ _ _ private auto_init => private ≠ Some false ∧ auto_init ≠ Some false
  | _ => True
  end.

(** Whatever is read, is expressible. *)
Lemma switch_on on name : switch on name ≠ Some false.
Proof. unfold switch. by case_bool_decide. Qed.

Lemma commands_expressible args c :
  parse_map args = Ok c ∨ parse_create_user args = Ok c ∨ parse_create_org args = Ok c ∨ parse_create_repo args = Ok c ∨
  parse_create_pull args = Ok c → expressible c.
Proof.
  unfold parse_map, parse_create_user, parse_create_org, parse_create_repo, parse_create_pull.
  intros [E|[E|[E|[E|E]]]]; apply bind_Ok in E as ([values on] & _ & E);
    repeat apply bind_Ok in E as (? & _ & E); injection E as <-; simpl; auto using switch_on.
Qed.

Lemma parsed_expressible args : ∀ help c h, parse_from_os args help = Ok (mkAdminCli (Some c) h) → expressible c.
Proof.
  induction args as [|value args IH]; intros help c h; [done|]. cbn [parse_from_os]. case_bool_decide; [apply IH|]. intros E.
  apply (commands_expressible args). revert E.
  repeat (match goal with |- (if ?b then _ else _) = _ → _ => destruct b end;
    [intros (c' & Hc & [= <- _])%bind_Ok; by auto|]).
  done.
Qed.

(** The command line of the administration reads exactly what its help describes: the
    arguments written for a command are read as that command, whatever its values are, and a
    command can be given on the command line exactly when it turns no switch off. *)
Lemma admin_args_roundtrip c :
  (expressible c ↔ ∃ args h, AdminCli_parse args = Ok (mkAdminCli (Some c) h)) ∧
  ∀ program, expressible c → AdminCli_parse (program :: command_args c) = Ok (mkAdminCli (Some c) false).
Proof.
  assert (∀ program, expressible c → AdminCli_parse (program :: command_args c) = Ok (mkAdminCli (Some c) false)) as Hr.
  { intros program Hc. destruct c; simpl in Hc; destruct_and?;
      repeat match goal with o : option _ |- _ => destruct o as [[]|] || destruct o end; try done; by vm_compute. }
  split; [|done]. split.
  - intros Hc. exists ("gittree-admin" :: command_args c), false. auto.
  - intros (args & h & Hp). by eapply parsed_expressible.
Qed.

Lemma admin_args_roundtrip_witness :
  AdminCli_parse ("gittree-admin" :: command_args (AdCreateRepo "ada" "--name" (Some "") (Some true) None)) =
    Ok (mkAdminCli (Some (AdCreateRepo "ada" "--name" (Some "") (Some true) None)) false).
Proof. apply (proj2 (admin_args_roundtrip _)). by split. Defined.

(** ** A mapping, and where git requests go *)

Section Mapping.
Context `{HexLaws} `{PgOptions} `{GitHook.HttpLib} `{AdminCodec} {T R : Type} `{ControlPost T} `{MappingLaws R}.

(** [expect("validated mapping pubkey")] *)
Lemma mapping_record_Ok owner name pubkey identifier m :
  RepoMapping_new owner name pubkey identifier = Ok m →
  ∃ p f, RepoMappingRecord_new m = Ok (mkRepoMappingRecord (fr_owner f) (fr_name f) p identifier) ∧
    hex_decode pubkey = Some p ∧ ForgejoRepo_new owner name = Ok f.
Proof.
  unfold RepoMapping_new. destruct (is_blank identifier); [done|].
  destruct (is_hex_len pubkey 64) eqn:Eh; [|done]. simpl. intros (f & Hf & [= <-])%bind_Ok.
  apply is_hex_len_spec in Eh as [Hl Hd]. unfold RepoMappingRecord_new, decode_hex_32. simpl.
  rewrite bool_decide_eq_true_2 by done. destruct (hex_decode_total pubkey Hd) as [p Hp]; [by rewrite Hl|].
  rewrite Hp. by exists p, f.
Qed.

(** [expect("validated storage pool options")] *)
Lemma storage_pool_Ok get_var storage : state_storage_from_env get_var = Ok storage → is_Some (ok (pool_options storage)).
Proof.
  unfold state_storage_from_env. intros E. repeat (apply bind_Ok in E as (? & ?E & E)). injection E as <-.
  unfold pool_options. apply map_err_Ok in E5. rewrite E5. by eexists.
Qed.

Lemma forgejo_parts value f : ForgejoRepo_parse value = Ok f → ForgejoRepo_new (fr_owner f) (fr_name f) = Ok f.
Proof.
  unfold ForgejoRepo_parse. case_match; [done|]. generalize (default "" (splitn 3 "/" value !! 0)) as owner.
  generalize (default "" (splitn 3 "/" value !! 1)) as name. intros name owner Hf.
  assert (f = Nip34Common.mkForgejoRepo owner name) as ->; [|done]. unfold ForgejoRepo_new in Hf. by repeat (case_match; [done|]); injection Hf.
Qed.

Lemma run_map_cases get_var forgejo pubkey identifier (t : T) (s : R) r s' :
  run_command get_var (AdMap forgejo pubkey identifier) (t, s) = (r, s') →
  (∃ err, r = Err (Raised err) ∧ s' = (t, s)) ∨
  ∃ f p res, ForgejoRepo_parse forgejo = Ok f ∧ hex_decode pubkey = Some p ∧
    upsert_mapping (mkRepoMappingRecord (fr_owner f) (fr_name f) p identifier) s = (res, s'.2) ∧ s'.1 = t ∧
    r = match res with Ok _ => Ok None | Err err => Err (Raised (AeStorage err)) end.
Proof.
  cbn [run_command]. unfold attempt, expect, lift, mbind, stateful_bind.
  destruct (ForgejoRepo_parse forgejo) as [f|] eqn:Ef; [|intros [= <- <-]; left; by eexists]. simpl.
  destruct (RepoMapping_new _ _ _ _) as [m|] eqn:Em; [|intros [= <- <-]; left; by eexists]. simpl.
  apply mapping_record_Ok in Em as (p & f' & -> & Hp & Hf'). rewrite (forgejo_parts _ _ Ef) in Hf'. injection Hf' as <-. simpl.
  destruct (state_storage_from_env get_var) as [storage|] eqn:Es; [|intros [= <- <-]; left; by eexists]. simpl.
  destruct (write_connect_options storage); [|intros [= <- <-]; left; by eexists]. simpl.
  destruct (storage_pool_Ok _ _ Es) as [pool ->]. simpl. unfold upsert_mapping_command. simpl.
  destruct (upsert_mapping _ s) as [res store] eqn:Eu. intros E. right. exists f, p, res.
  destruct res as [[]|]; simpl in E; by injection E as <- <-.
Qed.

Context `{AnnouncementRepository R} `{HL : HttpAuth.HttpLib} {U : Type} `{!UpstreamClient U}.
Context `{Base64Lib} `{Nip98Codec} `{JsonLib} `{SchnorrSlices} `{UnicodeTables} `{Bech32Lib}.

(** C20: what the administration maps is where git requests go: the command never panics, and
    after it succeeded a git request whose path names the repository, whatever the spelling of
    its key, and whose body arrives is sent, without the caller's credentials, to the
    repository of the mapped name at the forge, whose answer is the answer; unless the mapping
    cannot be read, or the request is a push that is not authorised (C4 and C18 say which are). *)
Theorem mapped_repository_routed get_var forgejo pubkey identifier (t : T) (s : R) v r s' :
  mapping_holds s v → run_command get_var (AdMap forgejo pubkey identifier) (t, s) = (r, s') →
  r ≠ Err Panicked ∧
  ∀ printed, r = Ok printed → ∃ f p, ForgejoRepo_parse forgejo = Ok f ∧ hex_decode pubkey = Some p ∧
    ∀ fuel auth base now q repo suffix query body (up : U) reply w,
      route_target (route_of q) (iq_uri q) = Some (repo, suffix, query) →
      to_ascii_lowercase (nr_pubkey repo) = to_ascii_lowercase pubkey → nr_identifier repo = identifier →
      iq_body q = Ok body → git_handler fuel auth base now q (mkGitHttpAppState s'.2 up) = (reply, w) →
      (∃ res, upstream_send (mkUpstreamRequest _ (iq_method q)
           (base +:+ "/" +:+ fr_owner f +:+ "/" +:+ fr_name f +:+ ".git" +:+ suffix +:+
              match query with Some query => "?" +:+ query | None => "" end)
           (passed_headers (iq_headers q)) body) up = (res, ga_upstream w) ∧ reply = Some (forge_reply res)) ∨
      ga_upstream w = up ∧
        ((∃ err, (mapping_by_repo p identifier s'.2).1 = Err err) ∨
         is_receive_pack (route_of q) = true ∧
         (authorize_receive_pack fuel auth now repo (with_body q body) (mapping_by_repo p identifier s'.2).2).1 ≠ Ok (Some tt)).
Proof.
  intros Hv Hr. apply run_map_cases in Hr as [(err & -> & ->)|(f & p & res & Hf & Hp & Hu & _ & ->)]; [done|].
  split; [by destruct res|]. intros printed Hok. exists f, p. split_and!; [done..|].
  intros fuel auth base now q repo suffix query body up reply w Ht Hpk <- Hb Hh.
  destruct res as [[]|]; [|done]. destruct (upsert_mapping_law _ _ _ _ _ Hv Hu) as [_ Hv']. simpl in Hv'.
  assert (hex_decode (nr_pubkey repo) = Some p) as Ho by (by rewrite <-(hex_decode_case (nr_pubkey repo)), Hpk, hex_decode_case).
  destruct (mapping_by_repo p (nr_identifier repo) s'.2) as [o s2] eqn:Eo.
  destruct (mapping_by_repo_law _ _ _ _ _ _ Hv' Eo) as [_ Ha].
  destruct o as [[m|]|err]; [|by destruct (Ha None eq_refl (fr_owner f, fr_name f)); rewrite lookup_insert_eq|].
  - destruct (Ha _ eq_refl) as (Hm & Hmp & Hmi). unfold mapping_at in Hm. rewrite Hmp, Hmi in Hm.
    assert ((mp_forgejo_owner m, mp_forgejo_repo m) = (fr_owner f, fr_name f)) as [= Hmo Hmr]
      by (eapply mapping_unique; [exact Hv'|exact Hm|by rewrite lookup_insert_eq]).
    destruct (mapped_request_passed _ _ _ _ _ (mkGitHttpAppState s'.2 up) _ _ _ _ _ _ _ _ _ Ht Ho Eo Hb Hh) as [Hpass|Hno]; [left|right].
    + unfold upstream_target in Hpass. by rewrite Hmo, Hmr in Hpass.
    + split; [apply Hno|]. right. apply Hno.
  - right. split; [|left; by exists err]. revert Hh. unfold git_handler. fold (route_of q).
    unfold handle_git_route, mbind, stateful_bind, lift, on_repositories, resolve_mapping, map_err_st.
    rewrite Ht. cbn [ok_or]. unfold mbind, stateful_bind, lift. rewrite Ho. cbn [ok_or ga_repositories]. rewrite Eo.
    cbn [map_err]. by intros [= <- <-].
Qed.
End Mapping.

(** ** The requests at the control service *)

(** [reqwest] and [axum] between the command and the service: the request that arrives, the
    segments of its path, and the response that a reply makes. *)
Class ControlWire `{HttpAuth.HttpLib} := {
  wire_request : string → string → json → HttpRequest;
  wire_path : string → list string;
  reply_body : ControlReply → string
}.

Section AtControl.
Context {A O N M F R : Type} `{AccountRepository A} `{!RelayPublishRepository O} `{RelayTenantRepository N}.
Context `{RelayMembershipRepository M} `{ForgejoTransport F} `{ForgejoCodec} `{RepoMappingRepository R}.
Context `{HL : HttpAuth.HttpLib} `{Base64Lib} `{Nip98Codec} `{JsonLib} `{HexLib} `{SchnorrSlices} `{SignerKeys} `{!SecretBytes}.
Context `{Bech32Encode} `{Bech32Lib} `{UrlLib} `{ControlActionCodec} `{!ControlExtract} `{!ControlWire}.
Context `{PgOptions} `{GitHook.HttpLib} `{AdminCodec}.
Context (auth : ControlAuthConfig) (forgejo : ForgejoConfig) (relay_urls : list string) (public_git_url : string).
Context (now : Z) (instants : nat → Z) (secret_key : SecretKey) (nonce : bytes).

Abbreviation state := (ControlAppState A O N M F).

Definition reply_response (r : ControlReply) : HttpResponse :=
  match r with
  | CrRejected status message => mkHttpResponse status (Ok message)
  | _ => mkHttpResponse 200 (Ok (reply_body r))
  end.

(** A handler that panics closes the connection; a path without a route is not found. *)
Definition control_serve (url token : string) (payload : json) : stateful state string HttpResponse := λ s,
  match build_router auth forgejo relay_urls public_git_url now instants secret_key nonce (wire_path url) (wire_request url token payload) with
  | None => (Ok (mkHttpResponse 404 (Ok "")), s)
  | Some handler =>
      let '(r, s) := handler s in
      (match r with
       | Ok reply => Ok (reply_response reply)
       | Err (Raised err) => let '(status, message) := ControlHttpError_into_response err in Ok (mkHttpResponse status (Ok message))
       | Err Panicked => Err "connection closed"
       end, s)
  end.
#[local] Instance control_post : ControlPost state := {| post_json := control_serve |}.

(** What arrives is a POST with the token; axum's extractor reads an object with the fields
    of a request, and rejects one that lacks a field with 422; the answer of a user is read
    back. *)
Class ControlWireLaws : Prop := {
  wire_method : ∀ url token payload, hq_method (wire_request url token payload) = "POST";
  wire_token : ∀ url token payload, header_str AUTH_HEADER (hq_headers (wire_request url token payload)) = Some ("Bearer " +:+ token);
  wire_user : ∀ url token username email password full_name must_change_password send_notify,
    extract_user (wire_request url token (admin_user_payload username email password full_name must_change_password send_notify)) =
      Ok (mkControlCreateUserRequest username email password full_name must_change_password send_notify);
  wire_repo_missing : ∀ url token m, "pubkey" ∉ m.*1 → ∃ message, extract_repo (wire_request url token (JObject m)) = Err (422%Z, message);
  wire_user_reply : ∀ u, control_user_from_str (reply_body (CrUser u)) = Ok (mkControlUser (cus_username u) (cus_email u))
}.
Context `{!ControlWireLaws} (get_var : environment) (config : ControlClientConfig).
Context (Hconfig : ControlClientConfig_from_env get_var = Ok config).

(** The handler of a request with the token and without blanks is the forge's. *)
Lemma create_user_authorised q payload (st : state) :
  authorize (hq_headers q) (ca_token auth) = Ok tt → is_blank (cuq_username payload) = false →
  is_blank (cuq_email payload) = false → is_blank (cuq_password payload) = false →
  create_user_handler auth forgejo q payload st =
    let '(r, t) := create_user forgejo (ForgejoCreateUser_from payload) (ct_transport st) in
    (map_err (Raised ∘ map_forgejo_error) (ControlUserResponse_from <$> r),
     mkControlAppState (ct_accounts st) (ct_outbox st) (ct_tenants st) (ct_memberships st) t).
Proof.
  intros Ha Hu He Hp. unfold create_user_handler, attempt, lift, mbind, stateful_bind. rewrite Ha. cbn [map_err].
  unfold control_non_empty. rewrite Hu, He, Hp. cbn [fail_if map_err]. unfold on_forgejo.
  destruct (create_user _ _ _) as [[u|err] t]; reflexivity.
Qed.

Lemma wire_authorised url token payload :
  token = ca_token auth → trim ("Bearer " +:+ ca_token auth) = "Bearer " +:+ ca_token auth →
  authorize (hq_headers (wire_request url token payload)) (ca_token auth) = Ok tt.
Proof.
  intros -> Htrim. unfold authorize. rewrite wire_token. cbn [ok_or mbind result_bind]. rewrite Htrim, strip_prefix_app.
  cbn [ok_or mbind result_bind]. by rewrite String.eqb_refl.
Qed.

Abbreviation router := (build_router auth forgejo relay_urls public_git_url now instants secret_key nonce).

Lemma router_users q : hq_method q = "POST" →
  router ["control"; "users"] q = Some (extracted extract_user CrUser (create_user_handler auth forgejo q) q).
Proof.
  intros Hm. unfold build_router. rewrite Hm, String.eqb_refl. cbn [negb].
  repeat (rewrite bool_decide_eq_false_2 by done). by rewrite bool_decide_eq_true_2.
Qed.
Lemma router_repos q : hq_method q = "POST" →
  router ["control"; "repos"] q = Some (extracted extract_repo CrRepo
    (create_repo_handler auth forgejo relay_urls public_git_url now instants q) q).
Proof.
  intros Hm. unfold build_router. rewrite Hm, String.eqb_refl. cbn [negb].
  repeat (rewrite bool_decide_eq_false_2 by done). by rewrite bool_decide_eq_true_2.
Qed.

(** C38: the administration command at the control service: a user is created at the forge as
    it was given, and reported, when the token is the service's and nothing required is blank;
    a repository is never created, whatever the token: the request has no key in it, and is
    rejected before the service looks at it. *)
Theorem admin_at_control (st : state) (store : R) :
  (∀ username email password full_name must_change_password send_notify,
     wire_path (endpoint config "/control/users") = ["control"; "users"] →
     clc_token config = ca_token auth → trim ("Bearer " +:+ ca_token auth) = "Bearer " +:+ ca_token auth →
     is_blank username = false → is_blank email = false → is_blank password = false →
     ∃ r t st', create_user forgejo (mkForgejoCreateUser username email password full_name must_change_password send_notify)
         (ct_transport st) = (r, t) ∧
       st' = mkControlAppState (ct_accounts st) (ct_outbox st) (ct_tenants st) (ct_memberships st) t ∧
       ∃ printed, run_command get_var (AdCreateUser username email password full_name must_change_password send_notify) (st, store) =
           (printed, (st', store)) ∧
         match r with
         | Ok u => printed = Ok (Some ("created user " +:+ fu_username u +:+ after " (" (fu_email u) ")"))
         | Err _ => ∃ message, printed = Err (Raised (AeControlResponse message))
         end) ∧
  (∀ owner name description private auto_init,
     wire_path (endpoint config "/control/repos") = ["control"; "repos"] →
     ∃ message, run_command get_var (AdCreateRepo owner name description private auto_init) (st, store) =
       (Err (Raised (AeControlResponse ("control request failed: " +:+ status_display 422 +:+ " " +:+ message))), (st, store))).
Proof.
  split.
  - intros username email password full_name mcp sn Hpath Htok Htrim Hu He Hp.
    destruct (create_user _ _ _) as [r t] eqn:Ec. eexists r, t, _. split; [reflexivity|]. split; [reflexivity|].
    cbn [run_command]. unfold attempt, lift, mbind, stateful_bind. rewrite Hconfig. cbn [map_err].
    unfold admin_post. cbn [post_json control_post fst snd]. unfold control_serve. rewrite Hpath.
    rewrite router_users by apply wire_method. unfold extracted. rewrite wire_user.
    unfold replied, mbind, stateful_bind. rewrite create_user_authorised by (done || by apply wire_authorised).
    unfold ForgejoCreateUser_from. cbn [cuq_username cuq_email cuq_password cuq_full_name cuq_must_change_password cuq_send_notify].
    rewrite Ec. destruct r as [u|err]; cbn.
    + rewrite wire_user_reply. eexists. split; reflexivity.
    + unfold map_forgejo_error. destruct err as [| status body | |]; repeat case_match; simplify_eq/=; eexists; (split; [reflexivity|by eexists]).
  - intros owner name description private auto_init Hpath.
    destruct (wire_repo_missing (endpoint config "/control/repos") (clc_token config)
      [("owner", JString owner); ("name", JString name); ("description", json_string description);
       ("private", json_bool private); ("auto_init", json_bool auto_init)]) as [message Hm]; [set_solver|].
    exists message. cbn [run_command]. unfold attempt, lift, mbind, stateful_bind. rewrite Hconfig. cbn [map_err].
    unfold admin_post. cbn [post_json control_post fst snd]. unfold control_serve. rewrite Hpath.
    rewrite router_repos by apply wire_method. unfold extracted, admin_repo_payload. rewrite Hm. reflexivity.
Qed.
End AtControl.

(** ** A service and a database *)

Module AdminSample.
#[local] Existing Instances json_model hex_model hex_model_laws crypto_model slices_model k256_model.
#[local] Existing Instances http_model base64_model time_model time_model_laws sample_url_lib http_lib_model.
#[local] Instance jsonbs : JsonbLib := {| jsonb := string; jsonb_in s := Some s; jsonb_out s := s |}.
#[local] Instance rows : RowOrder := {| row_iter A l := l; row_iter_perm A l := reflexivity l |}.
#[local] Instance options : PgOptions := {| PgConnectOptions := string; parse_connect_options s := Ok s; application_name _ o := o |}.
#[local] Instance signer : SignerLib := {| SecretKey := string; secret_from_slice b := Some b; sign_schnorr k m := m |}.
#[local] Instance keys : SignerKeys := {| xonly_public k := k; secret_key_error _ := "malformed" |}.
#[local] Instance secrets : SecretBytes := {| secret_bytes k := k |}.
#[local] Instance npubs : Bech32Encode := {| bech32_encode _ _ := Some "npub1abc" |}.
#[local] Instance npub_reader : Bech32Lib := sample_bech32_lib.
#[local] Instance actions : ControlActionCodec := {| control_action_from_str _ := None |}.
#[local] Instance nip98 : Nip98Codec := {| nip98_from_slice _ := None |}.
#[local] Instance hashes : HashOrder := sample_hash_order.
(** A forge that knows every user. *)
#[local] Instance transport : ForgejoTransport (list string) := {| send q := λ s, (Ok (mkForgejoResponse 201 "user"), "sent" :: s) |}.
#[local] Instance forge_codec : ForgejoCodec := {|
  repo_from_str _ := Err "json"; user_from_str _ := Ok (mkForgejoUserResponse (Some "ada") None None);
  org_from_str _ := Err "json"; pull_request_from_str _ := Err "json"; hooks_from_str _ := Err "json"
|}.

(** The members of a payload travel as headers; an answer is as long as its code. *)
Definition show (v : json) : string :=
  match v with JString s => String "s" s | JBool true => "t" | JBool false => "f" | _ => "n" end.
Definition shown (v : option string) : option string := match v with Some (String "s" s) => Some s | _ => None end.
Definition shown_bool (v : option string) : option bool :=
  match v with Some (String "t" _) => Some true | Some (String "f" _) => Some false | _ => None end.
Fixpoint times (n : nat) : string := match n with 0 => "" | S n => String "x" (times n) end.
Lemma times_length n : String.length (times n) = n.
Proof. induction n; simpl; congruence. Qed.

#[local] Instance wire : ControlWire := {|
  wire_request url token payload :=
    mkHttpRequest http_model "POST" (mkUri url None (Some url))
      (("authorization", "Bearer " +:+ token) :: (match payload with JObject m => (λ p, (p.1, show p.2)) <$> m | _ => [] end)) "";
  wire_path url := if url == "http://control/control/users" then ["control"; "users"]
                   else if url == "http://control/control/repos" then ["control"; "repos"] else [];
  reply_body r := match r with CrUser u => times (Pos.to_nat (encode (cus_username u, cus_email u))) | _ => "" end
|}.
#[local] Instance extractors : ControlExtract := {|
  extract_user q :=
    let get k := headers_get k (hq_headers q) in
    match shown (get "username"), shown (get "email"), shown (get "password") with
    | Some username, Some email, Some password =>
        Ok (mkControlCreateUserRequest username email password (shown (get "full_name"))
              (shown_bool (get "must_change_password")) (shown_bool (get "send_notify")))
    | _, _, _ => Err (422%Z, "missing field")
    end;
  extract_org _ := Err (415%Z, "json");
  extract_repo q :=
    if is_some (headers_get "pubkey" (hq_headers q)) then Err (415%Z, "json") else Err (422%Z, "missing field pubkey");
  extract_pull _ := Err (415%Z, "json"); extract_event _ := Err (415%Z, "json");
  repo_create_from_slice _ := Err "json"; tenant_create_from_slice _ := Err "json"
|}.
#[local] Instance answers : AdminCodec := {|
  control_user_from_str s :=
    ok_or "json" ((λ p, mkControlUser p.1 p.2) <$> (decode (Pos.of_nat (String.length s)) : option (string * option string)));
  control_org_from_str _ := Err "json"; control_repo_from_str _ := Err "json"; control_pull_from_str _ := Err "json"
|}.
#[local] Instance wire_laws : ControlWireLaws.
Proof.
  constructor; try done.
  - intros url token username email password [full_name|] [[]|] [[]|]; reflexivity.
  - intros url token m Hm. exists "missing field pubkey".
    assert (headers_get "pubkey" (hq_headers (wire_request url token (JObject m))) = None) as Hn; [|cbn in Hn |- *; by rewrite Hn].
    cbn. induction m as [|[k v] m IH]; [done|]. cbn. rewrite fmap_cons, not_elem_of_cons in Hm. destruct Hm as [Hk Hm].
    destruct (String.eqb_spec k "pubkey") as [->|]; [done|]. by apply IH.
  - intros u. cbn. rewrite times_length, Pos2Nat.id, decode_encode. done.
Qed.

Definition get_var (key : string) : option string :=
  if key == "GITTREE_CONTROL_URL" then Some "http://control/" else if key == "GITTREE_CONTROL_TOKEN" then Some "token"
  else if key == "GITTREE_STORAGE_READ_URL" then Some "postgres://db" else None.
Definition auth : ControlAuthConfig := mkControlAuthConfig "token" [].
Definition forgejo : ForgejoConfig := mkForgejoConfig "http://forge" "token" "gittree" "http://hook" "secret" false.
Abbreviation service := (ControlAppState MemoryAccounts MemoryOutbox (Database RepoTables) MemoryMembership (list string)).
Definition st : service :=
  mkControlAppState (mkMemoryAccounts ∅ ∅) (mkMemoryOutbox 0 ∅) (mkDatabase (mkRepoTables [] [] ∅ ∅ ∅ ∅ ∅) [])
    (mkMemoryMembership ∅ ∅) [].
Definition store : Database RepoTables := mkDatabase (mkRepoTables [] [] ∅ ∅ ∅ ∅ ∅) [].
Definition config : ControlClientConfig := mkControlClientConfig "http://control/" "token".
Definition secret : SecretKey := "secret".
Definition post_to : ControlPost service :=
  control_post (A:=MemoryAccounts) (O:=MemoryOutbox) (N:=Database RepoTables) (M:=MemoryMembership) (F:=list string) auth forgejo [] "https://git" 100 (λ _, 100%Z) secret "nonce".
Definition command (c : AdminCommand) := let _ := post_to in run_command get_var c (st, store).

Lemma admin_at_control_witness :
  (∃ st', command (AdCreateUser "ada" "a@b" "pw" None (Some true) None) = (Ok (Some "created user ada"), (st', store))) ∧
  ∃ message, command (AdCreateRepo "ada" "r" None None None) =
    (Err (Raised (AeControlResponse ("control request failed: 422 " +:+ message))), (st, store)).
Proof.
  destruct (admin_at_control (A:=MemoryAccounts) (O:=MemoryOutbox) (N:=Database RepoTables) (M:=MemoryMembership)
    (F:=list string) (R:=Database RepoTables) auth forgejo [] "https://git" 100 (λ _, 100%Z) secret "nonce" get_var config eq_refl st store)
    as [Hu Hr].
  split.
  - destruct (Hu "ada" "a@b" "pw" None (Some true) None eq_refl eq_refl eq_refl eq_refl eq_refl eq_refl)
      as (r & t & st' & Ec & _ & printed & Erun & Hp).
    vm_compute in Ec. injection Ec as <- <-. exists st'. rewrite Hp in Erun. exact Erun.
  - apply (Hr "ada" "r" None None None eq_refl).
Defined.

#[local] Instance nobody : ControlPost unit := {| post_json _ _ _ := λ s, (Err "refused", s) |}.
Definition key : string := hex_encode sample_secret.

#[local] Instance unicode : UnicodeTables := {| unicode_lowercase s := s |}.
#[local] Instance npub_of_key : Bech32Lib := {| bech32_decode s := if s == "npub1" then Some ("npub", sample_secret) else None |}.
(** The forge keeps the addresses it is asked for. *)
#[local] Instance forge : UpstreamClient (list string) := {|
  upstream_send u := λ log, (Ok (mkUpstreamResponse _ 200 [] "refs"), log ++ [ur_url u])
|}.
(** A clone begins. *)
Definition clone : IncomingRequest :=
  mkIncomingRequest _ "GET" (mkUri "/npub1/r.git/info/refs" (Some "service=git-upload-pack") (Some "")) [] (Ok "").

Lemma mapped_repository_routed_witness :
  ∃ r s', run_command get_var (AdMap "gt_ada/r" key "r") (tt, store) = (r, s') ∧
    ∃ w, git_handler 1 (mkAuthConfig "git" 60) "http://forge" 0 clone (mkGitHttpAppState s'.2 ([] : list string)) =
      (Some (Passed (mkUpstreamResponse _ 200 [] "refs")), w) ∧
    ga_upstream w = ["http://forge/gt_ada/r.git/info/refs?service=git-upload-pack"].
Proof.
  destruct (run_command get_var (AdMap "gt_ada/r" key "r") (tt, store)) as [r s'] eqn:E. exists r, s'. split; [reflexivity|].
  destruct (mapped_repository_routed (R:=Database RepoTables) (U:=list string) get_var "gt_ada/r" key "r" tt store ∅ r s') as [_ Hm].
  - split; [reflexivity|]. by intros k k' x ?%lookup_empty_Some.
  - exact E.
  - assert (r = Ok None) as Hr by (change r with (r, s').1; rewrite <-E; vm_compute; reflexivity).
    assert (∀ p, ∃ o, (mapping_by_repo p "r" s'.2).1 = Ok o) as Hread.
    { intros p. change s' with (r, s').2. rewrite <-E. vm_compute. eexists. reflexivity. }
    destruct (Hm _ Hr) as (f & p & Hf & Hp & Hroute). vm_compute in Hf. injection Hf as <-.
    destruct (git_handler 1 (mkAuthConfig "git" 60) "http://forge" 0 clone (mkGitHttpAppState s'.2 ([] : list string))) as [reply w] eqn:Eg.
    destruct (Hroute 1 (mkAuthConfig "git" 60) "http://forge" 0%Z clone (mkNormalizedRepo "npub1" "r" "/npub1/r.git" key)
      "/info/refs" (Some "service=git-upload-pack") "" [] reply w ltac:(by vm_compute) eq_refl eq_refl eq_refl Eg)
      as [(res & Hs & ->)|[_ [[err He]|[Hrec _]]]].
    + simpl in Hs. injection Hs as <- Hw. exists w. split; [reflexivity|symmetry; exact Hw].
    + destruct (Hread p) as [o Ho]. rewrite Ho in He. discriminate He.
    + discriminate Hrec.
Defined.
End AdminSample.
