(* ===== verification/WebApp.v ===== *)
(** * [WebApp]: the pages and listings of repositories

    Models [crates/app-ui/src/server.rs] (the repositories that the web application lists),
    [services/app/src/lib.rs] (its configuration and its API) and [services/ui/src/lib.rs]
    (the service that writes pages of its own), with the types of [crates/app-core/src/lib.rs]
    they use.  The framework that renders the application in the browser and serves files is
    not modelled. *)

From S2P Require Import Prelude RustStr CoreTypes Config Externals HexModel Nip34Common Grasp Membership NostrAuth Database HttpAuth.
From S2P Require Import Dispatch Repositories PostgresRepos Directory StateService.

(** ** Items *)

(** [RepoDetail] has the fields of [RepoListItem], and so has the item of the other service. *)
Record RepoListItem := mkRepoListItem { li_npub : string; li_identifier : string; li_forgejo : string; li_clone_url : string }.

Inductive AppUiError := AuBadRequest (message : string) | AuNotFound (message : string) | AuStorage (message : string) | AuInternal (message : string).
Definition AppUiError_display (e : AppUiError) : string :=
  match e with
  | AuBadRequest message => "bad request: " +:+ message
  | AuNotFound message => "not found: " +:+ message
  | AuStorage message => "storage error: " +:+ message
  | AuInternal message => "internal error: " +:+ message
  end.
(** [AppApiError::into_response] *)
Definition AppApiError_into_response (e : AppUiError) : Z * string :=
  match e with
  | AuBadRequest message => (400%Z, message)
  | AuNotFound message => (404%Z, message)
  | AuStorage message | AuInternal message => (500%Z, message)
  end.

(** ** Paths

    [PathBuf::join], on the components of a path, the last one first: an absolute path
    replaces what it is joined to, and [file_name] of [..] is [None]. *)
Definition segment_components (segment : string) : list (option string) :=
  omap (λ part, if is_empty part || (part == ".") then None else if part == ".." then Some None else Some (Some part))
    (split "/" segment).
Definition path_join (base : list (option string)) (segment : string) : list (option string) :=
  reverse (segment_components segment) ++ (if starts_with "/" segment then [] else base).

(** ** The listings: [server.rs] *)

Section Listings.
Context {R P : Type} `{RepoMappingRepository R} `{ProfileRepository P} `{Bech32Encode} `{Bech32Lib} `{HexLib}.
Context (repo_root : list (option string)) (public_git_url : string).

(** The two repositories of [AppUiState]. *)
Abbreviation ui := (stateful (R * P) AppUiError).
Definition on_mappings {X} (c : stateful R StorageError X) : ui X := λ s,
  let '(r, m) := c s.1 in (map_err (λ err, AuStorage (StorageError_display err)) r, (m, s.2)).
Definition on_profiles {X} (c : stateful P StorageError X) : ui X := λ s,
  let '(r, p) := c s.2 in (map_err (λ err, AuStorage (StorageError_display err)) r, (s.1, p)).

Definition profile_is_public (pubkey : bytes) : ui bool :=
  profile ← on_profiles (profile_by_pubkey pubkey);
  mret (match profile with
        | Some profile => match pf_visibility profile with VisPublic => true | VisPrivate => false end
        | None => false
        end).

Definition repo_list_item (mapping : RepoMappingRecord) : result AppUiError RepoListItem :=
  npub ← map_err (λ err, AuInternal (AppCoreError_display err)) (npub_from_bytes (mp_pubkey mapping));
  Ok (mkRepoListItem npub (mp_identifier mapping) (forgejo_full_name mapping)
        (app_clone_url public_git_url npub (mp_identifier mapping))).

(** The loop over the mappings. *)
Fixpoint public_items (mappings : list RepoMappingRecord) : ui (list RepoListItem) :=
  match mappings with
  | [] => mret []
  | mapping :: mappings =>
      public ← profile_is_public (mp_pubkey mapping);
      if negb public then public_items mappings
      else
        item ← lift (repo_list_item mapping);
        items ← public_items mappings;
        mret (item :: items)
  end.

Definition list_repo_items : ui (list RepoListItem) :=
  mappings ← on_mappings list_mappings;
  public_items mappings.

Fixpoint items_of (pubkey : bytes) (mappings : list RepoMappingRecord) : result AppUiError (list RepoListItem) :=
  match mappings with
  | [] => Ok []
  | mapping :: mappings =>
      if mp_pubkey mapping == pubkey then
        item ← repo_list_item mapping;
        items ← items_of pubkey mappings;
        Ok (item :: items)
      else items_of pubkey mappings
  end.

Definition list_repo_items_for_npub (npub : string) : ui (list RepoListItem) :=
  pubkey_bytes ← lift (map_err (λ err, AuBadRequest (AppCoreError_display err)) (pubkey_bytes_from_npub npub));
  public ← profile_is_public pubkey_bytes;
  if negb public then lift (Err (AuNotFound "profile not found"))
  else
    mappings ← on_mappings list_mappings;
    lift (items_of pubkey_bytes mappings).

Definition repo_detail_item (npub identifier : string) : ui RepoListItem :=
  let identifier := normalize_identifier identifier in
  let repo_path := path_join (path_join repo_root npub) (identifier +:+ ".git") in
  parsed ← lift (map_err (λ err, AuBadRequest (CoreError_display err)) (parse_repo_path repo_path));
  pubkey_bytes ← lift (ok_or (AuBadRequest "invalid pubkey") (hex_decode (rp_pubkey parsed)));
  public ← profile_is_public pubkey_bytes;
  if negb public then lift (Err (AuNotFound "profile not found"))
  else
    mapping ← on_mappings (mapping_by_repo pubkey_bytes (rp_identifier parsed));
    mapping ← lift (ok_or (AuNotFound "missing repo mapping") mapping);
    lift (repo_list_item mapping).

(** The API of [services/app]: the segments below the base path; [get] also serves [HEAD]. *)
Inductive AppReply := ApHealth | ApItems (items : list RepoListItem) | ApDetail (item : RepoListItem).

Definition app_route (method : string) (path : list string) : option (ui AppReply) :=
  if bool_decide (method ∈ ["GET"; "HEAD"]) then
    match path with
    | ["health"] => Some (mret ApHealth)
    | ["api"; "repos"] => Some (items ← list_repo_items; mret (ApItems items))
    | ["api"; "repos"; npub; identifier] => Some (item ← repo_detail_item npub identifier; mret (ApDetail item))
    | ["api"; "users"; npub; "repos"] => Some (items ← list_repo_items_for_npub npub; mret (ApItems items))
    | _ => None
    end
  else None.
End Listings.

(** ** The configuration of [services/app] *)

Inductive AppServiceConfigError :=
| AscConfig (err : ConfigError)
| AscStorage (err : StorageConfigError)
| AscMissingEnv (key : string)
| AscInvalidEnv (key value : string).
Definition AppServiceConfigError_display (e : AppServiceConfigError) : string :=
  match e with
  | AscConfig err => "app config error: " +:+ ConfigError_display err
  | AscStorage err => "app storage config error: " +:+ StorageConfigError_display err
  | AscMissingEnv key => "missing env " +:+ key
  | AscInvalidEnv key value => "invalid env " +:+ key +:+ ": " +:+ value
  end.

Record AppServiceConfig := mkAppServiceConfig {
  apc_bind : string; apc_base_path : string; apc_site_root : string; apc_site_pkg_dir : string;
  apc_command_only : bool; apc_storage : StorageConfig; apc_ui : UiConfig
}.

Definition app_env_string (get_var : environment) (key : string) : option string :=
  value ← get_var key;
  if is_blank value then None else Some value.
Definition app_env_bool (get_var : environment) (key : string) : option bool :=
  (λ value, bool_decide (trim value ∈ ["1"; "true"; "TRUE"; "yes"; "YES"])) <$> app_env_string get_var key.
(** [is_socket_addr]: what [str::parse::<SocketAddr>] accepts. *)
Definition app_env_socket_addr (is_socket_addr : string → bool) (get_var : environment) (key : string)
    : result AppServiceConfigError (option string) :=
  match app_env_string get_var key with
  | None => Ok None
  | Some value => if is_socket_addr value then Ok (Some value) else Err (AscInvalidEnv key value)
  end.

Definition normalize_base_path (base_path : string) : string :=
  let trimmed := trim base_path in
  if is_empty trimmed || (trimmed == "/") then "/"
  else
    let trimmed := trim_end_matches "/" trimmed in
    if starts_with "/" trimmed then trimmed else "/" +:+ trimmed.

Definition AppServiceConfig_from_env `{UrlLib} (is_socket_addr : string → bool) (get_var : environment)
    : result AppServiceConfigError AppServiceConfig :=
  storage ← map_err AscStorage (state_storage_from_env get_var);
  ui ← map_err AscConfig (UiConfig_from_env get_var);
  bind ← app_env_socket_addr is_socket_addr get_var "GITTREE_APP_BIND";
  let base_path := default "/ui" (app_env_string get_var "GITTREE_APP_BASE_PATH") in
  Ok (mkAppServiceConfig (default "127.0.0.1:8090" bind) (normalize_base_path base_path)
        (default "crates/app-ui/dist" (app_env_string get_var "GITTREE_APP_SITE_ROOT"))
        (default "pkg" (app_env_string get_var "GITTREE_APP_SITE_PKG_DIR"))
        (default false (app_env_bool get_var "GITTREE_APP_COMMAND_ONLY")) storage ui).

(** ** The configuration of [services/ui] *)

Inductive UiServiceConfigError :=
| UscConfig (err : ConfigError)
| UscStorage (err : StorageConfigError)
| UscMissingEnv (key : string)
| UscInvalidEnv (key value : string).
Definition UiServiceConfigError_display (e : UiServiceConfigError) : string :=
  match e with
  | UscConfig err => "ui config error: " +:+ ConfigError_display err
  | UscStorage err => "ui storage config error: " +:+ StorageConfigError_display err
  | UscMissingEnv key => "missing env " +:+ key
  | UscInvalidEnv key value => "invalid env " +:+ key +:+ ": " +:+ value
  end.
Record UiServiceConfig := mkUiServiceConfig { usc_bind : string; usc_storage : StorageConfig; usc_ui : UiConfig }.
Definition UiServiceConfig_from_env `{UrlLib} (get_var : environment) : result UiServiceConfigError UiServiceConfig :=
  services ← map_err UscConfig (ServicesConfig_from_env_validated_with get_var);
  storage ← map_err UscStorage (state_storage_from_env get_var);
  ui ← map_err UscConfig (UiConfig_from_env get_var);
  Ok (mkUiServiceConfig (sv_ui services) storage ui).

(** ** Pages: [render_index] and [render_repo] *)

Definition q : string := String (ascii_of_nat 34) "".
Definition html_open : string :=
  "<!doctype html><html><head><meta charset=" +:+ q +:+ "utf-8" +:+ q +:+ ">" +:+
  "<meta name=" +:+ q +:+ "viewport" +:+ q +:+ " content=" +:+ q +:+ "width=device-width, initial-scale=1" +:+ q +:+ ">".
Definition html_colors : string :=
  ":root{--bg1:#f4efe4;--bg2:#e8f0f4;--ink:#1c1c1c;--muted:#4b5a66;--accent:#c36b1b;}".
Definition html_body : string :=
  "body{margin:0;font-family:'IBM Plex Mono','Fira Mono','Menlo',monospace;background:linear-gradient(120deg,var(--bg1),var(--bg2));color:var(--ink);}".
Definition html_main : string :=
  "main{max-width:960px;margin:48px auto;padding:32px;background:rgba(255,255,255,0.9);border:1px solid rgba(0,0,0,0.08);box-shadow:0 18px 30px rgba(0,0,0,0.08);}".
Definition html_lists : string :=
  "h1{margin:0 0 12px;font-size:28px;letter-spacing:0.02em;}" +:+
  "p{margin:0 0 24px;color:var(--muted);}ul{list-style:none;padding:0;margin:0;}" +:+
  "li{padding:14px 0;border-bottom:1px solid rgba(0,0,0,0.08);}li:last-child{border-bottom:none;}".
Definition html_links : string :=
  "a{color:var(--accent);text-decoration:none;}a:hover{text-decoration:underline;}" +:+
  ".meta{font-size:13px;color:var(--muted);} .clone{font-size:13px;word-break:break-all;}" +:+
  "</style></head><body><main>".

Definition render_item (item : RepoListItem) : string :=
  "<li>" +:+ "<div><a href=" +:+ q +:+ "/" +:+ li_npub item +:+ "/" +:+ li_identifier item +:+ q +:+ ">" +:+ li_identifier item +:+ "</a></div>" +:+
  "<div class=" +:+ q +:+ "meta" +:+ q +:+ ">" +:+ li_npub item +:+ "</div>" +:+
  "<div class=" +:+ q +:+ "meta" +:+ q +:+ ">forgejo: " +:+ li_forgejo item +:+ "</div>" +:+
  "<div class=" +:+ q +:+ "clone" +:+ q +:+ ">clone: " +:+ li_clone_url item +:+ "</div>" +:+ "</li>".

Definition render_index (items : list RepoListItem) : string :=
  html_open +:+ "<title>gittree</title><style>" +:+ html_colors +:+ html_body +:+ html_main +:+ html_lists +:+ html_links +:+
  "<h1>gittree</h1><p>nostr repositories synced through gittree.</p>" +:+
  (if is_nil items then "<p class=" +:+ q +:+ "meta" +:+ q +:+ ">no repositories yet.</p>"
   else "<ul>" +:+ join "" (render_item <$> items) +:+ "</ul>") +:+ "</main></body></html>".

Definition render_repo (item : RepoListItem) : string :=
  html_open +:+ "<title>" +:+ li_identifier item +:+ "</title><style>" +:+ html_colors +:+ html_body +:+ html_main +:+ html_links +:+
  "<h1>" +:+ li_identifier item +:+ "</h1>" +:+
  "<p class=" +:+ q +:+ "meta" +:+ q +:+ ">" +:+ li_npub item +:+ "</p>" +:+
  "<p class=" +:+ q +:+ "meta" +:+ q +:+ ">forgejo: " +:+ li_forgejo item +:+ "</p>" +:+
  "<p class=" +:+ q +:+ "clone" +:+ q +:+ ">clone: " +:+ li_clone_url item +:+ "</p>" +:+
  "<p><a href=" +:+ q +:+ "/" +:+ q +:+ ">back to list</a></p>" +:+ "</main></body></html>".

(** ** The handlers of [services/ui] *)

Inductive UiHttpError := UhBadRequest (message : string) | UhNotFound (message : string) | UhStorage (message : string).
Definition UiHttpError_into_response (e : UiHttpError) : Z * string :=
  match e with
  | UhBadRequest message => (400%Z, message)
  | UhNotFound message => (404%Z, message)
  | UhStorage message => (500%Z, message)
  end.

Section Pages.
Context {R : Type} `{RepoMappingRepository R} `{Bech32Encode} `{Bech32Lib} `{HexLib}.
Context (repo_root : list (option string)) (public_git_url : string).

Abbreviation page := (stateful R (fault UiHttpError)).

(** [None]: [bech32::encode] fails, and the handler panics. *)
Definition ui_repo_list_item (mapping : RepoMappingRecord) : option RepoListItem :=
  npub ← bech32_encode "npub" (mp_pubkey mapping);
  Some (mkRepoListItem npub (mp_identifier mapping) (forgejo_full_name mapping)
          (trim_end_matches "/" public_git_url +:+ "/" +:+ npub +:+ "/" +:+ mp_identifier mapping +:+ ".git")).

Definition ui_list : page (list RepoListItem) :=
  mappings ← map_err_st (λ err, Raised (UhStorage (StorageError_display err))) list_mappings;
  expect (mapM ui_repo_list_item mappings).
Definition index_handler : page string :=
  items ← ui_list;
  mret (render_index items).

Definition repo_handler (npub identifier : string) : page string :=
  let identifier := default identifier (strip_suffix ".git" identifier) in
  let repo_path := path_join (path_join repo_root npub) (identifier +:+ ".git") in
  parsed ← attempt (map_err (λ err, UhBadRequest (CoreError_display err)) (parse_repo_path repo_path));
  pubkey_bytes ← expect (hex_decode (rp_pubkey parsed));
  mapping ← map_err_st (λ err, Raised (UhStorage (StorageError_display err))) (mapping_by_repo pubkey_bytes (rp_identifier parsed));
  mapping ← attempt (ok_or (UhNotFound "missing repo mapping") mapping);
  item ← expect (ui_repo_list_item mapping);
  mret (render_repo item).

(** [None]: there is no route. *)
Definition ui_route (method : string) (path : list string) : option (page string) :=
  if bool_decide (method ∈ ["GET"; "HEAD"]) then
    match path with
    | ["health"] => Some (mret "ok")
    | [] => Some index_handler
    | [npub; identifier] => Some (repo_handler npub identifier)
    | _ => None
    end
  else None.
End Pages.

(** ** What the listings show *)

Section Facts.
Context {R P : Type} `{MappingLaws R} `{ProfileLaws P} `{Bech32Encode} `{Bech32Lib} `{HexLib}.
Context (repo_root : list (option string)) (public_git_url : string).

Abbreviation state := (R * P)%type.
Abbreviation mappings := (gmap (string * string) (bytes * string)).
Abbreviation profiles := (gmap bytes ProfileRecord).

Definition web_holds (s : state) (v : mappings * profiles) : Prop := mapping_holds s.1 v.1 ∧ profile_holds s.2 v.2.

(** The key has a profile, and shows it. *)
Definition shown_to_all (vp : profiles) (pubkey : bytes) : Prop :=
  ∃ profile, vp !! pubkey = Some profile ∧ pf_visibility profile = VisPublic.

Lemma answers_on_mappings {X} (c : stateful R StorageError X) Q :
  answers mapping_holds c Q → answers web_holds (on_mappings (P:=P) c) (λ v, Q v.1).
Proof.
  intros Hc [m p] v r s' [Hm Hp]. unfold on_mappings. simpl in *. destruct (c m) as [x m'] eqn:E. intros [= <- <-].
  destruct (Hc _ _ _ _ Hm E) as [Hm' HQ]. split; [done|]. intros a Ha. apply map_err_Ok in Ha. auto.
Qed.
Lemma answers_on_profiles {X} (c : stateful P StorageError X) Q :
  answers profile_holds c Q → answers web_holds (on_profiles (R:=R) c) (λ v, Q v.2).
Proof.
  intros Hc [m p] v r s' [Hm Hp]. unfold on_profiles. simpl in *. destruct (c p) as [x p'] eqn:E. intros [= <- <-].
  destruct (Hc _ _ _ _ Hp E) as [Hp' HQ]. split; [done|]. intros a Ha. apply map_err_Ok in Ha. auto.
Qed.

Lemma answers_bind {S V E A B} (holds : S → V → Prop) (c : stateful S E A) (k : A → stateful S E B) (Q : V → A → Prop) (Q' : V → B → Prop) :
  answers holds c Q → (∀ a, answers holds (k a) (λ v b, Q v a → Q' v b)) → answers holds (c ≫= k) Q'.
Proof.
  intros Hc Hk s v r s' Hs. unfold mbind, stateful_bind. destruct (c s) as [[a|e] s1] eqn:Ec.
  - destruct (Hc _ _ _ _ Hs Ec) as [Hs1 HQ]. intros Ek. destruct (Hk a _ _ _ _ Hs1 Ek) as [Hs' Hb]. split; [done|].
    intros b ->. apply Hb; auto.
  - intros [= <- <-]. split; [by apply (Hc _ _ _ _ Hs Ec)|done].
Qed.
Lemma answers_lift {S V E A} (holds : S → V → Prop) (r : result E A) (Q : V → A → Prop) :
  (∀ v a, r = Ok a → Q v a) → answers holds (lift r) Q.
Proof. intros HQ s v r' s' Hs [= <- <-]. split; [done|]. auto. Qed.
Lemma answers_weaken {S V E A} (holds : S → V → Prop) (c : stateful S E A) (Q Q' : V → A → Prop) :
  answers holds c Q → (∀ v a, Q v a → Q' v a) → answers holds c Q'.
Proof. intros Hc HQ s v r s' Hs Ec. destruct (Hc _ _ _ _ Hs Ec). split; auto. Qed.

Lemma profile_is_public_law pubkey :
  answers web_holds (profile_is_public (R:=R) (P:=P) pubkey) (λ v b, b = true ↔ shown_to_all v.2 pubkey).
Proof.
  eapply answers_bind; [apply answers_on_profiles, profile_by_pubkey_law|]. intros o. apply answers_lift.
  intros v a [= <-] ->. unfold shown_to_all. destruct (v.2 !! pubkey) as [p|]; [|by split; [|intros (? & ? & _)]].
  destruct (pf_visibility p) eqn:Ev; split; try done; [intros (? & [= <-] & ?); congruence|by exists p].
Qed.

Lemma public_items_law l :
  answers web_holds (public_items (R:=R) (P:=P) public_git_url l) (λ v items, ∀ item,
    item ∈ items ↔ ∃ r, r ∈ l ∧ shown_to_all v.2 (mp_pubkey r) ∧ repo_list_item public_git_url r = Ok item).
Proof.
  induction l as [|r l IH]; simpl.
  { apply answers_lift. intros v a [= <-] item. set_solver. }
  eapply answers_bind; [apply profile_is_public_law|]. intros []; simpl.
  - eapply answers_bind; [apply (answers_lift _ _ (λ _ item, repo_list_item public_git_url r = Ok item)); done|].
    intros it. eapply answers_bind; [apply IH|]. intros its. apply answers_lift. intros v a [= <-] Hl Hit Hp item.
    rewrite elem_of_cons, Hl. split.
    + intros [->|(r' & ? & ? & ?)]; [exists r|exists r']; set_solver.
    + intros (r' & [->|Hr']%elem_of_cons & Hs & Hi); [left; congruence|right; eauto].
  - eapply answers_weaken; [apply IH|]. intros v items Hl Hp item. cbv beta in Hl. rewrite Hl. split.
    + intros (r' & ? & ? & ?). exists r'. set_solver.
    + intros (r' & [->|Hr']%elem_of_cons & Hs & Hi); [by apply Hp in Hs|eauto].
Qed.

Lemma items_of_Ok pubkey l items : items_of public_git_url pubkey l = Ok items → ∀ item,
  item ∈ items ↔ ∃ r, r ∈ l ∧ mp_pubkey r = pubkey ∧ repo_list_item public_git_url r = Ok item.
Proof.
  revert items. induction l as [|r l IH]; intros items; simpl; [intros [= <-] item; set_solver|].
  destruct (String.eqb_spec (mp_pubkey r) pubkey) as [Hp|Hp].
  - intros (it & Hit & (its & Hits & [= <-])%bind_Ok)%bind_Ok item. rewrite elem_of_cons, (IH _ Hits). split.
    + intros [->|(r' & ? & ? & ?)]; [exists r|exists r']; set_solver.
    + intros (r' & [->|Hr']%elem_of_cons & Hs & Hi); [left; congruence|right; eauto].
  - intros Hits item. rewrite (IH _ Hits). split; intros (r' & Hr & Hs & Hi); exists r'; set_solver.
Qed.

(** C13: the web application shows the repositories of public profiles and no others: its
    listing is exactly the mappings whose key shows its profile, the listing of a key is refused
    for a private one and else is exactly its mappings, and a single repository is given
    only for a key that shows its profile. *)
Theorem private_repositories_hidden (s : state) vm vp :
  web_holds s (vm, vp) →
  (∀ items s', list_repo_items public_git_url s = (Ok items, s') → ∀ item, item ∈ items ↔
     ∃ r, mapping_at vm r ∧ shown_to_all vp (mp_pubkey r) ∧ repo_list_item public_git_url r = Ok item) ∧
  (∀ npub items s', list_repo_items_for_npub public_git_url npub s = (Ok items, s') → ∃ pubkey,
     pubkey_bytes_from_npub npub = Ok pubkey ∧ shown_to_all vp pubkey ∧
     ∀ item, item ∈ items ↔ ∃ r, mapping_at vm r ∧ mp_pubkey r = pubkey ∧ repo_list_item public_git_url r = Ok item) ∧
  (∀ npub identifier item s', repo_detail_item repo_root public_git_url npub identifier s = (Ok item, s') →
     ∃ r, mapping_at vm r ∧ shown_to_all vp (mp_pubkey r) ∧ repo_list_item public_git_url r = Ok item).
Proof.
  intros Hs. split_and!.
  - intros items s' E. assert (answers web_holds (list_repo_items (R:=R) (P:=P) public_git_url) (λ v items, ∀ item, item ∈ items ↔
      ∃ r, mapping_at v.1 r ∧ shown_to_all v.2 (mp_pubkey r) ∧ repo_list_item public_git_url r = Ok item)) as Ha.
    { eapply answers_bind; [apply answers_on_mappings, list_mappings_law|]. intros l.
      eapply answers_weaken; [apply public_items_law|]. intros v its Hits Hl item. cbv beta in Hits, Hl. rewrite Hits.
      by setoid_rewrite Hl. }
    by apply (Ha _ _ _ _ Hs E).
  - intros npub items s' E.
    assert (answers web_holds (list_repo_items_for_npub (R:=R) (P:=P) public_git_url npub) (λ v items, ∃ pubkey,
      pubkey_bytes_from_npub npub = Ok pubkey ∧ shown_to_all v.2 pubkey ∧
      ∀ item, item ∈ items ↔ ∃ r, mapping_at v.1 r ∧ mp_pubkey r = pubkey ∧ repo_list_item public_git_url r = Ok item)) as Ha.
    { eapply answers_bind; [apply (answers_lift _ _ (λ _ pk, pubkey_bytes_from_npub npub = Ok pk)); by intros _ ? ?%map_err_Ok|].
      intros pk. eapply answers_bind; [apply profile_is_public_law|]. intros []; cbn [negb]; [|by apply answers_lift].
      eapply answers_bind; [apply answers_on_mappings, list_mappings_law|]. intros l. apply answers_lift.
      intros v its Hits Hl Hp Hpk. exists pk. split_and!; [done|by apply Hp|]. intros item. rewrite (items_of_Ok _ _ _ Hits).
      by setoid_rewrite Hl. }
    by apply (Ha _ _ _ _ Hs E).
  - intros npub identifier item s' E.
    assert (answers web_holds (repo_detail_item (R:=R) (P:=P) repo_root public_git_url npub identifier) (λ v item,
      ∃ r, mapping_at v.1 r ∧ shown_to_all v.2 (mp_pubkey r) ∧ repo_list_item public_git_url r = Ok item)) as Ha.
    { eapply answers_bind; [by apply (answers_lift _ _ (λ _ _, True))|]. intros parsed.
      eapply answers_bind; [by apply (answers_lift _ _ (λ _ _, True))|]. intros pk.
      eapply answers_bind; [apply profile_is_public_law|]. intros []; cbn [negb]; [|by apply answers_lift].
      eapply answers_bind; [apply answers_on_mappings, mapping_by_repo_law|]. intros o.
      eapply answers_bind; [apply (answers_lift _ _ (λ _ m, o = Some m)); by intros _ ? ?%ok_or_Ok|]. intros m.
      apply answers_lift. intros v it Hit -> (Hm & <- & _) Hp _ _. exists m. split_and!; [done|by apply Hp|done]. }
    by apply (Ha _ _ _ _ Hs E).
Qed.

(** The service with pages of its own lists every mapping, those of private profiles too. *)
Lemma ui_lists_everything (m : R) vm items m' :
  mapping_holds m vm → ui_list public_git_url m = (Ok items, m') →
  ∀ item, item ∈ items ↔ ∃ r, mapping_at vm r ∧ ui_repo_list_item public_git_url r = Some item.
Proof.
  intros Hm. unfold ui_list, mbind, stateful_bind, map_err_st. destruct (list_mappings m) as [[l|] m1] eqn:E; [|done]. simpl.
  destruct (list_mappings_law _ _ _ _ Hm E) as [_ Hl]. specialize (Hl l eq_refl). unfold expect, lift.
  destruct (mapM (ui_repo_list_item public_git_url) l) as [its|] eqn:Emap; [|done]. intros [= <- _] item.
  apply mapM_Some in Emap. setoid_rewrite <-Hl. rewrite !list_elem_of_lookup. split.
  - intros [i Hi]. destruct (Forall2_lookup_r _ _ _ _ _ Emap Hi) as (r & Hr & Hri). exists r. split; [|done].
    by eapply list_elem_of_lookup_2.
  - intros (r & [i Hi]%list_elem_of_lookup & Hri). destruct (Forall2_lookup_l _ _ _ _ _ Emap Hi) as (it & Hit & Hx).
    exists i. congruence.
Qed.
End Facts.

(** ** A public and a private repository *)

Module WebSample.
#[local] Existing Instances hex_model time_model time_model_laws sample_bech32_lib.
#[local] Instance jsonbs : JsonbLib := {| jsonb := string; jsonb_in s := Some s; jsonb_out s := s |}.
#[local] Instance rows : RowOrder := {| row_iter A l := l; row_iter_perm A l := reflexivity l |}.
#[local] Instance npubs : Bech32Encode := {| bech32_encode hrp b := Some (hrp +:+ "1" +:+ b) |}.

Definition ada : bytes := "0123456789abcdef0123456789abcdef".
Definition eve : bytes := "fedcba9876543210fedcba9876543210".
Definition noon : OffsetDateTime := (43200%Z : Z) ↾ eq_refl.
Definition shown_as (visibility : string) : GittreeProfileRow :=
  mkGittreeProfileRow None None None None None visibility noon noon.
Definition mappings : gmap (string * string) (bytes * string) :=
  {[ ("ada", "tools") := (ada, "tools"); ("eve", "diary") := (eve, "diary") ]}.
Definition store : Database RepoTables :=
  mkDatabase (mkRepoTables [] [] mappings ∅ (<[ada := shown_as "public"]> (<[eve := shown_as "private"]> ∅)) ∅ ∅) [].
Definition record (pubkey : bytes) (visibility : ProfileVisibility) : ProfileRecord :=
  mkProfileRecord pubkey None None None None None visibility 43200 43200.
Definition profiles : gmap bytes ProfileRecord := <[ada := record ada VisPublic]> (<[eve := record eve VisPrivate]> ∅).

Lemma web_store_holds : web_holds (store, store) (mappings, profiles).
Proof.
  split.
  - split; [done|]. intros k k' x. cbn [fst snd]. unfold mappings. intros Hk Hk'.
    apply lookup_insert_Some in Hk as [[<- <-]|[? Hk]]; apply lookup_insert_Some in Hk' as [[<- E]|[? Hk']]; try done;
      apply lookup_singleton_Some in Hk as [??] || idtac; apply lookup_singleton_Some in Hk' as [??] || idtac; simplify_eq; done.
  - change (profiles_rep (db_tables store) profiles). unfold profiles_rep.
    apply table_rep_insert; [apply table_rep_insert; [apply table_rep_empty|]|]; reflexivity.
Qed.

(** One of the two repositories is listed. *)
Lemma private_repositories_hidden_witness :
  ∃ item s', list_repo_items "https://git.example" (store, store) = (Ok [item], s') ∧ li_identifier item = "tools" ∧
  ∃ r, mapping_at mappings r ∧ shown_to_all profiles (mp_pubkey r) ∧ repo_list_item "https://git.example" r = Ok item.
Proof.
  destruct (list_repo_items "https://git.example" (store, store)) as [r s'] eqn:E.
  assert (r = Ok [mkRepoListItem ("npub1" +:+ ada) "tools" "ada/tools" ("https://git.example/npub1" +:+ ada +:+ "/tools.git")]) as ->.
  { change r with (r, s').1. rewrite <-E. vm_compute. reflexivity. }
  eexists _, s'. split; [reflexivity|]. split; [reflexivity|].
  refine (proj1 (proj1 (private_repositories_hidden [] "https://git.example" (store, store) mappings profiles web_store_holds)
    _ _ E _) _).
  left.
Defined.
End WebSample.
