(* ===== verification/Browser.v ===== *)
(** * [Browser]: what the web application keeps and sends in the browser

    Models the parts of [crates/app-ui] that do not draw: [profile_validation.rs], [auth.rs],
    [session.rs], [control_token.rs], [auth_client.rs], [profile_client.rs] and
    [control_client.rs], as they are compiled for the browser.  The browser itself is a
    parameter: the class [WebWindow] is the part of its interface that is used, with the
    promises of its storage as [WebWindowLaws], and [WebFetch] is the network. *)

From S2P Require Import Prelude RustStr CoreTypes Externals HexModel Nip34Common Membership NostrAuth Database HttpAuth.
From S2P Require Import Dispatch Repositories PostgresRepos Directory Forgejo StateService AuthService.

(** ** The browser *)

(** [web_sys]: an operation fails with the text of what it throws.  [window] says whether
    there is a global window, [local_storage] whether it has a storage. *)
Class WebWindow (B : Type) := {
  window : B → bool;
  window_local_storage : stateful B string bool;
  get_item : string → stateful B string (option string);
  set_item : string → string → stateful B string unit;
  remove_item : string → stateful B string unit;
  window_crypto : stateful B string unit;
  get_random_values : stateful B string bytes
}.

(** What is kept: an entry that is set is read back until it is removed; 32 random bytes. *)
Class WebWindowLaws (B : Type) `{WebWindow B} := {
  storage_holds : B → gmap string string → Prop;
  window_local_storage_law : answers storage_holds window_local_storage (λ _ _, True);
  get_item_law : ∀ k, answers storage_holds (get_item k) (λ v o, o = v !! k);
  set_item_law : ∀ k x, realises storage_holds (set_item k x) (λ v, (tt, <[k := x]> v));
  remove_item_law : ∀ k, realises storage_holds (remove_item k) (λ v, (tt, delete k v));
  window_crypto_law : answers storage_holds window_crypto (λ _ _, True);
  get_random_values_law : answers storage_holds get_random_values (λ _ b, String.length b = 32)
}.

(** [Request] and [fetch]: building a request may throw; a response is its status and its
    text. *)
Record FetchRequest := mkFetchRequest {
  wq_method : string; wq_url : string; wq_headers : list (string * string); wq_body : option bytes
}.
Class WebFetch (N : Type) := {
  new_request : FetchRequest → result string unit;
  fetch : FetchRequest → stateful N string (Z * string)
}.

(** ** [profile_validation.rs] *)

Inductive ProfileValidationError :=
| DisplayNameTooLong | BioTooLong | AvatarUrlTooLong | AvatarUrlInvalid | WebsiteUrlTooLong | WebsiteUrlInvalid
| LocationTooLong.

Definition message_key (e : ProfileValidationError) : string :=
  match e with
  | DisplayNameTooLong => "app.profile.validation.display_name_length"
  | BioTooLong => "app.profile.validation.bio_length"
  | AvatarUrlTooLong => "app.profile.validation.avatar_url_length"
  | AvatarUrlInvalid => "app.profile.validation.avatar_url_scheme"
  | WebsiteUrlTooLong => "app.profile.validation.website_url_length"
  | WebsiteUrlInvalid => "app.profile.validation.website_url_scheme"
  | LocationTooLong => "app.profile.validation.location_length"
  end.

Definition normalized (value : option string) : option string :=
  value ← trim <$> value;
  if is_empty value then None else Some value.

Definition form_is_http_url (value : string) : bool :=
  let lower := to_ascii_lowercase (trim value) in
  starts_with "http://" lower || starts_with "https://" lower.

(** The limits [MAX_DISPLAY_NAME] to [MAX_LOCATION], of this file. *)
Definition FORM_DISPLAY_NAME : nat := 80.
Definition FORM_BIO : nat := 500.
Definition FORM_AVATAR_URL : nat := 300.
Definition FORM_WEBSITE_URL : nat := 300.
Definition FORM_LOCATION : nat := 120.

Definition validate_profile_update (update : ProfileUpdate) : list ProfileValidationError :=
  match normalized (pu_display_name update) with
  | Some value => if FORM_DISPLAY_NAME <? String.length value then [DisplayNameTooLong] else []
  | None => []
  end ++
  match normalized (pu_bio update) with
  | Some value => if FORM_BIO <? String.length value then [BioTooLong] else []
  | None => []
  end ++
  match normalized (pu_avatar_url update) with
  | Some value =>
      (if FORM_AVATAR_URL <? String.length value then [AvatarUrlTooLong] else []) ++
      (if negb (form_is_http_url value) then [AvatarUrlInvalid] else [])
  | None => []
  end ++
  match normalized (pu_website_url update) with
  | Some value =>
      (if FORM_WEBSITE_URL <? String.length value then [WebsiteUrlTooLong] else []) ++
      (if negb (form_is_http_url value) then [WebsiteUrlInvalid] else [])
  | None => []
  end ++
  match normalized (pu_location update) with
  | Some value => if FORM_LOCATION <? String.length value then [LocationTooLong] else []
  | None => []
  end.

(** ** [auth.rs] *)

Inductive AuthError :=
| BaMissingWindow
| BaMissingStorage
| BaMissingCrypto
| BaInvalidSecretKey
| BaMissingNip07
| BaNip07 (message : string)
| BaEventEncoding (message : string)
| BaJs (message : string)
| BaCore (err : AppCoreError).

Definition AuthError_display (e : AuthError) : string :=
  match e with
  | BaMissingWindow => "missing window"
  | BaMissingStorage => "missing storage"
  | BaMissingCrypto => "missing crypto"
  | BaInvalidSecretKey => "invalid secret key"
  | BaMissingNip07 => "missing nip-07 provider"
  | BaNip07 message => "nip-07 error: " +:+ message
  | BaEventEncoding message => "event encoding error: " +:+ message
  | BaJs message => "js error: " +:+ message
  | BaCore err => "auth core error: " +:+ AppCoreError_display err
  end.

Record LocalKeyMaterial := mkLocalKeyMaterial { lk_pubkey : string; lk_privkey : string }.

(** The clock of the browser, in milliseconds. *)
Definition browser_timestamp (date_now : Z) : Z := (date_now / 1000)%Z.

(** [serde_json::to_vec::<Nip98Event>] *)
Class Nip98Encode := { nip98_to_vec : Nip98Event → result string bytes }.

Definition auth_header `{Nip98Encode} `{Base64Lib} (event : Nip98Event) : result AuthError string :=
  json ← map_err BaEventEncoding (nip98_to_vec event);
  let token := base64_encode json in
  Ok ("Nostr " +:+ token).

Definition parse_secret_hex `{HexLib} (value : string) : result AuthError bytes :=
  bytes ← ok_or BaInvalidSecretKey (hex_decode value);
  if negb (bool_decide (String.length bytes = 32)) then Err BaInvalidSecretKey else Ok bytes.

Definition pubkey_from_secret `{HexLib} `{K256Lib} (secret : bytes) : result AuthError string :=
  signing_key ← ok_or BaInvalidSecretKey (signing_key_from_bytes secret);
  Ok (hex_encode (verifying_key_bytes signing_key)).

Definition LOCAL_SECRET_KEY : string := "gittree_local_secret".

(** [window_ref] and [local_storage], of each of the files that have them. *)
Definition in_window {B E A} `{WebWindow B} (missing_window : E) (c : stateful B E A) : stateful B E A := λ b,
  if window b then c b else (Err missing_window, b).
Definition local_storage_as {B E} `{WebWindow B} (missing_window missing_storage : E) (js : string → E) : stateful B E unit :=
  in_window missing_window
    (there ← map_err_st js window_local_storage;
     lift (if there : bool then Ok tt else Err missing_storage)).

Section LocalKey.
Context {B : Type} `{WebWindow B} `{HexLib}.

Definition local_storage : stateful B AuthError unit := local_storage_as BaMissingWindow BaMissingStorage BaJs.

Definition generate_secret_key : stateful B AuthError bytes :=
  in_window BaMissingWindow
    (_ ← map_err_st (λ _, BaMissingCrypto) window_crypto;
     map_err_st BaJs get_random_values).

Definition local_secret_key : stateful B AuthError bytes :=
  _ ← local_storage;
  value ← map_err_st BaJs (get_item LOCAL_SECRET_KEY);
  match value with
  | Some value => lift (parse_secret_hex value)
  | None =>
      secret ← generate_secret_key;
      _ ← map_err_st BaJs (set_item LOCAL_SECRET_KEY (hex_encode secret));
      mret secret
  end.

Definition local_key_event `{JsonLib} `{CryptoLib} `{K256Lib} (method url : string) (payload_sha256 : option string)
    (created_at : Z) : stateful B AuthError Nip98Event :=
  secret ← local_secret_key;
  lift (map_err BaCore (nip98_sign_event secret method url payload_sha256 created_at)).

Definition local_key_material `{K256Lib} : stateful B AuthError LocalKeyMaterial :=
  secret ← local_secret_key;
  pubkey ← lift (pubkey_from_secret secret);
  mret (mkLocalKeyMaterial pubkey (hex_encode secret)).
End LocalKey.

(** *** The extension that signs: [nostr] and [nostr_browser_signer] *)

Class NostrTypes := {
  PublicKey : Type;
  public_key_from_hex : string → result string PublicKey;
  public_key_to_hex : PublicKey → string;
  NostrTag : Type;
  tag_parse : list string → result string NostrTag;
  tag_to_vec : NostrTag → list string
}.
Record UnsignedEvent `{NostrTypes} := mkUnsignedEvent {
  ue_pubkey : PublicKey; ue_created_at : Z; ue_kind : Z; ue_tags : list NostrTag; ue_content : string
}.
Record SignedEvent `{NostrTypes} := mkSignedEvent {
  sg_id : bytes; sg_pubkey : PublicKey; sg_created_at : Z; sg_kind : Z; sg_tags : list NostrTag; sg_content : string;
  sg_sig : bytes
}.
Inductive Nip07Error := NoGlobalWindowObject | NamespaceNotFound (namespace : string) | OtherNip07 (message : string).
Class BrowserSigner (B : Type) `{NostrTypes} := {
  signer_new : stateful B Nip07Error unit;
  signer_get_public_key : stateful B string PublicKey;
  signer_sign_event : UnsignedEvent → stateful B string SignedEvent
}.

Section Nip07.
Context {B : Type} `{NostrTypes} `{!BrowserSigner B} `{HexLib}.

Definition browser_signer : stateful B AuthError unit :=
  map_err_st (λ err, match err with
                     | NoGlobalWindowObject | NamespaceNotFound _ => BaMissingNip07
                     | OtherNip07 message => BaNip07 message
                     end) signer_new.

Definition nip07_pubkey : stateful B AuthError string :=
  _ ← browser_signer;
  pubkey ← map_err_st BaNip07 signer_get_public_key;
  mret (public_key_to_hex pubkey).

Definition nip98_unsigned_to_nostr (unsigned : Nip98UnsignedEvent) : result AuthError UnsignedEvent :=
  pubkey ← map_err BaNip07 (public_key_from_hex (nu_pubkey unsigned));
  if bool_decide (nu_created_at unsigned < 0)%Z then Err (BaNip07 "invalid created_at")
  else
    let created_at := nu_created_at unsigned in
    let kind := (nu_kind unsigned mod 2 ^ 16)%Z in
    tags ← mapM (λ tag, map_err BaNip07 (tag_parse tag)) (nu_tags unsigned);
    Ok (mkUnsignedEvent _ pubkey created_at kind tags (nu_content unsigned)).

Definition nip98_event_from_nostr (event : SignedEvent) : Nip98Event :=
  mkNip98Event (hex_encode (sg_id event)) (public_key_to_hex (sg_pubkey event)) (as_i64 (sg_created_at event))
    (sg_kind event) (tag_to_vec <$> sg_tags event) (sg_content event) (hex_encode (sg_sig event)).

Definition nip07_sign_nip98 (pubkey method url : string) (payload_sha256 : option string) (created_at : Z)
    : stateful B AuthError Nip98Event :=
  _ ← browser_signer;
  let unsigned := nip98_unsigned_event pubkey method url payload_sha256 created_at in
  unsigned ← lift (nip98_unsigned_to_nostr unsigned);
  signed ← map_err_st BaNip07 (signer_sign_event unsigned);
  mret (nip98_event_from_nostr signed).

Definition nip07_available (b : B) : bool := is_ok (browser_signer b).1.
End Nip07.

(** ** [session.rs] *)

Inductive AuthSource := SourceNip07 | SourceLocal.
#[export] Instance AuthSource_eq_dec : EqDecision AuthSource.
Proof. solve_decision. Defined.
Record AuthSession := mkAuthSession { se_pubkey : string; se_npub : string; se_source : AuthSource }.
#[export] Instance AuthSession_eq_dec : EqDecision AuthSession.
Proof. solve_decision. Defined.

Inductive SessionError :=
| SeInvalidPubkey
| SeSerialization (message : string)
| SeInvalidSession (message : string)
| SeMissingWindow
| SeMissingStorage
| SeJs (message : string).
Definition SessionError_display (e : SessionError) : string :=
  match e with
  | SeInvalidPubkey => "invalid pubkey"
  | SeSerialization message => "serialization error: " +:+ message
  | SeInvalidSession message => "invalid session: " +:+ message
  | SeMissingWindow => "missing window"
  | SeMissingStorage => "missing storage"
  | SeJs message => "js error: " +:+ message
  end.

(** [serde_json] on a session. *)
Class SessionCodec := {
  session_from_str : string → result string AuthSession;
  session_to_string : AuthSession → result string string
}.

Definition session_pubkey_bytes `{HexLib} (value : string) : result SessionError bytes :=
  bytes ← ok_or SeInvalidPubkey (hex_decode value);
  if negb (bool_decide (String.length bytes = 32)) then Err SeInvalidPubkey else Ok bytes.

Definition AuthSession_from_pubkey_hex `{HexLib} `{Bech32Encode} `{UnicodeTables} (pubkey : string) (source : AuthSource)
    : result SessionError AuthSession :=
  let normalized := to_lowercase (trim pubkey) in
  bytes ← session_pubkey_bytes normalized;
  npub ← map_err (λ _, SeInvalidPubkey) (npub_from_bytes bytes);
  Ok (mkAuthSession normalized npub source).

Definition AuthSession_from_json `{SessionCodec} (value : string) : result SessionError AuthSession :=
  map_err SeInvalidSession (session_from_str value).
Definition to_json_string `{SessionCodec} (session : AuthSession) : result SessionError string :=
  map_err SeSerialization (session_to_string session).

Definition SESSION_STORAGE_KEY : string := "gittree_auth_session".

Section Session.
Context {B : Type} `{WebWindow B} `{SessionCodec}.

Definition session_storage : stateful B SessionError unit := local_storage_as SeMissingWindow SeMissingStorage SeJs.

Definition load_session : stateful B SessionError (option AuthSession) :=
  _ ← session_storage;
  value ← map_err_st SeJs (get_item SESSION_STORAGE_KEY);
  match value with
  | None => mret None
  | Some value =>
      session ← lift (AuthSession_from_json value);
      mret (Some session)
  end.

Definition store_payload (payload : string) : stateful B SessionError unit :=
  _ ← session_storage;
  map_err_st SeJs (set_item SESSION_STORAGE_KEY payload).
Definition store_session (session : AuthSession) : stateful B SessionError unit :=
  payload ← lift (to_json_string session);
  store_payload payload.

Definition clear_session : stateful B SessionError unit :=
  _ ← session_storage;
  map_err_st SeJs (remove_item SESSION_STORAGE_KEY).
End Session.

(** ** [control_token.rs] *)

Inductive ControlTokenError := CtMissingWindow | CtMissingStorage | CtJs (message : string).
Definition ControlTokenError_display (e : ControlTokenError) : string :=
  match e with
  | CtMissingWindow => "missing window"
  | CtMissingStorage => "missing storage"
  | CtJs message => "js error: " +:+ message
  end.

Definition CONTROL_TOKEN_KEY : string := "gittree_control_token".

Section Token.
Context {B : Type} `{WebWindow B}.

Definition token_storage : stateful B ControlTokenError unit := local_storage_as CtMissingWindow CtMissingStorage CtJs.

Definition load_control_token : stateful B ControlTokenError (option string) :=
  _ ← token_storage;
  value ← map_err_st CtJs (get_item CONTROL_TOKEN_KEY);
  match value with
  | None => mret None
  | Some value =>
      let trimmed := trim value in
      mret (if is_empty trimmed then None else Some trimmed)
  end.

Definition store_control_token (token : string) : stateful B ControlTokenError unit :=
  _ ← token_storage;
  let trimmed := trim token in
  if is_empty trimmed then map_err_st CtJs (remove_item CONTROL_TOKEN_KEY)
  else map_err_st CtJs (set_item CONTROL_TOKEN_KEY trimmed).

Definition clear_control_token : stateful B ControlTokenError unit :=
  _ ← token_storage;
  map_err_st CtJs (remove_item CONTROL_TOKEN_KEY).
End Token.

(** ** The clients: [auth_client.rs], [profile_client.rs], [control_client.rs] *)

Definition endpoint_of (url path : string) : option string :=
  let trimmed := trim url in
  if is_empty trimmed then None else Some (trim_end_matches "/" trimmed +:+ path).
Definition signup_endpoint (auth_url : string) : option string := endpoint_of auth_url "/v1/signup".
Definition profile_endpoint (auth_url : string) : option string := endpoint_of auth_url "/v1/profile".
Definition control_event_endpoint (control_url : string) : option string := endpoint_of control_url "/control/events".
Definition state_profile_endpoint (state_url npub : string) : option string :=
  let trimmed := trim state_url in
  let npub := trim npub in
  if is_empty trimmed || is_empty npub then None
  else Some (trim_end_matches "/" trimmed +:+ "/v1/profiles/" +:+ npub).

Inductive AuthClientError :=
| AlMissingWindow | AlRequest (message : string) | AlInvalidResponse (message : string) | AlSignupFailed (message : string).
Definition AuthClientError_display (e : AuthClientError) : string :=
  match e with
  | AlMissingWindow => "missing window"
  | AlRequest message => "request error: " +:+ message
  | AlInvalidResponse message => "invalid response: " +:+ message
  | AlSignupFailed message => "signup failed: " +:+ message
  end.
Inductive ProfileClientError :=
| PlMissingWindow | PlRequest (message : string) | PlInvalidResponse (message : string) | PlProfileFailed (message : string).
Definition ProfileClientError_display (e : ProfileClientError) : string :=
  match e with
  | PlMissingWindow => "missing window"
  | PlRequest message => "request error: " +:+ message
  | PlInvalidResponse message => "invalid response: " +:+ message
  | PlProfileFailed message => "profile failed: " +:+ message
  end.
Inductive ControlClientError :=
| ClMissingWindow | ClMissingToken | ClMissingEndpoint | ClRequest (message : string) | ClInvalidResponse (message : string)
| ClControlFailed (message : string).
Definition ControlClientError_display (e : ControlClientError) : string :=
  match e with
  | ClMissingWindow => "missing window"
  | ClMissingToken => "missing control token"
  | ClMissingEndpoint => "missing control url"
  | ClRequest message => "request error: " +:+ message
  | ClInvalidResponse message => "invalid response: " +:+ message
  | ClControlFailed message => "control request failed: " +:+ message
  end.

(** [parse_signup_error] and [parse_profile_error] read the same shape. *)
Class BrowserCodec := {
  signup_response_from_str : string → result string SignupResponse;
  error_response_from_str : string → option string;
  profile_from_str : string → option Profile;
  state_profile_from_str : string → result string ProfileViewResponse
}.

Definition is_success (status : Z) : bool := in_range 200 299 status.

Definition parse_error `{BrowserCodec} (body : string) : string :=
  match error_response_from_str body with
  | Some error => error
  | None => if is_blank body then "unknown error" else body
  end.

Definition parse_signup_response `{BrowserCodec} (status : Z) (body : string) : result AuthClientError SignupResponse :=
  if is_success status then map_err AlInvalidResponse (signup_response_from_str body)
  else Err (AlSignupFailed (parse_error body)).

Definition parse_visibility (value : string) : result ProfileClientError ApiProfileVisibility :=
  if value == "public" then Ok ApiPublic
  else if value == "private" then Ok ApiPrivate
  else Err (PlInvalidResponse ("invalid profile visibility: " +:+ value)).

(** [None] is the panic of a slice inside a character. *)
Definition username_from_pubkey (pubkey : string) : option string :=
  if String.length pubkey <? 24 then Some ("gt_" +:+ pubkey)
  else
    prefix ← slice_to 12 pubkey;
    suffix ← slice_from (String.length pubkey - 12) pubkey;
    Some ("gt_" +:+ prefix +:+ suffix).

Definition state_profile_to_profile `{Bech32Lib} `{HexLib} (state : ProfileViewResponse)
    : result (fault ProfileClientError) Profile :=
  let npub := trim (pv_npub state) in
  pubkey_bytes ← map_err (λ err, Raised (PlInvalidResponse ("invalid npub in state profile: " +:+ AppCoreError_display err)))
                   (pubkey_bytes_from_npub npub);
  let pubkey := hex_encode pubkey_bytes in
  visibility ← map_err Raised (parse_visibility (pv_visibility state));
  username ← ok_or Panicked (username_from_pubkey pubkey);
  Ok (mkProfile pubkey username (pv_display_name state) (pv_bio state) (pv_avatar_url state) (pv_website_url state)
        (pv_location state) visibility (pv_updated_at state) (pv_updated_at state)).

Definition parse_profile_success `{BrowserCodec} `{Bech32Lib} `{HexLib} (body : string)
    : result (fault ProfileClientError) Profile :=
  match profile_from_str body with
  | Some profile => Ok profile
  | None =>
      state ← map_err (λ err, Raised (PlInvalidResponse err)) (state_profile_from_str body);
      state_profile_to_profile state
  end.

Definition parse_profile_response `{BrowserCodec} `{Bech32Lib} `{HexLib} (status : Z) (body : string)
    : result (fault ProfileClientError) Profile :=
  if is_success status then parse_profile_success body else Err (Raised (PlProfileFailed (parse_error body))).

(** [ControlRepoInput], [ControlRepoResponse] and the actions of [control_client.rs]. *)
Record ControlRepoInput := mkControlRepoInput {
  ri_name : string; ri_owner : option string; ri_identifier : option string; ri_description : option string;
  ri_private : option bool; ri_pubkey : string; ri_privkey : string
}.
Record CreatedRepo := mkCreatedRepo { rc_owner : string; rc_name : string; rc_html_url : option string }.
Class ControlEventCodec := { control_event_response_from_str : string → result string CreatedRepo }.

Definition parse_control_response `{ControlEventCodec} (status : Z) (body : string) : result ControlClientError CreatedRepo :=
  if is_success status then map_err ClInvalidResponse (control_event_response_from_str body)
  else if is_blank body then Err (ClControlFailed ("status " +:+ pretty status))
  else Err (ClControlFailed body).

(** Members that are [None] are left out. *)
Definition member (key : string) (value : option json) : list (string * json) :=
  match value with Some value => [(key, value)] | None => [] end.
Definition create_repo_action (input : ControlRepoInput) : json :=
  JObject ([("action", JString "create_repo"); ("name", JString (ri_name input))]
    ++ member "owner" (JString <$> ri_owner input) ++ member "identifier" (JString <$> ri_identifier input)
    ++ member "description" (JString <$> ri_description input) ++ member "private" (JBool <$> ri_private input)
    ++ [("pubkey", JString (ri_pubkey input)); ("privkey", JString (ri_privkey input))]).
Definition CONTROL_EVENT_KIND : Z := 29000.
Definition control_event_request (pubkey content : string) : json :=
  JObject [("kind", json_int CONTROL_EVENT_KIND); ("pubkey", JString pubkey); ("content", JString content)].

Section Clients.
Context {B N : Type} `{WebWindow B} `{WebFetch N}.
Context `{Nip98Encode} `{Base64Lib} `{BrowserCodec} `{JsonLib}.

Abbreviation page := (stateful (B * N)).
Definition in_browser {E A} (c : stateful B E A) : page E A := λ s, let '(r, b) := c s.1 in (r, (b, s.2)).
Definition on_network {E A} (c : stateful N E A) : page E A := λ s, let '(r, n) := c s.2 in (r, (s.1, n)).

(** Building a request, the window and the response, of each client. *)
Definition send_as {E} (missing_window : E) (request_error : string → E) (q : FetchRequest) : page E (Z * string) :=
  _ ← lift (map_err request_error (new_request q));
  _ ← in_browser (in_window missing_window (mret tt));
  on_network (map_err_st request_error (fetch q)).

Definition signup (auth_endpoint : string) (event : Nip98Event) : page AuthClientError SignupResponse :=
  header ← lift (map_err (λ err, AlRequest (AuthError_display err)) (auth_header event));
  response ← send_as AlMissingWindow AlRequest
    (mkFetchRequest "POST" auth_endpoint [("Authorization", header); ("Accept", "application/json")] None);
  lift (parse_signup_response response.1 response.2).

Context `{Bech32Lib} `{HexLib}.

Definition raised {E A} (c : page E A) : page (fault E) A := map_err_st Raised c.

Definition fetch_public_profile (auth_endpoint : string) : page (fault ProfileClientError) Profile :=
  response ← raised (send_as PlMissingWindow PlRequest
    (mkFetchRequest "GET" auth_endpoint [("Accept", "application/json")] None));
  lift (parse_profile_response response.1 response.2).

Definition update_profile (auth_endpoint : string) (event : Nip98Event) (body : bytes)
    : page (fault ProfileClientError) Profile :=
  header ← lift (map_err (λ err, Raised (PlRequest (AuthError_display err))) (auth_header event));
  response ← raised (send_as PlMissingWindow PlRequest
    (mkFetchRequest "PATCH" auth_endpoint
       [("Authorization", header); ("Accept", "application/json"); ("Content-Type", "application/json")] (Some body)));
  lift (parse_profile_response response.1 response.2).

Definition create_repo `{ControlEventCodec} (control_url token : string) (input : ControlRepoInput)
    : page ControlClientError CreatedRepo :=
  endpoint ← lift (ok_or ClMissingEndpoint (control_event_endpoint control_url));
  let token := trim token in
  _ ← lift (fail_if (is_empty token) ClMissingToken);
  let content := json_to_string (create_repo_action input) in
  let body := json_to_string (control_event_request (ri_pubkey input) content) in
  response ← send_as ClMissingWindow ClRequest
    (mkFetchRequest "POST" endpoint
       [("Authorization", "Bearer " +:+ token); ("Accept", "application/json"); ("Content-Type", "application/json")]
       (Some body));
  lift (parse_control_response response.1 response.2).
End Clients.

(** ** The form and the service *)

Section FormFacts.
Context `{HexLaws}.

(** The field an error is about, by the name the service gives it. *)
Definition field_of (e : ProfileValidationError) : string :=
  match e with
  | DisplayNameTooLong => "display_name"
  | BioTooLong => "bio"
  | AvatarUrlTooLong | AvatarUrlInvalid => "avatar_url"
  | WebsiteUrlTooLong | WebsiteUrlInvalid => "website_url"
  | LocationTooLong => "location"
  end.

(** One field, checked by the page with the errors [errors] and by the service. *)
Definition same_check {A} (field : string) (errors : list ProfileValidationError) (r : result StorageError A) (a : A) : Prop :=
  match errors with
  | [] => r = Ok a
  | e :: _ => field_of e = field ∧ ∃ value, r = Err (StInvalidField field value)
  end.

Lemma same_text field value max_len e :
  field_of e = field →
  same_check field (match normalized value with Some value => if max_len <? String.length value then [e] else [] | None => [] end)
    (normalize_optional field value max_len) (normalized value).
Proof.
  intros He. unfold normalize_optional, normalized. destruct value as [value|]; [|done]. simpl.
  destruct (is_empty (trim value)); [done|]. destruct (_ <? _); simpl; eauto.
Qed.

Lemma same_url field value max_len long invalid :
  field_of long = field → field_of invalid = field →
  same_check field
    (match normalized value with
     | Some value => (if max_len <? String.length value then [long] else []) ++ (if negb (form_is_http_url value) then [invalid] else [])
     | None => []
     end)
    (normalize_optional_url field value max_len) (normalized value).
Proof.
  intros Hl Hi. unfold normalize_optional_url, normalize_optional, normalized, form_is_http_url.
  destruct value as [value|]; [|done]. simpl. destruct (is_empty (trim value)); [done|]. cbn [mbind option_bind].
  destruct (_ <? _); simpl; [eauto|]. rewrite trim_trim.
  destruct (starts_with "http://" _ || starts_with "https://" _); simpl; eauto.
Qed.

(** What a check of the service lets through passes again. *)
Lemma normalize_optional_again field value max_len r :
  normalize_optional field value max_len = Ok r → normalize_optional field r max_len = Ok r.
Proof.
  unfold normalize_optional. destruct value as [value|]; simpl; [|by intros [= <-]].
  destruct (is_empty (trim value)) eqn:He; [by intros [= <-]|]. destruct (_ <? _) eqn:Hl; [done|].
  intros [= <-]. simpl. by rewrite trim_trim, He, Hl.
Qed.

Lemma normalize_optional_url_again field value max_len r :
  normalize_optional_url field value max_len = Ok r → normalize_optional_url field r max_len = Ok r.
Proof.
  unfold normalize_optional_url. intros (v & Hv%normalize_optional_again & E)%bind_Ok.
  pose proof E as (_ & [= <-])%bind_Ok_unit. by rewrite Hv.
Qed.

(** A field that an update gives, or else the stored one. *)
Definition field_after (given stored : option string) : option string :=
  match given with Some _ => normalized given | None => stored end.

Lemma text_agrees field value stored source max_len e :
  field_of e = field → normalize_optional field source max_len = Ok stored →
  same_check field (match normalized value with Some value => if max_len <? String.length value then [e] else [] | None => [] end)
    (normalize_optional field (option_or value stored) max_len) (field_after value stored).
Proof.
  intros He Hs. destruct value as [value|]; [by apply (same_text field (Some value))|].
  simpl. by eapply normalize_optional_again.
Qed.

Lemma url_agrees field value stored source max_len long invalid :
  field_of long = field → field_of invalid = field → normalize_optional_url field source max_len = Ok stored →
  same_check field
    (match normalized value with
     | Some value => (if max_len <? String.length value then [long] else []) ++ (if negb (form_is_http_url value) then [invalid] else [])
     | None => []
     end)
    (normalize_optional_url field (option_or value stored) max_len) (field_after value stored).
Proof.
  intros Hl Hi Hs. destruct value as [value|]; [by apply (same_url field (Some value))|].
  simpl. by eapply normalize_optional_url_again.
Qed.

(** A profile that the service made. *)
Definition made_by_service (p : ProfileRecord) : Prop :=
  ∃ pubkey display_name bio avatar_url website_url location visibility created_at updated_at,
    ProfileRecord_new pubkey display_name bio avatar_url website_url location visibility created_at updated_at = Ok p.

(** C28: the page and the service check a profile alike: for every update, and every stored
    profile that the service made, the page finds no error in the update exactly when the
    service accepts it, which then stores every given field trimmed, and a blank one as absent,
    and keeps the others; and when the page finds errors, the service refuses, and for
    the field of the first one.  The exception is a stored profile whose creation lies after
    the clock of the service: then the service refuses every update, whatever the page finds. *)
Theorem validate_profile_agrees pubkey pk p u now :
  decode_hex_32 "pubkey" pubkey = Ok pk → made_by_service p →
  if decide (now < pf_created_at p)%Z
  then apply_profile_update pubkey p u now = Err (StInvalidField "updated_at" (pretty now))
  else match validate_profile_update u with
  | [] => apply_profile_update pubkey p u now = Ok (mkProfileRecord pk
      (field_after (pu_display_name u) (pf_display_name p)) (field_after (pu_bio u) (pf_bio p))
      (field_after (pu_avatar_url u) (pf_avatar_url p)) (field_after (pu_website_url u) (pf_website_url p))
      (field_after (pu_location u) (pf_location p)) (default (pf_visibility p) (storage_visibility_from_api <$> pu_visibility u))
      (pf_created_at p) now)
  | e :: _ => ∃ value, apply_profile_update pubkey p u now = Err (StInvalidField (field_of e) value)
  end.
Proof.
  intros Hpk (key & dn & bio & av & web & loc & vis & created & at_ & Hp).
  unfold apply_profile_update, ProfileRecord_new at 1.
  case_decide as Hnow; [by rewrite bool_decide_eq_true_2 by lia|]. unfold ProfileRecord_new.
  rewrite bool_decide_eq_false_2 by lia. rewrite Hpk. cbn [fail_if mbind result_bind].
  unfold ProfileRecord_new in Hp. apply bind_Ok_unit in Hp as [_ Hp]. apply bind_Ok in Hp as (? & _ & Hp).
  apply bind_Ok in Hp as (dn' & H1 & Hp). apply bind_Ok in Hp as (bio' & H2 & Hp). apply bind_Ok in Hp as (av' & H3 & Hp).
  apply bind_Ok in Hp as (web' & H4 & Hp). apply bind_Ok in Hp as (loc' & H5 & [= <-]).
  cbn [pf_display_name pf_bio pf_avatar_url pf_website_url pf_location pf_visibility pf_created_at].
  apply (text_agrees "display_name" (pu_display_name u) _ _ _ DisplayNameTooLong eq_refl) in H1.
  apply (text_agrees "bio" (pu_bio u) _ _ _ BioTooLong eq_refl) in H2.
  apply (url_agrees "avatar_url" (pu_avatar_url u) _ _ _ AvatarUrlTooLong AvatarUrlInvalid eq_refl eq_refl) in H3.
  apply (url_agrees "website_url" (pu_website_url u) _ _ _ WebsiteUrlTooLong WebsiteUrlInvalid eq_refl eq_refl) in H4.
  apply (text_agrees "location" (pu_location u) _ _ _ LocationTooLong eq_refl) in H5.
  unfold validate_profile_update.
  change FORM_DISPLAY_NAME with MAX_DISPLAY_NAME. change FORM_BIO with MAX_BIO. change FORM_AVATAR_URL with MAX_AVATAR_URL.
  change FORM_WEBSITE_URL with MAX_WEBSITE_URL. change FORM_LOCATION with MAX_LOCATION.
  unfold same_check in *. repeat match goal with H : match ?l with [] => _ | _ => _ end |- _ =>
    destruct l as [|e es]; [rewrite H; clear H; cbn [mbind result_bind app]|
      destruct H as [<- [value ->]]; cbn [app mbind result_bind]; by exists value] end.
  reflexivity.
Qed.
End FormFacts.

(** ** Names *)

(** The page shows the name that the service gives a key. *)
Lemma page_username_agrees pubkey :
  is_hex_len pubkey 64 = true → username_from_pubkey pubkey = username_from_valid_pubkey pubkey.
Proof.
  intros Hk. pose proof Hk as [Hlen%bool_decide_eq_true_1 _]%andb_true_iff.
  unfold username_from_pubkey, username_from_valid_pubkey. rewrite Hlen. by destruct (slice_to 12 pubkey).
Qed.

(** A profile of the state service is read without a panic. *)
Lemma state_profile_no_panic `{Bech32Lib} `{HexLaws} state : state_profile_to_profile state ≠ Err Panicked.
Proof.
  unfold state_profile_to_profile, mbind, result_bind, pubkey_bytes_from_npub.
  destruct (bech32_decode (trim (pv_npub state))) as [[hrp data]|]; cbn; [|done].
  destruct (negb (hrp == "npub") || _) eqn:E; [done|]. apply orb_false_iff in E as [_ Hlen%negb_false_iff%bool_decide_eq_true_1].
  cbn. destruct (parse_visibility (pv_visibility state)); [|done]. cbn.
  assert (is_hex_len (hex_encode data) 64 = true) as Hk.
  { unfold is_hex_len. by rewrite hex_encode_length, hex_encode_digits, Hlen. }
  rewrite page_username_agrees by done. by destruct (username_total _ Hk) as [u ->].
Qed.

(** ** The key of the browser *)

Section KeyFacts.
Context {B : Type} `{WebWindowLaws B} `{HexLaws}.
Abbreviation storage := (gmap string string).

(** The secret key that a storage keeps. *)
Definition key_of (v : storage) : option bytes := value ← v !! LOCAL_SECRET_KEY; ok (parse_secret_hex value).

Lemma parse_secret_encoded secret : String.length secret = 32 → parse_secret_hex (hex_encode secret) = Ok secret.
Proof. intros Hl. unfold parse_secret_hex. rewrite hex_decode_encode. simpl. by rewrite bool_decide_eq_true_2. Qed.

Lemma in_window_answers {E A} (e : E) (c : stateful B E A) Q :
  answers storage_holds c Q → answers storage_holds (in_window e c) Q.
Proof. intros Hc s v r s' Hs. unfold in_window. destruct (window s); [by apply Hc|]. by intros [= <- <-]. Qed.

Lemma answers_map_err_st {S V E F A} (holds : S → V → Prop) (f : E → F) (c : stateful S E A) Q :
  answers holds c Q → answers holds (map_err_st f c) Q.
Proof.
  intros Hc s v r s' Hs. unfold map_err_st. destruct (c s) as [r0 s0] eqn:E0. intros [= <- <-].
  destruct (Hc _ _ _ _ Hs E0) as [? HQ]. split; [done|]. intros a. destruct r0; [|done]. intros [= <-]. by apply HQ.
Qed.

Lemma local_storage_answers {E} (e e' : E) js : answers storage_holds (local_storage_as e e' js) (λ _ _, True).
Proof.
  apply in_window_answers. intros s v r s' Hs. unfold mbind, stateful_bind, map_err_st.
  destruct (window_local_storage s) as [r0 s0] eqn:E0. destruct (window_local_storage_law _ _ _ _ Hs E0) as [Hs0 _].
  destruct r0; simpl; intros [= <- <-]; done.
Qed.

Lemma generate_answers : answers storage_holds (generate_secret_key (B:=B)) (λ _ secret, String.length secret = 32).
Proof.
  apply in_window_answers. intros s v r s' Hs. unfold mbind, stateful_bind.
  destruct (map_err_st _ window_crypto s) as [[[]|] s0] eqn:E0;
    destruct (answers_map_err_st _ _ _ _ window_crypto_law _ _ _ _ Hs E0) as [Hs0 _]; simpl; [|by intros [= <- <-]].
  by apply (answers_map_err_st _ _ _ _ get_random_values_law).
Qed.

(** A key that is stored is not replaced, and a key that is used is stored. *)
Lemma local_secret_key_spec b v r b' :
  storage_holds b v → local_secret_key b = (r, b') →
  ∃ v', storage_holds b' v' ∧ (∀ k x, v !! k = Some x → v' !! k = Some x) ∧ ∀ secret, r = Ok secret → key_of v' = Some secret.
Proof.
  intros Hb. unfold local_secret_key, local_storage, mbind, stateful_bind.
  destruct (local_storage_as _ _ _ b) as [[[]|] b0] eqn:E0;
    destruct (local_storage_answers _ _ _ _ _ _ _ Hb E0) as [Hb0 _]; simpl; [|intros [= <- <-]; by exists v].
  destruct (map_err_st _ (get_item _) b0) as [[o|] b1] eqn:E1;
    destruct (answers_map_err_st _ _ _ _ (get_item_law _) _ _ _ _ Hb0 E1) as [Hb1 Ho]; simpl; [|intros [= <- <-]; by exists v].
  specialize (Ho o eq_refl). destruct o as [value|]; simpl.
  { intros [= <- <-]. exists v. split_and!; [done..|]. intros secret Hs. unfold key_of. rewrite <-Ho. simpl. by rewrite Hs. }
  destruct (generate_secret_key b1) as [[secret|] b2] eqn:E2;
    destruct (generate_answers _ _ _ _ Hb1 E2) as [Hb2 Hlen]; simpl; [|intros [= <- <-]; by exists v].
  unfold map_err_st. destruct (set_item _ _ b2) as [r3 b3] eqn:E3. pose proof (set_item_law _ _ _ _ _ _ Hb2 E3) as Hset. simpl in Hset.
  assert (∀ k x, v !! k = Some x → <[LOCAL_SECRET_KEY := hex_encode secret]> v !! k = Some x) as Hkeep.
  { intros k x Hk. rewrite lookup_insert_ne; [done|]. intros <-. congruence. }
  destruct r3 as [[]|e]; simpl; intros [= <- <-].
  - destruct Hset as [_ Hb3]. eexists. split; [exact Hb3|]. split; [done|]. intros x [= <-]. unfold key_of.
    rewrite lookup_insert_eq. simpl. by rewrite parse_secret_encoded by by apply Hlen.
  - destruct Hset as [Hb3|Hb3]; eexists; split_and!; eauto; done.
Qed.
End KeyFacts.

(** ** A form with two errors *)

Module FormSample.
#[local] Existing Instances hex_model hex_model_laws.
Definition profile : ProfileRecord := mkProfileRecord sample_secret (Some "Ada") None None None None VisPrivate 10 20.
(** A website without a scheme and a location of 130 bytes, and the two mended. *)
Definition long : string := str_concat (replicate 13 "0123456789").
Definition bad : ProfileUpdate := mkProfileUpdate None (Some "  ") None (Some " ada.example ") (Some long) (Some ApiPublic).
Definition good : ProfileUpdate := mkProfileUpdate None (Some "  ") None (Some " HTTPS://ada.example ") (Some "London") (Some ApiPublic).

Lemma made : made_by_service profile.
Proof.
  exists (hex_encode sample_secret), (Some " Ada "), None, None, None, None, VisPrivate, 10%Z, 20%Z. by vm_compute.
Qed.

Lemma validate_profile_agrees_witness :
  validate_profile_update bad = [WebsiteUrlInvalid; LocationTooLong] ∧
  (∃ value, apply_profile_update (hex_encode sample_secret) profile bad 30 = Err (StInvalidField "website_url" value)) ∧
  apply_profile_update (hex_encode sample_secret) profile good 30 = Ok (mkProfileRecord sample_secret (Some "Ada") None None
    (Some "HTTPS://ada.example") (Some "London") VisPublic 10 30).
Proof.
  assert (validate_profile_update bad = [WebsiteUrlInvalid; LocationTooLong]) as Hbad by (vm_compute; reflexivity).
  assert (decode_hex_32 "pubkey" (hex_encode sample_secret) = Ok sample_secret) as Hpk by (vm_compute; reflexivity).
  split; [exact Hbad|]. split.
  - pose proof (validate_profile_agrees (hex_encode sample_secret) sample_secret profile bad 30 Hpk made) as Hb.
    cbn [profile pf_created_at] in Hb. rewrite decide_False in Hb by lia. rewrite Hbad in Hb. exact Hb.
  - pose proof (validate_profile_agrees (hex_encode sample_secret) sample_secret profile good 30 Hpk made) as Hg.
    cbn [profile pf_created_at] in Hg. rewrite decide_False in Hg by lia.
    assert (validate_profile_update good = []) as E by (vm_compute; reflexivity). rewrite E in Hg.
    rewrite Hg. vm_compute. reflexivity.
Defined.
End FormSample.
