(* ===== verification/BrowserPages.v ===== *)
(** * [BrowserPages]: the actions of the web application's pages

    Models [crates/app-ui/src/app.rs] without its markup: the addresses it resolves, the links
    and endpoints it builds, and, for each button of a page, what a press does from the start of
    its task to its end, on the signals of the page, on the browser and on the network.  A text
    of the interface is a parameter [t] of its key.  The file ends with the composition: the
    pages against the service of [AuthService.v]. *)

From S2P Require Import Prelude RustStr CoreTypes Externals HexModel Nip34Common Grasp Membership NostrAuth Database HttpAuth.
From S2P Require Import Dispatch Config Repositories PostgresRepos Directory Forgejo StateService AuthService WebApp Browser.

(** ** Addresses and links *)

(** [or_else] of the places an address may be given at, in order. *)
Definition first_given (places : list (option string)) : option string := foldr option_or None places.

(** A browser has no context of the server: what the attributes of [#gittree-app], the [meta]
    elements and the location say. *)
Record Document := mkDocument {
  dom_attribute : string → option string; meta_content : string → option string; location_origin : option string
}.

Definition page_base_path (base_path : string) : string :=
  let trimmed := trim base_path in
  if is_empty trimmed || (trimmed == "/") then "/"
  else
    let trimmed := trim_end_matches "/" trimmed in
    if starts_with "/" trimmed then trimmed else "/" +:+ trimmed.

Definition resolve_base_path (d : Document) : string :=
  page_base_path (default "/" (first_given [dom_attribute d "data-base-path"])).
Definition resolve_auth_url (d : Document) : string :=
  default "" (first_given [dom_attribute d "data-auth-url"; meta_content d "gittree-auth-url"]).
Definition resolve_app_url (d : Document) : string :=
  default "" (first_given [dom_attribute d "data-app-url"; meta_content d "gittree-app-url"; location_origin d]).
Definition resolve_state_url (d : Document) : string :=
  default "" (first_given [dom_attribute d "data-state-url"; meta_content d "gittree-state-url"]).
Definition resolve_control_url (d : Document) : string :=
  default "" (first_given [dom_attribute d "data-control-url"; meta_content d "gittree-control-url"]).

Definition auth_url_configured (auth_url : string) : bool := negb (is_blank auth_url).
Definition state_url_configured (state_url : string) : bool := negb (is_blank state_url).

Definition base_href (base_path : string) : string :=
  if base_path == "/" then "/" else trim_end_matches "/" base_path.
Definition repo_href (base_path npub identifier : string) : string :=
  let base := trim_end_matches "/" base_path in
  if is_empty base then "/" +:+ npub +:+ "/" +:+ identifier else base +:+ "/" +:+ npub +:+ "/" +:+ identifier.
(** [signup_href], [profile_href], [account_href], [public_profile_href] and [test_href]. *)
Definition href_to (base_path path : string) : string :=
  let base := trim_end_matches "/" base_path in
  if is_empty base || (base == "/") then path else base +:+ path.
Definition signup_href (base_path : string) : string := href_to base_path "/signup".
Definition profile_href (base_path : string) : string := href_to base_path "/profile".
Definition account_href (base_path : string) : string := href_to base_path "/account".
Definition public_profile_href (base_path npub : string) : string := href_to base_path ("/u/" +:+ npub).
Definition test_href (base_path : string) : string := href_to base_path "/test".

Definition repo_list_endpoint (app_url : string) : string := default "/api/repos" (endpoint_of app_url "/api/repos").
Definition repo_list_by_owner_endpoint (app_url npub : string) : string :=
  default ("/api/users/" +:+ npub +:+ "/repos") (endpoint_of app_url ("/api/users/" +:+ npub +:+ "/repos")).
Definition health_endpoint (base_url : string) : string := default "" (endpoint_of base_url "/health").

Definition auth_source_label (source : AuthSource) : string :=
  match source with SourceNip07 => "nip-07" | SourceLocal => "local" end.

(** ** Signing in *)

Definition persist_session {B} `{WebWindow B} `{SessionCodec} `{HexLib} `{Bech32Encode} `{UnicodeTables}
    (pubkey : string) (source : AuthSource) : stateful B string AuthSession :=
  session ← lift (map_err SessionError_display (AuthSession_from_pubkey_hex pubkey source));
  _ ← map_err_st SessionError_display (store_session session);
  mret session.

(** The signals of [SignupPage]; those of [TestConsolePage] that sign-up sets have the session
    as well. *)
Record SignupSignals := mkSignupSignals {
  su_status : option SignupResponse; su_error : option string; su_busy : bool; su_session : option AuthSession
}.

Section Pages.
Context {B N : Type} `{WebWindow B} `{WebFetch N} `{NostrTypes} `{!BrowserSigner B}.
Context `{Nip98Encode} `{Base64Lib} `{BrowserCodec} `{JsonLib} `{HexLib} `{Bech32Encode} `{Bech32Lib} `{UnicodeTables}.
Context `{SessionCodec} `{CryptoLib} `{K256Lib} (t : string → string).

Abbreviation page := (stateful (B * N)).

Definition sign_nip07 (method url : string) (now : Z) : stateful B AuthError Nip98Event :=
  pubkey ← nip07_pubkey;
  nip07_sign_nip98 pubkey method url None now.

(** The task of both buttons of [SignupPage]: [keep] says whether the page has a signal for
    the session. *)
Definition signup_task (keep : bool) (source : AuthSource) (sign : stateful B AuthError Nip98Event) (auth_endpoint : string)
    (sig : SignupSignals) (s : B * N) : SignupSignals * (B * N) :=
  let done status error session := mkSignupSignals status error false session in
  match in_browser sign s with
  | (Err err, s) => (done None (Some (AuthError_display err)) (su_session sig), s)
  | (Ok event, s) =>
      match signup auth_endpoint event s with
      | (Err err, s) => (done None (Some (AuthClientError_display err)) (su_session sig), s)
      | (Ok response, s) =>
          match in_browser (persist_session (sr_pubkey response) source) s with
          | (Err message, s) => (done (Some response) (Some message) (su_session sig), s)
          | (Ok session, s) => (done (Some response) None (if keep then Some session else su_session sig), s)
          end
      end
  end.

Definition signup_with (keep : bool) (source : AuthSource) (sign : stateful B AuthError Nip98Event) (auth_endpoint : string)
    (sig : SignupSignals) (s : B * N) : SignupSignals * (B * N) :=
  if is_empty auth_endpoint
  then (mkSignupSignals (su_status sig) (Some (t "app.signup.missing_auth")) (su_busy sig) (su_session sig), s)
  else signup_task keep source sign auth_endpoint sig s.

Definition signup_nip07 (keep : bool) (auth_url : string) (now : Z) : SignupSignals → B * N → SignupSignals * (B * N) :=
  let auth_endpoint := default "" (signup_endpoint auth_url) in
  signup_with keep SourceNip07 (sign_nip07 "POST" auth_endpoint now) auth_endpoint.
Definition signup_local (keep : bool) (auth_url : string) (now : Z) : SignupSignals → B * N → SignupSignals * (B * N) :=
  let auth_endpoint := default "" (signup_endpoint auth_url) in
  signup_with keep SourceLocal (local_key_event "POST" auth_endpoint None now) auth_endpoint.

Definition session_sign_nip98 (session : AuthSession) (method url : string) (payload_sha256 : option string) (now : Z)
    : stateful B AuthError Nip98Event :=
  match se_source session with
  | SourceNip07 =>
      pubkey ← nip07_pubkey;
      if negb (pubkey == se_pubkey session) then lift (Err (BaJs "nip-07 pubkey mismatch"))
      else nip07_sign_nip98 pubkey method url payload_sha256 now
  | SourceLocal => local_key_event method url payload_sha256 now
  end.

(** ** [AccountPage] *)

Record AccountSignals := mkAccountSignals { as_session : option AuthSession; as_error : option string }.

Definition account_refresh (sig : AccountSignals) (b : B) : AccountSignals * B :=
  match load_session b with
  | (Ok value, b) => (mkAccountSignals value (as_error sig), b)
  | (Err err, b) => (mkAccountSignals (as_session sig) (Some (SessionError_display err)), b)
  end.
(** The page when it opens. *)
Definition account_open : B → AccountSignals * B := account_refresh (mkAccountSignals None None).
Definition account_clear (sig : AccountSignals) (b : B) : AccountSignals * B :=
  match clear_session b with
  | (Ok _, b) => (mkAccountSignals None (as_error sig), b)
  | (Err err, b) => (mkAccountSignals (as_session sig) (Some (SessionError_display err)), b)
  end.
(** The same button of [TestConsolePage] forgets the session in any case. *)
Definition console_clear (sig : AccountSignals) (b : B) : AccountSignals * B :=
  match clear_session b with
  | (Ok _, b) => (mkAccountSignals None (as_error sig), b)
  | (Err err, b) => (mkAccountSignals None (Some (SessionError_display err)), b)
  end.

(** ** [ProfilePage] *)

(** The fields of the form. *)
Record ProfileForm := mkProfileForm {
  fm_display_name : string; fm_bio : string; fm_avatar_url : string; fm_website_url : string; fm_location : string;
  fm_public : bool
}.
Record ProfileSignals := mkProfileSignals {
  pg_session : option AuthSession; pg_profile : option Profile; pg_status : option string; pg_error : option string;
  pg_busy : bool; pg_fetch_attempted : bool; pg_form : ProfileForm
}.

Definition form_of (profile : Profile) : ProfileForm :=
  mkProfileForm (default "" (pr_display_name profile)) (default "" (pr_bio profile)) (default "" (pr_avatar_url profile))
    (default "" (pr_website_url profile)) (default "" (pr_location profile))
    (match pr_visibility profile with ApiPublic => true | ApiPrivate => false end).
Definition update_of (form : ProfileForm) : ProfileUpdate :=
  mkProfileUpdate (Some (fm_display_name form)) (Some (fm_bio form)) (Some (fm_avatar_url form)) (Some (fm_website_url form))
    (Some (fm_location form)) (Some (if fm_public form then ApiPublic else ApiPrivate)).
Definition validation_errors (sig : ProfileSignals) : list ProfileValidationError :=
  validate_profile_update (update_of (pg_form sig)).

(** What is shown while a task runs, and when it has ended; a profile that is set fills the
    form. *)
Definition running (sig : ProfileSignals) (status : string) (attempted : bool) : ProfileSignals :=
  mkProfileSignals (pg_session sig) (pg_profile sig) (Some status) None true attempted (pg_form sig).
Definition failed (sig : ProfileSignals) (message : string) : ProfileSignals :=
  mkProfileSignals (pg_session sig) (pg_profile sig) (pg_status sig) (Some message) false (pg_fetch_attempted sig) (pg_form sig).
Definition loaded (sig : ProfileSignals) (profile : Profile) (status : string) : ProfileSignals :=
  mkProfileSignals (pg_session sig) (Some profile) (Some status) (pg_error sig) false (pg_fetch_attempted sig) (form_of profile).
Definition refused (sig : ProfileSignals) (message : string) : ProfileSignals :=
  mkProfileSignals (pg_session sig) (pg_profile sig) (pg_status sig) (Some message) (pg_busy sig) (pg_fetch_attempted sig)
    (pg_form sig).
(** The end of a task; one that panics ends with the page still busy. *)
Definition ended (sig : ProfileSignals) (status : string) (r : result (fault ProfileClientError) Profile) : ProfileSignals :=
  match r with
  | Ok profile => loaded sig profile status
  | Err (Raised err) => failed sig (ProfileClientError_display err)
  | Err Panicked => sig
  end.

Definition empty_form : ProfileForm := mkProfileForm "" "" "" "" "" false.
Definition profile_open (b : B) : ProfileSignals * B :=
  match load_session b with
  | (Ok value, b) => (mkProfileSignals value None None None false false empty_form, b)
  | (Err err, b) => (mkProfileSignals None None None (Some (SessionError_display err)) false false empty_form, b)
  end.

Definition fetch_profile_action (state_url : string) (sig : ProfileSignals) (s : B * N) : ProfileSignals * (B * N) :=
  match pg_session sig with
  | None => (sig, s)
  | Some session =>
      match state_profile_endpoint state_url (se_npub session) with
      | None => (refused sig "missing profile endpoint", s)
      | Some state_endpoint =>
          let sig := running sig (t "app.profile.loading") true in
          let '(r, s) := fetch_public_profile state_endpoint s in
          (ended sig (t "app.profile.loaded") r, s)
      end
  end.

(** The effect that loads the profile once. *)
Definition fetch_profile_on_mount (state_url : string) (sig : ProfileSignals) (s : B * N) : ProfileSignals * (B * N) :=
  if negb (pg_fetch_attempted sig) && is_none (pg_profile sig) && is_some (pg_session sig)
     && state_url_configured state_url && negb (pg_busy sig)
  then fetch_profile_action state_url sig s else (sig, s).

(** What the derived serialiser of [ProfileUpdate] writes. *)
Definition profile_update_json (update : ProfileUpdate) : json :=
  let text o := from_option JString JNull o in
  JObject [("display_name", text (pu_display_name update)); ("bio", text (pu_bio update));
    ("avatar_url", text (pu_avatar_url update)); ("website_url", text (pu_website_url update));
    ("location", text (pu_location update));
    ("visibility", text ((λ v, match v with ApiPrivate => "private" | ApiPublic => "public" end) <$> pu_visibility update))].

Definition save_profile_action (auth_url : string) (now : Z) (sig : ProfileSignals) (s : B * N) : ProfileSignals * (B * N) :=
  let auth_endpoint := default "" (profile_endpoint auth_url) in
  if is_empty auth_endpoint then (refused sig (t "app.profile.missing_auth"), s)
  else
    match pg_session sig with
    | None => (refused sig (t "app.profile.missing_session"), s)
    | Some session =>
        let update := update_of (pg_form sig) in
        if negb (is_nil (validate_profile_update update))
        then (mkProfileSignals (pg_session sig) (pg_profile sig) None None (pg_busy sig) (pg_fetch_attempted sig) (pg_form sig), s)
        else
          let sig := running sig (t "app.profile.saving") (pg_fetch_attempted sig) in
          let body := json_to_string (profile_update_json update) in
          match nip98_payload_hash body with
          | None => (failed sig "missing payload hash", s)
          | Some payload_hash =>
              match in_browser (session_sign_nip98 session "PATCH" auth_endpoint (Some payload_hash) now) s with
              | (Err err, s) => (failed sig (AuthError_display err), s)
              | (Ok event, s) =>
                  let '(r, s) := update_profile auth_endpoint event body s in
                  (ended sig (t "app.profile.updated") r, s)
              end
          end
    end.

(** ** [PublicProfilePage] and [TestConsolePage] *)

(** [serde_json::from_str::<RepoListResponse>], whose error has a text. *)
Context (repo_list_from_str : string → result string (list RepoListItem)).

Definition request (method url : string) : FetchRequest := mkFetchRequest method url [] None.

Definition fetch_repo_list (endpoint : string) : page string (list RepoListItem) :=
  response ← send_as "missing window" id (request "GET" endpoint);
  lift (if is_success response.1 then map_err (λ err, "invalid response: " +:+ err) (repo_list_from_str response.2)
        else if is_blank response.2 then Err "request failed" else Err response.2).

Definition fetch_health (endpoint : string) : page string Z :=
  response ← send_as "missing window" id (request "GET" endpoint);
  lift (if is_success response.1 then Ok response.1 else Err ("status " +:+ pretty response.1)).

Inductive HealthState := HealthIdle | HealthOk (status : Z) | HealthError (message : string).
Definition render_health (state : HealthState) : string :=
  match state with
  | HealthIdle => t "app.test.health.idle"
  | HealthOk status => t "app.test.health.ok" +:+ " (" +:+ pretty status +:+ ")"
  | HealthError message => t "app.test.health.fail" +:+ " (" +:+ message +:+ ")"
  end.

(** The signals of [run_health_check]: health, error and busy. *)
Definition run_health_check (endpoint : string) (sig : HealthState * option string * bool) (s : B * N)
    : HealthState * option string * bool * (B * N) :=
  if is_empty endpoint then (HealthError "missing url", sig.1.2, sig.2, s)
  else
    match fetch_health endpoint s with
    | (Ok status, s) => (HealthOk status, None, false, s)
    | (Err err, s) => (HealthError err, Some err, false, s)
    end.

(** The two signals of [PublicProfilePage] that are shown, when its task has ended; it panics
    with neither set. *)
Definition public_profile_page (state_url app_url npub : string) (s : B * N)
    : option (result string Profile * result string (list RepoListItem)) * (B * N) :=
  if is_blank npub then (Some (Err "missing npub", Err "missing npub"), s)
  else
    let '(profile, s) :=
      match state_profile_endpoint state_url npub with
      | Some endpoint =>
          match fetch_public_profile endpoint s with
          | (Ok profile, s) => (Some (Ok profile), s)
          | (Err (Raised err), s) => (Some (Err (ProfileClientError_display err)), s)
          | (Err Panicked, s) => (None, s)
          end
      | None => (Some (Err "missing profile endpoint"), s)
      end in
    match profile with
    | None => (None, s)
    | Some profile =>
        let '(repos, s) := fetch_repo_list (repo_list_by_owner_endpoint app_url npub) s in
        (Some (profile, repos), s)
    end.

(** The signals that creating a repository and the token set. *)
Record ConsoleSignals := mkConsoleSignals {
  cs_token : string; cs_repo : option CreatedRepo; cs_pubkey : option string; cs_error : option string; cs_busy : bool
}.

Definition console_load_token (sig : ConsoleSignals) (b : B) : ConsoleSignals * B :=
  match load_control_token b with
  | (Ok (Some token), b) => (mkConsoleSignals token (cs_repo sig) (cs_pubkey sig) (cs_error sig) (cs_busy sig), b)
  | (Ok None, b) => (sig, b)
  | (Err err, b) =>
      (mkConsoleSignals (cs_token sig) (cs_repo sig) (cs_pubkey sig) (Some (ControlTokenError_display err)) (cs_busy sig), b)
  end.
Definition save_control_token_action (sig : ConsoleSignals) (b : B) : ConsoleSignals * B :=
  match store_control_token (cs_token sig) b with
  | (Ok _, b) => (sig, b)
  | (Err err, b) =>
      (mkConsoleSignals (cs_token sig) (cs_repo sig) (cs_pubkey sig) (Some (ControlTokenError_display err)) (cs_busy sig), b)
  end.
Definition clear_control_token_action (sig : ConsoleSignals) (b : B) : ConsoleSignals * B :=
  match clear_control_token b with
  | (Ok _, b) => (mkConsoleSignals "" (cs_repo sig) (cs_pubkey sig) (cs_error sig) (cs_busy sig), b)
  | (Err err, b) =>
      (mkConsoleSignals (cs_token sig) (cs_repo sig) (cs_pubkey sig) (Some (ControlTokenError_display err)) (cs_busy sig), b)
  end.

Definition unless_blank (s : string) : option string := if is_blank s then None else Some (trim s).

Definition console_create_repo `{ControlEventCodec} (control_url name owner identifier description : string) (private : bool)
    (sig : ConsoleSignals) (s : B * N) : ConsoleSignals * (B * N) :=
  let refused message := (mkConsoleSignals (cs_token sig) (cs_repo sig) (cs_pubkey sig) (Some message) (cs_busy sig), s) in
  let done repo pubkey error := mkConsoleSignals (cs_token sig) repo pubkey error false in
  if is_blank (cs_token sig) then refused (t "app.test.control.missing_token")
  else if is_blank name then refused (t "app.test.control.missing_name")
  else
    match in_browser local_key_material s with
    | (Err err, s) => (done None None (Some (AuthError_display err)), s)
    | (Ok material, s) =>
        let input := mkControlRepoInput (trim name) (unless_blank owner) (unless_blank identifier) (unless_blank description)
                       (Some private) (lk_pubkey material) (lk_privkey material) in
        match create_repo control_url (cs_token sig) input s with
        | (Ok repo, s) => (done (Some repo) (Some (lk_pubkey material)) None, s)
        | (Err err, s) => (done None None (Some (ControlClientError_display err)), s)
        end
    end.
End Pages.

(** ** The pages at the service of accounts *)

Section AtAuth.
Context {B A P T : Type} `{WebWindowLaws B} `{AccountLaws A} `{ProfileLaws P} `{ForgejoTransport T} `{ForgejoCodec}.
Context `{HttpLib} `{Base64Laws} `{Nip98Codec} `{JsonLib} `{HexLaws} `{SchnorrSlices} `{!CryptoLaws} `{!K256Lib} `{!Bip340Laws}.
Context `{ProfileUpdateCodec} `{Bech32Lib} `{Bech32Encode} `{UnicodeTables} `{SessionCodec} `{Nip98Encode} `{BrowserCodec}.
Context (t : string → string) (auth : AuthConfig) (forgejo : ForgejoConfig).
Abbreviation service := (AuthAppState A P T).

(** What the browser and the service make of each other's messages: the request that
    arrives, the segments of its path, and the text of an answer. *)
Class AuthWire := {
  wire_new_request : FetchRequest → result string unit;
  wire_request : FetchRequest → HttpRequest;
  wire_path : string → list string;
  reply_text : AuthReply → string;
  error_text : string → string
}.
Context `{!AuthWire}.

(** The service, at its clock and with its random bytes, as the network of the browser. *)
Definition auth_serve (now : Z) (random : bytes) (q : FetchRequest) : stateful service string (Z * string) := λ s,
  match build_router_with_mode auth forgejo false now random (wire_path (wq_url q)) (wire_request q) with
  | None => (Ok (404%Z, ""), s)
  | Some handler =>
      let '(r, s) := handler s in
      (match r with
       | Ok reply => Ok (200%Z, reply_text reply)
       | Err (Raised err) => let '(status, message) := AuthHttpError_into_response err in Ok (status, error_text message)
       | Err Panicked => Err "connection closed"
       end, s)
  end.
Definition auth_network (now : Z) (random : bytes) : WebFetch service :=
  {| new_request := wire_new_request; fetch := auth_serve now random |}.

(** The method, the body and the header of a request arrive; the event is read as it was
    written; a token is text without blanks; the answer to a sign-up is read back. *)
Class AuthWireLaws : Prop := {
  wire_method : ∀ q, hq_method (wire_request q) = wq_method q;
  wire_body : ∀ q, hq_body (wire_request q) = default "" (wq_body q);
  wire_header : ∀ q value rest, wq_headers q = ("Authorization", value) :: rest →
    header_str AUTH_HEADER (hq_headers (wire_request q)) = Some value;
  wire_event : ∀ event b, nip98_to_vec event = Ok b → nip98_from_slice b = Some event;
  wire_token : ∀ event b, nip98_to_vec event = Ok b →
    plain_chars (ascii_chars (base64_encode b)) ∧ base64_encode b ≠ "";
  wire_signup_reply : ∀ r, signup_response_from_str (reply_text (ReSignup r)) = Ok r
}.
Context `{!AuthWireLaws}.

(** The service is reached at this address, by which it knows itself. *)
Definition reached_at (url : string) (path : list string) : Prop :=
  wire_path url = path ∧
  ∀ q, wq_url q = url → ∃ host, header_str "host" (hq_headers (wire_request q)) = Some host ∧
    request_url (default "http" (header_str "x-forwarded-proto" (hq_headers (wire_request q)))) host
      (uri_full_path (hq_uri (wire_request q))) = url.

Lemma nostr_token token :
  plain_chars (ascii_chars token) → token ≠ "" → strip_prefix "Nostr " (trim ("Nostr " +:+ token)) = Some token.
Proof.
  intros Hp Hne. assert (trim ("Nostr " +:+ token) = "Nostr " +:+ token) as ->; [|apply strip_prefix_app].
  rewrite <-(ascii_chars_concat token) at 1.
  assert (ascii_chars token ≠ []) as Hne' by by destruct token.
  destruct (exists_last Hne') as (cs & d & Hcs). rewrite <-(ascii_chars_concat token) at 2.
  assert (∀ cs, "Nostr " +:+ str_concat cs = str_concat (["N"; "o"; "s"; "t"; "r"; " "] ++ cs)) as E by done.
  rewrite Hcs in *. rewrite E. rewrite app_assoc. apply Forall_app in Hp as [Hcs' [[Hd Hw] _]%Forall_cons].
  change ((["N"; "o"; "s"; "t"; "r"; " "] ++ cs) ++ [d]) with ("N" :: ((["o"; "s"; "t"; "r"; " "] ++ cs) ++ [d])).
  apply trim_bounded; [|done|done]. apply Forall_cons. split; [done|]. rewrite !Forall_app. split_and!; [by repeat constructor| |by constructor].
  by apply plain_is_char.
Qed.

(** What the page sends is signed with the key of the browser. *)
Lemma sent_request_signed secret method url payload created_at event header q rest now skew :
  nip98_sign_event secret method url payload created_at = Ok event → auth_header event = Ok header →
  wq_method q = method → wq_url q = url → wq_headers q = ("Authorization", header) :: rest →
  reached_at url (wire_path url) → (Z.abs (now - created_at) ≤ skew)%Z →
  ∃ key, signing_key_from_bytes secret = Some key ∧ ne_pubkey event = hex_encode (verifying_key_bytes key) ∧
    request_signed uri_full_path skew now payload (wire_request q) event (verifying_key_bytes key).
Proof.
  intros Hsign Hheader Hm Hu Hh [_ Hat] Hskew.
  destruct (nip98_client_accepted _ _ _ _ _ _ now skew Hsign Hskew) as (key & Hkey & Hv).
  apply validate_nip98_Ok in Hv as [Ha Hauth]. injection Ha as Hpk. exists key. split; [done|]. split; [done|].
  unfold auth_header in Hheader. apply bind_Ok in Hheader as (b & Hb%map_err_Ok & [= <-]).
  destruct (wire_token _ _ Hb) as [Hplain Hne]. destruct (Hat q Hu) as (host & Hhost & Hurl).
  eexists host, (base64_encode b), b, _. split; [by eapply wire_header|]. split; [by apply nostr_token|].
  split; [apply base64_roundtrip|]. split; [by apply wire_event|]. split; [done|].
  rewrite Hurl, wire_method, Hm. exact Hauth.
Qed.

Lemma persist_session_spec (b : B) v pubkey source r b' :
  storage_holds b v → persist_session pubkey source b = (r, b') →
  ∃ v', storage_holds b' v' ∧ v' !! LOCAL_SECRET_KEY = v !! LOCAL_SECRET_KEY ∧
    ∀ session, r = Ok session → ∃ payload, session_to_string session = Ok payload ∧ v' !! SESSION_STORAGE_KEY = Some payload.
Proof.
  intros Hb. unfold persist_session, mbind, stateful_bind, lift.
  destruct (AuthSession_from_pubkey_hex pubkey source) as [session|] eqn:Es; simpl; [|intros [= <- <-]; by exists v].
  unfold store_session, store_payload, map_err_st, mbind, stateful_bind, lift.
  unfold to_json_string. destruct (session_to_string session) as [payload|] eqn:Ep; simpl; [|intros [= <- <-]; by exists v].
  unfold session_storage. destruct (local_storage_as _ _ _ b) as [[[]|] b0] eqn:E0;
    destruct (local_storage_answers _ _ _ _ _ _ _ Hb E0) as [Hb0 _]; simpl; [|intros [= <- <-]; by exists v].
  destruct (set_item _ _ b0) as [r1 b1] eqn:E1. pose proof (set_item_law _ _ _ _ _ _ Hb0 E1) as Hset. simpl in Hset.
  destruct r1 as [[]|e]; simpl; intros [= <- <-].
  - destruct Hset as [_ Hb1]. eexists. split; [exact Hb1|]. split; [by rewrite lookup_insert_ne|].
    intros x [= <-]. exists payload. split; [done|]. by rewrite lookup_insert_eq.
  - destruct Hset as [Hb1|Hb1]; eexists; (split; [exact Hb1|]); (split; [by rewrite ?lookup_insert_ne|done]).
Qed.

Abbreviation accounts := (gmap bytes string).
Abbreviation profiles := (gmap bytes ProfileRecord).
Abbreviation skew := (as_i64 (au_max_skew_seconds auth)).

(** A sign-up that finds an account does not ask the forge. *)
Lemma existing_leaves_forge now random q (st : service) r st' :
  signup_handler auth forgejo now random q st = (Ok r, st') → sr_status r = "existing" → as_transport st' = as_transport st.
Proof.
  unfold signup_handler, authenticate, attempt, expect. intros E Hr.
  apply stateful_bind_Ok in E as (caller & ? & [_ ->]%lift_Ok & E).
  apply stateful_bind_Ok in E as (username & ? & [_ ->]%lift_Ok & E).
  apply stateful_bind_Ok in E as (existing & s1 & Ha & E). unfold on_accounts in Ha.
  destruct (account_by_pubkey _ (as_accounts st)) as [ra a]. injection Ha as _ <-.
  destruct existing as [existing|]; [by injection E as _ <-|].
  do 5 apply stateful_bind_Ok in E as (? & ? & _ & E). by injection E as <- _.
Qed.

(** The answer to a sign-up that a page sends is the handler's, for the key that signed. *)
Lemma signup_served now random url event header pk st va vp r st' :
  reached_at url ["v1"; "signup"] → wq_url header = url → wq_method header = "POST" → wq_body header = None →
  request_signed uri_full_path skew now None (wire_request header) event pk →
  auth_inv st va vp → auth_serve now random header st = (Ok r, st') →
  ∀ response, parse_signup_response r.1 r.2 = Ok response →
    touched pk va vp (signed_up pk va vp (ne_pubkey event) response) st' ∧
    (sr_status response = "existing" → as_transport st' = as_transport st).
Proof.
  intros [Hpath _] Hu Hm Hb Hsigned Hi. unfold auth_serve. rewrite Hu, Hpath.
  unfold build_router_with_mode. rewrite bool_decide_eq_false_2 by done. rewrite bool_decide_eq_true_2 by done.
  rewrite wire_method, Hm. cbn [reply String.eqb Ascii.eqb Bool.eqb]. unfold mbind at 1, stateful_bind at 1.
  assert (payload_hash (hq_body (wire_request header)) = None) as Hpay by by rewrite wire_body, Hb.
  destruct (signup_handler auth forgejo now random (wire_request header) st) as [r0 st0] eqn:E0.
  rewrite <-Hpay in Hsigned. pose proof (signup_spec auth forgejo _ _ _ random _ _ _ Hsigned _ _ _ Hi E0) as Hspec.
  destruct r0 as [response|[err|]]; simpl; [intros [= <- <-] response'| |done].
  - unfold parse_signup_response. simpl. rewrite wire_signup_reply. intros [= <-]. split; [exact Hspec|].
    intros Hst. by eapply existing_leaves_forge.
  - destruct err; intros [= <- <-] response'; unfold parse_signup_response; simpl; done.
Qed.

(** What a page that signed up with the key of its browser leaves behind, where the forge was [f]. *)
Definition signed_in (v : gmap string string) (va : accounts) (vp : profiles) (f : T) (r : SignupResponse) (s : B * service) : Prop :=
  ∃ secret key v', storage_holds s.1 v' ∧ key_of v' = Some secret ∧
    (∀ x, v !! LOCAL_SECRET_KEY = Some x → v' !! LOCAL_SECRET_KEY = Some x) ∧
    signing_key_from_bytes secret = Some key ∧
    let pk := verifying_key_bytes key in
    touched pk va vp (signed_up pk va vp (hex_encode pk) r) s.2 ∧ (sr_status r = "existing" → as_transport s.2 = f).

Lemma signup_local_spec keep auth_url endpoint now now' random sig b st v va vp sig' s' r :
  let _ := auth_network now' random in
  signup_endpoint auth_url = Some endpoint → reached_at endpoint ["v1"; "signup"] → (Z.abs (now' - now) ≤ skew)%Z →
  storage_holds b v → auth_inv st va vp →
  signup_local t keep auth_url now sig (b, st) = (sig', s') → su_status sig' = Some r →
  signed_in v va vp (as_transport st) r s'.
Proof.
  intros network He Hat Hskew Hb Hi. unfold signup_local. rewrite He. change (default "" (Some endpoint)) with endpoint. unfold signup_with.
  assert (is_empty endpoint = false) as ->.
  { revert He. unfold signup_endpoint, endpoint_of. destruct (is_empty (trim auth_url)); [done|]. intros [= <-].
    by destruct (trim_end_matches "/" (trim auth_url)). }
  unfold signup_task, in_browser, local_key_event, mbind, stateful_bind, lift. cbn [fst snd].
  destruct (local_secret_key b) as [[secret|] b1] eqn:E1;
    destruct (local_secret_key_spec _ _ _ _ Hb E1) as (v1 & Hb1 & Hkeep & Hkey); [|by intros [= <- <-]]. cbv beta iota.
  destruct (nip98_sign_event secret "POST" endpoint None now) as [event|] eqn:Es; cbn [map_err]; cbv beta iota; [|by intros [= <- <-]].
  unfold signup, mbind, stateful_bind, lift. destruct (auth_header event) as [header|] eqn:Eh; cbn [map_err]; cbv beta iota; [|by intros [= <- <-]].
  set (q := mkFetchRequest "POST" endpoint [("Authorization", header); ("Accept", "application/json")] None).
  unfold send_as, mbind, stateful_bind, mret, stateful_ret, lift, in_browser, on_network, in_window, map_err_st. cbn [new_request fetch network auth_network fst snd].
  destruct (wire_new_request q); cbn [map_err]; cbv beta iota; [|by intros [= <- <-]].
  destruct (window b1); cbn [fst snd]; cbv beta iota; [|by intros [= <- <-]].
  destruct (auth_serve now' random q st) as [[response|] st1] eqn:Ea; cbn [map_err fst snd]; cbv beta iota; [|by intros [= <- <-]].
  destruct (parse_signup_response response.1 response.2) as [answer|] eqn:Ep; cbv beta iota; [|by intros [= <- <-]].
  destruct (sent_request_signed secret "POST" endpoint None now event header q _ now' skew Es Eh eq_refl eq_refl eq_refl
    (conj eq_refl (proj2 Hat)) Hskew) as (key & Hk & Hpk & Hsigned).
  pose proof (signup_served now' random endpoint event q _ st va vp _ _ Hat eq_refl eq_refl eq_refl Hsigned Hi Ea _ Ep) as [Ht Hforge].
  rewrite Hpk in Ht.
  destruct (persist_session (sr_pubkey answer) SourceLocal b1) as [r2 b2] eqn:Er.
  destruct (persist_session_spec _ _ _ _ _ _ Hb1 Er) as (v2 & Hb2 & Hsame & _).
  assert (signed_in v va vp (as_transport st) answer (b2, st1)) as Hin.
  { exists secret, key, v2. split_and!; [done| |intros x Hx; rewrite Hsame; by apply Hkeep|done|split; [exact Ht|exact Hforge]].
    unfold key_of. rewrite Hsame. by apply (Hkey secret). }
  destruct r2; intros [= <- <-] [= <-]; exact Hin.
Qed.

(** C27: a browser keeps its account.  When a page has signed up with the key of the browser,
    that key is in the browser's storage and the service has an account for the public key of
    that stored key under the name that was shown; and whoever acts in between, as long as the
    key stays in the storage and no account is lost, every later sign-up with the browser's key
    that is answered is answered for the same key and the same name, as one that exists: the
    accounts and profiles of the service stay as they are, and the forge is not asked.  The
    clocks of browser and service differ by no more than the service allows, each time.  (The
    page's other button signs up with an extension's key, of which nothing is said.) *)
Theorem browser_account_kept keep auth_url endpoint now now' random sig b st v va vp sig1 s1 r :
  signup_endpoint auth_url = Some endpoint → reached_at endpoint ["v1"; "signup"] → (Z.abs (now' - now) ≤ skew)%Z →
  storage_holds b v → auth_inv st va vp →
  (let _ := auth_network now' random in signup_local t keep auth_url now sig (b, st)) = (sig1, s1) → su_status sig1 = Some r →
  ∃ secret key v1 va1 vp1, storage_holds s1.1 v1 ∧ key_of v1 = Some secret ∧ signing_key_from_bytes secret = Some key ∧
    auth_inv s1.2 va1 vp1 ∧
    let pk := verifying_key_bytes key in
    sr_pubkey r = hex_encode pk ∧ va1 !! pk = Some (sr_username r) ∧
    ∀ later later' random2 sig2 b2 st2 v2 va2 vp2 sig3 s3 r2,
      (Z.abs (later' - later) ≤ skew)%Z → storage_holds b2 v2 → v2 !! LOCAL_SECRET_KEY = v1 !! LOCAL_SECRET_KEY →
      auth_inv st2 va2 vp2 → va1 ⊆ va2 →
      (let _ := auth_network later' random2 in signup_local t keep auth_url later sig2 (b2, st2)) = (sig3, s3) →
      su_status sig3 = Some r2 →
      sr_pubkey r2 = sr_pubkey r ∧ sr_username r2 = sr_username r ∧ sr_status r2 = "existing" ∧ auth_inv s3.2 va2 vp2 ∧
      as_transport s3.2 = as_transport st2.
Proof.
  intros He Hat Hskew Hb Hi E1 Hr.
  destruct (signup_local_spec keep auth_url endpoint now now' random sig b st v va vp sig1 s1 r He Hat Hskew Hb Hi E1 Hr)
    as (secret & key & v1 & Hb1 & Hk1 & _ & Hkey & (va1 & vp1 & Hi1 & (Hpk & Hname & _) & _) & _).
  exists secret, key, v1, va1, vp1. cbv zeta. split_and!; [done..|].
  intros later later' random2 sig2 b2 st2 v2 va2 vp2 sig3 s3 r2 Hskew2 Hb2 Hsame Hi2 Hsub E2 Hr2.
  destruct (signup_local_spec keep auth_url endpoint later later' random2 sig2 b2 st2 v2 va2 vp2 sig3 s3 r2 He Hat Hskew2 Hb2 Hi2 E2 Hr2)
    as (secret2 & key2 & v3 & Hb3 & Hk3 & Hkeep & Hkey2 & (va3 & vp3 & Hi3 & (Hpk2 & Hname2 & Hcase) & _) & Hforge).
  assert (v3 !! LOCAL_SECRET_KEY = v1 !! LOCAL_SECRET_KEY) as Hv.
  { rewrite <-Hsame. destruct (v2 !! LOCAL_SECRET_KEY) as [x|] eqn:Ex; [by apply Hkeep|].
    unfold key_of in Hk1. by rewrite <-Hsame in Hk1. }
  unfold key_of in Hk1, Hk3. rewrite Hv, Hk1 in Hk3. injection Hk3 as <-. rewrite Hkey in Hkey2. injection Hkey2 as <-.
  pose proof (lookup_weaken _ _ _ _ Hname Hsub) as Hva2.
  destruct Hcase as [(Hst & -> & ->)|(_ & Hnone & _)]; [|congruence].
  split_and!; [congruence|congruence|done|done|auto].
Qed.
End AtAuth.

(** ** A browser and a service *)

Module PagesSample.
#[local] Existing Instances json_model hex_model hex_model_laws crypto_model slices_model crypto_model_laws k256_model bip340_model_laws.
#[local] Existing Instances http_model sample_bech32_lib.

(** A browser that throws nothing. *)
#[local] Instance browser : WebWindow (gmap string string) := {|
  window _ := true; window_local_storage := λ b, (Ok true, b); get_item k := λ b, (Ok (b !! k), b);
  set_item k x := λ b, (Ok tt, <[k := x]> b); remove_item k := λ b, (Ok tt, delete k b);
  window_crypto := λ b, (Ok tt, b); get_random_values := λ b, (Ok sample_secret, b)
|}.
#[local] Instance browser_laws : WebWindowLaws (gmap string string).
Proof.
  refine {| storage_holds b v := b = v |}; intros; (intros ? ? ? ? -> [= <- <-]); try (split; [done|]; by intros ? [= <-]); done.
Defined.

(** Two events, by name; the digits of a name as its token. *)
Definition event_at (now : Z) : Nip98Event :=
  default (mkNip98Event "" "" 0 0 [] "" "") (ok (nip98_sign_event sample_secret "POST" "http://auth/v1/signup" None now)).
#[local] Instance event_eq_dec : EqDecision Nip98Event.
Proof. solve_decision. Defined.
#[local] Instance event_encode : Nip98Encode := {|
  nip98_to_vec e := if decide (e = event_at 100) then Ok "first" else if decide (e = event_at 500) then Ok "second" else Err "json"
|}.
#[local] Instance event_decode : Nip98Codec := {|
  nip98_from_slice b := if b == "first" then Some (event_at 100) else if b == "second" then Some (event_at 500) else None
|}.
#[local] Instance digits : Base64Lib := {| base64_decode := hex_decode; base64_encode := hex_encode |}.
#[local] Instance digits_laws : Base64Laws.
Proof. constructor. apply hex_decode_encode. Qed.

(** Answers: each text with its end marked. *)
Fixpoint quote (s : string) : string := match s with "" => "." | String a s => String "x" (String a (quote s)) end.
Fixpoint unquote (s : string) : option (string * string) :=
  match s with
  | String "." rest => Some ("", rest)
  | String "x" (String a s) => '(text, rest) ← unquote s; Some (String a text, rest)
  | _ => None
  end.
Lemma unquote_quote s rest : unquote (quote s +:+ rest) = Some (s, rest).
Proof. induction s as [|a s IH]; [done|]. cbn [quote]. rewrite !str_app_cons. cbn [unquote]. by rewrite IH. Qed.

#[local] Instance replies : BrowserCodec := {|
  signup_response_from_str s :=
    ok_or "json" ('(pubkey, s) ← unquote s; '(username, s) ← unquote s; '(status, _) ← unquote s;
                  Some (mkSignupResponse pubkey username status));
  error_response_from_str _ := None; profile_from_str _ := None; state_profile_from_str _ := Err "json"
|}.
#[local] Instance wire : AuthWire := {|
  wire_new_request _ := Ok tt;
  wire_request q :=
    let path := default "/" (strip_prefix "http://auth" (wq_url q)) in
    @mkHttpRequest http_model (wq_method q) (mkUri path None (Some path))
      (("host", "auth") :: match List.find (λ p, p.1 == "Authorization") (wq_headers q) with Some p => [("authorization", p.2)] | None => [] end)
      (default "" (wq_body q));
  wire_path url := if url == "http://auth/v1/signup" then ["v1"; "signup"] else [];
  reply_text r := match r with ReSignup r => quote (sr_pubkey r) +:+ quote (sr_username r) +:+ quote (sr_status r) | _ => "" end;
  error_text message := message
|}.
#[local] Instance wire_laws : AuthWireLaws.
Proof.
  constructor; try done.
  - intros q value rest Hq. unfold header_str. cbn. by rewrite Hq.
  - intros event b. cbn. repeat case_decide; intros [= <-]; subst; done.
  - intros event b. cbn. repeat case_decide; intros [= <-]; subst; (split; [|done]); repeat constructor.
  - intros [pubkey username status]. cbn [reply_text signup_response_from_str wire replies sr_pubkey sr_username sr_status].
    rewrite unquote_quote. cbn [mbind option_bind]. rewrite unquote_quote. cbn [mbind option_bind].
    rewrite <-(str_app_nil_r (quote status)), unquote_quote. done.
Qed.

#[local] Instance updates : ProfileUpdateCodec := {| profile_update_from_slice _ := Err "json" |}.
#[local] Instance sessions : SessionCodec := {| session_from_str _ := Err "json"; session_to_string s := Ok (se_pubkey s) |}.
#[local] Instance npubs : Bech32Encode := {| bech32_encode hrp b := Some (hrp +:+ "1") |}.
#[local] Instance unicode : UnicodeTables := {| unicode_lowercase s := s |}.
(** A forge that does not know the user, and creates [gt_ada]. *)
#[local] Instance transport : ForgejoTransport (list string) :=
  {| send q := λ s, (Ok (mkForgejoResponse (if is_nil s then 404 else 201) "user"), "sent" :: s) |}.
#[local] Instance forge_codec : ForgejoCodec := {|
  repo_from_str _ := Err "json"; user_from_str _ := Ok (mkForgejoUserResponse (Some "gt_ada") None None);
  org_from_str _ := Err "json"; pull_request_from_str _ := Err "json"; hooks_from_str _ := Err "json"
|}.
Definition auth : AuthConfig := mkAuthConfig "local.test" 60.
Definition forgejo : ForgejoConfig := mkForgejoConfig "http://forge/" "token" "gittree" "http://hook" "secret" false.
Abbreviation service := (AuthAppState MemoryAccounts MemoryProfiles (list string)).
Definition fresh : service := mkAuthAppState (mkMemoryAccounts ∅ ∅) (mkMemoryProfiles ∅) [].
Definition idle : SignupSignals := mkSignupSignals None None false None.
(** A press of the button at a time, and the clock of the service 30 seconds ahead. *)
Definition press (now : Z) (s : gmap string string * service) : SignupSignals * (gmap string string * service) :=
  let _ := auth_network auth forgejo (now + 30) "random" in signup_local id false "http://auth/" now idle s.

Lemma auth_address : reached_at "http://auth/v1/signup" ["v1"; "signup"].
Proof. split; [done|]. intros q Hq. exists "auth". split; [done|]. cbn. rewrite Hq.
  destruct (List.find (λ p : string * string, p.1 == "Authorization") (wq_headers q)); reflexivity.
Qed.
Lemma fresh_inv : auth_inv fresh ∅ ∅.
Proof. split; [by split|done|by intros p []]. Qed.

Lemma browser_account_kept_witness :
  ∃ r1 r2, su_status (press 100 (∅, fresh)).1 = Some r1 ∧ su_status (press 500 (press 100 (∅, fresh)).2).1 = Some r2 ∧
    sr_status r1 = "created" ∧ sr_status r2 = "existing" ∧ sr_username r2 = sr_username r1.
Proof.
  assert (su_status (press 100 (∅, fresh)).1 = Some (mkSignupResponse (hex_encode sample_secret) "gt_ada" "created")) as Er1
    by (vm_compute; reflexivity).
  assert (is_Some (su_status (press 500 (press 100 (∅, fresh)).2).1)) as [r2 Er2] by (vm_compute; by eexists).
  destruct (press 100 (∅, fresh)) as [sig1 [b1 st1]] eqn:E1. destruct (press 500 (b1, st1)) as [sig2 s2] eqn:E2.
  cbn [fst snd] in *. rewrite E2 in Er2. cbn [fst] in Er2 |- *. eexists _, r2. split; [exact Er1|].
  split; [by rewrite E2|]. split; [reflexivity|].
  destruct (browser_account_kept id auth forgejo false "http://auth/" "http://auth/v1/signup" 100 130 "random" idle
    ∅ fresh ∅ ∅ ∅ sig1 (b1, st1) _ ltac:(vm_compute; reflexivity) auth_address ltac:(vm_compute; discriminate)
    eq_refl fresh_inv E1 Er1) as (secret & key & v1 & va1 & vp1 & Hb & _ & _ & Hi & _ & _ & Hlater).
  destruct (Hlater 500%Z 530%Z "random" idle b1 st1 v1 va1 vp1 sig2 s2 r2) as (_ & Hname & Hstatus & _).
  - vm_compute; discriminate.
  - exact Hb.
  - reflexivity.
  - exact Hi.
  - reflexivity.
  - exact E2.
  - exact Er2.
  - split; [exact Hstatus|exact Hname].
Defined.
End PagesSample.
